(* ===== verification/_CoqProject ===== *)
-Q . S2P
Prelude.v
Prog.v
Threads.v
RelyGuarantee.v
Goroutines.v
WorkQueue.v
GoStd.v
NetIP.v
NetIPFacts.v
Ipam.v
IpamSpec.v
IpamCorrect.v
ApiTypes.v
HttpServer.v
Kube.v
ServiceLabels.v
FipController.v
FipCorrect.v
MemKube.v
FipDemo.v
PoolController.v
QuotaController.v
Webhook.v
WebhookCorrect.v
WebhookDemo.v
ApiServer.v
ApiServerCorrect.v
ApiServerSafe.v
ApiServerDemo.v
Middleware.v
ApiKeys.v
TlsReload.v
ApiKeysDemo.v
ApiLife.v
ApiLifeCorrect.v
DeepCopy.v
LbApi.v
LbController.v
LbReconcile.v
LbLoop.v
LbEvidence.v
LbDeleteCorrect.v
LbAllocCorrect.v
LbLoopCorrect.v
LbNames.v
LbClient.v
LbServer.v
LbServerCorrect.v
LbServe.v
LbDemo.v
LbRun.v
LbRunCorrect.v
LbStart.v
LbElect.v
LbStartDemo.v
CmApi.v
CmStart.v
CmHandlers.v
CmSecretsCorrect.v
CmProvisioning.v
CmProvisioningCorrect.v
CmQuota.v
CmQuotaCorrect.v
CmCleanupCorrect.v
CmDelivered.v
Helm.v
HelmCorrect.v
CmDemo.v
Manager.v
ManagerLogic.v
ManagerCorrect.v
ManagerEnds.v
ManagerDemo.v
WebhookCerts.v
WebhookCertsCorrect.v
WebhookLife.v
WebhookLifeCorrect.v
WebhookAdmission.v
Collector.v
ServicesDemo.v
