(* ===== verification/Prelude.v ===== *)
(** rancher-fip-manager: a verification of the manager of floating IPs.

    * The program

    A management cluster hands out addresses ("floating IPs") to the
    LoadBalancer services of downstream clusters.  Its parts, and how they act
    on each other:

    - the allocator ([pkg/ipam]): in memory, per pool, which address is taken and
      by whom;
    - the controllers of the management cluster ([pkg/controller/*]): one claims
      an address for a FloatingIP object and releases it on deletion, one builds
      the allocator's subnets from the FloatingIPPool objects, one keeps the
      FloatingIPProjectQuota objects.  They share the allocator and the API
      server of the cluster;
    - the admission webhook ([pkg/webhook/service]): it decides about creates and
      updates of these objects, with reservations for what the cluster does not
      show yet; its certificate ([pkg/webhook/config], [scheduler]) and its
      registration ([pkg/webhook/admission]) keep it reachable and fail closed;
    - the API server ([apiserver]): an HTTP service that creates, shares and
      releases FloatingIP objects for the clusters' requests and waits until the
      controller has assigned an address;
    - the load-balancer controller ([lbcontroller]): in each downstream cluster,
      it requests an address for each service from the API server, publishes it
      through MetalLB or PureLB, records it on the service and releases it when
      the service goes away; it serves a small management page;
    - the cluster manager ([clustermanager]): it installs the load-balancer
      controller in the downstream clusters, hands them the credentials of their
      project, takes these back when the project's quota goes away, and releases
      the addresses of a cluster that is gone.

    * The model

    Code is translated function by function; a function that the source writes
    inline is named after what it does.  There are two kinds of program:

    - [M (World S)], in [Prelude] and [Kube]: state passing, for the management
      cluster.  The state holds the allocator, the reservations and the cluster;
      the cluster is an interface, [KubeAPI S], and before every call [others]
      may change the cluster and the allocator: it is everybody else.  What is
      assumed of it is a hypothesis of the theorem that needs it ([respects]).
    - [Prog E A], in [Prog]: a tree of calls whose answers are arbitrary, for the
      load-balancer controller, its client and its page, for the cluster manager
      and its Helm client, and for the webhook's certificate and registration.  A
      theorem about all runs ([execs]) is proved with [wp], whose guard says which
      call is allowed after which history.  [Threads] runs several programs side
      by side on a shared state, with any interleaving of their calls;
      [Goroutines] adds the channels, wait groups and contexts of Go, and
      [RelyGuarantee] the logic for programs that wait for each other.

    Libraries of third parties are interfaces: [KubeAPI], [RetrySpec] and
    [Retries] (client-go), [JWT], [Bucket], [LbLibs], [HttpLib], [CmLibs],
    [HelmLibs], [CertLib], [WorkQueue], [KeyFunc], [RsaLib], [JWTSigner], [CertPoolLib], [MapRange] (the
    order in which Go ranges over a map is any order).  Go's own [net], [net/netip], [strings], [strconv] and SHA-256 are modelled ([GoStd],
    [NetIP]).  A Go error is its class and its message; a panic is an
    error of class [KPanic].

    * Files

    Prelude, Prog, Threads, RelyGuarantee, Goroutines, WorkQueue: errors, monads,
    programs and their interleavings, the queue of client-go, notations, tactics,
    generic lemmas.  HttpServer: the life of a server of net/http, which ApiLife,
    WebhookLife and LbServe share.
    GoStd, NetIP, NetIPFacts: the standard library; parsing inverts
    printing for addresses.

    Ipam models pkg/ipam/ipam.go; IpamSpec is the specification, finite maps of
    claims, and the simulation; IpamCorrect has the theorems: every run of calls
    refines the specification, claims of an owner survive all others, an
    allocation fails exactly if the pool is full, building a subnet ends.

    ApiTypes models pkg/apis; Kube the shared state and the controllers' calls;
    ServiceLabels, FipController, PoolController and QuotaController model
    pkg/controller/floatingip, floatingippool and floatingipprojectquota.
    FipCorrect: an address is written into a status only if the allocator holds
    it for that object, two addresses that are announced while nobody interferes
    with the allocator differ, a failed run leaks no claim (if every
    address of the pool can be named in its subnet), a deletion releases.  The
    theorems on pools (a sync rebuilds the allocator from the list it has read, and
    writes a status that agrees) and quotas are in the files of their controllers.  MemKube
    and FipDemo instantiate the interfaces and run the controllers.

    Manager models the life of this process: cmd/manager/main.go, the Run and the
    event handlers of the three controllers with their workers, and the HTTP
    service, as goroutines; the handling of one item is one call there.
    ManagerLogic states what each goroutine relies on.  ManagerCorrect: nothing is
    handled before the caches are filled and the initial syncs that come first are
    done, every item given back was handled, and no item is in a controller's hands
    when run has returned (of the lease nothing is said: it is given up before the
    drain); ManagerEnds: a shutdown neither deadlocks nor goes on for
    ever.  ManagerDemo has a scheduler and runs, among them two races.

    Webhook models pkg/webhook/service; WebhookCorrect: no address is admitted
    twice, no burst of creates exceeds what the quota leaves beside the older
    floating IPs and the reservations that last (a floating IP that is younger and
    whose reservation runs out is the exception), what is admitted can be built and
    granted.  WebhookDemo has the instances.  WebhookCerts models
    pkg/webhook/config and scheduler; WebhookCertsCorrect: a renewal writes only
    signed material and takes nothing away.  WebhookLife models cmd/webhook and the
    endpoint with its renewals; WebhookLifeCorrect: a renewal keeps the endpoint
    serving.  WebhookAdmission models
    pkg/webhook/admission: what is registered fails closed, and the waits between
    the attempts double.  Collector models
    pkg/service/collector.go and says when the registry accepts a scrape.
    ServicesDemo has the instances.

    ApiServer models apiserver/internal/handlers and kubebuilder, Middleware
    models apiserver/internal/middleware and auth.  ApiServerCorrect,
    ApiServerSafe: what a request may write and delete, the round trip of the
    service labels, the wait.  ApiKeys models the signing key and the tokens,
    TlsReload the certificate of the listener (apiserver/cmd/api-server/tlscert.go).
    ApiKeys: replicas that start side by side agree on the key, and a token
    that one issues is accepted by all; TlsReload: a handshake always gets a
    pair that was read consistently.  ApiLife models apiserver/cmd/api-server/main.go,
    and ApiLifeCorrect shows that the server is ready only while its port accepts,
    that its requests are drained when it stops, unless log.Fatal ends the process, and
    that a signal ends it.
    ApiServerDemo and ApiKeysDemo have the instances.

    DeepCopy models lbcontroller/pkg/purelb/types.go over a heap, where a pointer is a
    location: a copy shares nothing with its original, which is why the other files may
    take a deep copy for the value itself.

    LbApi, LbController, LbReconcile and LbLoop model
    lbcontroller/internal/controller/controller.go.  LbEvidence states what a
    history shows of an address: who references it, who claims it, whether its
    pool is withdrawn.  LbDeleteCorrect: the steps of a deletion come in order, and the address is given
    back while its lock is held, on evidence gathered since it was taken.
    LbAllocCorrect: an address is requested once, marked before, and recorded or
    given back.  LbLoopCorrect: the snapshot of a vanished service, with the address
    that a failed run held, is kept until its address is released.  LbNames: a pool covers its own address only, and
    two addresses do not share a name.  LbClient models
    lbcontroller/pkg/ipam/client.go, with its composition with the handler of
    the API server.  LbRun models the life of that controller, its workers and the
    drain when the lease is lost; LbRunCorrect: a reconcile in flight
    keeps its context until the workers are gone or the grace period is over, and
    Run returns though workers hang; LbStartDemo has runs of both.  LbServer models
    lbcontroller/pkg/http/server.go and LbServerCorrect what a request to it may do; LbServe its listeners: the page is
    ready only once its port is open, what Start returns has its reason, and it ends
    with its context.  LbStart models
    lbcontroller/cmd/lb-controller/main.go: the CA bundle, the page's credentials
    and the label of the leader; LbStart: the pages of all replicas share
    one pair of credentials, and a pod is labelled only once its page is served.
    LbElect models the callbacks of its leader election, alone and as one process with
    LbRun: the process exits only when the lease is over and the reconciles that were in flight
    are through or their time is up, and it does exit.
    LbDemo and LbStartDemo have the instances.

    CmApi and CmHandlers model the calls and the handlers of the cluster manager
    (clustermanager/internal/secret, pkg/config, and the *_handler.go and
    downstream.go of pkg/controllers); CmStart the start of its main.go, whose
    reconcilers get the configuration that was read; CmProvisioning and CmQuota model
    clusterprovisioning_controller.go and floatingipprojectquota_controller.go.
    CmSecretsCorrect: when the config secrets are handed over, both clusters hold
    the same credentials, and the CA bundle is the current one; CmDelivered: the
    load-balancer controller accepts them, if its fields are not empty.
    CmProvisioningCorrect: charts before credentials, no credentials without a
    quota, all for the project that the cluster's machines belong to, and nothing of a cluster that is gone stays claimed.  CmQuotaCorrect: the sweep spares live projects.  CmCleanupCorrect:
    the finalizer of a quota goes last, and a quota writes to its own cluster.
    Helm and HelmCorrect model clustermanager/internal/helm: a release converges,
    and the files of the repositories are read and written under one hold of their
    lock.  CmDemo has the
    instances.

    * Bounds and fuel

    Addresses are 128-bit values, counters of the source are 64-bit and their
    bounds are written out.  [loop_fuel] is one more than the largest range that
    the source accepts, 65536 addresses; [IpamCorrect] shows that this is enough
    for every loop over a pool that ends at all, and which pool loops for ever.  The wait
    for an address takes the number of rounds as fuel: with too little fuel its
    result is [None], which the theorem on the wait ties to a context that was
    alive in every round.  [max_polls] is the number of polls that fit into the
    source's timeout, [csr_polls] those of a signing request.  A worker of the manager
    takes any number of items, the bound of its loop, and needs two rounds of the
    loop around that one, which ManagerCorrect shows; the workers of LbRun have the
    same two bounds, and the theorems on it do not depend on them.  The renewal of the
    certificate and the sweeps of the page's sessions run for any number of rounds.  The retries of client-go are any number of attempts
    ([RetrySpec], [Retries]).

    * Not modelled

    Goroutines, informers, work queues and listeners, except in Manager, LbRun, LbServe,
    LbElect, ApiLife and WebhookLife: elsewhere an operation runs with everybody else between any
    two of its calls.  Context timeouts of single calls, which show as their errors.  TLS,
    command lines and log lines.  The generated clients, and the construction of
    clients.  Of the start-up of the programs, flags and environment, and of the leader
    election everything but the callbacks. *)

From Stdlib Require Export ZArith Lia.
From stdpp Require Export base tactics list strings gmap fin_maps sorting.

#[global] Open Scope string_scope.
#[global] Open Scope list_scope.
#[global] Open Scope Z_scope.
Abbreviation length := List.length.

(** ** Go errors

    A Go [error] is its class, which the code tests with [errors.Is] and
    [apierrors.IsNotFound] and friends, and its message.  [fmt.Errorf] with
    [%w] keeps the class of the wrapped error, [%v] and [%s] drop it. *)
Inductive ErrKind :=
| KOther
| KNotFound
| KConflict
| KAlreadyExists
| KForbidden
| KStatus (code : Z)          (* another status of the Kubernetes API *)
| KHTTP (code : Z)            (* [errHTTP] of the API server *)
| KForeignClaim
| KFIPClaimed
| KDeadlineExceeded
| KCanceled
| KCertUnusable               (* [errCertUnusable] of the webhook *)
| KPanic.

#[export] Instance ErrKind_eq_dec : EqDecision ErrKind.
Proof. solve_decision. Defined.

Record error := mkErr { err_kind : ErrKind; err_msg : string }.

#[export] Instance error_eq_dec : EqDecision error.
Proof. solve_decision. Defined.

Definition errorf (msg : string) : error := mkErr KOther msg.
Definition wrapf (msg : string) (e : error) : error :=
  mkErr (err_kind e) (msg +:+ ": " +:+ err_msg e).

Definition IsNotFound (e : error) : bool := bool_decide (err_kind e = KNotFound).
Definition IsConflict (e : error) : bool := bool_decide (err_kind e = KConflict).
Definition IsAlreadyExists (e : error) : bool := bool_decide (err_kind e = KAlreadyExists).

(** The pair [(value, error)] most Go functions return. *)
Inductive res (A : Type) :=
| Ok (a : A)
| Err (e : error).
Arguments Ok {A} a.
Arguments Err {A} e.

Definition is_ok {A} (r : res A) : bool := match r with Ok _ => true | Err _ => false end.
Definition is_err {A} (r : res A) : bool := negb (is_ok r).

Lemma is_ok_true {A} (r : res A) : is_ok r = true ↔ ∃ a, r = Ok a.
Proof. destruct r; simpl; split; intros Hr; [by eexists | done | done | by destruct Hr]. Qed.

(** ** Stateful code: explicit state passing *)
Definition M (St A : Type) : Type := St → A * St.

Definition ret {St A} (a : A) : M St A := λ s, (a, s).
Definition bind {St A B} (m : M St A) (k : A → M St B) : M St B :=
  λ s, match m s with (a, s') => k a s' end.
Definition gets {St A} (f : St → A) : M St A := λ s, (f s, s).
Definition modify {St} (f : St → St) : M St unit := λ s, (tt, f s).

Declare Scope go_scope.
Delimit Scope go_scope with go.

Notation "'let!' x := m 'in' k" := (bind m (λ x, k))
  (at level 10, x binder, m at level 100, k at level 200) : go_scope.
Notation "'try!' x := m 'else' e => h 'in' k" :=
  (bind m (λ r, match r with Ok x => k | Err e => h end))
  (at level 10, x name, e name, m at level 100, h at level 100, k at level 200) : go_scope.
Notation "m1 ;;; k" := (bind m1 (λ _, k))
  (at level 199, right associativity) : go_scope.

Lemma bind_eq {St A B} (m : M St A) (k : A → M St B) s a s' :
  m s = (a, s') → bind m k s = k a s'.
Proof. unfold bind. by intros ->. Qed.

Lemma bind_ret {St A B} (a : A) (k : A → M St B) : bind (ret a) k = k a.
Proof. reflexivity. Qed.

Create HintDb go.
Create Rewrite HintDb go.
#[export] Hint Rewrite @bind_ret : go.

(** ** Ranging over a Go map

    Go iterates over a map in an unspecified order.  Code that ranges over a
    map is written against [range], any function that lists the entries of the
    map in some order; no property depends on which one. *)
Class MapRange := {
  range : ∀ {V : Type}, gmap string V → list (string * V);
  range_perm : ∀ {V : Type} (m : gmap string V), range m ≡ₚ map_to_list m
}.

Definition sorted_range : MapRange :=
  {| range := λ V m, map_to_list m; range_perm := λ V m, Permutation_refl _ |}.

Section MapRangeFacts.
Context `{MapRange} {V : Type}.

Lemma elem_of_range (m : gmap string V) k v : (k, v) ∈ range m ↔ m !! k = Some v.
Proof. rewrite range_perm. apply elem_of_map_to_list. Qed.

Lemma NoDup_range_fst (m : gmap string V) : NoDup (range m).*1.
Proof. rewrite range_perm. apply NoDup_fst_map_to_list. Qed.

Lemma NoDup_range (m : gmap string V) : NoDup (range m).
Proof. apply (NoDup_fmap_1 fst), NoDup_range_fst. Qed.

Lemma length_range (m : gmap string V) : length (range m) = size m.
Proof. rewrite range_perm. apply length_map_to_list. Qed.

Lemma list_to_map_range (m : gmap string V) : list_to_map (range m) = m.
Proof.
  rewrite (list_to_map_proper (range m) (map_to_list m)).
  - apply list_to_map_to_list.
  - apply NoDup_range_fst.
  - apply range_perm.
Qed.
End MapRangeFacts.

(** ** Go's zero values for maps and pointers *)
Definition map_get {V} (zero : V) (m : gmap string V) (k : string) : V :=
  default zero (m !! k).
Notation "m .[ k ]" := (map_get "" m k) (at level 1, format "m .[ k ]") : go_scope.

Definition is_some {A} (o : option A) : bool :=
  match o with Some _ => true | None => false end.

Lemma is_some_true {A} (o : option A) : is_some o = true ↔ is_Some o.
Proof. split; [destruct o; [by eexists | done] | by intros [? ->]]. Qed.

(** ** Tactics of the development *)

(** Open existentials and conjunctions in the context. *)
Ltac deex :=
  repeat match goal with
    | H : ∃ _, _ |- _ => destruct H
    | H : _ ∧ _ |- _ => destruct H
    end.

(** Case analysis on the scrutinee of the first [match] or [if] of a
    hypothesis or the goal, keeping the equation. *)
Ltac case_on H :=
  match type of H with
  | context [match ?x with _ => _ end] =>
      lazymatch x with
      | context [match _ with _ => _ end] => fail
      | _ => destruct x eqn:?
      end
  end.

Ltac case_goal :=
  match goal with
  | |- context [match ?x with _ => _ end] =>
      lazymatch x with
      | context [match _ with _ => _ end] => fail
      | _ => destruct x eqn:?
      end
  end.

Ltac split_cases H := repeat (case_on H; simplify_eq/=; try done).

Ltac bool_hyps :=
  repeat match goal with
    | H : andb _ _ = true |- _ => apply andb_true_iff in H; destruct H
    | H : orb _ _ = false |- _ => apply orb_false_iff in H; destruct H
    | H : negb _ = true |- _ => apply negb_true_iff in H
    | H : negb _ = false |- _ => apply negb_false_iff in H
    | H : bool_decide _ = true |- _ => apply bool_decide_eq_true in H
    | H : bool_decide _ = false |- _ => apply bool_decide_eq_false in H
    | H : (_ =? _)%Z = true |- _ => apply Z.eqb_eq in H
    | H : (_ =? _)%Z = false |- _ => apply Z.eqb_neq in H
    | H : (_ <? _)%Z = true |- _ => apply Z.ltb_lt in H
    | H : (_ <? _)%Z = false |- _ => apply Z.ltb_ge in H
    | H : (_ <=? _)%Z = true |- _ => apply Z.leb_le in H
    | H : (_ <=? _)%Z = false |- _ => apply Z.leb_gt in H
    end.

(** Replace powers of two with closed exponents by their values, for [lia]. *)
Ltac pow_consts :=
  repeat match goal with
    | |- context [2 ^ ?k] => let v := eval vm_compute in (2 ^ k) in
        lazymatch v with context [Z.pow] => fail | _ => change (2 ^ k) with v end
    | H : context [2 ^ ?k] |- _ => let v := eval vm_compute in (2 ^ k) in
        lazymatch v with context [Z.pow] => fail | _ => change (2 ^ k) with v in H end
    end.

(** [lia] with division and remainder by constants. *)
Ltac zlia := pow_consts; Z.div_mod_to_equations; lia.

(** ** Generic list facts *)

Lemma elem_of_head_filter {A} (P : A → Prop) `{∀ x, Decision (P x)} l x :
  head (filter P l) = Some x → x ∈ l ∧ P x.
Proof.
  intros Hh. assert (x ∈ filter P l) as Hx.
  { destruct (filter P l); simplify_eq/=. by left. }
  apply list_elem_of_filter in Hx. tauto.
Qed.

Lemma NoDup_fst_unique {K V} (l : list (K * V)) k v v' :
  NoDup l.*1 → (k, v) ∈ l → (k, v') ∈ l → v = v'.
Proof.
  induction l as [|[k0 v0] l IH]; simpl; intros Hnd Hv Hv'.
  { by apply not_elem_of_nil in Hv. }
  apply NoDup_cons in Hnd as [Hni Hnd].
  apply elem_of_cons in Hv as [Hv | Hv]; apply elem_of_cons in Hv' as [Hv' | Hv'];
    simplify_eq; try done.
  - exfalso. apply Hni. apply list_elem_of_fmap. by exists (k0, v').
  - exfalso. apply Hni. apply list_elem_of_fmap. by exists (k0, v).
  - by apply IH.
Qed.

Lemma NoDup_fst_filter {K V} (P : K * V → Prop) `{∀ x, Decision (P x)} (l : list (K * V)) :
  NoDup l.*1 → NoDup (filter P l).*1.
Proof.
  induction l as [|x l IH]; intros Hnd; [done|]. simpl in Hnd. apply NoDup_cons in Hnd as [Hni Hnd].
  rewrite filter_cons. case_decide; [|by apply IH]. simpl. apply NoDup_cons. split; [|by apply IH].
  intros (y & Hy & [_ Hin]%list_elem_of_filter)%list_elem_of_fmap. apply Hni, list_elem_of_fmap. eauto.
Qed.

Lemma filter_all {A} (P : A → Prop) `{∀ x, Decision (P x)} (l : list A) :
  Forall P l → filter P l = l.
Proof.
  induction 1 as [|x l Hx _ IH]; [done|]. rewrite filter_cons, decide_True by done. by rewrite IH.
Qed.

(** A counting loop over a map counts the entries of the filtered map. *)
Lemma length_filter_range `{MapRange} {V} (P : string * V → Prop) `{∀ x, Decision (P x)}
    (m : gmap string V) :
  length (filter P (range m)) = size (filter P m).
Proof.
  rewrite map_filter_alt, map_size_list_to_map by apply NoDup_fst_filter, NoDup_fst_map_to_list.
  apply Permutation_length. by rewrite (range_perm m).
Qed.

Lemma foldl_count {A} (test : A → bool) (l : list A) : ∀ i : Z,
  foldl (λ i e, if test e then i + 1 else i) i l =
  i + Z.of_nat (length (filter (λ e, test e = true) l)).
Proof.
  induction l as [|x l IH]; intros i; [simpl; lia|]. cbn [foldl]. rewrite IH, filter_cons.
  destruct (test x) eqn:Hx; [rewrite decide_True by done; cbn [length]; lia |].
  rewrite decide_False by congruence. done.
Qed.
