(* ===== verification/Prog.v ===== *)
(** Programs as trees of calls.

    The load-balancer controller talks to many services: the API server of its
    cluster, MetalLB, PureLB, the address manager.  Its code is written as a
    [Prog E A], a tree whose nodes are calls [E R] and whose branches are the
    answers [R]; nothing is assumed of an answer, so the rest of the system may
    do anything between two calls.

    [execs] gives a tree its runs, as the history of the calls made and their
    answers (newest first); [run] executes it against a handler.  [wp] is the
    logic of the development: every call of the tree is allowed by a guard that
    sees the history so far, and the result satisfies a postcondition. *)

From S2P Require Import Prelude.

Inductive Prog (E : Type → Type) (A : Type) : Type :=
| Ret (a : A)
| Do {R : Type} (c : E R) (k : R → Prog E A).
Arguments Ret {E A}.
Arguments Do {E A R}.

(** A call that was made, and its answer. *)
Record Ev (E : Type → Type) := mkEv { ev_R : Type; ev_c : E ev_R; ev_ans : ev_R }.
Arguments mkEv {E ev_R}.
Arguments ev_R {E}.
Arguments ev_c {E}.
Arguments ev_ans {E}.

Definition History (E : Type → Type) : Type := list (Ev E).

Fixpoint pbind {E A B} (p : Prog E A) (f : A → Prog E B) : Prog E B :=
  match p with
  | Ret a => f a
  | Do c k => Do c (λ r, pbind (k r) f)
  end.

Definition call {E R} (c : E R) : Prog E R := Do c Ret.

Declare Scope prog_scope.
Delimit Scope prog_scope with prog.

Notation "'let!' x := m 'in' k" := (pbind m (λ x, k))
  (at level 10, x binder, m at level 100, k at level 200) : prog_scope.
Notation "'try!' x := m 'else' e => h 'in' k" :=
  (pbind m (λ r, match r with Ok x => k | Err e => h end))
  (at level 10, x name, e name, m at level 100, h at level 100, k at level 200) : prog_scope.
Notation "m1 ;;; k" := (pbind m1 (λ _, k))
  (at level 199, right associativity) : prog_scope.

(** ** Runs *)

Inductive execs {E A} : Prog E A → History E → A → History E → Prop :=
| execs_ret a h : execs (Ret a) h a h
| execs_do {R} (c : E R) k r h a h' :
    execs (k r) (mkEv c r :: h) a h' → execs (Do c k) h a h'.

(** A handler answers the calls from a state of its own. *)
Definition Handler (E : Type → Type) (S : Type) : Type := ∀ R, E R → S → R * S.

Fixpoint run {E S A} (handle : Handler E S) (p : Prog E A) (s : S) (h : History E) : A * S * History E :=
  match p with
  | Ret a => (a, s, h)
  | Do c k => let '(r, s) := handle _ c s in run handle (k r) s (mkEv c r :: h)
  end.

Lemma run_execs {E S A} (handle : Handler E S) (p : Prog E A) : ∀ s h,
  execs p h (run handle p s h).1.1 (run handle p s h).2.
Proof.
  induction p as [a|R c k IH]; intros s h; simpl; [constructor|].
  destruct (handle R c s) as [r s']. econstructor. apply IH.
Qed.

(** ** Guarded weakest preconditions *)

Section WP.
Context {E : Type → Type}.

(** Which calls are allowed after a history. *)
Definition Guard : Type := History E → ∀ R, E R → Prop.

Fixpoint wp {A} (G : Guard) (p : Prog E A) (Q : A → History E → Prop) (h : History E) : Prop :=
  match p with
  | Ret a => Q a h
  | Do c k => G h _ c ∧ ∀ r, wp G (k r) Q (mkEv c r :: h)
  end.

(** Every call after [h0] was allowed when it was made. *)
Definition obeys (G : Guard) (h0 h : History E) : Prop :=
  ∃ l, h = l ++ h0 ∧ ∀ l1 ev l2, l = l1 ++ ev :: l2 → G (l2 ++ h0) _ (ev_c ev).

Lemma obeys_refl G h : obeys G h h.
Proof. exists []. split; [done|]. intros [|??] ???; done. Qed.

Lemma obeys_step G h {R} (c : E R) r h' :
  G h R c → obeys G (mkEv c r :: h) h' → obeys G h h'.
Proof.
  intros Hc (l & -> & Hl). exists (l ++ [mkEv c r]). split; [by rewrite <- app_assoc|].
  intros l1 ev l2 Heq. destruct l2 as [|e2 l2 _] using rev_ind.
  - apply app_inj_tail in Heq as [-> <-]. done.
  - rewrite app_comm_cons, app_assoc in Heq. apply app_inj_tail in Heq as [Heq <-].
    specialize (Hl _ _ _ Heq). by rewrite <- app_assoc.
Qed.

Lemma wp_execs {A} G (p : Prog E A) Q h a h' :
  execs p h a h' → wp G p Q h → Q a h' ∧ obeys G h h'.
Proof.
  induction 1 as [a h|R c k r h a h' Hr IH]; simpl; [intros; split; [done | apply obeys_refl]|].
  intros [Hc Hk]. destruct (IH (Hk r)) as [? Ho]. split; [done | by eapply obeys_step].
Qed.

Lemma wp_bind {A B} G (p : Prog E A) (f : A → Prog E B) Q : ∀ h,
  wp G p (λ a, wp G (f a) Q) h → wp G (pbind p f) Q h.
Proof. induction p as [a|R c k IH]; intros h; simpl; [done|]. intros [? Hk]. split; [done|]. eauto. Qed.

Lemma wp_weaken {A} G G' (p : Prog E A) (Q Q' : A → History E → Prop) : ∀ h,
  wp G p Q h → (∀ h R (c : E R), G h R c → G' h R c) → (∀ a h, Q a h → Q' a h) → wp G' p Q' h.
Proof.
  intros h Hp HG HQ. revert h Hp. induction p as [a|R c k IH]; intros h; simpl; [apply HQ|].
  intros [? Hk]. split; [by apply HG|]. intros r. by apply IH.
Qed.

Lemma obeys_weaken (G G' : Guard) h h' :
  (∀ h R (c : E R), G h R c → G' h R c) → obeys G h h' → obeys G' h h'.
Proof. intros HG (l & -> & Hl). exists l. split; [done|]. intros l1 ev l2 Heq. by eapply HG, Hl. Qed.

(** The history only grows. *)
Definition extends (h0 h : History E) : Prop := ∃ l, h = l ++ h0.

#[global] Instance extends_preorder : PreOrder extends.
Proof.
  split; [intros h; by exists []|]. intros h1 h2 h3 [l1 ->] [l2 ->]. exists (l2 ++ l1). by rewrite app_assoc.
Qed.

Lemma extends_cons h0 ev h : extends h0 h → extends h0 (ev :: h).
Proof. intros [l ->]. by exists (ev :: l). Qed.

(** What a history shows stays shown. *)
Lemma Exists_extends (P : Ev E → Prop) h0 h : extends h0 h → Exists P h0 → Exists P h.
Proof. intros [l ->] Hp. apply Exists_app. by right. Qed.

Lemma wp_extends {A} G (p : Prog E A) Q : ∀ h,
  wp G p Q h → wp G p (λ a h', Q a h' ∧ extends h h') h.
Proof.
  intros h Hp. cut (∀ h0, extends h0 h → wp G p (λ a h', Q a h' ∧ extends h0 h') h); [intros Hc; by apply Hc|].
  revert h Hp. induction p as [a|R c k IH]; intros h; simpl; [done|]. intros [? Hk] h0 Hh. split; [done|].
  intros r. apply IH; [done | by apply extends_cons].
Qed.

Lemma elem_extends (ev : Ev E) h0 h : ev ∈ h0 → extends h0 h → ev ∈ h.
Proof. intros Hev [l ->]. apply elem_of_app. by right. Qed.

Lemma wp_ret {A} G (a : A) (Q : A → History E → Prop) h : Q a h → wp G (Ret a) Q h.
Proof. done. Qed.

Lemma wp_call {R} G (c : E R) (Q : R → History E → Prop) h :
  G h R c → (∀ a, Q a (mkEv c a :: h)) → wp G (call c) Q h.
Proof. done. Qed.

Lemma wp_call_then {R B} G (c : E R) (f : R → Prog E B) Q h :
  G h R c → (∀ a, wp G (f a) Q (mkEv c a :: h)) → wp G (pbind (call c) f) Q h.
Proof. done. Qed.

(** A guard that follows from another one after the history so far. *)
Lemma wp_guard {A} G G' (p : Prog E A) Q h :
  wp G p Q h → (∀ h' R (c : E R), extends h h' → G h' R c → G' h' R c) → wp G' p Q h.
Proof.
  intros Hp HG. cut (∀ h0, extends h0 h → (∀ h' R (c : E R), extends h0 h' → G h' R c → G' h' R c) → wp G' p Q h);
    [intros Hc; by apply (Hc h)|].
  clear HG. revert h Hp. induction p as [a|R c k IH]; intros h; simpl; [done|]. intros [Hc Hk] h0 Hh HG.
  split; [by apply HG|]. intros x. eapply IH; [done | by apply extends_cons | done].
Qed.

(** What the first part establishes is known in the second. *)
Lemma wp_seq {A B} G (p : Prog E A) (f : A → Prog E B) P Q h :
  wp G p P h → (∀ a h', P a h' → extends h h' → wp G (f a) Q h') → wp G (pbind p f) Q h.
Proof.
  intros Hp Hf. apply wp_bind. eapply wp_weaken; [by apply wp_extends | done|].
  intros a h' [? ?]. by apply Hf.
Qed.

Lemma wp_post {A} G (p : Prog E A) (P Q : A → History E → Prop) h :
  wp G p P h → (∀ a h', P a h' → extends h h' → Q a h') → wp G p Q h.
Proof.
  intros Hp HQ. eapply wp_weaken; [by apply wp_extends | done|]. intros a h' [? ?]. by apply HQ.
Qed.

(** What every call of a program satisfies, every new event does. *)
Definition only (P : ∀ R, E R → Prop) (h h' : History E) : Prop :=
  ∃ l, h' = l ++ h ∧ Forall (λ ev, P _ (ev_c ev)) l.

Lemma wp_only {A} (P : ∀ R, E R → Prop) G (p : Prog E A) Q : (∀ h R c, G h R c → P R c) → ∀ h,
  wp G p Q h → wp G p (λ a h', Q a h' ∧ only P h h') h.
Proof.
  intros HP h Hp. cut (∀ h0, only P h0 h → wp G p (λ a h', Q a h' ∧ only P h0 h') h).
  { intros Hc. apply Hc. by exists []. }
  revert h Hp. induction p as [a|R c k IH]; intros h; simpl; [done|]. intros [Hg Hk] h0 (l & -> & Hl). split; [done|].
  intros r. apply IH; [done|]. exists (mkEv c r :: l). split; [done|]. constructor; [by eapply HP | done].
Qed.

(** What holds of a program that starts afresh holds of it later on, of the part
    of the history since. *)
Lemma wp_suffix {A} (G G' : Guard) (p : Prog E A) Q h0 : ∀ l,
  wp G p Q l → (∀ l' R (c : E R), G l' R c → G' (l' ++ h0) R c) →
  wp G' p (λ a h', ∃ l', h' = l' ++ h0 ∧ Q a l') (l ++ h0).
Proof.
  induction p as [a|R c k IH]; intros l; simpl; [by exists l|]. intros [Hc Hk] HG. split; [by apply HG|].
  intros r. exact (IH r (mkEv c r :: l) (Hk r) HG).
Qed.

(** An invariant of the history that the allowed calls keep. *)
Lemma wp_inv {A} (I : History E → Prop) G (p : Prog E A) Q :
  (∀ h R (c : E R) r, G h R c → I h → I (mkEv c r :: h)) → ∀ h, I h →
  wp G p Q h → wp (λ h R c, I h ∧ G h R c) p (λ a h, I h ∧ Q a h) h.
Proof.
  intros HI. induction p as [a|R c k IH]; intros h Hi; simpl; [done|]. intros [Hc Hk]. split; [done|].
  intros r. apply IH; [by apply HI | done].
Qed.

Lemma wp_and {A} G1 G2 (p : Prog E A) Q1 Q2 : ∀ h,
  wp G1 p Q1 h → wp G2 p Q2 h →
  wp (λ h R c, G1 h R c ∧ G2 h R c) p (λ a h, Q1 a h ∧ Q2 a h) h.
Proof. induction p as [a|R c k IH]; intros h; simpl; [done|]. intros [? ?] [? ?]. auto. Qed.
End WP.
Arguments Guard : clear implicits.

#[export] Hint Extern 0 (extends ?h ?h) => reflexivity : core.
#[export] Hint Resolve extends_cons : core.

(** ** What a history shows *)

Definition NotFoundErr {A} (a : res A) : Prop := ∃ e, a = Err e ∧ IsNotFound e = true.

(** Something is gone: it was deleted, or was not there. *)
Definition gone (a : res unit) : Prop := a = Ok tt ∨ NotFoundErr a.

(** The call was made, and the answer satisfies [P]. *)
Definition asked {E R} (c : E R) (h : History E) (P : R → Prop) : Prop :=
  ∃ a, mkEv c a ∈ h ∧ P a.

Lemma asked_cons {E R} (c : E R) h (P : R → Prop) a : P a → asked c (mkEv c a :: h) P.
Proof. intros Hp. exists a. split; [by left | done]. Qed.

Lemma asked_extends {E R} (c : E R) h h' (P : R → Prop) : extends h h' → asked c h P → asked c h' P.
Proof. intros Hh (a & Ha & Hp). exists a. split; [by eapply elem_extends | done]. Qed.

(** ** Retries

    [retry.RetryOnConflict] of client-go runs a function until it returns
    anything but a conflict, at most a number of times that its backoff fixes,
    and then returns the last error. *)
Fixpoint attempts {E A} (n : nat) (fn : Prog E (res A)) : Prog E (res A) :=
  match n with
  | O => fn
  | S n => pbind fn (λ r,
      match r with
      | Err e => if IsConflict e then attempts n fn else Ret r
      | Ok _ => Ret r
      end)
  end.

Class Retries (E : Type → Type) := {
  RetryConflict : ∀ {A}, Prog E (res A) → Prog E (res A);
  RetryConflict_spec : ∀ {A} (fn : Prog E (res A)), ∃ n, RetryConflict fn = attempts n fn
}.

(** A postcondition that an attempt reaches from any history its own conflicts
    may leave is reached by the retries. *)
Lemma wp_retry {E} `{!Retries E} {A} (G : Guard E) (fn : Prog E (res A)) I Q h :
  I h →
  (∀ h, I h → wp G fn (λ r h', Q r h' ∧ I h') h) →
  wp G (RetryConflict fn) (λ r h', Q r h' ∧ I h') h.
Proof.
  intros Hi Hfn. destruct (RetryConflict_spec fn) as [n ->]. revert h Hi.
  induction n as [|n IH]; intros h Hi; cbn [attempts]; [by apply Hfn|].
  apply wp_bind. eapply wp_weaken; [by apply Hfn | done|]. intros [a|e] h' [Hq Hi']; [done|].
  destruct (IsConflict e); [by apply IH | done].
Qed.
