(* ===== verification/Threads.v ===== *)
(** Programs that run side by side on a shared state.

    A thread is a [Prog]; a step is one call of one thread, answered in the shared
    state as a relation allows.  [settles] is what a thread can promise when the
    state may change between any two of its calls, as long as it changes along a
    preorder: it is proved of each thread alone, and holds when they interleave.  [allowed] bounds the calls that a thread
    makes, so that each may rely on what the others leave alone. *)

From S2P Require Import Prelude Prog.

Section Threads.
Context {E : Type → Type} {S : Type}.

(** Which answers a call may have in a state, and the state after it. *)
Definition Answers : Type := ∀ R, E R → S → R → S → Prop.

Context (answers : Answers).

Inductive tstep {A} : list (Prog E A) * S → list (Prog E A) * S → Prop :=
| tstep_call ts i R (c : E R) k s r s' :
    ts !! i = Some (Do c k) → answers R c s r s' → tstep (ts, s) (<[i := k r]> ts, s').

(** A handler and a schedule, the numbers of the threads that step, execute them. *)
Definition step_thread {A} (handle : Handler E S) (i : nat) (x : list (Prog E A) * S) : list (Prog E A) * S :=
  match x.1 !! i with
  | Some (Do c k) => let '(r, s) := handle _ c x.2 in (<[i := k r]> x.1, s)
  | _ => x
  end.

Definition run_threads {A} (handle : Handler E S) (schedule : list nat) (x : list (Prog E A) * S) : list (Prog E A) * S :=
  foldl (λ x i, step_thread handle i x) x schedule.

Definition reaches {A} : list (Prog E A) * S → list (Prog E A) * S → Prop := rtc tstep.

Lemma run_reaches {A} (handle : Handler E S) schedule : (∀ R (c : E R) s, answers R c s (handle R c s).1 (handle R c s).2) →
  ∀ x : list (Prog E A) * S, reaches x (run_threads handle schedule x).
Proof.
  intros Ha. induction schedule as [|i schedule IH]; intros x; [apply rtc_refl|]. cbn.
  transitivity (step_thread handle i x); [|apply IH]. unfold step_thread. destruct x as [ts s]. cbn.
  destruct (ts !! i) as [[a | R c k]|] eqn:Hi; [apply rtc_refl | | apply rtc_refl].
  pose proof (Ha R c s) as Hs. destruct (handle R c s) as [r s']. apply rtc_once. by eapply tstep_call.
Qed.

(** ** One thread among others *)

Context (allowed : ∀ R, E R → Prop) (grows : S → S → Prop) `{!PreOrder grows}.

Fixpoint settles {A} (p : Prog E A) (Q : A → S → Prop) (s : S) : Prop :=
  match p with
  | Ret a => Q a s
  | Do c k => allowed _ c ∧ ∀ s1 r s2, grows s s1 → answers _ c s1 r s2 → settles (k r) Q s2
  end.

Definition lasting {A} (Q : A → S → Prop) : Prop := ∀ a s s', Q a s → grows s s' → Q a s'.

Lemma settles_grows {A} (p : Prog E A) Q s s' : lasting Q → settles p Q s → grows s s' → settles p Q s'.
Proof.
  intros HQ. destruct p as [a | R c k]; simpl; [apply HQ|]. intros [Hc Hp] Hs. split; [done|].
  intros s1 r s2 Hs1. apply Hp. by etrans.
Qed.

Lemma settles_bind {A B} (p : Prog E A) (f : A → Prog E B) (P : A → S → Prop) Q : ∀ s,
  settles p P s → (∀ a s', P a s' → settles (f a) Q s') → settles (pbind p f) Q s.
Proof. induction p as [a | R c k IH]; intros s; simpl; [auto|]. intros [Hc Hp] Hf. split; [done|]. eauto. Qed.

Lemma settles_post {A} (p : Prog E A) (P Q : A → S → Prop) : ∀ s,
  settles p P s → (∀ a s', P a s' → Q a s') → settles p Q s.
Proof. induction p as [a | R c k IH]; intros s; simpl; [auto|]. intros [Hc Hp] HQ. split; [done|]. eauto. Qed.

(** ** All of them *)

Context (Hgrows : ∀ R (c : E R) s r s', allowed R c → answers R c s r s' → grows s s').

Lemma tstep_settles {A} (Q : nat → A → S → Prop) x y : (∀ i, lasting (Q i)) → tstep x y →
  (∀ i p, x.1 !! i = Some p → settles p (Q i) x.2) → ∀ i p, y.1 !! i = Some p → settles p (Q i) y.2.
Proof.
  intros HQ [ts j R c k s r s' Hj Ha] Hx i p. cbn in *. destruct (decide (i = j)) as [->|Hij].
  - rewrite list_lookup_insert_eq by (by eapply lookup_lt_Some). intros [= <-].
    destruct (Hx j (Do c k) Hj) as [_ Hk]. by eapply Hk.
  - rewrite list_lookup_insert_ne by done. intros Hp. destruct (Hx j (Do c k) Hj) as [Hc _].
    eapply settles_grows; [done | by apply Hx |]. exact (Hgrows _ _ _ _ _ Hc Ha).
Qed.

(** A thread ends in a later state. *)
Lemma settles_kept {A} (p : Prog E A) Q : ∀ s, settles p Q s → settles p (λ a s', Q a s' ∧ grows s s') s.
Proof.
  intros s Hp. cut (∀ s0, grows s0 s → settles p (λ a s', Q a s' ∧ grows s0 s') s); [intros Hc; by apply Hc|].
  revert s Hp. induction p as [a | R c k IH]; intros s; simpl; [done|]. intros [Hc Hk] s0 Hs. split; [done|].
  intros s1 r s2 H1 Ha. apply IH; [by eapply Hk|]. etrans; [exact Hs|]. etrans; [exact H1|]. exact (Hgrows _ _ _ _ _ Hc Ha).
Qed.

(** What every thread settles on alone, each finished thread has reached. *)
Lemma threads_settle {A} (Q : nat → A → S → Prop) ts s ts' s' :
  (∀ i, lasting (Q i)) → reaches (ts, s) (ts', s') → (∀ i p, ts !! i = Some p → settles p (Q i) s) →
  ∀ i a, ts' !! i = Some (Ret a) → Q i a s'.
Proof.
  intros HQ Hr Hs i a Hi.
  cut (∀ i p, ts' !! i = Some p → settles p (Q i) s'); [intros Hc; exact (Hc i _ Hi)|]. clear i a Hi.
  remember (ts, s) as x eqn:Hx. remember (ts', s') as y eqn:Hy. revert ts s Hs Hx Hy.
  induction Hr as [x | x z y Hstep Hr IH]; intros ts s Hs -> Hy; [by simplify_eq|].
  destruct z as [tz sz]. eapply IH; [|done | done]. by apply (tstep_settles _ _ _ HQ Hstep).
Qed.
End Threads.
