(* ===== verification/RelyGuarantee.v ===== *)
(** Named programs side by side: a logic, and termination.

    A configuration holds the programs of all names and the state that they share;
    besides them the environment changes the state.  Each program is verified
    alone: [at_] is what it knows when it makes a call, [rely] the changes that it
    has to expect between two of its calls.  What all of them know may then be
    used to show that none waits for ever: as programs are finite trees, a
    configuration in which somebody can always act leads to the end
    ([inevitable_intro]). *)

From S2P Require Import Prelude Prog.

Section System.
Context {Rt S : Type} {E : Type → Type} {A : Type}.
Context (answers : Rt → ∀ R, E R → S → R → S → Prop) (env : S → S → Prop) (names : list Rt).

Definition Config : Type := list (Prog E A) * S.

(** Goroutine [r] makes its next call. *)
Inductive acts (r : Rt) : Config → Config → Prop :=
| acts_call ts i R (c : E R) k s x s' :
    names !! i = Some r → ts !! i = Some (Do c k) → answers r R c s x s' →
    acts r (ts, s) (<[i := k x]> ts, s').

Inductive turns : Config → Config → Prop :=
| turns_env ts s s' : env s s' → turns (ts, s) (ts, s')
| turns_act r x y : acts r x y → turns x y.

Definition runs : Config → Config → Prop := rtc turns.

Lemma acts_inv r ts s y : acts r (ts, s) y → ∃ i R (c : E R) k x s',
  names !! i = Some r ∧ ts !! i = Some (Do c k) ∧ answers r R c s x s' ∧ y = (<[i := k x]> ts, s').
Proof. intros H. inversion H as [? i R c k ? x s' Hi Hp Ha]; subst. by exists i, R, c, k, x, s'. Qed.

Lemma turns_length x y : turns x y → length y.1 = length x.1.
Proof.
  intros [ts s s' He | r [ts s] z Hz]; [done|].
  destruct (acts_inv _ _ _ _ Hz) as (i & R & c & k & a & s' & _ & _ & _ & ->). cbn. by rewrite length_insert.
Qed.

Lemma runs_length x y : runs x y → length y.1 = length x.1.
Proof. induction 1 as [|x y z Ht _ IH]; [done|]. by rewrite IH, (turns_length _ _ Ht). Qed.

(** ** Programs are finite *)

Definition child (q p : Prog E A) : Prop :=
  match p with Ret _ => False | Do _ k => ∃ x, q = k x end.

Inductive one_child : list (Prog E A) → list (Prog E A) → Prop :=
| one_child_of ts i p q : ts !! i = Some p → child q p → one_child (<[i := q]> ts) ts.

Lemma child_acc p : Acc child p.
Proof. induction p as [a | R c k IH]; constructor; intros q Hq; [done|]. by destruct Hq as [x ->]. Qed.

Lemma one_child_acc ts : Acc one_child ts.
Proof.
  induction ts as [|p ts IH]; [constructor; intros ? H; inversion H; by simplify_eq/=|].
  revert ts IH. pose proof (child_acc p) as Hp. induction Hp as [p Hp IHp]. intros ts Hts.
  induction Hts as [ts Hts IHts]. constructor. intros y Hy. inversion Hy as [? i p' q Hi Hq]; subst.
  destruct i as [|i]; simplify_eq/=.
  - apply IHp; [done|]. by constructor.
  - apply IHts. by econstructor.
Qed.

(** ** What is bound to happen *)

(** Whatever the environment does and whoever acts, [P] will hold after finitely
    many acts, and until then some name of [live] can act. *)
Inductive inevitable (live : Rt → Prop) (P : Config → Prop) : Config → Prop :=
| inevitable_turn ts s :
    (∀ s', rtc env s s' → P (ts, s') ∨
       ((∃ r y, live r ∧ acts r (ts, s') y) ∧ ∀ r y, acts r (ts, s') y → inevitable live P y)) →
    inevitable live P (ts, s).

Lemma inevitable_intro (live : Rt → Prop) (P K : Config → Prop) :
  (∀ x y, K x → turns x y → K y) →
  (∀ x, K x → P x ∨ ∃ r y, live r ∧ acts r x y) →
  ∀ x, K x → inevitable live P x.
Proof.
  intros HK Hlive [ts s] Hx. revert s Hx. induction (one_child_acc ts) as [ts _ IH]. intros s Hx.
  constructor. intros s' Hs.
  assert (K (ts, s')) as Hx'.
  { clear IH. induction Hs as [s | s s1 s2 Hs Hr IHs]; [done|]. apply IHs. eapply HK; [done|]. by constructor. }
  destruct (Hlive _ Hx') as [?|Hc]; [by left|]. right. split; [done|]. intros r y Hy.
  assert (K y) as HKy by (eapply HK; [done|]; by eapply turns_act).
  destruct (acts_inv _ _ _ _ Hy) as (i & R & c & k & x & s1 & _ & Hp & _ & ->).
  apply IH; [|done]. econstructor; [done|]. by exists x.
Qed.

(** ** The logic *)

Context (Inv : S → Prop) (rely : Rt → S → S → Prop) (at_ : Rt → ∀ R, E R → S → Prop).
Context `{!∀ r, PreOrder (rely r)}.

Fixpoint ensures {B} (r : Rt) (p : Prog E B) (Q : B → S → Prop) (s : S) : Prop :=
  match p with
  | Ret a => Q a s
  | Do c k => at_ r _ c s ∧ ∀ s1 x s2,
      rely r s s1 → Inv s1 → answers r _ c s1 x s2 → Inv s2 → ensures r (k x) Q s2
  end.

Lemma ensures_bind {B C} r (p : Prog E B) (f : B → Prog E C) (P : B → S → Prop) Q : ∀ s,
  ensures r p P s → (∀ b s', P b s' → ensures r (f b) Q s') → ensures r (pbind p f) Q s.
Proof. induction p as [b | R c k IH]; intros s; simpl; [auto|]. intros [Hc Hp] Hf. split; [done|]. eauto. Qed.

Lemma ensures_call {R} r (c : E R) (Q : R → S → Prop) s :
  at_ r _ c s → (∀ s1 x s2, rely r s s1 → Inv s1 → answers r _ c s1 x s2 → Inv s2 → Q x s2) →
  ensures r (call c) Q s.
Proof. by split. Qed.

Lemma ensures_post {B} r (p : Prog E B) (P Q : B → S → Prop) : ∀ s,
  ensures r p P s → (∀ b s', P b s' → Q b s') → ensures r p Q s.
Proof. induction p as [b | R c k IH]; intros s; simpl; [auto|]. intros [Hc Hp] HQ. split; [done|]. eauto. Qed.

(** ** All of them *)

Context (Hat : ∀ r R (c : E R) s s', at_ r R c s → rely r s s' → at_ r R c s').
Context (Hact : ∀ r R (c : E R) s x s', Inv s → at_ r R c s → answers r R c s x s' →
  Inv s' ∧ ∀ r', r' ≠ r → rely r' s s').
Context (Henv : ∀ s s', Inv s → env s s' → Inv s' ∧ ∀ r, rely r s s').
Context (HN : NoDup names).

Lemma ensures_rely {B} r (p : Prog E B) Q s s' : (∀ b s s', Q b s → rely r s s' → Q b s') →
  ensures r p Q s → rely r s s' → ensures r p Q s'.
Proof.
  intros HQ. destruct p as [b | R c k]; simpl; [apply HQ|]. intros [Hc Hp] Hs. split; [by eapply Hat|].
  intros s1 x s2 H1. apply Hp. by etrans.
Qed.

(** What is known in a configuration: the invariant, and of each program, where it
    is and what it knows there. *)
Definition known (Q : Rt → A → S → Prop) (x : Config) : Prop :=
  Inv x.2 ∧ ∀ i r p, names !! i = Some r → x.1 !! i = Some p → ensures r p (Q r) x.2.

Lemma known_turns (Q : Rt → A → S → Prop) x y : (∀ r a s s', Q r a s → rely r s s' → Q r a s') →
  known Q x → turns x y → known Q y.
Proof.
  intros HQ [HI Hx] Ht. destruct Ht as [ts s s' He | r [ts s] y Hy].
  - destruct (Henv _ _ HI He) as [HI' Hr]. split; [done|]. intros i r p Hi Hp.
    eapply ensures_rely; [by apply HQ | by eapply Hx | apply Hr].
  - destruct (acts_inv _ _ _ _ Hy) as (i & R & c & k & a & s' & Hi & Hp & Ha & ->).
    destruct (Hx i r _ Hi Hp) as [Hc Hk]. destruct (Hact _ _ _ _ _ _ HI Hc Ha) as [HI' Hr].
    split; [done|]. intros j r' p' Hj Hp'. cbn in *. destruct (decide (i = j)) as [<-|Hij].
    + rewrite list_lookup_insert_eq in Hp' by (by eapply lookup_lt_Some). simplify_eq.
      eapply Hk; [reflexivity | done | done | done].
    + rewrite list_lookup_insert_ne in Hp' by done. eapply ensures_rely; [by apply HQ | by eapply Hx |].
      apply Hr. intros ->. apply Hij. by eapply NoDup_lookup.
Qed.

(** Somebody could rely on what a turn has left: who did not make it. *)
Lemma known_turn_rely (Q : Rt → A → S → Prop) (r0 r1 : Rt) x y : (∀ r, r0 ≠ r ∨ r1 ≠ r) →
  known Q x → turns x y → ∃ r, rely r x.2 y.2.
Proof.
  intros Hne [HI Hx] Ht. destruct Ht as [ts s s' He | r [ts s] y Hy]; [exists r0; by apply (Henv s s')|].
  destruct (acts_inv _ _ _ _ Hy) as (i & R & c & k & a & s' & Hi & Hp & Ha & ->).
  destruct (Hx i r _ Hi Hp) as [Hc _]. destruct (Hact _ _ _ _ _ _ HI Hc Ha) as [_ Hr].
  destruct (Hne r); [exists r0 | exists r1]; by apply Hr.
Qed.

Lemma known_runs (Q : Rt → A → S → Prop) x y : (∀ r a s s', Q r a s → rely r s s' → Q r a s') →
  known Q x → runs x y → known Q y.
Proof. intros HQ Hx Hr. induction Hr; [done|]. eauto using known_turns. Qed.
End System.

(** ** Histories of named programs *)

Section Traces.
Context {Rt : Type} `{EqDecision Rt} {E : Type → Type}.

Definition by_routine (r : Rt) (h : list (Rt * Ev E)) : list (Rt * Ev E) := filter (λ e, e.1 = r) h.

(** The calls of [r] that are of some kind. *)
Definition count (kind : Ev E → bool) (r : Rt) (h : list (Rt * Ev E)) : nat :=
  length (filter (λ e, kind e.2 = true) (by_routine r h)).

Lemma by_routine_ne r r' e h : r' ≠ r → by_routine r' ((r, e) :: h) = by_routine r' h.
Proof. intros Hr. unfold by_routine. by rewrite filter_cons_False by (cbn; congruence). Qed.

Lemma count_cons kind r e h : count kind r ((r, e) :: h) = ((if kind e then 1 else 0) + count kind r h)%nat.
Proof.
  unfold count, by_routine. rewrite filter_cons_True by done. rewrite filter_cons. cbn.
  case_decide; cbn; by destruct (kind e).
Qed.

Lemma count_ne kind r r' e h : r' ≠ r → count kind r' ((r, e) :: h) = count kind r' h.
Proof. intros Hr. unfold count. by rewrite by_routine_ne. Qed.

Lemma count_mono kind r r' e h : (count kind r h ≤ count kind r ((r', e) :: h))%nat.
Proof. destruct (decide (r = r')) as [<-|Hr]; [rewrite count_cons; lia | by rewrite count_ne]. Qed.

Lemma count_same kind r h h' : by_routine r h' = by_routine r h → count kind r h' = count kind r h.
Proof. unfold count. by intros ->. Qed.
End Traces.
