(* ===== verification/Goroutines.v ===== *)
(** Goroutines: named programs that share channels, wait groups and contexts.

    Go's [go], [close], [select], [sync.WaitGroup], [context] and the exit of the
    process, as the language and its standard library define them.  A goroutine is
    a [Prog]; it takes its first step once some goroutine has started it.  A call
    that has no answer in a state blocks, and so does one that would panic, which
    is why the theorems show that a call can be answered. *)

From stdpp Require Import functions.
From S2P Require Import Prelude Prog.

Section Go.
Context {Rt Ch Wg Cx : Type} `{EqDecision Rt} `{EqDecision Ch} `{EqDecision Wg} `{EqDecision Cx}.

(** ** State *)

Record Chan := mkChan { buffered : nat; is_closed : bool }.
(** The counter is [added] less those that are [finished], in the order they said so. *)
Record WaitGroup := mkWaitGroup { added : nat; finished : list Rt }.

Record GoState := mkGoState {
  exited : bool;                  (* the process is gone *)
  started : list Rt;
  chans : Ch → Chan;
  wgs : Wg → WaitGroup;
  cancelled : Cx → bool
}.

Definition go_init : GoState :=
  mkGoState false [] (λ _, mkChan 0 false) (λ _, mkWaitGroup 0 []) (λ _, false).

Definition set_exited (s : GoState) : GoState := mkGoState true (started s) (chans s) (wgs s) (cancelled s).
Definition start (q : Rt) (s : GoState) : GoState :=
  mkGoState (exited s) (q :: started s) (chans s) (wgs s) (cancelled s).
Definition set_chan (ch : Ch) (x : Chan) (s : GoState) : GoState :=
  mkGoState (exited s) (started s) (<[ch := x]> (chans s)) (wgs s) (cancelled s).
Definition set_wg (w : Wg) (x : WaitGroup) (s : GoState) : GoState :=
  mkGoState (exited s) (started s) (chans s) (<[w := x]> (wgs s)) (cancelled s).
Definition cancel (x : Cx) (s : GoState) : GoState :=
  mkGoState (exited s) (started s) (chans s) (wgs s) (<[x := true]> (cancelled s)).

(** ** Calls *)

(** What a [case] of a [select] waits for. *)
Inductive Guard :=
| Recv (ch : Ch)
| OnDone (x : Cx)
| Timer (after : Z).                  (* nanoseconds *)

Inductive GoCall : Type → Type :=
| Begin : GoCall unit                                     (* the first step of a goroutine *)
| Go (q : Rt) : GoCall unit
| Close (ch : Ch) : GoCall unit
| Send (ch : Ch) : GoCall unit                            (* into a channel with one place *)
| Select (cases : list Guard) (default : bool) : GoCall (option nat)
| CtxErr (x : Cx) : GoCall bool
| Cancel (x : Cx) : GoCall unit
| WgAdd (w : Wg) : GoCall unit
| WgDone (w : Wg) : GoCall unit
| WgWait (w : Wg) : GoCall unit
| Exit : GoCall unit.

(** A receive takes a value, or finds the channel closed; time passes as it will. *)
Definition ready (s : GoState) (g : Guard) : Prop :=
  match g with
  | Recv ch => 0 < buffered (chans s ch) ∨ is_closed (chans s ch) = true
  | OnDone x => cancelled s x = true
  | Timer _ => True
  end%nat.

Definition receive (g : Guard) (s : GoState) : GoState :=
  match g with
  | Recv ch => set_chan ch (mkChan (pred (buffered (chans s ch))) (is_closed (chans s ch))) s
  | _ => s
  end.

(** What the call of goroutine [r] answers, and the state after it. *)
Inductive go_answers (r : Rt) : ∀ R, GoCall R → GoState → R → GoState → Prop :=
| ans_begin s : r ∈ started s → go_answers r _ Begin s tt s
| ans_go q s : q ∉ started s → go_answers r _ (Go q) s tt (start q s)
| ans_close ch s : is_closed (chans s ch) = false →
    go_answers r _ (Close ch) s tt (set_chan ch (mkChan (buffered (chans s ch)) true) s)
| ans_send ch s : is_closed (chans s ch) = false → buffered (chans s ch) = 0%nat →
    go_answers r _ (Send ch) s tt (set_chan ch (mkChan 1 false) s)
| ans_case cases default i g s : cases !! i = Some g → ready s g →
    go_answers r _ (Select cases default) s (Some i) (receive g s)
| ans_default cases s : Forall (λ g, ¬ ready s g) cases → go_answers r _ (Select cases true) s None s
| ans_err x s : go_answers r _ (CtxErr x) s (cancelled s x) s
| ans_cancel x s : go_answers r _ (Cancel x) s tt (cancel x s)
| ans_add w s : go_answers r _ (WgAdd w) s tt (set_wg w (mkWaitGroup (S (added (wgs s w))) (finished (wgs s w))) s)
| ans_done w s : (length (finished (wgs s w)) < added (wgs s w))%nat →
    go_answers r _ (WgDone w) s tt (set_wg w (mkWaitGroup (added (wgs s w)) (r :: finished (wgs s w))) s)
| ans_wait w s : length (finished (wgs s w)) = added (wgs s w) → go_answers r _ (WgWait w) s tt s
| ans_exit s : go_answers r _ Exit s tt (set_exited s).
(** ** What a call leaves *)

Definition go_after (r : Rt) {R} (k : GoCall R) (g0 : GoState) (x : R) (g : GoState) : Prop :=
  match k in GoCall R return R → Prop with
  | Begin => λ _, r ∈ started g0 ∧ g = g0
  | Go q => λ _, g = start q g0
  | Close ch => λ _, g = set_chan ch (mkChan (buffered (chans g0 ch)) true) g0
  | Send ch => λ _, g = set_chan ch (mkChan 1 false) g0
  | Select cases default => λ x, match x with
      | Some i => ∃ gd, cases !! i = Some gd ∧ ready g0 gd ∧ g = receive gd g0
      | None => default = true ∧ g = g0
      end
  | CtxErr y => λ x, x = cancelled g0 y ∧ g = g0
  | Cancel y => λ _, g = cancel y g0
  | WgAdd w => λ _, g = set_wg w (mkWaitGroup (S (added (wgs g0 w))) (finished (wgs g0 w))) g0
  | WgDone w => λ _, g = set_wg w (mkWaitGroup (added (wgs g0 w)) (r :: finished (wgs g0 w))) g0
  | WgWait w => λ _, length (finished (wgs g0 w)) = added (wgs g0 w) ∧ g = g0
  | Exit => λ _, g = set_exited g0
  end x.

Lemma go_answers_after r R (k : GoCall R) g0 x g : go_answers r R k g0 x g → go_after r k g0 x g.
Proof. destruct 1; cbn; eauto. Qed.

(** ** Calls, executed *)

Definition readyb (g0 : GoState) (g : Guard) : bool :=
  match g with
  | Recv ch => (0 <? buffered (chans g0 ch))%nat || is_closed (chans g0 ch)
  | OnDone x => cancelled g0 x
  | Timer _ => true
  end.

Lemma readyb_spec g0 g : readyb g0 g = true ↔ ready g0 g.
Proof. destruct g; unfold readyb, ready; [rewrite orb_true_iff, Nat.ltb_lt|..]; done. Qed.

(** [hint] chooses among the answers of a call. *)
Definition exec_prim (r : Rt) (hint : nat) {R} (k : GoCall R) (g : GoState) : option (R * GoState) :=
  match k in GoCall R return option (R * GoState) with
  | Begin => if bool_decide (r ∈ started g) then Some (tt, g) else None
  | Go q => if bool_decide (q ∈ started g) then None else Some (tt, start q g)
  | Close ch => if is_closed (chans g ch) then None else Some (tt, set_chan ch (mkChan (buffered (chans g ch)) true) g)
  | Send ch => if is_closed (chans g ch) || negb (buffered (chans g ch) =? 0)%nat then None
      else Some (tt, set_chan ch (mkChan 1 false) g)
  | Select cases default => match cases !! hint with
      | Some gd => if readyb g gd then Some (Some hint, receive gd g) else None
      | None => if default && forallb (λ gd, negb (readyb g gd)) cases then Some (None, g) else None
      end
  | CtxErr x => Some (cancelled g x, g)
  | Cancel x => Some (tt, cancel x g)
  | WgAdd w => Some (tt, set_wg w (mkWaitGroup (S (added (wgs g w))) (finished (wgs g w))) g)
  | WgDone w => if (length (finished (wgs g w)) <? added (wgs g w))%nat
      then Some (tt, set_wg w (mkWaitGroup (added (wgs g w)) (r :: finished (wgs g w))) g) else None
  | WgWait w => if (length (finished (wgs g w)) =? added (wgs g w))%nat then Some (tt, g) else None
  | Exit => Some (tt, set_exited g)
  end.

Lemma exec_prim_sound r hint R (k : GoCall R) g x g' : exec_prim r hint k g = Some (x, g') → go_answers r R k g x g'.
Proof.
  destruct k; cbn -[Nat.ltb Nat.eqb]; intros He.
  - case_bool_decide; simplify_eq. by constructor.
  - case_bool_decide; simplify_eq. by constructor.
  - destruct (is_closed (chans g ch)) eqn:Hc; simplify_eq. by constructor.
  - destruct (is_closed (chans g ch)) eqn:Hc; [done|]. cbn [orb] in He.
    destruct (buffered (chans g ch) =? 0)%nat eqn:Hb; simplify_eq/=. constructor; [done | by apply Nat.eqb_eq].
  - destruct (cases !! hint) as [gd|] eqn:Hi.
    + destruct (readyb g gd) eqn:Hr; simplify_eq. eapply ans_case; [done | by apply readyb_spec].
    + destruct default; [|done]. cbn in He. destruct (forallb _ _) eqn:Hf; simplify_eq. apply ans_default.
      apply Forall_forall. intros gd Hgd Hr. rewrite forallb_forall in Hf. specialize (Hf gd).
      rewrite (proj2 (readyb_spec _ _) Hr) in Hf. by specialize (Hf (proj1 (list_elem_of_In _ _) Hgd)).
  - simplify_eq. by constructor.
  - simplify_eq. by constructor.
  - simplify_eq. by constructor.
  - destruct (_ <? _)%nat eqn:Hl; simplify_eq. constructor. by apply Nat.ltb_lt.
  - destruct (_ =? _)%nat eqn:Hl; simplify_eq. constructor. by apply Nat.eqb_eq.
  - simplify_eq. by constructor.
Qed.

End Go.

Arguments WaitGroup : clear implicits.
Arguments GoState : clear implicits.
Arguments Guard : clear implicits.
Arguments GoCall : clear implicits.

(** ** Counting the goroutines of a group *)

(** As many as were added have finished, so that all have. *)
Lemma all_finished {A} (l k : list A) : NoDup l → (∀ x, x ∈ l → x ∈ k) → (length k ≤ length l)%nat →
  ∀ x, x ∈ k → x ∈ l.
Proof.
  intros Hl Hs Hlen x Hx. assert (l ≡ₚ k) as -> by (apply submseteq_length_Permutation; [by apply NoDup_submseteq | done]). done.
Qed.

(** One that has not finished leaves room for it. *)
Lemma room_for {A} (l k : list A) x : NoDup l → (∀ y, y ∈ l → y ∈ k) → x ∈ k → x ∉ l → (length l < length k)%nat.
Proof.
  intros Hl Hs Hx Hn. assert (x :: l ⊆+ k) as Hsub%submseteq_length; [|done].
  apply NoDup_submseteq; [by constructor|]. intros y [->|Hy]%elem_of_cons; auto.
Qed.

(** Either all have finished, or somebody has not. *)
Lemma finished_or {A} `{EqDecision A} (l k : list A) : NoDup l → NoDup k → (∀ x, x ∈ l → x ∈ k) →
  length l = length k ∨ ∃ x, x ∈ k ∧ x ∉ l.
Proof.
  intros Hl Hk Hs. destruct (decide (Exists (λ x, x ∉ l) k)) as [He|He]; [right; by apply Exists_exists|left].
  assert (k ⊆+ l) as H1%submseteq_length.
  { apply NoDup_submseteq; [done|]. intros x Hx. destruct (decide (x ∈ l)) as [|Hn]; [done|].
    destruct He. apply Exists_exists. by exists x. }
  assert (l ⊆+ k) as H2%submseteq_length by (by apply NoDup_submseteq). lia.
Qed.
