(* ===== verification/WorkQueue.v ===== *)
(** The rate limiting work queue of client-go, as an interface: its operations, and
    what its documentation says of them. *)

From S2P Require Import Prelude.

Class WorkQueue (Q : Type) := {
  q_new : Q;
  q_Add : string → Q → Q;
  q_Get : Q → option (option string * Q);     (* blocks; or the queue quits; or an item *)
  q_Done : string → Q → Q;
  q_Forget : string → Q → Q;
  q_AddRateLimited : string → Q → Q;
  q_ShutDown : Q → Q;
  q_Len : Q → nat;
  q_down : Q → bool;
  q_tick : Q → Q → Prop                       (* a delayed item arrives *)
}.

Class WorkQueueLaws (Q : Type) `{WorkQueue Q} := {
  new_up : q_down q_new = false;
  get_blocks q : q_Get q = None → q_Len q = 0%nat ∧ q_down q = false;
  get_quits q q' : q_Get q = Some (None, q') → q_down q = true ∧ q_down q' = true;
  get_takes q k q' : q_Get q = Some (Some k, q') → q_Len q = S (q_Len q') ∧ q_down q' = q_down q;
  add_keeps k q : (q_Len q ≤ q_Len (q_Add k q))%nat ∧ q_down (q_Add k q) = q_down q;
  done_keeps k q : (q_Len q ≤ q_Len (q_Done k q))%nat ∧ q_down (q_Done k q) = q_down q;
  forget_keeps k q : (q_Len q ≤ q_Len (q_Forget k q))%nat ∧ q_down (q_Forget k q) = q_down q;
  again_keeps k q : (q_Len q ≤ q_Len (q_AddRateLimited k q))%nat ∧ q_down (q_AddRateLimited k q) = q_down q;
  tick_keeps q q' : q_tick q q' → (q_Len q ≤ q_Len q')%nat ∧ q_down q' = q_down q;
  shutdown_down q : q_down (q_ShutDown q) = true;
  shutdown_len q : (q_Len q ≤ q_Len (q_ShutDown q))%nat
}.

(** ** A simple queue: the keys that wait, without repetition *)

Record ListQueue := mkListQueue { lq_keys : list string; lq_down : bool }.

Definition lq_Add (k : string) (q : ListQueue) : ListQueue :=
  if lq_down q || bool_decide (k ∈ lq_keys q) then q else mkListQueue (lq_keys q ++ [k]) (lq_down q).

#[export] Instance list_queue : WorkQueue ListQueue := {|
  q_new := mkListQueue [] false;
  q_Add := lq_Add;
  q_Get q := match lq_keys q with
    | k :: ks => Some (Some k, mkListQueue ks (lq_down q))
    | [] => if lq_down q then Some (None, q) else None
    end;
  q_Done _ q := q;
  q_Forget _ q := q;
  q_AddRateLimited := lq_Add;
  q_ShutDown q := mkListQueue (lq_keys q) true;
  q_Len q := length (lq_keys q);
  q_down := lq_down;
  q_tick q q' := q' = q
|}.

Lemma lq_Add_keeps k q : (length (lq_keys q) ≤ length (lq_keys (lq_Add k q)))%nat ∧ lq_down (lq_Add k q) = lq_down q.
Proof. unfold lq_Add. destruct (_ || _); [done|]. cbn. rewrite length_app. split; [lia | done]. Qed.

#[export] Instance list_queue_laws : WorkQueueLaws ListQueue.
Proof.
  split; cbn; try done; try apply lq_Add_keeps.
  - intros [[|k ks] [|]]; cbn; done.
  - intros [[|k ks] [|]] q'; cbn; intros; by simplify_eq.
  - intros [[|k' ks] [|]] k q'; cbn; intros; by simplify_eq/=.
  - by intros q q' ->.
Qed.
