(* ===== verification/GoStd.v ===== *)
(** The parts of Go's standard library packages [strings], [strconv] and
    [crypto/sha256] the program uses: prefixes and suffixes, splitting at a separator, replacement,
    decimal conversion at the width of a 64-bit [int].

    Lemmas: the affix functions invert concatenation, [atoi] inverts [itoa] on
    the range of [int]. *)

From Stdlib Require Import Ascii DecimalString DecimalZ DecimalN Decimal SpecFloat.
From S2P Require Import Prelude.

(** ** strings *)

Fixpoint str_drop (n : nat) (s : string) : string :=
  match n, s with
  | O, _ => s
  | S n, String _ s => str_drop n s
  | S _, EmptyString => EmptyString
  end.

Fixpoint str_take (n : nat) (s : string) : string :=
  match n, s with
  | S n, String c s => String c (str_take n s)
  | _, _ => EmptyString
  end.

Definition HasPrefix (s pre : string) : bool := String.prefix pre s.
Definition HasSuffix (s suf : string) : bool :=
  (String.length suf <=? String.length s)%nat &&
  bool_decide (str_drop (String.length s - String.length suf) s = suf).
Definition TrimPrefix (s pre : string) : string :=
  if HasPrefix s pre then str_drop (String.length pre) s else s.
Definition TrimSuffix (s suf : string) : string :=
  if HasSuffix s suf then str_take (String.length s - String.length suf) s else s.

(** [strings.IndexByte]: the position of the first occurrence of [c]. *)
Fixpoint IndexByte (s : string) (c : ascii) : option nat :=
  match s with
  | EmptyString => None
  | String d s => if decide (d = c) then Some O else S <$> IndexByte s c
  end.

Fixpoint LastIndexByte (s : string) (c : ascii) : option nat :=
  match s with
  | EmptyString => None
  | String d s =>
      match LastIndexByte s c with
      | Some i => Some (S i)
      | None => if decide (d = c) then Some O else None
      end
  end.

(** [strings.ReplaceAll] of one byte by another. *)
Fixpoint ReplaceByte (s : string) (old new : ascii) : string :=
  match s with
  | EmptyString => EmptyString
  | String d s => String (if decide (d = old) then new else d) (ReplaceByte s old new)
  end.

(** [strings.Contains] *)
Fixpoint Contains (s sub : string) : bool :=
  HasPrefix s sub ||
  match s with
  | EmptyString => false
  | String _ s => Contains s sub
  end.

(** [strings.Join] *)
Fixpoint Join (l : list string) (sep : string) : string :=
  match l with
  | [] => ""
  | [x] => x
  | x :: l => x +:+ sep +:+ Join l sep
  end.

(** [strings.Split] at a separator of one byte. *)
Fixpoint SplitByte (s : string) (c : ascii) : list string :=
  match s with
  | EmptyString => [""]
  | String d s =>
      if decide (d = c) then "" :: SplitByte s c
      else match SplitByte s c with
           | x :: l => String d x :: l
           | [] => [String d ""]
           end
  end.

(** ** strconv *)

Definition two63 : Z := 2 ^ 63.

(** Wrap-around of a 64-bit signed integer. *)
Definition wrap64 (n : Z) : Z := (n + two63) mod (2 * two63) - two63.

(** [float64] of an integer, and [int64] of a [float64] that is in range. *)
Definition float64 (z : Z) : spec_float := binary_normalize 53 1024 z 0 false.
Definition int64_of_float (f : spec_float) : Z :=
  match f with
  | S754_finite neg m e => let v := Z.shiftl (Zpos m) e in if neg then - v else v
  | _ => 0
  end.

(** [Time.Sub] saturates. *)
Definition time_sub (a b : Z) : Z := Z.max (- two63) (Z.min (two63 - 1) (a - b)).

Definition itoa (n : Z) : string := NilZero.string_of_int (Z.to_int n).

(** [strconv.Atoi]: an optional sign and decimal digits, within [int64]. *)
Definition atoi (s : string) : option Z :=
  let '(neg, digits) :=
    match s with
    | String "+" r => (false, r)
    | String "-" r => (true, r)
    | _ => (false, s)
    end in
  match NilZero.uint_of_string digits with
  | Some u =>
      let v := if neg : bool then - Z.of_uint u else Z.of_uint u in
      if (- two63 <=? v) && (v <? two63) then Some v else None
  | None => None
  end.

(** ** Lemmas *)

#[local] Arguments String.append !_ _ / : simpl nomatch.

Lemma str_app_nil_r s : s +:+ "" = s.
Proof. induction s; simpl; congruence. Qed.

Lemma str_app_cons c s t : String c s +:+ t = String c (s +:+ t).
Proof. reflexivity. Qed.

Lemma str_app_nil_l s : "" +:+ s = s.
Proof. reflexivity. Qed.

Lemma str_app_assoc s1 s2 s3 : s1 +:+ (s2 +:+ s3) = (s1 +:+ s2) +:+ s3.
Proof. induction s1; simpl; congruence. Qed.

Lemma str_length_app s1 s2 :
  String.length (s1 +:+ s2) = (String.length s1 + String.length s2)%nat.
Proof. induction s1; simpl; congruence. Qed.

Lemma str_drop_app s1 s2 : str_drop (String.length s1) (s1 +:+ s2) = s2.
Proof. induction s1; simpl; done. Qed.

Lemma str_take_app s1 s2 : str_take (String.length s1) (s1 +:+ s2) = s1.
Proof. induction s1; simpl; [by destruct s2 | congruence]. Qed.

Lemma str_take_drop n s : str_take n s +:+ str_drop n s = s.
Proof. revert s; induction n; intros [|c s]; simpl; try done. by rewrite IHn. Qed.

Lemma str_app_inj_l s t1 t2 : s +:+ t1 = s +:+ t2 → t1 = t2.
Proof. induction s; simpl; intros; simplify_eq; auto. Qed.

Lemma str_app_inj_r s t1 t2 : t1 +:+ s = t2 +:+ s → t1 = t2.
Proof.
  revert t2. induction t1 as [|c t1 IH]; intros [|d t2]; simpl; intros Heq; try done.
  - apply (f_equal String.length) in Heq. simpl in Heq.
    rewrite str_length_app in Heq. lia.
  - apply (f_equal String.length) in Heq. simpl in Heq.
    rewrite str_length_app in Heq. lia.
  - simplify_eq. f_equal. auto.
Qed.

Lemma HasPrefix_app p t : HasPrefix (p +:+ t) p = true.
Proof.
  unfold HasPrefix. induction p; simpl; [by destruct t|].
  by destruct (ascii_dec a a).
Qed.

Lemma HasPrefix_true s p : HasPrefix s p = true ↔ ∃ t, s = p +:+ t.
Proof.
  split; [|intros [t ->]; apply HasPrefix_app].
  unfold HasPrefix. revert s. induction p as [|c p IH]; intros s; simpl.
  - by exists s.
  - destruct s as [|d s]; [done|]. simpl. destruct (ascii_dec c d) as [->|]; [|done].
    intros [t ->]%IH. by exists t.
Qed.

Lemma HasSuffix_app t suf : HasSuffix (t +:+ suf) suf = true.
Proof.
  unfold HasSuffix. rewrite str_length_app.
  replace (String.length t + String.length suf - String.length suf)%nat
    with (String.length t) by lia.
  rewrite str_drop_app, bool_decide_true by done.
  rewrite andb_true_r. apply Nat.leb_le. lia.
Qed.

Lemma HasSuffix_true s suf : HasSuffix s suf = true ↔ ∃ t, s = t +:+ suf.
Proof.
  split; [|intros [t ->]; apply HasSuffix_app].
  unfold HasSuffix. intros Hs. bool_hyps.
  exists (str_take (String.length s - String.length suf) s).
  match goal with H : str_drop _ _ = _ |- _ => rewrite <- H at 2 end.
  by rewrite str_take_drop.
Qed.

Lemma TrimPrefix_app p t : TrimPrefix (p +:+ t) p = t.
Proof. unfold TrimPrefix. by rewrite HasPrefix_app, str_drop_app. Qed.

Lemma TrimSuffix_app t suf : TrimSuffix (t +:+ suf) suf = t.
Proof.
  unfold TrimSuffix. rewrite HasSuffix_app, str_length_app.
  replace (String.length t + String.length suf - String.length suf)%nat
    with (String.length t) by lia.
  by rewrite str_take_app.
Qed.

#[export] Hint Rewrite HasPrefix_app HasSuffix_app TrimPrefix_app TrimSuffix_app
  str_length_app : go.

(** *** Decimal conversion *)

Lemma string_of_uint_head u :
  u ≠ Decimal.Nil →
  ∃ c s, NilZero.string_of_uint u = String c s ∧ c ≠ "+"%char ∧ c ≠ "-"%char.
Proof. destruct u; try done; intros _; eexists _, _; repeat split; done. Qed.

Lemma to_uint_nonnil p : Pos.to_uint p ≠ Decimal.Nil.
Proof. apply DecimalPos.Unsigned.to_uint_nonnil. Qed.

Lemma atoi_itoa n : - two63 <= n < two63 → atoi (itoa n) = Some n.
Proof.
  intros Hn. unfold atoi, itoa.
  assert (∀ p, Z.of_uint (Pos.to_uint p) = Z.pos p) as Hof.
  { intros p. unfold Z.of_uint.
    change (Pos.of_uint (Pos.to_uint p)) with (N.of_uint (N.to_uint (N.pos p))).
    by rewrite DecimalN.Unsigned.of_to. }
  destruct n as [|p|p].
  - vm_compute. done.
  - simpl. destruct (string_of_uint_head (Pos.to_uint p) (to_uint_nonnil p))
      as (c & s & Heq & Hp & Hm).
    rewrite Heq.
    destruct c as [[] [] [] [] [] [] [] []]; try done;
      rewrite <- Heq, NilZero.usu by apply to_uint_nonnil; rewrite Hof;
      destruct (Z.leb_spec (- two63) (Z.pos p)), (Z.ltb_spec (Z.pos p) two63);
      simpl; (done || lia).
  - simpl. rewrite NilZero.usu by apply to_uint_nonnil. rewrite Hof.
    change (- Z.pos p) with (Z.neg p).
    destruct (Z.leb_spec (- two63) (Z.neg p)), (Z.ltb_spec (Z.neg p) two63);
      simpl; (done || lia).
Qed.

Lemma atoi_range s n : atoi s = Some n → - two63 <= n < two63.
Proof. unfold atoi. intros H. repeat case_on H; simplify_eq; bool_hyps; lia. Qed.

Lemma wrap64_small n : - two63 <= n < two63 → wrap64 n = n.
Proof. unfold wrap64, two63. intros. rewrite Z.mod_small; lia. Qed.

(** * crypto/sha256 *)

(** SHA-256 on byte strings, as [crypto/sha256.Sum256], and [hex.EncodeToString]:
    the API server derives object names from it.  Words are 32-bit values. *)

Definition word (n : Z) : Z := n mod 2 ^ 32.
Definition rotr (n x : Z) : Z := Z.lor (Z.shiftr x n) (word (Z.shiftl x (32 - n))).

(** The constants are the first 32 bits of the fractional parts of the cube
    roots, and of the square roots, of the first primes. *)
Definition is_prime (n : Z) : bool :=
  forallb (λ d, negb (n mod Z.of_nat d =? 0)) (seq 2 (Z.to_nat (Z.sqrt n - 1))).

Definition primes : list Z := filter (λ n, is_prime n = true) (Z.of_nat <$> seq 2 310).

(** The cube root, rounded down, bit by bit. *)
Definition cbrt (bits : nat) (n : Z) : Z :=
  foldl (λ r b, let r' := Z.lor r (Z.shiftl 1 (Z.of_nat b)) in if r' ^ 3 <=? n then r' else r)
    0 (reverse (seq 0 bits)).

Definition K256 : list Z := Eval vm_compute in (λ p, word (cbrt 36 (p * 2 ^ 96))) <$> primes.
Definition H256 : list Z := Eval vm_compute in (λ p, word (Z.sqrt (p * 2 ^ 64))) <$> take 8 primes.

Definition be_bytes (n : nat) (v : Z) : list Z :=
  (λ i, Z.shiftr v (8 * Z.of_nat (n - 1 - i)) mod 256) <$> seq 0 n.

Definition be_word (l : list Z) : Z := foldl (λ acc b, acc * 256 + b) 0 l.

Fixpoint chunks (fuel n : nat) (l : list Z) : list (list Z) :=
  match fuel, l with
  | O, _ | _, [] => []
  | S fuel, _ => take n l :: chunks fuel n (drop n l)
  end.

(** A 1 bit, zeros up to 8 bytes short of a block, the length in bits. *)
Definition pad (bytes : list Z) : list Z :=
  let n := Z.of_nat (length bytes) in
  bytes ++ [128] ++ replicate (Z.to_nat ((55 - n) mod 64)) 0 ++ be_bytes 8 (8 * n).

(** The message schedule, newest word first. *)
Fixpoint schedule (rounds : nat) (w : list Z) : list Z :=
  match rounds with
  | O => w
  | S rounds =>
      let at_ i := nth i w 0 in
      let s0 := Z.lxor (Z.lxor (rotr 7 (at_ 14%nat)) (rotr 18 (at_ 14%nat))) (Z.shiftr (at_ 14%nat) 3) in
      let s1 := Z.lxor (Z.lxor (rotr 17 (at_ 1%nat)) (rotr 19 (at_ 1%nat))) (Z.shiftr (at_ 1%nat) 10) in
      schedule rounds (word (at_ 15%nat + s0 + at_ 6%nat + s1) :: w)
  end.

Definition compress_round (h : list Z) (kw : Z * Z) : list Z :=
  match h with
  | [a; b; c; d; e; f; g; hh] =>
      let S1 := Z.lxor (Z.lxor (rotr 6 e) (rotr 11 e)) (rotr 25 e) in
      let ch := Z.lxor (Z.land e f) (Z.land (Z.lxor e (2 ^ 32 - 1)) g) in
      let temp1 := hh + S1 + ch + kw.1 + kw.2 in
      let S0 := Z.lxor (Z.lxor (rotr 2 a) (rotr 13 a)) (rotr 22 a) in
      let maj := Z.lxor (Z.lxor (Z.land a b) (Z.land a c)) (Z.land b c) in
      [word (temp1 + S0 + maj); a; b; c; word (d + temp1); e; f; g]
  | _ => h
  end.

Definition compress (h : list Z) (block : list Z) : list Z :=
  let w := reverse (schedule 48 (reverse (be_word <$> chunks 16 4 block))) in
  zip_with (λ x y, word (x + y)) h (foldl compress_round h (zip K256 w)).

Definition bytes_of (s : string) : list Z :=
  (λ c, Z.of_nat (nat_of_ascii c)) <$> String.list_ascii_of_string s.

Definition Sum256 (bytes : list Z) : list Z :=
  let p := pad bytes in
  concat (be_bytes 4 <$> foldl compress H256 (chunks (length p) 64 p)).

Definition hex_digit (d : Z) : ascii := ascii_of_nat (Z.to_nat (if d <? 10 then 48 + d else 87 + d)).

Definition EncodeToString (bytes : list Z) : string :=
  String.string_of_list_ascii (concat ((λ b, [hex_digit (b / 16); hex_digit (b mod 16)]) <$> bytes)).

Example K256_length : length K256 = 64%nat ∧ length H256 = 8%nat.
Proof. vm_compute. done. Qed.

(** The test vectors of FIPS 180-4. *)
Example sha256_abc : EncodeToString (Sum256 (bytes_of "abc"))
  = "ba7816bf8f01cfea414140de5dae2223b00361a396177a9cb410ff61f20015ad".
Proof. vm_compute. reflexivity. Qed.
Example sha256_empty : EncodeToString (Sum256 (bytes_of ""))
  = "e3b0c44298fc1c149afbf4c8996fb92427ae41e4649b934ca495991b7852b855".
Proof. vm_compute. reflexivity. Qed.
Example sha256_two_blocks :
  EncodeToString (Sum256 (bytes_of "abcdbcdecdefdefgefghfghighijhijkijkljklmklmnlmnomnopnopq"))
  = "248d6a61d20638b8e5c026930c3e6039a33ce45964ff2167f6ecedd419db06c1".
Proof. vm_compute. reflexivity. Qed.

Lemma length_EncodeToString (l : list Z) : String.length (EncodeToString l) = (2 * List.length l)%nat.
Proof.
  unfold EncodeToString. assert (∀ x, String.length (String.string_of_list_ascii x) = List.length x) as ->.
  { intros x. induction x; simpl; congruence. }
  induction l as [|b l IH]; [done|]. rewrite fmap_cons. cbn [concat]. rewrite length_app, IH. simpl. lia.
Qed.
