(* ===== verification/NetIP.v ===== *)
(** Go's [net/netip] and [net] packages, as far as the program uses them:
    parsing and printing of IPv4 and IPv6 addresses, prefixes, containment,
    comparison, successor and predecessor.

    An address is its 128-bit value, as [netip.Addr] stores it (an IPv4 address
    is kept in the v4-mapped form), with the kind of the address: the zero
    [Addr], IPv4, or IPv6 with a zone.  A [net.IP] is a 4-byte or a 16-byte
    big-endian value; [net.ParseIP] always returns the 16-byte form, so the
    byte-wise comparisons of the program are comparisons of those values. *)

From Stdlib Require Import Ascii.
From S2P Require Import Prelude GoStd.

(** ** netip.Addr *)

Inductive zkind := z0 | z4 | z6 (zone : string).

#[export] Instance zkind_eq_dec : EqDecision zkind.
Proof. solve_decision. Defined.

Record Addr := mkAddr { addr : Z; z : zkind }.

#[export] Instance Addr_eq_dec : EqDecision Addr.
Proof. solve_decision. Defined.

Definition max128 : Z := 2 ^ 128.
Definition v4prefix : Z := 65535 * 2 ^ 32.

Definition zeroAddr : Addr := mkAddr 0 z0.
Definition AddrFrom4 (v : Z) : Addr := mkAddr (v4prefix + v) z4.
Definition AddrFrom16 (v : Z) : Addr := mkAddr v (z6 "").
Definition WithZone (a : Addr) (zone : string) : Addr := mkAddr (addr a) (z6 zone).

Definition BitLen (a : Addr) : Z := match z a with z0 => 0 | z4 => 32 | z6 _ => 128 end.
Definition Is4 (a : Addr) : bool := match z a with z4 => true | _ => false end.
Definition Is6 (a : Addr) : bool := match z a with z6 _ => true | _ => false end.
Definition Zone (a : Addr) : string := match z a with z6 zn => zn | _ => "" end.
Definition hasZone (a : Addr) : bool := negb (bool_decide (Zone a = "")).
Definition low32 (a : Addr) : Z := addr a mod 2 ^ 32.
Definition Is4In6 (a : Addr) : bool := Is6 a && (addr a / 2 ^ 32 =? 65535).
Definition Unmap (a : Addr) : Addr := if Is4In6 a then mkAddr (addr a) z4 else a.

Definition cmp_of (c : comparison) : Z := match c with Lt => -1 | Eq => 0 | Gt => 1 end.

Definition Compare (a b : Addr) : Z :=
  match BitLen a ?= BitLen b with
  | Eq =>
      match addr a ?= addr b with
      | Eq => if Is6 a then cmp_of (String.compare (Zone a) (Zone b)) else 0
      | c => cmp_of c
      end
  | c => cmp_of c
  end.

Definition Next (a : Addr) : Addr :=
  let v := (addr a + 1) mod max128 in
  if Is4 a then if v mod 2 ^ 32 =? 0 then zeroAddr else mkAddr v (z a)
  else if v =? 0 then zeroAddr else mkAddr v (z a).

Definition Prev (a : Addr) : Addr :=
  if Is4 a then if low32 a =? 0 then zeroAddr else mkAddr (addr a - 1) (z a)
  else if addr a =? 0 then zeroAddr else mkAddr (addr a - 1) (z a).

(** ** Parsing *)

Definition digit_val (c : ascii) : option Z :=
  let n := Z.of_nat (nat_of_ascii c) in
  if (48 <=? n) && (n <=? 57) then Some (n - 48) else None.

Definition hex_val (c : ascii) : option Z :=
  let n := Z.of_nat (nat_of_ascii c) in
  if (48 <=? n) && (n <=? 57) then Some (n - 48)
  else if (97 <=? n) && (n <=? 102) then Some (n - 97 + 10)
  else if (65 <=? n) && (n <=? 70) then Some (n - 65 + 10)
  else None.

(** Big-endian value of a list of bytes. *)
Definition from_be (l : list Z) : Z := fold_left (λ acc b, acc * 256 + b) l 0.

(** [parseIPv4Fields]: [bare] holds where a dot may not stand (at the start and
    after a dot). *)
Fixpoint parseIPv4Fields (s : string) (fields : list Z) (val : Z) (digLen : nat) (bare : bool)
    : option (list Z) :=
  match s with
  | EmptyString => if (length fields <? 3)%nat then None else Some (fields ++ [val])
  | String c s' =>
      match digit_val c with
      | Some d =>
          if (digLen =? 1)%nat && (val =? 0) then None
          else
            let val' := val * 10 + d in
            if 255 <? val' then None else parseIPv4Fields s' fields val' (S digLen) false
      | None =>
          if decide (c = "."%char) then
            if bare || bool_decide (s' = "") then None
            else if (length fields =? 3)%nat then None
            else parseIPv4Fields s' (fields ++ [val]) 0 0 true
          else None
      end
  end.

Definition parseIPv4 (s : string) : option Addr :=
  fields ← parseIPv4Fields s [] 0 0 true;
  Some (AddrFrom4 (from_be fields)).

(** The hexadecimal digits at the head of [s]: their value, how many there are,
    and what follows. *)
Fixpoint scan_hex (s : string) (acc : Z) (off : nat) : option (Z * nat * string) :=
  match s with
  | EmptyString => Some (acc, off, s)
  | String c s' =>
      match hex_val c with
      | Some d =>
          let acc' := acc * 16 + d in
          if (3 <? off)%nat then None
          else if 65535 <? acc' then None
          else scan_hex s' acc' (S off)
      | None => Some (acc, off, s)
      end
  end.

(** The loop of [parseIPv6]; each round reads one 16-bit group, so [fuel] = 8
    is the loop bound [i < 16] of the source.  [ip] holds the bytes read so
    far, [ell] the position of the ellipsis. *)
Fixpoint parse6_loop (fuel : nat) (s : string) (ip : list Z) (ell : option nat)
    : option (string * list Z * option nat) :=
  match fuel with
  | O => Some (s, ip, ell)
  | S fuel =>
      match scan_hex s 0 0 with
      | None => None
      | Some (acc, off, rest) =>
          if (off =? 0)%nat then None
          else match rest with
          | String "." _ =>
              if negb (is_some ell) && negb (length ip =? 12)%nat then None
              else if (16 <? length ip + 4)%nat then None
              else match parseIPv4Fields s [] 0 0 true with
                   | None => None
                   | Some f => Some ("", ip ++ f, ell)
                   end
          | _ =>
              let ip := ip ++ [acc / 256; acc mod 256] in
              match rest with
              | EmptyString => Some ("", ip, ell)
              | String ":" EmptyString => None
              | String ":" (String ":" rest) =>
                  if is_some ell then None
                  else if decide (rest = "") then Some ("", ip, Some (length ip))
                  else parse6_loop fuel rest ip (Some (length ip))
              | String ":" rest => parse6_loop fuel rest ip ell
              | _ => None
              end
          end
      end
  end.

Definition parse6_finish (zone : string) (r : string * list Z * option nat) : option Addr :=
  let '(s, ip, ell) := r in
  if negb (bool_decide (s = "")) then None
  else if (length ip <? 16)%nat then
    match ell with
    | None => None
    | Some e =>
        let ip := take e ip ++ replicate (16 - length ip) 0 ++ drop e ip in
        Some (WithZone (AddrFrom16 (from_be ip)) zone)
    end
  else if is_some ell then None
  else Some (WithZone (AddrFrom16 (from_be ip)) zone).

Definition parse6_body (s zone : string) : option Addr :=
  match s with
  | String ":" (String ":" s) =>
      if decide (s = "") then Some (WithZone (AddrFrom16 0) zone)
      else parse6_loop 8 s [] (Some O) ≫= parse6_finish zone
  | _ => parse6_loop 8 s [] None ≫= parse6_finish zone
  end.

Definition parseIPv6 (s : string) : option Addr :=
  match IndexByte s "%" with
  | Some i =>
      let zone := str_drop (S i) s in
      if decide (zone = "") then None else parse6_body (str_take i s) zone
  | None => parse6_body s ""
  end.

(** [netip.ParseAddr]: the first of the bytes [.], [:], [%] selects the
    family. *)
Fixpoint addr_family (s : string) : option ascii :=
  match s with
  | EmptyString => None
  | String c s =>
      if decide (c = "."%char ∨ c = ":"%char ∨ c = "%"%char) then Some c else addr_family s
  end.

Definition ParseAddr (s : string) : option Addr :=
  match addr_family s with
  | Some "."%char => parseIPv4 s
  | Some ":"%char => parseIPv6 s
  | _ => None
  end.

(** ** Printing *)

Definition hexdigit (d : Z) : ascii :=
  ascii_of_nat (Z.to_nat (if d <? 10 then 48 + d else 87 + d)).

Definition appendHex (x : Z) : string :=
  let d3 := if 4096 <=? x then String (hexdigit (x / 4096)) "" else "" in
  let d2 := if 256 <=? x then String (hexdigit (x / 256 mod 16)) "" else "" in
  let d1 := if 16 <=? x then String (hexdigit (x / 16 mod 16)) "" else "" in
  d3 +:+ d2 +:+ d1 +:+ String (hexdigit (x mod 16)) "".

Definition string4 (v : Z) : string :=
  Join (itoa <$> [v / 2 ^ 24 mod 256; v / 2 ^ 16 mod 256; v / 2 ^ 8 mod 256; v mod 256]) ".".

Definition groups (v : Z) : list Z :=
  (λ i, v / 2 ^ (112 - 16 * Z.of_nat i) mod 65536) <$> seq 0 8.

Definition v6u16 (g : list Z) (i : nat) : Z := nth i g 0.

(** Length of the run of zero groups starting at [i]. *)
Fixpoint zero_run_from (fuel : nat) (g : list Z) (j : nat) : nat :=
  match fuel with
  | O => j
  | S fuel => if v6u16 g j =? 0 then zero_run_from fuel g (S j) else j
  end.

(** The first longest run of at least two zero groups; [(255, 255)] if none. *)
Fixpoint zero_run (idx : list nat) (g : list Z) (zs ze : nat) : nat * nat :=
  match idx with
  | [] => (zs, ze)
  | i :: idx =>
      let j := zero_run_from (8 - i) g i in
      let l := (j - i)%nat in
      if (2 <=? l)%nat && (ze - zs <? l)%nat then zero_run idx g i j
      else zero_run idx g zs ze
  end.

Fixpoint print6 (fuel : nat) (i zs ze : nat) (g : list Z) : string :=
  match fuel with
  | O => ""
  | S fuel =>
      if (8 <=? i)%nat then ""
      else if (i =? zs)%nat then
        "::" +:+ (if (8 <=? ze)%nat then ""
                  else appendHex (v6u16 g ze) +:+ print6 fuel (S ze) zs ze g)
      else (if (0 <? i)%nat then ":" else "") +:+
             (appendHex (v6u16 g i) +:+ print6 fuel (S i) zs ze g)
  end.

Definition string6 (v : Z) : string :=
  let g := groups v in
  let '(zs, ze) := zero_run (seq 0 8) g 255 255 in
  print6 8 0 zs ze g.

Definition with_zone_suffix (s zone : string) : string :=
  if decide (zone = "") then s else s +:+ "%" +:+ zone.

Definition Addr_String (a : Addr) : string :=
  match z a with
  | z0 => "invalid IP"
  | z4 => string4 (low32 a)
  | z6 zone =>
      if Is4In6 a then with_zone_suffix ("::ffff:" +:+ string4 (low32 a)) zone
      else with_zone_suffix (string6 (addr a)) zone
  end.

(** ** netip.Prefix *)

Record Prefix := mkPrefix { prefix_ip : Addr; prefix_bits : Z }.

Definition ParsePrefix (s : string) : option Prefix :=
  match LastIndexByte s "/" with
  | None => None
  | Some i =>
      match ParseAddr (str_take i s) with
      | None => None
      | Some ip =>
          if Is6 ip && hasZone ip then None
          else
            let bitsStr := str_drop (S i) s in
            let bad_head :=
              match bitsStr with
              | String c (String _ _) =>
                  negb (is_some (digit_val c)) || bool_decide (c = "0"%char)
              | _ => false
              end in
            if bad_head then None
            else match atoi bitsStr with
                 | None => None
                 | Some bits =>
                     let maxBits := if Is6 ip then 128 else 32 in
                     if (bits <? 0) || (maxBits <? bits) then None
                     else Some (mkPrefix ip bits)
                 end
      end
  end.

Definition Prefix_Contains (p : Prefix) (a : Addr) : bool :=
  if hasZone a then false
  else
    let f1 := BitLen (prefix_ip p) in
    let f2 := BitLen a in
    if (f1 =? 0) || (f2 =? 0) || negb (f1 =? f2) then false
    else if Is4 a then
      Z.shiftr (Z.lxor (low32 a) (low32 (prefix_ip p))) (32 - prefix_bits p) =? 0
    else
      Z.shiftr (Z.lxor (addr a) (addr (prefix_ip p))) (128 - prefix_bits p) =? 0.

Definition Prefix_String (p : Prefix) : string :=
  Addr_String (prefix_ip p) +:+ "/" +:+ itoa (prefix_bits p).

(** ** net.IP *)

Inductive IP :=
| IP4 (v : Z)    (* 4 bytes *)
| IP16 (v : Z).  (* 16 bytes *)

(** The 16-byte value of an address. *)
Definition to16 (ip : IP) : Z := match ip with IP4 v => v4prefix + v | IP16 v => v end.

Definition To4 (ip : IP) : option Z :=
  match ip with
  | IP4 v => Some v
  | IP16 v => if v / 2 ^ 32 =? 65535 then Some (v mod 2 ^ 32) else None
  end.

Definition IP_Equal (a b : IP) : bool := to16 a =? to16 b.

(** [net.ParseIP]; the 16-byte value. *)
Definition ParseIP (s : string) : option Z :=
  match ParseAddr s with
  | Some a => if hasZone a then None else Some (addr a)
  | None => None
  end.

Definition IP_String (ip : IP) : string :=
  match To4 ip with
  | Some v => string4 v
  | None => Addr_String (AddrFrom16 (to16 ip))
  end.

(** [Addr.AsSlice] of a non-zero address. *)
Definition AsSlice (a : Addr) : IP := if Is4 a then IP4 (low32 a) else IP16 (addr a).

(** [netip.AddrFromSlice] of a parsed [net.IP]. *)
Definition AddrFromSlice (ip : IP) : Addr :=
  match ip with IP4 v => AddrFrom4 v | IP16 v => AddrFrom16 v end.

(** [net.CIDRMask(ones, bits)] as a [bits]-wide value. *)
Definition CIDRMask (ones bits : Z) : Z := 2 ^ bits - 2 ^ (bits - ones).

(** [net.IPNet]: the masked network number, the mask's value and width. *)
Record IPNet := mkIPNet { net_ip : IP; net_mask : Z; net_bits : Z }.

Fixpoint dtoi (s : string) (n : Z) : option (Z * string) :=
  match s with
  | EmptyString => Some (n, s)
  | String c s' =>
      match digit_val c with
      | Some d =>
          let n' := n * 10 + d in
          if 16777215 <=? n' then None else dtoi s' n'
      | None => Some (n, s)
      end
  end.

Definition ParseCIDR (s : string) : option IPNet :=
  match IndexByte s "/" with
  | None => None
  | Some i =>
      match ParseAddr (str_take i s) with
      | None => None
      | Some ip =>
          if hasZone ip then None
          else
            let mask := str_drop (S i) s in
            match dtoi mask 0 with
            | Some (n, rest) =>
                if bool_decide (mask = "") || negb (bool_decide (rest = "")) || (BitLen ip <? n)
                then None
                else
                  let m := CIDRMask n (BitLen ip) in
                  Some (mkIPNet
                          (if Is4 ip then IP4 (Z.land (low32 ip) m)
                           else IP16 (Z.land (addr ip) m))
                          m (BitLen ip))
            | None => None
            end
      end
  end.

Definition IPNet_Contains (n : IPNet) (ip : IP) : bool :=
  match To4 (net_ip n), To4 ip with
  | Some nn, Some v =>
      let m := net_mask n mod 2 ^ 32 in
      Z.land nn m =? Z.land v m
  | None, None =>
      if net_bits n =? 128 then
        Z.land (to16 (net_ip n)) (net_mask n) =? Z.land (to16 ip) (net_mask n)
      else false
  | _, _ => false
  end.

(** ** Examples *)

Example parse_v4 : ParseAddr "192.168.1.10" = Some (AddrFrom4 3232235786).
Proof. vm_compute. reflexivity. Qed.
Example parse_v4_bad : ParseAddr "192.168.01.10" = None ∧ ParseAddr "1.2.3" = None
  ∧ ParseAddr "1.2.3.256" = None ∧ ParseAddr "1..2.3" = None ∧ ParseAddr "1.2.3." = None.
Proof. vm_compute. done. Qed.
Example print_v6 :
  (Addr_String <$> ParseAddr "2001:DB8:0:0:1:0:0:1") = Some "2001:db8::1:0:0:1"
  ∧ (Addr_String <$> ParseAddr "::") = Some "::"
  ∧ (Addr_String <$> ParseAddr "1::") = Some "1::"
  ∧ (Addr_String <$> ParseAddr "fe80::1%eth0") = Some "fe80::1%eth0"
  ∧ (Addr_String <$> ParseAddr "::ffff:1.2.3.4") = Some "::ffff:1.2.3.4"
  ∧ (Addr_String <$> ParseAddr "1:2:3:4:5:6:7::") = Some "1:2:3:4:5:6:7:0"
  ∧ ParseAddr "1:2:3:4:5:6:7:8:9" = None ∧ ParseAddr "1::2::3" = None
  ∧ ParseAddr "12345::" = None ∧ ParseAddr "1:2" = None ∧ ParseAddr ":1" = None.
Proof. vm_compute. done. Qed.
Example prefix_ex :
  (λ p, Prefix_Contains p <$> ParseAddr "10.1.2.3") <$> ParsePrefix "10.1.0.0/16" = Some (Some true)
  ∧ ParsePrefix "10.0.0.0/08" = None ∧ ParsePrefix "10.0.0.0/33" = None
  ∧ is_some (ParseCIDR "10.0.0.0/08") = true.
Proof. vm_compute. done. Qed.
