(* ===== verification/NetIPFacts.v ===== *)
(** Facts about the address model of [NetIP]: printing an address and parsing
    it back gives the address, so the printed forms are pairwise different;
    successor, predecessor, comparison and containment as arithmetic on the
    128-bit values. *)

From Stdlib Require Import Ascii OrdersEx.
From S2P Require Import Prelude GoStd NetIP.

#[local] Arguments String.append !_ _ / : simpl nomatch.

(** ** Case analysis on a bounded integer *)

Lemma Z_range_cases (P : Z → Prop) (n : nat) :
  (∀ k, (k < n)%nat → P (Z.of_nat k)) → ∀ x, 0 <= x < Z.of_nat n → P x.
Proof. intros HP x Hx. rewrite <- (Z2Nat.id x) by lia. apply HP. lia. Qed.

(** ** IPv4 round trip *)

Definition octet_ok (x : Z) : Prop :=
  ∀ fields t, ∃ n,
    parseIPv4Fields (itoa x +:+ t) fields 0 0 true = parseIPv4Fields t fields x n false.

Lemma parse_octet x : 0 <= x < 256 → octet_ok x.
Proof.
  apply (Z_range_cases octet_ok 256). intros k Hk fields t.
  do 256 (destruct k as [|k]; [eexists; reflexivity|]). lia.
Qed.

Lemma itoa_octet_nonempty x : 0 <= x < 256 → itoa x ≠ "".
Proof.
  apply (Z_range_cases (λ x, itoa x ≠ "") 256). intros k Hk.
  do 256 (destruct k as [|k]; [done|]). lia.
Qed.

Lemma family_octet x t : 0 <= x < 256 → addr_family (itoa x +:+ t) = addr_family t.
Proof.
  apply (Z_range_cases (λ x, addr_family (itoa x +:+ t) = addr_family t) 256).
  intros k Hk. do 256 (destruct k as [|k]; [reflexivity|]). lia.
Qed.

Lemma parse4_dot t fields x n :
  t ≠ "" → (length fields < 3)%nat →
  parseIPv4Fields ("." +:+ t) fields x n false = parseIPv4Fields t (fields ++ [x]) 0 0 true.
Proof.
  intros Ht Hl. simpl. rewrite (bool_decide_false _ Ht). simpl.
  destruct (Nat.eqb_spec (length fields) 3); [lia | done].
Qed.

Definition octets (v : Z) : list Z :=
  [v / 2 ^ 24 mod 256; v / 2 ^ 16 mod 256; v / 2 ^ 8 mod 256; v mod 256].

Lemma octet_bound v : 0 <= v mod 256 < 256.
Proof. apply Z.mod_pos_bound. lia. Qed.

Lemma str_app_nonempty_l s t : s ≠ "" → s +:+ t ≠ "".
Proof. by destruct s. Qed.

#[local] Hint Resolve octet_bound itoa_octet_nonempty str_app_nonempty_l : core.

Lemma parse4_string4 v :
  parseIPv4Fields (string4 v) [] 0 0 true = Some (octets v).
Proof.
  unfold string4, octets. cbn [fmap list_fmap Join].
  destruct (parse_octet (v / 2 ^ 24 mod 256) (octet_bound _) []
              ("." +:+ itoa (v / 2 ^ 16 mod 256) +:+ "." +:+ itoa (v / 2 ^ 8 mod 256)
                 +:+ "." +:+ itoa (v mod 256))) as [n1 ->].
  rewrite parse4_dot by (auto || simpl; lia).
  destruct (parse_octet (v / 2 ^ 16 mod 256) (octet_bound _) ([] ++ [v / 2 ^ 24 mod 256])
              ("." +:+ itoa (v / 2 ^ 8 mod 256) +:+ "." +:+ itoa (v mod 256))) as [n2 ->].
  rewrite parse4_dot by (auto || simpl; lia).
  edestruct (parse_octet (v / 2 ^ 8 mod 256) (octet_bound _)) as [n3 ->].
  rewrite parse4_dot by (auto || simpl; lia).
  match goal with |- parseIPv4Fields _ ?f _ _ _ = _ =>
    destruct (parse_octet (v mod 256) (octet_bound _) f "") as [n4 Hlast] end.
  rewrite str_app_nil_r in Hlast. rewrite Hlast. reflexivity.
Qed.

Lemma from_be_octets v : 0 <= v < 2 ^ 32 → from_be (octets v) = v.
Proof.
  intros Hv. unfold octets, from_be. cbn [fold_left].
  replace (v / 2 ^ 24) with (v / 256 / 256 / 256) by (rewrite !Z.div_div by lia; done).
  replace (v / 2 ^ 16) with (v / 256 / 256) by (rewrite !Z.div_div by lia; done).
  change (2 ^ 8) with 256. zlia.
Qed.

Lemma family_string4 v : addr_family (string4 v) = Some "."%char.
Proof. unfold string4. simpl. by rewrite family_octet by auto. Qed.

Lemma ParseAddr_string4 v : 0 <= v < 2 ^ 32 → ParseAddr (string4 v) = Some (AddrFrom4 v).
Proof.
  intros Hv. unfold ParseAddr. rewrite family_string4. unfold parseIPv4.
  rewrite parse4_string4. simpl. by rewrite from_be_octets.
Qed.

(** ** IPv6 round trip *)

Definition group_ok (x : Z) : Prop := 0 <= x < 65536.

Lemma hex_val_digit d : 0 <= d < 16 → hex_val (hexdigit d) = Some d.
Proof.
  apply (Z_range_cases (λ d, hex_val (hexdigit d) = Some d) 16). intros k Hk.
  do 16 (destruct k as [|k]; [reflexivity|]). lia.
Qed.

(** What follows a group in a printed address. *)
Definition after_group (t : string) : Prop := t = "" ∨ ∃ t', t = String ":" t'.

Lemma scan_hex_stop t acc off : after_group t → scan_hex t acc off = Some (acc, off, t).
Proof. intros [-> | [t' ->]]; done. Qed.

Lemma scan_hex_digit d t acc off :
  0 <= d < 16 → (off <= 3)%nat → acc * 16 + d <= 65535 →
  scan_hex (String (hexdigit d) t) acc off = scan_hex t (acc * 16 + d) (S off).
Proof.
  intros Hd Hoff Hacc. simpl. rewrite hex_val_digit by done.
  destruct (Nat.ltb_spec 3 off); [lia|].
  destruct (Z.ltb_spec 65535 (acc * 16 + d)); [lia | done].
Qed.

Lemma scan_appendHex x t :
  group_ok x → after_group t →
  ∃ n, scan_hex (appendHex x +:+ t) 0 0 = Some (x, S n, t).
Proof.
  unfold group_ok. intros Hx Ht. unfold appendHex.
  destruct (Z.leb_spec 4096 x); [|destruct (Z.leb_spec 256 x); [|destruct (Z.leb_spec 16 x)]].
  - exists 3%nat. rewrite (proj2 (Z.leb_le 256 x)), (proj2 (Z.leb_le 16 x)) by lia.
    cbn [String.append]. rewrite !scan_hex_digit by zlia. rewrite scan_hex_stop by done.
    repeat f_equal; zlia.
  - exists 2%nat. rewrite (proj2 (Z.leb_le 16 x)) by lia.
    cbn [String.append]. rewrite !scan_hex_digit by zlia. rewrite scan_hex_stop by done.
    repeat f_equal; zlia.
  - exists 1%nat. cbn [String.append]. rewrite !scan_hex_digit by zlia.
    rewrite scan_hex_stop by done. repeat f_equal; zlia.
  - exists 0%nat. cbn [String.append]. rewrite !scan_hex_digit by zlia.
    rewrite scan_hex_stop by done. repeat f_equal; zlia.
Qed.

Lemma appendHex_head x t :
  group_ok x → ∃ c s, appendHex x +:+ t = String c s ∧ c ≠ ":"%char.
Proof.
  intros Hx. destruct (scan_appendHex x ":" Hx) as [n Hn]; [right; by exists ""|].
  assert (∃ c s, appendHex x = String c s) as (c & s & Hc).
  { unfold appendHex. repeat case_match; simpl; eauto. }
  rewrite Hc in *. exists c, (s +:+ t). split; [done|]. intros ->. done.
Qed.

#[local] Arguments String.append : simpl never.

Definition group_bytes (x : Z) : list Z := [x / 256; x mod 256].

Lemma parse6_step_end fuel x ip ell :
  group_ok x →
  parse6_loop (S fuel) (appendHex x +:+ "") ip ell = Some ("", ip ++ group_bytes x, ell).
Proof.
  intros Hx. destruct (scan_appendHex x "" Hx) as [n Hn]; [by left|].
  cbn [parse6_loop]. by rewrite Hn.
Qed.

Lemma parse6_step_group fuel x y t ip ell :
  group_ok x → group_ok y →
  parse6_loop (S fuel) (appendHex x +:+ (":" +:+ (appendHex y +:+ t))) ip ell
  = parse6_loop fuel (appendHex y +:+ t) (ip ++ group_bytes x) ell.
Proof.
  intros Hx Hy. destruct (scan_appendHex x (":" +:+ (appendHex y +:+ t)) Hx) as [n Hn].
  { right. by eexists. }
  destruct (appendHex_head y t Hy) as (c & s & Hc & Hne).
  cbn [parse6_loop]. rewrite Hn, Hc. cbn.
  destruct c as [[] [] [] [] [] [] [] []]; done.
Qed.

Lemma parse6_step_ellipsis fuel x y t ip :
  group_ok x → group_ok y →
  parse6_loop (S fuel) (appendHex x +:+ ("::" +:+ (appendHex y +:+ t))) ip None
  = parse6_loop fuel (appendHex y +:+ t) (ip ++ group_bytes x)
      (Some (length (ip ++ group_bytes x))).
Proof.
  intros Hx Hy. destruct (scan_appendHex x ("::" +:+ (appendHex y +:+ t)) Hx) as [n Hn].
  { right. by eexists. }
  destruct (appendHex_head y t Hy) as (c & s & Hc & Hne).
  cbn [parse6_loop]. rewrite Hn, Hc. cbn. done.
Qed.

Lemma parse6_step_ellipsis_end fuel x ip :
  group_ok x →
  parse6_loop (S fuel) (appendHex x +:+ ("::" +:+ "")) ip None
  = Some ("", ip ++ group_bytes x, Some (length (ip ++ group_bytes x))).
Proof.
  intros Hx. destruct (scan_appendHex x ("::" +:+ "") Hx) as [n Hn].
  { right. by eexists. }
  cbn [parse6_loop]. rewrite Hn. cbn. done.
Qed.

(** *** The run of zeros the printer elides *)

Lemma zero_run_from_spec fuel g j :
  (j <= zero_run_from fuel g j <= j + fuel)%nat ∧
  ∀ k, (j <= k < zero_run_from fuel g j)%nat → v6u16 g k = 0.
Proof.
  revert j. induction fuel as [|fuel IH]; intros j; simpl; [split; lia|].
  destruct (Z.eqb_spec (v6u16 g j) 0) as [H0|]; [|split; lia].
  destruct (IH (S j)) as [Hle Hz]. split; [lia|].
  intros k Hk. destruct (decide (k = j)) as [->|]; [done|]. apply Hz. lia.
Qed.

Definition run_ok (g : list Z) (zs ze : nat) : Prop :=
  (zs = 255 ∧ ze = 255)%nat ∨
  ((zs + 2 <= ze)%nat ∧ (ze <= 8)%nat ∧ ∀ k, (zs <= k < ze)%nat → v6u16 g k = 0).

Lemma zero_run_spec g idx zs ze :
  (∀ i, i ∈ idx → (i < 8)%nat) → run_ok g zs ze →
  run_ok g (zero_run idx g zs ze).1 (zero_run idx g zs ze).2.
Proof.
  revert zs ze. induction idx as [|i idx IH]; intros zs ze Hidx Hok; cbn [zero_run]; [done|].
  assert (i < 8)%nat as Hi by (apply Hidx; by left).
  assert (∀ i, i ∈ idx → (i < 8)%nat) as Hidx' by (intros; apply Hidx; by right).
  destruct (zero_run_from_spec (8 - i) g i) as [Hle Hz].
  cbv zeta. destruct (Nat.leb_spec 2 (zero_run_from (8 - i) g i - i)); cbn [andb]; [|by apply IH].
  destruct (Nat.ltb_spec (ze - zs) (zero_run_from (8 - i) g i - i)); [|by apply IH].
  apply IH; [done|]. right. repeat split; [lia..|]. intros k Hk. apply Hz. lia.
Qed.

Lemma groups_ok v i : (i < 8)%nat → group_ok (v6u16 (groups v) i).
Proof.
  intros Hi. unfold v6u16, groups, group_ok.
  do 8 (destruct i as [|i]; [apply Z.mod_pos_bound; lia|]). lia.
Qed.

Definition bytes6 (v : Z) : list Z := concat (group_bytes <$> groups v).

Lemma from_be_bytes6 v : 0 <= v < max128 → from_be (bytes6 v) = v.
Proof.
  unfold max128. intros Hv. unfold bytes6, groups, from_be, group_bytes.
  cbn [seq fmap list_fmap concat fold_left app].
  change (112 - 16 * Z.of_nat 0) with (16 + 16 + 16 + 16 + 16 + 16 + 16).
  change (112 - 16 * Z.of_nat 1) with (16 + 16 + 16 + 16 + 16 + 16).
  change (112 - 16 * Z.of_nat 2) with (16 + 16 + 16 + 16 + 16).
  change (112 - 16 * Z.of_nat 3) with (16 + 16 + 16 + 16).
  change (112 - 16 * Z.of_nat 4) with (16 + 16 + 16).
  change (112 - 16 * Z.of_nat 5) with (16 + 16).
  change (112 - 16 * Z.of_nat 6) with 16.
  change (112 - 16 * Z.of_nat 7) with 0.
  rewrite !Z.pow_add_r, <- !Z.div_div by lia. change (2 ^ 0) with 1. rewrite Z.div_1_r.
  change (2 ^ 16) with 65536.
  assert (∀ acc x, (acc * 256 + x mod 65536 / 256) * 256 + (x mod 65536) mod 256
    = acc * 65536 + x mod 65536) as Hg by (intros; zlia).
  rewrite !Hg.
  assert (∀ x, x / 65536 * 65536 + x mod 65536 = x) as Hd by (intros; zlia).
  rewrite (Z.mod_small (v / _ / _ / _ / _ / _ / _ / _)) by zlia.
  rewrite Z.mul_0_l, Z.add_0_l, !Hd. done.
Qed.

Lemma parse6_body_group x t :
  group_ok x →
  parse6_body (appendHex x +:+ t) "" = parse6_loop 8 (appendHex x +:+ t) [] None ≫= parse6_finish "".
Proof.
  intros Hx. destruct (appendHex_head x t Hx) as (c & s & -> & Hne).
  destruct c as [[] [] [] [] [] [] [] []]; done.
Qed.

Lemma parse6_body_ellipsis y t :
  group_ok y →
  parse6_body ("::" +:+ (appendHex y +:+ t)) ""
  = parse6_loop 8 (appendHex y +:+ t) [] (Some O) ≫= parse6_finish "".
Proof.
  intros Hy. destruct (appendHex_head y t Hy) as (c & s & -> & _). done.
Qed.

(** Print the groups, then parse them back one step at a time. *)
Ltac print6_step Hg :=
  first
    [ rewrite parse6_step_group by (apply Hg; lia)
    | rewrite parse6_step_ellipsis by (apply Hg; lia)
    | rewrite parse6_step_ellipsis_end by (apply Hg; lia)
    | rewrite parse6_step_end by (apply Hg; lia) ].

Ltac print6_roundtrip Hg :=
  cbn [print6 Nat.leb Nat.eqb Nat.ltb];
  change (λ s : string, "" +:+ s) with (λ s : string, s);
  repeat match goal with |- context ["" +:+ ?s] => change ("" +:+ s) with s end;
  first [ rewrite parse6_body_group by (apply Hg; lia)
        | rewrite parse6_body_ellipsis by (apply Hg; lia) | idtac ];
  repeat print6_step Hg;
  reflexivity.

Lemma parse6_print6 v zs ze :
  run_ok (groups v) zs ze →
  parse6_body (print6 8 0 zs ze (groups v)) "" = Some (AddrFrom16 (from_be (bytes6 v))).
Proof.
  intros Hrun.
  pose proof (groups_ok v) as Hg.
  assert (bytes6 v = concat (group_bytes <$> [v6u16 (groups v) 0; v6u16 (groups v) 1;
    v6u16 (groups v) 2; v6u16 (groups v) 3; v6u16 (groups v) 4; v6u16 (groups v) 5;
    v6u16 (groups v) 6; v6u16 (groups v) 7])) as -> by reflexivity.
  generalize dependent (groups v). clear v. intros g Hrun Hg.
  destruct Hrun as [[-> ->] | (Hlen & Hze & Hz)]; [print6_roundtrip Hg|].
  assert (∀ k, (zs <= k < ze)%nat → v6u16 g k = 0) as Hz0 by done. clear Hz.
  do 7 (destruct zs as [|zs];
    [ do 9 (destruct ze as [|ze];
        [ first [lia | rewrite ?(Hz0 0%nat), ?(Hz0 1%nat), ?(Hz0 2%nat), ?(Hz0 3%nat),
            ?(Hz0 4%nat), ?(Hz0 5%nat), ?(Hz0 6%nat), ?(Hz0 7%nat) by lia;
          print6_roundtrip Hg ] |]); lia |]).
  lia.
Qed.

Ltac str_norm := repeat first [rewrite str_app_nil_l | rewrite str_app_cons].

Lemma IndexByte_app s t c :
  IndexByte s c = None → IndexByte t c = None → IndexByte (s +:+ t) c = None.
Proof.
  induction s as [|d s IH]; [done|]. intros Hs Ht.
  change (String d s +:+ t) with (String d (s +:+ t)). cbn [IndexByte] in *.
  destruct (decide (d = c)); [done|]. destruct (IndexByte s c); [done|]. by rewrite IH.
Qed.

Lemma hexdigit_plain d :
  0 <= d < 16 → hexdigit d ≠ "."%char ∧ hexdigit d ≠ ":"%char ∧ hexdigit d ≠ "%"%char.
Proof.
  apply (Z_range_cases (λ d, hexdigit d ≠ "."%char ∧ hexdigit d ≠ ":"%char ∧ hexdigit d ≠ "%"%char) 16).
  intros k Hk. do 16 (destruct k as [|k]; [done|]). lia.
Qed.

Lemma family_hexdigit d t : 0 <= d < 16 → addr_family (String (hexdigit d) t) = addr_family t.
Proof. intros Hd. cbn [addr_family]. rewrite decide_False; [done|]. pose proof (hexdigit_plain d Hd). tauto. Qed.

(** A byte that no printed group has. *)
Definition foreign (c : ascii) : Prop := ∀ d, 0 <= d < 16 → hexdigit d ≠ c.

Lemma foreign_ex c : forallb (λ k, negb (bool_decide (hexdigit (Z.of_nat k) = c))) (seq 0 16) = true → foreign c.
Proof.
  intros Hc. unfold foreign. apply (Z_range_cases (λ d, hexdigit d ≠ c) 16). intros k Hk.
  rewrite forallb_forall in Hc. assert (In k (seq 0 16)) as Hin by (apply in_seq; lia). specialize (Hc k Hin). by bool_hyps.
Qed.

Lemma absent_hexdigit c d t :
  foreign c → 0 <= d < 16 → IndexByte t c = None → IndexByte (String (hexdigit d) t) c = None.
Proof. intros Hc Hd Ht. cbn [IndexByte]. rewrite decide_False by by apply Hc. by rewrite Ht. Qed.

Lemma family_appendHex x t : group_ok x → addr_family (appendHex x +:+ t) = addr_family t.
Proof.
  unfold group_ok. intros Hx. unfold appendHex.
  destruct (Z.leb_spec 4096 x), (Z.leb_spec 256 x), (Z.leb_spec 16 x); try lia;
    str_norm; rewrite !family_hexdigit by zlia; done.
Qed.

Lemma absent_appendHex c x : foreign c → group_ok x → IndexByte (appendHex x) c = None.
Proof.
  unfold group_ok. intros Hc Hx. unfold appendHex.
  destruct (Z.leb_spec 4096 x), (Z.leb_spec 256 x), (Z.leb_spec 16 x); try lia;
    str_norm; repeat (apply absent_hexdigit; [done | zlia|]); done.
Qed.

Lemma absent_print6 c g fuel i zs ze :
  foreign c → c ≠ ":"%char →
  (∀ k, (k < 8)%nat → group_ok (v6u16 g k)) → IndexByte (print6 fuel i zs ze g) c = None.
Proof.
  intros Hc Hne Hg. assert (IndexByte ":" c = None) as H1 by (cbn [IndexByte]; by rewrite decide_False).
  assert (IndexByte "::" c = None) as H2 by (cbn [IndexByte]; by rewrite !decide_False).
  revert i. induction fuel as [|fuel IH]; intros i; cbn [print6]; [done|].
  destruct (Nat.leb_spec 8 i); [done|].
  destruct (i =? zs)%nat.
  - apply IndexByte_app; [done|]. destruct (Nat.leb_spec 8 ze); [done|].
    apply IndexByte_app; [apply absent_appendHex; [done | apply Hg; lia] | apply IH].
  - apply IndexByte_app; [by destruct (0 <? i)%nat|].
    apply IndexByte_app; [apply absent_appendHex; [done | apply Hg; lia] | apply IH].
Qed.

Lemma family_print6 g zs ze :
  (∀ k, (k < 8)%nat → group_ok (v6u16 g k)) →
  addr_family (print6 8 0 zs ze g) = Some ":"%char.
Proof.
  intros Hg. cbn [print6 Nat.leb]. destruct (0 =? zs)%nat; [done|].
  cbn [Nat.ltb]. change (0 <? 0)%nat with false. cbn iota.
  rewrite str_app_nil_l, family_appendHex by (apply Hg; lia).
  by destruct (1 =? zs)%nat.
Qed.

Lemma ParseAddr_string6 v : 0 <= v < max128 → ParseAddr (string6 v) = Some (AddrFrom16 v).
Proof.
  intros Hv. unfold ParseAddr, string6.
  assert (run_ok (groups v) (zero_run (seq 0 8) (groups v) 255 255).1
            (zero_run (seq 0 8) (groups v) 255 255).2) as Hrun.
  { apply zero_run_spec; [|by left]. intros i Hi. apply elem_of_seq in Hi. lia. }
  destruct (zero_run (seq 0 8) (groups v) 255 255) as [zs ze].
  rewrite family_print6 by (intros; by apply groups_ok). unfold parseIPv6.
  rewrite absent_print6 by first [by apply foreign_ex | done | intros; by apply groups_ok].
  by rewrite parse6_print6, from_be_bytes6.
Qed.

(** ** The addresses of a pool and their names *)

(** [ip.Unmap()] for the 16-byte address with value [v]. *)
Definition canon (v : Z) : Addr := Unmap (AddrFrom16 v).

(** Its printed form: the key of the allocation map. *)
Definition ip_name (v : Z) : string := Addr_String (canon v).

Definition is_v4_val (v : Z) : bool := v / 2 ^ 32 =? 65535.

Lemma canon_v4 v : is_v4_val v = true → canon v = mkAddr v z4.
Proof. unfold canon, Unmap, Is4In6, is_v4_val. simpl. by intros ->. Qed.

Lemma canon_v6 v : is_v4_val v = false → canon v = AddrFrom16 v.
Proof. unfold canon, Unmap, Is4In6, is_v4_val. simpl. by intros ->. Qed.

Lemma addr_canon v : addr (canon v) = v.
Proof. unfold canon, Unmap. by destruct (Is4In6 _). Qed.

Lemma canon_inj v w : canon v = canon w → v = w.
Proof. intros H%(f_equal addr). by rewrite !addr_canon in H. Qed.

Lemma hasZone_canon v : hasZone (canon v) = false.
Proof. unfold canon, Unmap. by destruct (Is4In6 _). Qed.

Theorem ParseAddr_ip_name v : 0 <= v < max128 → ParseAddr (ip_name v) = Some (canon v).
Proof.
  intros Hv. unfold ip_name. destruct (is_v4_val v) eqn:H4.
  - rewrite canon_v4 by done. unfold Addr_String, low32. simpl.
    rewrite ParseAddr_string4 by (apply Z.mod_pos_bound; lia).
    unfold AddrFrom4, v4prefix, is_v4_val in *. bool_hyps. repeat f_equal. zlia.
  - rewrite canon_v6 by done. unfold Addr_String. simpl.
    unfold Is4In6, is_v4_val in *. simpl. rewrite H4. unfold with_zone_suffix. simpl.
    by apply ParseAddr_string6.
Qed.

Lemma ip_name_inj v w : 0 <= v < max128 → 0 <= w < max128 → ip_name v = ip_name w → v = w.
Proof.
  intros Hv Hw Heq. apply canon_inj.
  assert (Some (canon v) = Some (canon w)) as Hs.
  { rewrite <- !ParseAddr_ip_name by done. by rewrite Heq. }
  by simplify_eq.
Qed.

Lemma ip_name_canon v : ip_name v = Addr_String (canon v).
Proof. done. Qed.

(** ** Walking over a range of addresses *)

Lemma Compare_16 a b : (0 <? Compare (AddrFrom16 a) (AddrFrom16 b)) = (b <? a).
Proof.
  unfold Compare. simpl. destruct (Z.compare_spec a b); simpl; symmetry.
  - apply Z.ltb_ge. lia.
  - apply Z.ltb_ge. lia.
  - apply Z.ltb_lt. lia.
Qed.

Lemma Compare_16_zero a : Compare (AddrFrom16 a) zeroAddr = 1.
Proof. done. Qed.

Lemma Next_16 v : 0 <= v → v + 1 < max128 → Next (AddrFrom16 v) = AddrFrom16 (v + 1).
Proof.
  unfold max128. intros. unfold Next. simpl. unfold max128. rewrite Z.mod_small by lia.
  destruct (Z.eqb_spec (v + 1) 0); [lia | done].
Qed.

Lemma Prev_16 v : 0 < v → Prev (AddrFrom16 v) = AddrFrom16 (v - 1).
Proof. intros. unfold Prev. simpl. destruct (Z.eqb_spec v 0); [lia | done]. Qed.

(** The loop condition [endAddr.Compare(ip.Prev()) > 0] is [ip <= endAddr]. *)
Lemma Compare_Prev_16 e v :
  0 <= v → 0 <= e → (0 <? Compare (AddrFrom16 e) (Prev (AddrFrom16 v))) = (v <=? e).
Proof.
  intros Hv He. destruct (decide (v = 0)) as [->|].
  - simpl. symmetry. apply Z.leb_le. lia.
  - rewrite Prev_16, Compare_16 by lia.
    destruct (Z.ltb_spec (v - 1) e), (Z.leb_spec v e); (done || lia).
Qed.

(** The values of parsed addresses are in range. *)
Lemma from_be_bound l n :
  Forall (λ b, 0 <= b < 256) l → (length l <= n)%nat → 0 <= from_be l < 2 ^ (8 * Z.of_nat n).
Proof.
  intros Hl Hn.
  assert (∀ acc, 0 <= acc → 0 <= fold_left (λ acc b, acc * 256 + b) l acc
            < (acc + 1) * 2 ^ (8 * Z.of_nat (length l))) as Hgen.
  { clear Hn. induction Hl as [|b l Hb Hl IH]; intros acc Hacc; cbn [fold_left].
    - rewrite Z.mul_1_r. lia.
    - destruct (IH (acc * 256 + b)) as [IH1 IH2]; [lia|]. split; [done|].
      eapply Z.lt_le_trans; [exact IH2|].
      replace (8 * Z.of_nat (length (b :: l))) with (8 + 8 * Z.of_nat (length l))
        by (cbn [length]; lia).
      rewrite Z.pow_add_r by lia. change (2 ^ 8) with 256. rewrite Z.mul_assoc.
      apply Z.mul_le_mono_nonneg_r; [apply Z.pow_nonneg; lia | lia]. }
  destruct (Hgen 0) as [H1 H2]; [lia|]. split; [exact H1|].
  eapply Z.lt_le_trans; [exact H2|]. rewrite Z.mul_1_l.
  apply Z.pow_le_mono_r; lia.
Qed.

(** ** [Compare] is a total preorder *)

Lemma string_compare_OT a b : String.compare a b = OrdersEx.String_as_OT.compare a b.
Proof. revert b. induction a as [|c a IH]; intros [|d b]; done. Qed.

Lemma string_compare_trans a b c :
  String.compare a b ≠ Gt → String.compare b c ≠ Gt → String.compare a c ≠ Gt.
Proof.
  intros Hab Hbc.
  destruct (String.compare a b) eqn:E1; [|clear Hab | done].
  { apply String.compare_eq_iff in E1. by subst. }
  destruct (String.compare b c) eqn:E2; [|clear Hbc | done].
  { apply String.compare_eq_iff in E2. subst. by rewrite E1. }
  rewrite string_compare_OT in *. by rewrite (transitivity (R := OrdersEx.String_as_OT.lt) E1 E2).
Qed.

Lemma cmp_of_le c : cmp_of c <= 0 ↔ c ≠ Gt.
Proof. destruct c; simpl; split; (lia || done). Qed.

(** [a <= b] in the order of [Compare]: by family, by value, by zone. *)
Lemma Compare_le_iff a b :
  Compare a b <= 0 ↔
  BitLen a < BitLen b ∨
  (BitLen a = BitLen b ∧
   (addr a < addr b ∨
    (addr a = addr b ∧ (Is6 a = true → String.compare (Zone a) (Zone b) ≠ Gt)))).
Proof.
  unfold Compare.
  destruct (Z.compare_spec (BitLen a) (BitLen b)); simpl; [|split; lia|split; lia].
  destruct (Z.compare_spec (addr a) (addr b)); simpl; [|split; lia|split; lia].
  destruct (Is6 a) eqn:H6.
  - rewrite cmp_of_le. split; [tauto|]. intros [?|[_ [?|[_ Hz]]]]; [lia|lia|auto].
  - split; [|lia]. intros _. right. split; [done|]. right. done.
Qed.

Lemma Is6_BitLen a b : BitLen a = BitLen b → Is6 a = Is6 b.
Proof. unfold BitLen, Is6. by destruct (z a), (z b). Qed.

Lemma Compare_le_trans a b c : Compare a b <= 0 → Compare b c <= 0 → Compare a c <= 0.
Proof.
  rewrite !Compare_le_iff.
  intros [?|[Hb1 [?|[Ha1 Hz1]]]] [?|[Hb2 [?|[Ha2 Hz2]]]]; try (left; lia);
    (right; split; [lia|]); try (left; lia).
  right. split; [lia|]. intros H6. eapply string_compare_trans; [by apply Hz1|].
  apply Hz2. by rewrite <- (Is6_BitLen a b).
Qed.

Lemma Compare_le_total a b : Compare a b <= 0 ∨ Compare b a <= 0.
Proof.
  rewrite !Compare_le_iff.
  destruct (Z.lt_total (BitLen a) (BitLen b)) as [?|[?|?]]; [lia| |lia].
  destruct (Z.lt_total (addr a) (addr b)) as [?|[?|?]]; [lia| |lia].
  rewrite (String.compare_antisym (Zone b) (Zone a)).
  destruct (String.compare (Zone a) (Zone b)); simpl; intuition (done || lia).
Qed.

(** ** Bounds of parsed addresses *)

Definition is_byte (b : Z) : Prop := 0 <= b < 256.

Lemma digit_val_range c d : digit_val c = Some d → 0 <= d <= 9.
Proof. unfold digit_val. intros H. split_cases H. bool_hyps. lia. Qed.

Lemma hex_val_range c d : hex_val c = Some d → 0 <= d <= 15.
Proof. unfold hex_val. intros H. split_cases H; bool_hyps; lia. Qed.

Lemma parseIPv4Fields_bytes s : ∀ fields val digLen bare r,
  parseIPv4Fields s fields val digLen bare = Some r →
  Forall is_byte fields → is_byte val → (length fields <= 3)%nat →
  Forall is_byte r ∧ length r = 4%nat.
Proof.
  induction s as [|c s IH]; intros fields val digLen bare r Hp Hf Hv Hl; simpl in Hp.
  - destruct (Nat.ltb_spec (length fields) 3); simplify_eq. split.
    + apply Forall_app. auto.
    + rewrite length_app. simpl. lia.
  - destruct (digit_val c) as [d|] eqn:Hd.
    + case_match; [done|]. destruct (Z.ltb_spec 255 (val * 10 + d)); [done|].
      apply digit_val_range in Hd. unfold is_byte in Hv. eapply IH; eauto. unfold is_byte. lia.
    + case_decide; [|done]. case_match; [done|].
      destruct (Nat.eqb_spec (length fields) 3); [done|].
      eapply IH; eauto; [by apply Forall_app; auto | unfold is_byte; lia |].
      rewrite length_app. simpl. lia.
Qed.

Lemma scan_hex_range s : ∀ acc off v n rest,
  scan_hex s acc off = Some (v, n, rest) → 0 <= acc < 65536 → 0 <= v < 65536.
Proof.
  induction s as [|c s IH]; intros acc off v n rest H Ha; cbn [scan_hex] in H; [by simplify_eq|].
  destruct (hex_val c) as [d|] eqn:Hd; [|by simplify_eq].
  apply hex_val_range in Hd. case_match; [done|].
  destruct (Z.ltb_spec 65535 (acc * 16 + d)); [done|]. eapply IH; [done | lia].
Qed.

Lemma parse6_loop_bytes fuel : ∀ s ip ell s' ip' ell',
  parse6_loop fuel s ip ell = Some (s', ip', ell') →
  Forall is_byte ip → (length ip + 2 * fuel <= 16)%nat →
  Forall is_byte ip' ∧ (length ip' <= 16)%nat.
Proof.
  induction fuel as [|fuel IH]; intros s ip ell s' ip' ell' Hp Hf Hl; cbn [parse6_loop] in Hp.
  { simplify_eq. split; [done | lia]. }
  destruct (scan_hex s 0 0) as [[[acc off] rest]|] eqn:Hs; [|done].
  apply scan_hex_range in Hs; [|lia].
  assert (Forall is_byte [acc / 256; acc mod 256]) as Hg by (repeat constructor; zlia).
  assert (length [acc / 256; acc mod 256] = 2%nat) as Hgl by done.
  set (g := [acc / 256; acc mod 256]) in *. clearbody g.
  assert (Forall is_byte (ip ++ g)) as Hf' by (by apply Forall_app).
  assert (length (ip ++ g) + 2 * fuel <= 16)%nat as Hl' by (rewrite length_app; lia).
  assert (length (ip ++ g) <= 16)%nat as Hl'' by lia.
  repeat (case_on Hp; simplify_eq/=; try done; try (eapply IH; [exact Hp | done | done])).
  all: match goal with Hq : parseIPv4Fields _ _ _ _ _ = Some _ |- _ =>
         apply parseIPv4Fields_bytes in Hq as [? Hlen];
           [|constructor | unfold is_byte; lia | simpl; lia] end.
  all: rewrite length_app, Hlen, Forall_app.
  all: match goal with Hq : (16 <? _)%nat = false |- _ => apply Nat.ltb_ge in Hq end.
  all: split; [done | lia].
Qed.

Lemma ParseAddr_range s a :
  ParseAddr s = Some a →
  0 <= addr a < max128 ∧ (Is4 a = true → v4prefix <= addr a < v4prefix + 2 ^ 32)
  ∧ z a ≠ z0.
Proof.
  assert (∀ t a, parseIPv4 t = Some a → v4prefix <= addr a < v4prefix + 2 ^ 32 ∧ z a = z4) as H4.
  { clear. intros t a Hp. unfold parseIPv4 in Hp. simpl in Hp.
    destruct (parseIPv4Fields t [] 0 0 true) as [f|] eqn:Hf; simplify_eq/=.
    apply parseIPv4Fields_bytes in Hf as [Hb Hl]; [|constructor|unfold is_byte; lia|simpl; lia].
    pose proof (from_be_bound f 4 Hb) as Hr. rewrite Hl in Hr.
    specialize (Hr (le_n _)). change (8 * Z.of_nat 4) with 32 in Hr. split; [lia | done]. }
  assert (∀ zn r a, (∃ s' ip ell, r = (s', ip, ell) ∧ Forall is_byte ip ∧ (length ip <= 16)%nat) →
            parse6_finish zn r = Some a → 0 <= addr a < max128 ∧ Is4 a = false ∧ z a ≠ z0) as Hfin.
  { clear. intros zn r a (s' & ip & ell & -> & Hb & Hl) Hp. unfold parse6_finish in Hp.
    assert (∀ l, Forall is_byte l → (length l <= 16)%nat → 0 <= from_be l < max128) as Hbe.
    { intros l ??. by apply (from_be_bound l 16). }
    split_cases Hp; (split; [|done]); apply Hbe; try done.
    - rewrite !Forall_app. split_and!; [by apply Forall_take | | by apply Forall_drop].
      apply Forall_replicate. unfold is_byte. lia.
    - apply Nat.ltb_lt in Heqb0. rewrite !length_app, length_take, length_replicate, length_drop. lia. }
  assert (∀ t zn e a, parse6_loop 8 t [] e ≫= parse6_finish zn = Some a →
            0 <= addr a < max128 ∧ Is4 a = false ∧ z a ≠ z0) as Hloop.
  { intros t zn e a0 Hp. destruct (parse6_loop 8 t [] e) as [[[s' ip] ell]|] eqn:Hl; [|done].
    eapply Hfin; [|exact Hp]. apply parse6_loop_bytes in Hl as [? ?]; [|constructor|simpl; lia].
    by do 3 eexists. }
  assert (∀ t zn a, parse6_body t zn = Some a → 0 <= addr a < max128 ∧ Is4 a = false ∧ z a ≠ z0) as Hbody.
  { intros t zn a0 Hp. unfold parse6_body in Hp.
    repeat lazymatch type of Hp with
      | parse6_loop _ _ _ _ ≫= _ = _ => exact (Hloop _ _ _ _ Hp)
      | Some _ = Some _ => injection Hp as <-; done
      | _ => case_on Hp
      end. }
  intros Hp. unfold ParseAddr in Hp.
  assert (parseIPv4 s = Some a ∨ parseIPv6 s = Some a) as [H|H].
  { repeat lazymatch type of Hp with
      | parseIPv4 _ = _ => exact (or_introl Hp)
      | parseIPv6 _ = _ => exact (or_intror Hp)
      | None = _ => discriminate Hp
      | _ => case_on Hp
      end. }
  - apply H4 in H as [? Hz]. split; [unfold v4prefix, max128 in *; zlia | by rewrite Hz].
  - assert (0 <= addr a < max128 ∧ Is4 a = false ∧ z a ≠ z0) as (? & Hf & ?); [|by rewrite Hf].
    unfold parseIPv6 in H. destruct (IndexByte s "%"); [|exact (Hbody _ _ _ H)].
    case_decide; [done | exact (Hbody _ _ _ H)].
Qed.

(** ** Prefixes are convex *)

Lemma shiftr_lxor_0 a b n :
  0 <= a → 0 <= b → 0 <= n → (Z.shiftr (Z.lxor a b) n =? 0) = (a / 2 ^ n =? b / 2 ^ n).
Proof.
  intros. rewrite Z.shiftr_lxor, !Z.shiftr_div_pow2 by done.
  destruct (Z.eqb_spec (a / 2 ^ n) (b / 2 ^ n)) as [->|Hne].
  - by rewrite Z.lxor_nilpotent.
  - apply Z.eqb_neq. by rewrite Z.lxor_eq_0_iff.
Qed.

Lemma div_between a b c q : 0 < q → a <= b <= c → a / q = c / q → b / q = a / q.
Proof.
  intros Hq [Hab Hbc] He. apply (Z.div_le_mono _ _ q) in Hab, Hbc; lia.
Qed.

(** The host bits all set: the largest value of the block. *)
Lemma lor_ones_max v p n :
  0 <= v → 0 <= p → 0 <= n → v / 2 ^ n = p / 2 ^ n → v <= Z.lor p (2 ^ n - 1).
Proof.
  intros Hv Hp Hn He. replace (2 ^ n - 1) with (Z.ones n) by (rewrite Z.ones_equiv; lia).
  set (b := Z.lor p (Z.ones n)).
  assert (b / 2 ^ n = v / 2 ^ n) as Hd.
  { unfold b. rewrite <- Z.shiftr_div_pow2, Z.shiftr_lor by done.
    rewrite (Z.shiftr_div_pow2 (Z.ones n)), (Z.shiftr_div_pow2 p) by done.
    rewrite (Z.div_small (Z.ones n)), Z.lor_0_r; [done|].
    rewrite Z.ones_equiv. pose proof (Z.pow_pos_nonneg 2 n). lia. }
  assert (b mod 2 ^ n = 2 ^ n - 1) as Hm.
  { unfold b. rewrite <- Z.land_ones by done.
    transitivity (Z.ones n); [|rewrite Z.ones_equiv; lia].
    apply Z.bits_inj'. intros i Hi. rewrite Z.land_spec, Z.lor_spec.
    destruct (Z.testbit (Z.ones n) i); [by rewrite orb_true_r | by rewrite andb_false_r]. }
  assert (2 ^ n > 0) by (pose proof (Z.pow_pos_nonneg 2 n); lia).
  rewrite (Z.div_mod v (2 ^ n)), (Z.div_mod b (2 ^ n)), Hd, Hm by lia.
  pose proof (Z.mod_pos_bound v (2 ^ n)). lia.
Qed.

Lemma ParsePrefix_bits s p :
  ParsePrefix s = Some p →
  z (prefix_ip p) ≠ z0 ∧ 0 <= addr (prefix_ip p) < max128 ∧
  0 <= prefix_bits p <= (if Is6 (prefix_ip p) then 128 else 32) ∧
  (Is4 (prefix_ip p) = true → v4prefix <= addr (prefix_ip p) < v4prefix + 2 ^ 32).
Proof.
  unfold ParsePrefix. intros Hp. destruct (LastIndexByte s "/") as [i|]; [|done].
  destruct (ParseAddr (str_take i s)) as [ip|] eqn:Ha; [|done].
  apply ParseAddr_range in Ha as (Hr & H4 & Hz).
  case_match; [done|]. case_match; [done|].
  destruct (atoi _) as [bits|]; [|done]. case_match eqn:Hb; [done|]. simplify_eq/=. bool_hyps.
  split_and!; try done; lia.
Qed.
