(* ===== verification/Ipam.v ===== *)
(** The in-memory address allocator, [pkg/ipam/ipam.go].

    Every exported operation of the source takes the allocator's mutex for its
    whole body, so an operation is one atomic step: a function from the
    allocator to its result and the next allocator.  An error return leaves
    the allocator as it was.

    [buildSubnet] fills the allocation map with a loop that need not stop; a
    result of [None] says that the call never returns.  The loop is given
    [loop_fuel] rounds, one more than the largest range it accepts;
    [fill_complete] shows that this is enough whenever it stops at all. *)

From Stdlib Require Import Ascii.
From S2P Require Import Prelude GoStd NetIP NetIPFacts.

(** The texts of the errors of [netip.ParseAddr] and [netip.ParsePrefix]. *)
Class NetErrText := {
  addr_err : string → string;
  prefix_err : string → string
}.

Definition no_err_text : NetErrText :=
  {| addr_err := λ s, "ParseAddr: " +:+ s; prefix_err := λ s, "ParsePrefix: " +:+ s |}.

(** ** State *)

Definition MaxSubnetRangeSize : Z := 65536.

Record UsageData := mkUsage {
  CIDR : string; Start : string; End_ : string; Broadcast : string;
  Total : Z; Used_ : Z; Available_ : Z; UsedIPs : list string
}.

Record IPSubnet := mkSubnet {
  cidr : Prefix;
  start : IP;
  end_ : IP;
  broadcast : option IP;
  ips : gmap string bool;
  owners : gmap string string
}.

Record IPAllocator := mkAlloc { ipam : gmap string IPSubnet }.

Definition New : IPAllocator := mkAlloc ∅.

Definition set_ips (s : IPSubnet) (m : gmap string bool) : IPSubnet :=
  mkSubnet (cidr s) (start s) (end_ s) (broadcast s) m (owners s).
Definition set_owners (s : IPSubnet) (m : gmap string string) : IPSubnet :=
  mkSubnet (cidr s) (start s) (end_ s) (broadcast s) (ips s) m.
Definition set_subnet (a : IPAllocator) (name : string) (s : IPSubnet) : IPAllocator :=
  mkAlloc (<[name := s]> (ipam a)).

(** Reading a missing key of a Go map gives the zero value. *)
Definition ip_used (s : IPSubnet) (ip : string) : bool := map_get false (ips s) ip.
Definition ip_owner (s : IPSubnet) (ip : string) : string := map_get "" (owners s) ip.

Definition ErrForeignClaim : error :=
  mkErr KForeignClaim "ip is allocated to a different owner".
Definition IsForeignClaim (e : error) : bool := bool_decide (err_kind e = KForeignClaim).

Section Ipam.
Context `{MapRange, NetErrText}.

(** ** Building a subnet *)

Definition ValidateRangeSize (start end_ : string) : res unit :=
  match ParseAddr start with
  | None => Err (errorf ("invalid start address " +:+ start +:+ ": " +:+ addr_err start))
  | Some startAddr =>
      match ParseAddr end_ with
      | None => Err (errorf ("invalid end address " +:+ end_ +:+ ": " +:+ addr_err end_))
      | Some endAddr =>
          let size := addr endAddr - addr startAddr + 1 in
          if negb ((- two63 <=? size) && (size <? two63)) || (MaxSubnetRangeSize <? size)
          then Err (errorf ("pool range " +:+ start +:+ "-" +:+ end_ +:+ " spans " +:+ itoa size
                 +:+ " addresses, exceeding the maximum of " +:+ itoa MaxSubnetRangeSize))
          else Ok tt
      end
  end.

Definition loop_fuel : nat := S (Z.to_nat MaxSubnetRangeSize).

(** [for ip := startAddr; endAddr.Compare(ip.Prev()) > 0; ip = ip.Next()] *)
Fixpoint fill (fuel : nat) (ip endAddr : Addr) (allocatedIPs : gmap string bool)
    : option (gmap string bool) :=
  match fuel with
  | O => None
  | S fuel =>
      if 0 <? Compare endAddr (Prev ip) then
        fill fuel (Next ip) endAddr (<[Addr_String (Unmap ip) := false]> allocatedIPs)
      else Some allocatedIPs
  end.

(** The broadcast address of an IPv4 prefix: the host bits all set. *)
Definition subnet_broadcast (ipnet : Prefix) : option IP :=
  if Is4 (prefix_ip ipnet)
  then Some (IP4 (Z.lor (low32 (prefix_ip ipnet)) (2 ^ (32 - prefix_bits ipnet) - 1)))
  else None.

(** [s.start] and [s.end]: [net.ParseIP], which accepts every address that got
    past the containment check. *)
Definition parsed_ip (s : string) : IP := IP16 (default 0 (ParseIP s)).

Definition buildSubnet (subnet start end_ : string) : option (res IPSubnet) :=
  match ParsePrefix subnet with
  | None => Some (Err (errorf (prefix_err subnet)))
  | Some ipnet =>
  match ParseAddr start with
  | None => Some (Err (errorf (addr_err start)))
  | Some startIP =>
  if negb (Prefix_Contains ipnet startIP) then
    Some (Err (errorf ("start address " +:+ start +:+ " is not within subnet " +:+ subnet +:+ " range")))
  else
  match ParseAddr end_ with
  | None => Some (Err (errorf (addr_err end_)))
  | Some endIP =>
  if negb (Prefix_Contains ipnet endIP) then
    Some (Err (errorf ("end address " +:+ end_ +:+ " is not within subnet " +:+ subnet +:+ " range")))
  else
  let startAddr := AddrFromSlice (parsed_ip start) in
  let endAddr := AddrFromSlice (parsed_ip end_) in
  if 0 <? Compare startAddr endAddr then
    Some (Err (errorf ("end address " +:+ end_ +:+ " is smaller then the start address " +:+ start)))
  else
  let bc := subnet_broadcast ipnet in
  if match bc with Some b => IP_Equal (parsed_ip end_) b | None => false end then
    Some (Err (errorf ("end address " +:+ IP_String (parsed_ip end_)
      +:+ " equals the broadcast address " +:+ from_option IP_String "<nil>" bc)))
  else
  match ValidateRangeSize start end_ with
  | Err e => Some (Err e)
  | Ok _ =>
      allocatedIPs ← fill loop_fuel startAddr endAddr ∅;
      Some (Ok (mkSubnet ipnet (parsed_ip start) (parsed_ip end_) bc allocatedIPs ∅))
  end end end end.

(** ** Marking addresses *)

Definition equals_broadcast (s : IPSubnet) (ip : Addr) : bool :=
  match broadcast s with
  | Some b => IP_Equal b (AsSlice (Unmap ip))
  | None => false
  end.

Definition markIPUsed (s : IPSubnet) (ipStr : string) : res IPSubnet :=
  match ParseAddr ipStr with
  | None => Err (errorf (addr_err ipStr))
  | Some ip =>
      if negb (Prefix_Contains (cidr s) ip) then
        Err (errorf ("ip " +:+ ipStr +:+ " is not in cidr " +:+ Prefix_String (cidr s)))
      else if equals_broadcast s ip then
        Err (errorf ("ip " +:+ ipStr +:+ " equals broadcast address"))
      else if is_some (ips s !! ipStr) then
        Ok (set_ips s (<[ipStr := true]> (ips s)))
      else Err (errorf ("ip " +:+ ipStr +:+ " not found in pool range"))
  end.

Fixpoint mark_excludes (s : IPSubnet) (excludes : list string) : res IPSubnet :=
  match excludes with
  | [] => Ok s
  | ipStr :: rest =>
      match markIPUsed s ipStr with
      | Err e => Err (wrapf ("failed to reserve excluded ip " +:+ ipStr) e)
      | Ok s' => mark_excludes s' rest
      end
  end.

Definition mark_allocation (s : IPSubnet) (ipStr : string) : IPSubnet :=
  match markIPUsed s ipStr with
  | Err _ => s
  | Ok s' => s'
  end.

Definition carry_claim (old : IPSubnet) (s : IPSubnet) (claim : string * string) : IPSubnet :=
  let '(ipStr, owner) := claim in
  if bool_decide (owner = "") || negb (ip_used old ipStr) then s
  else match markIPUsed s ipStr with
       | Err _ => s
       | Ok s' => set_owners s' (<[ipStr := owner]> (owners s'))
       end.

(** ** Exported operations *)

Definition NewSubnet (a : IPAllocator) (name subnet start end_ : string)
    : option (res unit * IPAllocator) :=
  r ← buildSubnet subnet start end_;
  Some (match r with
        | Err e => (Err e, a)
        | Ok s => (Ok tt, set_subnet a name s)
        end).

Definition RefreshSubnet (a : IPAllocator) (name subnet start end_ : string)
    (excludes allocations : list string) : option (res unit * IPAllocator) :=
  r ← buildSubnet subnet start end_;
  Some (match r with
        | Err e => (Err e, a)
        | Ok s =>
            match mark_excludes s excludes with
            | Err e => (Err e, a)
            | Ok s =>
                let s := foldl mark_allocation s allocations in
                let s := match ipam a !! name with
                         | Some old => foldl (carry_claim old) s (range (owners old))
                         | None => s
                         end in
                (Ok tt, set_subnet a name s)
            end
        end).

Definition DeleteSubnet (a : IPAllocator) (name : string) : IPAllocator :=
  mkAlloc (delete name (ipam a)).

(** The lowest-address walk of [getIP]: parse the keys, sort, take the first
    that is not allocated. *)
Definition addr_le (a b : Addr) : Prop := Compare a b <= 0.
#[export] Instance addr_le_dec a b : Decision (addr_le a b).
Proof. unfold addr_le. apply _. Defined.

Definition sorted_keys (s : IPSubnet) : list Addr :=
  merge_sort addr_le (omap ParseAddr (range (ips s)).*1).

Definition next_free (s : IPSubnet) : option string :=
  head (filter (λ ipStr, ip_used s ipStr = false) (Addr_String <$> sorted_keys s)).

Definition claim (s : IPSubnet) (ip owner : string) : IPSubnet :=
  set_owners (set_ips s (<[ip := true]> (ips s))) (<[ip := owner]> (owners s)).

Definition getIP (a : IPAllocator) (name givenIP owner : string) : res string * IPAllocator :=
  match ipam a !! name with
  | None => (Err (errorf ("network " +:+ name +:+ " does not exists")), a)
  | Some s =>
  if negb (bool_decide (givenIP = "")) then
    match ParseAddr givenIP with
    | None => (Err (errorf (addr_err givenIP)), a)
    | Some gIP =>
        if negb (Prefix_Contains (cidr s) gIP) then
          (Err (errorf ("given ip " +:+ givenIP +:+ " is not cidr " +:+ Prefix_String (cidr s))), a)
        else if equals_broadcast s gIP then
          (Err (errorf ("given ip " +:+ givenIP +:+ " equals the broadcast address "
             +:+ from_option IP_String "<nil>" (broadcast s))), a)
        else match ips s !! givenIP with
             | Some true =>
                 (Err (errorf ("given ip " +:+ givenIP +:+ " is already allocated")), a)
             | Some false => (Ok givenIP, set_subnet a name (claim s givenIP owner))
             | None =>
                 (Err (errorf ("given ip " +:+ givenIP +:+ " not found in network pool " +:+ name)), a)
             end
    end
  else
    match next_free s with
    | Some ipStr => (Ok ipStr, set_subnet a name (claim s ipStr owner))
    | None => (Err (errorf ("no more ips left in network " +:+ name)), a)
    end
  end.

Definition GetIP (a : IPAllocator) (name givenIP : string) : res string * IPAllocator :=
  getIP a name givenIP "".

(** The idempotent re-claim test of [GetIPOwned]. *)
Definition reclaims (a : IPAllocator) (name givenIP owner : string) : bool :=
  negb (bool_decide (givenIP = "")) &&
  match ipam a !! name with
  | Some s => ip_used s givenIP && bool_decide (ip_owner s givenIP = owner)
  | None => false
  end.

Definition GetIPOwned (a : IPAllocator) (name givenIP owner : string) : res string * IPAllocator :=
  if bool_decide (owner = "") then (Err (errorf "owner must not be empty"), a)
  else if reclaims a name givenIP owner then (Ok givenIP, a)
  else getIP a name givenIP owner.

Definition release (s : IPSubnet) (ip : string) : IPSubnet :=
  set_owners (set_ips s (<[ip := false]> (ips s))) (delete ip (owners s)).

Definition releaseIP (a : IPAllocator) (name givenIP : string) : res unit * IPAllocator :=
  match ipam a !! name with
  | None => (Err (errorf ("network " +:+ name +:+ " does not exists")), a)
  | Some s =>
  if bool_decide (givenIP = "") then (Err (errorf "given ip is empty"), a)
  else match ParseAddr givenIP with
  | None => (Err (errorf (addr_err givenIP)), a)
  | Some gIP =>
      if negb (Prefix_Contains (cidr s) gIP) then
        (Err (errorf ("given ip " +:+ givenIP +:+ " is not cidr " +:+ Prefix_String (cidr s))), a)
      else match ips s !! givenIP with
           | Some true => (Ok tt, set_subnet a name (release s givenIP))
           | Some false => (Err (errorf ("given ip " +:+ givenIP +:+ " was not allocated")), a)
           | None => (Err (errorf ("given ip " +:+ givenIP +:+ " not found in network " +:+ name)), a)
           end
  end
  end.

Definition ReleaseIP (a : IPAllocator) (name givenIP : string) : res unit * IPAllocator :=
  releaseIP a name givenIP.

Definition ReleaseIPOwned (a : IPAllocator) (name givenIP owner : string) : res unit * IPAllocator :=
  if bool_decide (owner = "") then (Err (errorf "owner must not be empty"), a)
  else match ipam a !! name with
  | None => (Err (errorf ("network " +:+ name +:+ " does not exists")), a)
  | Some s =>
      if ip_used s givenIP && negb (bool_decide (ip_owner s givenIP = owner)) then
        (Err (wrapf ("given ip " +:+ givenIP +:+ " is allocated to " +:+ ip_owner s givenIP)
           ErrForeignClaim), a)
      else releaseIP a name givenIP
  end.

(** One round of the sweep of [ReleaseAllByOwner]. *)
Definition sweep_claim (owner : string) (acc : IPSubnet * Z) (entry : string * string)
    : IPSubnet * Z :=
  let '(s, freed) := acc in
  let '(ip, o) := entry in
  if negb (bool_decide (o = owner)) then (s, freed)
  else
    let '(s, freed) :=
      if ip_used s ip then (set_ips s (<[ip := false]> (ips s)), freed + 1) else (s, freed) in
    (set_owners s (delete ip (owners s)), freed).

Definition ReleaseAllByOwner (a : IPAllocator) (name owner : string) : Z * IPAllocator :=
  if bool_decide (owner = "") then (0, a)
  else match ipam a !! name with
  | None => (0, a)
  | Some s =>
      let '(s', freed) := foldl (sweep_claim owner) (s, 0) (range (owners s)) in
      (freed, set_subnet a name s')
  end.

(** Counting loops: [i++] for every entry that passes the test. *)
Definition count_ips (test : bool → bool) (s : IPSubnet) : Z :=
  foldl (λ (i : Z) (e : string * bool), if test e.2 then i + 1 else i) 0 (range (ips s)).

Definition Used (a : IPAllocator) (name : string) : Z :=
  match ipam a !! name with
  | None => 0
  | Some s => count_ips (λ allocated, allocated) s
  end.

Definition Available (a : IPAllocator) (name : string) : Z :=
  match ipam a !! name with
  | None => 0
  | Some s => count_ips (λ allocated, negb allocated) s
  end.

Definition string_le (s t : string) : Prop := String.leb s t = true.
#[export] Instance string_le_dec s t : Decision (string_le s t).
Proof. unfold string_le. apply _. Defined.

Definition usage_of (s : IPSubnet) : UsageData :=
  let used := (filter (λ e : string * bool, e.2 = true) (range (ips s))).*1 in
  mkUsage (Prefix_String (cidr s)) (IP_String (start s)) (IP_String (end_ s))
    (from_option IP_String "" (broadcast s))
    (Z.of_nat (size (ips s))) (Z.of_nat (length used))
    (Z.of_nat (size (ips s)) - Z.of_nat (length used)) (merge_sort string_le used).

Definition GetUsage (a : IPAllocator) : gmap string UsageData := usage_of <$> ipam a.

End Ipam.
