(* ===== verification/IpamSpec.v ===== *)
(** What the address allocator promises, and that [Ipam.v] keeps it.

    The specification of a subnet is a [PoolSpec]: the finite set of its addresses,
    those of them a caller may name, and the claims, a finite map from the
    addresses taken to their owners (an unowned claim has the empty owner).
    [spec_step] says what each call may do to the pools; [run_refines] shows
    that every call on a well-formed allocator is such a step, and
    [reachable_wf] that every allocator the calls can produce is well formed. *)

From S2P Require Import Prelude GoStd NetIP NetIPFacts Ipam.

(** ** Well-formed subnets *)

(** The addresses of a range, as the allocation map spells them. *)
Definition range_keys (lo hi : Z) : gset string :=
  list_to_set (ip_name <$> seqZ lo (hi - lo + 1)).

(** An address a caller can name: [markIPUsed], [getIP] and [releaseIP] accept
    it.  Every address of a range is, except IPv4-mapped ones in an IPv6
    prefix. *)
Definition nameable (s : IPSubnet) (k : string) : bool :=
  match ParseAddr k with
  | Some ip => Prefix_Contains (cidr s) ip && negb (equals_broadcast s ip)
  | None => false
  end.

Record wf_subnet_at (lo hi : Z) (s : IPSubnet) : Prop := mkWf {
  wf_bounds : 0 <= lo <= hi ∧ hi < max128 - 1 ∧ hi - lo < MaxSubnetRangeSize;
  wf_start : start s = IP16 lo;
  wf_end : end_ s = IP16 hi;
  wf_keys : dom (ips s) = range_keys lo hi;
  wf_named : ∀ v, lo <= v <= hi →
    nameable s (ip_name v) = true ∨ Is4 (prefix_ip (cidr s)) = false ∧ is_v4_val v = true;
  wf_broadcast : ∀ v, lo <= v <= hi → equals_broadcast s (canon v) = false;
  wf_owners : ∀ k o, owners s !! k = Some o → ips s !! k = Some true
}.

Definition wf_subnet (s : IPSubnet) : Prop := ∃ lo hi, wf_subnet_at lo hi s.
Definition wf (a : IPAllocator) : Prop := map_Forall (λ _ s, wf_subnet s) (ipam a).

(** ** The abstract state *)

Record PoolSpec := mkPoolSpec {
  p_keys : gset string;
  p_named : gset string;
  p_taken : gmap string string
}.

Definition claims (s : IPSubnet) : gmap string string :=
  map_imap (λ k (used : bool), if used then Some (ip_owner s k) else None) (ips s).

Definition pool_of (s : IPSubnet) : PoolSpec :=
  mkPoolSpec (dom (ips s)) (filter (λ k, nameable s k = true) (dom (ips s))) (claims s).

Definition pools (a : IPAllocator) : gmap string PoolSpec := pool_of <$> ipam a.

Definition with_taken (p : PoolSpec) (t : gmap string string) : PoolSpec :=
  mkPoolSpec (p_keys p) (p_named p) t.

(** ** Calls and replies *)

Inductive op :=
| OpNewSubnet (name subnet start end_ : string)
| OpRefreshSubnet (name subnet start end_ : string) (excludes allocations : list string)
| OpDeleteSubnet (name : string)
| OpGetIP (name givenIP : string)
| OpGetIPOwned (name givenIP owner : string)
| OpReleaseIP (name givenIP : string)
| OpReleaseIPOwned (name givenIP owner : string)
| OpReleaseAllByOwner (name owner : string).

Inductive reply :=
| RNone
| RUnit (r : res unit)
| RAddr (r : res string)
| RCount (n : Z).

Definition failed (r : reply) : bool :=
  match r with RUnit r => is_err r | RAddr r => is_err r | _ => false end.

Section Run.
Context `{MapRange, NetErrText}.

(** One call; [None] if it does not return. *)
Definition run (o : op) (a : IPAllocator) : option (reply * IPAllocator) :=
  match o with
  | OpNewSubnet n s b e =>
      '(r, a') ← NewSubnet a n s b e; Some (RUnit r, a')
  | OpRefreshSubnet n s b e ex al =>
      '(r, a') ← RefreshSubnet a n s b e ex al; Some (RUnit r, a')
  | OpDeleteSubnet n => Some (RNone, DeleteSubnet a n)
  | OpGetIP n ip => let '(r, a') := GetIP a n ip in Some (RAddr r, a')
  | OpGetIPOwned n ip o => let '(r, a') := GetIPOwned a n ip o in Some (RAddr r, a')
  | OpReleaseIP n ip => let '(r, a') := ReleaseIP a n ip in Some (RUnit r, a')
  | OpReleaseIPOwned n ip o => let '(r, a') := ReleaseIPOwned a n ip o in Some (RUnit r, a')
  | OpReleaseAllByOwner n o =>
      let '(k, a') := ReleaseAllByOwner a n o in Some (RCount k, a')
  end.

Inductive reachable : IPAllocator → Prop :=
| reach_new : reachable New
| reach_run a o r a' : reachable a → run o a = Some (r, a') → reachable a'.

End Run.

(** ** The specification *)

(** [k] is the free address the lowest-address walk returns. *)
Definition lowest_free (p : PoolSpec) (k : string) : Prop :=
  k ∈ p_keys p ∧ p_taken p !! k = None ∧
  ∀ k', k' ∈ p_keys p → p_taken p !! k' = None →
    ∃ x x', ParseAddr k = Some x ∧ ParseAddr k' = Some x' ∧ Compare x x' <= 0.

(** The claims after a refresh to the pool [new]: owned claims survive where
    the new pool can name them, and the excluded addresses and the persisted
    allocations are taken. *)
Definition refreshed (new : PoolSpec) (old : option PoolSpec) (marked : list string)
    (t : gmap string string) : Prop :=
  (∀ k o, o ≠ "" →
     t !! k = Some o ↔ k ∈ p_named new ∧ old ≫= (λ p, p_taken p !! k) = Some o) ∧
  (∀ k, is_Some (t !! k) ↔
     k ∈ p_named new ∧
     (k ∈ marked ∨ ∃ o, o ≠ "" ∧ old ≫= (λ p, p_taken p !! k) = Some o)).

Inductive spec_step (A : gmap string PoolSpec) : op → reply → gmap string PoolSpec → Prop :=
| spec_fail o r : failed r = true → spec_step A o r A
| spec_new n s b e p lo hi :
    ParseIP b = Some lo → ParseIP e = Some hi → p_keys p = range_keys lo hi → p_taken p = ∅ →
    spec_step A (OpNewSubnet n s b e) (RUnit (Ok tt)) (<[n := p]> A)
| spec_refresh n s b e ex al p lo hi :
    ParseIP b = Some lo → ParseIP e = Some hi → p_keys p = range_keys lo hi →
    (∀ k, k ∈ ex → k ∈ p_named p) →
    refreshed p (A !! n) (ex ++ al) (p_taken p) →
    spec_step A (OpRefreshSubnet n s b e ex al) (RUnit (Ok tt)) (<[n := p]> A)
| spec_delete n : spec_step A (OpDeleteSubnet n) RNone (delete n A)
| spec_get n ip k p :
    A !! n = Some p → (ip = "" ∧ lowest_free p k ∨ ip = k ∧ k ∈ p_named p) →
    p_taken p !! k = None →
    spec_step A (OpGetIP n ip) (RAddr (Ok k)) (<[n := with_taken p (<[k := ""]> (p_taken p))]> A)
| spec_get_owned n ip o k p :
    A !! n = Some p → o ≠ "" → (ip = "" ∧ lowest_free p k ∨ ip = k ∧ k ∈ p_named p) →
    p_taken p !! k = None →
    spec_step A (OpGetIPOwned n ip o) (RAddr (Ok k)) (<[n := with_taken p (<[k := o]> (p_taken p))]> A)
| spec_reclaim n k o p :
    A !! n = Some p → o ≠ "" → p_taken p !! k = Some o →
    spec_step A (OpGetIPOwned n k o) (RAddr (Ok k)) A
| spec_release n k o p :
    A !! n = Some p → p_taken p !! k = Some o →
    spec_step A (OpReleaseIP n k) (RUnit (Ok tt)) (<[n := with_taken p (delete k (p_taken p))]> A)
| spec_release_owned n k o p :
    A !! n = Some p → o ≠ "" → p_taken p !! k = Some o →
    spec_step A (OpReleaseIPOwned n k o) (RUnit (Ok tt))
      (<[n := with_taken p (delete k (p_taken p))]> A)
| spec_release_all n o p :
    A !! n = Some p → o ≠ "" →
    spec_step A (OpReleaseAllByOwner n o)
      (RCount (Z.of_nat (size (filter (λ kv : string * string, kv.2 = o) (p_taken p)))))
      (<[n := with_taken p (filter (λ kv : string * string, kv.2 ≠ o) (p_taken p))]> A)
| spec_release_none n o :
    A !! n = None ∨ o = "" → spec_step A (OpReleaseAllByOwner n o) (RCount 0) A.

(** ** Ranges *)

Lemma elem_of_range_keys lo hi k :
  k ∈ range_keys lo hi ↔ ∃ v, lo <= v <= hi ∧ k = ip_name v.
Proof.
  unfold range_keys. rewrite elem_of_list_to_set, list_elem_of_fmap.
  setoid_rewrite elem_of_seqZ. split; intros (v & ? & ?); exists v; split; (done || lia).
Qed.

Lemma size_range_keys lo hi :
  0 <= lo <= hi → hi < max128 → Z.of_nat (size (range_keys lo hi)) = hi - lo + 1.
Proof.
  intros. unfold range_keys. rewrite size_list_to_set.
  - rewrite length_fmap, length_seqZ. lia.
  - apply NoDup_fmap_2_strong; [|apply NoDup_seqZ].
    intros v w Hv%elem_of_seqZ Hw%elem_of_seqZ. apply ip_name_inj; lia.
Qed.

(** ** The fill loop *)

Lemma range_keys_step v hi :
  v <= hi → range_keys v hi = {[ ip_name v ]} ∪ range_keys (v + 1) hi.
Proof.
  intros. apply set_eq. intros k. rewrite elem_of_union, elem_of_singleton, !elem_of_range_keys.
  split.
  - intros (w & ? & ->). destruct (decide (w = v)) as [->|]; [by left|].
    right. exists w. split; [lia | done].
  - intros [->|(w & ? & ->)]; [exists v | exists w]; (split; [lia | done]).
Qed.

Lemma fill_spec fuel : ∀ v hi m,
  0 <= v → v <= hi + 1 → 0 <= hi < max128 - 1 → hi - v + 1 < Z.of_nat fuel →
  fill fuel (AddrFrom16 v) (AddrFrom16 hi) m = Some (gset_to_gmap false (range_keys v hi) ∪ m).
Proof.
  induction fuel as [|fuel IH]; intros v hi m Hv Hvh Hh Hf; [lia|]. cbn [fill].
  rewrite Compare_Prev_16 by lia. destruct (Z.leb_spec v hi).
  - rewrite Next_16 by lia. rewrite IH by lia. f_equal.
    rewrite (range_keys_step v hi) by done. rewrite gset_to_gmap_union_singleton.
    change (Addr_String (Unmap (AddrFrom16 v))) with (ip_name v).
    apply map_eq. intros k. rewrite !lookup_union, !lookup_gset_to_gmap.
    destruct (decide (k = ip_name v)) as [->|Hne].
    + rewrite !lookup_insert_eq. by destruct (guard _), (m !! ip_name v).
    + rewrite !lookup_insert_ne by done. by rewrite lookup_gset_to_gmap.
  - f_equal. replace (range_keys v hi) with (∅ : gset string).
    { by rewrite gset_to_gmap_empty, (left_id_L ∅ (∪)). }
    apply set_eq. intros k. rewrite elem_of_range_keys. split; [set_solver|].
    intros (w & ? & _). lia.
Qed.

(** Past the last address of the address space the cursor is the zero [Addr],
    which stays below every address. *)
Lemma fill_diverges_zero fuel : ∀ a e m, z a = z0 → z e = z6 "" → fill fuel a e m = None.
Proof.
  induction fuel as [|fuel IH]; intros a e m Ha He; [done|]. cbn [fill].
  assert (z (Prev a) = z0) as Hp.
  { unfold Prev, Is4. rewrite Ha. by case_match. }
  assert (z (Next a) = z0) as Hn.
  { unfold Next, Is4. rewrite Ha. by case_match. }
  unfold Compare at 1, BitLen. rewrite Hp, He. simpl. by apply IH.
Qed.

Lemma fill_diverges fuel : ∀ v m,
  0 <= v < max128 → fill fuel (AddrFrom16 v) (AddrFrom16 (max128 - 1)) m = None.
Proof.
  induction fuel as [|fuel IH]; intros v m Hv; [done|]. cbn [fill].
  rewrite Compare_Prev_16 by (unfold max128; lia).
  rewrite (proj2 (Z.leb_le v (max128 - 1))) by lia.
  destruct (decide (v + 1 < max128)); [rewrite Next_16 by lia; apply IH; lia|].
  assert (v = max128 - 1) as -> by lia. apply fill_diverges_zero; done.
Qed.

(** ** Building a subnet *)

Lemma v4_value a : Is4 a = true → v4prefix <= addr a < v4prefix + 2 ^ 32 →
  addr a = v4prefix + low32 a ∧ 0 <= low32 a < 2 ^ 32.
Proof. unfold low32, v4prefix. intros. zlia. Qed.

Lemma is_v4_val_range v : v4prefix <= v < v4prefix + 2 ^ 32 → is_v4_val v = true.
Proof. unfold is_v4_val, v4prefix. intros. apply Z.eqb_eq. zlia. Qed.

Lemma low32_v4 v : v4prefix <= v < v4prefix + 2 ^ 32 → low32 (mkAddr v z4) = v - v4prefix.
Proof. unfold low32, v4prefix. simpl. intros. zlia. Qed.

(** The block of a prefix: [q] is its network number and [n] the host bits. *)
Definition block (p : Prefix) (v : Z) : Z :=
  if Is4 (prefix_ip p) then (v - v4prefix) / 2 ^ (32 - prefix_bits p)
  else v / 2 ^ (128 - prefix_bits p).

Lemma Contains_inv s p t a :
  ParsePrefix s = Some p → ParseAddr t = Some a → Prefix_Contains p a = true →
  ParseIP t = Some (addr a) ∧ 0 <= addr a < max128 ∧ Is4 a = Is4 (prefix_ip p) ∧
  (Is4 (prefix_ip p) = true → v4prefix <= addr a < v4prefix + 2 ^ 32) ∧
  block p (addr a) = block p (addr (prefix_ip p)).
Proof.
  intros Hp Ha Hc. apply ParsePrefix_bits in Hp as (Hpz & Hpr & Hb & Hp4).
  pose proof Ha as Ha'. apply ParseAddr_range in Ha' as (Har & Ha4 & Haz).
  unfold Prefix_Contains in Hc. destruct (hasZone a) eqn:Hz; [done|].
  destruct (_ || _) eqn:Hbl; [done|]. bool_hyps. unfold BitLen in *.
  unfold ParseIP. rewrite Ha, Hz. unfold block, Is4, Is6 in *.
  destruct (z a) eqn:Eza, (z (prefix_ip p)) eqn:Ezp; simplify_eq/=; try done.
  - specialize (Ha4 eq_refl). specialize (Hp4 eq_refl).
    destruct (v4_value a); [unfold Is4; by rewrite Eza | done|].
    destruct (v4_value (prefix_ip p)); [unfold Is4; by rewrite Ezp | done|].
    rewrite shiftr_lxor_0 in Hc by lia. apply Z.eqb_eq in Hc.
    split_and!; try done; try lia.
    by replace (addr a - v4prefix) with (low32 a) by lia;
      replace (addr (prefix_ip p) - v4prefix) with (low32 (prefix_ip p)) by lia.
  - rewrite shiftr_lxor_0 in Hc by lia. apply Z.eqb_eq in Hc. split_and!; try done; lia.
Qed.

Lemma block_between s p lo v hi :
  ParsePrefix s = Some p → lo <= v <= hi →
  block p lo = block p (addr (prefix_ip p)) → block p hi = block p (addr (prefix_ip p)) →
  block p v = block p (addr (prefix_ip p)).
Proof.
  intros Hp Hv Hlo Hhi. apply ParsePrefix_bits in Hp as (_ & _ & Hb & _).
  rewrite <- Hlo in Hhi |- *. unfold block, Is4, Is6 in *.
  destruct (z (prefix_ip p)); simpl in *;
    (eapply div_between; [apply Z.pow_pos_nonneg; lia | | symmetry; exact Hhi]; lia).
Qed.

Lemma Contains_block s p v :
  ParsePrefix s = Some p → 0 <= v < max128 →
  (Is4 (prefix_ip p) = true → v4prefix <= v < v4prefix + 2 ^ 32) →
  (Is4 (prefix_ip p) = false → is_v4_val v = false) →
  block p v = block p (addr (prefix_ip p)) → Prefix_Contains p (canon v) = true.
Proof.
  intros Hp Hv H4 H6 Hbl. apply ParsePrefix_bits in Hp as (Hpz & Hpr & Hb & Hp4).
  unfold Prefix_Contains. rewrite hasZone_canon. unfold block, Is4, Is6, BitLen in *.
  destruct (z (prefix_ip p)) eqn:Ezp; [done| |].
  - specialize (H4 eq_refl). specialize (Hp4 eq_refl). rewrite canon_v4 by by apply is_v4_val_range.
    simpl. destruct (v4_value (prefix_ip p)); [unfold Is4; by rewrite Ezp | done |].
    rewrite low32_v4, shiftr_lxor_0 by lia. apply Z.eqb_eq. rewrite Hbl. do 2 f_equal. lia.
  - rewrite canon_v6 by auto. simpl. rewrite shiftr_lxor_0 by lia. by apply Z.eqb_eq.
Qed.

(** The shape of a subnet [buildSubnet] returns. *)
Lemma broadcast_above s p b hi :
  ParsePrefix s = Some p → subnet_broadcast p = Some (IP4 b) →
  v4prefix <= hi < v4prefix + 2 ^ 32 → block p hi = block p (addr (prefix_ip p)) →
  hi <= v4prefix + b.
Proof.
  intros Hp Hbc Hhi Hbl. apply ParsePrefix_bits in Hp as (_ & _ & Hb & Hp4).
  unfold subnet_broadcast in Hbc. destruct (Is4 (prefix_ip p)) eqn:E4; simplify_eq.
  unfold block in Hbl. rewrite E4 in Hbl.
  destruct (v4_value (prefix_ip p)); [done | auto |].
  assert (prefix_bits p <= 32).
  { unfold Is4, Is6 in *. destruct (z (prefix_ip p)); simpl in *; (done || lia). }
  enough (hi - v4prefix <= Z.lor (low32 (prefix_ip p)) (2 ^ (32 - prefix_bits p) - 1)) by lia.
  apply lor_ones_max; try lia. by replace (low32 (prefix_ip p)) with (addr (prefix_ip p) - v4prefix) by lia.
Qed.

Section Build.
Context `{MapRange, NetErrText}.

Lemma ValidateRangeSize_size b e ab ae :
  ParseAddr b = Some ab → ParseAddr e = Some ae → ValidateRangeSize b e = Ok tt →
  addr ae - addr ab < MaxSubnetRangeSize.
Proof.
  unfold ValidateRangeSize. intros -> -> Hvr. case_match eqn:Hsz; [done|].
  apply orb_false_iff in Hsz as [_ Hsz]. bool_hyps. lia.
Qed.

Lemma buildSubnet_ok sub b e s :
  buildSubnet sub b e = Some (Ok s) →
  ∃ lo hi, ParseIP b = Some lo ∧ ParseIP e = Some hi ∧ wf_subnet_at lo hi s ∧
    ips s = gset_to_gmap false (range_keys lo hi) ∧ owners s = ∅ ∧
    ParsePrefix sub = Some (cidr s).
Proof.
  unfold buildSubnet. intros Hs.
  destruct (ParsePrefix sub) as [p|] eqn:Hp; [|done].
  destruct (ParseAddr b) as [ab|] eqn:Hb; [|done].
  destruct (Prefix_Contains p ab) eqn:Hcb; [|done].
  destruct (ParseAddr e) as [ae|] eqn:He; [|done].
  destruct (Prefix_Contains p ae) eqn:Hce; [|done]. cbn [negb] in Hs.
  destruct (Contains_inv _ _ _ _ Hp Hb Hcb) as (Hpb & Hrb & H4b & Hvb & Hblb).
  destruct (Contains_inv _ _ _ _ Hp He Hce) as (Hpe & Hre & H4e & Hve & Hble).
  unfold parsed_ip in Hs. rewrite Hpb, Hpe in Hs. cbn [default from_option id AddrFromSlice] in Hs.
  rewrite Compare_16 in Hs. destruct (Z.ltb_spec (addr ae) (addr ab)) as [|Hle]; [done|].
  destruct (match subnet_broadcast p with Some _ => _ | None => _ end) eqn:Hbc; [done|].
  destruct (ValidateRangeSize b e) as [[]|] eqn:Hvr; [|done].
  pose proof (ValidateRangeSize_size _ _ _ _ Hb He Hvr) as Hsize.
  assert (addr ae ≠ max128 - 1) as Hne.
  { intros Hmax. rewrite Hmax, fill_diverges in Hs by lia. done. }
  rewrite fill_spec in Hs by (unfold loop_fuel, MaxSubnetRangeSize in *; lia). simplify_option_eq.
  rewrite (right_id_L ∅ (∪)). exists (addr ab), (addr ae). split_and!; try done.
  assert (∀ v, addr ab <= v <= addr ae → equals_broadcast (mkSubnet p (IP16 (addr ab))
    (IP16 (addr ae)) (subnet_broadcast p) (gset_to_gmap false (range_keys (addr ab) (addr ae))) ∅)
    (canon v) = false) as Hbcast.
  { intros v Hv. unfold equals_broadcast. cbn [broadcast].
    destruct (subnet_broadcast p) as [bc|] eqn:Ebc; [|done].
    pose proof Ebc as Ebc'. unfold subnet_broadcast in Ebc'.
    destruct (Is4 (prefix_ip p)) eqn:E4; simplify_eq.
    specialize (Hvb eq_refl). specialize (Hve eq_refl).
    rewrite canon_v4 by (apply is_v4_val_range; lia). unfold Unmap, Is4In6. simpl.
    unfold AsSlice. simpl. rewrite low32_v4 by lia.
    pose proof (broadcast_above _ _ _ _ Hp Ebc Hve Hble).
    unfold IP_Equal in *. cbn [to16] in *. apply Z.eqb_neq in Hbc. apply Z.eqb_neq. lia. }
  constructor; cbn [ips start end_ owners cidr]; try done.
  - unfold max128 in *. lia.
  - apply dom_gset_to_gmap.
  - intros v Hv. destruct (Is4 (prefix_ip p)) eqn:E4; [left|
      destruct (is_v4_val v) eqn:Ev; [by right | left]].
    all: unfold nameable; rewrite ParseAddr_ip_name by lia; rewrite Hbcast by done; cbn [cidr].
    all: rewrite (Contains_block sub); try done; try (rewrite E4; try done).
    all: try (eapply block_between; done).
    all: try lia.
Qed.

(** [buildSubnet] returns unless the range ends at the last IPv6 address. *)
Lemma buildSubnet_returns sub b e :
  ParseIP e ≠ Some (max128 - 1) → is_Some (buildSubnet sub b e).
Proof.
  intros Hmax. unfold buildSubnet.
  destruct (ParsePrefix sub) as [p|] eqn:Hp; [|by eexists].
  destruct (ParseAddr b) as [ab|] eqn:Hb; [|by eexists].
  destruct (Prefix_Contains p ab) eqn:Hcb; [|by eexists].
  destruct (ParseAddr e) as [ae|] eqn:He; [|by eexists].
  destruct (Prefix_Contains p ae) eqn:Hce; [|by eexists]. cbn [negb].
  destruct (Contains_inv _ _ _ _ Hp Hb Hcb) as (Hpb & Hrb & _).
  destruct (Contains_inv _ _ _ _ Hp He Hce) as (Hpe & Hre & _).
  unfold parsed_ip. rewrite Hpb, Hpe. cbn [default from_option id AddrFromSlice]. rewrite Compare_16.
  destruct (Z.ltb_spec (addr ae) (addr ab)) as [|Hle]; [by eexists|].
  destruct (match subnet_broadcast p with Some _ => _ | None => _ end) eqn:Hbc; [by eexists|].
  destruct (ValidateRangeSize b e) as [[]|] eqn:Hvr; [|by eexists].
  pose proof (ValidateRangeSize_size _ _ _ _ Hb He Hvr) as Hsize.
  assert (addr ae ≠ max128 - 1) by congruence.
  rewrite fill_spec by (unfold loop_fuel, MaxSubnetRangeSize in *; lia). by eexists.
Qed.

End Build.

(** ** Claims of one subnet *)

Lemma lookup_claims s k :
  claims s !! k = if ip_used s k then Some (ip_owner s k) else None.
Proof.
  unfold claims, ip_used, map_get. rewrite map_lookup_imap. by destruct (ips s !! k) as [[]|].
Qed.

Lemma ip_used_true s k : ip_used s k = true ↔ ips s !! k = Some true.
Proof.
  unfold ip_used, map_get. destruct (ips s !! k) as [[]|]; simpl; split; congruence.
Qed.

Lemma claims_Some s k o :
  claims s !! k = Some o ↔ ips s !! k = Some true ∧ ip_owner s k = o.
Proof.
  rewrite lookup_claims, <- ip_used_true. destruct (ip_used s k); split; naive_solver.
Qed.

Lemma claims_None s k : claims s !! k = None ↔ ip_used s k = false.
Proof. rewrite lookup_claims. destruct (ip_used s k); naive_solver. Qed.

Lemma claims_owned s k o :
  o ≠ "" → claims s !! k = Some o ↔ ip_used s k = true ∧ owners s !! k = Some o.
Proof.
  intros Ho. rewrite claims_Some, ip_used_true. unfold ip_owner, map_get.
  destruct (owners s !! k); simpl; naive_solver.
Qed.

Lemma claims_claim s k o : claims (claim s k o) = <[k := o]> (claims s).
Proof.
  apply map_eq. intros k'. destruct (decide (k' = k)) as [->|Hne].
  - rewrite lookup_insert_eq. apply claims_Some. unfold ip_owner, map_get. simpl.
    by rewrite !lookup_insert_eq.
  - rewrite lookup_insert_ne by done. rewrite !lookup_claims. unfold ip_used, ip_owner, map_get. simpl.
    by rewrite !lookup_insert_ne.
Qed.

Lemma claims_release s k : claims (release s k) = delete k (claims s).
Proof.
  apply map_eq. intros k'. destruct (decide (k' = k)) as [->|Hne].
  - rewrite lookup_delete_eq. apply claims_None. unfold ip_used, map_get. simpl.
    by rewrite lookup_insert_eq.
  - rewrite lookup_delete_ne by done. rewrite !lookup_claims. unfold ip_used, ip_owner, map_get. simpl.
    by rewrite lookup_insert_ne, lookup_delete_ne.
Qed.

(** Two states of a subnet that differ in the claims only. *)
Record same_net (s s' : IPSubnet) : Prop := mkSame {
  same_cidr : cidr s' = cidr s;
  same_start : start s' = start s;
  same_end : end_ s' = end_ s;
  same_broadcast : broadcast s' = broadcast s;
  same_dom : dom (ips s') = dom (ips s)
}.

#[export] Instance same_net_preorder : PreOrder same_net.
Proof.
  split; [by constructor|]. intros s1 s2 s3 [] []. constructor; congruence.
Qed.

Lemma same_bcast s s' ip : same_net s s' → equals_broadcast s' ip = equals_broadcast s ip.
Proof. intros [_ _ _ Hb _]. unfold equals_broadcast. by rewrite Hb. Qed.

Lemma same_nameable s s' k : same_net s s' → nameable s' k = nameable s k.
Proof.
  intros Hs. unfold nameable. destruct (ParseAddr k); [|done].
  by rewrite (same_bcast _ _ _ Hs), (same_cidr _ _ Hs).
Qed.

Lemma wf_same lo hi s s' :
  wf_subnet_at lo hi s → same_net s s' →
  (∀ k o, owners s' !! k = Some o → ips s' !! k = Some true) → wf_subnet_at lo hi s'.
Proof.
  intros [] Hs Ho. destruct Hs as [Hc Hst He Hb Hd] eqn:Hs'. constructor; try congruence.
  - intros v Hv. rewrite (same_nameable _ _ _ Hs), Hc. auto.
  - intros v Hv. rewrite (same_bcast _ _ _ Hs). auto.
  - exact Ho.
Qed.

Lemma same_insert_ips s k b : is_Some (ips s !! k) → same_net s (set_ips s (<[k := b]> (ips s))).
Proof.
  intros Hk. constructor; try done. simpl. rewrite dom_insert_L.
  apply elem_of_dom in Hk. set_solver.
Qed.

Lemma same_claim s k o : is_Some (ips s !! k) → same_net s (claim s k o).
Proof. intros [_ _ _ _ Hd]%(same_insert_ips s k true). by constructor. Qed.

Lemma same_release s k : is_Some (ips s !! k) → same_net s (release s k).
Proof. intros [_ _ _ _ Hd]%(same_insert_ips s k false). by constructor. Qed.

Lemma wf_claim lo hi s k o :
  wf_subnet_at lo hi s → is_Some (ips s !! k) → wf_subnet_at lo hi (claim s k o).
Proof.
  intros Hw Hk. eapply wf_same; [done | by apply same_claim|]. intros k' o'. simpl.
  destruct (decide (k' = k)) as [->|]; [by rewrite !lookup_insert_eq|].
  rewrite !lookup_insert_ne by done. apply Hw.
Qed.

Lemma wf_release lo hi s k :
  wf_subnet_at lo hi s → is_Some (ips s !! k) → wf_subnet_at lo hi (release s k).
Proof.
  intros Hw Hk. eapply wf_same; [done | by apply same_release|]. intros k' o'. simpl.
  destruct (decide (k' = k)) as [->|]; [by rewrite lookup_delete_eq|].
  rewrite lookup_insert_ne, lookup_delete_ne by done. apply Hw.
Qed.

Lemma same_pool s s' : same_net s s' → pool_of s' = with_taken (pool_of s) (claims s').
Proof.
  intros Hs. unfold pool_of, with_taken. simpl. rewrite (same_dom _ _ Hs). f_equal.
  apply set_eq. intros k. rewrite !elem_of_filter. by rewrite (same_nameable _ _ _ Hs).
Qed.

(** ** The lowest free address *)

Lemma head_filter_sorted {A} (f : A → string) (P : string → Prop) `{∀ x, Decision (P x)}
    (R : relation A) (l : list A) x :
  StronglySorted R l → head (filter P (f <$> l)) = Some x →
  ∃ a, a ∈ l ∧ x = f a ∧ P x ∧ ∀ b, b ∈ l → P (f b) → b = a ∨ R a b.
Proof.
  intros Hs. induction Hs as [|a l Hs IH Ha]; simpl; [done|]. rewrite filter_cons. case_decide as Hp.
  - intros ?. simplify_eq/=. exists a. split_and!; [by left | done | done|].
    intros b Hb _. apply elem_of_cons in Hb as [->|Hb]; [by left|]. right.
    rewrite Forall_forall in Ha. by apply Ha.
  - intros (a' & ? & ? & ? & Hmin)%IH. exists a'. split_and!; try done; [by right|].
    intros b Hb Hpb. apply elem_of_cons in Hb as [->|Hb]; [done | by apply Hmin].
Qed.

Section NextFree.
Context `{MapRange, NetErrText}.

#[local] Instance addr_le_total : stdpp.base.Total addr_le.
Proof. intros a b. apply Compare_le_total. Qed.
#[local] Instance addr_le_trans : Transitive addr_le.
Proof. intros a b c. apply Compare_le_trans. Qed.

Lemma elem_of_sorted_keys lo hi s a :
  wf_subnet_at lo hi s → a ∈ sorted_keys s ↔ ∃ v, lo <= v <= hi ∧ a = canon v.
Proof.
  intros Hw. unfold sorted_keys. rewrite (merge_sort_Permutation addr_le).
  rewrite list_elem_of_omap. split.
  - intros (k & ((k' & b) & -> & Hk)%list_elem_of_fmap & Hp).
    apply elem_of_range, elem_of_dom_2 in Hk. rewrite (wf_keys _ _ _ Hw) in Hk.
    apply elem_of_range_keys in Hk as (v & Hv & Hk). simpl in *. subst k'.
    rewrite ParseAddr_ip_name in Hp; [simplify_eq; eauto|].
    pose proof (wf_bounds _ _ _ Hw). lia.
  - intros (v & Hv & ->). exists (ip_name v).
    assert (ip_name v ∈ dom (ips s)) as Hd.
    { rewrite (wf_keys _ _ _ Hw). apply elem_of_range_keys. eauto. }
    apply elem_of_dom in Hd as [b Hb]. split.
    + apply list_elem_of_fmap. exists (ip_name v, b). split; [done | by apply elem_of_range].
    + apply ParseAddr_ip_name. pose proof (wf_bounds _ _ _ Hw). lia.
Qed.

Lemma next_free_Some lo hi s k :
  wf_subnet_at lo hi s → next_free s = Some k → lowest_free (pool_of s) k.
Proof.
  intros Hw Hn. pose proof (wf_bounds _ _ _ Hw) as Hb.
  assert (StronglySorted addr_le (sorted_keys s)) as Hs.
  { apply StronglySorted_merge_sort; apply _. }
  apply (head_filter_sorted _ _ _ _ _ Hs) in Hn as (a & Ha & -> & Hu & Hmin).
  apply (elem_of_sorted_keys _ _ _ _ Hw) in Ha as (v & Hv & ->).
  unfold lowest_free, pool_of. cbn [p_keys p_taken]. split_and!.
  - rewrite (wf_keys _ _ _ Hw). apply elem_of_range_keys. eauto.
  - by apply claims_None.
  - intros k'. rewrite (wf_keys _ _ _ Hw), elem_of_range_keys. intros (w & Hw' & ->) Hf%claims_None.
    exists (canon v), (canon w). rewrite !(ParseAddr_ip_name _) by lia.
    change (Addr_String (canon v)) with (ip_name v).
    rewrite !(ParseAddr_ip_name _) by lia. split_and!; try done.
    destruct (Hmin (canon w)) as [->|Hle]; try done.
    + apply (elem_of_sorted_keys _ _ _ _ Hw). eauto.
    + destruct (Compare_le_total (canon v) (canon v)); done.
Qed.

Lemma next_free_None lo hi s :
  wf_subnet_at lo hi s → next_free s = None → dom (claims s) = dom (ips s).
Proof.
  intros Hw Hn. apply set_eq. intros k. split.
  - intros [o Ho]%elem_of_dom. apply claims_Some in Ho as [Ho _]. by eapply elem_of_dom_2.
  - rewrite (wf_keys _ _ _ Hw), elem_of_range_keys. intros (v & Hv & ->).
    apply elem_of_dom. rewrite lookup_claims. destruct (ip_used s (ip_name v)) eqn:Hu; [by eexists|].
    exfalso. unfold next_free in Hn.
    assert (ip_name v ∈ filter (λ k, ip_used s k = false) (Addr_String <$> sorted_keys s)) as Hin.
    { apply list_elem_of_filter. split; [done|]. apply list_elem_of_fmap. exists (canon v).
      split; [done|]. apply (elem_of_sorted_keys _ _ _ _ Hw). eauto. }
    destruct (filter _ _); [by apply not_elem_of_nil in Hin | done].
Qed.

End NextFree.

(** ** Marking and refreshing *)

Lemma markIPUsed_eq `{NetErrText} s k s' :
  markIPUsed s k = Ok s' ↔
  nameable s k = true ∧ is_Some (ips s !! k) ∧ s' = set_ips s (<[k := true]> (ips s)).
Proof.
  unfold markIPUsed, nameable. destruct (ParseAddr k) as [ip|]; [|naive_solver].
  destruct (Prefix_Contains (cidr s) ip); [|naive_solver]. simpl.
  destruct (equals_broadcast s ip); [naive_solver|]. simpl.
  destruct (ips s !! k) eqn:Hk; simpl; [|naive_solver].
  split; [intros ?; simplify_eq; eauto | by intros (_ & _ & ->)].
Qed.

(** [k] is among the addresses of [l] and can be marked. *)
Definition markable (s : IPSubnet) (k : string) : Prop :=
  nameable s k = true ∧ k ∈ dom (ips s).

Lemma same_markable s s' k : same_net s s' → markable s' k ↔ markable s k.
Proof. intros Hs. unfold markable. by rewrite (same_nameable _ _ _ Hs), (same_dom _ _ Hs). Qed.

(** Marking leaves everything but the marked addresses alone. *)
Record marks (s s' : IPSubnet) (l : list string) : Prop := mkMarks {
  marks_same : same_net s s';
  marks_owners : owners s' = owners s;
  marks_ips : ∀ k, ips s' !! k = Some true ↔ ips s !! k = Some true ∨ k ∈ l ∧ markable s k
}.

Lemma marks_nil s : marks s s [].
Proof. constructor; [done | done | set_solver]. Qed.

Lemma marks_one s k :
  markable s k → marks s (set_ips s (<[k := true]> (ips s))) [k].
Proof.
  intros [Hn Hd]. pose proof (proj1 (elem_of_dom _ _) Hd) as Hk.
  constructor; [by apply same_insert_ips | done|]. intros k'. simpl.
  rewrite list_elem_of_singleton. destruct (decide (k' = k)) as [->|].
  - rewrite lookup_insert_eq. split; [intros _; by right | done].
  - rewrite lookup_insert_ne by done. naive_solver.
Qed.

Lemma marks_trans s s' s'' l l' : marks s s' l → marks s' s'' l' → marks s s'' (l ++ l').
Proof.
  intros [H1 H2 H3] [H1' H2' H3']. constructor; [by etrans | congruence|].
  intros k. rewrite H3', H3, elem_of_app. rewrite (same_markable _ _ _ H1). tauto.
Qed.

Lemma marks_skip s k : ¬ markable s k → marks s s [k].
Proof.
  intros Hn. constructor; [done | done|]. intros k'. rewrite list_elem_of_singleton.
  split; [by left|]. intros [?|[-> ?]]; done.
Qed.

Section Refresh.
Context `{MapRange, NetErrText}.

Lemma mark_excludes_Ok ex : ∀ s s',
  mark_excludes s ex = Ok s' → marks s s' ex ∧ ∀ k, k ∈ ex → markable s k.
Proof.
  induction ex as [|k ex IH]; intros s s' Hm; simpl in Hm.
  - simplify_eq. split; [apply marks_nil | set_solver].
  - destruct (markIPUsed s k) as [s1|] eqn:Hk; [|done].
    apply markIPUsed_eq in Hk as (Hn & Hd & ->). apply elem_of_dom in Hd.
    assert (markable s k) as Hmk by done. pose proof (marks_one s k Hmk) as H1.
    apply IH in Hm as [H2 H3]. split; [by apply (marks_trans _ _ _ [k] ex H1 H2)|].
    intros k' [->|Hk']%elem_of_cons; [done|].
    apply H3 in Hk'. by rewrite (same_markable _ _ _ (marks_same _ _ _ H1)) in Hk'.
Qed.

Lemma mark_allocation_marks s k : marks s (mark_allocation s k) [k].
Proof.
  unfold mark_allocation. destruct (markIPUsed s k) as [s'|] eqn:Hk.
  - apply markIPUsed_eq in Hk as (Hn & Hd & ->). apply elem_of_dom in Hd. by apply marks_one.
  - apply marks_skip. intros [Hn Hd]. apply elem_of_dom in Hd.
    assert (markIPUsed s k = Ok (set_ips s (<[k := true]> (ips s)))) as Hok by by apply markIPUsed_eq.
    congruence.
Qed.

Lemma mark_allocations_marks al : ∀ s, marks s (foldl mark_allocation s al) al.
Proof.
  induction al as [|k al IH]; intros s; simpl; [apply marks_nil|].
  apply (marks_trans _ _ _ [k] al (mark_allocation_marks s k) (IH _)).
Qed.

(** An owned claim of [old] that the new subnet can name. *)
Definition survives (old s : IPSubnet) (k o : string) : Prop :=
  o ≠ "" ∧ ip_used old k = true ∧ markable s k.

Lemma carry_claims_spec old s l :
  owners s = ∅ → NoDup l.*1 →
  let s' := foldl (carry_claim old) s l in
  same_net s s' ∧
  (∀ k, ips s' !! k = Some true ↔
        ips s !! k = Some true ∨ ∃ o, (k, o) ∈ l ∧ survives old s k o) ∧
  (∀ k o, owners s' !! k = Some o ↔ (k, o) ∈ l ∧ survives old s k o).
Proof.
  intros He. induction l as [|[k0 o0] l IH] using rev_ind; intros Hnd; simpl.
  - rewrite He. split_and!; [done | set_solver | set_solver].
  - rewrite foldl_snoc. rewrite fmap_app in Hnd. apply NoDup_app in Hnd as (Hnd & Hni & _).
    simpl in Hni. destruct (IH Hnd) as (H1 & H2 & H3). set (s1 := foldl _ s l) in *. clearbody s1.
    assert (∀ o, (k0, o) ∉ l) as Hni'.
    { intros o Ho. apply (Hni k0); [|set_solver]. apply list_elem_of_fmap. by exists (k0, o). }
    unfold carry_claim. destruct (_ || _) eqn:Hg.
    + assert (¬ survives old s k0 o0) as Hns.
      { intros (Ho & Hu & _). rewrite Hu in Hg. case_bool_decide; done. }
      split_and!; [done | |].
      * intros k. rewrite H2. setoid_rewrite elem_of_app. setoid_rewrite list_elem_of_singleton.
        naive_solver.
      * intros k o. rewrite H3, elem_of_app, list_elem_of_singleton. naive_solver.
    + bool_hyps. destruct (markIPUsed s1 k0) as [s2|e] eqn:Hm.
      * apply markIPUsed_eq in Hm as (Hn & Hd & ->).
        assert (markable s k0) as Hmk.
        { rewrite <- (same_markable _ _ _ H1). split; [done | by apply elem_of_dom]. }
        assert (survives old s k0 o0) as Hsv by done. split_and!.
        -- etrans; [exact H1|]. destruct (same_insert_ips _ _ true Hd). by constructor.
        -- intros k. simpl. setoid_rewrite elem_of_app. setoid_rewrite list_elem_of_singleton.
           destruct (decide (k = k0)) as [->|].
           ++ rewrite lookup_insert_eq. naive_solver.
           ++ rewrite lookup_insert_ne by done. rewrite H2. naive_solver.
        -- intros k o. simpl. rewrite elem_of_app, list_elem_of_singleton.
           destruct (decide (k = k0)) as [->|].
           ++ rewrite lookup_insert_eq. naive_solver.
           ++ rewrite lookup_insert_ne by done. rewrite H3. naive_solver.
      * assert (¬ survives old s k0 o0) as Hns.
        { intros (_ & _ & Hmk). rewrite <- (same_markable _ _ _ H1) in Hmk. destruct Hmk as [Hn Hd].
          apply elem_of_dom in Hd.
          assert (markIPUsed s1 k0 = Ok (set_ips s1 (<[k0 := true]> (ips s1)))) as Hok
            by by apply markIPUsed_eq. congruence. }
        split_and!; [done | |].
        -- intros k. rewrite H2. setoid_rewrite elem_of_app. setoid_rewrite list_elem_of_singleton.
           naive_solver.
        -- intros k o. rewrite H3, elem_of_app, list_elem_of_singleton. naive_solver.
Qed.

End Refresh.

(** ** The operations refine the specification *)

Lemma pools_lookup a n : pools a !! n = pool_of <$> ipam a !! n.
Proof. apply lookup_fmap. Qed.

Lemma pools_set a n s : pools (set_subnet a n s) = <[n := pool_of s]> (pools a).
Proof. apply fmap_insert. Qed.

Lemma wf_set a n s : wf a → wf_subnet s → wf (set_subnet a n s).
Proof. intros. by apply map_Forall_insert_2. Qed.

Lemma elem_of_named s k : k ∈ p_named (pool_of s) ↔ markable s k.
Proof. unfold pool_of, markable. simpl. by rewrite elem_of_filter. Qed.

Section Ops.
Context `{MapRange, NetErrText}.
Implicit Types a : IPAllocator.

Lemma getIP_step a n ip o r a' :
  wf a → getIP a n ip o = (r, a') →
  (is_err r = true ∧ a' = a) ∨
  ∃ s k, ipam a !! n = Some s ∧ r = Ok k ∧ ips s !! k = Some false ∧
    a' = set_subnet a n (claim s k o) ∧
    (ip = "" ∧ lowest_free (pool_of s) k ∨ ip = k ∧ k ∈ p_named (pool_of s)).
Proof.
  intros Hwf. unfold getIP. destruct (ipam a !! n) as [s|] eqn:Hs; [|naive_solver].
  destruct (Hwf n s Hs) as (lo & hi & Hw). case_bool_decide as Hip; simpl.
  - destruct (next_free s) as [k|] eqn:Hn; [|naive_solver].
    apply (next_free_Some _ _ _ _ Hw) in Hn. intros ?. simplify_eq. right. exists s, k.
    pose proof Hn as (Hk & Hf & _). apply claims_None in Hf. simpl in Hk.
    apply elem_of_dom in Hk as [b Hk]. unfold ip_used, map_get in Hf. rewrite Hk in Hf.
    simpl in Hf. subst b. split_and!; auto.
  - destruct (ParseAddr ip) as [g|] eqn:Hg; [|naive_solver].
    destruct (Prefix_Contains (cidr s) g) eqn:Hc; [|naive_solver]. simpl.
    destruct (equals_broadcast s g) eqn:Hb; [naive_solver|].
    destruct (ips s !! ip) as [[]|] eqn:Hi; [naive_solver | | naive_solver].
    intros ?. simplify_eq. right. exists s, ip. split_and!; try done. right.
    split; [done|]. apply elem_of_named. split; [|by eapply elem_of_dom_2].
    unfold nameable. by rewrite Hg, Hc, Hb.
Qed.

Lemma releaseIP_step a n ip r a' :
  releaseIP a n ip = (r, a') →
  (is_err r = true ∧ a' = a) ∨
  ∃ s, ipam a !! n = Some s ∧ r = Ok tt ∧ ips s !! ip = Some true ∧
    a' = set_subnet a n (release s ip).
Proof.
  unfold releaseIP. destruct (ipam a !! n) as [s|] eqn:Hs; [|naive_solver].
  case_bool_decide; [naive_solver|]. destruct (ParseAddr ip); [|naive_solver].
  destruct (Prefix_Contains _ _); [|naive_solver]. simpl.
  destruct (ips s !! ip) as [[]|] eqn:Hi; [|naive_solver|naive_solver].
  intros ?. simplify_eq. right. eauto 6.
Qed.

Lemma sweep_spec lo hi o l : ∀ s f,
  o ≠ "" → wf_subnet_at lo hi s → NoDup l.*1 → (∀ k o', (k, o') ∈ l → owners s !! k = Some o') →
  let '(s', f') := foldl (sweep_claim o) (s, f) l in
  wf_subnet_at lo hi s' ∧ same_net s s' ∧
  (∀ k, claims s' !! k = if bool_decide ((k, o) ∈ l) then None else claims s !! k) ∧
  f' = f + Z.of_nat (size (claims s)) - Z.of_nat (size (claims s')).
Proof.
  induction l as [|[k o'] l IH]; intros s f Ho Hw Hnd Hl; cbn [foldl].
  - split_and!; [done | done | | lia]. intros k. by rewrite bool_decide_false by set_solver.
  - simpl in Hnd. apply NoDup_cons in Hnd as [Hni Hnd].
    assert (∀ o, (k, o) ∉ l) as Hni'.
    { intros o'' Ho''. apply Hni, list_elem_of_fmap. by exists (k, o''). }
    cbn [sweep_claim]. case_bool_decide as Heq; cbn [negb].
    + subst o'. pose proof (Hl k o (list_elem_of_here _ _)) as Hk.
      pose proof (wf_owners _ _ _ Hw _ _ Hk) as Hi. rewrite (proj2 (ip_used_true s k) Hi).
      change (set_owners _ _) with (release s k).
      assert (claims s !! k = Some o) as Hc.
      { apply claims_owned; [done|]. split; [by apply ip_used_true | done]. }
      specialize (IH (release s k) (f + 1) Ho (wf_release _ _ _ _ Hw (ex_intro _ _ Hi)) Hnd).
      destruct (foldl _ (release s k, f + 1) l) as [s' f'].
      destruct IH as (IH1 & IH2 & IH3 & IH4).
      { intros k' o' Hin. simpl. rewrite lookup_delete_ne by (intros ->; by eapply Hni').
        apply Hl. by right. }
      split_and!; [done | | |].
      * etrans; [|done]. apply same_release. by eexists.
      * intros k'. rewrite IH3, claims_release. destruct (decide (k' = k)) as [->|].
        -- rewrite lookup_delete_eq. rewrite (bool_decide_true (_ ∈ _ :: _)) by by left.
           by case_bool_decide.
        -- rewrite lookup_delete_ne by done.
           rewrite (bool_decide_ext ((k', o) ∈ (k, o) :: l) ((k', o) ∈ l)); [done|].
           rewrite elem_of_cons. naive_solver.
      * rewrite IH4, claims_release, (map_size_delete_Some _ _ (ex_intro _ _ Hc)).
        assert (size (claims s) ≠ 0%nat) by (apply map_size_ne_0_lookup; eauto). lia.
    + specialize (IH s f Ho Hw Hnd). destruct (foldl _ (s, f) l) as [s' f'].
      destruct IH as (IH1 & IH2 & IH3 & IH4); [intros; apply Hl; by right|].
      split_and!; try done. intros k'. rewrite IH3.
      rewrite (bool_decide_ext ((k', o) ∈ (k, o') :: l) ((k', o) ∈ l)); [done|].
      rewrite elem_of_cons. naive_solver.
Qed.

Lemma ReleaseAllByOwner_step a n o s :
  wf a → o ≠ "" → ipam a !! n = Some s →
  ∃ s', ReleaseAllByOwner a n o =
      (Z.of_nat (size (filter (λ kv : string * string, kv.2 = o) (claims s))), set_subnet a n s') ∧
    wf_subnet s' ∧ same_net s s' ∧
    claims s' = filter (λ kv : string * string, kv.2 ≠ o) (claims s).
Proof.
  intros Hwf Ho Hs. destruct (Hwf n s Hs) as (lo & hi & Hw).
  unfold ReleaseAllByOwner. rewrite bool_decide_false by done. rewrite Hs.
  pose proof (sweep_spec lo hi o (range (owners s)) s 0 Ho Hw (NoDup_range_fst _)) as Hsw.
  destruct (foldl _ (s, 0) _) as [s' f']. destruct Hsw as (H1 & H2 & H3 & H4).
  { intros k o'. apply elem_of_range. }
  assert (claims s' = filter (λ kv : string * string, kv.2 ≠ o) (claims s)) as Hcl.
  { apply map_eq. intros k. rewrite H3, map_lookup_filter.
    destruct (claims s !! k) as [o'|] eqn:Hk; simpl; [|by case_bool_decide].
    case_bool_decide as Hin.
    - apply elem_of_range in Hin. rewrite option_guard_False; [done|]. simpl.
      destruct (decide (o' = o)) as [->|Hne]; [tauto|].
      apply claims_Some in Hk as [_ Hk]. unfold ip_owner, map_get in Hk. rewrite Hin in Hk. done.
    - rewrite option_guard_True; [done|]. simpl. intros ->. apply Hin, elem_of_range.
      by apply claims_owned in Hk as [_ Hk]. }
  exists s'. split_and!; try done; [|by eexists _, _]. f_equal. rewrite H4, Hcl.
  rewrite <- (map_filter_union_complement (λ kv : string * string, kv.2 = o) (claims s)) at 1.
  rewrite map_size_disj_union by apply map_disjoint_filter_complement. lia.
Qed.

(** The subnet a refresh installs, after its excludes, allocations and carried
    claims are marked. *)
Lemma refresh_claims s0 s1 s3 s ex al old :
  owners s0 = ∅ → (∀ k, ips s0 !! k ≠ Some true) →
  marks s0 s1 ex → marks s1 s3 al →
  s = match old with Some o => foldl (carry_claim o) s3 (range (owners o)) | None => s3 end →
  same_net s0 s ∧ (∀ k o, owners s !! k = Some o → ips s !! k = Some true) ∧
  refreshed (pool_of s) (pool_of <$> old) (ex ++ al) (claims s).
Proof.
  intros Ho Hi H1 H2 ->. pose proof (marks_trans _ _ _ _ _ H1 H2) as [Hs Hos Hm].
  rewrite Ho in Hos.
  assert (∀ k, ips s3 !! k = Some true ↔ k ∈ ex ++ al ∧ markable s0 k) as Hm'.
  { intros k. rewrite Hm. specialize (Hi k). naive_solver. }
  set (s := match old with Some o => _ | None => s3 end).
  assert (same_net s3 s ∧
    (∀ k, ips s !! k = Some true ↔ ips s3 !! k = Some true ∨
       ∃ o, o ≠ "" ∧ (pool_of <$> old) ≫= (λ p, p_taken p !! k) = Some o ∧ markable s3 k) ∧
    (∀ k o, owners s !! k = Some o ↔
       o ≠ "" ∧ (pool_of <$> old) ≫= (λ p, p_taken p !! k) = Some o ∧ markable s3 k))
    as (Hs3 & Hips & Hown).
  { subst s. destruct old as [o|]; simpl.
    - destruct (carry_claims_spec o s3 (range (owners o)) Hos (NoDup_range_fst _)) as (C1 & C2 & C3).
      assert (∀ k x, (k, x) ∈ range (owners o) ∧ survives o s3 k x ↔
                x ≠ "" ∧ claims o !! k = Some x ∧ markable s3 k) as Hsv.
      { intros k x. rewrite elem_of_range. unfold survives. split.
        - intros (? & ? & ? & ?). split_and!; try done. by apply claims_owned.
        - intros (Hx & Hc & ?). apply claims_owned in Hc as [? ?]; done. }
      split_and!; [done | |].
      + intros k. rewrite C2. by setoid_rewrite Hsv.
      + intros k x. by rewrite C3, Hsv.
    - split_and!; [done | naive_solver |]. intros k o. rewrite Hos. set_solver. }
  assert (same_net s0 s) as Hs0 by (by etrans).
  assert (∀ k, markable s k ↔ markable s0 k) as Hmk by (intros; by apply same_markable).
  assert (∀ k, markable s3 k ↔ markable s0 k) as Hmk3 by (intros; by apply same_markable).
  split; [done|]. split.
  { intros k o. rewrite Hown, Hips. eauto. }
  split.
  - intros k o Hne. rewrite claims_owned, ip_used_true, Hips, Hown, elem_of_named, Hmk, Hmk3 by done.
    split; [tauto|]. intros [Hk Hq]. split; [right; exists o | ]; (split_and!; try done; by apply Hmk3).
  - intros k. rewrite elem_of_named, Hmk.
    assert (is_Some (claims s !! k) ↔ ips s !! k = Some true) as ->.
    { rewrite lookup_claims, <- ip_used_true. destruct (ip_used s k); naive_solver. }
    rewrite Hips, Hm'. split.
    + intros [[? ?]|(o & ? & ? & ?%Hmk3)]; [tauto | split; [done | right; eauto]].
    + intros [? [?|(o & ? & ?)]]; [tauto | right; exists o]. split_and!; try done. by apply Hmk3.
Qed.

Lemma RefreshSubnet_step a n sub b e ex al r a' :
  wf a → RefreshSubnet a n sub b e ex al = Some (r, a') →
  (is_err r = true ∧ a' = a) ∨
  ∃ s0 s, buildSubnet sub b e = Some (Ok s0) ∧ r = Ok tt ∧ a' = set_subnet a n s ∧
    same_net s0 s ∧ wf_subnet s ∧ (∀ k, k ∈ ex → markable s0 k) ∧
    refreshed (pool_of s) (pool_of <$> ipam a !! n) (ex ++ al) (claims s).
Proof.
  intros Hwf. unfold RefreshSubnet. destruct (buildSubnet sub b e) as [[s0|]|] eqn:Hb; [|naive_solver|done].
  simpl. destruct (mark_excludes s0 ex) as [s1|] eqn:Hex; [|naive_solver].
  intros ?. simplify_eq. right.
  destruct (buildSubnet_ok _ _ _ _ Hb) as (lo & hi & _ & _ & Hw & Hi & Ho & _).
  destruct (mark_excludes_Ok _ _ _ Hex) as [H1 H1'].
  destruct (refresh_claims _ _ _ _ _ _ (ipam a !! n) Ho ltac:(intros k; rewrite Hi, lookup_gset_to_gmap_Some; naive_solver)
    H1 (mark_allocations_marks al s1) eq_refl) as (HA & HB & HC).
  exists s0. eexists. split_and!; try done. exists lo, hi. by eapply wf_same.
Qed.

Lemma NewSubnet_step a n sub b e r a' :
  NewSubnet a n sub b e = Some (r, a') →
  (is_err r = true ∧ a' = a) ∨
  ∃ s, buildSubnet sub b e = Some (Ok s) ∧ r = Ok tt ∧ a' = set_subnet a n s ∧
    wf_subnet s ∧ claims s = ∅.
Proof.
  unfold NewSubnet. destruct (buildSubnet sub b e) as [[s|]|] eqn:Hb; [|naive_solver|done].
  intros ?. simplify_eq/=. right.
  destruct (buildSubnet_ok _ _ _ _ Hb) as (lo & hi & _ & _ & Hw & Hi & _).
  exists s. split_and!; try done; [by exists lo, hi|].
  apply map_eq. intros k. rewrite lookup_empty. apply claims_None.
  unfold ip_used, map_get. rewrite Hi. by destruct (_ !! k) as [[]|] eqn:E;
    [apply lookup_gset_to_gmap_Some in E as [_ ?] | |].
Qed.
End Ops.
