(* ===== verification/IpamCorrect.v ===== *)
(** The allocator is correct: it refines its specification, every reachable
    allocator is well formed, an owned claim survives everything other
    claimants do, and each operation succeeds exactly when it should.  Each
    theorem with hypotheses is followed by a concrete instance. *)

From S2P Require Import Prelude GoStd NetIP NetIPFacts Ipam IpamSpec.

(** ** Claims over a sequence of calls *)

(** Address [k] of pool [n] is claimed by [o]. *)
Definition holds (a : IPAllocator) (n k o : string) : Prop :=
  pools a !! n ≫= (λ p, p_taken p !! k) = Some o.

(** The claim a reply grants: pool, address and owner. *)
Definition granted (c : op) (r : reply) : option (string * string * string) :=
  match c, r with
  | OpGetIP n _, RAddr (Ok k) => Some (n, k, "")
  | OpGetIPOwned n _ o, RAddr (Ok k) => Some (n, k, o)
  | _, _ => None
  end.

(** No call of the list is a request to give up the claim of [o] on address [k]
    of pool [n]: a release of that address, a sweep of that owner, a deletion or
    a re-creation of the pool, or a refresh to a range without the address. *)
Definition gives_up `{MapRange, NetErrText} (n k o : string) (c : op) : bool :=
  match c with
  | OpGetIP _ _ | OpGetIPOwned _ _ _ => false
  | OpNewSubnet m _ _ _ | OpDeleteSubnet m => bool_decide (m = n)
  | OpRefreshSubnet m sub b e _ _ =>
      bool_decide (m = n) &&
      match buildSubnet sub b e with
      | Some (Ok s) => negb (nameable s k && bool_decide (k ∈ dom (ips s)))
      | _ => false
      end
  | OpReleaseIP m ip => bool_decide (m = n) && bool_decide (ip = k)
  | OpReleaseIPOwned m ip o' =>
      bool_decide (m = n) && bool_decide (ip = k) && bool_decide (o' = o)
  | OpReleaseAllByOwner m o' => bool_decide (m = n) && bool_decide (o' = o)
  end.

Fixpoint run_all `{MapRange, NetErrText} (cs : list op) (a : IPAllocator)
    : option (list reply * IPAllocator) :=
  match cs with
  | [] => Some ([], a)
  | c :: cs =>
      '(r, a1) ← run c a;
      '(rs, a2) ← run_all cs a1;
      Some (r :: rs, a2)
  end.

(** What a call on a well-formed allocator can do, on the concrete state. *)
Inductive outcome `{MapRange, NetErrText} (a : IPAllocator) : op → reply → IPAllocator → Prop :=
| out_fail c r : failed r = true → outcome a c r a
| out_new n sub b e s :
    buildSubnet sub b e = Some (Ok s) → wf_subnet s → claims s = ∅ →
    outcome a (OpNewSubnet n sub b e) (RUnit (Ok tt)) (set_subnet a n s)
| out_refresh n sub b e ex al s0 s :
    buildSubnet sub b e = Some (Ok s0) → same_net s0 s → wf_subnet s →
    (∀ k, k ∈ ex → markable s0 k) →
    refreshed (pool_of s) (pool_of <$> ipam a !! n) (ex ++ al) (claims s) →
    outcome a (OpRefreshSubnet n sub b e ex al) (RUnit (Ok tt)) (set_subnet a n s)
| out_delete n : outcome a (OpDeleteSubnet n) RNone (DeleteSubnet a n)
| out_claim c n ip o s k :
    c = OpGetIP n ip ∧ o = "" ∨ c = OpGetIPOwned n ip o ∧ o ≠ "" →
    ipam a !! n = Some s → ips s !! k = Some false →
    (ip = "" ∧ lowest_free (pool_of s) k ∨ ip = k ∧ k ∈ p_named (pool_of s)) →
    outcome a c (RAddr (Ok k)) (set_subnet a n (claim s k o))
| out_reclaim n k o s :
    o ≠ "" → ipam a !! n = Some s → claims s !! k = Some o →
    outcome a (OpGetIPOwned n k o) (RAddr (Ok k)) a
| out_release c n s k o :
    c = OpReleaseIP n k ∨ c = OpReleaseIPOwned n k o ∧ o ≠ "" →
    ipam a !! n = Some s → claims s !! k = Some o →
    outcome a c (RUnit (Ok tt)) (set_subnet a n (release s k))
| out_sweep n o s s' :
    o ≠ "" → ipam a !! n = Some s → wf_subnet s' → same_net s s' →
    claims s' = filter (λ kv : string * string, kv.2 ≠ o) (claims s) →
    outcome a (OpReleaseAllByOwner n o)
      (RCount (Z.of_nat (size (filter (λ kv : string * string, kv.2 = o) (claims s)))))
      (set_subnet a n s')
| out_sweep_none n o :
    ipam a !! n = None ∨ o = "" → outcome a (OpReleaseAllByOwner n o) (RCount 0) a.

(** A demonstration pool of four addresses. *)
Definition demo : list op :=
  [OpRefreshSubnet "pool" "10.0.0.0/29" "10.0.0.2" "10.0.0.5" ["10.0.0.3"] []].
Definition demo_alloc : IPAllocator :=
  @from_option (list reply * IPAllocator) _ snd New (@run_all sorted_range no_err_text demo New).

Section Correct.
Context `{MapRange, NetErrText}.

Lemma holds_lookup a n k o :
  holds a n k o ↔ ∃ s, ipam a !! n = Some s ∧ claims s !! k = Some o.
Proof.
  unfold holds. rewrite pools_lookup. destruct (ipam a !! n) as [s|]; simpl; [|naive_solver].
  split; [by exists s | intros (? & ? & ?); by simplify_eq].
Qed.

Lemma GetIP_outcome c n ip o a r a' :
  wf a → c = OpGetIP n ip ∧ o = "" ∨ c = OpGetIPOwned n ip o ∧ o ≠ "" →
  getIP a n ip o = (r, a') → outcome a c (RAddr r) a'.
Proof.
  intros Hwf Hc Hg. apply getIP_step in Hg as [[? ->]|(s & k & ? & -> & ? & -> & ?)]; [|by econstructor|done].
  by apply out_fail.
Qed.

Lemma releaseIP_outcome c n ip o a r a' s :
  c = OpReleaseIP n ip ∨ c = OpReleaseIPOwned n ip o ∧ o ≠ "" →
  ipam a !! n = Some s → (ips s !! ip = Some true → claims s !! ip = Some o) →
  releaseIP a n ip = (r, a') → outcome a c (RUnit r) a'.
Proof.
  intros Hc Hs Ho Hr. apply releaseIP_step in Hr as [[? ->]|(s' & ? & -> & Hk & ->)].
  - by apply out_fail.
  - simplify_eq. by eapply out_release; eauto.
Qed.

Lemma run_outcome c a r a' : wf a → run c a = Some (r, a') → outcome a c r a'.
Proof.
  intros Hwf. destruct c; simpl.
  - destruct (NewSubnet _ _ _ _ _) as [[r1 a1]|] eqn:Hc; [|done]. intros ?; simplify_eq/=.
    apply NewSubnet_step in Hc as [[? ->]|(s & ? & -> & -> & ? & ?)]; [by apply out_fail | by constructor].
  - destruct (RefreshSubnet _ _ _ _ _ _ _) as [[r1 a1]|] eqn:Hc; [|done]. intros ?; simplify_eq/=.
    apply RefreshSubnet_step in Hc as [[? ->]|(s0 & s & ? & -> & -> & ? & ? & ? & ?)];
      [by apply out_fail | by econstructor | done].
  - intros ?. simplify_eq. constructor.
  - destruct (GetIP _ _ _) as [r1 a1] eqn:Hc. intros ?; simplify_eq.
    eapply GetIP_outcome; eauto.
  - destruct (GetIPOwned _ _ _ _) as [r1 a1] eqn:Hc. intros ?; simplify_eq. unfold GetIPOwned in Hc.
    case_bool_decide; simplify_eq; [by apply out_fail|].
    destruct (reclaims _ _ _ _) eqn:Hrc; simplify_eq; [|by eapply GetIP_outcome; eauto].
    unfold reclaims in Hrc. bool_hyps. destruct (ipam _ !! name) as [s|] eqn:Hs; [|done]. bool_hyps.
    eapply out_reclaim; [done | done |]. apply claims_Some. by rewrite <- ip_used_true.
  - destruct (ReleaseIP _ _ _) as [r1 a1] eqn:Hc. intros ?; simplify_eq.
    destruct (ipam a !! name) as [s|] eqn:Hs.
    + eapply (releaseIP_outcome _ _ _ (ip_owner s givenIP)); eauto. intros. by apply claims_Some.
    + unfold ReleaseIP, releaseIP in Hc. rewrite Hs in Hc. simplify_eq. by apply out_fail.
  - destruct (ReleaseIPOwned _ _ _ _) as [r1 a1] eqn:Hc. intros ?; simplify_eq.
    unfold ReleaseIPOwned in Hc. case_bool_decide; simplify_eq; [by apply out_fail|].
    destruct (ipam a !! name) as [s|] eqn:Hs; simplify_eq; [|by apply out_fail].
    destruct (_ && _) eqn:Hg; simplify_eq; [by apply out_fail|].
    eapply releaseIP_outcome; eauto. intros Hk. apply claims_Some. split; [done|].
    apply ip_used_true in Hk. rewrite Hk in Hg. simpl in Hg. by bool_hyps.
  - destruct (ReleaseAllByOwner _ _ _) as [r1 a1] eqn:Hc. intros ?; simplify_eq.
    destruct (decide (owner = "")) as [->|Ho].
    { unfold ReleaseAllByOwner in Hc. simplify_eq/=. apply out_sweep_none. by right. }
    destruct (ipam a !! name) as [s|] eqn:Hs.
    + destruct (ReleaseAllByOwner_step _ _ _ _ Hwf Ho Hs) as (s' & Heq & ? & ? & ?).
      rewrite Heq in Hc. simplify_eq. by eapply out_sweep.
    + unfold ReleaseAllByOwner in Hc. rewrite bool_decide_false in Hc by done.
      rewrite Hs in Hc. simplify_eq. apply out_sweep_none. by left.
Qed.

Lemma outcome_wf a c r a' : wf a → outcome a c r a' → wf a'.
Proof.
  intros Hwf Ho.
  assert (∀ n s, ipam a !! n = Some s → wf_subnet s) as Hat by exact Hwf.
  destruct Ho as [| | | |???? s ?? Hs ?? |?????|??? s ?? Hs Hk| |]; try done;
    try (by apply wf_set); try (by apply map_Forall_delete).
  - apply wf_set; [done|]. destruct (Hat _ _ Hs) as (lo & hi & ?).
    exists lo, hi. apply wf_claim; [done | by eexists].
  - apply wf_set; [done|]. destruct (Hat _ _ Hs) as (lo & hi & ?).
    exists lo, hi. apply claims_Some in Hk as [Hk _]. apply wf_release; [done | by eexists].
Qed.

Lemma reachable_wf_aux a : reachable a → wf a.
Proof.
  induction 1 as [|a c r a' _ IH Hr]; [by apply map_Forall_empty|].
  by eapply outcome_wf, run_outcome.
Qed.

Lemma outcome_refines a c r a' :
  wf a → outcome a c r a' → spec_step (pools a) c r (pools a').
Proof.
  intros Hwf Ho. destruct Ho as [|????? Hb (lo & hi & Hw) Hc|??????? s Hb Hs Hw Hex Hrf|
    |????? k Hc Hs Hk Hch|????? Hs Hk|????? Hc Hs Hk|??? s' ? Hs Hw Hsame Hcl|?? Hno].
  - by apply spec_fail.
  - destruct (buildSubnet_ok _ _ _ _ Hb) as (lo' & hi' & ? & ? & [] & _). rewrite pools_set.
    by eapply spec_new.
  - destruct (buildSubnet_ok _ _ _ _ Hb) as (lo & hi & ? & ? & Hw0 & _). rewrite pools_set.
    eapply spec_refresh; eauto.
    + simpl. rewrite (same_dom _ _ Hs). apply Hw0.
    + intros k Hk. apply elem_of_named. by apply (same_markable _ _ _ Hs), Hex.
    + by rewrite pools_lookup.
  - unfold pools, DeleteSubnet. simpl. rewrite fmap_delete. constructor.
  - rewrite pools_set, (same_pool s) by (apply same_claim; by eexists). rewrite claims_claim.
    assert (claims s !! k = None) by (apply claims_None; unfold ip_used, map_get; by rewrite Hk).
    destruct Hc as [[-> ->]|[-> ?]];
      [eapply (spec_get _ _ _ _ (pool_of s)) | eapply (spec_get_owned _ _ _ _ _ (pool_of s))];
      try done; by rewrite pools_lookup, Hs.
  - eapply (spec_reclaim _ _ _ _ (pool_of s)); [|done|exact Hk]. by rewrite pools_lookup, Hs.
  - pose proof Hk as [Hi _]%claims_Some.
    rewrite pools_set, (same_pool s) by (apply same_release; by eexists). rewrite claims_release.
    destruct Hc as [->|[-> ?]];
      [eapply (spec_release _ _ _ _ (pool_of s)) | eapply (spec_release_owned _ _ _ _ (pool_of s))];
      try done; by rewrite pools_lookup, Hs.
  - rewrite pools_set, (same_pool s) by done. rewrite Hcl.
    eapply (spec_release_all _ _ _ (pool_of s)); [by rewrite pools_lookup, Hs | done].
  - apply spec_release_none. destruct Hno as [Hno|?]; [left | by right].
    by rewrite pools_lookup, Hno.
Qed.

(** ** What a client can rely on

    The effect of each call on the claims, read off the specification. *)

(** Every address of the pool can be named by a caller. *)
Definition all_named (n : string) (a : IPAllocator) : Prop :=
  ∀ p, pools a !! n = Some p → p_keys p ⊆ p_named p.

Lemma run_spec c a r a' :
  wf a → run c a = Some (r, a') → wf a' ∧ spec_step (pools a) c r (pools a').
Proof.
  intros Hwf Hr%run_outcome; [|done]. split; [by eapply outcome_wf | by apply outcome_refines].
Qed.

Lemma holds_with_taken a a' n p t m i x :
  pools a !! n = Some p → pools a' = <[n := with_taken p t]> (pools a) →
  (holds a' m i x ↔ (if decide (m = n) then t !! i = Some x else holds a m i x)) ∧
  (all_named m a → all_named m a').
Proof.
  intros Hp Ha. unfold holds, all_named. rewrite Ha. destruct (decide (m = n)) as [->|].
  - rewrite lookup_insert_eq. split; [done|]. intros Hn p' ?. simplify_eq. simpl. by apply Hn.
  - by rewrite lookup_insert_ne.
Qed.

Lemma GetIPOwned_effect a n ip o r a' :
  wf a → GetIPOwned a n ip o = (r, a') →
  wf a' ∧ (∀ m, all_named m a → all_named m a') ∧
  match r with
  | Ok k => ∀ m i x, holds a' m i x ↔ holds a m i x ∨ (m = n ∧ i = k ∧ x = o)
  | Err _ => ∀ m i x, holds a' m i x ↔ holds a m i x
  end.
Proof.
  intros Hwf Hg.
  destruct (run_spec (OpGetIPOwned n ip o) a (RAddr r) a' Hwf) as [Hwf' Hs]; [simpl; by rewrite Hg|].
  split; [done|]. inversion Hs as [? ? Hf| | | | |? ? ? k p Hp Ho Hch Hfree|? k ? p Hp Ho Ht| | | | ]; simplify_eq/=.
  - assert (pools a' = pools a) as Heq by done. unfold holds, all_named. rewrite Heq.
    split; [done|]. by destruct r.
  - split; [intros m; by eapply (holds_with_taken a a' n p _ m "" "")|].
    intros m i x. rewrite (proj1 (holds_with_taken a a' n p (<[k:=o]> (p_taken p)) m i x Hp ltac:(done))).
    unfold holds. destruct (decide (m = n)) as [->|]; [rewrite Hp | naive_solver]. simpl.
    destruct (decide (i = k)) as [->|]; [rewrite lookup_insert_eq, Hfree | rewrite lookup_insert_ne by done];
      naive_solver.
  - assert (pools a' = pools a) as Heq by done. unfold holds, all_named. rewrite Heq.
    split; [done|]. intros m i x. split; [by left|].
    intros [?|(-> & -> & ->)]; [done|]. by rewrite Hp.
Qed.

(** A release, owner-aware or not, frees at most the address named. *)
Lemma release_effect c a n k r a' :
  wf a → c = OpReleaseIP n k ∨ (∃ o, c = OpReleaseIPOwned n k o) →
  run c a = Some (RUnit r, a') →
  wf a' ∧ (∀ m, all_named m a → all_named m a') ∧
  ∀ m i x, holds a' m i x ↔ holds a m i x ∧ (r = Ok tt → ¬ (m = n ∧ i = k)).
Proof.
  intros Hwf Hc Hr. destruct (run_spec _ _ _ _ Hwf Hr) as [Hwf' Hs]. split; [done|].
  assert (∀ p o, pools a !! n = Some p → p_taken p !! k = Some o →
    pools a' = <[n := with_taken p (delete k (p_taken p))]> (pools a) →
    (∀ m, all_named m a → all_named m a') ∧
    ∀ m i x, holds a' m i x ↔ holds a m i x ∧ ¬ (m = n ∧ i = k)) as Hok.
  { intros p o Hp Ho Ha. split; [intros m; by eapply (holds_with_taken a a' n p _ m "" "")|].
    intros m i x. rewrite (proj1 (holds_with_taken a a' n p _ m i x Hp Ha)). unfold holds.
    destruct (decide (m = n)) as [->|]; [rewrite Hp | naive_solver]. simpl.
    destruct (decide (i = k)) as [->|]; [rewrite lookup_delete_eq | rewrite lookup_delete_ne by done];
      naive_solver. }
  destruct Hc as [->|[o ->]];
    inversion Hs as [? ? Hf| | | | | | |? ? o' p Hp Ho|? ? ? p Hp Hne Ho| | ]; simplify_eq/=.
  1, 3: assert (pools a' = pools a) as Heq by done; unfold holds, all_named; rewrite Heq;
    split; [done|]; destruct r; [done | naive_solver].
  all: destruct (Hok p _ Hp Ho) as [? Hh]; [done|]; split; [done|]; intros m i x; rewrite Hh; naive_solver.
Qed.

Lemma ReleaseIP_effect a n k r a' :
  wf a → ReleaseIP a n k = (r, a') →
  wf a' ∧ (∀ m, all_named m a → all_named m a') ∧
  ∀ m i x, holds a' m i x ↔ holds a m i x ∧ (r = Ok tt → ¬ (m = n ∧ i = k)).
Proof.
  intros Hwf Hr. apply (release_effect (OpReleaseIP n k)); [done | by left | simpl; by rewrite Hr].
Qed.

Lemma ReleaseIPOwned_effect a n k o r a' :
  wf a → ReleaseIPOwned a n k o = (r, a') →
  wf a' ∧ (∀ m, all_named m a → all_named m a') ∧
  ∀ m i x, holds a' m i x ↔ holds a m i x ∧ (r = Ok tt → ¬ (m = n ∧ i = k)).
Proof.
  intros Hwf Hr.
  apply (release_effect (OpReleaseIPOwned n k o)); [done | right; eauto | simpl; by rewrite Hr].
Qed.

Lemma ReleaseAllByOwner_effect a n o f a' :
  wf a → o ≠ "" → ReleaseAllByOwner a n o = (f, a') →
  wf a' ∧ (∀ m, all_named m a → all_named m a') ∧
  ∀ m i x, holds a' m i x ↔ holds a m i x ∧ ¬ (m = n ∧ x = o).
Proof.
  intros Hwf Hne Hr.
  destruct (run_spec (OpReleaseAllByOwner n o) a (RCount f) a' Hwf) as [Hwf' Hs]; [simpl; by rewrite Hr|].
  split; [done|]. inversion Hs as [? ? Hf| | | | | | | | |? ? p Hp Ho|? ? Hno]; simplify_eq/=.
  - split; [intros m; by eapply (holds_with_taken a a' n p _ m "" "")|].
    intros m i x. rewrite (proj1 (holds_with_taken a a' n p
      (filter (λ kv : string * string, kv.2 ≠ o) (p_taken p)) m i x Hp ltac:(done))).
    unfold holds. destruct (decide (m = n)) as [->|]; [rewrite Hp | naive_solver]. simpl.
    rewrite map_lookup_filter_Some. naive_solver.
  - assert (pools a' = pools a) as Heq by done. unfold holds, all_named. rewrite Heq.
    split; [done|]. intros m i x. split; [|naive_solver]. intros Hh. split; [done|].
    intros [-> ->]. destruct Hno as [Hno|]; [by rewrite Hno in Hh | done].
Qed.

Lemma holds_set_other a n m s k o :
  m ≠ n → holds (set_subnet a m s) n k o ↔ holds a n k o.
Proof. intros. unfold holds. rewrite pools_set, lookup_insert_ne; done. Qed.

Lemma holds_set a n s k o : holds (set_subnet a n s) n k o ↔ claims s !! k = Some o.
Proof. unfold holds. by rewrite pools_set, lookup_insert_eq. Qed.

(** A step that does not give the claim up keeps it and grants the address to
    nobody else. *)
Lemma outcome_keeps a c r a' n k o :
  o ≠ "" → outcome a c r a' → gives_up n k o c = false → holds a n k o →
  holds a' n k o ∧ ∀ o', granted c r = Some (n, k, o') → o' = o.
Proof.
  intros Ho Hout Hg Hk. apply holds_lookup in Hk as (s0 & Hs0 & Hc0).
  assert (holds a n k o) as Hhold by (apply holds_lookup; eauto).
  destruct Hout as [c r Hf|m ?????|m ????? sb s Hb Hs Hw Hex Hrf|m|c m ip o1 s k1 Hc Hs Hk1 Hch
    |m k1 o1 s ? Hs Hc1|c m s k1 o1 Hc Hs Hk1|m o1 s s' ? Hs Hw Hsame Hcl|?? Hno]; simpl in Hg.
  - split; [done|]. intros o'. by destruct c, r as [|[]|[]|].
  - apply bool_decide_eq_false in Hg. rewrite holds_set_other by done. done.
  - split; [|done]. destruct (decide (m = n)) as [->|]; [|by apply holds_set_other].
    rewrite bool_decide_true, Hb in Hg by done. bool_hyps. rewrite andb_true_l in Hg. bool_hyps.
    rewrite holds_set. apply (proj1 Hrf); [done|]. rewrite Hs0. split; [|done].
    apply elem_of_named, (same_markable _ _ _ Hs). done.
  - apply bool_decide_eq_false in Hg. split; [|done]. unfold holds, pools, DeleteSubnet. simpl.
    rewrite fmap_delete, lookup_delete_ne; done.
  - assert (granted c (RAddr (Ok k1)) = Some (m, k1, o1)) as ->
      by (by destruct Hc as [[-> ->]|[-> _]]).
    destruct (decide (m = n)) as [->|].
    + simplify_eq. rewrite holds_set, claims_claim.
      assert (k1 ≠ k) by (intros ->; apply claims_Some in Hc0 as [? _]; congruence).
      rewrite lookup_insert_ne by done. split; [done|]. intros. congruence.
    + rewrite holds_set_other by done. split; [done|]. intros. congruence.
  - split; [done|]. simpl. intros o' Heq. simplify_eq. congruence.
  - split; [|by destruct Hc as [->|[-> _]]].
    destruct (decide (m = n)) as [->|]; [|by apply holds_set_other].
    rewrite holds_set, claims_release. simplify_eq.
    assert (k1 ≠ k).
    { intros ->. simplify_eq. destruct Hc as [->|[-> _]]; simpl in Hg;
      rewrite ?bool_decide_true in Hg; done. }
    by rewrite lookup_delete_ne.
  - split; [|done]. destruct (decide (m = n)) as [->|]; [|by apply holds_set_other].
    rewrite holds_set, Hcl. simplify_eq. apply map_lookup_filter_Some. split; [done|]. simpl.
    intros ->. rewrite !bool_decide_true in Hg; done.
  - done.
Qed.

Lemma wf_key lo hi s k :
  wf_subnet_at lo hi s → k ∈ dom (ips s) →
  ∃ v, lo <= v <= hi ∧ k = ip_name v ∧ ParseAddr k = Some (canon v) ∧ k ≠ "".
Proof.
  intros Hw Hk. pose proof (wf_bounds _ _ _ Hw). rewrite (wf_keys _ _ _ Hw) in Hk.
  apply elem_of_range_keys in Hk as (v & Hv & ->).
  assert (ParseAddr (ip_name v) = Some (canon v)) as Hp by (apply ParseAddr_ip_name; lia).
  exists v. split_and!; try lia; try done. intros He. by rewrite He in Hp.
Qed.

Lemma GetIPOwned_Ok a n ip o k a' :
  wf a → GetIPOwned a n ip o = (Ok k, a') → o ≠ "" ∧ k ≠ "" ∧ holds a' n k o.
Proof.
  intros Hwf Hg.
  assert (run (OpGetIPOwned n ip o) a = Some (RAddr (Ok k), a')) as Hr by (simpl; by rewrite Hg).
  apply run_outcome in Hr; [|done].
  inversion Hr as [? ? Hf| | | |c m ip' o' s k1 Hc Hs Hk Hch| m k1 o' s Ho Hs Hc| | | ]; simplify_eq/=.
  - destruct Hc as [[? _]|[? ?]]; simplify_eq. destruct (Hwf _ _ Hs) as (lo & hi & Hw).
    apply elem_of_dom_2, (wf_key _ _ _ _ Hw) in Hk as (v & _ & _ & _ & ?).
    split_and!; [done | done | by rewrite holds_set, claims_claim, lookup_insert_eq].
  - split_and!; [done | | apply holds_lookup; eauto].
    destruct (Hwf _ _ Hs) as (lo & hi & Hw). apply claims_Some in Hc as [Hk _].
    apply elem_of_dom_2 in Hk. destruct (wf_key _ _ _ _ Hw Hk) as (v & _ & _ & _ & ?). done.
Qed.

(** ** Properties *)

(** C1: every call on a well-formed allocator, whatever the order in which Go
    iterates over its maps, is a step of the abstract specification: failed
    calls change nothing, a claim takes one free address (the lowest one when
    none is named), a release frees exactly the address named, a sweep frees
    exactly the owner's addresses and counts them, and a refresh keeps every
    owned claim the new range can name. *)
Theorem run_refines a c r a' :
  wf a → run c a = Some (r, a') → spec_step (pools a) c r (pools a').
Proof. intros Hwf Hr. by apply outcome_refines, run_outcome. Qed.

(** C24: whatever calls are made, every subnet stays well formed: its addresses
    are exactly those of its range, at most 65536, none of them the broadcast
    address, each can be named (IPv4-mapped addresses of an IPv6 prefix apart),
    and only allocated addresses have an owner. *)
Theorem reachable_wf a : reachable a → wf a.
Proof. apply reachable_wf_aux. Qed.

(** C2: an address claimed by an owner stays claimed by that owner, and is
    granted to nobody else, over any sequence of calls that does not ask to give
    the claim up; in particular no claimant can take another's address. *)
Theorem owned_claim_exclusive cs : ∀ a rs a' n k o,
  wf a → o ≠ "" → holds a n k o →
  Forall (λ c, gives_up n k o c = false) cs →
  run_all cs a = Some (rs, a') →
  holds a' n k o ∧
  ∀ c r o', (c, r) ∈ zip cs rs → granted c r = Some (n, k, o') → o' = o.
Proof.
  induction cs as [|c cs IH]; intros a rs a' n k o Hwf Ho Hh Hf Hr; simpl in Hr.
  - simplify_eq. split; [done|]. intros ??? []%not_elem_of_nil.
  - destruct (run c a) as [[r1 a1]|] eqn:Hrun; [|done]. simpl in Hr.
    destruct (run_all cs a1) as [[rs2 a2]|] eqn:Hrest; [|done]. simplify_eq/=.
    apply Forall_cons in Hf as [Hf1 Hf]. apply run_outcome in Hrun; [|done].
    destruct (outcome_keeps _ _ _ _ _ _ _ Ho Hrun Hf1 Hh) as [Hh1 Hg1].
    destruct (IH _ _ _ n k o (outcome_wf _ _ _ _ Hwf Hrun) Ho Hh1 Hf Hrest) as [Hh2 Hg2].
    split; [done|]. intros c' r' o' [?|?]%elem_of_cons; [simplify_eq; eauto | eauto].
Qed.

(** C28: building a subnet returns for every input whose range does not end at
    the last IPv6 address, and a subnet it returns is well formed, covers
    exactly the requested range, and has every address free. *)
Theorem buildSubnet_correct sub b e :
  ParseIP e ≠ Some (max128 - 1) →
  ∃ r, buildSubnet sub b e = Some r ∧
    ∀ s, r = Ok s → ∃ lo hi, ParseIP b = Some lo ∧ ParseIP e = Some hi ∧
      wf_subnet_at lo hi s ∧ dom (ips s) = range_keys lo hi ∧ claims s = ∅.
Proof.
  intros He. destruct (buildSubnet_returns sub b e He) as [r Hr]. exists r. split; [done|].
  intros s ->. assert (NewSubnet New "" sub b e = Some (Ok tt, set_subnet New "" s)) as Hn.
  { unfold NewSubnet. by rewrite Hr. }
  apply NewSubnet_step in Hn as [[? _]|(s' & Hs' & _ & _ & _ & Hc)]; [done|].
  rewrite Hr in Hs'. simplify_eq.
  destruct (buildSubnet_ok _ _ _ _ Hr) as (lo & hi & ? & ? & Hw & _).
  exists lo, hi. split_and!; try done; apply Hw.
Qed.

(** when the range ends at the last IPv6 address, the loop that fills the
    allocation map never stops: past that address the cursor is the zero
    [Addr], which compares below every address. *)
Theorem fill_never_stops fuel v allocatedIPs :
  0 <= v < max128 →
  fill fuel (AddrFrom16 v) (AddrFrom16 (max128 - 1)) allocatedIPs = None.
Proof. apply fill_diverges. Qed.

(** claiming an address already claimed by the same owner succeeds and
    changes nothing, so a retried allocation is harmless; whatever address an
    owned allocation returned can be claimed again by name. *)
Theorem GetIPOwned_idempotent a n ip o k a' :
  wf a → GetIPOwned a n ip o = (Ok k, a') → GetIPOwned a' n k o = (Ok k, a').
Proof.
  intros Hwf Hg. destruct (GetIPOwned_Ok _ _ _ _ _ _ Hwf Hg) as (Ho & Hk & Hh).
  apply holds_lookup in Hh as (s & Hs & Hc). apply claims_Some in Hc as [Hi How].
  unfold GetIPOwned, reclaims. rewrite bool_decide_false by done. rewrite bool_decide_false, Hs by done.
  apply ip_used_true in Hi. by rewrite Hi, bool_decide_true.
Qed.

(** while a pool has a free address an unnamed allocation succeeds; it
    fails only when every address of the pool is taken. *)
Theorem GetIPOwned_fails_iff_full a n o s :
  wf a → o ≠ "" → ipam a !! n = Some s →
  is_err (GetIPOwned a n "" o).1 = true ↔ dom (claims s) = dom (ips s).
Proof.
  intros Hwf Ho Hs. destruct (Hwf _ _ Hs) as (lo & hi & Hw).
  unfold GetIPOwned, reclaims, getIP. rewrite bool_decide_false by done. simpl. rewrite Hs.
  destruct (next_free s) as [k|] eqn:Hn; simpl.
  - apply (next_free_Some _ _ _ _ Hw) in Hn as (Hk & Hf & _). simpl in *. split; [done|].
    intros Hd. rewrite <- Hd in Hk. apply elem_of_dom in Hk as [? Hk]. congruence.
  - split; [|done]. intros _. by eapply next_free_None.
Qed.

Lemma ReleaseIPOwned_aux a n k o s :
  wf a → o ≠ "" → ipam a !! n = Some s →
  ((ReleaseIPOwned a n k o).1 = Ok tt ↔ claims s !! k = Some o ∧ nameable s k = true) ∧
  (∀ o', claims s !! k = Some o' → o' ≠ o →
     ∃ e, ReleaseIPOwned a n k o = (Err e, a) ∧ IsForeignClaim e = true).
Proof.
  intros Hwf Ho Hs. destruct (Hwf _ _ Hs) as (lo & hi & Hw).
  unfold ReleaseIPOwned. rewrite bool_decide_false, Hs by done. split.
  - rewrite claims_Some, <- ip_used_true. unfold releaseIP, nameable. rewrite Hs.
    destruct (ip_used s k) eqn:Hu; simpl.
    + apply ip_used_true in Hu. pose proof Hu as Hk%elem_of_dom_2.
      destruct (wf_key _ _ _ _ Hw Hk) as (v & Hv & -> & Hp & Hne).
      rewrite Hp, Hu, (wf_broadcast _ _ _ Hw), andb_true_r, (bool_decide_false _ Hne) by lia.
      case_bool_decide; simpl; [|naive_solver]. destruct (Prefix_Contains _ _); simpl; naive_solver.
    + split; [|naive_solver]. case_bool_decide; [done|]. destruct (ParseAddr k); [|done].
      destruct (Prefix_Contains _ _); [|done]. simpl. unfold ip_used, map_get in Hu.
      by destruct (ips s !! k) as [[]|].
  - intros o' Hc Hne. apply claims_Some in Hc as [Hi <-]. apply ip_used_true in Hi. rewrite Hi.
    rewrite bool_decide_false by done. simpl. by eexists.
Qed.

Lemma ReleaseIPOwned_succeeds a n k o :
  wf a → o ≠ "" → holds a n k o → all_named n a → (ReleaseIPOwned a n k o).1 = Ok tt.
Proof.
  intros Hwf Ho Hh Hn. pose proof Hh as (s & Hs & Hc)%holds_lookup.
  apply (ReleaseIPOwned_aux a n k o s); try done. split; [done|].
  apply claims_Some in Hc as [Hi%elem_of_dom_2 _].
  assert (k ∈ p_named (pool_of s)) as Hk%elem_of_named; [|apply Hk].
  apply Hn; [by rewrite pools_lookup, Hs | done].
Qed.

(** What stands in the way of releasing one's own claim. *)
Lemma ReleaseIPOwned_unnamed a n k o s :
  wf a → o ≠ "" → ipam a !! n = Some s → claims s !! k = Some o → nameable s k = false →
  Is4 (prefix_ip (cidr s)) = false ∧ (∃ v, k = ip_name v ∧ is_v4_val v = true) ∧
  ∃ e, ReleaseIPOwned a n k o = (Err e, a) ∧ IsForeignClaim e = false.
Proof.
  intros Hwf Ho Hs [Hi Hown]%claims_Some Hn. destruct (Hwf _ _ Hs) as (lo & hi & Hw).
  pose proof Hi as Hk%elem_of_dom_2. destruct (wf_key _ _ _ _ Hw Hk) as (v & Hv & -> & Hp & Hne).
  destruct (wf_named _ _ _ Hw v Hv) as [?|[H4 Hv4]]; [congruence|].
  split; [done|]. split; [by exists v|].
  unfold nameable in Hn. rewrite Hp, (wf_broadcast _ _ _ Hw), andb_true_r in Hn by done.
  unfold ReleaseIPOwned, releaseIP. rewrite bool_decide_false, Hs by done.
  rewrite (bool_decide_true (ip_owner s _ = o)), andb_false_r by done.
  rewrite (bool_decide_false _ Hne), Hp, Hn. simpl. by eexists.
Qed.

(** C40: an owner-aware release succeeds exactly on the owner's own claims, as
    long as the subnet of the pool contains the address as the parser reads it;
    then it takes this one claim away.  An own claim on an address that is not
    contained so (an IPv4-mapped address that the range of an IPv6 pool reaches:
    the pool grants it as a plain IPv4 address) is refused and kept.  On an
    address taken by anyone else, or by an unowned claim, the release reports a
    foreign claim and changes nothing. *)
Theorem ReleaseIPOwned_correct a n k o s :
  wf a → o ≠ "" → ipam a !! n = Some s →
  ((ReleaseIPOwned a n k o).1 = Ok tt ↔ claims s !! k = Some o ∧ nameable s k = true) ∧
  ((ReleaseIPOwned a n k o).1 = Ok tt →
     ∃ s', ipam (ReleaseIPOwned a n k o).2 = <[n := s']> (ipam a) ∧ claims s' = delete k (claims s)) ∧
  (claims s !! k = Some o → nameable s k = false →
     Is4 (prefix_ip (cidr s)) = false ∧ (∃ v, k = ip_name v ∧ is_v4_val v = true) ∧
     ∃ e, ReleaseIPOwned a n k o = (Err e, a) ∧ IsForeignClaim e = false) ∧
  (∀ o', claims s !! k = Some o' → o' ≠ o →
     ∃ e, ReleaseIPOwned a n k o = (Err e, a) ∧ IsForeignClaim e = true).
Proof.
  intros Hwf Ho Hs. destruct (ReleaseIPOwned_aux a n k o s Hwf Ho Hs) as [Hown Hforeign].
  split; [done|]. split; [|split; [by apply ReleaseIPOwned_unnamed | done]].
  unfold ReleaseIPOwned, releaseIP. rewrite bool_decide_false, Hs by done.
  repeat case_match; try done. intros _. eexists. split; [done|]. apply claims_release.
Qed.

#[local] Instance string_le_total : stdpp.base.Total string_le.
Proof. intros x y. unfold string_le. destruct (String.leb_total x y); auto. Qed.

Lemma claims_size s : size (claims s) = size (filter (λ e : string * bool, e.2 = true) (ips s)).
Proof.
  rewrite <- !(size_dom (D := gset string)). f_equal. apply set_eq. intros k. rewrite !elem_of_dom.
  rewrite lookup_claims. unfold ip_used, map_get, is_Some. setoid_rewrite map_lookup_filter_Some.
  simpl. destruct (ips s !! k) as [[]|]; naive_solver.
Qed.

(** the counters agree with the claims: the used and available counts add
    up to the size of the range, and the usage report lists exactly the
    claimed addresses, sorted, with the same totals. *)
Theorem usage_correct a n s lo hi :
  ipam a !! n = Some s → wf_subnet_at lo hi s →
  Used a n = Z.of_nat (size (claims s)) ∧ Used a n + Available a n = hi - lo + 1 ∧
  ∃ u, GetUsage a !! n = Some u ∧ Used_ u = Used a n ∧ Available_ u = Available a n ∧
    Total u = hi - lo + 1 ∧ list_to_set (UsedIPs u) = dom (claims s) ∧
    Sorted string_le (UsedIPs u).
Proof.
  intros Hs Hw. pose proof (wf_bounds _ _ _ Hw) as Hb.
  set (used := filter (λ e : string * bool, e.2 = true) (range (ips s))).
  assert (length used = size (claims s)) as Hu by (unfold used; by rewrite length_filter_range, claims_size).
  assert (Used a n = Z.of_nat (size (claims s))) as HU.
  { unfold Used, count_ips. rewrite Hs, (foldl_count (λ e : string * bool, e.2)). unfold used in Hu. lia. }
  assert (Z.of_nat (size (ips s)) = hi - lo + 1) as Hsz.
  { rewrite <- (size_dom (D := gset string)), (wf_keys _ _ _ Hw). apply size_range_keys; lia. }
  assert (Used a n + Available a n = hi - lo + 1) as HA.
  { rewrite HU, <- Hsz, <- Hu. unfold Available, count_ips. rewrite Hs.
    rewrite (foldl_count (λ e : string * bool, negb e.2)), <- length_range. unfold used.
    generalize (range (ips s)). induction l as [|[k []] l IH]; [done| |];
      rewrite !filter_cons; simpl; lia. }
  split_and!; [done | done|]. exists (usage_of s).
  split; [unfold GetUsage; by rewrite lookup_fmap, Hs|].
  unfold usage_of. cbn [Used_ Available_ Total UsedIPs].
  rewrite length_fmap. fold used. rewrite Hu, Hsz.
  split_and!; [lia | lia | done | |].
  - apply set_eq. intros k. rewrite elem_of_list_to_set, (merge_sort_Permutation string_le), list_elem_of_fmap.
    rewrite elem_of_dom, lookup_claims. split.
    + intros ([k' b] & -> & [Hb1 Hin]%list_elem_of_filter). simpl in *. subst b.
      apply elem_of_range, ip_used_true in Hin. rewrite Hin. by eexists.
    + destruct (ip_used s k) eqn:Hk; [|by intros []]. intros _. exists (k, true). split; [done|].
      apply list_elem_of_filter. split; [done|]. apply elem_of_range. by apply ip_used_true.
  - apply (Sorted_merge_sort string_le).
Qed.

Lemma mark_excludes_succeeds ex : ∀ s,
  Forall (markable s) ex → ∃ s', mark_excludes s ex = Ok s'.
Proof.
  induction ex as [|k ex IH]; intros s Hf; [by eexists|]. apply Forall_cons in Hf as [Hk Hf]. simpl.
  assert (markIPUsed s k = Ok (set_ips s (<[k := true]> (ips s)))) as ->.
  { destruct Hk as [? Hd]. apply markIPUsed_eq. split_and!; try done. by apply elem_of_dom. }
  apply IH. eapply Forall_impl; [exact Hf|]. intros k'.
  apply (same_markable _ _ _ (marks_same _ _ _ (marks_one s k Hk))).
Qed.

(** a refresh to a range the source accepts succeeds exactly when the new
    range can name every excluded address; persisted allocations outside the
    new range never make it fail, and a refresh that fails changes nothing. *)
Theorem RefreshSubnet_succeeds_iff a n sub b e ex al s :
  buildSubnet sub b e = Some (Ok s) →
  ∃ r a', RefreshSubnet a n sub b e ex al = Some (r, a') ∧
    (r = Ok tt ↔ Forall (λ k, nameable s k = true ∧ k ∈ dom (ips s)) ex) ∧
    (is_err r = true → a' = a).
Proof.
  intros Hb. unfold RefreshSubnet. rewrite Hb. simpl.
  destruct (mark_excludes s ex) as [s1|er] eqn:Hex; do 2 eexists; (split; [reflexivity|]); split; try done.
  - split; [|done]. intros _. apply mark_excludes_Ok in Hex as [_ Hm]. by apply Forall_forall.
  - split; [done|]. intros Hf. destruct (mark_excludes_succeeds ex s Hf) as [? ?]. congruence.
Qed.
End Correct.

(** ** Instances *)

#[local] Existing Instances sorted_range no_err_text.

Lemma demo_wf : wf demo_alloc.
Proof.
  apply reachable_wf_aux.
  assert (∃ r, run (OpRefreshSubnet "pool" "10.0.0.0/29" "10.0.0.2" "10.0.0.5" ["10.0.0.3"] []) New
            = Some (r, demo_alloc)) as [r Hr] by (eexists; vm_compute; reflexivity).
  eapply reach_run; [apply reach_new | exact Hr].
Qed.

Definition demo_subnet : IPSubnet :=
  default (mkSubnet (mkPrefix zeroAddr 0) (IP4 0) (IP4 0) None ∅ ∅) (ipam demo_alloc !! "pool").

(** The allocator after [c] on the demonstration pool. *)
Definition after (c : op) : IPAllocator := from_option snd New (run c demo_alloc).

Lemma run_refines_witness :
  spec_step (pools demo_alloc) (OpGetIPOwned "pool" "" "ns/a") (RAddr (Ok "10.0.0.2"))
    (pools (after (OpGetIPOwned "pool" "" "ns/a"))).
Proof. apply (run_refines demo_alloc); [apply demo_wf | vm_compute; reflexivity]. Defined.

Lemma reachable_wf_witness : wf (after (OpReleaseAllByOwner "pool" "ns/a")).
Proof.
  apply reachable_wf.
  apply (reach_run demo_alloc (OpReleaseAllByOwner "pool" "ns/a") (RCount 0));
    [|vm_compute; reflexivity].
  apply (reach_run New (OpRefreshSubnet "pool" "10.0.0.0/29" "10.0.0.2" "10.0.0.5" ["10.0.0.3"] [])
    (RUnit (Ok tt))); [apply reach_new | vm_compute; reflexivity].
Defined.

Definition claimed : IPAllocator := after (OpGetIPOwned "pool" "10.0.0.4" "ns/a").
Definition rivals : list op :=
  [OpGetIPOwned "pool" "10.0.0.4" "ns/b"; OpReleaseIPOwned "pool" "10.0.0.4" "ns/b";
   OpReleaseAllByOwner "pool" "ns/b"; OpGetIP "pool" "";
   OpRefreshSubnet "pool" "10.0.0.0/24" "10.0.0.4" "10.0.0.9" [] ["10.0.0.200"]].

Lemma wf_claimed : wf claimed.
Proof.
  eapply outcome_wf; [apply demo_wf|]. apply run_outcome; [apply demo_wf|].
  instantiate (1 := RAddr (Ok "10.0.0.4")).
  instantiate (1 := OpGetIPOwned "pool" "10.0.0.4" "ns/a"). vm_compute. reflexivity.
Qed.

Lemma owned_claim_exclusive_witness :
  holds (from_option snd New (run_all rivals claimed)) "pool" "10.0.0.4" "ns/a".
Proof.
  apply (owned_claim_exclusive rivals claimed (from_option fst [] (run_all rivals claimed)) _ "pool"
           "10.0.0.4" "ns/a" wf_claimed).
  - discriminate.
  - vm_compute. reflexivity.
  - repeat constructor; vm_compute; reflexivity.
  - vm_compute. reflexivity.
Defined.

Lemma buildSubnet_correct_witness :
  ∃ r, buildSubnet "2001:db8::/64" "2001:db8::10" "2001:db8::1f" = Some r ∧
    ∀ s, r = Ok s → ∃ lo hi, ParseIP "2001:db8::10" = Some lo ∧ ParseIP "2001:db8::1f" = Some hi ∧
      wf_subnet_at lo hi s ∧ dom (ips s) = range_keys lo hi ∧ claims s = ∅.
Proof. apply (buildSubnet_correct "2001:db8::/64"). vm_compute. discriminate. Defined.

Lemma fill_never_stops_witness :
  fill 5 (AddrFrom16 (max128 - 2)) (AddrFrom16 (max128 - 1)) ∅ = None.
Proof. apply fill_never_stops. split; [vm_compute; discriminate | reflexivity]. Defined.

Lemma GetIPOwned_idempotent_witness :
  GetIPOwned (after (OpGetIPOwned "pool" "" "ns/a")) "pool" "10.0.0.2" "ns/a" =
  (Ok "10.0.0.2", after (OpGetIPOwned "pool" "" "ns/a")).
Proof.
  apply (GetIPOwned_idempotent demo_alloc "pool" "" "ns/a"); [apply demo_wf | vm_compute; reflexivity].
Defined.

Lemma GetIPOwned_fails_iff_full_witness :
  is_err (GetIPOwned demo_alloc "pool" "" "ns/a").1 = true ↔
  dom (claims demo_subnet) = dom (ips demo_subnet).
Proof.
  apply (GetIPOwned_fails_iff_full demo_alloc "pool" "ns/a");
    [apply demo_wf | discriminate | vm_compute; reflexivity].
Defined.

Lemma ReleaseIPOwned_correct_witness :
  ∃ e, ReleaseIPOwned claimed "pool" "10.0.0.4" "ns/b" = (Err e, claimed) ∧ IsForeignClaim e = true.
Proof.
  apply (ReleaseIPOwned_correct claimed "pool" "10.0.0.4" "ns/b"
           (default demo_subnet (ipam claimed !! "pool")) wf_claimed) with (o' := "ns/a").
  - discriminate.
  - vm_compute. reflexivity.
  - vm_compute. reflexivity.
  - discriminate.
Defined.

(** An IPv6 pool whose range starts in the IPv4-mapped addresses. *)
Definition mapped_pool : IPAllocator :=
  default New (snd <$> (RefreshSubnet New "v6" "::/64" "::ffff:a00:1" "::ffff:a00:2" [] [])).

(** Its first address is granted under a name that cannot be given back. *)
Example own_claim_not_released :
  let '(g, a1) := GetIPOwned mapped_pool "v6" "" "ns/a" in
  let '(r, a2) := ReleaseIPOwned a1 "v6" "10.0.0.1" "ns/a" in
  g = Ok "10.0.0.1" ∧ is_ok r = false ∧ a2 = a1.
Proof. vm_compute. done. Qed.

Lemma usage_correct_witness :
  ∃ lo hi, Used demo_alloc "pool" + Available demo_alloc "pool" = hi - lo + 1 ∧ hi - lo + 1 = 4.
Proof.
  destruct (demo_wf "pool" demo_subnet eq_refl) as (lo & hi & Hw).
  exists lo, hi. pose proof (usage_correct demo_alloc "pool" demo_subnet lo hi eq_refl Hw) as (_ & H & _).
  split; [exact H|]. rewrite <- H. vm_compute. reflexivity.
Defined.

Lemma RefreshSubnet_succeeds_iff_witness :
  ∃ r a', RefreshSubnet demo_alloc "pool" "10.0.0.0/29" "10.0.0.2" "10.0.0.5" ["10.0.0.6"]
            ["10.0.0.99"] = Some (r, a') ∧ (is_err r = true → a' = demo_alloc).
Proof.
  destruct (RefreshSubnet_succeeds_iff demo_alloc "pool" "10.0.0.0/29" "10.0.0.2" "10.0.0.5"
              ["10.0.0.6"] ["10.0.0.99"]
              (from_option (λ r, match r with Ok s => s | Err _ => demo_subnet end) demo_subnet
                 (buildSubnet "10.0.0.0/29" "10.0.0.2" "10.0.0.5")))
    as (r & a' & H1 & _ & H3); [vm_compute; reflexivity|].
  exists r, a'. split; [exact H1 | exact H3].
Defined.
