(* ===== verification/ApiTypes.v ===== *)
(** The custom resources, [pkg/apis/rancher.k8s.binbash.org/v1beta2/types.go],
    with the part of the object metadata the program uses.

    A Go map that may be nil is an [option (gmap _ _)], a pointer an [option];
    reading a key of a nil map gives the zero value.  Times are nanoseconds.
    A list of Go values that the program never compares with nil is a list. *)

From S2P Require Import Prelude GoStd.

Definition time := Z.

(** Lookups in a Go map that may be nil. *)
Definition gomap (V : Type) : Type := option (gmap string V).
Definition mlookup {V} (m : gomap V) (k : string) : option V :=
  match m with Some m => m !! k | None => None end.
Definition mget (m : gomap string) (k : string) : string := default "" (mlookup m k).
Definition mhas {V} (m : gomap V) (k : string) : bool := is_some (mlookup m k).

Record ObjectMeta := mkMeta {
  Name : string;
  Namespace : string;
  Labels : gomap string;
  Annotations : gomap string;
  Finalizers : list string;
  ResourceVersion : string;
  CreationTimestamp : time;
  DeletionTimestamp : option time
}.

Record Condition := mkCond {
  Type_ : string; CStatus : string; Reason : string; Message : string;
  LastTransitionTime : time
}.

(** ** FloatingIP *)

Record AssignedService := mkSvc { ServiceNamespace : string; ServiceName : string }.

Record AssignedInfo := mkAssigned {
  ClusterName : string; ProjectName : string; FloatingIPGroup : string;
  SharedKey : string; Services : list AssignedService
}.

Record FloatingIPSpec := mkFIPSpec { IPAddr : option string; fs_FloatingIPPool : string }.

Record FloatingIPStatus := mkFIPStatus {
  st_IPAddr : string; State : string; Assigned : option AssignedInfo;
  Conditions : list Condition
}.

Record FloatingIP := mkFIP {
  fip_meta : ObjectMeta; fip_Spec : FloatingIPSpec; fip_Status : FloatingIPStatus
}.

(** ** FloatingIPPool *)

Record Pool := mkPool { p_Start : string; p_End : string; Exclude : list string }.

Record IPConfig := mkIPConfig { Family : string; Subnet : string; ipc_Pool : Pool }.

Record FloatingIPPoolSpec := mkPoolSp {
  ps_IPConfig : option IPConfig; TargetCluster : string; TargetNetwork : string;
  TargetNetworkInterface : string
}.

Record FloatingIPPoolStatus := mkPoolStatus {
  pst_Allocated : gomap string; pst_Used : Z; pst_Available : Z
}.

Record FloatingIPPool := mkFIPPool {
  pool_meta : ObjectMeta; pool_Spec : FloatingIPPoolSpec; pool_Status : FloatingIPPoolStatus
}.

(** ** FloatingIPProjectQuota *)

Record FipInfo := mkFipInfo { fi_Family : string; fi_Allocated : gomap string; fi_Used : Z }.

Record FloatingIPProjectQuotaSpec := mkQuotaSpec {
  DisplayName : string; FloatingIPQuota : gomap Z
}.

(** The status maps a pool to a pointer, which may be nil. *)
Record FloatingIPProjectQuotaStatus := mkQuotaStatus {
  FloatingIPs : gomap (option FipInfo)
}.

Record FloatingIPProjectQuota := mkQuota {
  quota_meta : ObjectMeta; quota_Spec : FloatingIPProjectQuotaSpec;
  quota_Status : FloatingIPProjectQuotaStatus
}.

(** ** Decidable equality: [reflect.DeepEqual] distinguishes nil from empty, as
    Leibniz equality does here *)

#[export] Instance ObjectMeta_eq_dec : EqDecision ObjectMeta.
Proof. solve_decision. Defined.
#[export] Instance Condition_eq_dec : EqDecision Condition.
Proof. solve_decision. Defined.
#[export] Instance AssignedService_eq_dec : EqDecision AssignedService.
Proof. solve_decision. Defined.
#[export] Instance AssignedInfo_eq_dec : EqDecision AssignedInfo.
Proof. solve_decision. Defined.
#[export] Instance FipInfo_eq_dec : EqDecision FipInfo.
Proof. solve_decision. Defined.
#[export] Instance QuotaStatus_eq_dec : EqDecision FloatingIPProjectQuotaStatus.
Proof. solve_decision. Defined.

(** ** Field updates *)

Definition set_Labels (m : ObjectMeta) (l : gomap string) : ObjectMeta :=
  mkMeta (Name m) (Namespace m) l (Annotations m) (Finalizers m) (ResourceVersion m)
    (CreationTimestamp m) (DeletionTimestamp m).
Definition set_Annotations (m : ObjectMeta) (l : gomap string) : ObjectMeta :=
  mkMeta (Name m) (Namespace m) (Labels m) l (Finalizers m) (ResourceVersion m)
    (CreationTimestamp m) (DeletionTimestamp m).
Definition set_Finalizers (m : ObjectMeta) (l : list string) : ObjectMeta :=
  mkMeta (Name m) (Namespace m) (Labels m) (Annotations m) l (ResourceVersion m)
    (CreationTimestamp m) (DeletionTimestamp m).

Definition set_fip_meta (f : FloatingIP) (m : ObjectMeta) : FloatingIP :=
  mkFIP m (fip_Spec f) (fip_Status f).
Definition set_fip_Status (f : FloatingIP) (s : FloatingIPStatus) : FloatingIP :=
  mkFIP (fip_meta f) (fip_Spec f) s.
Definition set_fip_IPAddr (f : FloatingIP) (ip : option string) : FloatingIP :=
  mkFIP (fip_meta f) (mkFIPSpec ip (fs_FloatingIPPool (fip_Spec f))) (fip_Status f).
Definition set_Assigned (f : FloatingIP) (a : option AssignedInfo) : FloatingIP :=
  let s := fip_Status f in set_fip_Status f (mkFIPStatus (st_IPAddr s) (State s) a (Conditions s)).
Definition set_Conditions (f : FloatingIP) (c : list Condition) : FloatingIP :=
  let s := fip_Status f in set_fip_Status f (mkFIPStatus (st_IPAddr s) (State s) (Assigned s) c).
Definition set_State (f : FloatingIP) (st : string) : FloatingIP :=
  let s := fip_Status f in set_fip_Status f (mkFIPStatus (st_IPAddr s) st (Assigned s) (Conditions s)).
Definition set_st_IPAddr (f : FloatingIP) (ip : string) : FloatingIP :=
  let s := fip_Status f in set_fip_Status f (mkFIPStatus ip (State s) (Assigned s) (Conditions s)).
Definition set_pool_Status (p : FloatingIPPool) (s : FloatingIPPoolStatus) : FloatingIPPool :=
  mkFIPPool (pool_meta p) (pool_Spec p) s.
Definition set_quota_Status (q : FloatingIPProjectQuota) (s : FloatingIPProjectQuotaStatus)
    : FloatingIPProjectQuota :=
  mkQuota (quota_meta q) (quota_Spec q) s.
Definition set_quota_meta (q : FloatingIPProjectQuota) (m : ObjectMeta) : FloatingIPProjectQuota :=
  mkQuota m (quota_Spec q) (quota_Status q).

(** ** Helpers every controller has a copy of *)

Definition containsString (slice : list string) (s : string) : bool :=
  existsb (λ item, bool_decide (item = s)) slice.

Definition removeString (slice : list string) (s : string) : list string :=
  filter (λ item, item ≠ s) slice.

Lemma containsString_true l s : containsString l s = true ↔ s ∈ l.
Proof.
  unfold containsString. rewrite existsb_exists. split.
  - intros (x & Hx & He). apply bool_decide_eq_true in He as <-. by apply list_elem_of_In.
  - intros Hs. exists s. split; [by apply list_elem_of_In | by apply bool_decide_eq_true].
Qed.

Lemma containsString_removeString l s : containsString (removeString l s) s = false.
Proof.
  apply not_true_iff_false. rewrite containsString_true. unfold removeString.
  rewrite list_elem_of_filter. tauto.
Qed.
