(* ===== verification/HttpServer.v ===== *)
(** The life of a server of [net/http]: its listener, the requests in flight, and the
    ways it ends.

    [Serve] accepts on a listener until the server is shut down; [Shutdown] closes
    the listener that is served, and waits for the requests in flight, for as long
    as its context allows; [Close] cuts them off.  A listener that [Serve] is given
    after a shutdown it closes at once. *)

From S2P Require Import Prelude Prog GoStd ApiTypes.

Record HttpServer := mkServer {
  bound : bool;                   (* its port accepts connections *)
  tracked : bool;                 (* [Serve] has the listener *)
  closing : bool;                 (* it was shut down or closed *)
  active : nat;                   (* requests in flight *)
  cut : nat                       (* requests whose connection was closed *)
}.

Definition new_server : HttpServer := mkServer false false false 0 0.

Inductive ServerCall : Type → Type :=
| Listen : ServerCall (option error)
| Track : ServerCall bool                            (* the start of [Serve] *)
| AcceptLoop : ServerCall (option error)             (* the rest of [Serve]; [None] is [ErrServerClosed] *)
| BeginShutdown : ServerCall unit
| AwaitIdle (after : time) : ServerCall bool         (* false: the context is over *)
| CloseServer : ServerCall unit.

Inductive server_answers : ∀ R, ServerCall R → HttpServer → R → HttpServer → Prop :=
| sa_listen v : bound v = false →
    server_answers _ Listen v None (mkServer true (tracked v) (closing v) (active v) (cut v))
| sa_listen_err v err : server_answers _ Listen v (Some err) v
| sa_track v : closing v = false →
    server_answers _ Track v true (mkServer (bound v) true false (active v) (cut v))
| sa_track_closed v : closing v = true →
    server_answers _ Track v false (mkServer false false true (active v) (cut v))
| sa_accept_closed v : closing v = true →
    server_answers _ AcceptLoop v None (mkServer false false true (active v) (cut v))
| sa_accept_err v err :
    server_answers _ AcceptLoop v (Some err) (mkServer false false (closing v) (active v) (cut v))
| sa_shutdown v :
    server_answers _ BeginShutdown v tt
      (mkServer (if tracked v then false else bound v) false true (active v) (cut v))
| sa_idle d v : active v = 0%nat → server_answers _ (AwaitIdle d) v true v
| sa_deadline d v : server_answers _ (AwaitIdle d) v false v
| sa_close v :
    server_answers _ CloseServer v tt
      (mkServer (if tracked v then false else bound v) false true 0 (active v + cut v)).

(** Requests come while the listener is served, and end. *)
Inductive server_env : HttpServer → HttpServer → Prop :=
| senv_arrives v : tracked v = true → bound v = true →
    server_env v (mkServer (bound v) (tracked v) (closing v) (S (active v)) (cut v))
| senv_ends v n : active v = S n → server_env v (mkServer (bound v) (tracked v) (closing v) n (cut v)).

(** The process ends: the port is closed, and the requests in flight are cut off. *)
Definition killed (v : HttpServer) : HttpServer := mkServer false false (closing v) 0 (active v + cut v).

(** ** What a server keeps *)

(** A server that is shut down serves no listener. *)
Definition server_ok (v : HttpServer) : Prop := closing v = true → tracked v = false.

(** From [v] to [v'] somebody else has used it: it stays closed, and then its requests
    only get fewer. *)
Record server_later (v v' : HttpServer) : Prop := {
  later_closing : closing v = true → closing v' = true;
  later_active : closing v = true → (active v' ≤ active v)%nat;
  later_cut : (cut v ≤ cut v')%nat
}.

#[export] Instance server_later_preorder : PreOrder server_later.
Proof.
  split; [by intros v; split|]. intros v1 v2 v3 [H1 H2 H3] [H4 H5 H6].
  split; [by auto | intros Hc; specialize (H2 Hc); specialize (H5 (H1 Hc)); lia | lia].
Qed.

Lemma server_env_later v v' : server_ok v → server_env v v' → server_later v v' ∧ server_ok v'.
Proof.
  intros Hok He. destruct He as [v Ht Hb | v n Ha].
  - split; [split; cbn; [done | intros Hc; by rewrite Hok in Ht | done] | exact Hok].
  - split; [split; cbn; [done | lia | done] | exact Hok].
Qed.

Lemma server_answers_later R (k : ServerCall R) v x v' : server_ok v → server_answers R k v x v' →
  server_later v v' ∧ server_ok v'.
Proof.
  unfold server_ok. destruct 2; (split; [split; cbn; first [done | congruence | lia] | cbn; try done; congruence]).
Qed.

Lemma killed_later v : server_later v (killed v) ∧ server_ok (killed v).
Proof. split; [split; cbn; first [done | lia] | done]. Qed.

(** A call other than [Close] cuts nothing off. *)
Lemma server_cut R (k : ServerCall R) v x v' : server_answers R k v x v' →
  match k with CloseServer => True | _ => cut v' = cut v end.
Proof. by destruct 1. Qed.

(** What its users look at. *)
Definition server_after {R} (k : ServerCall R) (v : HttpServer) (x : R) (v' : HttpServer) : Prop :=
  match k in ServerCall R return R → Prop with
  | Listen => λ x, match x with None => bound v' = true ∧ closing v' = closing v | Some _ => v' = v end
  | Track => λ x, x = true ∨ bound v' = false ∧ tracked v' = false ∧ closing v' = true
  | AcceptLoop => λ x, bound v' = false ∧ tracked v' = false ∧ (x = None → closing v' = true)
  | BeginShutdown => λ _, closing v' = true
  | AwaitIdle _ => λ x, v' = v ∧ (x = true → active v = 0%nat)
  | CloseServer => λ _, closing v' = true ∧ active v' = 0%nat
  end x.

Lemma server_answers_after R (k : ServerCall R) v x v' : server_answers R k v x v' → server_after k v x v'.
Proof. destruct 1; cbn; auto; by split. Qed.

(** [Serve] waits until the server is closed; nothing else waits for ever. *)
Definition serves_on {R} (k : ServerCall R) (v : HttpServer) : Prop :=
  match k with AcceptLoop => closing v = false | _ => False end.

Lemma server_answerable {R} (k : ServerCall R) v : ¬ serves_on k v → ∃ x v', server_answers R k v x v'.
Proof.
  intros Hk. destruct k.
  - eexists (Some (mkErr KOther "listen")), _. apply sa_listen_err.
  - destruct (closing v) eqn:Hc; eexists _, _; [by apply sa_track_closed | by apply sa_track].
  - eexists _, _. apply sa_accept_closed. by apply not_false_is_true.
  - eexists _, _. apply sa_shutdown.
  - eexists _, _. apply sa_deadline.
  - eexists _, _. apply sa_close.
Qed.

(** ** Calls, executed *)

(** [hint] chooses among the answers of a call. *)
Definition server_exec (hint : nat) {R} (k : ServerCall R) (v : HttpServer) : option (R * HttpServer) :=
  match k in ServerCall R return option (R * HttpServer) with
  | Listen => match hint with
      | O => if bound v then None else Some (None, mkServer true (tracked v) (closing v) (active v) (cut v))
      | _ => Some (Some (mkErr KOther "listen"), v)
      end
  | Track => Some (negb (closing v), if closing v then mkServer false false true (active v) (cut v)
      else mkServer (bound v) true false (active v) (cut v))
  | AcceptLoop => if closing v then Some (None, mkServer false false true (active v) (cut v)) else None
  | BeginShutdown => Some (tt, mkServer (if tracked v then false else bound v) false true (active v) (cut v))
  | AwaitIdle _ => match hint with
      | O => if (active v =? 0)%nat then Some (true, v) else None
      | _ => Some (false, v)
      end
  | CloseServer => Some (tt, mkServer (if tracked v then false else bound v) false true 0 (active v + cut v))
  end.

Lemma server_exec_sound hint R (k : ServerCall R) v x v' : server_exec hint k v = Some (x, v') → server_answers R k v x v'.
Proof.
  destruct k; cbn -[Nat.eqb]; intros He.
  - destruct hint; [destruct (bound v) eqn:Hb|]; simplify_eq; by constructor.
  - destruct (closing v) eqn:Hc; simplify_eq; by constructor.
  - destruct (closing v) eqn:Hc; simplify_eq. by constructor.
  - simplify_eq. by constructor.
  - destruct hint; [destruct (active v =? 0)%nat eqn:Ha|]; simplify_eq; constructor. by apply Nat.eqb_eq.
  - simplify_eq. by constructor.
Qed.
