(* ===== verification/Kube.v ===== *)
(** The Kubernetes API as the program sees it, and the state its controllers
    share.

    The API server, the client library and its informer caches and work queues
    are not part of the program: [KubeAPI] is an interface.  A client call is a
    value of [Call R], where [R] is the type of its result; an instance of
    [KubeAPI] says what a call returns and does to the cluster state [S].
    Nothing is assumed of [exec]: a call may fail at any time, an [Update] may
    be committed although it reports an error, a cache may be stale.

    The controllers run concurrently with one another and share the allocator.
    [others] is what they do between two operations of the code that is being
    modelled; theorems state as a hypothesis what they rely on.

    [World] also records every call the program makes, with the allocator at
    that moment and the result, so that properties can speak of what is written
    when. *)

From S2P Require Import Prelude GoStd NetIP NetIPFacts Ipam IpamSpec IpamCorrect ApiTypes.

(** What an informer hands to an event handler: an object, the last known state
    of a deleted one, which may be of another type, or something else. *)
Inductive Informed (T : Type) :=
| Obj (x : T)
| Tombstone (x : option T)
| Unknown.
Arguments Obj {T}.
Arguments Tombstone {T}.
Arguments Unknown {T}.

(** A project of Rancher: its objects live in a namespace of its own cluster,
    which other projects of that cluster share. *)
Record Project := mkProject { proj_Name : string; proj_Namespace : string }.

(** A watch event: an error, which may carry a status, or an object, which may
    be of another type. *)
Inductive WatchEvent :=
| WatchError (status : option error)
| WatchObject (fip : option FloatingIP).

(** ** Calls *)

Inductive Call : Type → Type :=
(* clientset, floating IPs *)
| GetFIP (ns name : string) : Call FloatingIP
| ListFIPs (ns : string) (matching : list (string * string)) : Call (list FloatingIP)
| CreateFIP (generateName : string) (fip : FloatingIP) : Call FloatingIP
| UpdateFIP (fip : FloatingIP) : Call FloatingIP
| UpdateStatusFIP (fip : FloatingIP) : Call FloatingIP
| ApplyFIPFinalizers (ns name : string) (finalizers : list string) : Call FloatingIP
| DeleteFIP (ns name : string) : Call unit
(* the events a watch of one floating IP delivers until it ends *)
| WatchFIP (ns name resourceVersion : string) : Call (list WatchEvent)
(* clientset, pools and quotas *)
| GetPool (name : string) : Call FloatingIPPool
| UpdateStatusPool (pool : FloatingIPPool) : Call FloatingIPPool
| GetQuota (name : string) : Call FloatingIPProjectQuota
| UpdateQuota (quota : FloatingIPProjectQuota) : Call FloatingIPProjectQuota
| UpdateStatusQuota (quota : FloatingIPProjectQuota) : Call FloatingIPProjectQuota
(* Rancher's projects, [None] if the list does not convert, and secrets *)
| ListProjects : Call (option (list Project))
| GetSecret (ns name : string) : Call (gmap string string)
(* the context of a request: [ctx.Err()], and a sleep, which fails with
   [ctx.Err()] if the context ends first *)
| CtxErr : Call unit
| SleepWithContext (delay : time) : Call unit
(* informer caches *)
| ListerGetFIP (ns name : string) : Call FloatingIP
| ListerListFIPs (selector : option (string * string)) : Call (list FloatingIP)
| ListerGetPool (name : string) : Call FloatingIPPool
| ListerGetQuota (name : string) : Call FloatingIPProjectQuota
(* work queues *)
| QueueAdd (key : string) : Call unit
| QueueAddRateLimited (key : string) : Call unit
| QueueAddAfter (key : string) (delay : time) : Call unit
| QueueForget (key : string) : Call unit
| QueueDone (key : string) : Call unit.

(** A call that was made: the allocator at that moment, the call, its result. *)
Record Event := mkEvent {
  ev_alloc : IPAllocator;
  ev_type : Type;
  ev_call : Call ev_type;
  ev_result : res ev_type
}.
Arguments mkEvent _ {ev_type} _ _.

(** The cache returned this list. *)
Definition listed (selector : option (string * string)) (fips : list FloatingIP) (ev : Event) : Prop :=
  match ev_call ev in Call T return res T → Prop with
  | ListerListFIPs sel => λ r, sel = selector ∧ r = Ok fips
  | _ => λ _, False
  end (ev_result ev).

Record World (S : Type) := mkWorld {
  kube : S;
  alloc : IPAllocator;
  retries : gmap string Z;     (* the quota controller's [cascadeRetries] *)
  events : list Event          (* newest first *)
}.
Arguments mkWorld {S}.
Arguments kube {S}.
Arguments alloc {S}.
Arguments retries {S}.
Arguments events {S}.

Class KubeAPI (S : Type) := {
  exec : ∀ {R : Type}, Call R → S → res R * S;
  others : S → IPAllocator → S * IPAllocator;
  Now : S → time * S;
  (* [rand.Int(rand.Reader, max)] *)
  rand_Int : Z → S → option Z * S;
  (* [cache.SplitMetaNamespaceKey] *)
  SplitMetaNamespaceKey : string → res (string * string);
  (* [retry.RetryOnConflict]: the backoff is a number of steps and a time *)
  RetryOnConflict : ∀ {A : Type}, (World S → res A * World S) → World S → res A * World S
}.

(** [RetryOnConflict] runs the function until it returns anything but a
    conflict, or gives up with the last conflict.  A variable that the closure
    of the source assigns when it succeeds is the result here. *)
Inductive retried {S A} (fn : M (World S) (res A)) : World S → res A → World S → Prop :=
| retried_last w r w' : fn w = (r, w') → retried fn w r w'
| retried_again w e w1 r w' :
    fn w = (Err e, w1) → IsConflict e = true → retried fn w1 r w' → retried fn w r w'.

Class RetrySpec (S : Type) `{KubeAPI S} : Prop :=
  RetryOnConflict_spec : ∀ A (fn : M (World S) (res A)) w,
    retried fn w (RetryOnConflict fn w).1 (RetryOnConflict fn w).2.

Section Kube.
Context {S : Type} `{HKube : KubeAPI S, HRange : MapRange, HText : NetErrText}.
#[local] Open Scope go_scope.

Definition interfere : M (World S) unit := λ w,
  let '(k, a) := others (kube w) (alloc w) in (tt, mkWorld k a (retries w) (events w)).

(** One client call, after whatever the rest of the system did meanwhile. *)
Definition api {R} (c : Call R) : M (World S) (res R) := λ w,
  let w := (interfere w).2 in
  let '(r, k) := exec c (kube w) in
  (r, mkWorld k (alloc w) (retries w) (mkEvent (alloc w) c r :: events w)).

(** One call on the shared allocator. *)
Definition ipam_call {R} (f : IPAllocator → R * IPAllocator) : M (World S) R := λ w,
  let w := (interfere w).2 in
  let '(r, a) := f (alloc w) in (r, mkWorld (kube w) a (retries w) (events w)).

Definition now : M (World S) time := λ w,
  let '(t, k) := Now (kube w) in (t, mkWorld k (alloc w) (retries w) (events w)).

Definition draw (max : Z) : M (World S) (option Z) := λ w,
  let '(n, k) := rand_Int max (kube w) in (n, mkWorld k (alloc w) (retries w) (events w)).

Definition panic (msg : string) : error := mkErr KPanic msg.

(** [pkg/util/util.go] *)
Definition charset : string := "abcdefghijklmnopqrstuvwxyzABCDEFGHIJKLMNOPQRSTUVWXYZ0123456789".

(** The string built so far is extended one character a round; if the random
    source fails the index is the length of the charset, out of range. *)
Fixpoint GenerateRandomString (length : nat) : M (World S) (res string) :=
  match length with
  | O => ret (Ok "")
  | Datatypes.S length =>
      let! n := draw (Z.of_nat (String.length charset)) in
      let i := match n with Some n => Z.to_nat n | None => String.length charset end in
      match String.get i charset with
      | None => ret (Err (panic "index out of range"))
      | Some c =>
          try! rest := GenerateRandomString length else e => ret (Err e) in
          ret (Ok (String c rest))
      end
  end.

(** ** [processNextWorkItem], the same in every controller

    [obj] is what [workqueue.Get] returned, [None] after shutdown; an item that
    is not a string is dropped.  An error requeues the item with a rate limit, a
    panic only runs the deferred [Done]. *)
Definition finish_item (key : string) (r : res unit) : M (World S) bool :=
  match r with
  | Err e =>
      if bool_decide (err_kind e = KPanic) then api (QueueDone key) ;;; ret true
      else api (QueueAddRateLimited key) ;;; api (QueueDone key) ;;; ret true
  | Ok _ => api (QueueForget key) ;;; api (QueueDone key) ;;; ret true
  end.

Definition processNextWorkItem (syncHandler : string → M (World S) (res unit))
    (obj : option (string + string)) : M (World S) bool :=
  match obj with
  | None => ret false
  | Some (inr other) =>
      api (QueueForget other) ;;; api (QueueDone other) ;;; ret true
  | Some (inl key) => let! r := syncHandler key in finish_item key r
  end.

(** Nothing at all is asked of the rest of the system. *)
Definition anything (a a' : IPAllocator) : Prop := True.

#[export] Instance anything_preorder : PreOrder anything.
Proof. by split. Qed.

Lemma others_anything (k : S) (a : IPAllocator) : anything a (others k a).2.
Proof. done. Qed.

(** ** Reasoning about interleaved code

    [rel] relates two states of the allocator between which only the rest of
    the system, or calls [rel] allows, were made.  [quiet R w w'] says that the
    code between [w] and [w'] changed the allocator within [rel] and that every
    call it made satisfies [R]; [quietly] lifts it to programs started in a
    state of the allocator that satisfies [Pre]. *)

Section Quiet.
Context (rel : IPAllocator → IPAllocator → Prop) `{!PreOrder rel}.
Context (Hothers : ∀ k a, rel a (others k a).2).

Definition quiet (R : Event → Prop) (w w' : World S) : Prop :=
  rel (alloc w) (alloc w') ∧ ∃ l, events w' = l ++ events w ∧ Forall R l.

Definition quietly {A} (Pre : IPAllocator → Prop) (R : Event → Prop) (m : M (World S) A) : Prop :=
  ∀ w, Pre (alloc w) → quiet R w (m w).2.

(** [Pre] survives whatever [rel] allows. *)
Definition closed (Pre : IPAllocator → Prop) : Prop := ∀ a a', Pre a → rel a a' → Pre a'.

Lemma quiet_refl R w : quiet R w w.
Proof. split; [done | by exists []]. Qed.

Lemma quiet_trans R w1 w2 w3 : quiet R w1 w2 → quiet R w2 w3 → quiet R w1 w3.
Proof.
  intros [H1 (l1 & He1 & Hl1)] [H2 (l2 & He2 & Hl2)]. split; [by etrans|].
  exists (l2 ++ l1). rewrite He2, He1, app_assoc. split; [done | by apply Forall_app].
Qed.

Lemma quiet_weaken (R R' : Event → Prop) w w' : (∀ e, R e → R' e) → quiet R w w' → quiet R' w w'.
Proof. intros Hi [H1 (l & He & Hl)]. split; [done|]. exists l. split; [done | by eapply Forall_impl]. Qed.

Lemma interfere_rel w : rel (alloc w) (alloc (interfere w).2) ∧ events (interfere w).2 = events w.
Proof.
  unfold interfere. pose proof (Hothers (kube w) (alloc w)) as Ho.
  destruct (others (kube w) (alloc w)). done.
Qed.

Lemma api_step {R} (c : Call R) w r w' :
  api c w = (r, w') → rel (alloc w) (alloc w') ∧ events w' = mkEvent (alloc w') c r :: events w.
Proof.
  unfold api. destruct (interfere_rel w) as [Hr He]. destruct (interfere w) as [[] w1]. simpl in *.
  destruct (exec c (kube w1)). intros ?. simplify_eq/=. by rewrite He.
Qed.

Lemma ipam_step {A} (f : IPAllocator → A * IPAllocator) w r w' :
  ipam_call f w = (r, w') → ∃ a, rel (alloc w) a ∧ f a = (r, alloc w') ∧ events w' = events w.
Proof.
  unfold ipam_call. destruct (interfere_rel w) as [Hr He]. destruct (interfere w) as [[] w1]. simpl in *.
  destruct (f (alloc w1)) eqn:Hf. intros ?. simplify_eq/=. eauto.
Qed.

Lemma quietly_ret {A} Pre R (x : A) : quietly Pre R (ret x).
Proof. intros w _. apply quiet_refl. Qed.

Lemma quietly_bind {A B} Pre R (m : M (World S) A) (f : A → M (World S) B) :
  closed Pre → quietly Pre R m → (∀ x, quietly Pre R (f x)) → quietly Pre R (bind m f).
Proof.
  intros Hc Hm Hf w Hw. unfold bind. specialize (Hm w Hw). destruct (m w) as [x w1]. simpl in Hm.
  eapply quiet_trans; [done|]. apply Hf. eapply Hc; [done | apply Hm].
Qed.

Lemma quietly_api {A} Pre R (c : Call A) :
  closed Pre → (∀ a r, Pre a → R (mkEvent a c r)) → quietly Pre R (api c).
Proof.
  intros Hc HR w Hw. destruct (api c w) as [r w'] eqn:Ha. apply api_step in Ha as [Hr He]. simpl.
  split; [done|]. exists [mkEvent (alloc w') c r]. split; [done|]. constructor; [|done].
  apply HR. by eapply Hc.
Qed.

Lemma quietly_ipam {A} Pre R (f : IPAllocator → A * IPAllocator) :
  closed Pre → (∀ a, Pre a → rel a (f a).2) → quietly Pre R (ipam_call f).
Proof.
  intros Hc Hf w Hw. destruct (ipam_call f w) as [r w'] eqn:Ha.
  apply ipam_step in Ha as (a & Hr & He & Hev). simpl. split.
  - etrans; [done|]. specialize (Hf a). rewrite He in Hf. apply Hf. by eapply Hc.
  - exists []. by rewrite Hev.
Qed.

Lemma quietly_now Pre R : quietly Pre R now.
Proof. intros w _. unfold now. destruct (Now (kube w)). split; [done | by exists []]. Qed.

Lemma quietly_draw Pre R max : quietly Pre R (draw max).
Proof. intros w _. unfold draw. destruct (rand_Int max (kube w)). split; [done | by exists []]. Qed.

Lemma quietly_random Pre R n : closed Pre → quietly Pre R (GenerateRandomString n).
Proof.
  intros Hc. induction n as [|n IH]; cbn [GenerateRandomString]; [apply quietly_ret|].
  apply quietly_bind; [done | apply quietly_draw|]. intros d. case_match; [|apply quietly_ret].
  apply quietly_bind; [done | done|]. intros [?|?]; apply quietly_ret.
Qed.

Lemma quietly_retry `{!RetrySpec S} {A} Pre R (fn : M (World S) (res A)) :
  closed Pre → quietly Pre R fn → quietly Pre R (RetryOnConflict fn).
Proof.
  intros Hc Hfn w Hw. pose proof (RetryOnConflict_spec A fn w) as Hret.
  induction Hret as [w r w' Hl|w e w1 r w' Hl _ _ IH].
  - specialize (Hfn w Hw). by rewrite Hl in Hfn.
  - specialize (Hfn w Hw). rewrite Hl in Hfn. eapply quiet_trans; [done|].
    apply IH. eapply Hc; [done | apply Hfn].
Qed.

End Quiet.
End Kube.
