(* ===== verification/ServiceLabels.v ===== *)
(** The indexed service labels of a floating IP,
    [pkg/controller/floatingip/service_labels.go]: reading them back from the
    label map, in whatever order Go iterates over it. *)

From Stdlib Require Import Ascii Decimal DecimalString DecimalZ.
From S2P Require Import Prelude GoStd ApiTypes.

Definition serviceIndexLabelPrefix : string := "rancher.k8s.binbash.org/service-".

(** ** The regular expression [service-(\d+)-(namespace|name)] *)

Definition is_digit (c : ascii) : bool :=
  (48 <=? nat_of_ascii c)%nat && (nat_of_ascii c <=? 57)%nat.

(** The longest prefix of digits, and the rest. *)
Fixpoint span_digits (s : string) : string * string :=
  match s with
  | String c s' =>
      if is_digit c then let '(d, rest) := span_digits s' in (String c d, rest) else ("", s)
  | EmptyString => ("", "")
  end.

(** A match at the start of [s]: the two groups. *)
Definition match_here (s : string) : option (string * string) :=
  if HasPrefix s "service-" then
    let '(d, rest) := span_digits (TrimPrefix s "service-") in
    if bool_decide (d = "") then None
    else if HasPrefix rest "-namespace" then Some (d, "namespace")
    else if HasPrefix rest "-name" then Some (d, "name")
    else None
  else None.

(** The leftmost match. *)
Fixpoint FindStringSubmatch (s : string) : option (string * string) :=
  match match_here s with
  | Some r => Some r
  | None => match s with String _ s' => FindStringSubmatch s' | EmptyString => None end
  end.

(** ** Parsing the labels *)

Definition no_service : AssignedService := mkSvc "" "".

(** One round of the loop over the labels.  [fmt.Sscanf] leaves the index 0
    when the number does not fit an [int]. *)
Definition add_service_label (serviceMap : gmap Z AssignedService) (label : string * string)
    : gmap Z AssignedService :=
  let '(key, value) := label in
  if negb (HasPrefix key serviceIndexLabelPrefix) then serviceMap
  else match FindStringSubmatch key with
  | None => serviceMap
  | Some (digits, field) =>
      let idx := default 0 (atoi digits) in
      let service := default no_service (serviceMap !! idx) in
      let service :=
        if bool_decide (field = "namespace") then mkSvc value (ServiceName service)
        else if bool_decide (field = "name") then mkSvc (ServiceNamespace service) value
        else service in
      <[idx := service]> serviceMap
  end.

Definition nonempty_service (svc : AssignedService) : bool :=
  negb (bool_decide (ServiceNamespace svc = "")) || negb (bool_decide (ServiceName svc = "")).

Definition idx_le (a b : Z * AssignedService) : Prop := a.1 <= b.1.
#[export] Instance idx_le_dec a b : Decision (idx_le a b).
Proof. unfold idx_le. apply _. Defined.

(** [labels[k]] for every index in ascending order, without the empty ones. *)
Definition sorted_services (serviceMap : gmap Z AssignedService) : list AssignedService :=
  filter (λ svc, nonempty_service svc = true) (merge_sort idx_le (map_to_list serviceMap)).*2.

Definition parseServicesFromLabels `{MapRange} (labels : gomap string) : list AssignedService :=
  match labels with
  | None => []
  | Some labels => sorted_services (foldl add_service_label ∅ (range labels))
  end.

(** ** Describing services *)

Definition describe_one (svc : AssignedService) : list string :=
  if negb (bool_decide (ServiceNamespace svc = "")) && negb (bool_decide (ServiceName svc = ""))
  then [ServiceNamespace svc +:+ "/" +:+ ServiceName svc]
  else if negb (bool_decide (ServiceName svc = "")) then [ServiceName svc]
  else if negb (bool_decide (ServiceNamespace svc = "")) then [ServiceNamespace svc]
  else [].

Definition describeServices (services : list AssignedService) : string :=
  match services with
  | [] => "no services"
  | _ =>
      match concat (describe_one <$> services) with
      | [] => "no services"
      | [part] => part
      | parts => "services " +:+ Join parts ", "
      end
  end.

(** ** Specification *)

(** The labels of service [i], as [applyFIPRequestLabels] writes them. *)
Definition ns_key (i : Z) : string := serviceIndexLabelPrefix +:+ itoa i +:+ "-namespace".
Definition name_key (i : Z) : string := serviceIndexLabelPrefix +:+ itoa i +:+ "-name".

(** Every service label is one of those. *)
Definition canonical_labels (m : gmap string string) : Prop :=
  ∀ k, is_Some (m !! k) → HasPrefix k serviceIndexLabelPrefix = true →
    ∃ i, 0 <= i < two63 ∧ (k = ns_key i ∨ k = name_key i).

Definition service_at (m : gmap string string) (i : Z) : AssignedService :=
  mkSvc (default "" (m !! ns_key i)) (default "" (m !! name_key i)).

(** ** Lemmas *)

Lemma span_digits_app d rest :
  Forall (λ c, is_digit c = true) (String.list_ascii_of_string d) →
  (∀ c s, rest = String c s → is_digit c = false) →
  span_digits (d +:+ rest) = (d, rest).
Proof.
  intros Hd Hr. induction d as [|c d IH].
  - rewrite str_app_nil_l. destruct rest as [|c s]; [done|]. simpl. by rewrite (Hr c s).
  - rewrite str_app_cons. simpl in Hd. apply Forall_cons in Hd as [Hc Hd]. cbn [span_digits].
    by rewrite Hc, IH.
Qed.

Lemma string_of_uint_digits u :
  Forall (λ c, is_digit c = true) (String.list_ascii_of_string (NilEmpty.string_of_uint u)).
Proof. induction u; simpl; constructor; done. Qed.

Lemma itoa_digits i :
  0 <= i → Forall (λ c, is_digit c = true) (String.list_ascii_of_string (itoa i)) ∧ itoa i ≠ "".
Proof.
  intros Hi. unfold itoa. destruct i as [|p|p]; [by vm_compute; split; [repeat constructor|] | | lia].
  simpl. pose proof (to_uint_nonnil p) as Hn. unfold NilZero.string_of_uint. split.
  - case_match; simplify_eq; try done; apply string_of_uint_digits.
  - by destruct (Pos.to_uint p).
Qed.

Lemma find_skip c s :
  HasPrefix (String c s) "service-" = false → FindStringSubmatch (String c s) = FindStringSubmatch s.
Proof. intros Hp. cbn [FindStringSubmatch]. unfold match_here. by rewrite Hp. Qed.

Lemma match_service i suf field :
  0 <= i →
  (suf = "-namespace" ∧ field = "namespace" ∨ suf = "-name" ∧ field = "name") →
  FindStringSubmatch (serviceIndexLabelPrefix +:+ itoa i +:+ suf) = Some (itoa i, field).
Proof.
  intros Hi Hf. destruct (itoa_digits i Hi) as [Hd Hne].
  assert (match_here ("service-" +:+ itoa i +:+ suf) = Some (itoa i, field)) as Hm.
  { unfold match_here. rewrite HasPrefix_app, TrimPrefix_app, span_digits_app; [|done|].
    - rewrite bool_decide_false by done.
      destruct Hf as [[-> ->]|[-> ->]]; reflexivity.
    - intros c s ->. destruct Hf as [[Hs _]|[Hs _]]; by simplify_eq. }
  set (t := "service-" +:+ itoa i +:+ suf) in *.
  change (serviceIndexLabelPrefix +:+ itoa i +:+ suf) with ("rancher.k8s.binbash.org/" +:+ t).
  assert (∃ r, t = String "s" r) as [r Hr] by (eexists; reflexivity).
  assert (FindStringSubmatch t = Some (itoa i, field)) as Ht.
  { rewrite Hr in *. cbn [FindStringSubmatch]. by rewrite Hm. }
  rewrite <- Ht. rewrite !str_app_cons, str_app_nil_l.
  repeat (rewrite find_skip by reflexivity). done.
Qed.

Lemma itoa_inj i j : itoa i = itoa j → i = j.
Proof.
  unfold itoa. intros Hij.
  assert (∀ n, NilZero.int_of_string (NilZero.string_of_int (Z.to_int n)) = Some (Z.to_int n)) as Hs.
  { intros n. apply NilZero.isi; destruct n; simpl; try done; injection; apply to_uint_nonnil. }
  assert (Some (Z.to_int i) = Some (Z.to_int j)) as Heq by (by rewrite <- !Hs, Hij).
  injection Heq as Heq. rewrite <- (DecimalZ.of_to i), <- (DecimalZ.of_to j). by rewrite Heq.
Qed.

Lemma ns_key_inj i j : ns_key i = ns_key j → i = j.
Proof. intros H%str_app_inj_l%str_app_inj_r. by apply itoa_inj. Qed.

Lemma name_key_inj i j : name_key i = name_key j → i = j.
Proof. intros H%str_app_inj_l%str_app_inj_r. by apply itoa_inj. Qed.

Lemma ns_name_key i j : 0 <= i → 0 <= j → ns_key i ≠ name_key j.
Proof.
  intros Hi Hj He.
  pose proof (match_service i "-namespace" "namespace" Hi (or_introl (conj eq_refl eq_refl))) as H1.
  pose proof (match_service j "-name" "name" Hj (or_intror (conj eq_refl eq_refl))) as H2.
  unfold ns_key, name_key in He. rewrite He, H2 in H1. by simplify_eq.
Qed.

Lemma add_service_label_key sm i v :
  0 <= i < two63 →
  let svc := default no_service (sm !! i) in
  add_service_label sm (ns_key i, v) = <[i := mkSvc v (ServiceName svc)]> sm ∧
  add_service_label sm (name_key i, v) = <[i := mkSvc (ServiceNamespace svc) v]> sm.
Proof.
  intros Hi. unfold add_service_label.
  assert (∀ t, HasPrefix (serviceIndexLabelPrefix +:+ t) serviceIndexLabelPrefix = true) as Hp
    by (intros; apply HasPrefix_app).
  unfold ns_key, name_key. rewrite !Hp.
  rewrite (match_service i "-namespace" "namespace"), (match_service i "-name" "name") by (auto; lia).
  rewrite atoi_itoa by (unfold two63 in *; lia). by split.
Qed.

(** The map the loop builds from a list of labels. *)
Lemma fold_service_labels (l : list (string * string)) :
  NoDup l.*1 → canonical_labels (list_to_map l) →
  let sm := foldl add_service_label ∅ l in
  (∀ i, is_Some (sm !! i) → 0 <= i < two63) ∧
  ∀ i, 0 <= i < two63 →
    sm !! i = if is_some ((list_to_map l : gmap string string) !! ns_key i)
                 || is_some ((list_to_map l : gmap string string) !! name_key i)
              then Some (service_at (list_to_map l) i) else None.
Proof.
  induction l as [|[k v] l IH] using rev_ind; intros Hnd Hcan.
  { simpl. split; [by intros i [? ?] | done]. }
  rewrite fmap_app in Hnd. apply NoDup_app in Hnd as (Hnd & Hni & _). simpl in Hni.
  assert ((list_to_map (l ++ [(k, v)]) : gmap string string) = <[k := v]> (list_to_map l)) as Hlm.
  { apply list_to_map_snoc. intros Hk. apply (Hni k); [done | set_solver]. }
  assert ((list_to_map l : gmap string string) !! k = None) as Hkn.
  { apply not_elem_of_list_to_map_1. intros Hk. apply (Hni k); [done | set_solver]. }
  assert (canonical_labels (list_to_map l)) as Hcan'.
  { intros k' Hk' Hp. apply Hcan; [|done]. rewrite Hlm. destruct (decide (k' = k)) as [->|].
    - by rewrite Hkn in Hk'; destruct Hk'.
    - by rewrite lookup_insert_ne. }
  destruct (IH Hnd Hcan') as [IH1 IH2]. rewrite foldl_snoc. cbn zeta. rewrite Hlm.
  set (sm := foldl add_service_label ∅ l) in *. clearbody sm.
  destruct (HasPrefix k serviceIndexLabelPrefix) eqn:Hp.
  - destruct (Hcan k) as (j & Hj & Hk); [rewrite Hlm, lookup_insert_eq; by eexists | done |].
    destruct (add_service_label_key sm j v Hj) as [Hadd1 Hadd2].
    pose proof (IH2 j Hj) as Hsj. unfold service_at in *.
    destruct Hk as [-> | ->]; [rewrite Hadd1 | rewrite Hadd2]; rewrite Hkn in Hsj.
    all: split; [intros i; destruct (decide (i = j)) as [->|];
      [done | rewrite lookup_insert_ne by done; apply IH1]|].
    all: intros i Hi; destruct (decide (i = j)) as [->|Hne].
    + rewrite !lookup_insert_eq, lookup_insert_ne by (apply ns_name_key; lia). simpl in *. rewrite Hsj.
      by destruct (list_to_map l !! name_key j).
    + rewrite lookup_insert_ne by done. rewrite (lookup_insert_ne _ _ (ns_key i)) by (intros ?%ns_key_inj; done).
      rewrite (lookup_insert_ne _ _ (name_key i)) by (apply ns_name_key; lia). by apply IH2.
    + rewrite !lookup_insert_eq, lookup_insert_ne by (intros ?%eq_sym; revert H; apply ns_name_key; lia).
      simpl in *. rewrite Hsj, orb_true_r, orb_false_r.
      by destruct (list_to_map l !! ns_key j).
    + rewrite lookup_insert_ne by done.
      rewrite (lookup_insert_ne _ _ (name_key i)) by (intros ?%name_key_inj; done).
      rewrite (lookup_insert_ne _ _ (ns_key i)) by (intros ?%eq_sym; revert H; apply ns_name_key; lia). by apply IH2.
  - unfold add_service_label. rewrite Hp. cbn [negb].
    assert (∀ i, k ≠ ns_key i ∧ k ≠ name_key i) as Hk.
    { intros i. split; intros ->; unfold ns_key, name_key in Hp; by rewrite HasPrefix_app in Hp. }
    split; [done|]. intros i Hi. destruct (Hk i). unfold service_at.
    rewrite !lookup_insert_ne by done. by apply IH2.
Qed.

Lemma sorted_idx_lt (l : list (Z * AssignedService)) :
  StronglySorted idx_le l → NoDup l.*1 → StronglySorted Z.lt l.*1.
Proof.
  induction 1 as [|[i svc] l Hs IH Hle]; simpl; intros Hnd; constructor.
  - apply NoDup_cons in Hnd as [_ Hnd]. by apply IH.
  - apply NoDup_cons in Hnd as [Hni _]. rewrite Forall_forall in Hle. apply Forall_forall.
    intros j ((j' & svc') & -> & Hj)%list_elem_of_fmap. specialize (Hle _ Hj). unfold idx_le in Hle.
    simpl in *. assert (i ≠ j'); [|lia]. intros ->. apply Hni, list_elem_of_fmap. by exists (j', svc').
Qed.

Section Parse.
Context `{MapRange}.

#[local] Instance idx_le_total : stdpp.base.Total idx_le.
Proof. intros a b. unfold idx_le. lia. Qed.
#[local] Instance idx_le_trans : Transitive idx_le.
Proof. intros a b c. unfold idx_le. lia. Qed.

(** The services are those of an ascending list of indices. *)
Lemma parse_indices m :
  canonical_labels m →
  ∃ idxs, StronglySorted Z.lt idxs ∧
    (∀ i, i ∈ idxs ↔ 0 <= i < two63 ∧ (is_Some (m !! ns_key i) ∨ is_Some (m !! name_key i))) ∧
    parseServicesFromLabels (Some m) =
      filter (λ svc, nonempty_service svc = true) (service_at m <$> idxs).
Proof.
  intros Hcan. cbn [parseServicesFromLabels].
  destruct (fold_service_labels (range m)) as [H1 H2]; [apply NoDup_range_fst | by rewrite list_to_map_range|].
  rewrite list_to_map_range in H2. set (sm := foldl _ _ _) in *. clearbody sm.
  set (l := merge_sort idx_le (map_to_list sm)).
  assert (∀ e, e ∈ l ↔ sm !! e.1 = Some e.2) as Hl.
  { intros [i svc]. unfold l. rewrite (merge_sort_Permutation idx_le). apply elem_of_map_to_list. }
  assert (∀ i, is_Some (sm !! i) ↔ 0 <= i < two63 ∧ (is_Some (m !! ns_key i) ∨ is_Some (m !! name_key i))) as Hsm.
  { intros i. split.
    - intros Hi. pose proof (H1 i Hi) as Hr. split; [done|]. rewrite H2 in Hi by done.
      rewrite <- !is_some_true. destruct (is_some (m !! ns_key i)), (is_some (m !! name_key i)); auto.
      by destruct Hi.
    - intros [Hi Hk]. rewrite H2 by done. rewrite <- !is_some_true in Hk.
      destruct Hk as [-> | ->]; rewrite ?orb_true_r; by eexists. }
  exists l.*1. split_and!.
  - apply sorted_idx_lt; [apply StronglySorted_merge_sort; apply _|].
    unfold l. rewrite (merge_sort_Permutation idx_le). apply NoDup_fst_map_to_list.
  - intros i. rewrite <- Hsm, list_elem_of_fmap. split.
    + intros ([i' svc] & -> & Hi%Hl). by eexists.
    + intros [svc Hi]. exists (i, svc). split; [done | by apply Hl].
  - unfold sorted_services. f_equal. fold l. rewrite <- list_fmap_compose.
    assert (Forall (λ e, e ∈ l) l) as Hall by by apply Forall_forall.
    apply list_fmap_ext. intros n [i svc] Hn. apply list_elem_of_lookup_2, Hl in Hn. simpl in *.
    assert (0 <= i < two63) as Hi by (apply H1; by eexists). rewrite H2 in Hn by done.
    destruct (_ || _); by simplify_eq.
Qed.
(** whatever order Go iterates over the labels in, the parsed services are
    those of the service indices present, in ascending order of the index, each
    with the namespace and the name its two labels record, and without the
    services whose labels are both empty. *)
Theorem parseServicesFromLabels_correct m :
  canonical_labels m →
  ∃ idxs, StronglySorted Z.lt idxs ∧
    (∀ i, i ∈ idxs ↔ 0 <= i < two63 ∧ (is_Some (m !! ns_key i) ∨ is_Some (m !! name_key i))) ∧
    parseServicesFromLabels (Some m) =
      filter (λ svc, nonempty_service svc = true) (service_at m <$> idxs).
Proof. apply parse_indices. Qed.
End Parse.

Definition demo_labels : gmap string string :=
  <[ns_key 2 := "ns2"]> (<[name_key 2 := "web"]> (<[name_key 10 := "db"]>
  {["rancher.k8s.binbash.org/project-name" := "p1"]})).

Lemma parseServicesFromLabels_correct_witness :
  ∃ idxs, @parseServicesFromLabels sorted_range (Some demo_labels) =
      filter (λ svc, nonempty_service svc = true) (service_at demo_labels <$> idxs) ∧
    @parseServicesFromLabels sorted_range (Some demo_labels) = [mkSvc "ns2" "web"; mkSvc "" "db"].
Proof.
  destruct (@parseServicesFromLabels_correct sorted_range demo_labels) as (idxs & _ & _ & He).
  - intros k Hk Hp. unfold demo_labels in Hk. rewrite !lookup_insert_is_Some in Hk.
    destruct Hk as [<-|[_ [<-|[_ [<-|[_ Hk]]]]]].
    + exists 2. split; [unfold two63; lia | by left].
    + exists 2. split; [unfold two63; lia | by right].
    + exists 10. split; [unfold two63; lia | by right].
    + apply lookup_singleton_is_Some in Hk as <-. discriminate Hp.
  - exists idxs. split; [exact He | vm_compute; reflexivity].
Defined.
