(* ===== verification/FipController.v ===== *)
(** The floating IP controller, [pkg/controller/floatingip/controller.go].

    Each method is a program in the state monad over [World]; a closure passed
    to [RetryOnConflict] is a definition of its own.  [runtime.HandleError]
    and log lines are left out.  A method that returns [nil] after handling an
    error returns [Ok tt].

    The theorems are about the claims on the allocator.  They hold for every
    cluster, every interleaving with the rest of the system that respects the
    claims of the floating IP being processed ([rely]), and whatever calls fail. *)

From S2P Require Import Prelude GoStd NetIP NetIPFacts Ipam IpamSpec IpamCorrect ApiTypes Kube ServiceLabels.

Definition finalizerName : string := "rancher.k8s.binbash.org/floatingip-cleanup".
Definition projectNameLabel : string := "rancher.k8s.binbash.org/project-name".
Definition floatingipGroupLabel : string := "rancher.k8s.binbash.org/floatingip-group".
Definition clusterNameLabel : string := "rancher.k8s.binbash.org/cluster-name".
Definition maxConditions : Z := 30.

Definition fip_ns (fip : FloatingIP) : string := Namespace (fip_meta fip).
Definition fip_name (fip : FloatingIP) : string := Name (fip_meta fip).
Definition fip_label (fip : FloatingIP) (k : string) : string := mget (Labels (fip_meta fip)) k.
Definition fip_pool (fip : FloatingIP) : string := fs_FloatingIPPool (fip_Spec fip).

(** The owner key of the claims of a floating IP. *)
Definition fipOwner (fip : FloatingIP) : string := fip_ns fip +:+ "/" +:+ fip_name fip.

(** The quota status of one pool, unless absent or nil. *)
Definition pool_info (q : FloatingIPProjectQuota) (poolName : string) : option FipInfo :=
  match mlookup (FloatingIPs (quota_Status q)) poolName with Some (Some fi) => Some fi | _ => None end.

Definition set_pool_info (q : FloatingIPProjectQuota) (poolName : string) (fi : FipInfo)
    : FloatingIPProjectQuota :=
  set_quota_Status q (mkQuotaStatus
    (Some (<[poolName := Some fi]> (default ∅ (FloatingIPs (quota_Status q)))))).

Definition cluster_of (fip : FloatingIP) : string :=
  match Assigned (fip_Status fip) with
  | Some a => if bool_decide (ClusterName a = "") then "Unassigned" else ClusterName a
  | None => "Unassigned"
  end.

(** The parts of two conditions that count as the same condition. *)
Definition same_condition (c d : Condition) : bool :=
  bool_decide (Type_ c = Type_ d) && bool_decide (CStatus c = CStatus d) &&
  bool_decide (Reason c = Reason d) && bool_decide (Message c = Message d).

Definition repeats_last (conditions : list Condition) (newCondition : Condition) : bool :=
  match last conditions with
  | Some c => same_condition c newCondition
  | None => false
  end.

Definition stamp (c : Condition) (t : time) : Condition :=
  mkCond (Type_ c) (CStatus c) (Reason c) (Message c) t.

Definition assigned_condition (services : list AssignedService) (cluster : string) : Condition :=
  mkCond "Ready" "True" "IPAssigned"
    ("IP is assigned to " +:+ describeServices services +:+ " in cluster " +:+ cluster +:+ ".") 0.

Section FipController.
Context {S : Type} `{HKube : KubeAPI S, HRange : MapRange, HText : NetErrText}.
#[local] Open Scope go_scope.

Definition setCondition (conditions : list Condition) (newCondition : Condition)
    : M (World S) (list Condition) :=
  if repeats_last conditions newCondition then ret conditions
  else
    let! t := now in
    let conditions :=
      if maxConditions <=? Z.of_nat (length conditions) then tail conditions else conditions in
    ret (conditions ++ [stamp newCondition t]).

(** ** Keeping an assigned floating IP up to date *)

Definition sync_project_cluster (projectName poolName ipAddr newClusterName : string)
    : M (World S) (res unit) :=
  try! currentProjectConfig := api (GetQuota projectName) else errGet => ret (Err errGet) in
  match pool_info currentProjectConfig poolName with
  | Some fi =>
      match fi_Allocated fi with
      | Some allocated =>
          try! _q := api (UpdateStatusQuota (set_pool_info currentProjectConfig poolName
            (mkFipInfo (fi_Family fi) (Some (<[ipAddr := newClusterName]> allocated)) (fi_Used fi))))
          else errUpdate => ret (Err errUpdate) in ret (Ok tt)
      | None => ret (Ok tt)
      end
  | None => ret (Ok tt)
  end.

Definition clear_assigned (fip : FloatingIP) : M (World S) (res unit) :=
  try! currentFip := api (GetFIP (fip_ns fip) (fip_name fip)) else errGet => ret (Err errGet) in
  let fipCopy := set_Assigned currentFip None in
  let condition := mkCond "Ready" "True" "IPUnassigned" "IP is unassigned from any service." 0 in
  let! conditions := setCondition (Conditions (fip_Status fipCopy)) condition in
  try! _f := api (UpdateStatusFIP (set_Conditions fipCopy conditions))
  else updateErr => ret (Err updateErr) in ret (Ok tt).

Definition set_assigned (fip : FloatingIP) (floatingIPGroup sharedKey : string)
    : M (World S) (res unit) :=
  try! currentFip := api (GetFIP (fip_ns fip) (fip_name fip)) else errGet => ret (Err errGet) in
  let services := parseServicesFromLabels (Labels (fip_meta currentFip)) in
  let fipCopy := set_Assigned currentFip (Some (mkAssigned (fip_label currentFip clusterNameLabel)
    (fip_label currentFip projectNameLabel) floatingIPGroup sharedKey services)) in
  let! conditions := setCondition (Conditions (fip_Status fipCopy))
    (assigned_condition services (fip_label currentFip clusterNameLabel)) in
  try! _f := api (UpdateStatusFIP (set_Conditions fipCopy conditions))
  else updateErr => ret (Err updateErr) in ret (Ok tt).

Definition with_services (a : AssignedInfo) (services : list AssignedService) : AssignedInfo :=
  mkAssigned (ClusterName a) (ProjectName a) (FloatingIPGroup a) (SharedKey a) services.

(** [cluster + "-" + random], when the floating IP is in a group. *)
Definition shared_key (group cluster : string) : M (World S) (res string) :=
  if bool_decide (group = "") then ret (Ok "")
  else
    try! r := GenerateRandomString 12 else e => ret (Err e) in
    ret (Ok (cluster +:+ "-" +:+ r)).

(** The assignment to which the services are added: the current one, or one
    rebuilt from the live labels if it was cleared concurrently. *)
Definition assigned_base (currentFip : FloatingIP) : M (World S) (res AssignedInfo) :=
  match Assigned (fip_Status currentFip) with
  | Some a => ret (Ok a)
  | None =>
      try! sharedKey := shared_key (fip_label currentFip floatingipGroupLabel)
        (fip_label currentFip clusterNameLabel) else e => ret (Err e) in
      ret (Ok (mkAssigned (fip_label currentFip clusterNameLabel)
        (fip_label currentFip projectNameLabel) (fip_label currentFip floatingipGroupLabel)
        sharedKey []))
  end.

Definition update_services (fip : FloatingIP) : M (World S) (res unit) :=
  try! currentFip := api (GetFIP (fip_ns fip) (fip_name fip)) else errGet => ret (Err errGet) in
  let services := parseServicesFromLabels (Labels (fip_meta currentFip)) in
  try! base := assigned_base currentFip else e => ret (Err e) in
  let fipCopy := set_Assigned currentFip (Some (with_services base services)) in
  let! conditions := setCondition (Conditions (fip_Status fipCopy))
    (assigned_condition services (fip_label currentFip clusterNameLabel)) in
  try! _f := api (UpdateStatusFIP (set_Conditions fipCopy conditions))
  else updateErr => ret (Err updateErr) in ret (Ok tt).

(** [RetryOnConflict] with the error wrapped. *)
Definition retry_wrap (msg : string) (fn : M (World S) (res unit)) : M (World S) (res unit) :=
  try! _u := RetryOnConflict fn else e => ret (Err (wrapf msg e)) in ret (Ok tt).

(** [if cond { body }] where an error of the body is returned. *)
Definition when_ (cond : bool) (body : M (World S) (res unit)) : M (World S) (res unit) :=
  if cond then body else ret (Ok tt).

Definition reconcile_assigned (fip : FloatingIP) : M (World S) (res unit) :=
  match mlookup (Labels (fip_meta fip)) projectNameLabel with
  | None => ret (Err (errorf ("fip " +:+ fipOwner fip +:+ " does not have project label '"
              +:+ projectNameLabel +:+ "'")))
  | Some projectName =>
      try! projectConfig := api (ListerGetQuota projectName) else err =>
        (if IsNotFound err then ret (Ok tt) else ret (Err err)) in
      let poolName := fip_pool fip in
      let ipAddr := st_IPAddr (fip_Status fip) in
      let currentClusterNameInProject :=
        match pool_info projectConfig poolName with
        | Some fi => mget (fi_Allocated fi) ipAddr
        | None => ""
        end in
      let newClusterName := cluster_of fip in
      try! _u := when_ (negb (bool_decide (currentClusterNameInProject = newClusterName)))
        (retry_wrap ("failed to update project config status for fip " +:+ fipOwner fip)
          (sync_project_cluster projectName poolName ipAddr newClusterName))
      else e => ret (Err e) in
      if negb (mhas (Labels (fip_meta fip)) clusterNameLabel) then
        retry_wrap ("failed to update fip status for fip " +:+ fipOwner fip) (clear_assigned fip)
      else match Assigned (fip_Status fip) with
      | None =>
          let floatingIPGroup := fip_label fip floatingipGroupLabel in
          try! sharedKey := shared_key floatingIPGroup (fip_label fip clusterNameLabel)
          else e => ret (Err e) in
          retry_wrap ("failed to update fip status for fip " +:+ fipOwner fip)
            (set_assigned fip floatingIPGroup sharedKey)
      | Some _ =>
          retry_wrap ("failed to update fip services for fip " +:+ fipOwner fip) (update_services fip)
      end
  end.

(** ** Allocating an address *)

Definition updateFipStatusWithError (fip : FloatingIP) (reason message : string)
    : M (World S) (res unit) :=
  let condition := mkCond "Ready" "False" reason message 0 in
  if bool_decide (State (fip_Status fip) = "Error")
     && repeats_last (Conditions (fip_Status fip)) condition
  then ret (Ok tt)
  else
    let fipCopy := set_State fip "Error" in
    let! conditions := setCondition (Conditions (fip_Status fipCopy)) condition in
    try! _f := api (UpdateStatusFIP (set_Conditions fipCopy conditions))
    else err => ret (Err (wrapf "failed to update fip status with error" err)) in
    ret (Ok tt).

(** The address asked for; [""] asks for any. *)
Definition requested_ip (fip : FloatingIP) : string := default "" (IPAddr (fip_Spec fip)).

Definition allocate_ip (fip : FloatingIP) (poolName : string) : M (World S) (res string) :=
  let! r := ipam_call (λ a, GetIPOwned a poolName (requested_ip fip) (fipOwner fip)) in
  match r with
  | Ok allocatedIP => ret (Ok allocatedIP)
  | Err err =>
      let errMsg :=
        if bool_decide (requested_ip fip = "")
        then "failed to allocate an IP from pool " +:+ poolName +:+ ": " +:+ err_msg err
        else "failed to allocate requested IP " +:+ requested_ip fip +:+ " from pool "
               +:+ poolName +:+ ": " +:+ err_msg err in
      updateFipStatusWithError fip "AllocationFailed" errMsg ;;;
      ret (Err (errorf errMsg))
  end.

(** After a failed update of the spec: keep the claim exactly when the address
    is found in the persisted spec. *)
Definition release_unless_persisted (fip : FloatingIP) (poolName allocatedIP : string)
    : M (World S) unit :=
  let! g := api (GetFIP (fip_ns fip) (fip_name fip)) in
  let persisted :=
    match g with
    | Ok current => bool_decide (IPAddr (fip_Spec current) = Some allocatedIP)
    | Err _ => false
    end in
  if persisted then ret tt
  else ipam_call (λ a, ReleaseIPOwned a poolName allocatedIP (fipOwner fip)) ;;; ret tt.

Definition allocated_status (fip : FloatingIP) (allocatedIP floatingIPGroup sharedKey : string)
    : M (World S) (res unit) :=
  try! currentFip := api (GetFIP (fip_ns fip) (fip_name fip)) else errGet => ret (Err errGet) in
  let copy := set_State (set_st_IPAddr currentFip allocatedIP) "Allocated" in
  let services := parseServicesFromLabels (Labels (fip_meta currentFip)) in
  let copy :=
    match Labels (fip_meta currentFip) with
    | Some _ => set_Assigned copy (Some (mkAssigned (fip_label currentFip clusterNameLabel)
                  (fip_label currentFip projectNameLabel) floatingIPGroup sharedKey services))
    | None => copy
    end in
  let! conditions := setCondition (Conditions (fip_Status copy))
    (assigned_condition services (fip_label currentFip clusterNameLabel)) in
  try! _f := api (UpdateStatusFIP (set_Conditions copy conditions))
  else updateErr => ret (Err updateErr) in ret (Ok tt).

Definition allocated_pool_status (fipPool : FloatingIPPool) (poolName projectName displayName allocatedIP : string)
    : M (World S) (res unit) :=
  try! current := api (GetPool (Name (pool_meta fipPool))) else errGet =>
    (if IsNotFound errGet then ret (Ok tt) else ret (Err errGet)) in
  let allocated := default ∅ (pst_Allocated (pool_Status current)) in
  let allocatedDisplayName := projectName +:+ " [" +:+ displayName +:+ "]" in
  let! used := ipam_call (λ a, (Used a poolName, a)) in
  let! available := ipam_call (λ a, (Available a poolName, a)) in
  try! _p := api (UpdateStatusPool (set_pool_Status current
    (mkPoolStatus (Some (<[allocatedIP := allocatedDisplayName]> allocated)) used available)))
  else errUpdate => ret (Err errUpdate) in ret (Ok tt).

(** The quota entry of a pool after an allocation. *)
Definition count_allocation (fi : FipInfo) (family allocatedIP clusterName : string) : FipInfo :=
  let allocated := default ∅ (fi_Allocated fi) in
  mkFipInfo (if bool_decide (family = "") then fi_Family fi else family)
    (Some (<[allocatedIP := clusterName]> allocated))
    (if is_some (allocated !! allocatedIP) then fi_Used fi else wrap64 (fi_Used fi + 1)).

Definition pool_family (p : FloatingIPPool) : string :=
  match ps_IPConfig (pool_Spec p) with Some c => Family c | None => "" end.

Definition allocated_quota_status (fipPool : FloatingIPPool) (updated : FloatingIP)
    (poolName projectName allocatedIP : string) : M (World S) (res unit) :=
  try! current := api (GetQuota projectName) else errGet => ret (Err errGet) in
  let fi := default (mkFipInfo "" (Some ∅) 0) (pool_info current poolName) in
  try! _q := api (UpdateStatusQuota (set_pool_info current poolName
    (count_allocation fi (pool_family fipPool) allocatedIP (cluster_of updated))))
  else errUpdate => ret (Err errUpdate) in ret (Ok tt).

Definition record_allocation (fip updatedFip : FloatingIP) (fipPool : FloatingIPPool)
    (projectConfig : FloatingIPProjectQuota) (poolName projectName allocatedIP : string)
    : M (World S) (res unit) :=
  let floatingIPGroup := fip_label fip floatingipGroupLabel in
  try! sharedKey := shared_key floatingIPGroup (fip_label fip clusterNameLabel)
  else e => ret (Err e) in
  try! _u := retry_wrap "failed to update fip status"
    (allocated_status fip allocatedIP floatingIPGroup sharedKey) else e => ret (Err e) in
  try! _u := retry_wrap "failed to update fip pool status"
    (allocated_pool_status fipPool poolName projectName (DisplayName (quota_Spec projectConfig))
       allocatedIP) else e => ret (Err e) in
  retry_wrap "failed to update project config status"
    (allocated_quota_status fipPool updatedFip poolName projectName allocatedIP).

Definition claim_and_record (fip : FloatingIP) (fipPool : FloatingIPPool)
    (projectConfig : FloatingIPProjectQuota) (poolName projectName : string) : M (World S) (res unit) :=
  try! allocatedIP := allocate_ip fip poolName else err => ret (Err err) in
  if bool_decide (allocatedIP = "") then
    ret (Err (errorf ("no IP could be allocated from pool " +:+ poolName)))
  else
  let! u := api (UpdateFIP (set_fip_IPAddr fip (Some allocatedIP))) in
  match u with
  | Err err =>
      release_unless_persisted fip poolName allocatedIP ;;;
      ret (Err (wrapf "failed to update fip spec" err))
  | Ok updatedFip =>
      record_allocation fip updatedFip fipPool projectConfig poolName projectName allocatedIP
  end.

Definition reconcile_allocate (fip : FloatingIP) : M (World S) (res unit) :=
  let poolName := fip_pool fip in
  if bool_decide (poolName = "") then
    ret (Err (errorf ("floatingippool not specified for floatingip " +:+ fipOwner fip)))
  else
  try! fipPool := api (ListerGetPool poolName) else err =>
    (if IsNotFound err then ret (Ok tt) else ret (Err err)) in
  match mlookup (Labels (fip_meta fip)) projectNameLabel with
  | None => ret (Err (errorf ("fip " +:+ fipOwner fip +:+ " does not have project label '"
              +:+ projectNameLabel +:+ "'")))
  | Some projectName =>
      try! projectConfig := api (ListerGetQuota projectName) else err =>
        (if IsNotFound err then ret (Ok tt) else ret (Err err)) in
      claim_and_record fip fipPool projectConfig poolName projectName
  end.

Definition reconcile (fip : FloatingIP) : M (World S) (res unit) :=
  if bool_decide (st_IPAddr (fip_Status fip) = "") then reconcile_allocate fip
  else reconcile_assigned fip.

(** ** Deletion *)

Definition sweepAbandonedClaims (fip : FloatingIP) : M (World S) Z :=
  ipam_call (λ a, ReleaseAllByOwner a (fip_pool fip) (fipOwner fip)).

Definition removeFinalizer (fip : FloatingIP) : M (World S) (res unit) :=
  let m := fip_meta fip in
  let fipCopy := set_fip_meta fip (set_Finalizers m (removeString (Finalizers m) finalizerName)) in
  try! _f := api (UpdateFIP fipCopy) else err =>
    ret (Err (wrapf ("failed to remove finalizer from floatingip " +:+ fipOwner fip) err)) in
  ret (Ok tt).

(** The quota entry of a pool after a release, if it has the address. *)
Definition uncount_allocation (fi : FipInfo) (ip : string) : option FipInfo :=
  if mhas (fi_Allocated fi) ip then
    Some (mkFipInfo (fi_Family fi) (option_map (delete ip) (fi_Allocated fi))
            (if 0 <? fi_Used fi then fi_Used fi - 1 else fi_Used fi))
  else None.

Definition released_quota_status (projectName poolName ipToRelease : string)
    : M (World S) (res unit) :=
  try! projectConfig := api (GetQuota projectName) else errGet =>
    (if IsNotFound errGet then ret (Ok tt) else ret (Err errGet)) in
  match pool_info projectConfig poolName ≫= λ fi, uncount_allocation fi ipToRelease with
  | Some fi =>
      try! _q := api (UpdateStatusQuota (set_pool_info projectConfig poolName fi))
      else errUpdate => ret (Err errUpdate) in ret (Ok tt)
  | None => ret (Ok tt)
  end.

Definition released_pool_status (poolName ipToRelease : string) : M (World S) (res unit) :=
  try! current := api (GetPool poolName) else errGet =>
    (if IsNotFound errGet then ret (Ok tt) else ret (Err errGet)) in
  match pst_Allocated (pool_Status current) with
  | None => ret (Ok tt)
  | Some allocated =>
      let! used := ipam_call (λ a, (Used a poolName, a)) in
      let! available := ipam_call (λ a, (Available a poolName, a)) in
      try! _p := api (UpdateStatusPool (set_pool_Status current
        (mkPoolStatus (Some (delete ipToRelease allocated)) used available)))
      else errUpdate => ret (Err errUpdate) in ret (Ok tt)
  end.

Definition reconcileDelete (fip : FloatingIP) : M (World S) (res unit) :=
  let poolName := fip_pool fip in
  let ipToRelease := st_IPAddr (fip_Status fip) in
  if bool_decide (ipToRelease = "") then
    let requested := requested_ip fip in
    (if bool_decide (requested = "") then ret (Ok tt)
     else ipam_call (λ a, ReleaseIPOwned a poolName requested (fipOwner fip))) ;;;
    sweepAbandonedClaims fip ;;;
    removeFinalizer fip
  else
    try! _u := match mlookup (Labels (fip_meta fip)) projectNameLabel with
      | Some projectName =>
          retry_wrap "failed to update project config status on delete"
            (released_quota_status projectName poolName ipToRelease)
      | None => ret (Ok tt)
      end else e => ret (Err e) in
    ipam_call (λ a, ReleaseIP a poolName ipToRelease) ;;;
    (try! _u := retry_wrap "failed to update fip pool status on delete"
       (released_pool_status poolName ipToRelease) else e => ret (Err e) in
     sweepAbandonedClaims fip ;;;
     removeFinalizer fip).

(** ** The work queue handler *)

Definition syncHandler (key : string) : M (World S) (res unit) :=
  match SplitMetaNamespaceKey key with
  | Err _ => ret (Ok tt)
  | Ok (namespace, name) =>
      try! fip := api (ListerGetFIP namespace name) else err =>
        (if IsNotFound err then ret (Ok tt) else ret (Err err)) in
      let m := fip_meta fip in
      if is_some (DeletionTimestamp m) then
        if containsString (Finalizers m) finalizerName then reconcileDelete fip else ret (Ok tt)
      else if negb (containsString (Finalizers m) finalizerName) then
        try! _f := api (ApplyFIPFinalizers namespace (Name m) (Finalizers m ++ [finalizerName]))
        else err => ret (Err (wrapf ("failed to add finalizer to floatingip " +:+ fipOwner fip) err)) in
        ret (Ok tt)
      else reconcile fip
  end.

Definition fip_processNextWorkItem : option (string + string) → M (World S) bool :=
  processNextWorkItem syncHandler.

End FipController.
