(* ===== verification/FipCorrect.v ===== *)
(** The floating IP controller handles its claims correctly.

    [respects o] is what the rest of the system may do to the allocator while a
    floating IP with owner key [o] is being processed: anything that leaves the
    claims of [o] alone.  The work queue never hands one key to two workers,
    and [IpamCorrect.owned_claim_exclusive] shows that the calls of other
    claimants are of this kind. *)

From S2P Require Import Prelude GoStd NetIP NetIPFacts Ipam IpamSpec IpamCorrect ApiTypes Kube ServiceLabels FipController.

Record respects (o : string) (a a' : IPAllocator) : Prop := mkRespects {
  resp_wf : wf a → wf a';
  resp_named : ∀ n, all_named n a → all_named n a';
  resp_holds : ∀ n k, holds a' n k o ↔ holds a n k o
}.

#[export] Instance respects_preorder o : PreOrder (respects o).
Proof.
  split; [by constructor|]. intros a1 a2 a3 [w1 n1 h1] [w2 n2 h2].
  constructor; [auto | auto|]. intros n k. by rewrite h2.
Qed.

(** Calls that make claims for [o] in the pools of [P] only. *)
Record grows (P : string → Prop) (o : string) (a a' : IPAllocator) : Prop := mkGrows {
  grow_wf : wf a → wf a';
  grow_holds : ∀ n k, holds a' n k o → holds a n k o ∨ P n
}.

#[export] Instance grows_preorder P o : PreOrder (grows P o).
Proof.
  split; [constructor; auto|]. intros a1 a2 a3 [w1 h1] [w2 h2]. constructor; [auto|].
  intros n k [H|?]%h2; [by apply h1 | by right].
Qed.

(** Calls that release claims but make none. *)
Definition shrinks (o : string) : IPAllocator → IPAllocator → Prop := grows (λ _, False) o.

#[export] Instance shrinks_preorder o : PreOrder (shrinks o).
Proof. apply grows_preorder. Qed.

Lemma shrinks_intro o a a' :
  (wf a → wf a') → (∀ n k, holds a' n k o → holds a n k o) → shrinks o a a'.
Proof. intros. constructor; [done|]. intros n k Hk. left. auto. Qed.

Lemma respects_grows P o a a' : respects o a a' → grows P o a a'.
Proof. intros [Hw _ Hh]. constructor; [done|]. intros n k Hk. left. by apply Hh. Qed.

Lemma respects_shrinks o a a' : respects o a a' → shrinks o a a'.
Proof. apply respects_grows. Qed.

(** What the rest of the system does respects the claims of [o]. *)
Definition rely {S} `{KubeAPI S} (o : string) : Prop := ∀ k a, respects o a (others k a).2.

(** A write that records an address is backed by a claim at that moment. *)
Definition backed (pool o : string) (ev : Event) : Prop :=
  match ev_call ev with
  | UpdateFIP f => ∀ ip, IPAddr (fip_Spec f) = Some ip → holds (ev_alloc ev) pool ip o
  | UpdateStatusFIP f =>
      State (fip_Status f) = "Allocated" → holds (ev_alloc ev) pool (st_IPAddr (fip_Status f)) o
  | _ => True
  end.

(** The call shows that the spec of this floating IP records the address: an
    update of it that the server accepted, or a read of it. *)
Definition shows_persisted (fip : FloatingIP) (ip : string) (ev : Event) : Prop :=
  match ev_call ev in Call T return res T → Prop with
  | UpdateFIP f => λ r, (fip_ns f, fip_name f) = (fip_ns fip, fip_name fip) ∧ IPAddr (fip_Spec f) = Some ip ∧ is_ok r = true
  | GetFIP ns name => λ r, (ns, name) = (fip_ns fip, fip_name fip) ∧ match r with
                      | Ok current => IPAddr (fip_Spec current) = Some ip
                      | Err _ => False
                      end
  | _ => λ _, False
  end (ev_result ev).

(** An update of a floating IP, which is what removes its finalizer, is made
    when its owner has no claim left in the pool. *)
Definition unclaimed_update (pool o : string) (ev : Event) : Prop :=
  match ev_call ev with
  | UpdateFIP _ => ∀ i, ¬ holds (ev_alloc ev) pool i o
  | _ => True
  end.

(** The cache returned this floating IP. *)
Definition cached (f : FloatingIP) (ev : Event) : Prop :=
  match ev_call ev in Call T return res T → Prop with
  | ListerGetFIP _ _ => λ r, r = Ok f
  | _ => λ _, False
  end (ev_result ev).

Lemma fipOwner_nonempty fip : fipOwner fip ≠ "".
Proof.
  unfold fipOwner. destruct (fip_ns fip); [by rewrite str_app_nil_l | by rewrite str_app_cons].
Qed.

Section FipCorrect.
Context {S : Type} `{HKube : KubeAPI S, HRange : MapRange, HText : NetErrText}.
Context `{HRetry : !RetrySpec S}.

(** ** Programs that make no claim *)

Section Quietly.
Context (rel : IPAllocator → IPAllocator → Prop) `{!PreOrder rel}.
Context (Hothers : ∀ k a, rel a (others k a).2).
Context (Pre : IPAllocator → Prop) (Hc : closed rel Pre) (R : Event → Prop).
Notation Q m := (quietly rel Pre R m).

Lemma Q_api {A} (c : Call A) : (∀ a r, Pre a → R (mkEvent a c r)) → Q (api c).
Proof. by apply quietly_api. Qed.

Lemma Q_if {A} (b : bool) (m1 m2 : M (World S) A) : Q m1 → Q m2 → Q (if b then m1 else m2).
Proof. by destruct b. Qed.

Lemma Q_setCondition l c : Q (setCondition l c).
Proof.
  apply Q_if; [by apply quietly_ret|]. apply quietly_bind; [done | done | by apply quietly_now|].
  intros. by apply quietly_ret.
Qed.

Lemma Q_read {A} (f : IPAllocator → A) : Q (ipam_call (λ a, (f a, a))).
Proof. by apply quietly_ipam. Qed.

Lemma Q_retry_wrap msg fn : Q fn → Q (retry_wrap msg fn).
Proof.
  intros Hfn. apply quietly_bind; [done | done | by apply quietly_retry|].
  intros []; by apply quietly_ret.
Qed.

Lemma Q_shared_key g cl : Q (shared_key g cl).
Proof.
  apply Q_if; [by apply quietly_ret|]. apply quietly_bind; [done | done | by apply quietly_random|].
  intros []; by apply quietly_ret.
Qed.
End Quietly.

(** Structural rules, then the calls. *)
Ltac quiet :=
  repeat first
    [ apply quietly_ret; [assumption || apply _]
    | apply Q_setCondition; [assumption || apply _ ..]
    | apply Q_read; [assumption || apply _ ..]
    | apply Q_shared_key; [assumption || apply _ ..]
    | apply Q_retry_wrap; [assumption || apply _ .. | ]
    | apply Q_if
    | apply quietly_bind; [assumption || apply _ | assumption | | intros ?]
    | match goal with |- quietly _ _ _ (match ?x with _ => _ end) => destruct x end ].

(** Calls that are not checked by [backed]. *)
Ltac quiet_calls := quiet; try (apply Q_api; [assumption || apply _ .. | done]).

Lemma closed_claim pool ip o : closed (respects o) (λ a, wf a ∧ holds a pool ip o).
Proof. intros a a' [Hw Hh] [Hrw _ Hrh]. split; [auto | by apply Hrh]. Qed.

Lemma closed_true rel : closed rel (λ _, True).
Proof. done. Qed.

Lemma quietly_record_allocation o fip updated p q pool project ip :
  rely o →
  quietly (respects o) (λ a, wf a ∧ holds a pool ip o) (backed pool o)
    (record_allocation fip updated p q pool project ip).
Proof.
  intros Hrely. pose proof (closed_claim pool ip o) as Hc.
  unfold record_allocation, allocated_status, allocated_pool_status, allocated_quota_status.
  quiet_calls. all: apply Q_api; [done | done |]; intros ? ? [_ Hh] _; simpl; case_match; exact Hh.
Qed.

Lemma quietly_updateFipStatusWithError o pool fip reason msg :
  rely o →
  quietly (respects o) (λ _, True) (backed pool o) (updateFipStatusWithError fip reason msg).
Proof.
  intros Hrely. pose proof (closed_true (respects o)) as Hc. unfold updateFipStatusWithError.
  quiet_calls. all: apply Q_api; [done | done |]; intros ? ? _ Hst; discriminate Hst.
Qed.

(** ** The allocation *)

(** The state after [allocate_ip]: the claims of the owner are those before
    and, on success, the address returned. *)
Lemma allocate_ip_spec fip pool w r w' :
  rely (fipOwner fip) → wf (alloc w) → allocate_ip fip pool w = (r, w') →
  (∃ l, events w' = l ++ events w ∧ Forall (backed pool (fipOwner fip)) l) ∧ wf (alloc w') ∧
  (∀ n, all_named n (alloc w) → all_named n (alloc w')) ∧
  match r with
  | Ok k => k ≠ "" ∧ ∀ m i, holds (alloc w') m i (fipOwner fip) ↔
              holds (alloc w) m i (fipOwner fip) ∨ (m = pool ∧ i = k)
  | Err _ => ∀ m i, holds (alloc w') m i (fipOwner fip) ↔ holds (alloc w) m i (fipOwner fip)
  end.
Proof.
  intros Hrely Hwf Ha. unfold allocate_ip in Ha. unfold bind at 1 in Ha.
  destruct (ipam_call _ w) as [g w1] eqn:Hg.
  apply (ipam_step (respects (fipOwner fip)) Hrely) in Hg as (a & [Hw Hn Hh] & Hg & He).
  destruct (GetIPOwned_effect _ _ _ _ _ _ (Hw Hwf) Hg) as (Hw1 & Hn1 & Hh1). destruct g as [k|e].
  - cbv [ret] in Ha. simplify_eq. rewrite He. split; [by exists []|]. split; [done|].
    split; [auto|]. split; [apply (GetIPOwned_Ok _ _ _ _ _ _ (Hw Hwf) Hg)|].
    intros m i. rewrite Hh1, Hh. naive_solver.
  - unfold bind in Ha.
    pose proof (quietly_updateFipStatusWithError (fipOwner fip) pool fip "AllocationFailed") as Hq.
    set (msg := if bool_decide _ then _ else _) in Ha. specialize (Hq msg Hrely w1 I).
    destruct (updateFipStatusWithError _ _ _ w1) as [u w2]. cbv [ret] in Ha. simplify_eq.
    destruct Hq as [[Hw2 Hn2 Hh2] (l & Hl & Hb)]. simpl in *. rewrite He in Hl.
    split; [eauto|]. split; [auto|]. split; [auto|]. intros m i. by rewrite Hh2, Hh1, Hh.
Qed.

(** After a failed update of the spec: either the address is found in the spec,
    or it is claimed no more; nothing else changes for the owner. *)
Lemma release_unless_persisted_spec fip pool ip w u w' :
  rely (fipOwner fip) → wf (alloc w) → holds (alloc w) pool ip (fipOwner fip) →
  release_unless_persisted fip pool ip w = (u, w') →
  ∃ ev, events w' = ev :: events w ∧ backed pool (fipOwner fip) ev ∧
    (all_named pool (alloc w) → ∀ m i, holds (alloc w') m i (fipOwner fip) →
       holds (alloc w) m i (fipOwner fip) ∧
       (m = pool → i = ip → holds (ev_alloc ev) pool ip (fipOwner fip) ∧ shows_persisted fip ip ev)).
Proof.
  intros Hrely Hwf Hhold Hr. unfold release_unless_persisted in Hr. unfold bind at 1 in Hr.
  destruct (api _ w) as [g w1] eqn:Hg.
  apply (api_step (respects (fipOwner fip)) Hrely) in Hg as [[Hw Hn Hh] He].
  destruct (match g with Ok _ => _ | Err _ => _ end) eqn:Hp.
  - cbv [ret] in Hr. simplify_eq. eexists. split; [done|]. split; [done|].
    intros _ m i Hi. split; [by apply Hh|]. intros _ _. split; [by apply Hh|]. destruct g as [cur|]; [|done].
    split; [done|]. by bool_hyps.
  - unfold bind in Hr. destruct (ipam_call _ w1) as [rr w2] eqn:Hi. cbv [ret] in Hr. simplify_eq.
    apply (ipam_step (respects (fipOwner fip)) Hrely) in Hi as (a & [Hw1 Hn1 Hh1] & Hi & He1).
    eexists. split; [by rewrite He1|]. split; [done|]. intros Hnamed m i.
    assert (rr = Ok tt) as ->.
    { change rr with (rr, alloc w').1. rewrite <- Hi. apply ReleaseIPOwned_succeeds;
        [auto | apply fipOwner_nonempty | by apply Hh1, Hh | auto]. }
    destruct (ReleaseIPOwned_effect _ _ _ _ _ _ (Hw1 (Hw Hwf)) Hi) as (_ & _ & Hh2).
    rewrite Hh2, Hh1, Hh. naive_solver.
Qed.

(** What the allocation path promises: its writes are backed by claims, and a
    claim it leaves behind is shown to be persisted. *)
Definition accounted (fip : FloatingIP) (pool : string) (w w' : World S) : Prop :=
  let o := fipOwner fip in
  ∃ l, events w' = l ++ events w ∧ Forall (backed pool o) l ∧
    (all_named pool (alloc w) → ∀ m i, holds (alloc w') m i o →
       holds (alloc w) m i o ∨
       m = pool ∧ Exists (λ ev, holds (ev_alloc ev) pool i o ∧ shows_persisted fip i ev) l).

Lemma quiet_accounted fip pool w w' :
  quiet (respects (fipOwner fip)) (backed pool (fipOwner fip)) w w' → accounted fip pool w w'.
Proof.
  intros [[_ _ Hh] (l & Hl & Hb)]. exists l. split; [done|]. split; [done|].
  intros _ m i. rewrite Hh. auto.
Qed.

Lemma accounted_after_quiet fip pool w1 w2 w3 :
  quiet (respects (fipOwner fip)) (backed pool (fipOwner fip)) w1 w2 → accounted fip pool w2 w3 →
  accounted fip pool w1 w3.
Proof.
  intros [[_ Hn Hh] (l & Hl & Hb)] (l' & Hl' & Hb' & Hacc). exists (l' ++ l).
  rewrite Hl', Hl, app_assoc. split; [done|]. split; [by apply Forall_app|].
  intros Hnamed m i Hi. destruct (Hacc (Hn _ Hnamed) m i Hi) as [?%Hh|[-> ?]]; [by left|right].
  split; [done|]. apply Exists_app. by left.
Qed.

Lemma accounted_before_quiet fip pool w1 w2 w3 :
  accounted fip pool w1 w2 → quiet (respects (fipOwner fip)) (backed pool (fipOwner fip)) w2 w3 →
  accounted fip pool w1 w3.
Proof.
  intros (l' & Hl' & Hb' & Hacc) [[_ Hn Hh] (l & Hl & Hb)]. exists (l ++ l').
  rewrite Hl, Hl', app_assoc. split; [done|]. split; [by apply Forall_app|].
  intros Hnamed m i Hi%Hh. destruct (Hacc Hnamed m i Hi) as [?|[-> ?]]; [by left|right].
  split; [done|]. apply Exists_app. by right.
Qed.

Lemma api_quiet {A} o pool (c : Call A) w r w' :
  rely o → (∀ a r, backed pool o (mkEvent a c r)) → api c w = (r, w') →
  quiet (respects o) (backed pool o) w w'.
Proof.
  intros Hrely Hb Ha. apply (api_step (respects o) Hrely) in Ha as [Hr He].
  split; [done|]. eexists [_]. split; [exact He|]. by constructor.
Qed.

Lemma claim_and_record_accounted fip p q pool project w r w' :
  rely (fipOwner fip) → wf (alloc w) → claim_and_record fip p q pool project w = (r, w') →
  accounted fip pool w w'.
Proof.
  intros Hrely Hwf Hr. unfold claim_and_record in Hr. unfold bind at 1 in Hr.
  destruct (allocate_ip fip pool w) as [g w1] eqn:Hg.
  apply allocate_ip_spec in Hg as ((l1 & Hl1 & Hb1) & Hwf1 & Hn1 & Hh1); [|done|done].
  destruct g as [k|e]; cbn beta in Hr.
  2: { cbv [ret] in Hr. simplify_eq. exists l1. split; [done|]. split; [done|].
       intros _ m i. rewrite Hh1. auto. }
  destruct Hh1 as [Hne Hh1]. rewrite bool_decide_false in Hr by done.
  assert (holds (alloc w1) pool k (fipOwner fip)) as Hk by (apply Hh1; auto).
  unfold bind at 1 in Hr. destruct (api _ w1) as [u w2] eqn:Hu.
  apply (api_step (respects (fipOwner fip)) Hrely) in Hu as [[Hw2 Hn2 Hh2] He2].
  set (ev := mkEvent _ _ _) in He2.
  assert (backed pool (fipOwner fip) ev) as Hbev.
  { intros ip Hip. simpl in Hip. simplify_eq. by apply Hh2. }
  destruct u as [updated|e].
  - (* the spec was updated *)
    pose proof (quietly_record_allocation (fipOwner fip) fip updated p q pool project k Hrely w2) as Hq.
    rewrite Hr in Hq. eapply accounted_before_quiet; [|apply Hq; by split; [auto | apply Hh2]].
    exists (ev :: l1). rewrite He2, Hl1. split; [done|]. split; [by constructor|].
    intros _ m i Hi%Hh2%Hh1. destruct Hi as [Hi|[-> ->]]; [by left|right].
    split; [done|]. constructor. split; [by apply Hh2|]. by repeat split.
  - (* the update failed *)
    unfold bind at 1 in Hr. destruct (release_unless_persisted fip pool k w2) as [x w3] eqn:Hrel.
    cbv [ret] in Hr. simplify_eq.
    apply release_unless_persisted_spec in Hrel as (ev' & He3 & Hb3 & Hh3);
      [|done | auto | by apply Hh2].
    exists (ev' :: ev :: l1). rewrite He3, He2, Hl1. split; [done|]. split; [by repeat constructor|].
    intros Hnamed m i Hi. destruct (Hh3 ltac:(auto) m i Hi) as [[Hi'|[-> ->]]%Hh2%Hh1 Hsh]; [by left|].
    right. split; [done|]. constructor. by apply Hsh.
Qed.

Lemma reconcile_allocate_accounted fip w r w' :
  rely (fipOwner fip) → wf (alloc w) → reconcile_allocate fip w = (r, w') →
  accounted fip (fip_pool fip) w w'.
Proof.
  intros Hrely Hwf Hr. unfold reconcile_allocate in Hr.
  pose proof (quiet_refl (respects (fipOwner fip)) (backed (fip_pool fip) (fipOwner fip)) w) as Hq0.
  case_bool_decide; [cbv [ret] in Hr; simplify_eq; by apply quiet_accounted|].
  unfold bind at 1 in Hr. destruct (api _ w) as [rp w1] eqn:Ha1.
  pose proof Ha1 as Hq1. apply (api_quiet (fipOwner fip) (fip_pool fip)) in Hq1; [|done|done].
  destruct rp as [p|e]; [|case_match; cbv [ret] in Hr; simplify_eq; by apply quiet_accounted].
  destruct (mlookup _ _) as [project|]; [|cbv [ret] in Hr; simplify_eq; by apply quiet_accounted].
  unfold bind at 1 in Hr. destruct (api _ w1) as [rq w2] eqn:Ha2.
  apply (api_quiet (fipOwner fip) (fip_pool fip)) in Ha2; [|done|done].
  pose proof (quiet_trans _ _ _ _ _ Hq1 Ha2) as Hq2.
  destruct rq as [q|e]; [|case_match; cbv [ret] in Hr; simplify_eq; by apply quiet_accounted].
  eapply accounted_after_quiet; [exact Hq2|]. eapply claim_and_record_accounted; [done | |done].
  by apply Hq2.
Qed.
(** ** Deletion *)

Lemma closed_wf P o : closed (grows P o) wf.
Proof. intros a a' Hw [Hr _]. auto. Qed.

Lemma rely_shrinks o : rely o → ∀ k a, shrinks o a (others k a).2.
Proof. intros Hr k a. apply respects_shrinks, Hr. Qed.

Lemma shrinks_release o a n k r a' : wf a → ReleaseIP a n k = (r, a') → shrinks o a a'.
Proof.
  intros Hwf Hr. destruct (ReleaseIP_effect _ _ _ _ _ Hwf Hr) as (? & _ & Hh).
  apply shrinks_intro; [done|]. intros m i Hi. by apply Hh in Hi as [? _].
Qed.

Lemma shrinks_release_owned o a n k o' r a' :
  wf a → ReleaseIPOwned a n k o' = (r, a') → shrinks o a a'.
Proof.
  intros Hwf Hr. destruct (ReleaseIPOwned_effect _ _ _ _ _ _ Hwf Hr) as (? & _ & Hh).
  apply shrinks_intro; [done|]. intros m i Hi. by apply Hh in Hi as [? _].
Qed.

Lemma shrinks_sweep o a n o' f a' :
  wf a → o' ≠ "" → ReleaseAllByOwner a n o' = (f, a') → shrinks o a a'.
Proof.
  intros Hwf Ho Hr. destruct (ReleaseAllByOwner_effect _ _ _ _ _ Hwf Ho Hr) as (? & _ & Hh).
  apply shrinks_intro; [done|]. intros m i Hi. by apply Hh in Hi as [? _].
Qed.

Ltac shrink_ipam :=
  apply quietly_ipam;
    [assumption || apply _ ..
    | intros ab ?; cbn beta;
      match goal with |- shrinks _ _ (snd ?x) => destruct x eqn:? end;
      first [ by eapply shrinks_release | by eapply shrinks_release_owned
            | eapply shrinks_sweep; [done | apply fipOwner_nonempty | done] ] ].

Lemma quietly_reconcileDelete o fip :
  rely o → quietly (shrinks o) wf (λ _, True) (reconcileDelete fip).
Proof.
  intros Hrely. pose proof (rely_shrinks o Hrely) as Hs. pose proof (closed_wf (λ _, False) o : closed (shrinks o) wf) as Hc.
  unfold reconcileDelete, removeFinalizer, sweepAbandonedClaims, released_quota_status,
    released_pool_status.
  repeat (quiet_calls; try shrink_ipam).
Qed.

(** The allocation path claims for its own owner in its own pool only. *)
Lemma quietly_reconcile_allocate o fip :
  rely o →
  quietly (grows (λ n, fipOwner fip = o ∧ n = fip_pool fip) o) wf (λ _, True) (reconcile_allocate fip).
Proof.
  intros Hrely. set (P := λ n, fipOwner fip = o ∧ n = fip_pool fip).
  assert (∀ k a, grows P o a (others k a).2) as Hs by (intros; apply respects_grows, Hrely).
  pose proof (closed_wf P o) as Hc.
  unfold reconcile_allocate, claim_and_record, allocate_ip, release_unless_persisted,
    record_allocation, allocated_status, allocated_pool_status, allocated_quota_status,
    updateFipStatusWithError.
  quiet_calls.
  all: apply quietly_ipam; [assumption || apply _ .. |]; intros ab Hab; cbn beta;
    match goal with |- grows _ _ _ (snd ?x) => destruct x as [rr ab'] eqn:Hx end; simpl.
  - destruct (GetIPOwned_effect _ _ _ _ _ _ Hab Hx) as (? & _ & Hh). constructor; [done|].
    intros n k Hk. destruct rr; apply Hh in Hk; unfold P; naive_solver.
  - apply (shrinks_release_owned o) in Hx as [? Hh]; [|done]. constructor; [done|].
    intros n k Hk. left. by destruct (Hh n k Hk).
Qed.

Lemma quietly_reconcile_assigned o fip :
  rely o → quietly (respects o) wf (λ _, True) (reconcile_assigned fip).
Proof.
  intros Hrely. assert (closed (respects o) wf) as Hc by (intros a a' ? []; auto).
  unfold reconcile_assigned, when_, update_services, assigned_base, set_assigned, clear_assigned,
    sync_project_cluster.
  quiet_calls.
Qed.

Lemma sweep_then_remove fip w r w' :
  rely (fipOwner fip) → wf (alloc w) →
  bind (sweepAbandonedClaims fip) (λ _, removeFinalizer fip) w = (r, w') →
  (∃ l, events w' = l ++ events w ∧ Forall (unclaimed_update (fip_pool fip) (fipOwner fip)) l) ∧
  ∀ i, ¬ holds (alloc w') (fip_pool fip) i (fipOwner fip).
Proof.
  intros Hrely Hwf Hr. unfold bind at 1 in Hr. destruct (sweepAbandonedClaims fip w) as [n w1] eqn:Hs.
  unfold sweepAbandonedClaims in Hs.
  apply (ipam_step (respects (fipOwner fip)) Hrely) in Hs as (a & [Hw _ Hh] & Hs & He).
  destruct (ReleaseAllByOwner_effect _ _ _ _ _ (Hw Hwf) (fipOwner_nonempty fip) Hs) as (Hw1 & _ & Hh1).
  set (Pre := λ a, ∀ i, ¬ holds a (fip_pool fip) i (fipOwner fip)).
  assert (closed (respects (fipOwner fip)) Pre) as Hc.
  { intros a1 a2 Hp [_ _ Hr2] i Hi%Hr2. by eapply Hp. }
  assert (Pre (alloc w1)) as Hp by (intros i Hi%Hh1; tauto).
  assert (quietly (respects (fipOwner fip)) Pre (unclaimed_update (fip_pool fip) (fipOwner fip))
    (removeFinalizer fip)) as Hq.
  { unfold removeFinalizer. quiet_calls. }
  destruct (Hq w1 Hp) as [Hrel (l & Hl & Hall)]. rewrite Hr in Hrel, Hl. simpl in *.
  split; [exists l; by rewrite Hl, He|]. intros i. by eapply (Hc _ _ Hp Hrel).
Qed.

(** [m] before the sweep: nothing it does is an update of a floating IP. *)
Definition preparation {A} (fip : FloatingIP) (m : M (World S) A) : Prop :=
  quietly (shrinks (fipOwner fip)) wf (unclaimed_update (fip_pool fip) (fipOwner fip)) m.

Lemma preparation_then {A} fip (m : M (World S) A) (k : A → M (World S) (res unit)) w r w' :
  preparation fip m → wf (alloc w) → bind m k w = (r, w') →
  ∃ x w1, k x w1 = (r, w') ∧ wf (alloc w1) ∧
    ∃ l, events w1 = l ++ events w ∧ Forall (unclaimed_update (fip_pool fip) (fipOwner fip)) l.
Proof.
  intros Hm Hwf Hr. unfold bind in Hr. specialize (Hm w Hwf). destruct (m w) as [x w1].
  destruct Hm as [[Hw _] Hl]. eauto 8.
Qed.

(** ** Properties *)

(** C6: while an address is being allocated, the controller writes an address
    into a spec, or into a status as allocated, only if at that moment the
    address is claimed in the allocator by this very floating IP; whatever API
    calls fail, whatever they return, and whatever the rest of the system does
    to other claims in between. *)
Theorem reconcile_writes_backed fip w r w' :
  rely (fipOwner fip) → wf (alloc w) → st_IPAddr (fip_Status fip) = "" →
  reconcile fip w = (r, w') →
  ∃ l, events w' = l ++ events w ∧ Forall (backed (fip_pool fip) (fipOwner fip)) l.
Proof.
  intros Hrely Hwf Hst Hr. unfold reconcile in Hr. rewrite bool_decide_true in Hr by done.
  apply reconcile_allocate_accounted in Hr as (l & ? & ? & _); eauto.
Qed.

(** A claim lasts over calls that do not ask to give it up. *)
Lemma run_all_holds cs : ∀ a rs a' n k o, wf a → o ≠ "" → holds a n k o →
  Forall (λ c, gives_up n k o c = false) cs → run_all cs a = Some (rs, a') → holds a' n k o.
Proof.
  induction cs as [|c cs IH]; intros a rs a' n k o Hwf Ho Hh Hf Hr; simpl in Hr; [by simplify_eq|].
  destruct (run c a) as [[r1 a1]|] eqn:Hrun; [|done]. simpl in Hr.
  destruct (run_all cs a1) as [[rs2 a2]|] eqn:Hrest; [|done]. simplify_eq/=.
  apply Forall_cons in Hf as [Hf1 Hf]. apply run_outcome in Hrun; [|done].
  eapply (IH a1); [by eapply outcome_wf | done | by eapply outcome_keeps | done | done].
Qed.

(** The call was made between [w] and [w']. *)
Definition during (w w' : World S) (ev : Event) : Prop := ∃ l, events w' = l ++ events w ∧ ev ∈ l.

(** The call records the address in a status as allocated. *)
Definition announces (ip : string) (ev : Event) : Prop :=
  match ev_call ev with
  | UpdateStatusFIP f => State (fip_Status f) = "Allocated" ∧ st_IPAddr (fip_Status f) = ip
  | _ => False
  end.

Lemma announced_claimed fip w r w' ev ip :
  rely (fipOwner fip) → wf (alloc w) → st_IPAddr (fip_Status fip) = "" → reconcile fip w = (r, w') →
  during w w' ev → announces ip ev → holds (ev_alloc ev) (fip_pool fip) ip (fipOwner fip).
Proof.
  intros Hrely Hwf Hst Hr (l & Hl & Hev) Ha. unfold reconcile in Hr. rewrite bool_decide_true in Hr by done.
  apply reconcile_allocate_accounted in Hr as (l' & Hl' & Hb & _); [|done|done].
  rewrite Hl in Hl'. apply app_inv_tail in Hl' as <-. rewrite Forall_forall in Hb. specialize (Hb _ Hev).
  destruct ev as [a T k res]. cbn in *. destruct k; try done. destruct Ha as [Hs <-]. by apply Hb.
Qed.

(** C3: no two floating IPs are told the same address.  Two floating IPs of a pool are
    allocated, each while the rest of the system respects its claims; whatever calls
    are made of the allocator between the two writes of their statuses, none of which
    gives up the claim of the first, the addresses that they announce differ. *)
Theorem announced_addresses_differ fip1 fip2 w1 r1 w1' w2 r2 w2' ev1 ev2 ip1 ip2 cs rs :
  rely (fipOwner fip1) → rely (fipOwner fip2) → wf (alloc w1) → wf (alloc w2) →
  st_IPAddr (fip_Status fip1) = "" → st_IPAddr (fip_Status fip2) = "" →
  reconcile fip1 w1 = (r1, w1') → reconcile fip2 w2 = (r2, w2') →
  during w1 w1' ev1 → announces ip1 ev1 → during w2 w2' ev2 → announces ip2 ev2 →
  fip_pool fip1 = fip_pool fip2 → fipOwner fip1 ≠ fipOwner fip2 →
  wf (ev_alloc ev1) → run_all cs (ev_alloc ev1) = Some (rs, ev_alloc ev2) →
  Forall (λ c, gives_up (fip_pool fip1) ip1 (fipOwner fip1) c = false) cs →
  ip1 ≠ ip2.
Proof.
  intros Hrel1 Hrel2 Hwf1 Hwf2 Hst1 Hst2 Hr1 Hr2 Hd1 Ha1 Hd2 Ha2 Hpool Ho Hwf Hrun Hkeep ->.
  pose proof (announced_claimed _ _ _ _ _ _ Hrel1 Hwf1 Hst1 Hr1 Hd1 Ha1) as H1.
  pose proof (announced_claimed _ _ _ _ _ _ Hrel2 Hwf2 Hst2 Hr2 Hd2 Ha2) as H2.
  apply (run_all_holds _ _ _ _ _ _ _ Hwf (fipOwner_nonempty fip1) H1 Hkeep) in Hrun.
  apply Ho. unfold holds in *. rewrite Hpool in Hrun. congruence.
Qed.

(** C10: a failed allocation leaks no address.  Suppose that, while a floating IP
    without a recorded address is reconciled, the rest of the system leaves its
    claims alone ([rely]) and every address of its pool lies in the subnet of the
    pool as the parser reads it ([all_named]: only an IPv6 pool whose range
    reaches into the IPv4-mapped addresses lacks that).  Then a claim that the floating IP did not have before is either
    gone when [reconcile] returns, or it is in the floating IP's own pool and a
    call of this very run, made while the floating IP held the claim, showed that
    the spec of this floating IP records the address (its update was accepted, or
    the read after a failed update found the address), so that the retry claims it
    again and the deletion frees it. *)
Theorem reconcile_leaks_no_claim fip w r w' m i :
  rely (fipOwner fip) → wf (alloc w) → all_named (fip_pool fip) (alloc w) →
  st_IPAddr (fip_Status fip) = "" → reconcile fip w = (r, w') →
  holds (alloc w') m i (fipOwner fip) → ¬ holds (alloc w) m i (fipOwner fip) →
  m = fip_pool fip ∧
  ∃ ev, during w w' ev ∧ holds (ev_alloc ev) m i (fipOwner fip) ∧ shows_persisted fip i ev.
Proof.
  intros Hrely Hwf Hn Hst Hr Hh Hnh. unfold reconcile in Hr. rewrite bool_decide_true in Hr by done.
  apply reconcile_allocate_accounted in Hr as (l & Hl & _ & Hacc); [|done|done].
  destruct (Hacc Hn m i Hh) as [?|[-> Hex]]; [done|]. split; [done|].
  apply Exists_exists in Hex as (ev & Hin & Hev). exists ev. split; [by exists l | done].
Qed.

(** a successful deletion leaves no claim of the floating IP in its pool,
    and the finalizer is removed only when none is left, whatever happened on
    the way. *)
Theorem reconcileDelete_clears fip w r w' :
  rely (fipOwner fip) → wf (alloc w) → reconcileDelete fip w = (r, w') →
  (∃ l, events w' = l ++ events w ∧ Forall (unclaimed_update (fip_pool fip) (fipOwner fip)) l) ∧
  (r = Ok tt → ∀ i, ¬ holds (alloc w') (fip_pool fip) i (fipOwner fip)).
Proof.
  intros Hrely Hwf Hr. set (R := unclaimed_update (fip_pool fip) (fipOwner fip)) in *.
  pose proof (rely_shrinks _ Hrely) as Hs. pose proof (closed_wf (λ _, False) (fipOwner fip) : closed (shrinks (fipOwner fip)) wf) as Hc.
  assert (∀ w1 l1 r1 w2, wf (alloc w1) → events w1 = l1 ++ events w → Forall R l1 →
    bind (sweepAbandonedClaims fip) (λ _, removeFinalizer fip) w1 = (r1, w2) →
    (∃ l, events w2 = l ++ events w ∧ Forall R l) ∧
    (r1 = Ok tt → ∀ i, ¬ holds (alloc w2) (fip_pool fip) i (fipOwner fip))) as Htail.
  { intros w1 l1 r1 w2 Hwf1 Hl1 Hr1 Ht.
    apply sweep_then_remove in Ht as [(l & Hl & Hall) Hh]; [|done|done]. split; [|done].
    exists (l ++ l1). rewrite Hl, Hl1, app_assoc. split; [done | by apply Forall_app]. }
  unfold reconcileDelete in Hr. case_bool_decide.
  - apply (preparation_then fip) in Hr as (x & w1 & Hr & Hwf1 & l1 & Hl1 & HR1); [|unfold preparation|done].
    + by eapply Htail.
    + quiet_calls. shrink_ipam.
  - apply (preparation_then fip) in Hr as (x & w1 & Hr & Hwf1 & l1 & Hl1 & HR1); [|unfold preparation|done].
    2: { unfold released_quota_status. quiet_calls. }
    destruct x as [_|e]; [|cbv [ret] in Hr; simplify_eq; split; [by exists l1 | done]].
    apply (preparation_then fip) in Hr as (x & w2 & Hr & Hwf2 & l2 & Hl2 & HR2); [|unfold preparation|done].
    2: { shrink_ipam. }
    apply (preparation_then fip) in Hr as (y & w3 & Hr & Hwf3 & l3 & Hl3 & HR3); [|unfold preparation|done].
    2: { unfold released_pool_status. quiet_calls. }
    assert (events w3 = (l3 ++ l2 ++ l1) ++ events w) as Hl by (by rewrite Hl3, Hl2, Hl1, !app_assoc).
    assert (Forall R (l3 ++ l2 ++ l1)) as HR by (by rewrite !Forall_app).
    destruct y as [_|e]; [exact (Htail _ _ _ _ Hwf3 Hl HR Hr) | cbv [ret] in Hr; simplify_eq].
    split; [by exists (l3 ++ l2 ++ l1) | done].
Qed.

(** an address is claimed only for a floating IP that the cache showed to
    carry the cleanup finalizer, not to be in deletion and to have no address
    yet, and only in the pool its spec names. *)
Theorem syncHandler_claims_need_finalizer key w r w' o m i :
  rely o → wf (alloc w) → syncHandler key w = (r, w') →
  holds (alloc w') m i o → ¬ holds (alloc w) m i o →
  ∃ f ev, ev ∈ events w' ∧ cached f ev ∧ fipOwner f = o ∧ fip_pool f = m ∧
    finalizerName ∈ Finalizers (fip_meta f) ∧ DeletionTimestamp (fip_meta f) = None ∧
    st_IPAddr (fip_Status f) = "".
Proof.
  intros Hrely Hwf Hr Hh Hnh. unfold syncHandler in Hr.
  destruct (SplitMetaNamespaceKey key) as [[ns nm]|e]; [|cbv [ret] in Hr; by simplify_eq].
  unfold bind at 1 in Hr. destruct (api _ w) as [rf w1] eqn:Ha.
  apply (api_step (respects o) Hrely) in Ha as [[Hw1 _ Hh1] He1].
  destruct rf as [f|e]; [|case_match; cbv [ret] in Hr; simplify_eq; by apply Hh1 in Hh].
  set (ev := mkEvent _ _ _) in He1.
  assert (¬ holds (alloc w1) m i o) as Hnh1 by by rewrite Hh1.
  assert (∀ w2 : World S, shrinks o (alloc w1) (alloc w2) → ¬ holds (alloc w2) m i o) as Hshr.
  { intros w2 [_ Hs] Hi. by destruct (Hs _ _ Hi). }
  destruct (DeletionTimestamp (fip_meta f)) eqn:Hdel; cbn [is_some] in Hr.
  { exfalso. destruct (containsString _ _); [|cbv [ret] in Hr; by simplify_eq].
    destruct (quietly_reconcileDelete o f Hrely w1 (Hw1 Hwf)) as [Hs _]. rewrite Hr in Hs.
    by eapply Hshr. }
  destruct (containsString _ _) eqn:Hfin; cbn [negb] in Hr.
  2: { exfalso. unfold bind in Hr. destruct (api _ w1) as [ra w2] eqn:Ha.
    apply (api_step (respects o) Hrely) in Ha as [Hs _]. apply respects_shrinks in Hs.
    destruct ra; cbv [ret] in Hr; simplify_eq; by eapply Hshr. }
  apply containsString_true in Hfin. unfold reconcile in Hr. case_bool_decide as Hst.
  2: { exfalso. destruct (quietly_reconcile_assigned o f Hrely w1 (Hw1 Hwf)) as [Hs _].
    rewrite Hr in Hs. apply respects_shrinks in Hs. by eapply Hshr. }
  destruct (quietly_reconcile_allocate o f Hrely w1 (Hw1 Hwf)) as [[_ Hgrow] (l & Hl & _)].
  rewrite Hr in Hgrow, Hl. simpl in Hl. destruct (Hgrow m i Hh) as [?|[Ho Hp]]; [done|].
  exists f, ev. rewrite Hl, He1. split_and!; try done. apply elem_of_app. right. by left.
Qed.

(** the condition list never grows beyond 30 entries, always ends with the
    condition just set, keeps the most recent of the older ones in order, and
    setting the same condition again changes nothing, not even the time. *)
Theorem setCondition_correct conditions c (w : World S) cs w' :
  Z.of_nat (length conditions) <= maxConditions →
  setCondition conditions c w = (cs, w') →
  Z.of_nat (length cs) <= maxConditions ∧ repeats_last cs c = true ∧
  (cs = conditions ∨ ∃ k t, (k <= 1)%nat ∧ cs = drop k conditions ++ [stamp c t]) ∧
  ∀ w2 : World S, setCondition cs c w2 = (cs, w2).
Proof.
  intros Hlen Hs. unfold setCondition in Hs.
  assert (∀ cs, repeats_last cs c = true → ∀ w2 : World S, setCondition cs c w2 = (cs, w2)) as Hidem.
  { intros cs0 Hr w2. unfold setCondition. by rewrite Hr. }
  destruct (repeats_last conditions c) eqn:Hrep.
  - cbv [ret] in Hs. simplify_eq. split_and!; auto.
  - unfold bind in Hs. destruct (now w) as [t w1]. cbv [ret] in Hs. simplify_eq.
    set (conds := if _ <=? _ then _ else _).
    assert (conds = drop 0 conditions ∧ Z.of_nat (length conditions) < maxConditions
            ∨ conds = drop 1 conditions) as Hc.
    { unfold conds. destruct (Z.leb_spec maxConditions (Z.of_nat (length conditions))).
      - right. by destruct conditions.
      - left. by rewrite drop_0. }
    assert (repeats_last (conds ++ [stamp c t]) c = true) as Hlast.
    { unfold repeats_last. rewrite last_snoc. unfold same_condition, stamp. simpl.
      by rewrite !bool_decide_true. }
    split_and!; [|done| |by apply Hidem].
    + rewrite length_app. destruct Hc as [[-> ?]| ->]; rewrite length_drop; simpl; unfold maxConditions in *; lia.
    + right. destruct Hc as [[-> ?]| ->]; eexists _, t; (split; [|reflexivity]); lia.
Qed.

(** The used counter of a quota entry is the number of its addresses. *)
Definition entry_ok (fi : FipInfo) : Prop :=
  fi_Used fi = Z.of_nat (size (default ∅ (fi_Allocated fi))).

(** the quota entry of a pool counts its addresses: recording an allocation
    or a release keeps the used counter equal to the number of addresses, never
    negative, an address recorded twice is counted once, and releasing a newly
    recorded address gives the counter and the addresses back. *)
Theorem quota_entry_counts fi family ip cluster :
  entry_ok fi → fi_Used fi < two63 - 1 →
  entry_ok (count_allocation fi family ip cluster) ∧
  (∀ fi', uncount_allocation fi ip = Some fi' → entry_ok fi' ∧ 0 <= fi_Used fi') ∧
  (mhas (fi_Allocated fi) ip = false →
   ∃ fi', uncount_allocation (count_allocation fi family ip cluster) ip = Some fi' ∧
     fi_Used fi' = fi_Used fi ∧ default ∅ (fi_Allocated fi') = default ∅ (fi_Allocated fi)).
Proof.
  intros Hok Hmax. unfold entry_ok in *. unfold count_allocation, uncount_allocation, mhas. cbn.
  set (m := default ∅ (fi_Allocated fi)) in *.
  assert (mlookup (fi_Allocated fi) ip = m !! ip) as Hlk.
  { unfold m, mlookup. destruct (fi_Allocated fi); simpl; [done | by rewrite lookup_empty]. }
  assert (wrap64 (fi_Used fi + 1) = fi_Used fi + 1) as Hwrap by (apply wrap64_small; unfold two63 in *; lia).
  rewrite Hlk, Hwrap, lookup_insert_eq. cbn [is_some]. split_and!.
  - destruct (m !! ip) as [x|] eqn:Hip; cbn [is_some].
    + rewrite map_size_insert_Some by eauto. done.
    + rewrite map_size_insert_None by done. lia.
  - intros fi'. destruct (m !! ip) as [x|] eqn:Hip; cbn [is_some]; [|done]. intros ?. simplify_eq/=.
    assert (size m ≠ 0%nat) by (apply map_size_ne_0_lookup; eauto).
    assert (default ∅ (option_map (delete ip) (fi_Allocated fi)) = delete ip m) as ->.
    { unfold m. destruct (fi_Allocated fi); simpl; [done | by rewrite delete_empty]. }
    rewrite map_size_delete_Some by eauto. destruct (Z.ltb_spec 0 (fi_Used fi)); lia.
  - intros Hno. rewrite Hno. eexists. split; [reflexivity|]. cbn.
    destruct (m !! ip) eqn:Hip; [done|]. rewrite delete_insert_id by done.
    destruct (Z.ltb_spec 0 (fi_Used fi + 1)); split; (done || lia).
Qed.
End FipCorrect.
