(* ===== verification/MemKube.v ===== *)
(** A concrete cluster: an in-memory API server with optimistic concurrency,
    finalizers and injected faults, which instantiates [KubeAPI].  It exists to
    evaluate the controllers on concrete inputs; no theorem about the program
    depends on it. *)

From Stdlib Require Import Ascii.
From S2P Require Import Prelude GoStd NetIP NetIPFacts Ipam IpamSpec IpamCorrect ApiTypes Kube.

(** A fault of the next write: it fails, after being committed or not. *)
Record Fault := mkFault { f_err : error; f_committed : bool }.

Record Mem := mkMem {
  m_fips : gmap string FloatingIP;      (* by "namespace/name" *)
  m_pools : gmap string FloatingIPPool;
  m_quotas : gmap string FloatingIPProjectQuota;
  m_faults : list (option Fault);       (* one per write *)
  m_clock : time
}.

Definition notFound {R} : res R := Err (mkErr KNotFound "not found").
Definition conflict {R} : res R := Err (mkErr KConflict "the object has been modified").

Definition of_option {R} (o : option R) : res R := match o with Some x => Ok x | None => notFound end.

Definition bump (m : ObjectMeta) (m_clock : time) : ObjectMeta :=
  mkMeta (Name m) (Namespace m) (Labels m) (Annotations m) (Finalizers m) (itoa m_clock)
    (CreationTimestamp m) (DeletionTimestamp m).

Definition fip_key (f : FloatingIP) : string := Namespace (fip_meta f) +:+ "/" +:+ Name (fip_meta f).

Definition set_m_fips (s : Mem) (m : gmap string FloatingIP) : Mem :=
  mkMem m (m_pools s) (m_quotas s) (m_faults s) (m_clock s + 1).
Definition set_m_pools (s : Mem) (m : gmap string FloatingIPPool) : Mem :=
  mkMem (m_fips s) m (m_quotas s) (m_faults s) (m_clock s + 1).
Definition set_m_quotas (s : Mem) (m : gmap string FloatingIPProjectQuota) : Mem :=
  mkMem (m_fips s) (m_pools s) m (m_faults s) (m_clock s + 1).

(** A write, subject to the next fault. *)
Definition write {R} (s : Mem) (r : res R * Mem) : res R * Mem :=
  match m_faults s with
  | [] => r
  | None :: fs => (r.1, mkMem (m_fips r.2) (m_pools r.2) (m_quotas r.2) fs (m_clock r.2))
  | Some f :: fs =>
      let s' := if f_committed f then r.2 else s in
      (Err (f_err f), mkMem (m_fips s') (m_pools s') (m_quotas s') fs (m_clock s'))
  end.

(** Storing an object: gone if it is being deleted and has no finalizer left. *)
Definition store_fip (s : Mem) (f : FloatingIP) : res FloatingIP * Mem :=
  let f := set_fip_meta f (bump (fip_meta f) (m_clock s)) in
  if is_some (DeletionTimestamp (fip_meta f)) && bool_decide (Finalizers (fip_meta f) = [])
  then (Ok f, set_m_fips s (delete (fip_key f) (m_fips s)))
  else (Ok f, set_m_fips s (<[fip_key f := f]> (m_fips s))).

(** Optimistic concurrency: the version read must be the version stored. *)
Definition update_fip (s : Mem) (f : FloatingIP) (merge : FloatingIP → FloatingIP)
    : res FloatingIP * Mem :=
  match m_fips s !! fip_key f with
  | None => (notFound, s)
  | Some cur =>
      if bool_decide (ResourceVersion (fip_meta f) = ResourceVersion (fip_meta cur))
      then store_fip s (merge cur) else (conflict, s)
  end.

Definition delete_fip (s : Mem) (key : string) : res unit * Mem :=
  match m_fips s !! key with
  | None => (notFound, s)
  | Some f =>
      let m := fip_meta f in
      let m := mkMeta (Name m) (Namespace m) (Labels m) (Annotations m) (Finalizers m)
                 (ResourceVersion m) (CreationTimestamp m)
                 (Some (default (m_clock s) (DeletionTimestamp m))) in
      (Ok tt, (store_fip s (set_fip_meta f m)).2)
  end.

Definition matches (selector : list (string * string)) (m : ObjectMeta) : bool :=
  forallb (λ kv, bool_decide (mlookup (Labels m) kv.1 = Some kv.2)) selector.

Definition generate_name (f : FloatingIP) (gen : string) (n : Z) : FloatingIP :=
  let m := fip_meta f in
  set_fip_meta f (mkMeta (gen +:+ itoa n) (Namespace m) (Labels m) (Annotations m) (Finalizers m)
    (ResourceVersion m) (CreationTimestamp m) (DeletionTimestamp m)).

Definition list_fips (s : Mem) (ns : string) (selector : list (string * string)) : list FloatingIP :=
  filter (λ f, (bool_decide (ns = "") || bool_decide (Namespace (fip_meta f) = ns))
               && matches selector (fip_meta f) = true) (map_to_list (m_fips s)).*2.

Definition mem_exec {R : Type} (c : Call R) : Mem → res R * Mem :=
  match c in Call R return Mem → res R * Mem with
  | GetFIP ns n | ListerGetFIP ns n => λ s, (of_option (m_fips s !! (ns +:+ "/" +:+ n)), s)
  | ListFIPs ns sel => λ s, (Ok (list_fips s ns sel), s)
  | ListerListFIPs sel => λ s, (Ok (list_fips s "" (option_list sel)), s)
  | WatchFIP ns n _ => λ s, (Ok [WatchObject (m_fips s !! (ns +:+ "/" +:+ n))], s)
  | ListProjects => λ s, (Ok (Some [mkProject "p1" "ns"; mkProject "p2" "ns"]), s)
  | GetSecret _ _ => λ s, (Ok {["project" := "p1"; "clientSecret" := "secret"]}, s)
  | CtxErr => λ s, (Ok tt, s)
  | SleepWithContext _ => λ s, (Ok tt, s)
  | CreateFIP gen f => λ s, write s
      (let f := if bool_decide (Name (fip_meta f) = "") then generate_name f gen (m_clock s) else f in
       if is_some (m_fips s !! fip_key f)
       then (Err (mkErr KAlreadyExists "already exists"), s) else store_fip s f)
  | UpdateFIP f => λ s, write s
      (update_fip s f (λ cur, mkFIP (fip_meta f) (fip_Spec f) (fip_Status cur)))
  | UpdateStatusFIP f => λ s, write s
      (update_fip s f (λ cur, set_fip_Status cur (fip_Status f)))
  | ApplyFIPFinalizers ns n fin => λ s, write s
      match m_fips s !! (ns +:+ "/" +:+ n) with
      | None => (notFound, s)
      | Some cur => store_fip s (set_fip_meta cur (set_Finalizers (fip_meta cur) fin))
      end
  | DeleteFIP ns n => λ s, write s (delete_fip s (ns +:+ "/" +:+ n))
  | GetPool n | ListerGetPool n => λ s, (of_option (m_pools s !! n), s)
  | UpdateStatusPool p => λ s, write s
      match m_pools s !! Name (pool_meta p) with
      | None => (notFound, s)
      | Some cur =>
          if bool_decide (ResourceVersion (pool_meta p) = ResourceVersion (pool_meta cur)) then
            let p := mkFIPPool (bump (pool_meta cur) (m_clock s)) (pool_Spec cur) (pool_Status p) in
            (Ok p, set_m_pools s (<[Name (pool_meta p) := p]> (m_pools s)))
          else (conflict, s)
      end
  | GetQuota n | ListerGetQuota n => λ s, (of_option (m_quotas s !! n), s)
  | UpdateQuota q => λ s, write s
      match m_quotas s !! Name (quota_meta q) with
      | None => (notFound, s)
      | Some cur =>
          if bool_decide (ResourceVersion (quota_meta q) = ResourceVersion (quota_meta cur)) then
            let q := mkQuota (bump (quota_meta q) (m_clock s)) (quota_Spec q) (quota_Status cur) in
            (Ok q, set_m_quotas s
              (if is_some (DeletionTimestamp (quota_meta q))
                  && bool_decide (Finalizers (quota_meta q) = [])
               then delete (Name (quota_meta q)) (m_quotas s)
               else <[Name (quota_meta q) := q]> (m_quotas s)))
          else (conflict, s)
      end
  | UpdateStatusQuota q => λ s, write s
      match m_quotas s !! Name (quota_meta q) with
      | None => (notFound, s)
      | Some cur =>
          if bool_decide (ResourceVersion (quota_meta q) = ResourceVersion (quota_meta cur)) then
            let q := mkQuota (bump (quota_meta cur) (m_clock s)) (quota_Spec cur) (quota_Status q) in
            (Ok q, set_m_quotas s (<[Name (quota_meta q) := q]> (m_quotas s)))
          else (conflict, s)
      end
  | QueueAdd _ | QueueAddRateLimited _ | QueueAddAfter _ _ | QueueForget _ | QueueDone _ =>
      λ s, (Ok tt, s)
  end.

(** Five attempts, as [retry.DefaultRetry]. *)
Fixpoint mem_retry {S A} (steps : nat) (fn : World S → res A * World S) (w : World S)
    : res A * World S :=
  match steps with
  | O => fn w
  | Datatypes.S steps =>
      match fn w with
      | (Err e, w') => if IsConflict e then mem_retry steps fn w' else (Err e, w')
      | r => r
      end
  end.

Definition split_key (key : string) : res (string * string) :=
  match IndexByte key "/" with
  | None => Ok ("", key)
  | Some i =>
      let rest := str_drop (S i) key in
      if is_some (IndexByte rest "/") then Err (errorf "unexpected key format")
      else Ok (str_take i key, rest)
  end.

Definition mem_kube (oth : Mem → IPAllocator → IPAllocator) : KubeAPI Mem := {|
  exec := @mem_exec;
  others := λ s a, (s, oth s a);
  Now := λ s, (m_clock s, mkMem (m_fips s) (m_pools s) (m_quotas s) (m_faults s) (m_clock s + 1));
  rand_Int := λ max s, (Some (m_clock s mod max),
                mkMem (m_fips s) (m_pools s) (m_quotas s) (m_faults s) (m_clock s + 1));
  SplitMetaNamespaceKey := split_key;
  RetryOnConflict := λ A, mem_retry 4
|}.

Lemma mem_retry_spec oth : @RetrySpec Mem (mem_kube oth).
Proof.
  intros A fn w. change (RetryOnConflict fn w) with (mem_retry 4 fn w). generalize 4%nat as n.
  intros n. revert w. induction n as [|n IH]; intros w; cbn [mem_retry].
  - apply retried_last. by destruct (fn w).
  - destruct (fn w) as [[u|e] w'] eqn:Hf; [by apply retried_last|].
    destruct (IsConflict e) eqn:Hc; [|by apply retried_last].
    eapply retried_again; [exact Hf | exact Hc | apply IH].
Qed.

Definition world (s : Mem) (a : IPAllocator) : World Mem := mkWorld s a ∅ [].
