(* ===== verification/FipDemo.v ===== *)
(** The floating IP controller on a concrete cluster: instances of its theorems,
    with another floating IP claiming an address between every two operations. *)

From S2P Require Import Prelude GoStd NetIP NetIPFacts Ipam IpamSpec IpamCorrect ApiTypes Kube ServiceLabels FipController FipCorrect MemKube.

#[local] Existing Instances sorted_range no_err_text.

(** ** A cluster *)

Definition demo_meta (ns name : string) (labels : gomap string) (finalizers : list string) : ObjectMeta :=
  mkMeta name ns labels None finalizers "1" 0 None.

Definition demo_fip (ip : option string) (status_ip : string) : FloatingIP :=
  mkFIP (demo_meta "ns" "a" (Some {[projectNameLabel := "p1"]}) [finalizerName])
    (mkFIPSpec ip "pool") (mkFIPStatus status_ip "" None []).

Definition demo_pool : FloatingIPPool :=
  mkFIPPool (demo_meta "" "pool" None [])
    (mkPoolSp (Some (mkIPConfig "IPv4" "10.0.0.0/29" (mkPool "10.0.0.2" "10.0.0.5" ["10.0.0.3"]))) "" "" "")
    (mkPoolStatus None 0 0).

Definition demo_quota : FloatingIPProjectQuota :=
  mkQuota (demo_meta "" "p1" None []) (mkQuotaSpec "Project 1" (Some {["pool" := 2]})) (mkQuotaStatus None).

Definition demo_cluster (f : FloatingIP) (faults : list (option Fault)) : Mem :=
  mkMem {[fip_key f := f]} {["pool" := demo_pool]} {["p1" := demo_quota]} faults 10.

(** ** The rest of the system: [ns/b] keeps claiming an address *)

Definition rival (_ : Mem) (a : IPAllocator) : IPAllocator :=
  (GetIPOwned a "pool" "10.0.0.5" "ns/b").2.

Definition demo_kube : KubeAPI Mem := mem_kube rival.
#[local] Existing Instance demo_kube.

Lemma claim_respects o a n s ip o' :
  o' ≠ o → ipam a !! n = Some s → ips s !! ip = Some false →
  respects o a (set_subnet a n (claim s ip o')).
Proof.
  intros Hne Hs Hip. assert (is_Some (ips s !! ip)) as Hsome by eauto. constructor.
  - intros Hwf. apply wf_set; [done|]. destruct (Hwf _ _ Hs) as (lo & hi & Hw).
    exists lo, hi. by apply wf_claim.
  - intros m Hn p. rewrite pools_set. destruct (decide (m = n)) as [->|].
    + rewrite lookup_insert_eq, (same_pool s) by by apply same_claim. intros ?. simplify_eq. simpl.
      apply (Hn (pool_of s)). by rewrite pools_lookup, Hs.
    + rewrite lookup_insert_ne by done. apply Hn.
  - intros m k. destruct (decide (m = n)) as [->|]; [|by apply holds_set_other].
    rewrite holds_set, claims_claim, holds_lookup. destruct (decide (k = ip)) as [->|].
    + rewrite lookup_insert_eq. split; [congruence|]. intros (s' & ? & Hc). simplify_eq.
      apply claims_Some in Hc as [? _]. congruence.
    + rewrite lookup_insert_ne by done. naive_solver.
Qed.

Lemma rival_respects o : o ≠ "ns/b" → rely o.
Proof.
  intros Hne s a. simpl. unfold rival, GetIPOwned. simpl.
  destruct (reclaims _ _ _ _); [done|]. unfold getIP.
  destruct (ipam a !! "pool") as [sub|] eqn:Hs; [|done].
  rewrite bool_decide_false by done. cbn [negb].
  destruct (ParseAddr _) as [g|]; [|done]. destruct (Prefix_Contains _ _); [|done]. cbn [negb].
  destruct (equals_broadcast _ _); [done|]. destruct (ips sub !! _) as [[]|] eqn:Hi; [done| |done].
  by apply claim_respects.
Qed.

Lemma demo_named : all_named "pool" demo_alloc.
Proof.
  intros p Hp. assert (p = default (mkPoolSpec ∅ ∅ ∅) (pools demo_alloc !! "pool")) as -> by (by rewrite Hp).
  vm_compute. intros x Hx. exact Hx.
Qed.

Definition run_demo (f : FloatingIP) (faults : list (option Fault)) : res unit * World Mem :=
  reconcile f (world (demo_cluster f faults) demo_alloc).

Definition lost_write : list (option Fault) := [Some (mkFault (errorf "timeout") false)].
Definition lost_reply : list (option Fault) := [Some (mkFault (errorf "timeout") true)].

Example demo_allocates :
  (run_demo (demo_fip None "") []).1 = Ok tt ∧
  holds (alloc (run_demo (demo_fip None "") []).2) "pool" "10.0.0.2" "ns/a" ∧
  holds (alloc (run_demo (demo_fip None "") []).2) "pool" "10.0.0.5" "ns/b".
Proof. vm_compute. done. Qed.

(** A lost write gives the address back, a lost reply keeps it. *)
Example demo_lost :
  is_err (run_demo (demo_fip None "") lost_write).1 = true ∧
  ¬ holds (alloc (run_demo (demo_fip None "") lost_write).2) "pool" "10.0.0.2" "ns/a" ∧
  holds (alloc (run_demo (demo_fip None "") lost_reply).2) "pool" "10.0.0.2" "ns/a".
Proof. vm_compute. done. Qed.

(** ** Instances of the theorems *)

Lemma reconcile_writes_backed_witness :
  ∃ l, events (run_demo (demo_fip None "") []).2 = l ++ [] ∧
    Forall (backed "pool" "ns/a") l.
Proof.
  apply (@reconcile_writes_backed Mem demo_kube sorted_range no_err_text (mem_retry_spec rival)
    (demo_fip None "") (world (demo_cluster (demo_fip None "") []) demo_alloc)
    (run_demo (demo_fip None "") []).1).
  - apply rival_respects. discriminate.
  - apply demo_wf.
  - reflexivity.
  - unfold run_demo. apply surjective_pairing.
Defined.

(** Two floating IPs, one after the other. *)
Definition demo_fip2 : FloatingIP :=
  mkFIP (demo_meta "ns" "c" (Some {[projectNameLabel := "p1"]}) [finalizerName]) (mkFIPSpec None "pool") (mkFIPStatus "" "" None []).
Definition first_run : res unit * World Mem := run_demo (demo_fip None "") [].
Definition second_start : World Mem := world (demo_cluster demo_fip2 []) (alloc first_run.2).
Definition second_run : res unit * World Mem := reconcile demo_fip2 second_start.

Definition announced (w : World Mem) : list Event :=
  List.filter (λ ev, match ev_call ev with
    | UpdateStatusFIP f => bool_decide (State (fip_Status f) = "Allocated")
    | _ => false
    end) (events w).
Definition announcement (w : World Mem) : Event :=
  List.hd (mkEvent demo_alloc CtxErr (Ok tt)) (announced w).

Lemma announced_during w ev : announced w = [ev] → ∃ l, events w = l ++ [] ∧ ev ∈ l.
Proof.
  intros Ha. exists (events w). split; [by rewrite app_nil_r|]. apply list_elem_of_In.
  assert (In ev (announced w)) as [Hi _]%filter_In by (rewrite Ha; by left). done.
Qed.

Lemma run_all_wf cs : ∀ a rs a', wf a → run_all cs a = Some (rs, a') → wf a'.
Proof.
  induction cs as [|c cs IH]; intros a rs a' Hwf Hr; simpl in Hr; [by simplify_eq|].
  destruct (run c a) as [[r1 a1]|] eqn:Hrun; [|done]. simpl in Hr.
  destruct (run_all cs a1) as [[rs2 a2]|] eqn:Hrest; [|done]. simplify_eq/=.
  apply run_outcome in Hrun; [|done]. eapply IH; [by eapply outcome_wf | done].
Qed.

Lemma both_claimed_wf a : (∃ rs, run_all [OpGetIPOwned "pool" "10.0.0.5" "ns/b"; OpGetIPOwned "pool" "" "ns/a"] demo_alloc = Some (rs, a)) → wf a.
Proof. intros [rs Hr]. eapply run_all_wf; [apply demo_wf | exact Hr]. Qed.

Lemma announced_addresses_differ_witness :
  (announces "10.0.0.2" (announcement first_run.2) ∧ announces "10.0.0.4" (announcement second_run.2)) ∧ "10.0.0.2" ≠ "10.0.0.4".
Proof.
  split; [by vm_compute|].
  apply (@announced_addresses_differ Mem demo_kube sorted_range no_err_text (mem_retry_spec rival)
    (demo_fip None "") demo_fip2 (world (demo_cluster (demo_fip None "") []) demo_alloc) first_run.1 first_run.2
    second_start second_run.1 second_run.2 (announcement first_run.2) (announcement second_run.2) "10.0.0.2" "10.0.0.4"
    [OpGetIPOwned "pool" "" "ns/c"] [RAddr (Ok "10.0.0.4")]).
  - by apply rival_respects.
  - by apply rival_respects.
  - apply demo_wf.
  - apply both_claimed_wf. eexists. vm_compute. reflexivity.
  - reflexivity.
  - reflexivity.
  - unfold first_run, run_demo. apply surjective_pairing.
  - unfold second_run. apply surjective_pairing.
  - apply announced_during. vm_compute. reflexivity.
  - by vm_compute.
  - apply announced_during. vm_compute. reflexivity.
  - by vm_compute.
  - reflexivity.
  - by vm_compute.
  - apply both_claimed_wf. eexists. vm_compute. reflexivity.
  - vm_compute. reflexivity.
  - by repeat constructor.
Defined.

Lemma reconcile_leaks_no_claim_witness :
  "pool" = "pool" ∧
  ∃ ev, during (world (demo_cluster (demo_fip None "") lost_reply) demo_alloc) (run_demo (demo_fip None "") lost_reply).2 ev ∧
    holds (ev_alloc ev) "pool" "10.0.0.2" "ns/a" ∧ shows_persisted (demo_fip None "") "10.0.0.2" ev.
Proof.
  apply (@reconcile_leaks_no_claim Mem demo_kube sorted_range no_err_text (mem_retry_spec rival)
    (demo_fip None "") (world (demo_cluster (demo_fip None "") lost_reply) demo_alloc)
    (run_demo (demo_fip None "") lost_reply).1).
  - apply rival_respects. discriminate.
  - apply demo_wf.
  - apply demo_named.
  - reflexivity.
  - unfold run_demo. apply surjective_pairing.
  - vm_compute. reflexivity.
  - vm_compute. discriminate.
Defined.

Definition doomed : FloatingIP := demo_fip (Some "10.0.0.4") "10.0.0.4".
Definition doomed_alloc : IPAllocator := (GetIPOwned demo_alloc "pool" "10.0.0.4" "ns/a").2.

Lemma doomed_wf : wf doomed_alloc.
Proof.
  destruct (GetIPOwned demo_alloc "pool" "10.0.0.4" "ns/a") as [r a'] eqn:Hg.
  unfold doomed_alloc. rewrite Hg. by apply (GetIPOwned_effect _ _ _ _ _ _ demo_wf) in Hg as [? _].
Qed.

Definition run_doomed : res unit * World Mem :=
  reconcileDelete doomed (world (demo_cluster doomed []) doomed_alloc).

Lemma reconcileDelete_clears_witness :
  run_doomed.1 = Ok tt ∧ ¬ holds (alloc run_doomed.2) "pool" "10.0.0.4" "ns/a".
Proof.
  assert (run_doomed.1 = Ok tt) as Hok by (vm_compute; reflexivity). split; [exact Hok|].
  apply (@reconcileDelete_clears Mem demo_kube sorted_range no_err_text (mem_retry_spec rival)
    doomed (world (demo_cluster doomed []) doomed_alloc) run_doomed.1 run_doomed.2).
  - apply rival_respects. discriminate.
  - apply doomed_wf.
  - unfold run_doomed. apply surjective_pairing.
  - exact Hok.
Defined.

Definition run_sync : res unit * World Mem :=
  syncHandler "ns/a" (world (demo_cluster (demo_fip None "") []) demo_alloc).

Lemma syncHandler_claims_need_finalizer_witness :
  ∃ f ev, ev ∈ events run_sync.2 ∧ cached f ev ∧ fipOwner f = "ns/a" ∧ fip_pool f = "pool" ∧
    finalizerName ∈ Finalizers (fip_meta f) ∧ DeletionTimestamp (fip_meta f) = None ∧
    st_IPAddr (fip_Status f) = "".
Proof.
  apply (@syncHandler_claims_need_finalizer Mem demo_kube sorted_range no_err_text (mem_retry_spec rival)
    "ns/a" (world (demo_cluster (demo_fip None "") []) demo_alloc) run_sync.1 run_sync.2 "ns/a" "pool" "10.0.0.2").
  - apply rival_respects. discriminate.
  - apply demo_wf.
  - unfold run_sync. apply surjective_pairing.
  - vm_compute. reflexivity.
  - vm_compute. discriminate.
Defined.

Definition ready (msg : string) : Condition := mkCond "Ready" "True" "IPAssigned" msg 0.

Lemma setCondition_correct_witness :
  Z.of_nat (length (setCondition (replicate 30 (ready "old")) (ready "new")
    (world (demo_cluster (demo_fip None "") []) demo_alloc)).1) <= maxConditions.
Proof.
  apply (@setCondition_correct Mem demo_kube (replicate 30 (ready "old")) (ready "new")
    (world (demo_cluster (demo_fip None "") []) demo_alloc) _
    (setCondition (replicate 30 (ready "old")) (ready "new")
       (world (demo_cluster (demo_fip None "") []) demo_alloc)).2).
  - vm_compute. discriminate.
  - apply surjective_pairing.
Defined.

Lemma quota_entry_counts_witness :
  entry_ok (count_allocation (mkFipInfo "IPv4" (Some {["10.0.0.2" := "c1"]}) 1) "IPv4" "10.0.0.4" "c2").
Proof.
  apply (quota_entry_counts (mkFipInfo "IPv4" (Some {["10.0.0.2" := "c1"]}) 1)).
  - vm_compute. reflexivity.
  - vm_compute. reflexivity.
Defined.
