(* ===== verification/PoolController.v ===== *)
(** The pool controller, [pkg/controller/floatingippool/controller.go]: it
    rebuilds the allocator's subnet from a pool and the floating IPs that use
    it, and reports the usage in the pool's status.

    A result of [None] says that the call does not return ([RefreshSubnet] may
    loop for ever, see [IpamCorrect.fill_never_stops]). *)

From S2P Require Import Prelude GoStd NetIP NetIPFacts Ipam IpamSpec IpamCorrect ApiTypes Kube FipController FipCorrect MemKube FipDemo.

Section PoolController.
Context {S : Type} `{HKube : KubeAPI S, HRange : MapRange, HText : NetErrText}.
#[local] Open Scope go_scope.

(** The display name of the project a floating IP belongs to. *)
Definition display_name (fip : FloatingIP) : M (World S) string :=
  match mlookup (Labels (fip_meta fip)) projectNameLabel with
  | Some projectName =>
      let! allocatedTo := api (ListerGetQuota projectName) in
      match allocatedTo with
      | Err _ => ret (projectName +:+ " [Unassigned]")
      | Ok q => ret (projectName +:+ " [" +:+ DisplayName (quota_Spec q) +:+ "]")
      end
  | None => ret "Unassigned"
  end.

(** Floating IPs whose address the pool must keep reserved. *)
Definition occupies (poolName : string) (fip : FloatingIP) : bool :=
  bool_decide (fip_pool fip = poolName) && negb (is_some (DeletionTimestamp (fip_meta fip)))
  && negb (bool_decide (st_IPAddr (fip_Status fip) = "")).

(** The loop over all floating IPs. *)
Fixpoint collect (poolName : string) (fips : list FloatingIP) (allocatedIPs : list string)
    (allocatedMap : gmap string string) : M (World S) (list string * gmap string string) :=
  match fips with
  | [] => ret (allocatedIPs, allocatedMap)
  | fip :: fips =>
      if occupies poolName fip then
        let ip := st_IPAddr (fip_Status fip) in
        let! allocatedDisplayName := display_name fip in
        collect poolName fips (allocatedIPs ++ [ip]) (<[ip := allocatedDisplayName]> allocatedMap)
      else collect poolName fips allocatedIPs allocatedMap
  end.

Definition excluded_map (excludes : list string) : gmap string string :=
  foldl (λ m ip, <[ip := "excluded"]> m) ∅ excludes.

Definition refresh (poolName : string) (cfg : IPConfig) (allocatedIPs : list string)
    : M (World S) (option (res unit)) :=
  ipam_call (λ a,
    match RefreshSubnet a poolName (Subnet cfg) (p_Start (ipc_Pool cfg)) (p_End (ipc_Pool cfg))
            (Exclude (ipc_Pool cfg)) allocatedIPs with
    | Some (r, a') => (Some r, a')
    | None => (None, a)
    end).

Definition update_pool_status (poolName : string) (allocatedMap : gmap string string)
    : M (World S) (res unit) :=
  try! poolToUpdate := api (GetPool poolName) else err =>
    ret (Err (wrapf ("failed to get latest version of fip pool " +:+ poolName) err)) in
  let! used := ipam_call (λ a, (Used a poolName, a)) in
  let! available := ipam_call (λ a, (Available a poolName, a)) in
  try! _p := api (UpdateStatusPool (set_pool_Status poolToUpdate
    (mkPoolStatus (Some allocatedMap) used available))) else err => ret (Err err) in
  ret (Ok tt).

Definition sync_pool (pool : FloatingIPPool) (cfg : IPConfig) : M (World S) (option (res unit)) :=
  let poolName := Name (pool_meta pool) in
  try! fips := api (ListerListFIPs None) else err =>
    ret (Some (Err (wrapf "failed to list floatingips" err))) in
  let! collected := collect poolName fips [] (excluded_map (Exclude (ipc_Pool cfg))) in
  let! r := refresh poolName cfg collected.1 in
  match r with
  | None => ret None
  | Some (Err err) =>
      ret (Some (Err (wrapf ("failed to refresh subnet for pool " +:+ poolName) err)))
  | Some (Ok _) =>
      let! u := retry_wrap ("failed to update fip pool status for " +:+ poolName)
        (update_pool_status poolName collected.2) in
      ret (Some u)
  end.

Definition pool_syncHandler (key : string) : M (World S) (option (res unit)) :=
  match SplitMetaNamespaceKey key with
  | Err _ => ret (Some (Ok tt))
  | Ok (_, name) =>
      try! pool := api (ListerGetPool name) else err =>
        (if IsNotFound err then ret (Some (Ok tt)) else ret (Some (Err err))) in
      match ps_IPConfig (pool_Spec pool) with
      | None => ret (Some (Ok tt))
      | Some cfg => sync_pool pool cfg
      end
  end.

Definition pool_processNextWorkItem (obj : option (string + string)) : M (World S) (option bool) :=
  match obj with
  | Some (inl key) =>
      let! r := pool_syncHandler key in
      match r with
      | None => ret None
      | Some r => let! b := finish_item key r in ret (Some b)
      end
  | _ => let! b := processNextWorkItem (λ _, ret (Ok tt)) obj in ret (Some b)
  end.

Definition handleFipPoolDelete (obj : Informed FloatingIPPool) : M (World S) unit :=
  let delete_subnet (pool : FloatingIPPool) :=
    ipam_call (λ a, (tt, DeleteSubnet a (Name (pool_meta pool)))) in
  match obj with
  | Obj pool => delete_subnet pool
  | Tombstone (Some pool) => delete_subnet pool
  | _ => ret tt
  end.

End PoolController.

(** ** Specification *)

(** The state of the allocator right after the refresh, as far as the floating
    IPs are concerned: every address in use and every excluded one that the
    new range can name is taken, and owned claims in range are kept. *)
Definition reserved (poolName : string) (cfg : IPConfig) (fips : list FloatingIP)
    (a a' : IPAllocator) : Prop :=
  ∃ p, pools a' !! poolName = Some p ∧
    (∀ f, f ∈ fips → occupies poolName f = true → st_IPAddr (fip_Status f) ∈ p_named p →
       is_Some (p_taken p !! st_IPAddr (fip_Status f))) ∧
    (∀ ip, ip ∈ Exclude (ipc_Pool cfg) → is_Some (p_taken p !! ip)) ∧
    (∀ ip o, o ≠ "" → ip ∈ p_named p → holds a poolName ip o → p_taken p !! ip = Some o) ∧
    (∀ ip, is_Some (p_taken p !! ip) →
       ip ∈ Exclude (ipc_Pool cfg) ∨
       (∃ f, f ∈ fips ∧ occupies poolName f = true ∧ st_IPAddr (fip_Status f) = ip) ∨
       ∃ o, o ≠ "" ∧ holds a poolName ip o).

(** The server accepted a status of this pool, as read, with this map and these
    counts. *)
Definition wrote_status (poolName : string) (m : gmap string string) (used available : Z) (l : list Event) : Prop :=
  ∃ p : FloatingIPPool, Exists (λ ev, match ev_call ev in Call T return res T → Prop with
      | GetPool n => λ r, n = poolName ∧ r = Ok p
      | _ => λ _, False
      end (ev_result ev)) l ∧
    Exists (λ ev, match ev_call ev in Call T return res T → Prop with
      | UpdateStatusPool q => λ r, q = set_pool_Status p (mkPoolStatus (Some m) used available) ∧ is_ok r = true
      | _ => λ _, False
      end (ev_result ev)) l.

(** What the rest of the system may do at least: calls of the allocator. *)
Definition keeps_wf (a a' : IPAllocator) : Prop := wf a → wf a'.

#[export] Instance keeps_wf_preorder : PreOrder keeps_wf.
Proof. split; [intros a Ha; exact Ha|]. intros a b c H1 H2 Ha. by apply H2, H1. Qed.

(** ** Correctness *)

Section PoolCorrect.
Context {S : Type} `{HKube : KubeAPI S, HRange : MapRange, HText : NetErrText}.
Context `{HRetry : !RetrySpec S}.

Lemma excluded_map_dom ex : dom (excluded_map ex) = list_to_set ex.
Proof.
  unfold excluded_map. assert (∀ m : gmap string string,
    dom (foldl (λ m ip, <[ip:="excluded"]> m) m ex) = list_to_set ex ∪ dom m) as Hg.
  { induction ex as [|ip ex IH]; intros m; simpl; [set_solver|]. rewrite IH, dom_insert_L. set_solver. }
  rewrite Hg, dom_empty_L. set_solver.
Qed.

Definition in_use (poolName : string) (fips : list FloatingIP) : list string :=
  (λ f, st_IPAddr (fip_Status f)) <$> filter (λ f, occupies poolName f = true) fips.

Lemma elem_of_in_use poolName fips ip :
  ip ∈ in_use poolName fips ↔
  ∃ f, f ∈ fips ∧ occupies poolName f = true ∧ st_IPAddr (fip_Status f) = ip.
Proof.
  unfold in_use. rewrite list_elem_of_fmap. setoid_rewrite list_elem_of_filter. naive_solver.
Qed.

(** The loop only looks display names up: the addresses it collects do not
    depend on the cluster. *)
Lemma collect_spec poolName fips : ∀ l m (w : World S) l' m' w',
  collect poolName fips l m w = ((l', m'), w') →
  l' = l ++ in_use poolName fips ∧ dom m' = list_to_set (in_use poolName fips) ∪ dom m.
Proof.
  induction fips as [|f fips IH]; intros l m w l' m' w' Hc; cbn [collect] in Hc.
  - cbv [ret] in Hc. simplify_eq. unfold in_use. simpl. rewrite app_nil_r. split; [done | set_solver].
  - destruct (occupies poolName f) eqn:Ho.
    + assert (in_use poolName (f :: fips) = st_IPAddr (fip_Status f) :: in_use poolName fips) as ->
        by (unfold in_use; by rewrite filter_cons_True).
      unfold bind in Hc. destruct (display_name f w) as [d w1].
      apply IH in Hc as [-> Hd]. rewrite <- app_assoc. split; [done|]. rewrite Hd, dom_insert_L.
      set_solver.
    + assert (in_use poolName (f :: fips) = in_use poolName fips) as ->
        by (unfold in_use; by rewrite filter_cons_False by congruence).
      by apply IH in Hc.
Qed.

Lemma refresh_reserves poolName cfg fips a a' :
  wf a →
  RefreshSubnet a poolName (Subnet cfg) (p_Start (ipc_Pool cfg)) (p_End (ipc_Pool cfg))
    (Exclude (ipc_Pool cfg)) (in_use poolName fips) = Some (Ok tt, a') →
  wf a' ∧ reserved poolName cfg fips a a'.
Proof.
  intros Hwf Hr.
  destruct (run_spec (OpRefreshSubnet poolName (Subnet cfg) (p_Start (ipc_Pool cfg))
    (p_End (ipc_Pool cfg)) (Exclude (ipc_Pool cfg)) (in_use poolName fips)) a (RUnit (Ok tt)) a' Hwf)
    as [Hwf' Hs]; [simpl; by rewrite Hr|]. split; [done|].
  inversion Hs as [? ? Hf| |? ? ? ? ? ? p lo hi _ _ _ Hex [Hown Htaken]| | | | | | | | ]; simplify_eq/=.
  exists p. assert (pools a' = <[poolName := p]> (pools a)) as -> by done. rewrite lookup_insert_eq.
  split_and!; [done | | | |].
  - intros f Hf Ho Hn. apply Htaken. split; [done|]. left. apply elem_of_app. right.
    apply elem_of_in_use. eauto.
  - intros ip Hip. apply Htaken. split; [by apply Hex|]. left. apply elem_of_app. by left.
  - intros ip o Ho Hn Hh. by apply Hown.
  - intros ip Hip. apply Htaken in Hip as [_ [[?|?%elem_of_in_use]%elem_of_app|?]]; auto.
Qed.

(** [rel] is what the rest of the system does to the allocator, whatever it is;
    it keeps the allocator well-formed. *)
Section Sync.
Context (rel : IPAllocator → IPAllocator → Prop) `{!PreOrder rel}.
Context (Hothers : ∀ k a, rel a (others k a).2) (Hrel : ∀ a a', rel a a' → wf a → wf a').

Lemma closed_rel_wf : closed rel wf.
Proof. intros a a1 Hw Hk. by eapply Hrel. Qed.

Lemma retried_final (fn : M (World S) (res unit)) (w : World S) r w' :
  quietly rel wf (λ _, True) fn → wf (alloc w) → RetryOnConflict fn w = (r, w') →
  ∃ w1, quiet rel (λ _, True) w w1 ∧ fn w1 = (r, w').
Proof.
  intros Hfn Hwf Hr. pose proof (RetryOnConflict_spec unit fn w) as Hs. rewrite Hr in Hs. simpl in Hs. clear Hr.
  induction Hs as [w2 r2 w3 Hl|w2 e w3 r2 w4 Hl _ _ IH]; [exists w2; split; [by apply quiet_refl | done]|].
  specialize (Hfn w2 Hwf). rewrite Hl in Hfn. destruct IH as (w1 & Hq & Hf); [by eapply Hrel; [apply Hfn|]|].
  exists w1. split; [by eapply quiet_trans | done].
Qed.

Ltac quiet_pool :=
  repeat first
    [ apply quietly_ret; [assumption || apply _]
    | apply quietly_bind; [assumption || apply _ | apply closed_rel_wf | | intros ?]
    | apply quietly_api; [assumption || apply _ .. | apply closed_rel_wf | ]
    | apply Q_read; [assumption || apply _ || apply closed_rel_wf ..]
    | match goal with |- quietly _ _ _ (match ?x with _ => _ end) => destruct x end ].

Lemma quietly_collect poolName fips : ∀ l m, quietly rel wf (λ _, True) (collect poolName fips l m).
Proof.
  induction fips as [|f fips IH]; intros l m; cbn [collect]; [quiet_pool|].
  destruct (occupies poolName f); [|done]. apply quietly_bind; [apply _ | apply closed_rel_wf | | auto].
  unfold display_name. by quiet_pool.
Qed.

Lemma quietly_update_pool_status poolName m : quietly rel wf (λ _, True) (update_pool_status poolName m).
Proof. unfold update_pool_status. by quiet_pool. Qed.

(** The counts are read between two calls, when the rest of the system may have
    made its own. *)
Lemma update_pool_status_Ok poolName m w w' :
  update_pool_status poolName m w = (Ok tt, w') → ∃ l a1 a2,
    events w' = l ++ events w ∧ rel (alloc w) a1 ∧ rel a1 a2 ∧ rel a2 (alloc w') ∧
    wrote_status poolName m (Used a1 poolName) (Available a2 poolName) l.
Proof.
  unfold update_pool_status, bind, ret. intros Hu.
  destruct (api (GetPool poolName) w) as [[p|] w1] eqn:Hg; [|by simplify_eq].
  apply (api_step rel Hothers) in Hg as [Hr1 He1].
  destruct (ipam_call _ w1) as [u w2] eqn:H2. apply (ipam_step rel Hothers) in H2 as (a1 & Hr2 & [= <- Ha1] & He2).
  destruct (ipam_call _ w2) as [v w3] eqn:H3. apply (ipam_step rel Hothers) in H3 as (a2 & Hr3 & [= <- Ha2] & He3).
  destruct (api _ w3) as [r w4] eqn:Ha. apply (api_step rel Hothers) in Ha as [Hr4 He4].
  destruct r; simplify_eq. eexists [_; _], _, _.
  split; [by rewrite He4, He3, He2, He1|]. split; [by etrans|]. split; [exact Hr3|]. split; [exact Hr4|].
  exists p. split; [by apply Exists_cons_tl, Exists_cons_hd|]. by apply Exists_cons_hd.
Qed.

(** What a successful run went through: the allocator was rebuilt from the list
    that the run has read, and nobody but the rest of the system changed it
    before or after. *)
Definition rebuilt (pool : FloatingIPPool) (cfg : IPConfig) (fips : list FloatingIP)
    (w w' : World S) (a a' : IPAllocator) (m : gmap string string) : Prop :=
  let poolName := Name (pool_meta pool) in
  ∃ l1 l2 a1 a2, events w' = l2 ++ l1 ++ events w ∧ Exists (listed None fips) l1 ∧
    rel (alloc w) a ∧ rel a' a1 ∧ rel a1 a2 ∧ rel a2 (alloc w') ∧
    wrote_status poolName m (Used a1 poolName) (Available a2 poolName) l2.

Lemma sync_pool_run pool cfg w w' :
  wf (alloc w) → sync_pool pool cfg w = (Some (Ok tt), w') →
  ∃ fips a a' m, rebuilt pool cfg fips w w' a a' m ∧ wf a ∧
    RefreshSubnet a (Name (pool_meta pool)) (Subnet cfg) (p_Start (ipc_Pool cfg))
      (p_End (ipc_Pool cfg)) (Exclude (ipc_Pool cfg)) (in_use (Name (pool_meta pool)) fips)
      = Some (Ok tt, a') ∧
    dom m = list_to_set (in_use (Name (pool_meta pool)) fips ++ Exclude (ipc_Pool cfg)).
Proof.
  intros Hwf Hs. unfold sync_pool in Hs. set (poolName := Name (pool_meta pool)) in *.
  unfold bind at 1 in Hs. destruct (api _ w) as [rf w1] eqn:Ha.
  apply (api_step rel Hothers) in Ha as [Hw1 He1]. destruct rf as [fips|]; [|cbv [ret] in Hs; by simplify_eq].
  unfold bind at 1 in Hs. destruct (collect _ _ _ _ w1) as [[l m] w2] eqn:Hc.
  pose proof (quietly_collect poolName fips [] (excluded_map (Exclude (ipc_Pool cfg))) w1
    (Hrel _ _ Hw1 Hwf)) as [Hw2 (l2 & He2 & _)]. rewrite Hc in Hw2, He2. simpl in Hw2, He2.
  apply collect_spec in Hc as [-> Hdom]. cbn [fst snd] in Hs.
  unfold bind at 1 in Hs. destruct (refresh _ _ _ w2) as [rr w3] eqn:Hr. unfold refresh in Hr.
  apply (ipam_step rel Hothers) in Hr as (a & Hwa & Hr & He3).
  change ([] ++ in_use poolName fips) with (in_use poolName fips) in Hr.
  destruct (RefreshSubnet a _ _ _ _ _ _) as [[r3 a3]|] eqn:Href.
  2: { injection Hr as <- _. cbv [ret] in Hs. by simplify_eq. }
  injection Hr as <- ->. destruct r3 as [[]|]; [|cbv [ret] in Hs; by simplify_eq].
  unfold bind at 1 in Hs. destruct (retry_wrap _ _ w3) as [u w4] eqn:Hu. cbv [ret] in Hs. simplify_eq.
  assert (rel (alloc w) a) as Hwa0 by (etrans; [exact Hw1|]; by etrans).
  assert (wf a) as Hwfa by (by eapply Hrel).
  assert (wf (alloc w3)) as Hwf3 by (by eapply refresh_reserves in Href as [? _]).
  destruct (RetryOnConflict (update_pool_status poolName m) w3) as [r6 w6] eqn:Hret.
  unfold retry_wrap, bind in Hu. rewrite Hret in Hu. destruct r6 as [[]|]; cbv [ret] in Hu; simplify_eq.
  apply retried_final in Hret as (w5 & [Hr5 (l5 & He5 & _)] & Hok); [|apply quietly_update_pool_status | done].
  apply update_pool_status_Ok in Hok as (l6 & a1 & a2 & He6 & Hr6 & Hr7 & Hr8 & (p & Hp1 & Hp2)).
  exists fips, a, (alloc w3), m. split_and!; [|done|done|].
  - eexists (l2 ++ [_]), (l6 ++ l5), a1, a2. split; [rewrite He6, He5, He3, He2, He1, <- !app_assoc; done|].
    split; [apply Exists_app; right; by constructor|]. split; [exact Hwa0|]. split; [by etrans|].
    split; [exact Hr7|]. split; [exact Hr8|].
    exists p. split; apply Exists_app; by left.
  - rewrite Hdom, excluded_map_dom, list_to_set_app_L. done.
Qed.

End Sync.
End PoolCorrect.

(** ** Instance *)

#[local] Existing Instances sorted_range no_err_text demo_kube.

Definition busy_cluster : Mem := demo_cluster (demo_fip None "10.0.0.4") [].

Definition demo_pool_config : IPConfig := mkIPConfig "IPv4" "10.0.0.0/29" (mkPool "10.0.0.2" "10.0.0.5" ["10.0.0.3"]).

Definition run_pool : option (res unit) * World Mem := sync_pool demo_pool demo_pool_config (world busy_cluster New).

