(* ===== verification/QuotaController.v ===== *)
(** The project quota controller,
    [pkg/controller/floatingipprojectquota/controller.go]: it recomputes the
    status of a quota from the floating IPs labelled with its name, and cascades
    the deletion of a quota to them. *)

From S2P Require Import Prelude GoStd NetIP NetIPFacts Ipam IpamSpec IpamCorrect ApiTypes Kube FipController FipCorrect MemKube FipDemo.

Definition quotaFinalizerName : string := "rancher.k8s.binbash.org/floatingipprojectquota-cleanup".

(** Nanoseconds. *)
Definition Second : Z := 10 ^ 9.
Definition cascadeRetryBaseDelay : time := 2 * Second.
Definition cascadeRetryMaxDelay : time := 30 * Second.

(** [for i := 1; i < attempt && delay < max; i++ { delay *= 2 }]; [attempt]
    rounds are more than the loop can make. *)
Fixpoint delay_loop (fuel : nat) (i attempt : Z) (delay : time) : time :=
  match fuel with
  | O => delay
  | Datatypes.S fuel =>
      if (i <? attempt) && (delay <? cascadeRetryMaxDelay)
      then delay_loop fuel (i + 1) attempt (delay * 2) else delay
  end.

Definition cascadeRetryDelay (attempt : Z) : time :=
  let delay := delay_loop (Z.to_nat attempt) 1 attempt cascadeRetryBaseDelay in
  if cascadeRetryMaxDelay <? delay then cascadeRetryMaxDelay else delay.

Section QuotaController.
Context {S : Type} `{HKube : KubeAPI S}.
#[local] Open Scope go_scope.

(** ** Recomputing the status *)

(** Whether the loop counts a floating IP for the quota. *)
Definition counted (name : string) (fip : FloatingIP) : bool :=
  bool_decide (mlookup (Labels (fip_meta fip)) projectNameLabel = Some name)
  && negb (bool_decide (fip_pool fip = "")).

(** The entry of a pool seen for the first time. *)
Definition new_entry (poolName : string) : M (World S) FipInfo :=
  let! pool := api (ListerGetPool poolName) in
  ret (mkFipInfo (match pool with Ok p => pool_family p | Err _ => "" end) (Some ∅) 0).

Definition count_fip (fi : FipInfo) (fip : FloatingIP) : FipInfo :=
  if bool_decide (st_IPAddr (fip_Status fip) = "") then fi
  else mkFipInfo (fi_Family fi)
         (Some (<[st_IPAddr (fip_Status fip) := cluster_of fip]> (default ∅ (fi_Allocated fi))))
         (wrap64 (fi_Used fi + 1)).

Fixpoint count_fips (name : string) (fips : list FloatingIP) (newFipsStatus : gmap string FipInfo)
    : M (World S) (gmap string FipInfo) :=
  match fips with
  | [] => ret newFipsStatus
  | fip :: fips =>
      if counted name fip then
        let poolName := fip_pool fip in
        let! fi := match newFipsStatus !! poolName with
                   | Some fi => ret fi
                   | None => new_entry poolName
                   end in
        count_fips name fips (<[poolName := count_fip fi fip]> newFipsStatus)
      else count_fips name fips newFipsStatus
  end.

Definition refresh_quota (quota : FloatingIPProjectQuota) (name : string) : M (World S) (res unit) :=
  try! fips := api (ListerListFIPs None) else err =>
    ret (Err (wrapf "failed to list floatingips" err)) in
  let! newFipsStatus := count_fips name fips ∅ in
  let newStatus := mkQuotaStatus (Some (Some <$> newFipsStatus)) in
  if bool_decide (quota_Status quota = newStatus) then ret (Ok tt)
  else
    try! _q := api (UpdateStatusQuota (set_quota_Status quota newStatus)) else err =>
      ret (Err (wrapf ("could not update status for FloatingIPProjectQuota " +:+ name) err)) in
    ret (Ok tt).

(** ** Cascading a deletion *)

Definition set_retries (f : gmap string Z → gmap string Z) : M (World S) unit :=
  modify (λ w, mkWorld (kube w) (alloc w) (f (retries w)) (events w)).

(** The loop over the attached floating IPs; one that is gone already is
    skipped. *)
Fixpoint delete_fips (name : string) (fips : list FloatingIP) : M (World S) (res unit) :=
  match fips with
  | [] => ret (Ok tt)
  | fip :: fips =>
      let! r := api (DeleteFIP (fip_ns fip) (fip_name fip)) in
      match r with
      | Err err =>
          if IsNotFound err then delete_fips name fips
          else ret (Err (wrapf ("failed to delete floatingip " +:+ fipOwner fip
                 +:+ " during FloatingIPProjectQuota " +:+ name +:+ " deletion") err))
      | Ok _ => delete_fips name fips
      end
  end.

Definition cascade_again (key : string) : M (World S) (res unit) :=
  let! prev := gets (λ w, retries w !! key) in
  let attempt := match prev with Some n => wrap64 (n + 1) | None => 1 end in
  set_retries (<[key := attempt]>) ;;;
  api (QueueAddAfter key (cascadeRetryDelay attempt)) ;;;
  ret (Ok tt).

Definition without_finalizer (q : FloatingIPProjectQuota) : FloatingIPProjectQuota :=
  set_quota_meta q (set_Finalizers (quota_meta q)
    (removeString (Finalizers (quota_meta q)) quotaFinalizerName)).

Definition drop_quota_finalizer (name : string) : M (World S) (res unit) :=
  try! currentQuota := api (GetQuota name) else errGet => ret (Err errGet) in
  try! _q := api (UpdateQuota (without_finalizer currentQuota)) else errUpdate => ret (Err errUpdate) in
  ret (Ok tt).

Definition handleFloatingIPProjectQuotaDelete (key name : string) : M (World S) (res unit) :=
  try! fips := api (ListerListFIPs (Some (projectNameLabel, name))) else err =>
    ret (Err (wrapf ("failed to list floatingips for FloatingIPProjectQuota " +:+ name) err)) in
  match fips with
  | _ :: _ =>
      try! _u := delete_fips name fips else err => ret (Err err) in
      cascade_again key
  | [] =>
      set_retries (delete key) ;;;
      (try! quota := api (GetQuota name) else err =>
        (if IsNotFound err then ret (Ok tt)
         else ret (Err (wrapf ("failed to get FloatingIPProjectQuota " +:+ name) err))) in
       if negb (containsString (Finalizers (quota_meta quota)) quotaFinalizerName) then ret (Ok tt)
       else retry_wrap ("failed to remove finalizer from FloatingIPProjectQuota " +:+ name)
              (drop_quota_finalizer name))
  end.

(** ** The work queue handler *)

Definition with_finalizer (q : FloatingIPProjectQuota) : FloatingIPProjectQuota :=
  set_quota_meta q (set_Finalizers (quota_meta q)
    (Finalizers (quota_meta q) ++ [quotaFinalizerName])).

Definition ensure_finalizer (quota : FloatingIPProjectQuota) (name : string)
    : M (World S) (res FloatingIPProjectQuota) :=
  if containsString (Finalizers (quota_meta quota)) quotaFinalizerName then ret (Ok quota)
  else
    try! _q := api (UpdateQuota (with_finalizer quota)) else err =>
      ret (Err (wrapf ("failed to add finalizer to FloatingIPProjectQuota " +:+ name) err)) in
    ret (Ok (with_finalizer quota)).

Definition quota_syncHandler (key : string) : M (World S) (res unit) :=
  match SplitMetaNamespaceKey key with
  | Err _ => ret (Ok tt)
  | Ok (_, name) =>
      let! q := api (ListerGetQuota name) in
      match q with
      | Err err =>
          if IsNotFound err then set_retries (delete key) ;;; ret (Ok tt) else ret (Err err)
      | Ok quota =>
          if is_some (DeletionTimestamp (quota_meta quota))
          then handleFloatingIPProjectQuotaDelete key name
          else
            try! quota := ensure_finalizer quota name else err => ret (Err err) in
            refresh_quota quota name
      end
  end.

Definition quota_processNextWorkItem : option (string + string) → M (World S) bool :=
  processNextWorkItem quota_syncHandler.

(** Events of floating IPs requeue the quota of their project, if there is one. *)
Definition enqueueQuotaForFloatingIP (obj : Informed FloatingIP) : M (World S) unit :=
  let enqueue (fip : FloatingIP) :=
    match mlookup (Labels (fip_meta fip)) projectNameLabel with
    | None => ret tt
    | Some projectName =>
        if bool_decide (projectName = "") then ret tt
        else
          let! q := api (ListerGetQuota projectName) in
          match q with
          | Err _ => ret tt
          | Ok _ => api (QueueAdd projectName) ;;; ret tt
          end
    end in
  match obj with
  | Obj fip => enqueue fip
  | Tombstone (Some fip) => enqueue fip
  | _ => ret tt
  end.

End QuotaController.

(** ** Specification *)

(** The floating IPs of pool [p] that have an address and count for [name]. *)
Definition with_address (name p : string) (fips : list FloatingIP) : list FloatingIP :=
  filter (λ f, counted name f && bool_decide (fip_pool f = p)
               && negb (bool_decide (st_IPAddr (fip_Status f) = "")) = true) fips.

Definition seen (name p : string) (fips : list FloatingIP) : Prop :=
  ∃ f, f ∈ fips ∧ counted name f = true ∧ fip_pool f = p.

(** The entry of pool [p]: a counter, and for every address the cluster of the
    last floating IP that has it. *)
Record entry_of (name p : string) (fips : list FloatingIP) (fi : FipInfo) : Prop := mkEntryOf {
  entry_used : fi_Used fi = Z.of_nat (length (with_address name p fips));
  entry_alloc : ∃ m, fi_Allocated fi = Some m ∧
    ∀ ip, m !! ip = cluster_of <$> last (filter (λ f, st_IPAddr (fip_Status f) = ip)
                                           (with_address name p fips))
}.

(** An update that takes the finalizer off a quota. *)
Definition releases_quota (name : string) (ev : Event) : Prop :=
  match ev_call ev with
  | UpdateQuota q => containsString (Finalizers (quota_meta q)) quotaFinalizerName = false
  | _ => False
  end.

(** The cache showed exactly these floating IPs of the project. *)
Definition attached (name : string) (fips : list FloatingIP) (ev : Event) : Prop :=
  listed (Some (projectNameLabel, name)) fips ev.

Definition requeued (key : string) (delay : time) (ev : Event) : Prop :=
  match ev_call ev with QueueAddAfter k d => k = key ∧ d = delay | _ => False end.

Definition asked_delete (f : FloatingIP) (ev : Event) : Prop :=
  match ev_call ev with
  | DeleteFIP ns n => ns = fip_ns f ∧ n = fip_name f
  | _ => False
  end.

Definition wrote_quota (st : FloatingIPProjectQuotaStatus) (ev : Event) : Prop :=
  match ev_call ev in Call T return res T → Prop with
  | UpdateStatusQuota q => λ r, quota_Status q = st ∧ is_ok r = true
  | _ => λ _, False
  end (ev_result ev).

(** What the status says of the floating IPs of a project. *)
Definition describes (name : string) (fips : list FloatingIP) (m : gmap string FipInfo) : Prop :=
  ∀ p, (is_Some (m !! p) ↔ seen name p fips) ∧ ∀ fi, m !! p = Some fi → entry_of name p fips fi.

(** ** Correctness *)

Lemma delay_loop_spec fuel : ∀ i attempt delay,
  1 <= i → attempt - i <= Z.of_nat fuel → 0 < delay →
  Z.min cascadeRetryMaxDelay (delay_loop fuel i attempt delay) =
  Z.min cascadeRetryMaxDelay (delay * 2 ^ Z.max 0 (attempt - i)).
Proof.
  induction fuel as [|fuel IH]; intros i attempt delay Hi Hf Hd; cbn [delay_loop].
  - rewrite (Z.max_l 0) by lia. f_equal. lia.
  - destruct (Z.ltb_spec i attempt), (Z.ltb_spec delay cascadeRetryMaxDelay); simpl.
    + rewrite IH by lia. f_equal. rewrite !Z.max_r by lia.
      replace (attempt - i) with (1 + (attempt - (i + 1))) by lia. rewrite Z.pow_add_r by lia. lia.
    + rewrite Z.max_r by lia. assert (0 < 2 ^ (attempt - i)) by (apply Z.pow_pos_nonneg; lia). nia.
    + rewrite (Z.max_l 0) by lia. f_equal. lia.
    + rewrite (Z.max_l 0) by lia. f_equal. lia.
Qed.

(** the requeue delay of the n-th cascade pass is two seconds doubled n-1
    times and capped at thirty seconds. *)
Theorem cascadeRetryDelay_correct attempt :
  cascadeRetryDelay attempt = Z.min (30 * Second) (2 * Second * 2 ^ Z.max 0 (attempt - 1)).
Proof.
  pose proof (delay_loop_spec (Z.to_nat attempt) 1 attempt cascadeRetryBaseDelay) as Hl.
  unfold cascadeRetryDelay.
  change (30 * Second) with cascadeRetryMaxDelay. change (2 * Second) with cascadeRetryBaseDelay.
  rewrite <- Hl by (unfold cascadeRetryBaseDelay, Second; lia).
  destruct (Z.ltb_spec cascadeRetryMaxDelay (delay_loop (Z.to_nat attempt) 1 attempt cascadeRetryBaseDelay)); lia.
Qed.

Lemma with_address_snoc name p pre f :
  with_address name p (pre ++ [f]) =
  with_address name p pre ++
    (if counted name f && bool_decide (fip_pool f = p)
        && negb (bool_decide (st_IPAddr (fip_Status f) = "")) then [f] else []).
Proof.
  unfold with_address. rewrite filter_app. f_equal. rewrite filter_cons, filter_nil.
  by destruct (_ && _).
Qed.

Lemma with_address_unseen name p fips : ¬ seen name p fips → with_address name p fips = [].
Proof.
  intros Hns. destruct (with_address name p fips) as [|f l] eqn:Hw; [done|]. exfalso.
  assert (f ∈ with_address name p fips) as Hf by (rewrite Hw; by left).
  apply list_elem_of_filter in Hf as [Hb Hf]. bool_hyps. apply Hns. by exists f.
Qed.

Lemma seen_snoc name p pre f :
  seen name p (pre ++ [f]) ↔ seen name p pre ∨ counted name f = true ∧ fip_pool f = p.
Proof.
  unfold seen. setoid_rewrite elem_of_app. setoid_rewrite list_elem_of_singleton. naive_solver.
Qed.

(** Counting one more floating IP in the entry of its pool. *)
Lemma count_fip_entry name pre f fi :
  Z.of_nat (length pre) < two63 - 1 → counted name f = true →
  entry_of name (fip_pool f) pre fi → entry_of name (fip_pool f) (pre ++ [f]) (count_fip fi f).
Proof.
  intros Hlen Hc [Hu (m & Hm & Hm')]. constructor; rewrite with_address_snoc, Hc, bool_decide_true by done;
    unfold count_fip; case_bool_decide as Hst; cbn [andb negb fi_Used fi_Allocated].
  - by rewrite app_nil_r.
  - rewrite length_app, Hu. cbn [length].
    assert (length (with_address name (fip_pool f) pre) <= length pre)%nat by apply length_filter.
    rewrite wrap64_small; unfold two63 in *; lia.
  - exists m. rewrite app_nil_r. done.
  - eexists. split; [reflexivity|]. rewrite Hm. cbn [default from_option id]. intros ip.
    rewrite filter_app, filter_cons, filter_nil. destruct (decide (st_IPAddr (fip_Status f) = ip)) as [<-|Hne].
    + rewrite lookup_insert_eq, last_snoc. done.
    + rewrite lookup_insert_ne, app_nil_r by done. apply Hm'.
Qed.

Section QuotaCorrect.
Context {S : Type} `{HKube : KubeAPI S} `{HRetry : !RetrySpec S}.

Lemma new_entry_ok name p fips (w : World S) fi w' :
  ¬ seen name p fips → new_entry p w = (fi, w') → entry_of name p fips fi.
Proof.
  intros Hns Hn. unfold new_entry, bind in Hn. destruct (api _ w) as [r w1]. cbv [ret] in Hn. simplify_eq.
  constructor; rewrite with_address_unseen by done; [done|]. exists ∅. split; [done|].
  intros ip. by rewrite lookup_empty.
Qed.

Lemma count_fips_describes name fips : ∀ pre m (w : World S) m' w',
  Z.of_nat (length (pre ++ fips)) < two63 → describes name pre m →
  count_fips name fips m w = (m', w') → describes name (pre ++ fips) m'.
Proof.
  induction fips as [|f fips IH]; intros pre m w m' w' Hlen Hd Hc; cbn [count_fips] in Hc.
  - cbv [ret] in Hc. simplify_eq. by rewrite app_nil_r.
  - replace (pre ++ f :: fips) with ((pre ++ [f]) ++ fips) in * by (by rewrite <- app_assoc).
    assert (Z.of_nat (length pre) < two63 - 1) as Hpre by (rewrite !length_app in Hlen; simpl in Hlen; lia).
    destruct (counted name f) eqn:Hct.
    + unfold bind in Hc.
      match type of Hc with (let (_, _) := ?x in _) = _ => destruct x as [fi w1] eqn:Hfi end.
      assert (entry_of name (fip_pool f) pre fi) as Hent.
      { destruct (Hd (fip_pool f)) as [Hs He]. destruct (m !! fip_pool f) as [fi0|] eqn:Hm.
        - cbv [ret] in Hfi. simplify_eq. by apply He.
        - eapply new_entry_ok; [|exact Hfi]. rewrite <- Hs. by intros [? ?]. }
      eapply IH; [done | | exact Hc]. intros p. rewrite seen_snoc. destruct (Hd p) as [Hs He].
      destruct (decide (p = fip_pool f)) as [->|Hne].
      * rewrite lookup_insert_eq. split; [split; [by right | by eexists]|].
        intros fi' ?. simplify_eq. by apply count_fip_entry.
      * rewrite lookup_insert_ne by done. split; [rewrite Hs; naive_solver|].
        intros fi' Hfi'. destruct (He _ Hfi') as [Hu Ha].
        constructor; rewrite with_address_snoc, Hct, (bool_decide_false (fip_pool f = p)), app_nil_r by done; done.
    + eapply IH; [done | | exact Hc]. intros p. rewrite seen_snoc, Hct. destruct (Hd p) as [Hs He].
      split; [rewrite Hs; naive_solver|]. intros fi' Hfi'. destruct (He _ Hfi') as [Hu Ha].
      constructor; rewrite with_address_snoc, Hct, app_nil_r; done.
Qed.

Lemma quietly_count_fips name fips : ∀ m,
  quietly anything (λ _, True) (λ _, True) (count_fips (S := S) name fips m).
Proof.
  induction fips as [|f fips IH]; intros m; cbn [count_fips]; [by apply quietly_ret; apply _|].
  destruct (counted name f); [|done]. apply quietly_bind; [apply _ | done | | done].
  destruct (m !! fip_pool f); [by apply quietly_ret; apply _|]. unfold new_entry.
  apply quietly_bind; [apply _ | done | |intros; by apply quietly_ret; apply _].
  apply (quietly_api anything others_anything); done.
Qed.

(** a successful status refresh of a quota leaves the quota with a status
    that describes the floating IPs the cache listed: an entry for exactly the
    pools its floating IPs name, counting those that have an address and
    mapping each address to the cluster of its last floating IP; it is written
    only when it differs from the current status. *)
Theorem refresh_quota_correct quota name (w : World S) w' :
  refresh_quota quota name w = (Ok tt, w') →
  ∃ fips m, Exists (listed None fips) (events w') ∧
    (Z.of_nat (length fips) < two63 → describes name fips m) ∧
    let st := mkQuotaStatus (Some (Some <$> m)) in
    quota_Status quota = st ∨ Exists (wrote_quota st) (events w').
Proof.
  unfold refresh_quota. unfold bind at 1. destruct (api _ w) as [rf w1] eqn:Ha.
  apply (api_step anything others_anything) in Ha as [_ He1].
  destruct rf as [fips|]; [|cbv [ret]; by intros; simplify_eq].
  unfold bind at 1. destruct (count_fips name fips ∅ w1) as [m w2] eqn:Hc.
  destruct (quietly_count_fips name fips ∅ w1 I) as [_ (l2 & He2 & _)]. rewrite Hc in He2. simpl in He2.
  assert (Exists (listed None fips) (events w2)) as Hl.
  { rewrite He2, He1. apply Exists_app. right. by constructor. }
  assert (Z.of_nat (length fips) < two63 → describes name fips m) as Hd.
  { intros Hlen. apply (count_fips_describes name fips [] ∅ w1 m w2); [done | | done].
    intros p. rewrite lookup_empty. split; [|done]. split; [by intros []|].
    intros (f & Hf & _). by apply not_elem_of_nil in Hf. }
  case_bool_decide as Heq.
  - cbv [ret]. intros. simplify_eq. exists fips, m. split_and!; auto.
  - unfold bind. destruct (api _ w2) as [rq w3] eqn:Hu.
    apply (api_step anything others_anything) in Hu as [_ He3].
    destruct rq; cbv [ret]; intros; simplify_eq. exists fips, m. split_and!; [|done|right].
    + rewrite He3. by apply Exists_cons_tl.
    + rewrite He3. constructor. done.
Qed.

(** Calls leave the retry counters alone. *)
Lemma api_any {R} (c : Call R) (w : World S) r w' :
  api c w = (r, w') → events w' = mkEvent (alloc w') c r :: events w ∧ retries w' = retries w.
Proof.
  unfold api, interfere. destruct (others (kube w) (alloc w)) as [k a]. simpl.
  destruct (exec c k). intros. by simplify_eq.
Qed.

(** The deletions only delete; a success asked for all of them. *)
Lemma delete_fips_spec name fips : ∀ (w : World S) r w',
  delete_fips name fips w = (r, w') →
  retries w' = retries w ∧ ∃ l, events w' = l ++ events w ∧
    Forall (λ ev, ¬ releases_quota name ev) l ∧
    (r = Ok tt → ∀ f, f ∈ fips → Exists (asked_delete f) l).
Proof.
  induction fips as [|f fips IH]; intros w r w' Hd; cbn [delete_fips] in Hd.
  { cbv [ret] in Hd. simplify_eq. split; [done|]. exists []. split_and!; [done | done | set_solver]. }
  unfold bind in Hd. destruct (api _ w) as [rd w1] eqn:Ha. apply api_any in Ha as [He Hret].
  set (ev := mkEvent _ _ _) in He.
  assert (∀ r w', delete_fips name fips w1 = (r, w') → retries w' = retries w ∧
    ∃ l, events w' = l ++ events w ∧ Forall (λ ev, ¬ releases_quota name ev) l ∧
    (r = Ok tt → ∀ f', f' ∈ f :: fips → Exists (asked_delete f') l)) as Hrest.
  { intros r2 w2 Hd2. destruct (IH _ _ _ Hd2) as (H1 & l & H2 & H3 & H4). split; [congruence|].
    exists (l ++ [ev]). rewrite H2, He, <- app_assoc. split_and!; [done | |].
    - apply Forall_app. split; [done|]. constructor; [by intros [] | done].
    - intros Hok f' [->|Hf']%elem_of_cons; apply Exists_app; [right | left; by apply H4].
      constructor. by split. }
  destruct rd as [u|e]; [by apply Hrest|]. destruct (IsNotFound e); [by apply Hrest|].
  cbv [ret] in Hd. simplify_eq. split; [done|]. exists [ev]. split_and!; [by rewrite He | | done].
  constructor; [by intros [] | done].
Qed.

Lemma quietly_release_quota key name :
  quietly anything (λ _, True) (λ _, True)
    (bind (set_retries (delete key)) (λ _,
      bind (api (GetQuota name)) (λ r, match r with
        | Ok quota =>
            if negb (containsString (Finalizers (quota_meta quota)) quotaFinalizerName) then ret (Ok tt)
            else retry_wrap (S := S) ("failed to remove finalizer from FloatingIPProjectQuota " +:+ name)
                   (drop_quota_finalizer name)
        | Err err =>
            if IsNotFound err then ret (Ok tt)
            else ret (Err (wrapf ("failed to get FloatingIPProjectQuota " +:+ name) err))
        end))).
Proof.
  assert (∀ A (c : Call A), quietly anything (λ _, True) (λ _, True) (api (S := S) c)) as Hapi.
  { intros. apply (quietly_api anything others_anything); done. }
  apply quietly_bind; [apply _ | done | intros w _; split; [done | by exists []] | intros []].
  apply quietly_bind; [apply _ | done | apply Hapi | intros [q|e]].
  2: { case_match; apply quietly_ret; apply _. }
  case_match; [apply quietly_ret; apply _|].
  apply Q_retry_wrap; [apply _ .. | done |]. unfold drop_quota_finalizer.
  apply quietly_bind; [apply _ | done | apply Hapi | intros [q2|e]]; [|apply quietly_ret; apply _].
  apply quietly_bind; [apply _ | done | apply Hapi | intros [q3|e]]; apply quietly_ret; apply _.
Qed.

Lemma cascade_again_spec key (w : World S) r w' :
  cascade_again key w = (r, w') →
  ∃ n ev, r = Ok tt ∧ events w' = ev :: events w ∧ requeued key (cascadeRetryDelay n) ev ∧
    n = from_option (λ k, wrap64 (k + 1)) 1 (retries w !! key) ∧ retries w' !! key = Some n.
Proof.
  unfold cascade_again, gets, set_retries, modify, bind. intros Hc.
  destruct (api _ _) as [ra w1] eqn:Ha. apply api_any in Ha as [He Hr]. cbv [ret] in Hc. simplify_eq.
  do 2 eexists. split_and!; [done | exact He | by split | |].
  - by destruct (retries w !! key).
  - rewrite Hr. simpl. by rewrite lookup_insert_eq.
Qed.

(** the finalizer of a quota in deletion is taken off only in a pass in
    which no floating IP was attached to the project; a pass with floating IPs
    attached deletes every one of them, counts one more attempt and requeues
    the key with the delay of that attempt. *)
Theorem quota_deletion_cascades key name (w : World S) r w' :
  handleFloatingIPProjectQuotaDelete key name w = (r, w') →
  ∃ l, events w' = l ++ events w ∧
    (Exists (releases_quota name) l → Exists (attached name []) l) ∧
    (r = Ok tt →
     Exists (attached name []) l ∨
     ∃ fips n, fips ≠ [] ∧ Exists (attached name fips) l ∧
       (∀ f, f ∈ fips → Exists (asked_delete f) l) ∧
       retries w' !! key = Some n ∧ n = from_option (λ k, wrap64 (k + 1)) 1 (retries w !! key) ∧
       Exists (requeued key (cascadeRetryDelay n)) l).
Proof.
  unfold handleFloatingIPProjectQuotaDelete. unfold bind at 1.
  destruct (api _ w) as [rf w1] eqn:Ha. apply api_any in Ha as [He1 Hr1]. set (ev := mkEvent _ _ _) in He1.
  destruct rf as [fips|e].
  2: { cbv [ret]. intros. simplify_eq. exists [ev]. split_and!; [done | | done].
       intros []%Exists_cons; [done | by apply Exists_nil in H]. }
  destruct fips as [|f fips].
  - intros Hr. destruct (quietly_release_quota key name w1 I) as [_ (l & Hl & _)].
    rewrite Hr in Hl. simpl in Hl. exists (l ++ [ev]). rewrite Hl, He1, <- app_assoc.
    assert (Exists (attached name []) (l ++ [ev])) as Hatt.
    { apply Exists_app. right. constructor. by split. }
    split_and!; auto.
  - unfold bind at 1. destruct (delete_fips name (f :: fips) w1) as [rd w2] eqn:Hd.
    apply delete_fips_spec in Hd as (Hr2 & l2 & He2 & Hno2 & Hall2).
    assert (∀ l, Forall (λ ev, ¬ releases_quota name ev) l →
      Exists (releases_quota name) (l ++ l2 ++ [ev]) → Exists (attached name []) (l ++ l2 ++ [ev])) as Hnone.
    { intros l Hl Hex. exfalso. assert (Forall (λ ev, ¬ releases_quota name ev) (l ++ l2 ++ [ev])) as Hall.
      { rewrite !Forall_app. split_and!; [done | done|]. constructor; [by intros [] | done]. }
      apply Exists_exists in Hex as (ev' & Hin & Hrel). rewrite Forall_forall in Hall. by apply (Hall ev'). }
    destruct rd as [[]|e].
    + intros Hr. apply cascade_again_spec in Hr as (n & ev' & -> & He3 & Hq & Hn & Hret).
      exists ([ev'] ++ l2 ++ [ev]). rewrite He3, He2, He1, <- !app_assoc. split_and!; [done | |].
      * apply Hnone. constructor; [intros Hrel|done]. unfold releases_quota, requeued in *.
        by destruct (ev_call ev').
      * intros _. right. exists (f :: fips), n. split_and!; [done | | | done | congruence |].
        -- apply Exists_app. right. apply Exists_app. right. constructor. by split.
        -- intros f' Hf'. apply Exists_app. right. apply Exists_app. left. by apply Hall2.
        -- apply Exists_app. left. by constructor.
    + cbv [ret]. intros. simplify_eq. exists (l2 ++ [ev]).
      split_and!; [by rewrite He2, He1, <- app_assoc | by apply (Hnone []) | done].
Qed.
End QuotaCorrect.

(** ** Instances *)

#[local] Existing Instances sorted_range no_err_text demo_kube.

Definition attached_cluster : Mem := demo_cluster (demo_fip None "10.0.0.4") [].

Definition run_refresh : res unit * World Mem := refresh_quota demo_quota "p1" (world attached_cluster New).

Lemma refresh_quota_correct_witness :
  run_refresh.1 = Ok tt ∧
  ∃ fips m, Exists (listed None fips) (events run_refresh.2) ∧
    (Z.of_nat (length fips) < two63 → describes "p1" fips m).
Proof.
  assert (run_refresh.1 = Ok tt) as Hok by (vm_compute; reflexivity). split; [exact Hok|].
  destruct (@refresh_quota_correct Mem demo_kube demo_quota "p1" (world attached_cluster New) run_refresh.2)
    as (fips & m & Hl & Hd & _).
  - rewrite <- Hok. unfold run_refresh. apply surjective_pairing.
  - exists fips, m. split; [exact Hl | exact Hd].
Defined.

Definition run_cascade : res unit * World Mem :=
  handleFloatingIPProjectQuotaDelete "p1" "p1" (world attached_cluster New).

Lemma quota_deletion_cascades_witness :
  run_cascade.1 = Ok tt ∧
  ∃ l, events run_cascade.2 = l ++ [] ∧ (Exists (releases_quota "p1") l → Exists (attached "p1" []) l).
Proof.
  split; [vm_compute; reflexivity|].
  destruct (@quota_deletion_cascades Mem demo_kube (mem_retry_spec rival) "p1" "p1" (world attached_cluster New)
    run_cascade.1 run_cascade.2) as (l & Hl & Hrel & _).
  - unfold run_cascade. apply surjective_pairing.
  - exists l. split; [exact Hl | exact Hrel].
Defined.
