(* ===== verification/Webhook.v ===== *)
(** The admission webhook, [pkg/webhook/service/service.go]: whether a create or
    an update of a floating IP or of a pool is let through.

    The reservations the webhook keeps between requests are its state.  The
    per-pool and per-project mutexes make [checkIPNotInUse] and the quota check
    atomic, so each is a program that no other admission of the same key
    interrupts; what else happens in the cluster meanwhile is in the hands of
    the [Dynamic] client, of which nothing is assumed. *)

From S2P Require Import Prelude GoStd NetIP NetIPFacts Ipam IpamSpec IpamCorrect ApiTypes Kube FipController QuotaController.

Definition ipReservationTTL : time := 5 * Second.
Definition quotaReservationTTL : time := 5 * Second.

(** ** State *)

Record Hook (C : Type) := mkHook {
  ipReservations : gmap string time;           (* "pool/canonicalIP" -> expiry *)
  quotaReservations : gmap string (list time); (* "project/pool" -> expiries *)
  cluster : C
}.
Arguments mkHook {C}.
Arguments ipReservations {C}.
Arguments quotaReservations {C}.
Arguments cluster {C}.

(** The dynamic client and [runtime.DefaultUnstructuredConverter]: an object is
    not found, or found and converted or not. *)
Class Dynamic (C : Type) := {
  dyn_GetPool : string → C → res (option FloatingIPPool) * C;
  dyn_GetQuota : string → C → res (option FloatingIPProjectQuota) * C;
  dyn_ListFIPs : C → res (list (option FloatingIP)) * C;
  dyn_Now : C → time * C
}.

(** ** Requests and responses *)

Record AdmissionResponse := mkResp { resp_UID : string; Allowed : bool; resp_Message : string }.

Definition allow (uid : string) : AdmissionResponse := mkResp uid true "".
Definition deny (uid msg : string) : AdmissionResponse := mkResp uid false msg.

(** ** Range checks *)

(** [bytes.Compare] of two IPv4 or two 16-byte addresses. *)
Definition ip_lt (a b : IP) : bool :=
  match To4 a, To4 b with
  | Some x, Some y => x <? y
  | _, _ => to16 a <? to16 b
  end.

(** [ip] is outside [lo, hi]: compared as IPv4 when all three are. *)
Definition outside (ip lo hi : IP) : bool :=
  match To4 ip, To4 lo, To4 hi with
  | Some x, Some l, Some h => (x <? l) || (h <? x)
  | _, _, _ => (to16 ip <? to16 lo) || (to16 hi <? to16 ip)
  end.

Definition IP_of (s : string) : option IP := IP16 <$> ParseIP s.

Section Admission.
Context {C : Type} `{HDyn : Dynamic C, HText : NetErrText}.
#[local] Open Scope go_scope.

Definition dyn {A} (f : C → A * C) : M (Hook C) A := λ h,
  let '(x, c) := f (cluster h) in (x, mkHook (ipReservations h) (quotaReservations h) c).

Definition set_ipReservations (f : gmap string time → gmap string time) : M (Hook C) unit :=
  modify (λ h, mkHook (f (ipReservations h)) (quotaReservations h) (cluster h)).
Definition set_quotaReservations (f : gmap string (list time) → gmap string (list time))
    : M (Hook C) unit :=
  modify (λ h, mkHook (ipReservations h) (f (quotaReservations h)) (cluster h)).

(** ** The duplicate check *)

(** The key under which an address is reserved: in canonical form if it parses. *)
Definition reservation_key (pool ip : string) : string :=
  match IP_of ip with
  | Some a => pool +:+ "/" +:+ IP_String a
  | None => pool +:+ "/" +:+ ip
  end.

(** Two texts name the same address; texts that do not parse are compared as
    they are. *)
Definition same_address (s t : string) : bool :=
  match IP_of s, IP_of t with
  | Some a, Some b => IP_Equal a b
  | _, _ => bool_decide (s = t)
  end.

(** The object under update already names the address. *)
Definition already_owns (oldFIP : option FloatingIP) (allocatedIP : string) : bool :=
  match oldFIP with
  | Some old =>
      match IPAddr (fip_Spec old) with
      | Some oldIP =>
          match IP_of allocatedIP with
          | None => bool_decide (oldIP = allocatedIP)
          | Some a => match IP_of oldIP with Some b => IP_Equal b a | None => false end
          end
      | None => false
      end
  | None => false
  end.

Definition same_object (f g : FloatingIP) : bool :=
  bool_decide (fip_name f = fip_name g) && bool_decide (fip_ns f = fip_ns g).

(** The denial an existing floating IP causes, if any. *)
Definition claimed_by (uid : string) (fip : FloatingIP) (allocatedIP : string)
    (oldFIP : option FloatingIP) (existing : FloatingIP) : option AdmissionResponse :=
  if match oldFIP with Some old => same_object existing old | None => false end then None
  else match IPAddr (fip_Spec existing) with
  | None => None
  | Some existingAddr =>
      if negb (bool_decide (fip_pool existing = fip_pool fip)) then None
      else if negb (same_address existingAddr allocatedIP) then None
      else if is_some (DeletionTimestamp (fip_meta existing)) then
        Some (deny uid ("requested IP " +:+ allocatedIP +:+ " is still held by terminating floatingip "
               +:+ fipOwner existing))
      else if bool_decide (State (fip_Status existing) = "Error")
              && bool_decide (st_IPAddr (fip_Status existing) = "") then None
      else Some (deny uid ("requested IP " +:+ allocatedIP +:+ " is already claimed by floatingip "
             +:+ fipOwner existing))
  end.

(** The first denial of the list; objects that do not convert are skipped. *)
Fixpoint first_claim (uid : string) (fip : FloatingIP) (allocatedIP : string)
    (oldFIP : option FloatingIP) (items : list (option FloatingIP)) : option AdmissionResponse :=
  match items with
  | [] => None
  | None :: items => first_claim uid fip allocatedIP oldFIP items
  | Some existing :: items =>
      match claimed_by uid fip allocatedIP oldFIP existing with
      | Some resp => Some resp
      | None => first_claim uid fip allocatedIP oldFIP items
      end
  end.

(** The reservation of the key, if it has not expired; an expired one is swept. *)
Definition pending_reservation (key : string) : M (Hook C) bool :=
  let! expiry := gets (λ h, ipReservations h !! key) in
  match expiry with
  | None => ret false
  | Some expiry =>
      let! now := dyn dyn_Now in
      if now <? expiry then ret true else set_ipReservations (delete key) ;;; ret false
  end.

(** [oldFIP] is [None] exactly when the request is not an update. *)
Definition checkIPNotInUse (uid : string) (fip : FloatingIP) (allocatedIP : string)
    (fipPool : FloatingIPPool) (oldFIP : option FloatingIP) : M (Hook C) (option AdmissionResponse) :=
  if mhas (pst_Allocated (pool_Status fipPool)) allocatedIP then
    ret (Some (deny uid ("requested IP " +:+ allocatedIP +:+ " is already allocated")))
  else if already_owns oldFIP allocatedIP then ret None
  else
    let reservationKey := reservation_key (fip_pool fip) allocatedIP in
    let! pending := pending_reservation reservationKey in
    if pending then
      ret (Some (deny uid ("requested IP " +:+ allocatedIP +:+ " is pending allocation in floatingippool "
             +:+ fip_pool fip)))
    else
    try! fips := dyn dyn_ListFIPs else _e =>
      ret (Some (deny uid ("failed to verify that requested IP " +:+ allocatedIP
             +:+ " is free in floatingippool " +:+ fip_pool fip))) in
    match first_claim uid fip allocatedIP oldFIP fips with
    | Some resp => ret (Some resp)
    | None =>
        let! now := dyn dyn_Now in
        set_ipReservations (<[reservationKey := now + ipReservationTTL]>) ;;;
        ret None
    end.

(** ** The quota check *)

(** [activeQuotaReservations]: the number left after pruning. *)
Definition activeQuotaReservations (key : string) : M (Hook C) Z :=
  let! v := gets (λ h, quotaReservations h !! key) in
  match v with
  | None => ret 0
  | Some expiries =>
      let! now := dyn dyn_Now in
      let active := filter (λ expiry, now < expiry) expiries in
      set_quotaReservations (<[key := active]>) ;;;
      ret (Z.of_nat (length active))
  end.

Definition takeQuotaReservation (key : string) : M (Hook C) unit :=
  let! now := dyn dyn_Now in
  set_quotaReservations (λ m, <[key := default [] (m !! key) ++ [now + quotaReservationTTL]]> m).

(** An existing floating IP that counts for the project and pool: another
    object than the one admitted, with the label and the pool. *)
Definition concerns (projectID poolName : string) (fip existing : FloatingIP) : bool :=
  negb (same_object existing fip) && bool_decide (fip_pool existing = poolName)
  && bool_decide (fip_label existing projectNameLabel = projectID).

Definition is_allocated (f : FloatingIP) : bool := negb (bool_decide (st_IPAddr (fip_Status f) = "")).
Definition is_pending (f : FloatingIP) : bool :=
  negb (is_allocated f) && negb (bool_decide (State (fip_Status f) = "Error")).
Definition is_recent (recentCutoff : time) (f : FloatingIP) : bool :=
  recentCutoff <? CreationTimestamp (fip_meta f).

(** One round of the counting loop: allocated, pending, recent. *)
Definition count_usage (projectID poolName : string) (fip : FloatingIP) (recentCutoff : time)
    (counts : Z * Z * Z) (item : option FloatingIP) : Z * Z * Z :=
  let '(allocated, pending, recent) := counts in
  match item with
  | None => counts
  | Some existing =>
      if negb (concerns projectID poolName fip existing) then counts
      else
        let recent' :=
          if (is_allocated existing || is_pending existing) && is_recent recentCutoff existing
          then recent + 1 else recent in
        if is_allocated existing then (allocated + 1, pending, recent')
        else if is_pending existing then (allocated, pending + 1, recent')
        else counts
  end.

Definition liveQuotaUsage (projectID poolName : string) (fip : FloatingIP) : M (Hook C) (res Z) :=
  try! fips := dyn dyn_ListFIPs else err => ret (Err err) in
  let! now := dyn dyn_Now in
  let '(allocated, pending, recent) :=
    foldl (count_usage projectID poolName fip (now - quotaReservationTTL)) (0, 0, 0) fips in
  let! reservations := activeQuotaReservations (projectID +:+ "/" +:+ poolName) in
  let unpaired := reservations - recent in
  ret (Ok (allocated + pending + (if unpaired <? 0 then 0 else unpaired))).

Definition checkQuota (uid : string) (fip : FloatingIP) (oldFIP : option FloatingIP)
    : M (Hook C) AdmissionResponse :=
  let projectID := fip_label fip projectNameLabel in
  let pool := fip_pool fip in
  try! q := dyn (dyn_GetQuota projectID) else _e =>
    ret (deny uid ("failed to get floatingipprojectquota for project " +:+ projectID)) in
  match q with
  | None => ret (deny uid "internal server error: failed to process floatingipprojectquota")
  | Some plbc =>
      match mlookup (FloatingIPQuota (quota_Spec plbc)) pool with
      | None => ret (deny uid ("no quota defined for floatingippool " +:+ pool +:+ " in project " +:+ projectID))
      | Some quota =>
          try! usage := liveQuotaUsage projectID pool fip else _e =>
            ret (deny uid ("failed to verify quota usage for floatingippool " +:+ pool
              +:+ " in project " +:+ projectID)) in
          if quota <=? usage then
            ret (deny uid ("quota exceeded for floatingippool " +:+ pool +:+ " in project " +:+ projectID
              +:+ ". Quota: " +:+ itoa quota +:+ ", Used: " +:+ itoa usage))
          else
            (if match oldFIP with
                | None => true
                | Some old => negb (bool_decide (fip_pool old = pool))
                end
             then takeQuotaReservation (projectID +:+ "/" +:+ pool) else ret tt) ;;;
            ret (allow uid)
      end
  end.

(** Whether the admission can change the project's occupancy of the pool. *)
Definition shouldCheckQuota (fip : FloatingIP) (oldFIP : option FloatingIP) : bool :=
  match oldFIP with
  | None => true
  | Some old =>
      let erroredWithoutSlot :=
        bool_decide (st_IPAddr (fip_Status old) = "") && bool_decide (State (fip_Status old) = "Error") in
      if bool_decide (IPAddr (fip_Spec fip) = Some (st_IPAddr (fip_Status old))) then false
      else negb (bool_decide (fip_pool old = fip_pool fip) && negb erroredWithoutSlot)
  end.

(** ** Floating IPs *)

(** The checks of a requested address against the pool: the denial, if any. *)
Definition check_range (uid pool requested : string) (fipPool : FloatingIPPool)
    : option AdmissionResponse :=
  match IP_of requested with
  | None => Some (deny uid ("invalid IP address format: " +:+ requested))
  | Some requestedIP =>
  match ps_IPConfig (pool_Spec fipPool) with
  | None => Some (deny uid ("floatingippool " +:+ pool +:+ " has no ipConfig"))
  | Some cfg =>
  match ParseCIDR (Subnet cfg) with
  | None => Some (deny uid "internal server error: invalid subnet configuration in floatingippool")
  | Some subnet =>
  if negb (IPNet_Contains subnet requestedIP) then
    Some (deny uid ("requested IP " +:+ requested +:+ " is not in the subnet range " +:+ Subnet cfg))
  else
  match IP_of (p_Start (ipc_Pool cfg)) with
  | None => Some (deny uid ("internal server error: invalid start ip configuration in floatingippool " +:+ pool))
  | Some startIP =>
  match IP_of (p_End (ipc_Pool cfg)) with
  | None => Some (deny uid ("internal server error: invalid end ip configuration in floatingippool " +:+ pool))
  | Some endIP =>
  if outside requestedIP startIP endIP then
    Some (deny uid ("requested IP " +:+ requested +:+ " is not in the pool range ["
      +:+ p_Start (ipc_Pool cfg) +:+ ", " +:+ p_End (ipc_Pool cfg) +:+ "]"))
  else if containsString (Exclude (ipc_Pool cfg)) requested then
    Some (deny uid ("requested IP " +:+ requested +:+ " is in the exclude list"))
  else None
  end end end end end.

Definition check_availability (uid : string) (fip : FloatingIP) (fipPool : FloatingIPPool)
    (oldFIP : option FloatingIP) : M (Hook C) (option AdmissionResponse) :=
  match IPAddr (fip_Spec fip) with
  | Some requested =>
      match check_range uid (fip_pool fip) requested fipPool with
      | Some resp => ret (Some resp)
      | None =>
          if match oldFIP with
             | Some old => bool_decide (st_IPAddr (fip_Status old) = requested)
             | None => false
             end
          then ret None
          else checkIPNotInUse uid fip requested fipPool oldFIP
      end
  | None =>
      if pst_Available (pool_Status fipPool) <=? 0
      then ret (Some (deny uid ("no available IPs in floatingippool " +:+ fip_pool fip)))
      else ret None
  end.

Definition validateFloatingIP (uid : string) (fip : FloatingIP) (oldFIP : option FloatingIP)
    : M (Hook C) AdmissionResponse :=
  if is_some (DeletionTimestamp (fip_meta fip)) then ret (allow uid)
  else
  try! p := dyn (dyn_GetPool (fip_pool fip)) else _e =>
    ret (deny uid ("the specified floatingippool " +:+ fip_pool fip +:+ " does not exist")) in
  match p with
  | None => ret (deny uid "internal server error: failed to process floatingippool")
  | Some fipPool =>
      let! denial := check_availability uid fip fipPool oldFIP in
      match denial with
      | Some resp => ret resp
      | None => if shouldCheckQuota fip oldFIP then checkQuota uid fip oldFIP else ret (allow uid)
      end
  end.

(** ** Pools *)

(** The denial an excluded address causes, if any. *)
Definition check_excluded (uid : string) (cfg : IPConfig) (subnet : IPNet) (startIP endIP : IP)
    (excludedIPStr : string) : option AdmissionResponse :=
  match IP_of excludedIPStr with
  | None => Some (deny uid ("invalid excluded IP address format: " +:+ excludedIPStr))
  | Some excludedIP =>
      if negb (IPNet_Contains subnet excludedIP) then
        Some (deny uid ("excluded IP address " +:+ excludedIPStr +:+ " is not within the subnet " +:+ Subnet cfg))
      else if outside excludedIP startIP endIP then
        Some (deny uid ("excluded IP address " +:+ excludedIPStr +:+ " is not within the pool range ["
          +:+ p_Start (ipc_Pool cfg) +:+ ", " +:+ p_End (ipc_Pool cfg) +:+ "]"))
      else None
  end.

Definition validateFloatingIPPool (uid : string) (fipPool : FloatingIPPool) : AdmissionResponse :=
  match ps_IPConfig (pool_Spec fipPool) with
  | None => deny uid "ipConfig is required in floatingippool spec"
  | Some cfg =>
  let start := p_Start (ipc_Pool cfg) in
  let end_ := p_End (ipc_Pool cfg) in
  match ParseCIDR (Subnet cfg) with
  | None => deny uid ("invalid subnet format: " +:+ Subnet cfg)
  | Some subnet =>
  match IP_of start with
  | None => deny uid ("invalid start IP address format: " +:+ start)
  | Some startIP =>
  if negb (IPNet_Contains subnet startIP) then
    deny uid ("start IP address " +:+ start +:+ " is not within the subnet " +:+ Subnet cfg)
  else
  match IP_of end_ with
  | None => deny uid ("invalid end IP address format: " +:+ end_)
  | Some endIP =>
  if negb (IPNet_Contains subnet endIP) then
    deny uid ("end IP address " +:+ end_ +:+ " is not within the subnet " +:+ Subnet cfg)
  else if ip_lt endIP startIP then
    deny uid ("start IP address " +:+ start +:+ " must be less than or equal to end IP address " +:+ end_)
  else
  match ValidateRangeSize start end_ with
  | Err e => deny uid (err_msg e)
  | Ok _ =>
  match omap (check_excluded uid cfg subnet startIP endIP) (Exclude (ipc_Pool cfg)) with
  | resp :: _ => resp
  | [] => allow uid
  end end end end end end.

(** ** The HTTP handlers *)

(** A decoded request.  [json.Unmarshal] of an object may fail, and a JSON
    [null] makes the pointer it decodes into nil; the old object is only there
    on an update that carries one. *)
Record AdmissionRequest (T : Type) := mkReq {
  req_UID : string; req_object : res (option T); req_old : option (res T)
}.
Arguments mkReq {T}.
Arguments req_UID {T}.
Arguments req_object {T}.
Arguments req_old {T}.

(** The review a body decodes to: nil if the body is [null], and perhaps
    without a request. *)
Definition Body (T : Type) : Type := res (option (option (AdmissionRequest T))).

(** A nil dereference ends the handler without a reply. *)
Inductive HttpReply :=
| PlainError (code : Z) (text : string)
| Review (code : Z) (resp : AdmissionResponse)
| NilDereference.

(** [writeMalformedAdmissionReview] *)
Definition malformed_review : HttpReply :=
  Review 400 (deny "" "admission review does not contain a request").

Definition validateFloatingIPAdmission (body : Body FloatingIP) : M (Hook C) HttpReply :=
  match body with
  | Err e => ret (PlainError 500 ("cannot decode AdmissionReview to json: " +:+ err_msg e))
  | Ok None => ret NilDereference
  | Ok (Some None) => ret malformed_review
  | Ok (Some (Some req)) =>
      match req_object req with
      | Err e => ret (PlainError 500 ("cannot unmarshal json to FloatingIP: " +:+ err_msg e))
      | Ok fip =>
          match req_old req with
          | Some (Err e) => ret (PlainError 500 ("cannot unmarshal json to old FloatingIP: " +:+ err_msg e))
          | old =>
              match fip with
              | None => ret NilDereference
              | Some fip =>
                  let oldFIP := match old with Some (Ok f) => Some f | _ => None end in
                  let! resp := validateFloatingIP (req_UID req) fip oldFIP in
                  ret (Review 200 resp)
              end
          end
      end
  end.

Definition validateFloatingIPPoolAdmission (body : Body FloatingIPPool) : HttpReply :=
  match body with
  | Err e => PlainError 500 ("cannot decode AdmissionReview to json: " +:+ err_msg e)
  | Ok None => NilDereference
  | Ok (Some None) => malformed_review
  | Ok (Some (Some req)) =>
      match req_object req with
      | Err e => PlainError 500 ("cannot unmarshal json to FloatingIPPool: " +:+ err_msg e)
      | Ok None => NilDereference
      | Ok (Some fipPool) => Review 200 (validateFloatingIPPool (req_UID req) fipPool)
      end
  end.

End Admission.
