(* ===== verification/WebhookCorrect.v ===== *)
(** The admission webhook keeps its promises: two creates cannot be admitted
    for one address, a burst of creates cannot exceed a project's quota, an
    admitted pool can be built by the allocator, and an admitted address can be
    granted by it. *)

From S2P Require Import Prelude GoStd NetIP NetIPFacts Ipam IpamSpec IpamCorrect ApiTypes Kube FipController QuotaController Webhook.

(** ** Specification *)

(** The network [net.ParseCIDR] returns for an IPv4 prefix. *)
Definition net_of (p : Prefix) : IPNet :=
  let m := CIDRMask (prefix_bits p) 32 in mkIPNet (IP4 (Z.land (low32 (prefix_ip p)) m)) m 32.

(** A pool configuration in canonical form: an IPv4 subnet both parsers read
    the same way, and addresses spelled the way the allocator spells them. *)
Record canonical_config (cfg : IPConfig) (p : Prefix) (lo hi : Z) (xs : list Z) : Prop := mkCanon {
  can_prefix : ParsePrefix (Subnet cfg) = Some p;
  can_v4 : Is4 (prefix_ip p) = true;
  can_cidr : ParseCIDR (Subnet cfg) = Some (net_of p);
  can_start : p_Start (ipc_Pool cfg) = ip_name lo;
  can_end : p_End (ipc_Pool cfg) = ip_name hi;
  can_exclude : Exclude (ipc_Pool cfg) = ip_name <$> xs;
  can_range : Forall (λ v, 0 <= v < max128) (lo :: hi :: xs)
}.

Definition is_broadcast (p : Prefix) (v : Z) : bool :=
  match subnet_broadcast p with Some b => IP_Equal (IP16 v) b | None => false end.

(** What the list of a project's floating IPs adds up to. *)
Definition occupying (projectID pool : string) (fip : FloatingIP) (item : option FloatingIP) : bool :=
  match item with
  | Some f => concerns projectID pool fip f && (is_allocated f || is_pending f)
  | None => false
  end.

Definition aged (now : time) (item : option FloatingIP) : bool :=
  match item with Some f => negb (is_recent (now - quotaReservationTTL) f) | None => false end.

(** A burst of creates in one project and pool, of objects that [created]
    describes: [n] of them were admitted.  Between two of them the cluster and
    the other keys may change at will. *)
Inductive burst {C} `{Dynamic C} (projectID pool : string) (created : FloatingIP → Prop)
    : Hook C → nat → Hook C → Prop :=
| burst_start h : burst projectID pool created h 0 h
| burst_create h n h1 h2 uid fip resp h3 :
    burst projectID pool created h n h1 →
    quotaReservations h2 !! (projectID +:+ "/" +:+ pool)
      = quotaReservations h1 !! (projectID +:+ "/" +:+ pool) →
    created fip → fip_label fip projectNameLabel = projectID → fip_pool fip = pool →
    checkQuota uid fip None h2 = (resp, h3) →
    burst projectID pool created h (if Allowed resp then Datatypes.S n else n) h3.

(** ** The duplicate check *)

Section Duplicate.
Context {C : Type} `{HDyn : Dynamic C, HText : NetErrText}.

Lemma same_address_key pool s t :
  same_address s t = true → reservation_key pool s = reservation_key pool t.
Proof.
  unfold same_address, reservation_key, IP_of, IP_Equal. intros Hs.
  destruct (ParseIP s) as [x|] eqn:Hx, (ParseIP t) as [y|] eqn:Hy; simpl in *; bool_hyps;
    try (by subst); congruence.
Qed.

Lemma pending_reservation_live key (h : Hook C) expiry :
  ipReservations h !! key = Some expiry → (dyn_Now (cluster h)).1 < expiry →
  ∃ h', pending_reservation key h = (true, h').
Proof.
  intros Hkey Hclock. unfold pending_reservation, bind, gets, dyn. rewrite Hkey.
  destruct (dyn_Now (cluster h)) as [now c]. simpl in Hclock.
  rewrite (proj2 (Z.ltb_lt _ _)) by lia. unfold ret. by eexists.
Qed.

(** C9: once a create that names an address has passed the duplicate check, any
    other create that names the same address of the same pool, however it
    spells it and whatever the cluster shows, is denied for the lifetime of the
    reservation. *)
Theorem duplicate_create_denied uid fip ip fipPool (h h1 : Hook C) :
  checkIPNotInUse uid fip ip fipPool None h = (None, h1) →
  ∃ c t, dyn_Now c = (t, cluster h1) ∧
    ∀ uid2 fip2 ip2 fipPool2 (h2 : Hook C),
      fip_pool fip2 = fip_pool fip → same_address ip2 ip = true →
      ipReservations h2 !! reservation_key (fip_pool fip) ip
        = ipReservations h1 !! reservation_key (fip_pool fip) ip →
      (dyn_Now (cluster h2)).1 < t + ipReservationTTL →
      ∃ resp, (checkIPNotInUse uid2 fip2 ip2 fipPool2 None h2).1 = Some resp ∧ Allowed resp = false.
Proof.
  unfold checkIPNotInUse at 1. intros Hc. case_match; [done|]. cbn [already_owns] in Hc.
  unfold bind at 1 in Hc. destruct (pending_reservation _ h) as [b ha] eqn:Hp.
  destruct b; [done|]. unfold bind at 1 in Hc.
  destruct (dyn dyn_ListFIPs ha) as [[fips|e] hb]; [|done].
  destruct (first_claim _ _ _ _ _) as [resp|]; [done|].
  unfold bind in Hc. destruct (dyn dyn_Now hb) as [t hc] eqn:Hn.
  unfold dyn in Hn. destruct (dyn_Now (cluster hb)) as [t' c'] eqn:Hnow. simplify_eq.
  unfold set_ipReservations, modify, ret in Hc. simplify_eq/=.
  exists (cluster hb), t. split; [done|].
  intros uid2 fip2 ip2 fipPool2 h2 Hpool Hsame Hres Hclock. rewrite lookup_insert_eq in Hres.
  unfold checkIPNotInUse. case_match; [by eexists|]. cbn [already_owns].
  rewrite Hpool, (same_address_key _ _ _ Hsame).
  destruct (pending_reservation_live _ _ _ Hres Hclock) as [h3 Hpend].
  unfold bind at 1. rewrite Hpend. by eexists.
Qed.
End Duplicate.

(** ** The quota check *)

Section Quota.
Context {C : Type} `{HDyn : Dynamic C, HText : NetErrText}.

Lemma dyn_eq {A} (f : C → A * C) (h : Hook C) :
  dyn f h = ((f (cluster h)).1,
             mkHook (ipReservations h) (quotaReservations h) (f (cluster h)).2).
Proof. unfold dyn. by destruct (f (cluster h)). Qed.

(** The occupying floating IPs that are not recent are those the usage cannot
    pair with a reservation. *)
Lemma count_usage_aged projectID pool fip now fips : ∀ a p r,
  let '(a', p', r') :=
    foldl (count_usage projectID pool fip (now - quotaReservationTTL)) (a, p, r) fips in
  a' + p' - r' = a + p - r
    + Z.of_nat (length (filter (λ i, occupying projectID pool fip i && aged now i = true) fips)).
Proof.
  induction fips as [|[f|] fips IH]; intros a p r; [simpl; lia| |apply IH].
  cbn [foldl]. rewrite filter_cons. cbn [count_usage occupying aged].
  destruct (concerns _ _ _ f); [|apply IH]. cbn [negb andb].
  assert (is_allocated f = true → is_pending f = false) as Hexcl
    by (unfold is_pending; intros ->; done).
  destruct (is_allocated f) eqn:Ha, (is_pending f) eqn:Hp;
    try (discriminate (Hexcl eq_refl)); cbn [orb andb];
    try (destruct (is_recent _ f); cbn [negb];
         match goal with |- context [foldl _ ?x _] => specialize (IH x.1.1 x.1.2 x.2); cbn [fst snd] in IH end;
         destruct (foldl _ _ fips) as [[a' p'] r']; case_decide; try done; cbn [length]; lia).
  specialize (IH a p r). destruct (foldl _ _ fips) as [[a' p'] r']. case_decide; [done|]. lia.
Qed.

(** The reservations of a key that outlast the window. *)
Definition lasting (t1 : time) (key : string) (h : Hook C) : nat :=
  length (filter (λ expiry : time, t1 <= expiry) (default [] (quotaReservations h !! key))).

Lemma lasting_cong t1 key h h' :
  quotaReservations h' !! key = quotaReservations h !! key → lasting t1 key h' = lasting t1 key h.
Proof. unfold lasting. by intros ->. Qed.

Variables t0 t1 : time.
Hypothesis short : t1 <= t0 + quotaReservationTTL.
Hypothesis window : ∀ c, t0 <= (dyn_Now c).1 < t1.

(** Pruning keeps them, and they are all counted. *)
Lemma activeQuotaReservations_lasting key h :
  ∃ k h', activeQuotaReservations key h = (k, h') ∧ Z.of_nat (lasting t1 key h) <= k ∧
    lasting t1 key h' = lasting t1 key h.
Proof.
  unfold activeQuotaReservations, bind, gets.
  destruct (quotaReservations h !! key) as [expiries|] eqn:Hk.
  2:{ exists 0, h. unfold lasting. rewrite Hk. done. }
  rewrite dyn_eq. specialize (window (cluster h)). destruct (dyn_Now (cluster h)) as [now c].
  simpl in *. unfold set_quotaReservations, modify, ret. eexists _, _. split; [done|].
  unfold lasting. rewrite Hk. simpl. rewrite lookup_insert_eq. simpl.
  assert (filter (λ e : time, t1 <= e) (filter (λ e : Z, now < e) expiries) = filter (λ e : time, t1 <= e) expiries) as Hf.
  { rewrite list_filter_filter_l; [done|]. intros e. lia. }
  rewrite Hf. split; [|done]. rewrite <- Hf. apply inj_le, length_filter.
Qed.

Lemma takeQuotaReservation_lasting key h :
  lasting t1 key (takeQuotaReservation key h).2 = S (lasting t1 key h).
Proof.
  unfold takeQuotaReservation, bind. rewrite dyn_eq.
  specialize (window (cluster h)). destruct (dyn_Now (cluster h)) as [now c]. simpl in *.
  unfold lasting. cbn. rewrite lookup_insert_eq. simpl. rewrite filter_app, length_app, filter_cons_True by lia.
  rewrite filter_nil, Nat.add_comm. done.
Qed.

(** The usage counts at least the lasting reservations and the aged floating
    IPs. *)
Lemma liveQuotaUsage_counts projectID pool fip h :
  let key := projectID +:+ "/" +:+ pool in
  let '(x, h') := liveQuotaUsage projectID pool fip h in
  lasting t1 key h' = lasting t1 key h ∧
  ∀ usage, x = Ok usage → ∃ fips now c, (dyn_ListFIPs c).1 = Ok fips ∧ t0 <= now < t1
    ∧ Z.of_nat (lasting t1 key h) + Z.of_nat (length (filter (λ i, occupying projectID pool fip i && aged now i = true) fips))
      <= usage.
Proof.
  intros key. unfold liveQuotaUsage, bind. rewrite dyn_eq.
  destruct ((dyn_ListFIPs (cluster h)).1) as [fips|e] eqn:Hl; [|by split].
  rewrite dyn_eq. simpl. pose proof (window (dyn_ListFIPs (cluster h)).2) as Hw.
  destruct (dyn_Now (dyn_ListFIPs (cluster h)).2) as [now c]. simpl in *.
  pose proof (count_usage_aged projectID pool fip now fips 0 0 0) as Hcount.
  destruct (foldl _ _ fips) as [[a p] r].
  destruct (activeQuotaReservations_lasting key (mkHook (ipReservations h) (quotaReservations h) c))
    as (k & h' & Ha & Hk & Hh). fold key. rewrite Ha. simpl. split; [exact Hh|].
  intros ? [= <-]. exists fips, now, (cluster h). repeat split; [done|lia|lia|].
  unfold lasting in Hk |- *. simpl in Hk. case_match; bool_hyps; lia.
Qed.

(** C8: take a time span no longer than the lifetime of a reservation, and a
    burst of creates in one project and pool during it.  However the burst is
    spread over the span, and whatever the caches show of the floating IPs that
    the burst itself creates, no more creates are admitted than the quota leaves
    room for beside two kinds of earlier ones: the floating IPs that every list
    of the span shows occupying the pool and older than the lifetime of a
    reservation ([old] of them), and the reservations that were there at the
    start and outlast the span.  An earlier floating IP that is still younger
    than that, and whose own reservation has run out before the end of the span,
    is in neither count: it is paired with a reservation of the burst, and the
    project may then go over its quota (see [quota_exceeded_by_pairing]). *)
Theorem quota_burst_safe projectID pool (created : FloatingIP → Prop) Q old (h h' : Hook C) n :
  (∀ c q, (dyn_GetQuota projectID c).1 = Ok (Some q) →
     mlookup (FloatingIPQuota (quota_Spec q)) pool = Some Q) →
  (∀ c fips now fip, (dyn_ListFIPs c).1 = Ok fips → created fip → t0 <= now < t1 →
     old <= Z.of_nat (length (filter (λ i, occupying projectID pool fip i && aged now i = true) fips))) →
  burst projectID pool created h n h' →
  Z.of_nat n <= Z.max 0 (Q - old - Z.of_nat (lasting t1 (projectID +:+ "/" +:+ pool) h)).
Proof.
  intros HQ Hold Hb. set (key := projectID +:+ "/" +:+ pool) in *.
  enough (Z.of_nat n <= Z.max 0 (Q - old - Z.of_nat (lasting t1 key h)) ∧
    (lasting t1 key h' = n + lasting t1 key h)%nat) by tauto.
  induction Hb as [h|h n h1 h2 uid fip resp h3 Hb IH Hkeep Hcr Hproj Hpool Hrun]; [split; lia|].
  destruct IH as [Hle Hres]. rewrite <- (lasting_cong t1 key _ _ Hkeep) in Hres.
  unfold checkQuota in Hrun. rewrite Hproj, Hpool in Hrun. unfold bind at 1 in Hrun.
  rewrite dyn_eq in Hrun. specialize (HQ (cluster h2)).
  destruct ((dyn_GetQuota projectID (cluster h2)).1) as [[q|]|e].
  2-3: unfold ret in Hrun; simplify_eq/=; split; [done|]; exact Hres.
  rewrite (HQ _ eq_refl) in Hrun. unfold bind at 1 in Hrun.
  match type of Hrun with context [liveQuotaUsage _ _ _ ?g] =>
    assert (lasting t1 key g = n + lasting t1 key h)%nat as Hg by exact Hres;
    pose proof (liveQuotaUsage_counts projectID pool fip g) as Hu; fold key in Hu;
    destruct (liveQuotaUsage projectID pool fip g) as [[usage|e] h4]; cbn beta iota zeta in Hu end;
    destruct Hu as [Hr4 Hu]; rewrite Hg in *.
  2:{ unfold ret in Hrun. by simplify_eq/=. }
  destruct (Hu _ eq_refl) as (fips & now & c & Hl & Hnow & Hcount).
  specialize (Hold c fips now fip Hl Hcr Hnow).
  case_match eqn:Hq; unfold ret in Hrun; [by simplify_eq/=|]. unfold bind in Hrun.
  pose proof (takeQuotaReservation_lasting key h4) as Ht. fold key in Hrun.
  destruct (takeQuotaReservation _ h4) as [[] h5]. simplify_eq/=. bool_hyps. split; lia.
Qed.
End Quota.

(** ** Pools and addresses *)

Section Ranges.
Context {C : Type} `{HDyn : Dynamic C, HRange : MapRange, HText : NetErrText}.

(** Masking keeps the network number. *)
Lemma land_CIDRMask w bits :
  0 <= w < 2 ^ 32 → 0 <= bits <= 32 →
  Z.land w (CIDRMask bits 32 mod 2 ^ 32) = w / 2 ^ (32 - bits) * 2 ^ (32 - bits).
Proof.
  intros Hw Hb. unfold CIDRMask. rewrite <- Z.shiftr_div_pow2, <- Z.shiftl_mul_pow2 by lia.
  assert (2 ^ 32 - 2 ^ (32 - bits) = Z.shiftl (Z.ones bits) (32 - bits)) as ->.
  { rewrite Z.shiftl_mul_pow2, Z.ones_equiv by lia.
    replace (2 ^ 32) with (2 ^ bits * 2 ^ (32 - bits)) by (rewrite <- Z.pow_add_r by lia; f_equal; lia). lia. }
  apply Z.bits_inj'. intros i Hi. rewrite Z.land_spec, Z.testbit_mod_pow2, !Z.shiftl_spec by lia.
  destruct (Z.ltb_spec i (32 - bits)).
  { rewrite !(Z.testbit_neg_r _ (i - (32 - bits))) by lia. by rewrite andb_false_r, andb_false_r. }
  rewrite Z.shiftr_spec, Z.sub_add, Z.testbit_ones by lia.
  destruct (Z.ltb_spec i 32).
  - rewrite (proj2 (Z.leb_le _ _)), (proj2 (Z.ltb_lt _ _)) by lia. by rewrite andb_true_r.
  - assert (Z.testbit w i = false) as ->; [|done].
    rewrite <- (Z.mod_small w (2 ^ 32)), Z.testbit_mod_pow2 by lia.
    by rewrite (proj2 (Z.ltb_ge i 32)) by lia.
Qed.

(** What the webhook's containment test says of an IPv4 network. *)
Lemma net_contains s p v :
  ParsePrefix s = Some p → Is4 (prefix_ip p) = true → 0 <= v < max128 →
  IPNet_Contains (net_of p) (IP16 v) = true →
  v4prefix <= v < v4prefix + 2 ^ 32 ∧ block p v = block p (addr (prefix_ip p)).
Proof.
  intros Hp H4 Hv Hc. apply ParsePrefix_bits in Hp as (_ & _ & Hb & Hr). specialize (Hr H4).
  assert (0 <= prefix_bits p <= 32) as Hb32.
  { unfold Is4, Is6 in *. by destruct (z (prefix_ip p)). }
  destruct (v4_value _ H4 Hr) as [Hval Hlow].
  unfold IPNet_Contains, net_of in Hc. cbn [net_ip net_mask To4 to16] in Hc.
  destruct (Z.eqb_spec (v / 2 ^ 32) 65535) as [Hq|]; [|done].
  assert (v4prefix <= v < v4prefix + 2 ^ 32) as Hv4 by (unfold v4prefix; zlia).
  split; [done|]. apply Z.eqb_eq in Hc. unfold block. rewrite H4.
  assert (v mod 2 ^ 32 = v - v4prefix) as Hmod by (unfold v4prefix in *; zlia).
  replace (addr (prefix_ip p) - v4prefix) with (low32 (prefix_ip p)) by lia. rewrite <- Hmod.
  assert (CIDRMask (prefix_bits p) 32 mod 2 ^ 32 = CIDRMask (prefix_bits p) 32) as Hm.
  { apply Z.mod_small. unfold CIDRMask. pose proof (Z.pow_pos_nonneg 2 (32 - prefix_bits p)).
    pose proof (Z.pow_le_mono_r 2 (32 - prefix_bits p) 32). lia. }
  rewrite Hm, <- Z.land_assoc, Z.land_diag, <- Hm in Hc.
  rewrite !land_CIDRMask in Hc by first [done | apply Z.mod_pos_bound; lia].
  pose proof (Z.pow_pos_nonneg 2 (32 - prefix_bits p)). nia.
Qed.

Lemma IP_of_ip_name v : 0 <= v < max128 → IP_of (ip_name v) = Some (IP16 v).
Proof.
  intros Hv. unfold IP_of, ParseIP. by rewrite ParseAddr_ip_name, hasZone_canon, addr_canon.
Qed.

Lemma To4_v4 v :
  v4prefix <= v < v4prefix + 2 ^ 32 → To4 (IP16 v) = Some (v - v4prefix).
Proof.
  intros Hv. unfold To4. destruct (Z.eqb_spec (v / 2 ^ 32) 65535) as [_|Hne].
  - f_equal. unfold v4prefix in *. zlia.
  - unfold v4prefix in *. zlia.
Qed.

(** An address of the block lies in the range the webhook compares it with. *)
Lemma not_outside v lo hi :
  v4prefix <= v < v4prefix + 2 ^ 32 → v4prefix <= lo < v4prefix + 2 ^ 32 →
  v4prefix <= hi < v4prefix + 2 ^ 32 →
  outside (IP16 v) (IP16 lo) (IP16 hi) = false → lo <= v <= hi.
Proof.
  intros Hv Hl Hh. unfold outside. rewrite !To4_v4 by done. intros Ho. bool_hyps. lia.
Qed.

Lemma not_ip_lt lo hi :
  v4prefix <= lo < v4prefix + 2 ^ 32 → v4prefix <= hi < v4prefix + 2 ^ 32 →
  ip_lt (IP16 hi) (IP16 lo) = false → lo <= hi.
Proof.
  intros Hl Hh. unfold ip_lt. rewrite !To4_v4 by done. intros Ho. bool_hyps. lia.
Qed.

(** What an admitted configuration satisfies. *)
Lemma validate_admits uid fipPool cfg p lo hi xs :
  ps_IPConfig (pool_Spec fipPool) = Some cfg → canonical_config cfg p lo hi xs →
  Allowed (validateFloatingIPPool uid fipPool) = true →
  IPNet_Contains (net_of p) (IP16 lo) = true ∧ IPNet_Contains (net_of p) (IP16 hi) = true
  ∧ ip_lt (IP16 hi) (IP16 lo) = false ∧ ValidateRangeSize (ip_name lo) (ip_name hi) = Ok tt
  ∧ Forall (λ v, IPNet_Contains (net_of p) (IP16 v) = true
                 ∧ outside (IP16 v) (IP16 lo) (IP16 hi) = false) xs.
Proof.
  intros Hcfg [Hp H4 Hcidr Hs He Hx Hr] Ha. unfold validateFloatingIPPool in Ha.
  rewrite Hcfg, Hcidr, Hs, He, Hx in Ha.
  apply Forall_cons in Hr as [Hlo Hr]. apply Forall_cons in Hr as [Hhi Hr].
  rewrite !IP_of_ip_name in Ha by done.
  destruct (IPNet_Contains _ (IP16 lo)); [|done]. destruct (IPNet_Contains _ (IP16 hi)); [|done].
  cbn [negb] in Ha. destruct (ip_lt _ _); [done|]. destruct (ValidateRangeSize _ _) as [[]|]; [|done].
  split_and!; try done.
  clear Hx. induction Hr as [|v xs Hv Hr IH]; [constructor|]. cbn [fmap list_fmap omap list_omap] in Ha.
  unfold check_excluded at 1 in Ha. rewrite IP_of_ip_name in Ha by done.
  destruct (IPNet_Contains _ (IP16 v)) eqn:Hcv; [|done]. destruct (outside _ _ _) eqn:Ho; [done|].
  constructor; [done | by apply IH].
Qed.

(** The addresses of a subnet with an IPv4 prefix are IPv4 addresses. *)
Lemma wf_v4 sub s lo hi v :
  wf_subnet_at lo hi s → ParsePrefix sub = Some (cidr s) → Is4 (prefix_ip (cidr s)) = true →
  lo <= v <= hi → v4prefix <= v < v4prefix + 2 ^ 32.
Proof.
  intros Hw Hp H4 Hv. pose proof (wf_bounds _ _ _ Hw).
  destruct (wf_named _ _ _ Hw v Hv) as [Hn|[? _]]; [|congruence]. unfold nameable in Hn.
  rewrite ParseAddr_ip_name in Hn by lia. bool_hyps.
  destruct (Contains_inv sub (cidr s) (ip_name v) (canon v)) as (_ & _ & _ & Hr & _); try done.
  - apply ParseAddr_ip_name. lia.
  - rewrite addr_canon in Hr. auto.
Qed.

(** [buildSubnet] accepts an IPv4 range that fits its prefix. *)
Lemma buildSubnet_accepts sub p lo hi :
  ParsePrefix sub = Some p → Is4 (prefix_ip p) = true → lo <= hi → is_broadcast p hi = false →
  v4prefix <= lo < v4prefix + 2 ^ 32 → block p lo = block p (addr (prefix_ip p)) →
  v4prefix <= hi < v4prefix + 2 ^ 32 → block p hi = block p (addr (prefix_ip p)) →
  ValidateRangeSize (ip_name lo) (ip_name hi) = Ok tt →
  ∃ s, buildSubnet sub (ip_name lo) (ip_name hi) = Some (Ok s) ∧ wf_subnet_at lo hi s
       ∧ cidr s = p ∧ ips s = gset_to_gmap false (range_keys lo hi) ∧ owners s = ∅.
Proof.
  intros Hp H4 Hle Hbc Hlo Hbl Hhi Hbh Hsz.
  assert (∀ v, v4prefix <= v < v4prefix + 2 ^ 32 → 0 <= v < max128) as Hrange
    by (unfold v4prefix, max128; intros; lia).
  assert (∃ s, buildSubnet sub (ip_name lo) (ip_name hi) = Some (Ok s)) as [s Hs].
  { unfold buildSubnet. rewrite Hp, !ParseAddr_ip_name by auto.
    rewrite !(Contains_block sub) by first [done | by auto | congruence]. cbn [negb].
    unfold parsed_ip, ParseIP. rewrite !ParseAddr_ip_name, !hasZone_canon, !addr_canon by auto.
    cbn [default from_option id AddrFromSlice]. rewrite Compare_16, (proj2 (Z.ltb_ge hi lo)) by done.
    change (match subnet_broadcast p with Some b => IP_Equal (IP16 hi) b | None => false end)
      with (is_broadcast p hi). rewrite Hbc, Hsz.
    apply ValidateRangeSize_size with (ab := canon lo) (ae := canon hi) in Hsz;
      [|by rewrite ParseAddr_ip_name by auto ..]. rewrite !addr_canon in Hsz.
    rewrite fill_spec by (unfold loop_fuel, MaxSubnetRangeSize, v4prefix, max128 in *; lia). by eexists. }
  exists s. split; [done|]. destruct (buildSubnet_ok _ _ _ _ Hs) as (lo' & hi' & Hl & Hh & Hw & Hi & Ho & Hc).
  unfold ParseIP in Hl, Hh. rewrite ParseAddr_ip_name, hasZone_canon, addr_canon in Hl, Hh by auto.
  simplify_eq. done.
Qed.

(** a pool in canonical form whose last address is not the broadcast
    address of its subnet, once the webhook lets it through, can be built by
    the allocator: the range, the excluded addresses and any allocation that
    the pool's status lists, whatever the allocator holds. *)
Theorem admitted_pool_builds uid fipPool cfg p lo hi xs :
  ps_IPConfig (pool_Spec fipPool) = Some cfg → canonical_config cfg p lo hi xs →
  is_broadcast p hi = false →
  Allowed (validateFloatingIPPool uid fipPool) = true →
  ∀ a name allocations, ∃ a',
    RefreshSubnet a name (Subnet cfg) (p_Start (ipc_Pool cfg)) (p_End (ipc_Pool cfg))
      (Exclude (ipc_Pool cfg)) allocations = Some (Ok tt, a') ∧
    ∃ pl, pools a' !! name = Some pl ∧ p_keys pl = range_keys lo hi.
Proof.
  intros Hcfg Hcan Hbc Ha a name al.
  destruct (validate_admits _ _ _ _ _ _ _ Hcfg Hcan Ha) as (Hcl & Hch & Hlt & Hsz & Hx).
  destruct Hcan as [Hp H4 _ Hs He Hex Hr]. rewrite Hs, He, Hex.
  apply Forall_cons in Hr as [Hlo Hr]. apply Forall_cons in Hr as [Hhi Hr].
  destruct (net_contains _ _ _ Hp H4 Hlo Hcl) as [Hlo4 Hbl].
  destruct (net_contains _ _ _ Hp H4 Hhi Hch) as [Hhi4 Hbh].
  pose proof (not_ip_lt _ _ Hlo4 Hhi4 Hlt) as Hle.
  destruct (buildSubnet_accepts (Subnet cfg) p lo hi) as (s & Hb & Hw & Hc & Hi & Ho); try done.
  assert (Forall (markable s) (ip_name <$> xs)) as Hm.
  { apply Forall_fmap, Forall_forall. intros v Hv. rewrite Forall_forall in Hx, Hr.
    destruct (Hx _ Hv) as [Hcv Hout]. destruct (net_contains _ _ _ Hp H4 (Hr _ Hv) Hcv) as [Hv4 _].
    apply not_outside in Hout; try done. split; simpl.
    - destruct (wf_named _ _ _ Hw v Hout) as [?|[? _]]; [done | congruence].
    - rewrite (wf_keys _ _ _ Hw). apply elem_of_range_keys. eauto. }
  unfold RefreshSubnet. rewrite Hb. simpl.
  destruct (mark_excludes_succeeds _ _ Hm) as [s' Hs']. rewrite Hs'.
  pose proof (proj1 (mark_excludes_Ok _ _ _ Hs')) as Hms.
  set (final := match ipam a !! name with Some old => _ | None => _ end).
  edestruct (refresh_claims s s' (foldl mark_allocation s' al) final (ip_name <$> xs) al (ipam a !! name) Ho)
    as (Hsame & _); [|exact Hms|apply mark_allocations_marks|reflexivity|].
  { intros k. rewrite Hi, lookup_gset_to_gmap_Some. naive_solver. }
  eexists. split; [reflexivity|].
  eexists. rewrite pools_set, lookup_insert_eq. split; [reflexivity|]. simpl.
  by rewrite (same_dom _ _ Hsame), (wf_keys _ _ _ Hw).
Qed.

(** an address a create or an update may ask for, once it has passed the
    webhook's range checks, is one that the allocator's subnet for the pool
    manages and can grant, and it is not an excluded one. *)
Theorem admitted_address_in_pool uid pool fipPool cfg p lo hi xs v s :
  ps_IPConfig (pool_Spec fipPool) = Some cfg → canonical_config cfg p lo hi xs →
  0 <= v < max128 →
  check_range uid pool (ip_name v) fipPool = None →
  buildSubnet (Subnet cfg) (p_Start (ipc_Pool cfg)) (p_End (ipc_Pool cfg)) = Some (Ok s) →
  markable s (ip_name v) ∧ ip_name v ∉ Exclude (ipc_Pool cfg).
Proof.
  intros Hcfg [Hp H4 Hcidr Hs He Hex Hr] Hv Hc Hb. rewrite Hs, He in Hb.
  apply Forall_cons in Hr as [Hlo Hr]. apply Forall_cons in Hr as [Hhi _].
  unfold check_range in Hc. rewrite Hcfg, Hcidr, Hs, He, !IP_of_ip_name in Hc by done.
  destruct (IPNet_Contains _ _) eqn:Hin; [|done]. destruct (outside _ _ _) eqn:Ho; [done|].
  cbn [negb] in Hc. destruct (containsString _ _) eqn:Hcs; [done|].
  destruct (net_contains _ _ _ Hp H4 Hv Hin) as [Hv4 Hbv].
  destruct (buildSubnet_ok _ _ _ _ Hb) as (lo' & hi' & Hl & Hh & Hw & _ & _ & Hpc).
  unfold ParseIP in Hl, Hh. rewrite ParseAddr_ip_name, hasZone_canon, addr_canon in Hl, Hh by done.
  simplify_eq.
  assert (lo' <= hi') as Hle by (pose proof (wf_bounds _ _ _ Hw); lia).
  assert (lo' <= v <= hi') as Hrange.
  { apply not_outside in Ho; try done; eapply wf_v4; eauto; lia. }
  split; [split|].
  - destruct (wf_named _ _ _ Hw v Hrange) as [?|[? _]]; [done | congruence].
  - rewrite (wf_keys _ _ _ Hw). apply elem_of_range_keys. eauto.
  - rewrite <- not_true_iff_false, containsString_true in Hcs. by rewrite Hex in Hcs |- *.
Qed.
End Ranges.

(** ** Updates *)

Section Updates.
Context {C : Type} `{HDyn : Dynamic C, HText : NetErrText}.

(** An update that leaves a floating IP where it is: in its pool, holding or
    about to hold a slot, and with the address it was granted or has asked for
    before. *)
Record keeps_slot (fipPool : FloatingIPPool) (old fip : FloatingIP) (a : string) : Prop := mkKeeps {
  keeps_pool : fip_pool old = fip_pool fip;
  keeps_granted : st_IPAddr (fip_Status old) = "" → State (fip_Status old) ≠ "Error";
  keeps_ip : IPAddr (fip_Spec fip) = Some a;
  keeps_address : st_IPAddr (fip_Status old) = a ∨
    already_owns (Some old) a = true ∧ mhas (pst_Allocated (pool_Status fipPool)) a = false
}.

(** an object that is being deleted is always admitted.  An update that
    keeps a floating IP's pool, slot and address, such as the spec rewrite of
    the controller, is denied only by the range checks: neither a reservation,
    nor another claim, nor a full quota can stop it, and it takes no
    reservation. *)
Theorem own_update_admitted uid fip old fipPool a (h : Hook C) :
  (is_some (DeletionTimestamp (fip_meta fip)) = true →
     validateFloatingIP uid fip (Some old) h = (allow uid, h)) ∧
  (is_some (DeletionTimestamp (fip_meta fip)) = false →
   (dyn_GetPool (fip_pool fip) (cluster h)).1 = Ok (Some fipPool) →
   keeps_slot fipPool old fip a →
   ∃ h', validateFloatingIP uid fip (Some old) h
           = (default (allow uid) (check_range uid (fip_pool fip) a fipPool), h') ∧
         ipReservations h' = ipReservations h ∧ quotaReservations h' = quotaReservations h).
Proof.
  unfold validateFloatingIP. split; intros Hdel; rewrite Hdel; [done|].
  intros Hpool [Hsame Hslot Hip Haddr].
  eexists (mkHook (ipReservations h) (quotaReservations h) _). split; [|done].
  unfold bind at 1. rewrite dyn_eq, Hpool. unfold check_availability, bind. rewrite Hip.
  destruct (check_range _ _ _ _) as [resp|]; [reflexivity|]. unfold ret, shouldCheckQuota. rewrite Hip, Hsame.
  rewrite bool_decide_eq_true_2 with (P := fip_pool fip = fip_pool fip) by done.
  destruct Haddr as [Ha|[Hown Hfree]].
  - rewrite !bool_decide_eq_true_2 by congruence. reflexivity.
  - unfold checkIPNotInUse. rewrite Hfree, Hown. unfold ret.
    repeat case_bool_decide; try reflexivity; exfalso; by apply Hslot.
Qed.
End Updates.
