(* ===== verification/WebhookDemo.v ===== *)
(** The admission webhook on concrete requests: instances of the theorems of
    [WebhookCorrect], a quota that a slow clock lets creates exceed, and a pool
    that the webhook admits and the allocator refuses. *)

From S2P Require Import Prelude GoStd NetIP NetIPFacts Ipam IpamSpec IpamCorrect ApiTypes Kube FipController MemKube FipDemo QuotaController Webhook WebhookCorrect.

#[local] Existing Instances sorted_range no_err_text.

(** ** A cluster: the time, and the floating IPs its cache shows *)

Record View := mkView { v_now : time; v_fips : list (option FloatingIP) }.

Definition demo_dynamic : Dynamic View := {|
  dyn_GetPool := λ name c, (Ok (if bool_decide (name = "pool") then Some demo_pool else None), c);
  dyn_GetQuota := λ _ c, (Ok (Some demo_quota), c);
  dyn_ListFIPs := λ c, (Ok (v_fips c), c);
  dyn_Now := λ c, (v_now c, c)
|}.

Definition created_at (t : time) (name ip : string) : FloatingIP :=
  mkFIP (mkMeta name "ns" (Some {[projectNameLabel := "p1"]}) None [] "1" t None)
    (mkFIPSpec None "pool") (mkFIPStatus ip "" None []).

Definition ms (n : Z) : time := n * (Second / 1000).

(** A webhook that starts without reservations. *)
Definition fresh {C} (c : C) : Hook C := mkHook ∅ ∅ c.
Definition set_cluster {C} (h : Hook C) (c : C) : Hook C :=
  mkHook (ipReservations h) (quotaReservations h) c.

(** ** Duplicate creates *)

Section Demo.
#[local] Existing Instance demo_dynamic.

Lemma duplicate_create_denied_witness :
  let r := checkIPNotInUse "u" (created_at 0 "a" "") "10.0.0.5" demo_pool None (fresh (mkView 0 [])) in
  r.1 = None ∧
  ∃ c t, dyn_Now c = (t, cluster r.2) ∧
    ∀ uid2 fip2 ip2 fipPool2 (h2 : Hook View),
      fip_pool fip2 = "pool" → same_address ip2 "10.0.0.5" = true →
      ipReservations h2 !! "pool/10.0.0.5" = ipReservations r.2 !! "pool/10.0.0.5" →
      (dyn_Now (cluster h2)).1 < t + ipReservationTTL →
      ∃ resp, (checkIPNotInUse uid2 fip2 ip2 fipPool2 None h2).1 = Some resp ∧ Allowed resp = false.
Proof.
  split; [vm_compute; reflexivity|].
  apply (duplicate_create_denied "u" (created_at 0 "a" "") "10.0.0.5" demo_pool (fresh (mkView 0 []))).
  vm_compute. reflexivity.
Defined.

(** A second create of the address, spelled as an IPv4-mapped IPv6 address. *)
Example duplicate_spelled_otherwise :
  let r := checkIPNotInUse "u" (created_at 0 "a" "") "10.0.0.5" demo_pool None (fresh (mkView 0 [])) in
  Allowed <$> (checkIPNotInUse "v" (created_at 0 "b" "") "::ffff:10.0.0.5" demo_pool None r.2).1
    = Some false.
Proof. vm_compute. reflexivity. Qed.

(** The quota is 2.  The create of [a] is reserved at 0.95 s and stamped 1 s:
    at 5.97 s its reservation is gone and [a] still counts as recent, so [a] is
    paired with the reservation of [b], and [c] is admitted as the third. *)
Example quota_exceeded_by_pairing :
  let a := created_at (ms 1000) "a" "10.0.0.2" in
  let '(ra, h1) := checkQuota "1" a None (fresh (mkView (ms 950) [])) in
  let '(rb, h2) := checkQuota "2" (created_at 0 "b" "") None (set_cluster h1 (mkView (ms 5970) [Some a])) in
  let '(rc, _) := checkQuota "3" (created_at 0 "c" "") None (set_cluster h2 (mkView (ms 5980) [Some a])) in
  mlookup (FloatingIPQuota (quota_Spec demo_quota)) "pool" = Some 2
  ∧ Allowed ra = true ∧ Allowed rb = true ∧ Allowed rc = true.
Proof. vm_compute. done. Qed.

(** The controller's rewrite of [a] right after the create that reserved its
    address, with the quota used up. *)
Definition rewritten : FloatingIP :=
  mkFIP (fip_meta (created_at 0 "a" "")) (mkFIPSpec (Some "10.0.0.5") "pool") (mkFIPStatus "" "" None []).

Lemma own_update_admitted_witness :
  let h := mkHook {["pool/10.0.0.5" := ms 5000]} {["p1/pool" := [ms 5000; ms 5000]]} (mkView 0 []) in
  keeps_slot demo_pool rewritten rewritten "10.0.0.5" ∧
  ∃ h', validateFloatingIP "u" rewritten (Some rewritten) h = (allow "u", h') ∧
        ipReservations h' = ipReservations h ∧ quotaReservations h' = quotaReservations h.
Proof.
  assert (keeps_slot demo_pool rewritten rewritten "10.0.0.5") as Hk.
  { split; [reflexivity | intros _; discriminate | reflexivity | right; vm_compute; done]. }
  intros h. split; [exact Hk|].
  apply (proj2 (own_update_admitted "u" rewritten rewritten demo_pool "10.0.0.5" h)); [reflexivity..|exact Hk].
Defined.
End Demo.

(** ** A burst of creates *)

(** A cluster whose clock moves within a second, with one floating IP that has
    been there for long. *)
Definition demo_long_ago : FloatingIP := created_at (- (100 * Second)) "old" "10.0.0.2".

Definition demo_clock : Dynamic Z := {|
  dyn_GetPool := λ _ c, (Ok (Some demo_pool), c);
  dyn_GetQuota := λ _ c, (Ok (Some demo_quota), c);
  dyn_ListFIPs := λ c, (Ok [Some demo_long_ago], c + 1);
  dyn_Now := λ c, (c mod Second, c + 1)
|}.

Section Burst.
#[local] Existing Instance demo_clock.

Definition demo_burst_1 := checkQuota "1" (created_at 0 "a" "") None (fresh 0).
Definition demo_burst_2 := checkQuota "2" (created_at 0 "b" "") None demo_burst_1.2.

Lemma quota_burst_safe_witness :
  burst "p1" "pool" (λ f, fip_name f ≠ "old") (fresh 0) 1 demo_burst_2.2 ∧
  Z.of_nat 1 <= Z.max 0 (2 - 1 - Z.of_nat (lasting (5 * Second) "p1/pool" (fresh 0))).
Proof.
  assert (burst "p1" "pool" (λ f, fip_name f ≠ "old") (fresh 0) 1 demo_burst_2.2) as Hb.
  { assert (burst "p1" "pool" (λ f, fip_name f ≠ "old") (fresh 0) 1 demo_burst_1.2) as H1.
    { apply (burst_create "p1" "pool" _ (fresh 0) 0 (fresh 0) (fresh 0) "1" (created_at 0 "a" "")
        (allow "1")); [constructor | reflexivity | discriminate | reflexivity ..| vm_compute; reflexivity]. }
    apply (burst_create "p1" "pool" _ (fresh 0) 1 demo_burst_1.2 demo_burst_1.2 "2" (created_at 0 "b" "")
        demo_burst_2.1); [exact H1 | reflexivity | discriminate | reflexivity ..| vm_compute; reflexivity]. }
  split; [exact Hb|].
  apply (quota_burst_safe 0 (5 * Second)) with (projectID := "p1") (pool := "pool") (created := λ f, fip_name f ≠ "old")
    (h := fresh 0) (h' := demo_burst_2.2); [vm_compute; discriminate | | | |exact Hb].
  - intros c. simpl. pose proof (Z.mod_pos_bound c Second). unfold quotaReservationTTL, Second in *. lia.
  - intros c q Hq. simpl in Hq. injection Hq as <-. vm_compute. reflexivity.
  - intros c fips now fip Hf Hname Hnow. simpl in Hf. injection Hf as <-.
    rewrite filter_cons, decide_True; [reflexivity|].
    cbn [occupying aged]. unfold concerns, same_object.
    rewrite (bool_decide_eq_false_2 (fip_name demo_long_ago = fip_name fip)) by (intros ?; by apply Hname).
    unfold is_recent. cbn. apply negb_true_iff, Z.ltb_ge. unfold quotaReservationTTL, Second in *. lia.
Defined.
End Burst.

(** ** Pools *)

Definition demo_prefix : Prefix := default (mkPrefix zeroAddr 0) (ParsePrefix "10.0.0.0/29").
Definition demo_config : IPConfig :=
  mkIPConfig "IPv4" "10.0.0.0/29" (mkPool "10.0.0.2" "10.0.0.5" ["10.0.0.3"]).
Definition v4 (last : Z) : Z := v4prefix + 167772160 + last.

Lemma demo_canonical : canonical_config demo_config demo_prefix (v4 2) (v4 5) [v4 3].
Proof.
  split; [vm_compute; reflexivity .. |]. repeat constructor; vm_compute; discriminate.
Qed.

Lemma admitted_pool_builds_witness :
  Allowed (validateFloatingIPPool "u" demo_pool) = true ∧
  ∃ a', RefreshSubnet New "pool" "10.0.0.0/29" "10.0.0.2" "10.0.0.5" ["10.0.0.3"] ["10.0.0.4"]
          = Some (Ok tt, a') ∧
    ∃ pl, pools a' !! "pool" = Some pl ∧ p_keys pl = range_keys (v4 2) (v4 5).
Proof.
  split; [vm_compute; reflexivity|].
  apply (admitted_pool_builds "u" demo_pool demo_config demo_prefix (v4 2) (v4 5) [v4 3]);
    [reflexivity | exact demo_canonical | vm_compute; reflexivity | vm_compute; reflexivity].
Defined.

Lemma admitted_address_in_pool_witness :
  check_range "u" "pool" "10.0.0.4" demo_pool = None ∧
  markable (default demo_subnet (match buildSubnet "10.0.0.0/29" "10.0.0.2" "10.0.0.5" with
                                 | Some (Ok s) => Some s | _ => None end)) "10.0.0.4"
  ∧ "10.0.0.4" ∉ ["10.0.0.3"].
Proof.
  split; [vm_compute; reflexivity|].
  apply (admitted_address_in_pool "u" "pool" demo_pool demo_config demo_prefix (v4 2) (v4 5) [v4 3] (v4 4));
    [reflexivity | exact demo_canonical | vm_compute; split; congruence | vm_compute; reflexivity
    | vm_compute; reflexivity].
Defined.

(** The webhook admits a pool that ends at the broadcast address, or that spells
    an excluded address otherwise than the allocator does; the allocator cannot
    build either. *)
Definition bad_pool (end_ : string) (exclude : list string) : FloatingIPPool :=
  mkFIPPool (demo_meta "" "pool" None [])
    (mkPoolSp (Some (mkIPConfig "IPv4" "10.0.0.0/29" (mkPool "10.0.0.2" end_ exclude))) "" "" "")
    (mkPoolStatus None 0 0).

Example admitted_but_not_built :
  Allowed (validateFloatingIPPool "u" (bad_pool "10.0.0.7" [])) = true
  ∧ is_err <$> (fst <$> RefreshSubnet New "pool" "10.0.0.0/29" "10.0.0.2" "10.0.0.7" [] []) = Some true
  ∧ Allowed (validateFloatingIPPool "u" (bad_pool "10.0.0.5" ["::ffff:10.0.0.3"])) = true
  ∧ is_err <$> (fst <$> RefreshSubnet New "pool" "10.0.0.0/29" "10.0.0.2" "10.0.0.5" ["::ffff:10.0.0.3"] [])
      = Some true.
Proof. vm_compute. done. Qed.
