(* ===== verification/ApiServer.v ===== *)
(** The API server: the HTTP handlers a cluster's load-balancer controller calls
    to request, release, list and delete floating IPs,
    [apiserver/internal/handlers/handlers.go], and the watch that waits for an
    address, [apiserver/internal/kubebuilder/kubebuilder.go].

    A handler is a program on the world of [Kube]: the client of the API server
    is uncached, and anything may happen between two of its calls. *)

From S2P Require Import Prelude GoStd NetIP NetIPFacts Ipam IpamSpec IpamCorrect ApiTypes Kube ServiceLabels FipController.

(** ** Requests and responses *)

Record FIPRequest := mkFIPRequest {
  rq_ClientSecret : string; rq_Cluster : string; rq_Project : string; rq_FloatingIPPool : string;
  rq_ServiceNamespace : string; rq_ServiceName : string; rq_IPAddress : string;
  rq_FloatingIPGroup : string
}.

Record FIPResponse := mkFIPResponse {
  rs_ClientSecret : string; rs_Status : string; rs_Cluster : string; rs_Project : string;
  rs_FloatingIPPool : string; rs_ServiceNamespace : string; rs_ServiceName : string;
  rs_IPAddress : string; rs_Subnet : string; rs_FloatingIPGroup : string; rs_SharedKey : string
}.

Record FIPReleaseRequest := mkFIPReleaseRequest {
  rl_Cluster : string; rl_Project : string; rl_ServiceNamespace : string; rl_ServiceName : string;
  rl_IPAddress : string; rl_FloatingIPGroup : string
}.

Record FIPListRequest := mkFIPListRequest {
  ls_ClientSecret : string; ls_Cluster : string; ls_Project : string; ls_FloatingIPPool : string
}.

(** [types.FloatingIP], an entry of the list response. *)
Record FIPListEntry := mkFIPListEntry {
  le_Project : string; le_Cluster : string; le_FloatingIPPool : string;
  le_ServiceNamespace : string; le_ServiceName : string; le_IPAddress : string;
  le_FloatingIPGroup : string
}.

Record FIPListResponse := mkFIPListResponse {
  lr_ClientSecret : string; lr_Cluster : string; lr_Project : string; lr_FloatingIPs : list FIPListEntry
}.

Record FIPDeleteRequest := mkFIPDeleteRequest { dl_Project : string; dl_IPAddress : string }.

(** [FIPReleaseResponse] and [FIPDeleteResponse]. *)
Record StatusResponse := mkStatusResponse { sr_Status : string; sr_Message : string }.

(** What a handler writes; nothing if the client has gone. *)
Inductive Reply (B : Type) :=
| JSONOk (body : B)
| JSONError (code : Z) (message : string)
| NoReply.
Arguments JSONOk {B}.
Arguments JSONError {B}.
Arguments NoReply {B}.

(** ** Errors with a status *)

Definition newErrHTTP (status : Z) (message : string) : error := mkErr (KHTTP status) message.

Definition writeHandlerError {B} (err : error) : Reply B :=
  match err_kind err with
  | KHTTP status => JSONError status (err_msg err)
  | _ => JSONError 500 "failed to process floating IP request"
  end.

(** The code of an error that is an [APIStatus]. *)
Definition api_status (k : ErrKind) : option Z :=
  match k with
  | KNotFound => Some 404
  | KConflict | KAlreadyExists => Some 409
  | KForbidden => Some 403
  | KStatus code => Some code
  | _ => None
  end.

Definition createErrorToHTTP (err : error) : error :=
  if IsAlreadyExists err then
    newErrHTTP 409 "floating IP request is already in progress, retry the request"
  else match api_status (err_kind err) with
  | Some code =>
      if (400 <=? code) && (code <? 500) then
        newErrHTTP code (if bool_decide (err_msg err = "")
          then "floating IP request rejected by the API server" else err_msg err)
      else err
  | None => err
  end.

(** [writeUpdateError], as an error for [writeHandlerError]. *)
Definition update_error (err : error) : error :=
  if IsConflict err then newErrHTTP 409 "conflict updating floating IP, retry the request"
  else newErrHTTP 500 "failed to update floating IP".

Definition errFIPClaimed : error := mkErr KFIPClaimed "floating ip already claimed by another request".
Definition is_claimed (err : error) : bool := bool_decide (err_kind err = KFIPClaimed).

(** ** Service labels *)

Definition is_service_key (key : string) : bool :=
  HasPrefix key serviceIndexLabelPrefix && HasSuffix key "-name".

(** The service ID of a key, as [serviceAlreadyExists] and the release handler
    take it, and as [getNextServiceID] and the list handler do. *)
Definition service_id (key : string) : string :=
  TrimPrefix (TrimSuffix key "-name") serviceIndexLabelPrefix.
Definition service_id' (key : string) : string :=
  TrimSuffix (TrimPrefix key serviceIndexLabelPrefix) "-name".

Definition ns_label (serviceID : string) : string := serviceIndexLabelPrefix +:+ serviceID +:+ "-namespace".
Definition name_label (serviceID : string) : string := serviceIndexLabelPrefix +:+ serviceID +:+ "-name".

Section ApiServer.
Context {S : Type} `{HKube : KubeAPI S, HRange : MapRange}.
#[local] Open Scope go_scope.

(** One round of the loop of [getNextServiceID]. *)
Definition max_service_id (maxID : Z) (label : string * string) : Z :=
  if is_service_key label.1 then
    match atoi (service_id' label.1) with
    | Some id => if maxID <? id then id else maxID
    | None => maxID
    end
  else maxID.

Definition getNextServiceID (labels : gmap string string) : string :=
  let maxID := foldl max_service_id (-1) (range labels) in
  if 0 <=? maxID then itoa (wrap64 (maxID + 1)) else "0".

(** The label registers the service: its name, and the namespace next to it. *)
Definition registers (labels : gmap string string) (serviceName serviceNamespace : string)
    (label : string * string) : bool :=
  is_service_key label.1 && bool_decide (label.2 = serviceName)
  && bool_decide (labels !! ns_label (service_id label.1) = Some serviceNamespace).

Definition serviceAlreadyExists (labels : gmap string string) (serviceName serviceNamespace : string) : bool :=
  existsb (registers labels serviceName serviceNamespace) (range labels).

Definition labels_of (fip : FloatingIP) : gmap string string := default ∅ (Labels (fip_meta fip)).
Definition with_labels (fip : FloatingIP) (labels : gmap string string) : FloatingIP :=
  set_fip_meta fip (set_Labels (fip_meta fip) (Some labels)).

(** The labels after the request, and whether the service was added. *)
Definition request_labels (labels : gmap string string)
    (project cluster serviceName serviceNamespace group : string) : gmap string string * bool :=
  let labels := <[clusterNameLabel := cluster]> (<[projectNameLabel := project]> labels) in
  let '(labels, added) :=
    if serviceAlreadyExists labels serviceName serviceNamespace then (labels, false)
    else
      let serviceID := getNextServiceID labels in
      (<[ns_label serviceID := serviceNamespace]> (<[name_label serviceID := serviceName]> labels), true) in
  (if bool_decide (group = "") then labels else <[floatingipGroupLabel := group]> labels, added).

Definition applyFIPRequestLabels (fip : FloatingIP)
    (project cluster serviceName serviceNamespace group : string) : FloatingIP * bool :=
  let '(labels, added) :=
    request_labels (labels_of fip) project cluster serviceName serviceNamespace group in
  (with_labels fip labels, added).

(** The mutation a request makes. *)
Definition claimLabels (req : FIPRequest) (project : Project) (fip : FloatingIP) : FloatingIP :=
  (applyFIPRequestLabels fip (proj_Name project) (rq_Cluster req) (rq_ServiceName req)
     (rq_ServiceNamespace req) (rq_FloatingIPGroup req)).1.

(** ** Updating a floating IP *)

Definition updateFloatingIPIf (desired : FloatingIP) (claimable : option (FloatingIP → bool))
    (mutate : FloatingIP → FloatingIP) : M (World S) (res FloatingIP) :=
  RetryOnConflict (
    try! fresh := api (GetFIP (fip_ns desired) (fip_name desired)) else err => ret (Err err) in
    if match claimable with Some c => negb (c fresh) | None => false end
    then ret (Err errFIPClaimed)
    else api (UpdateFIP (mutate fresh))).

Definition updateFloatingIP (desired : FloatingIP) (mutate : FloatingIP → FloatingIP)
    : M (World S) (res FloatingIP) :=
  updateFloatingIPIf desired None mutate.

Definition fipClaimableByCluster (fip : FloatingIP) (cluster : string) : bool :=
  let claimedBy := fip_label fip clusterNameLabel in
  bool_decide (claimedBy = "") || bool_decide (claimedBy = cluster).

Definition fipClaimableByRequest (fip : FloatingIP) (cluster group : string) : bool :=
  let claimedBy := fip_label fip clusterNameLabel in
  if bool_decide (claimedBy = "") then true
  else negb (bool_decide (group = "")) && bool_decide (claimedBy = cluster)
       && bool_decide (fip_label fip floatingipGroupLabel = group).

(** ** Finding the project *)

Definition find_project (name : string) : M (World S) (res Project) :=
  try! projects := api ListProjects else _e => ret (Err (newErrHTTP 500 "Failed to list projects")) in
  match projects with
  | None => ret (Err (newErrHTTP 500 "Failed to parse projects"))
  | Some items =>
      match find (λ p, bool_decide (proj_Name p = name)) items with
      | None => ret (Err (newErrHTTP 400 "Project not found"))
      | Some project => ret (Ok project)
      end
  end.

(** ** Requesting a pinned address *)

Definition specificFIPName (pool ipAddr : string) : string :=
  let canonical := match ParseIP ipAddr with Some v => IP_String (IP16 v) | None => ipAddr end in
  "fip-" +:+ EncodeToString (take 16 (Sum256 (bytes_of (pool +:+ "/" +:+ canonical)))).

(** The refusal of a claim, if any. *)
Definition checkSpecificIPClaimable (fip : FloatingIP) (req : FIPRequest) : res unit :=
  if is_some (DeletionTimestamp (fip_meta fip)) then
    Err (newErrHTTP 409 "FloatingIP is being released, retry the request")
  else if negb (bool_decide (fip_label fip projectNameLabel = rq_Project req)) then
    Err (newErrHTTP 409 "IP address is already in use by another project")
  else match Assigned (fip_Status fip) with
  | None => Ok tt
  | Some assigned =>
      if bool_decide (FloatingIPGroup assigned = "") then
        if bool_decide (rq_FloatingIPGroup req = "")
           && bool_decide (fip_label fip clusterNameLabel = rq_Cluster req)
           && serviceAlreadyExists (labels_of fip) (rq_ServiceName req) (rq_ServiceNamespace req)
        then Ok tt
        else Err (newErrHTTP 409 "IP address is already assigned")
      else if negb (bool_decide (rq_FloatingIPGroup req = ""))
              && negb (bool_decide (rq_FloatingIPGroup req = FloatingIPGroup assigned)) then
        Err (newErrHTTP 409 "FloatingIPGroup does not match the assigned FloatingIPGroup")
      else if negb (bool_decide (ClusterName assigned = rq_Cluster req)) then
        Err (newErrHTTP 409 "FloatingIP is already in use by another cluster")
      else Ok tt
  end.

(** A floating IP that already claims the requesting service. *)
Definition holds_service (req : FIPRequest) (fip : FloatingIP) : bool :=
  negb (is_some (DeletionTimestamp (fip_meta fip)))
  && bool_decide (fip_label fip projectNameLabel = rq_Project req)
  && bool_decide (fip_label fip clusterNameLabel = rq_Cluster req)
  && bool_decide (fip_pool fip = rq_FloatingIPPool req)
  && serviceAlreadyExists (labels_of fip) (rq_ServiceName req) (rq_ServiceNamespace req)
  && bool_decide (fip_label fip floatingipGroupLabel = rq_FloatingIPGroup req)
  && (bool_decide (rq_IPAddress req = "") || bool_decide (IPAddr (fip_Spec fip) = Some (rq_IPAddress req))).

Definition findServiceFIP (project : Project) (req : FIPRequest) : M (World S) (res (option FloatingIP)) :=
  try! items := api (ListFIPs (proj_Namespace project) []) else err => ret (Err err) in
  ret (Ok (find (holds_service req) items)).

Definition is_pinned_to (req : FIPRequest) (fip : FloatingIP) : bool :=
  bool_decide (fip_label fip projectNameLabel = rq_Project req)
  && bool_decide (IPAddr (fip_Spec fip) = Some (rq_IPAddress req)).

Definition findPinnedFIP (project : Project) (req : FIPRequest) : M (World S) (res (option FloatingIP)) :=
  try! items := api (ListFIPs (proj_Namespace project) []) else err => ret (Err err) in
  ret (Ok (find (is_pinned_to req) items)).

(** The object of a new floating IP, with the request as its first service. *)
Definition new_fip (project : Project) (req : FIPRequest) (name : string) (ipAddr : option string)
    : FloatingIP :=
  let labels : gmap string string :=
    <[ns_label "0" := rq_ServiceNamespace req]> (<[name_label "0" := rq_ServiceName req]>
      (<[clusterNameLabel := rq_Cluster req]> {[projectNameLabel := proj_Name project]})) in
  let labels :=
    if bool_decide (rq_FloatingIPGroup req = "") then labels
    else <[floatingipGroupLabel := rq_FloatingIPGroup req]> labels in
  mkFIP (mkMeta name (proj_Namespace project) (Some labels) None [] "" 0 None)
    (mkFIPSpec ipAddr (rq_FloatingIPPool req)) (mkFIPStatus "" "" None []).

(** After a failed create: look for the object of a concurrent request. *)
Definition adopt_pinned (project : Project) (req : FIPRequest) (err : error)
    : M (World S) (res (FloatingIP * bool)) :=
  let! r := findPinnedFIP project req in
  match r with
  | Ok (Some existing) => ret (Ok (existing, false))
  | _ => ret (Err (createErrorToHTTP err))
  end.

(** The floating IP, and whether this request created it. *)
Definition createSpecificIP (project : Project) (req : FIPRequest)
    : M (World S) (res (FloatingIP * bool)) :=
  let fip := new_fip project req (specificFIPName (rq_FloatingIPPool req) (rq_IPAddress req))
               (Some (rq_IPAddress req)) in
  let! r := api (CreateFIP "" fip) in
  match r with
  | Ok created => ret (Ok (created, true))
  | Err err =>
      if IsAlreadyExists err then
        let! g := api (GetFIP (proj_Namespace project) (fip_name fip)) in
        match g with
        | Ok existing =>
            if bool_decide (IPAddr (fip_Spec existing) = Some (rq_IPAddress req))
               && bool_decide (fip_pool existing = rq_FloatingIPPool req)
            then ret (Ok (existing, false))
            else ret (Err (newErrHTTP 409
                   "floating IP request conflicts with an existing object, retry the request"))
        | Err getErr =>
            if IsNotFound getErr then adopt_pinned project req err
            else ret (Err (newErrHTTP 500 "failed to read the existing floating IP"))
        end
      else adopt_pinned project req err
  end.

(** The claim of an existing object, re-checked on the live one. *)
Definition claim_pinned (project : Project) (req : FIPRequest) (existing : FloatingIP)
    : M (World S) (res (FloatingIP * bool)) :=
  match checkSpecificIPClaimable existing req with
  | Err err => ret (Err err)
  | Ok _ =>
      let! r := updateFloatingIPIf existing (Some (λ f, fipClaimableByCluster f (rq_Cluster req)))
                  (claimLabels req project) in
      match r with
      | Ok updated => ret (Ok (updated, false))
      | Err err =>
          if is_claimed err then ret (Err (newErrHTTP 409 "FloatingIP is already in use by another cluster"))
          else if IsConflict err then
            ret (Err (newErrHTTP 409 "conflict updating floating IP, retry the request"))
          else ret (Err err)
      end
  end.

Definition requestSpecificIP (project : Project) (req : FIPRequest)
    : M (World S) (res (FloatingIP * bool)) :=
  try! found := findPinnedFIP project req else _e =>
    ret (Err (newErrHTTP 500 "failed to list existing floating IPs")) in
  match found with
  | Some existing => claim_pinned project req existing
  | None =>
      try! created := createSpecificIP project req else err => ret (Err err) in
      if created.2 then ret (Ok created) else claim_pinned project req created.1
  end.

(** ** Requesting any address *)

(** A floating IP of the group that is assigned to the cluster. *)
Definition in_group (req : FIPRequest) (fip : FloatingIP) : bool :=
  negb (bool_decide (rq_FloatingIPGroup req = ""))
  && bool_decide (fip_label fip projectNameLabel = rq_Project req)
  && bool_decide (fip_label fip clusterNameLabel = rq_Cluster req)
  && match Assigned (fip_Status fip) with
     | Some a => bool_decide (FloatingIPGroup a = rq_FloatingIPGroup req)
     | None => false
     end.

(** A floating IP of the project that has an address and no assignment. *)
Definition is_candidate (req : FIPRequest) (fip : FloatingIP) : bool :=
  bool_decide (fip_label fip projectNameLabel = rq_Project req)
  && negb (bool_decide (st_IPAddr (fip_Status fip) = ""))
  && negb (is_some (Assigned (fip_Status fip))).

(** The loop over the candidates: one that is claimed or gone meanwhile is
    skipped. *)
Fixpoint claim_candidate (project : Project) (req : FIPRequest) (items : list FloatingIP)
    : M (World S) (res (option FloatingIP)) :=
  match items with
  | [] => ret (Ok None)
  | candidate :: items =>
      if negb (is_candidate req candidate) then claim_candidate project req items
      else
        let! r := updateFloatingIPIf candidate
          (Some (λ f, fipClaimableByRequest f (rq_Cluster req) (rq_FloatingIPGroup req)))
          (claimLabels req project) in
        match r with
        | Ok updated => ret (Ok (Some updated))
        | Err err =>
            if is_claimed err || IsNotFound err then claim_candidate project req items
            else ret (Err (update_error err))
        end
  end.

Definition requestAnyIP (project : Project) (req : FIPRequest) : M (World S) (res (FloatingIP * bool)) :=
  try! items := api (ListFIPs (proj_Namespace project) []) else _e =>
    ret (Err (newErrHTTP 500 "failed to list existing floating IPs")) in
  match find (in_group req) items with
  | Some existing =>
      try! updated := updateFloatingIP existing (claimLabels req project) else err =>
        ret (Err (update_error err)) in
      ret (Ok (updated, false))
  | None =>
      try! claimed := claim_candidate project req items else err => ret (Err err) in
      match claimed with
      | Some fip => ret (Ok (fip, false))
      | None =>
          try! created := api (CreateFIP "fip-" (new_fip project req "" None)) else err =>
            ret (Err (createErrorToHTTP err)) in
          ret (Ok (created, true))
      end
  end.

(** ** Waiting for the address *)

Definition watchReconnectInitialDelay : time := 200 * 10 ^ 6.
Definition watchReconnectMaxDelay : time := 2000 * 10 ^ 6.

Definition nextReconnectDelay (delay : time) : time :=
  if watchReconnectMaxDelay <? delay * 2 then watchReconnectMaxDelay else delay * 2.

Definition isTerminalWatchError (err : error) : bool :=
  IsNotFound err || bool_decide (err_kind err = KForbidden).

Definition allocated (waitForFloatingIPGroup : bool) (fip : FloatingIP) : bool :=
  if bool_decide (st_IPAddr (fip_Status fip) = "") then false
  else if waitForFloatingIPGroup then
    match Assigned (fip_Status fip) with
    | Some a => negb (bool_decide (FloatingIPGroup a = ""))
    | None => false
    end
  else true.

(** The events until the watch or the context ends. *)
Fixpoint consumeWatch (wait : bool) (evs : list WatchEvent) : res (option FloatingIP) :=
  match evs with
  | [] => Ok None
  | WatchError (Some err) :: _ => Err err
  | WatchError None :: _ => Ok None
  | WatchObject None :: evs => consumeWatch wait evs
  | WatchObject (Some fip) :: evs => if allocated wait fip then Ok (Some fip) else consumeWatch wait evs
  end.

(** The loop reconnects until the context ends: [None] is a loop that has made
    [fuel] rounds and goes on. *)
Fixpoint watch_loop (fuel : nat) (ns name : string) (wait : bool) (delay : time)
    : M (World S) (option (res FloatingIP)) :=
  match fuel with
  | O => ret None
  | Datatypes.S fuel =>
      let retry_later (err : error) : M (World S) (option (res FloatingIP)) :=
        if isTerminalWatchError err then ret (Some (Err err))
        else
          try! _u := api (SleepWithContext delay) else ctxErr => ret (Some (Err ctxErr)) in
          watch_loop fuel ns name wait (nextReconnectDelay delay) in
      try! _u := api CtxErr else ctxErr => ret (Some (Err ctxErr)) in
      try! fip := api (GetFIP ns name) else err => retry_later err in
      if allocated wait fip then ret (Some (Ok fip))
      else
      try! evs := api (WatchFIP ns name (ResourceVersion (fip_meta fip))) else err => retry_later err in
      let reconnect : M (World S) (option (res FloatingIP)) :=
        try! _u := api CtxErr else ctxErr => ret (Some (Err ctxErr)) in
        watch_loop fuel ns name wait (nextReconnectDelay delay) in
      match consumeWatch wait evs with
      | Err watchErr => if isTerminalWatchError watchErr then ret (Some (Err watchErr)) else reconnect
      | Ok (Some result) => ret (Some (Ok result))
      | Ok None => reconnect
      end
  end.

Definition WatchFloatingIP (fuel : nat) (currentFip : FloatingIP) : M (World S) (option (res FloatingIP)) :=
  watch_loop fuel (fip_ns currentFip) (fip_name currentFip)
    (negb (bool_decide (fip_label currentFip floatingipGroupLabel = ""))) watchReconnectInitialDelay.

(** ** The request handler *)

(** The floating IP that serves the request, and whether it was created for it. *)
Definition obtain (project : Project) (req : FIPRequest) : M (World S) (res (FloatingIP * bool)) :=
  try! serviceFIP := findServiceFIP project req else _e =>
    ret (Err (newErrHTTP 500 "failed to list existing floating IPs")) in
  match serviceFIP with
  | Some fip => ret (Ok (fip, false))
  | None =>
      if negb (bool_decide (rq_IPAddress req = "")) then requestSpecificIP project req
      else requestAnyIP project req
  end.

(** The reply when the wait failed, after the clean-up. *)
Definition wait_failed (floatingIP : FloatingIP) (createdNew : bool) (err : error)
    : M (World S) (Reply FIPResponse) :=
  if bool_decide (err_kind err = KDeadlineExceeded) || bool_decide (err_kind err = KCanceled) then
    (if createdNew then api (DeleteFIP (fip_ns floatingIP) (fip_name floatingIP)) else ret (Ok tt)) ;;;
    (if bool_decide (err_kind err = KCanceled) then ret NoReply
     else ret (JSONError 504 "timeout waiting for IP allocation"))
  else ret (JSONError 500 "failed to get ip address").

Definition granted (req : FIPRequest) (finalFip : FloatingIP) (fipPool : FloatingIPPool) : FIPResponse :=
  let assigned := Assigned (fip_Status finalFip) in
  mkFIPResponse (rq_ClientSecret req) "approved" (rq_Cluster req) (rq_Project req)
    (rq_FloatingIPPool req) (rq_ServiceNamespace req) (rq_ServiceName req)
    (st_IPAddr (fip_Status finalFip))
    (match ps_IPConfig (pool_Spec fipPool) with Some cfg => Subnet cfg | None => "" end)
    (from_option FloatingIPGroup "" assigned) (from_option SharedKey "" assigned).

Definition serve_request (fuel : nat) (req : FIPRequest) : M (World S) (option (Reply FIPResponse)) :=
  try! project := find_project (rq_Project req) else err => ret (Some (writeHandlerError err)) in
  try! obtained := obtain project req else err => ret (Some (writeHandlerError err)) in
  let! r := WatchFloatingIP fuel obtained.1 in
  match r with
  | None => ret None
  | Some (Err err) => let! reply := wait_failed obtained.1 obtained.2 err in ret (Some reply)
  | Some (Ok finalFip) =>
      try! fipPool := api (GetPool (rq_FloatingIPPool req)) else _e =>
        ret (Some (JSONError 500 "failed to get floatingippool subnet")) in
      ret (Some (JSONOk (granted req finalFip fipPool)))
  end.

Definition FIPRequestHandler (fuel : nat) (body : res FIPRequest) : M (World S) (option (Reply FIPResponse)) :=
  match body with
  | Err _ => ret (Some (JSONError 400 "Invalid request body"))
  | Ok req => serve_request fuel req
  end.

(** ** The release handler *)

(** The filters of the search, before the service is looked for. *)
Definition may_release (req : FIPReleaseRequest) (fip : FloatingIP) : bool :=
  (bool_decide (rl_IPAddress req = "") || bool_decide (st_IPAddr (fip_Status fip) = rl_IPAddress req))
  && (bool_decide (rl_FloatingIPGroup req = "")
      || bool_decide (fip_label fip floatingipGroupLabel = rl_FloatingIPGroup req)).

(** The label of the service among the labels of a floating IP: the first one
    the loop meets. *)
Definition service_label (req : FIPReleaseRequest) (labels : gmap string string) : option (string * string) :=
  find (registers labels (rl_ServiceName req) (rl_ServiceNamespace req)) (range labels).

Definition to_release (req : FIPReleaseRequest) (fip : FloatingIP) : bool :=
  may_release req fip && is_some (service_label req (labels_of fip)).

Definition has_services (labels : gmap string string) : bool :=
  existsb (λ label, is_service_key label.1) (range labels).

Definition release_labels (req : FIPReleaseRequest) (labels : gmap string string) : gmap string string :=
  let labels :=
    match service_label req labels with
    | Some (labelKey, _) => delete (ns_label (service_id labelKey)) (delete labelKey labels)
    | None => labels
    end in
  let labels :=
    if negb (bool_decide (default "" (labels !! floatingipGroupLabel) = "")) && negb (has_services labels)
    then delete floatingipGroupLabel labels else labels in
  if negb (has_services labels) then delete clusterNameLabel labels else labels.

(** The mutation: a nil map has nothing to delete. *)
Definition releaseMutate (req : FIPReleaseRequest) (fip : FloatingIP) : FloatingIP :=
  set_fip_meta fip (set_Labels (fip_meta fip) (release_labels req <$> Labels (fip_meta fip))).

Definition serve_release (req : FIPReleaseRequest) : M (World S) (Reply StatusResponse) :=
  try! project := find_project (rl_Project req) else err => ret (writeHandlerError err) in
  try! items := api (ListFIPs (proj_Namespace project)
    [(projectNameLabel, rl_Project req); (clusterNameLabel, rl_Cluster req)])
  else err => ret (JSONError 500 (err_msg err)) in
  match find (to_release req) items with
  | None => ret (JSONError 404 "no floatingip found to release")
  | Some fipToUpdate =>
      try! _f := updateFloatingIP fipToUpdate (releaseMutate req) else err =>
        ret (writeHandlerError (update_error err)) in
      ret (JSONOk (mkStatusResponse "released" "Floating IP released successfully"))
  end.

Definition FIPReleaseHandler (body : res FIPReleaseRequest) : M (World S) (Reply StatusResponse) :=
  match body with
  | Err _ => ret (JSONError 400 "Invalid request body")
  | Ok req => serve_release req
  end.

(** ** The list handler *)

Definition service_ids (labels : gmap string string) : gmap string bool :=
  foldl (λ ids label, if is_service_key label.1 then <[service_id' label.1 := true]> ids else ids)
    ∅ (range labels).

Definition list_entry (item : FloatingIP) (ip serviceID : string) : FIPListEntry :=
  mkFIPListEntry (fip_label item projectNameLabel) (fip_label item clusterNameLabel) (fip_pool item)
    (fip_label item (ns_label serviceID)) (fip_label item (name_label serviceID)) ip
    (fip_label item floatingipGroupLabel).

(** The entries of a floating IP, one for each service. *)
Definition list_item (req : FIPListRequest) (item : FloatingIP) : list FIPListEntry :=
  if bool_decide (fip_pool item = ls_FloatingIPPool req) then
    match IPAddr (fip_Spec item) with
    | Some ip =>
        if bool_decide (fip_label item clusterNameLabel = ls_Cluster req)
           || negb (is_some (Assigned (fip_Status item)))
        then (λ id, list_entry item ip id.1) <$> range (service_ids (labels_of item))
        else []
    | None => []
    end
  else [].

Definition serve_list (req : FIPListRequest) : M (World S) (Reply FIPListResponse) :=
  try! project := find_project (ls_Project req) else err => ret (writeHandlerError err) in
  try! items := api (ListFIPs (proj_Namespace project) [(projectNameLabel, ls_Project req)]) else _e =>
    ret (JSONError 500 "failed to list floating IPs") in
  ret (JSONOk (mkFIPListResponse (ls_ClientSecret req) (ls_Cluster req) (ls_Project req)
    (concat (list_item req <$> items)))).

Definition FIPListHandler (body : res FIPListRequest) : M (World S) (Reply FIPListResponse) :=
  match body with
  | Err _ => ret (JSONError 400 "Invalid request body")
  | Ok req => serve_list req
  end.

(** ** The delete handler *)

Definition serve_delete (req : FIPDeleteRequest) : M (World S) (Reply StatusResponse) :=
  try! project := find_project (dl_Project req) else err => ret (writeHandlerError err) in
  try! items := api (ListFIPs (proj_Namespace project) []) else err =>
    ret (JSONError 500 (err_msg err)) in
  match find (λ fip, bool_decide (IPAddr (fip_Spec fip) = Some (dl_IPAddress req))) items with
  | None => ret (JSONError 404 "no floatingip found to delete")
  | Some fipToDelete =>
      try! _u := api (DeleteFIP (fip_ns fipToDelete) (fip_name fipToDelete)) else err =>
        ret (JSONError 500 (err_msg err)) in
      ret (JSONOk (mkStatusResponse "deleted" "Floating IP deleted successfully"))
  end.

Definition FIPDeleteHandler (body : res FIPDeleteRequest) : M (World S) (Reply StatusResponse) :=
  match body with
  | Err _ => ret (JSONError 400 "Invalid request body")
  | Ok req => serve_delete req
  end.

(** ** Authorisation, [apiserver/internal/auth/auth.go] *)

Definition ValidateClientRequest (projectRequest clientSecretRequest : string) : M (World S) bool :=
  try! project := find_project projectRequest else _e => ret false in
  try! data := api (GetSecret (proj_Namespace project) ("rancher-fip-config-" +:+ proj_Name project))
  else _e => ret false in
  match data !! "project" with
  | None => ret false
  | Some projectID =>
      if negb (bool_decide (projectID = proj_Name project)) then ret false
      else match data !! "clientSecret" with
      | None => ret false
      | Some clientSecret => ret (bool_decide (clientSecret = clientSecretRequest))
      end
  end.
End ApiServer.
