(* ===== verification/ApiServerCorrect.v ===== *)
(** The API server's handlers: a request registers its service among the labels
    that the floating IP controller reads back, a release takes exactly that
    service off again; a claim is only written onto an object that was just read
    and found free; a clean-up deletes only what the request created. *)

From S2P Require Import Prelude GoStd NetIP NetIPFacts Ipam IpamSpec IpamCorrect ApiTypes Kube ServiceLabels FipController ApiServer.

(** ** Service labels *)

(** Every service label is the name or the namespace of an index, and an index
    that has one has both. *)
Record service_labels_ok (m : gmap string string) : Prop := mkServiceLabelsOk {
  labels_canonical : canonical_labels m;
  labels_paired : ∀ i, is_Some (m !! ns_key i) ↔ is_Some (m !! name_key i)
}.

(** Two strings that end in as many characters end in the same ones. *)
Lemma str_suffix_inj s t u v : String.length u = String.length v → s +:+ u = t +:+ v → u = v.
Proof.
  revert t. induction s as [|c s IH]; intros t Hl He.
  - destruct t as [|d t]; [done|]. rewrite str_app_nil_l in He. subst u.
    rewrite str_app_cons in Hl. cbn [String.length] in Hl. rewrite str_length_app in Hl. lia.
  - destruct t as [|d t].
    + rewrite str_app_nil_l in He. subst v. rewrite str_app_cons in Hl. cbn [String.length] in Hl.
      rewrite str_length_app in Hl. lia.
    + rewrite !str_app_cons in He. simplify_eq. by eapply IH.
Qed.

Lemma name_key_label i : name_key i = name_label (itoa i).
Proof. done. Qed.
Lemma ns_key_label i : ns_key i = ns_label (itoa i).
Proof. done. Qed.

Lemma is_service_key_name id : is_service_key (name_label id) = true.
Proof.
  unfold is_service_key, name_label. rewrite HasPrefix_app, str_app_assoc, HasSuffix_app. done.
Qed.

Lemma is_service_key_ns id : is_service_key (ns_label id) = false.
Proof.
  unfold is_service_key, ns_label. apply andb_false_iff. right. apply not_true_iff_false.
  intros [t Ht]%HasSuffix_true.
  assert (("space" : string) = "-name") as Hbad; [|discriminate Hbad].
  apply (str_suffix_inj (serviceIndexLabelPrefix +:+ id +:+ "-name") t); [done|].
  rewrite <- Ht, <- !str_app_assoc. done.
Qed.

Lemma service_id_name id : service_id (name_label id) = id.
Proof. unfold service_id, name_label. by rewrite str_app_assoc, TrimSuffix_app, TrimPrefix_app. Qed.

Lemma service_id'_name id : service_id' (name_label id) = id.
Proof. unfold service_id', name_label. by rewrite TrimPrefix_app, TrimSuffix_app. Qed.

Lemma service_key_prefix k : is_service_key k = true → HasPrefix k serviceIndexLabelPrefix = true.
Proof. unfold is_service_key. by intros [? _]%andb_true_iff. Qed.

(** A label of another kind. *)
Lemma other_label k id : HasPrefix k serviceIndexLabelPrefix = false → k ≠ name_label id ∧ k ≠ ns_label id.
Proof. intros Hk. split; intros ->; unfold name_label, ns_label in Hk; by rewrite HasPrefix_app in Hk. Qed.

Lemma service_key_index m k :
  canonical_labels m → is_Some (m !! k) → is_service_key k = true →
  ∃ i, 0 <= i < two63 ∧ k = name_key i.
Proof.
  intros Hcan Hk Hs. destruct (Hcan k Hk (service_key_prefix _ Hs)) as (i & Hi & [-> | ->]); [|by exists i].
  by rewrite ns_key_label, is_service_key_ns in Hs.
Qed.

Section Labels.
Context `{HRange : MapRange}.

Lemma registers_true labels name ns k v :
  registers labels name ns (k, v) = true ↔
  is_service_key k = true ∧ v = name ∧ labels !! ns_label (service_id k) = Some ns.
Proof. unfold registers. simpl. rewrite !andb_true_iff, !bool_decide_eq_true. tauto. Qed.

Lemma serviceAlreadyExists_true labels name ns :
  serviceAlreadyExists labels name ns = true ↔
  ∃ k, labels !! k = Some name ∧ is_service_key k = true ∧ labels !! ns_label (service_id k) = Some ns.
Proof.
  unfold serviceAlreadyExists. rewrite existsb_exists. split.
  - intros ([k v] & Hin & Hr). apply list_elem_of_In, elem_of_range in Hin.
    apply registers_true in Hr as (Hk & -> & Hn). eauto.
  - intros (k & Hk & Hs & Hn). exists (k, name). split; [by apply list_elem_of_In, elem_of_range|].
    by apply registers_true.
Qed.

(** The maximum that the loop of [getNextServiceID] finds. *)
Lemma max_service_id_spec (l : list (string * string)) : ∀ m0,
  let m := foldl max_service_id m0 l in
  m0 <= m ∧
  (∀ k v i, (k, v) ∈ l → is_service_key k = true → atoi (service_id' k) = Some i → i <= m) ∧
  (m = m0 ∨ ∃ k v, (k, v) ∈ l ∧ is_service_key k = true ∧ atoi (service_id' k) = Some m).
Proof.
  induction l as [|[k v] l IH]; intros m0; cbn [foldl].
  { split_and!; [done | by intros ? ? ? ?%not_elem_of_nil | by left]. }
  destruct (IH (max_service_id m0 (k, v))) as (H1 & H2 & H3).
  assert (m0 <= max_service_id m0 (k, v)
    ∧ (is_service_key k = true → ∀ i, atoi (service_id' k) = Some i → i <= max_service_id m0 (k, v))
    ∧ (max_service_id m0 (k, v) = m0
       ∨ is_service_key k = true ∧ atoi (service_id' k) = Some (max_service_id m0 (k, v)))) as (G1 & G2 & G3).
  { unfold max_service_id. simpl. destruct (is_service_key k); [|by split_and!; [lia | | left]].
    destruct (atoi _) as [i|]; [|by split_and!; [lia | | left]].
    destruct (Z.ltb_spec m0 i); (split_and!; [lia | intros; simplify_eq; lia | auto]). }
  split_and!; [lia | |].
  - intros k' v' i [?|Hin]%elem_of_cons Hs Ha; [|by eapply H2]. simplify_eq. specialize (G2 Hs i Ha). lia.
  - destruct H3 as [-> | (k' & v' & Hin & ?)]; [|right; exists k', v'; split; [by right | done]].
    destruct G3 as [-> | ?]; [by left | right]. exists k, v. split; [by left | done].
Qed.

(** The next service ID is an index above every one in use. *)
Lemma getNextServiceID_fresh m :
  canonical_labels m → (∀ i, is_Some (m !! name_key i) → i < two63 - 1) →
  ∃ n, getNextServiceID m = itoa n ∧ 0 <= n < two63 ∧ ∀ i, 0 <= i → is_Some (m !! name_key i) → i < n.
Proof.
  intros Hcan Hsmall. unfold getNextServiceID.
  destruct (max_service_id_spec (range m) (-1)) as (H1 & H2 & H3).
  set (mx := foldl _ _ _) in *. clearbody mx.
  assert (∀ i, 0 <= i → is_Some (m !! name_key i) → i <= mx) as Hmax.
  { intros i Hi [v Hv]. pose proof (Hsmall i (mk_is_Some _ _ Hv)).
    eapply H2; [by apply elem_of_range | apply is_service_key_name |].
    rewrite name_key_label, service_id'_name, atoi_itoa; [done | unfold two63 in *; lia]. }
  destruct (Z.leb_spec 0 mx).
  - destruct H3 as [?|(k & v & Hin & Hs & Ha)]; [lia|]. apply elem_of_range in Hin.
    destruct (service_key_index m k Hcan (mk_is_Some _ _ Hin) Hs) as (i & Hi & ->).
    rewrite name_key_label, service_id'_name, atoi_itoa in Ha by (unfold two63 in *; lia). simplify_eq.
    pose proof (Hsmall mx (mk_is_Some _ _ Hin)). rewrite wrap64_small by (unfold two63 in *; lia).
    exists (mx + 1). split; [done|]. split; [lia|]. intros i Hi' Hs'. specialize (Hmax i Hi' Hs'). lia.
  - exists 0. split; [done|]. split; [unfold two63; lia|]. intros i Hi Hs. specialize (Hmax i Hi Hs). lia.
Qed.

(** ** The services a set of labels stands for *)

Lemma sorted_lt_unique (l1 l2 : list Z) :
  StronglySorted Z.lt l1 → StronglySorted Z.lt l2 → (∀ i, i ∈ l1 ↔ i ∈ l2) → l1 = l2.
Proof.
  intros H1 H2 He.
  assert (∀ l, StronglySorted Z.lt l → NoDup l ∧ StronglySorted Z.le l) as Hs.
  { induction 1 as [|x l Hl [IH1 IH2] Hx]; [split; constructor|]. rewrite Forall_forall in Hx. split.
    - constructor; [|done]. intros Hin. specialize (Hx _ Hin). lia.
    - constructor; [done|]. apply Forall_forall. intros y Hy. specialize (Hx _ Hy). lia. }
  apply (StronglySorted_unique Z.le); [by apply Hs.. |]. by apply NoDup_Permutation; [apply Hs..|].
Qed.

Definition has_index (m : gmap string string) (i : Z) : Prop :=
  0 <= i < two63 ∧ (is_Some (m !! ns_key i) ∨ is_Some (m !! name_key i)).

Lemma parse_of_indices m idxs :
  canonical_labels m → StronglySorted Z.lt idxs → (∀ i, i ∈ idxs ↔ has_index m i) →
  parseServicesFromLabels (Some m) = filter (λ svc, nonempty_service svc = true) (service_at m <$> idxs).
Proof.
  intros Hcan Hs Hi. destruct (parse_indices m Hcan) as (idxs' & Hs' & Hi' & ->).
  rewrite (sorted_lt_unique idxs' idxs); [done.. |]. intros i. by rewrite Hi, Hi'.
Qed.

(** Labels that agree on the service keys. *)
Record same_services (m m' : gmap string string) : Prop := mkSame {
  same_service_keys : ∀ k, HasPrefix k serviceIndexLabelPrefix = true → m' !! k = m !! k
}.

Lemma same_keys m m' i : same_services m m' → m' !! ns_key i = m !! ns_key i ∧ m' !! name_key i = m !! name_key i.
Proof. intros [Hs]. split; apply Hs, HasPrefix_app. Qed.

Lemma same_services_ok m m' : same_services m m' → service_labels_ok m → service_labels_ok m'.
Proof.
  intros Hs [Hcan Hp]. split.
  - intros k Hk Hpre. rewrite (same_service_keys _ _ Hs k Hpre) in Hk. by apply Hcan.
  - intros i. destruct (same_keys _ _ i Hs) as [-> ->]. apply Hp.
Qed.

Lemma same_services_parse m m' :
  canonical_labels m → same_services m m' →
  parseServicesFromLabels (Some m') = parseServicesFromLabels (Some m).
Proof.
  intros Hcan Hs. destruct (parse_indices m Hcan) as (idxs & Hsort & Hi & ->).
  rewrite (parse_of_indices m' idxs).
  - f_equal. apply list_fmap_ext. intros ? i _. unfold service_at. by destruct (same_keys _ _ i Hs) as [-> ->].
  - intros k Hk Hpre. rewrite (same_service_keys _ _ Hs k Hpre) in Hk. by apply Hcan.
  - done.
  - intros i. rewrite Hi. unfold has_index. by destruct (same_keys _ _ i Hs) as [-> ->].
Qed.

Lemma same_services_insert m k v : HasPrefix k serviceIndexLabelPrefix = false → same_services m (<[k := v]> m).
Proof. intros Hk. split. intros k' Hk'. apply lookup_insert_ne. congruence. Qed.

Lemma same_services_delete m k : HasPrefix k serviceIndexLabelPrefix = false → same_services m (delete k m).
Proof. intros Hk. split. intros k' Hk'. apply lookup_delete_ne. congruence. Qed.

Lemma same_services_trans m1 m2 m3 : same_services m1 m2 → same_services m2 m3 → same_services m1 m3.
Proof. intros [H1] [H2]. split. intros k Hk. by rewrite H2, H1. Qed.

(** An index, its two labels and its service. *)
Lemma registered_iff m name ns :
  service_labels_ok m → nonempty_service (mkSvc ns name) = true →
  serviceAlreadyExists m name ns = true ↔ mkSvc ns name ∈ parseServicesFromLabels (Some m).
Proof.
  intros [Hcan Hp] Hne. rewrite serviceAlreadyExists_true.
  destruct (parse_indices m Hcan) as (idxs & _ & Hi & ->). rewrite list_elem_of_filter. split.
  - intros (k & Hk & Hs & Hn). split; [done|].
    destruct (service_key_index m k Hcan (mk_is_Some _ _ Hk) Hs) as (i & Hr & ->).
    rewrite name_key_label, service_id_name in Hn. apply list_elem_of_fmap. exists i. split.
    + unfold service_at. by rewrite ns_key_label, Hn, Hk.
    + apply Hi. split; [done|]. right. by rewrite Hk.
  - intros [_ (i & He & [Hr Hin]%Hi)%list_elem_of_fmap]. unfold service_at in He. exists (name_key i).
    rewrite name_key_label, is_service_key_name, service_id_name, <- name_key_label, <- ns_key_label.
    specialize (Hp i).
    assert (is_Some (m !! ns_key i) ∧ is_Some (m !! name_key i)) as [[a Ha] [b Hb]] by tauto.
    rewrite Ha, Hb in He |- *. by simplify_eq/=.
Qed.

(** ** Adding a service *)

Definition add_service (m : gmap string string) (n : Z) (name ns : string) : gmap string string :=
  <[ns_key n := ns]> (<[name_key n := name]> m).

Lemma add_service_at m n name ns i :
  0 <= n → 0 <= i →
  add_service m n name ns !! ns_key i = (if decide (i = n) then Some ns else m !! ns_key i) ∧
  add_service m n name ns !! name_key i = (if decide (i = n) then Some name else m !! name_key i).
Proof.
  intros Hn Hi. unfold add_service. pose proof (ns_name_key i n Hi Hn) as H1.
  pose proof (ns_name_key n i Hn Hi) as H2. split; case_decide as He.
  - by rewrite He, lookup_insert_eq.
  - rewrite !lookup_insert_ne; [done | congruence | intros ?%ns_key_inj; congruence].
  - rewrite lookup_insert_ne by done. by rewrite He, lookup_insert_eq.
  - rewrite !lookup_insert_ne; [done | intros ?%name_key_inj; congruence | done].
Qed.

Lemma add_service_canonical m n name ns :
  0 <= n < two63 → canonical_labels m → canonical_labels (add_service m n name ns).
Proof.
  intros Hn Hcan k Hk Hp. unfold add_service in Hk. rewrite !lookup_insert_is_Some in Hk.
  destruct Hk as [<-|[_ [<-|[_ Hk]]]]; [by exists n; split; [|left] | by exists n; split; [|right] | by apply Hcan].
Qed.

Lemma ns_name_neq i j : ns_key i ≠ name_key j.
Proof. intros He. pose proof (is_service_key_name (itoa j)) as Hn. by rewrite <- name_key_label, <- He, ns_key_label, is_service_key_ns in Hn. Qed.

Lemma add_service_ok m n name ns :
  0 <= n < two63 → service_labels_ok m → service_labels_ok (add_service m n name ns).
Proof.
  intros Hn Hok. split; [by apply add_service_canonical, Hok|]. intros i. unfold add_service.
  rewrite !lookup_insert_is_Some. destruct (decide (i = n)) as [->|Hne].
  { split; intros _; [right; split; [apply ns_name_neq | by left] | by left]. }
  assert (ns_key n ≠ ns_key i ∧ name_key n ≠ name_key i) as [Hn1 Hn2]
    by (split; [intros ?%ns_key_inj | intros ?%name_key_inj]; congruence).
  pose proof (ns_name_neq i n). pose proof (ns_name_neq n i). pose proof (labels_paired _ Hok i).
  split; intros [?|[_ [?|[_ ?]]]]; try congruence; right; (split; [done|]); right; (split; [congruence|]); tauto.
Qed.

Lemma add_service_parse m n name ns :
  service_labels_ok m → 0 <= n < two63 → (∀ i, 0 <= i → is_Some (m !! name_key i) → i < n) →
  nonempty_service (mkSvc ns name) = true →
  parseServicesFromLabels (Some (add_service m n name ns))
    = parseServicesFromLabels (Some m) ++ [mkSvc ns name].
Proof.
  intros [Hcan Hp] Hn Hfresh Hne. destruct (parse_indices m Hcan) as (idxs & Hs & Hi & ->).
  assert (∀ i, i ∈ idxs → i < n) as Hlt.
  { intros i [Hr Hk]%Hi. apply Hfresh; [lia|]. specialize (Hp i). tauto. }
  rewrite (parse_of_indices _ (idxs ++ [n])).
  - rewrite fmap_app, filter_app. f_equal.
    + f_equal. apply list_fmap_ext. intros k i Hk. apply list_elem_of_lookup_2 in Hk.
      pose proof (Hlt i Hk). apply Hi in Hk as [Hr _]. unfold service_at.
      destruct (add_service_at m n name ns i) as [-> ->]; [lia..|]. by rewrite !decide_False by lia.
    + simpl. unfold service_at. destruct (add_service_at m n name ns n) as [-> ->]; [lia..|].
      rewrite !decide_True by done. simpl. by rewrite filter_cons, decide_True.
  - by apply add_service_canonical.
  - clear -Hs Hlt. induction Hs as [|x l Hs IH Hx]; simpl; [repeat constructor|]. constructor.
    + apply IH. intros i Hin. apply Hlt. by right.
    + apply Forall_app. split; [done|]. constructor; [|done]. apply Hlt. by left.
  - intros i. rewrite elem_of_app, Hi, list_elem_of_singleton. unfold has_index. split.
    + intros [[Hr Hk]| ->].
      * split; [done|]. destruct (add_service_at m n name ns i) as [-> ->]; [lia..|].
        case_decide; [left; by eexists | exact Hk].
      * split; [done|]. left. destruct (add_service_at m n name ns n) as [-> _]; [lia..|].
        rewrite decide_True by done. by eexists.
    + intros [Hr Hk]. destruct (decide (i = n)); [by right | left]. split; [done|].
      destruct (add_service_at m n name ns i) as [Ha Hb]; [lia..|]. rewrite Ha, Hb, !decide_False in Hk by done. done.
Qed.

(** a request writes its service among the labels of a floating IP so that
    the controller, parsing them, sees the services that were there, in their
    order, and the requested one after them unless it was there already; the
    project and the cluster are recorded, no label of another kind changes, and
    the labels stay in the form that the next request relies on. *)
Theorem request_registers_service m project cluster name ns group :
  service_labels_ok m → (∀ i, is_Some (m !! name_key i) → i < two63 - 1) →
  nonempty_service (mkSvc ns name) = true →
  let m' := (request_labels m project cluster name ns group).1 in
  service_labels_ok m' ∧
  parseServicesFromLabels (Some m') = parseServicesFromLabels (Some m) ++
    (if bool_decide (mkSvc ns name ∈ parseServicesFromLabels (Some m)) then [] else [mkSvc ns name]) ∧
  m' !! projectNameLabel = Some project ∧ m' !! clusterNameLabel = Some cluster ∧
  (∀ k, HasPrefix k serviceIndexLabelPrefix = false → k ∉ [projectNameLabel; clusterNameLabel; floatingipGroupLabel] →
     m' !! k = m !! k).
Proof.
  intros Hok Hsmall Hne. unfold request_labels.
  set (m1 := <[clusterNameLabel := cluster]> (<[projectNameLabel := project]> m)).
  assert (same_services m m1) as Hs1.
  { eapply same_services_trans; apply same_services_insert; reflexivity. }
  pose proof (same_services_ok _ _ Hs1 Hok) as Hok1.
  assert (∀ i, is_Some (m1 !! name_key i) → i < two63 - 1) as Hsmall1
    by (intros i; destruct (same_keys _ _ i Hs1) as [_ ->]; apply Hsmall).
  rewrite <- (same_services_parse m m1 (labels_canonical _ Hok) Hs1).
  set (r := if serviceAlreadyExists m1 name ns then _ else _).
  assert (∃ m2, r.1 = m2 ∧ service_labels_ok m2 ∧
    parseServicesFromLabels (Some m2) = parseServicesFromLabels (Some m1) ++
      (if bool_decide (mkSvc ns name ∈ parseServicesFromLabels (Some m1)) then [] else [mkSvc ns name]) ∧
    ∀ k, HasPrefix k serviceIndexLabelPrefix = false → m2 !! k = m1 !! k) as (m2 & Hm2 & Hok2 & Hp2 & Hk2).
  { subst r. pose proof (registered_iff m1 name ns Hok1 Hne) as Hreg. destruct (serviceAlreadyExists m1 name ns).
    - exists m1. rewrite bool_decide_true by (by apply Hreg). by rewrite app_nil_r.
    - rewrite bool_decide_false by (intros Hin; by apply Hreg in Hin).
      destruct (getNextServiceID_fresh m1 (labels_canonical _ Hok1) Hsmall1) as (n & -> & Hn & Hf).
      exists (add_service m1 n name ns). split; [done|]. split; [by apply add_service_ok|].
      split; [by apply add_service_parse|]. intros k Hk. destruct (other_label k (itoa n) Hk).
      unfold add_service. rewrite name_key_label, ns_key_label. by rewrite !lookup_insert_ne. }
  destruct r as [m2' b]. simpl in Hm2. subst m2'. cbn [fst].
  set (m3 := if bool_decide (group = "") then _ else _).
  assert (same_services m2 m3 ∧ ∀ k, k ≠ floatingipGroupLabel → m3 !! k = m2 !! k) as [Hs3 Hk3].
  { subst m3. destruct (bool_decide (group = "")).
    - split; [by constructor | done].
    - split; [by apply same_services_insert|]. intros k Hk. by rewrite lookup_insert_ne. }
  split_and!.
  - by eapply same_services_ok.
  - rewrite (same_services_parse m2 m3); [done | apply Hok2 | done].
  - rewrite Hk3, Hk2 by done. unfold m1. by rewrite lookup_insert_ne, lookup_insert_eq.
  - rewrite Hk3, Hk2 by done. unfold m1. by rewrite lookup_insert_eq.
  - intros k Hk Hni. rewrite Hk3, Hk2 by set_solver. unfold m1. rewrite !lookup_insert_ne by set_solver. done.
Qed.

(** ** Removing a service *)

Definition remove_service (m : gmap string string) (n : Z) : gmap string string :=
  delete (ns_key n) (delete (name_key n) m).

Lemma remove_service_at m n i :
  remove_service m n !! ns_key i = (if decide (i = n) then None else m !! ns_key i) ∧
  remove_service m n !! name_key i = (if decide (i = n) then None else m !! name_key i).
Proof.
  unfold remove_service. pose proof (ns_name_neq i n). pose proof (ns_name_neq n i).
  split; case_decide as He.
  - by rewrite He, lookup_delete_eq.
  - rewrite !lookup_delete_ne; [done | congruence | intros ?%ns_key_inj; congruence].
  - rewrite lookup_delete_ne by done. by rewrite He, lookup_delete_eq.
  - rewrite !lookup_delete_ne; [done | intros ?%name_key_inj; congruence | done].
Qed.

Lemma remove_service_ok m n : service_labels_ok m → service_labels_ok (remove_service m n).
Proof.
  intros [Hcan Hp]. split.
  - intros k Hk. apply Hcan. unfold remove_service in Hk. rewrite !lookup_delete_is_Some in Hk. tauto.
  - intros i. destruct (remove_service_at m n i) as [-> ->]. case_decide; [split; intros [? ?]; done | apply Hp].
Qed.

Lemma remove_service_parse m n :
  service_labels_ok m → has_index m n → nonempty_service (service_at m n) = true →
  ∃ l1 l2, parseServicesFromLabels (Some m) = l1 ++ service_at m n :: l2 ∧
           parseServicesFromLabels (Some (remove_service m n)) = l1 ++ l2.
Proof.
  intros Hok Hn Hne. destruct (parse_indices m (labels_canonical _ Hok)) as (idxs & Hs & Hi & Hparse).
  assert (n ∈ idxs) as Hin by by apply Hi.
  apply list_elem_of_split in Hin as (is1 & is2 & ->).
  assert (∀ i, i ∈ is1 ++ is2 → i ≠ n) as Hneq.
  { intros i Hin ->. assert (NoDup (is1 ++ n :: is2)) as Hnd.
    { clear -Hs. induction Hs as [|x l Hs IH Hx]; constructor; [|done]. intros Hin.
      rewrite Forall_forall in Hx. specialize (Hx _ Hin). lia. }
    apply NoDup_app in Hnd as (_ & Hd & [Hni _]%NoDup_cons). apply elem_of_app in Hin as [Hin|Hin]; [|done].
    apply (Hd n Hin). by left. }
  assert (∀ l : list Z, (∀ i, i ∈ l → i ≠ n) → service_at (remove_service m n) <$> l = service_at m <$> l) as Hsame.
  { intros l Hl. apply list_fmap_ext. intros k i Hk%list_elem_of_lookup_2. unfold service_at.
    destruct (remove_service_at m n i) as [-> ->]. by rewrite !decide_False by auto. }
  exists (filter (λ svc, nonempty_service svc = true) (service_at m <$> is1)),
    (filter (λ svc, nonempty_service svc = true) (service_at m <$> is2)). split.
  - rewrite Hparse, fmap_app, filter_app. f_equal. cbn [fmap list_fmap]. by rewrite filter_cons, decide_True.
  - rewrite (parse_of_indices _ (is1 ++ is2)).
    + by rewrite Hsame, fmap_app, filter_app.
    + apply (remove_service_ok m n Hok).
    + clear -Hs. induction is1 as [|x is1 IH]; simpl in *; [by inversion Hs|]. inversion Hs as [|? ? Hs' Hx]; subst.
      constructor; [by apply IH|]. apply Forall_app in Hx as [Hx1 Hx2]. apply Forall_app. split; [done|].
      by inversion Hx2.
    + intros i. unfold has_index. destruct (remove_service_at m n i) as [-> ->]. split.
      * intros Hin. rewrite !decide_False by auto. apply Hi. set_solver.
      * intros [Hr Hk]. case_decide as Hd; [by destruct Hk as [[]|[]]|]. assert (i ∈ is1 ++ n :: is2) as Hin by by apply Hi.
        set_solver.
Qed.

Lemma same_has_services m m' : same_services m m' → has_services m' = has_services m.
Proof.
  intros [Hs]. apply eq_true_iff_eq. unfold has_services. rewrite !existsb_exists.
  split; intros ([k v] & Hin & Hk); exists (k, v); (split; [|done]);
    apply list_elem_of_In, elem_of_range; apply list_elem_of_In, elem_of_range in Hin; simpl in Hk;
    pose proof (Hs k (service_key_prefix _ Hk)); congruence.
Qed.

Lemma find_true {A} (f : A → bool) l x : find f l = Some x → x ∈ l ∧ f x = true.
Proof. intros [Hin Hf]%find_some. split; [by apply list_elem_of_In | done]. Qed.

(** releasing a service takes exactly one registration of that service off
    the labels of a floating IP and leaves the other services, in their order;
    the cluster and the group stay while a service is registered and go with
    the last one; no other label changes, and the labels stay in the form that
    the next request relies on. *)
Theorem release_unregisters_service req m :
  service_labels_ok m →
  let svc := mkSvc (rl_ServiceNamespace req) (rl_ServiceName req) in
  nonempty_service svc = true → svc ∈ parseServicesFromLabels (Some m) →
  let m' := release_labels req m in
  service_labels_ok m' ∧
  (∃ l1 l2, parseServicesFromLabels (Some m) = l1 ++ svc :: l2 ∧ parseServicesFromLabels (Some m') = l1 ++ l2) ∧
  m' !! clusterNameLabel = (if has_services m' then m !! clusterNameLabel else None) ∧
  default "" (m' !! floatingipGroupLabel) =
    (if has_services m' then default "" (m !! floatingipGroupLabel) else "") ∧
  (∀ k, HasPrefix k serviceIndexLabelPrefix = false → k ∉ [clusterNameLabel; floatingipGroupLabel] →
     m' !! k = m !! k).
Proof.
  intros Hok svc Hne Hin. apply registered_iff in Hin; [|done..].
  apply serviceAlreadyExists_true in Hin as (k0 & Hk0 & Hsk0 & Hns0).
  destruct (service_label req m) as [[k v]|] eqn:Hlab.
  2:{ pose proof (find_none _ _ Hlab (k0, rl_ServiceName req)
        (proj1 (list_elem_of_In _ _) (proj2 (elem_of_range _ _ _) Hk0))) as Hno.
      by rewrite (proj2 (registers_true _ _ _ _ _) (conj Hsk0 (conj eq_refl Hns0))) in Hno. }
  apply find_true in Hlab as Hl. destruct Hl as [Hkv%elem_of_range (Hsk & -> & Hns)%registers_true].
  destruct (service_key_index m k (labels_canonical _ Hok) (mk_is_Some _ _ Hkv) Hsk) as (n & Hn & ->).
  rewrite name_key_label, service_id_name, <- ns_key_label in Hns.
  assert (service_at m n = svc) as Hat by (unfold service_at; by rewrite Hns, Hkv).
  unfold release_labels. rewrite Hlab, name_key_label, service_id_name, <- name_key_label, <- ns_key_label.
  fold (remove_service m n). set (m1 := remove_service m n).
  assert (∀ k, HasPrefix k serviceIndexLabelPrefix = false → m1 !! k = m !! k) as Hother.
  { intros k Hk. destruct (other_label k (itoa n) Hk). unfold m1, remove_service.
    rewrite name_key_label, ns_key_label. by rewrite !lookup_delete_ne. }
  set (m2 := if _ && _ then delete floatingipGroupLabel m1 else m1).
  set (m3 := if negb (has_services m2) then delete clusterNameLabel m2 else m2).
  assert (same_services m1 m2 ∧ ∀ k, k ≠ floatingipGroupLabel → m2 !! k = m1 !! k) as [Hs2 Hk2].
  { subst m2. case_match.
    - split; [by apply same_services_delete|]. intros k Hk. by rewrite lookup_delete_ne.
    - split; [by constructor | done]. }
  assert (same_services m2 m3 ∧ ∀ k, k ≠ clusterNameLabel → m3 !! k = m2 !! k) as [Hs3 Hk3].
  { subst m3. case_match.
    - split; [by apply same_services_delete|]. intros k Hk. by rewrite lookup_delete_ne.
    - split; [by constructor | done]. }
  pose proof (same_services_trans _ _ _ Hs2 Hs3) as Hs13.
  pose proof (remove_service_ok m n Hok) as Hok1.
  split_and!.
  - by eapply same_services_ok.
  - rewrite (same_services_parse m1 m3) by (done || apply Hok1). rewrite <- Hat.
    apply remove_service_parse; [done | | by rewrite Hat]. split; [done|]. left. by rewrite Hns.
  - rewrite (same_has_services m2 m3 Hs3). subst m3. destruct (has_services m2) eqn:Hh; cbn [negb].
    + rewrite Hk2, Hother by done. done.
    + by rewrite lookup_delete_eq.
  - rewrite Hk3, (same_has_services m2 m3 Hs3), (same_has_services m1 m2 Hs2) by done.
    rewrite <- (Hother floatingipGroupLabel) by done. subst m2.
    destruct (has_services m1); cbn [negb]; [by rewrite andb_false_r|]. rewrite andb_true_r.
    case_bool_decide as Hg; cbn [negb]; [done | by rewrite lookup_delete_eq].
  - intros k Hk Hni. rewrite Hk3, Hk2, Hother by set_solver. done.
Qed.
End Labels.
