(* ===== verification/ApiServerSafe.v ===== *)
(** What a request may do to the cluster: the calls it makes, in order. *)

From S2P Require Import Prelude GoStd NetIP NetIPFacts Ipam IpamSpec IpamCorrect ApiTypes Kube ServiceLabels FipController ApiServer ApiServerCorrect.

(** ** The calls of a program *)

(** A property of call sequences (newest first) that sequences of steps keep. *)
Class Segment (P : list Event → Prop) := {
  segment_nil : P [];
  segment_app : ∀ l1 l2, P l1 → P l2 → P (l1 ++ l2)
}.

Section Calls.
Context {S : Type} `{HKube : KubeAPI S, HRetry : !RetrySpec S}.

(** Whatever the world, the calls of [m] satisfy [P], and its result fits them. *)
Definition does {A} (P : list Event → Prop) (Q : A → list Event → Prop) (m : M (World S) A) : Prop :=
  ∀ w, ∃ l, events (m w).2 = l ++ events w ∧ P l ∧ Q (m w).1 l.

Definition any {A} (x : A) (l : list Event) : Prop := True.

Context (P : list Event → Prop) `{HSeg : !Segment P}.

Lemma does_ret {A} (Q : A → list Event → Prop) x : Q x [] → does P Q (ret x).
Proof. intros Hq w. exists []. split; [done|]. split; [apply segment_nil | done]. Qed.

Lemma does_bind {A B} (R : A → list Event → Prop) (Q : B → list Event → Prop) m (k : A → M (World S) B) :
  does P R m → (∀ x l, R x l → does P (λ y l', Q y (l' ++ l)) (k x)) → does P Q (bind m k).
Proof.
  intros Hm Hk w. unfold bind. destruct (Hm w) as (l & He & Hl & Hr). destruct (m w) as [x w1]. simpl in *.
  destruct (Hk x l Hr w1) as (l' & He' & Hl' & Hq). exists (l' ++ l). rewrite He', He, app_assoc.
  split; [done|]. split; [by apply segment_app | done].
Qed.

Lemma does_step {A B} (Q : B → list Event → Prop) m (k : A → M (World S) B) :
  does P any m → (∀ x, does P (λ y l', ∀ l, Q y (l' ++ l)) (k x)) → does P Q (bind m k).
Proof.
  intros Hm Hk. apply (does_bind any); [done|]. intros x l _ w.
  destruct (Hk x w) as (l' & ? & ? & Hq). exists l'. auto.
Qed.

Lemma does_seq {A B} (Q : B → Prop) m (k : A → M (World S) B) :
  does P any m → (∀ x, does P (λ y _, Q y) (k x)) → does P (λ y _, Q y) (bind m k).
Proof. intros Hm Hk. apply (does_bind any); [done|]. intros x l _. apply Hk. Qed.

Lemma does_weaken {A} (Q Q' : A → list Event → Prop) m :
  does P Q m → (∀ x l, Q x l → Q' x l) → does P Q' m.
Proof. intros Hm Hi w. destruct (Hm w) as (l & ? & ? & ?). exists l. auto. Qed.

Lemma api_events {R} (c : Call R) w :
  ∃ a, events (api c w).2 = mkEvent a c (api c w).1 :: events w.
Proof.
  unfold api, interfere. destruct (others (kube w) (alloc w)) as [k a]. simpl.
  destruct (exec c k). simpl. by eexists.
Qed.

Lemma does_api {A} (Q : res A → list Event → Prop) (c : Call A) :
  (∀ a r, P [mkEvent a c r] ∧ Q r [mkEvent a c r]) → does P Q (api c).
Proof.
  intros HP w. destruct (api_events c w) as [a Ha]. eexists [_]. split; [exact Ha | apply HP].
Qed.

Lemma does_retry {A} (fn : M (World S) (res A)) : does P any fn → does P any (RetryOnConflict fn).
Proof.
  intros Hfn w. pose proof (RetryOnConflict_spec A fn w) as Hr.
  induction Hr as [w r w' Hl|w e w1 r w' Hl _ _ IH]; destruct (Hfn w) as (l & He & Hl' & _); rewrite Hl in He.
  - by exists l.
  - destruct IH as (l2 & He2 & Hl2 & _). exists (l2 ++ l). simpl in He.
    rewrite He2, He, app_assoc. split; [done|]. split; [by apply segment_app | done].
Qed.
End Calls.

(** ** Claims *)

(** A call that changes no object. *)
Definition reads (ev : Event) : Prop :=
  match ev_call ev with
  | GetFIP _ _ | ListFIPs _ _ | WatchFIP _ _ _ | GetPool _ | GetQuota _ | ListProjects | GetSecret _ _
  | CtxErr | SleepWithContext _ => True
  | _ => False
  end.

Definition creates (ev : Event) : Prop := match ev_call ev with CreateFIP _ _ => True | _ => False end.

(** Only reads, creates, and updates that turn an object just read into one
    that [ok] allows. *)
Inductive claims_ok (ok : FloatingIP → FloatingIP → Prop) : list Event → Prop :=
| claims_nil : claims_ok ok []
| claims_other ev l : reads ev ∨ creates ev → claims_ok ok l → claims_ok ok (ev :: l)
| claims_update a a' ns name fresh f r l :
    ok fresh f → claims_ok ok l →
    claims_ok ok (mkEvent a (UpdateFIP f) r :: mkEvent a' (GetFIP ns name) (Ok fresh) :: l).

#[export] Instance claims_ok_segment ok : Segment (claims_ok ok).
Proof.
  split; [constructor|]. intros l1 l2 H1 H2. induction H1; simpl; [done | by constructor | by constructor].
Qed.

(** The floating IP was created, as this object. *)
Definition created (f : FloatingIP) (ev : Event) : Prop :=
  match ev_call ev in Call T return res T → Prop with
  | CreateFIP _ _ => λ r, r = Ok f
  | _ => λ _, False
  end (ev_result ev).

Definition owns_if_new (r : res (FloatingIP * bool)) (l : list Event) : Prop :=
  match r with Ok (f, true) => Exists (created f) l | _ => True end.

(** Whom the request may take a floating IP from. *)
Definition may_claim (req : FIPRequest) (fresh : FloatingIP) : Prop :=
  let claimedBy := fip_label fresh clusterNameLabel in
  (rq_IPAddress req ≠ "" → claimedBy = "" ∨ claimedBy = rq_Cluster req) ∧
  (rq_IPAddress req = "" → rq_FloatingIPGroup req = "" → claimedBy = "").

Section Claims.
Context {S : Type} `{HKube : KubeAPI S, HRetry : !RetrySpec S, HRange : MapRange}.

Definition claims_for (req : FIPRequest) (fresh f : FloatingIP) : Prop :=
  may_claim req fresh ∧ ∃ project, proj_Name project = rq_Project req ∧ f = claimLabels req project fresh.

Lemma does_read {A} (ok : FloatingIP → FloatingIP → Prop) (c : Call A) :
  (∀ a r, reads (mkEvent a c r)) → does (S := S) (claims_ok ok) any (api c).
Proof. intros Hr. apply does_api. intros a r. split; [|done]. constructor; [by left | constructor]. Qed.

Lemma does_create ok g f :
  does (S := S) (claims_ok ok) (λ r l, match r with Ok f => Exists (created f) l | Err _ => True end)
    (api (CreateFIP g f)).
Proof.
  apply does_api. intros a r. split; [constructor; [by right | constructor]|].
  destruct r; [|done]. by constructor.
Qed.

Lemma does_update ok desired claimable mutate :
  (∀ fresh, match claimable with Some c => c fresh = true | None => True end → ok fresh (mutate fresh)) →
  does (S := S) (claims_ok ok) any (updateFloatingIPIf desired claimable mutate).
Proof.
  intros Hok. apply does_retry; [apply _|]. intros w. unfold bind.
  destruct (api_events (GetFIP (fip_ns desired) (fip_name desired)) w) as [a Ha].
  destruct (api (GetFIP _ _) w) as [[fresh|e] w1]; simpl in Ha.
  2:{ eexists [_]. split; [exact Ha|]. split; [|done]. constructor; [by left | constructor]. }
  destruct (match claimable with Some c => negb (c fresh) | None => false end) eqn:Hc.
  { eexists [_]. split; [exact Ha|]. split; [|done]. constructor; [by left | constructor]. }
  destruct (api_events (UpdateFIP (mutate fresh)) w1) as [a' Ha']. eexists [_; _].
  split; [rewrite Ha', Ha; reflexivity|]. split; [|done]. apply claims_update; [|constructor].
  apply Hok. destruct claimable; [by apply negb_false_iff in Hc | done].
Qed.

Ltac reads_only := solve [by apply does_read].

Lemma find_project_does ok name :
  does (S := S) (claims_ok ok) (λ r _, ∀ p, r = Ok p → proj_Name p = name) (find_project name).
Proof.
  unfold find_project. apply does_step; [apply _ | by apply does_read|]. intros [[items|]|e];
    [|by apply does_ret; [apply _|]..].
  destruct (find _ items) as [p|] eqn:Hf; [|by apply does_ret; [apply _|]].
  apply does_ret; [apply _|]. intros _ p' [= <-]. apply find_true in Hf as [_ Hp]. by bool_hyps.
Qed.

Section Request.
Context (req : FIPRequest) (project : Project) (Hproject : proj_Name project = rq_Project req).

Lemma claim_pinned_does existing :
  rq_IPAddress req ≠ "" →
  does (S := S) (claims_ok (claims_for req)) owns_if_new (claim_pinned project req existing).
Proof.
  intros Hip. unfold claim_pinned. destruct (checkSpecificIPClaimable existing req); [|by apply does_ret; [apply _|]].
  apply does_step; [apply _| |].
  - apply does_update. intros fresh Hc. split; [|by exists project]. split; [|done]. intros _.
    unfold fipClaimableByCluster in Hc. apply orb_true_iff in Hc as [?|?]; bool_hyps; auto.
  - intros [f|e]; [by apply does_ret; [apply _|]|]. repeat case_match; by apply does_ret; [apply _|].
Qed.

Lemma findPinnedFIP_does : does (S := S) (claims_ok (claims_for req)) any (findPinnedFIP project req).
Proof.
  unfold findPinnedFIP. apply does_step; [apply _ | by apply does_read|]. intros [?|?]; by apply does_ret; [apply _|].
Qed.

Lemma adopt_pinned_does err :
  does (S := S) (claims_ok (claims_for req)) (λ r _, ∀ f b, r = Ok (f, b) → b = false) (adopt_pinned project req err).
Proof.
  unfold adopt_pinned. apply does_step; [apply _ | apply findPinnedFIP_does|].
  intros [[?|]|?]; apply does_ret; try apply _; intros; by simplify_eq.
Qed.

Lemma createSpecificIP_does :
  does (S := S) (claims_ok (claims_for req)) owns_if_new (createSpecificIP project req).
Proof.
  unfold createSpecificIP. eapply does_bind; [apply _ | apply does_create|]. intros [f|err] l Hr.
  { apply does_ret; [apply _|]. done. }
  assert (does (S := S) (claims_ok (claims_for req)) (λ r l', owns_if_new r (l' ++ l)) (adopt_pinned project req err)) as Ha.
  { eapply does_weaken; [apply adopt_pinned_does|]. intros [[f []]|?] l' Hb; try done. by specialize (Hb f true eq_refl). }
  destruct (IsAlreadyExists err); [|exact Ha].
  apply (does_bind _ any); [by apply does_read|]. intros [existing|getErr] l' _.
  - case_match; by apply does_ret; [apply _|].
  - destruct (IsNotFound getErr); [|by apply does_ret; [apply _|]].
    eapply does_weaken; [apply adopt_pinned_does|]. intros [[f []]|?] l'' Hb; try done. by specialize (Hb f true eq_refl).
Qed.

Lemma owns_app r l' l : owns_if_new r l' ∨ owns_if_new r l → owns_if_new r (l' ++ l).
Proof. unfold owns_if_new. destruct r as [[f []]|]; [|done..]. rewrite Exists_app. tauto. Qed.

Lemma requestSpecificIP_does :
  rq_IPAddress req ≠ "" →
  does (S := S) (claims_ok (claims_for req)) owns_if_new (requestSpecificIP project req).
Proof.
  intros Hip. unfold requestSpecificIP. apply does_step; [apply _ | apply findPinnedFIP_does|].
  intros [[existing|]|e]; [| |by apply does_ret; [apply _|]].
  { eapply does_weaken; [by apply claim_pinned_does|]. intros r l Hr l'. apply owns_app. by left. }
  eapply does_weaken with (Q := owns_if_new); [|intros r l Hr l'; apply owns_app; by left].
  eapply does_bind; [apply _ | apply createSpecificIP_does|]. intros [[f b]|e] l Hr; [|by apply does_ret; [apply _|]].
  destruct b; cbn [fst snd]; [by apply does_ret; [apply _|]|].
  eapply does_weaken; [by apply claim_pinned_does|]. intros r l' Hr'. apply owns_app. by left.
Qed.

Lemma claim_candidate_does items :
  rq_IPAddress req = "" → does (S := S) (claims_ok (claims_for req)) any (claim_candidate project req items).
Proof.
  intros Hip. induction items as [|candidate items IH]; cbn [claim_candidate]; [by apply does_ret; [apply _|]|].
  destruct (negb _); [done|]. apply does_step; [apply _| |].
  - apply does_update. intros fresh Hc. split; [|by exists project]. split; [done|]. intros _ Hg.
    unfold fipClaimableByRequest in Hc. rewrite Hg in Hc. case_bool_decide; done.
  - intros [f|e]; [by apply does_ret; [apply _|]|]. destruct (_ || _); [|by apply does_ret; [apply _|]].
    eapply does_weaken; [exact IH | done].
Qed.

Lemma requestAnyIP_does :
  rq_IPAddress req = "" →
  does (S := S) (claims_ok (claims_for req)) owns_if_new (requestAnyIP project req).
Proof.
  intros Hip. unfold requestAnyIP. apply does_step; [apply _ | by apply does_read|].
  intros [items|e]; [|by apply does_ret; [apply _|]].
  eapply does_weaken with (Q := owns_if_new); [|intros r l Hr l'; apply owns_app; by left].
  destruct (find (in_group req) items) as [existing|] eqn:Hgroup.
  - apply find_true in Hgroup as [_ Hg]. apply does_step; [apply _| |intros [?|?]; by apply does_ret; [apply _|]].
    apply does_update. intros fresh _. split; [|by exists project]. split; [done|]. intros _ Hno.
    unfold in_group in Hg. by rewrite Hno, bool_decide_true in Hg.
  - apply does_step; [apply _ | by apply claim_candidate_does|].
    intros [[f|]|e]; [by apply does_ret; [apply _|] | |by apply does_ret; [apply _|]].
    eapply does_weaken with (Q := owns_if_new); [|intros r l Hr l'; apply owns_app; by left].
    eapply does_bind; [apply _ | apply does_create|]. intros [f|e] l Hr; by apply does_ret; [apply _|].
Qed.

Lemma obtain_does : does (S := S) (claims_ok (claims_for req)) owns_if_new (obtain project req).
Proof.
  unfold obtain. apply does_step; [apply _| |].
  { unfold findServiceFIP. apply does_step; [apply _ | by apply does_read|]. intros [?|?]; by apply does_ret; [apply _|]. }
  intros [[f|]|e]; [by apply does_ret; [apply _|] | |by apply does_ret; [apply _|]].
  eapply does_weaken with (Q := owns_if_new); [|intros r l Hr l'; apply owns_app; by left].
  case_bool_decide; [by apply requestAnyIP_does | by apply requestSpecificIP_does].
Qed.
End Request.

(** ** The wait *)

Definition has_address (wait : bool) (r : option (res FloatingIP)) : Prop :=
  ∀ f, r = Some (Ok f) → allocated wait f = true.

Lemma consumeWatch_allocated wait evs f : consumeWatch wait evs = Ok (Some f) → allocated wait f = true.
Proof.
  induction evs as [|[[e|]|[g|]] evs IH]; simpl; try done. destruct (allocated wait g) eqn:Hg; [|done].
  intros ?. by simplify_eq.
Qed.

Lemma watch_loop_does ok fuel ns name wait : ∀ delay,
  does (S := S) (claims_ok ok) (λ r _, has_address wait r) (watch_loop fuel ns name wait delay).
Proof.
  assert (∀ r e, r = Some (@Err FloatingIP e) → has_address wait r) as Herr by (intros ? ? -> ? ?; done).
  induction fuel as [|fuel IH]; intros delay; cbn [watch_loop]; [by apply does_ret; [apply _|]|].
  assert (∀ (m : M (World S) (res unit)) d, does (S := S) (claims_ok ok) any m →
    does (S := S) (claims_ok ok) (λ r _, has_address wait r)
      (try! _u := m else ctxErr => ret (Some (Err ctxErr)) in
         watch_loop fuel ns name wait d)%go) as Hagain.
  { intros m d Hm. apply does_seq; [apply _ | exact Hm|].
    intros [[]|e]; [apply IH | apply does_ret; [apply _ | by eapply Herr]]. }
  assert (∀ e, does (S := S) (claims_ok ok) (λ r _, has_address wait r)
    (if isTerminalWatchError e then ret (Some (Err e))
     else (try! _u := api (SleepWithContext delay) else ctxErr => ret (Some (Err ctxErr)) in
           watch_loop fuel ns name wait (nextReconnectDelay delay))%go)) as Hlater.
  { intros e. destruct (isTerminalWatchError e); [apply does_ret; [apply _ | by eapply Herr]|].
    apply Hagain. by apply does_read. }
  apply does_seq; [apply _ | by apply does_read|]. intros [[]|e]; [|apply does_ret; [apply _ | by eapply Herr]].
  apply does_seq; [apply _ | by apply does_read|]. intros [fip|e]; [|apply Hlater].
  destruct (allocated wait fip) eqn:Hf; [apply does_ret; [apply _|]; intros f ?; by simplify_eq|].
  apply does_seq; [apply _ | by apply does_read|]. intros [evs|e]; [|apply Hlater].
  destruct (consumeWatch wait evs) as [[f|]|e] eqn:Hc.
  - apply does_ret; [apply _|]. intros ? ?. simplify_eq. by eapply consumeWatch_allocated.
  - apply Hagain. by apply does_read.
  - destruct (isTerminalWatchError e); [apply does_ret; [apply _ | by eapply Herr]|].
    apply Hagain. by apply does_read.
Qed.

(** The clean-up deletes one object, which the request created. *)
Definition cleaned_up (ok : FloatingIP → FloatingIP → Prop) (l : list Event) : Prop :=
  ∃ a r f l', l = mkEvent a (DeleteFIP (fip_ns f) (fip_name f)) r :: l' ∧ claims_ok ok l' ∧ Exists (created f) l'.

Lemma wait_failed_calls fip createdNew err (w : World S) :
  ∃ l, events (wait_failed fip createdNew err w).2 = l ++ events w ∧
    (l = [] ∨ createdNew = true ∧ ∃ a r, l = [mkEvent a (DeleteFIP (fip_ns fip) (fip_name fip)) r]) ∧
    ∀ resp, (wait_failed fip createdNew err w).1 ≠ JSONOk resp.
Proof.
  unfold wait_failed. destruct (_ || _); [|by exists []; split; [|split; [left|]]].
  unfold bind. destruct createdNew; simpl.
  - destruct (api_events (DeleteFIP (fip_ns fip) (fip_name fip)) w) as [a Ha].
    destruct (api (DeleteFIP _ _) w) as [r w1]. simpl in Ha. exists [mkEvent a (DeleteFIP (fip_ns fip) (fip_name fip)) r].
    split; [by case_bool_decide|]. split; [right; eauto | intros resp; by case_bool_decide].
  - exists []. split; [by case_bool_decide|]. split; [by left | intros resp; by case_bool_decide].
Qed.

(** C7: the only objects a request changes are floating IPs it claims, each an
    object read from the API server in the call before and found claimable
    there: unclaimed, or of the same cluster if the address is pinned; only the
    request of a group, which shares the group's address, skips that check.  It
    deletes at most one object, as its last call, and one that it created.  A
    reply that approves the request carries an address. *)
Theorem request_claims_safely fuel req (w : World S) r w' :
  serve_request fuel req w = (r, w') →
  (∃ l, events w' = l ++ events w ∧ (claims_ok (claims_for req) l ∨ cleaned_up (claims_for req) l)) ∧
  (∀ resp, r = Some (JSONOk resp) → rs_IPAddress resp ≠ "").
Proof.
  intros Hrun. unfold serve_request, bind at 1 in Hrun.
  destruct (find_project_does (claims_for req) (rq_Project req) w) as (l1 & He1 & Hl1 & Hp).
  destruct (find_project (rq_Project req) w) as [[project|e] w1]; simpl in *.
  2:{ unfold ret in Hrun. simplify_eq. split; [by exists l1; auto|].
      intros resp. unfold writeHandlerError. by case_match. }
  unfold bind at 1 in Hrun. destruct (obtain_does req project (Hp _ eq_refl) w1) as (l2 & He2 & Hl2 & Hown).
  destruct (obtain project req w1) as [[[fip createdNew]|e] w2]; simpl in *.
  2:{ unfold ret in Hrun. simplify_eq. split.
      - exists (l2 ++ l1). rewrite He2, He1, app_assoc. split; [done|]. left. by apply segment_app.
      - intros resp. unfold writeHandlerError. by case_match. }
  unfold bind at 1 in Hrun. unfold WatchFloatingIP in Hrun. set (wait := negb _) in Hrun.
  destruct (watch_loop_does (claims_for req) fuel (fip_ns fip) (fip_name fip) wait watchReconnectInitialDelay w2)
    as (l3 & He3 & Hl3 & Hwait).
  destruct (watch_loop _ _ _ _ _ w2) as [[[finalFip|e]|] w3]; simpl in *.
  - unfold bind in Hrun. destruct (api_events (GetPool (rq_FloatingIPPool req)) w3) as [a Ha].
    destruct (api (GetPool _) w3) as [pool w4]. simpl in Ha.
    assert (w' = w4) as -> by (destruct pool; cbv [ret] in Hrun; by simplify_eq). split.
    + exists (mkEvent a (GetPool (rq_FloatingIPPool req)) pool :: l3 ++ l2 ++ l1).
      rewrite Ha, He3, He2, He1. simpl. rewrite <- !app_assoc. split; [done|]. left.
      constructor; [by left|]. repeat apply segment_app; done.
    + intros resp ->. destruct pool as [pool|]; cbv [ret] in Hrun; simplify_eq. simpl.
      specialize (Hwait _ eq_refl). unfold allocated in Hwait. by case_bool_decide.
  - unfold bind in Hrun. destruct (wait_failed_calls fip createdNew e w3) as (l4 & He4 & Hl4 & Hr4).
    destruct (wait_failed fip createdNew e w3) as [reply w4]. cbv [ret] in Hrun. simplify_eq/=. split.
    2:{ intros resp ?. simplify_eq. by destruct (Hr4 resp). }
    assert (claims_ok (claims_for req) (l3 ++ l2 ++ l1)) as Hall by (repeat apply segment_app; done).
    exists (l4 ++ l3 ++ l2 ++ l1). rewrite He4, He3, He2, He1, <- !app_assoc. split; [done|].
    destruct Hl4 as [->|[-> (a & r & ->)]]; [by left | right].
    exists a, r, fip, (l3 ++ l2 ++ l1). split; [done|]. split; [done|]. simpl in Hown.
    rewrite !Exists_app. auto.
  - cbv [ret] in Hrun. simplify_eq. split; [|done].
    exists (l3 ++ l2 ++ l1). rewrite He3, He2, He1, <- !app_assoc. split; [done|]. left.
    repeat apply segment_app; done.
Qed.

(** ** The wait ends with the context *)

(** A check that found the context of the request still alive. *)
Definition alive (ev : Event) : bool :=
  match ev_call ev with CtxErr => is_ok (ev_result ev) | _ => false end.
Definition checks (l : list Event) : nat := length (filter (λ ev, alive ev = true) l).

Definition no_condition (l : list Event) : Prop := True.
#[local] Instance no_condition_segment : Segment no_condition.
Proof. by split. Qed.

Definition still_waiting {A} (n : nat) (r : option A) (l : list Event) : Prop := r = None → (n <= checks l)%nat.

Lemma checks_app l1 l2 : checks (l1 ++ l2) = (checks l1 + checks l2)%nat.
Proof. unfold checks. by rewrite filter_app, length_app. Qed.

Lemma waiting_step {A B} n (m : M (World S) A) (k : A → M (World S) (option B)) :
  does no_condition any m → (∀ x, does no_condition (still_waiting n) (k x)) →
  does no_condition (still_waiting n) (bind m k).
Proof.
  intros Hm Hk. apply (does_bind _ any); [done|]. intros x l _. eapply does_weaken; [apply Hk|].
  intros r l' Hw Hr. specialize (Hw Hr). rewrite checks_app. lia.
Qed.

Lemma does_anything {A} (c : Call A) : does (S := S) no_condition any (api c).
Proof. by apply does_api. Qed.

Lemma watch_loop_waits fuel ns name wait : ∀ delay,
  does (S := S) no_condition (still_waiting fuel) (watch_loop fuel ns name wait delay).
Proof.
  induction fuel as [|fuel IH]; intros delay; cbn [watch_loop].
  { apply does_ret; [apply _|]. intros _. unfold checks. simpl. lia. }
  assert (∀ r n, is_some r = true → does (S := S) no_condition (still_waiting (A := res FloatingIP) n) (ret r)) as Hdone.
  { intros [?|] n ?; [|done]. by apply does_ret; [apply _|]. }
  assert (∀ (c : Call unit) d, does (S := S) no_condition (still_waiting fuel)
      (try! _u := api c else ctxErr => ret (Some (Err ctxErr)) in watch_loop fuel ns name wait d)%go) as Hagain.
  { intros c d. apply waiting_step; [apply does_anything|]. intros [?|?]; [apply IH | by apply Hdone]. }
  apply (does_bind _ (λ r l, is_ok r = true → (1 <= checks l)%nat)).
  { apply does_api. intros a r. split; [done|]. intros Hr. unfold checks. rewrite filter_cons, decide_True; [simpl; lia | done]. }
  intros [[]|e] l Hl; [|apply does_ret; [apply _ | done]]. specialize (Hl eq_refl).
  eapply does_weaken with (Q := still_waiting fuel).
  2:{ intros r l' Hw Hr. specialize (Hw Hr). rewrite checks_app. lia. }
  apply waiting_step; [apply does_anything|]. intros [fip|e].
  2:{ destruct (isTerminalWatchError e); [by apply Hdone | apply Hagain]. }
  destruct (allocated wait fip); [by apply Hdone|].
  apply waiting_step; [apply does_anything|]. intros [evs|e].
  2:{ destruct (isTerminalWatchError e); [by apply Hdone | apply Hagain]. }
  destruct (consumeWatch wait evs) as [[f|]|e]; [by apply Hdone | apply Hagain|].
  destruct (isTerminalWatchError e); [by apply Hdone | apply Hagain].
Qed.

(** C27: waiting for an address ends with the request's context: a wait that is
    still going on after [fuel] rounds has found the context alive [fuel] times.
    A wait that succeeds returns a floating IP with an address and, if the
    floating IP is in a group, with the group's assignment. *)
Theorem WatchFloatingIP_correct fuel fip (w : World S) r w' :
  WatchFloatingIP fuel fip w = (r, w') →
  (∃ l, events w' = l ++ events w ∧ (r = None → (fuel <= checks l)%nat)) ∧
  (∀ f, r = Some (Ok f) → st_IPAddr (fip_Status f) ≠ "" ∧
     (fip_label fip floatingipGroupLabel ≠ "" →
      ∃ a, Assigned (fip_Status f) = Some a ∧ FloatingIPGroup a ≠ "")).
Proof.
  intros Hrun. unfold WatchFloatingIP in Hrun. set (wait := negb _) in Hrun.
  destruct (watch_loop_waits fuel (fip_ns fip) (fip_name fip) wait watchReconnectInitialDelay w) as (l & He & _ & Hw).
  destruct (watch_loop_does (λ _ _, True) fuel (fip_ns fip) (fip_name fip) wait watchReconnectInitialDelay w)
    as (_ & _ & _ & Hok).
  rewrite Hrun in He, Hw, Hok. split; [by exists l|]. intros f ->. specialize (Hok f eq_refl).
  unfold allocated in Hok. case_bool_decide as Hip; [done|]. split; [done|]. intros Hg.
  assert (wait = true) as Hwt by (unfold wait; by rewrite bool_decide_false). rewrite Hwt in Hok.
  destruct (Assigned (fip_Status f)) as [a|]; [|done]. exists a. split; [done|]. by bool_hyps.
Qed.

(** ** Repeated requests *)

Lemma request_labels_lookup m project cluster name ns group :
  let m' := (request_labels m project cluster name ns group).1 in
  serviceAlreadyExists m' name ns = true ∧
  m' !! projectNameLabel = Some project ∧ m' !! clusterNameLabel = Some cluster ∧
  m' !! floatingipGroupLabel = (if bool_decide (group = "") then m !! floatingipGroupLabel else Some group).
Proof.
  unfold request_labels. set (m1 := <[clusterNameLabel := cluster]> _).
  set (r := if serviceAlreadyExists m1 name ns then _ else _).
  assert (serviceAlreadyExists r.1 name ns = true ∧
    ∀ k, HasPrefix k serviceIndexLabelPrefix = false → r.1 !! k = m1 !! k) as [Hr Hk].
  { subst r. destruct (serviceAlreadyExists m1 name ns) eqn:He; [done|]. cbn [fst].
    set (id := getNextServiceID m1). split.
    - apply serviceAlreadyExists_true. exists (name_label id).
      assert (ns_label id ≠ name_label id) as Hne.
      { intros Heq. pose proof (is_service_key_ns id) as Hn. by rewrite Heq, is_service_key_name in Hn. }
      rewrite is_service_key_name, service_id_name, lookup_insert_ne, !lookup_insert_eq by done. done.
    - intros k Hk. destruct (other_label k id Hk). by rewrite !lookup_insert_ne. }
  destruct r as [m2 b]. cbn [fst] in *.
  assert (m1 !! projectNameLabel = Some project ∧ m1 !! clusterNameLabel = Some cluster ∧
    m1 !! floatingipGroupLabel = m !! floatingipGroupLabel) as (H1 & H2 & H3).
  { unfold m1. rewrite lookup_insert_eq, !(lookup_insert_ne _ clusterNameLabel), lookup_insert_eq by done.
    by rewrite lookup_insert_ne. }
  destruct (bool_decide (group = "")); cbn [fst].
  - by rewrite !Hk, H1, H2, H3.
  - split; [|split_and!; [by rewrite lookup_insert_ne, Hk, H1 by done
      | by rewrite lookup_insert_ne, Hk, H2 by done | apply lookup_insert_eq]].
    apply serviceAlreadyExists_true. apply serviceAlreadyExists_true in Hr as (k & Hk1 & Hs & Hn). exists k.
    rewrite !lookup_insert_ne; [done | | ].
    + intros Heq. pose proof (HasPrefix_app serviceIndexLabelPrefix (service_id k +:+ "-namespace")) as Hp.
      fold (ns_label (service_id k)) in Hp. by rewrite <- Heq in Hp.
    + intros <-. discriminate Hs.
Qed.

(** The labels of a new floating IP. *)
Lemma new_fip_labels project req name ip :
  let m := labels_of (new_fip project req name ip) in
  serviceAlreadyExists m (rq_ServiceName req) (rq_ServiceNamespace req) = true ∧
  m !! projectNameLabel = Some (proj_Name project) ∧ m !! clusterNameLabel = Some (rq_Cluster req) ∧
  default "" (m !! floatingipGroupLabel) = rq_FloatingIPGroup req.
Proof.
  unfold labels_of, new_fip. cbn [fip_meta Labels default from_option].
  set (m0 := <[ns_label "0" := rq_ServiceNamespace req]> _).
  assert (m0 !! name_label "0" = Some (rq_ServiceName req) ∧ m0 !! ns_label "0" = Some (rq_ServiceNamespace req)
    ∧ m0 !! projectNameLabel = Some (proj_Name project) ∧ m0 !! clusterNameLabel = Some (rq_Cluster req)
    ∧ m0 !! floatingipGroupLabel = None) as (H1 & H2 & H3 & H4 & H5).
  { unfold m0. by repeat split. }
  set (m := if bool_decide (rq_FloatingIPGroup req = "") then m0 else _).
  assert (∀ k, k ≠ floatingipGroupLabel → m !! k = m0 !! k) as Hk.
  { intros k Hk. unfold m. destruct (bool_decide _); [done | by rewrite lookup_insert_ne]. }
  cbn [id]. split; [|split; [|split]].
  - apply serviceAlreadyExists_true. exists (name_label "0").
    rewrite service_id_name. split; [|split]; [rewrite Hk; [exact H1|discriminate] | reflexivity |].
    rewrite Hk; [exact H2 | discriminate].
  - by rewrite Hk.
  - by rewrite Hk.
  - unfold m. case_bool_decide as Hg; [by rewrite H5, Hg | by rewrite lookup_insert_eq].
Qed.

(** The object serves the request: nothing about it but the labels is asked. *)
Record serves (req : FIPRequest) (f : FloatingIP) : Prop := mkServes {
  serves_live : DeletionTimestamp (fip_meta f) = None;
  serves_pool : fip_pool f = rq_FloatingIPPool req;
  serves_ip : rq_IPAddress req = "" ∨ IPAddr (fip_Spec f) = Some (rq_IPAddress req);
  serves_group : rq_FloatingIPGroup req = "" → fip_label f floatingipGroupLabel = ""
}.

(** C18: a repeated request is idempotent.  Once a request has claimed a floating
    IP, or created one, that serves it, the labels it left make the object
    one that the next identical request recognises; and a request that finds such
    objects returns one of them, with no call but the one that lists the objects. *)
Theorem repeated_request_reuses req project (w : World S) :
  proj_Name project = rq_Project req →
  (∀ f, serves req f → holds_service req (claimLabels req project f) = true) ∧
  (∀ name ip, ip = (if bool_decide (rq_IPAddress req = "") then None else Some (rq_IPAddress req)) →
     holds_service req (new_fip project req name ip) = true) ∧
  (∀ items g, (api (ListFIPs (proj_Namespace project) []) w).1 = Ok items → g ∈ items →
     holds_service req g = true →
     ∃ f, obtain project req w = (Ok (f, false), (api (ListFIPs (proj_Namespace project) []) w).2) ∧
          f ∈ items ∧ holds_service req f = true).
Proof.
  intros Hproj. split_and!.
  - intros f [Hlive Hpool Hip Hgroup]. unfold claimLabels, applyFIPRequestLabels.
    destruct (request_labels_lookup (labels_of f) (proj_Name project) (rq_Cluster req) (rq_ServiceName req)
      (rq_ServiceNamespace req) (rq_FloatingIPGroup req)) as (He & Hp & Hc & Hg).
    destruct (request_labels _ _ _ _ _ _) as [m' b]. cbn [fst] in *.
    unfold holds_service, fip_label, fip_pool, labels_of. cbn. rewrite Hlive, Hp, Hc, Hg, He.
    unfold fip_pool in Hpool. rewrite Hpool. cbn. rewrite Hproj, !bool_decide_true by done. cbn.
    assert (default "" (if bool_decide (rq_FloatingIPGroup req = "") then labels_of f !! floatingipGroupLabel
            else Some (rq_FloatingIPGroup req)) = rq_FloatingIPGroup req) as Hgrp.
    { case_bool_decide as Hn; [|done]. rewrite Hn. specialize (Hgroup Hn). unfold fip_label, mget, mlookup in Hgroup.
      unfold labels_of. by destruct (Labels (fip_meta f)). }
    rewrite Hgrp, bool_decide_true by done. cbn. apply orb_true_iff. rewrite !bool_decide_eq_true. done.
  - intros name ip ->. pose proof (new_fip_labels project req name
      (if bool_decide (rq_IPAddress req = "") then None else Some (rq_IPAddress req))) as (He & Hp & Hc & Hg).
    set (g := new_fip _ _ _ _) in *. unfold holds_service. rewrite He.
    assert (∀ k, fip_label g k = default "" (labels_of g !! k)) as Hlab by done.
    rewrite !Hlab, Hp, Hc, Hg. cbn. rewrite Hproj, !bool_decide_true by done. cbn.
    case_bool_decide; [done | by rewrite bool_decide_true].
  - intros items g Hl Hin Hg. unfold obtain, findServiceFIP, bind.
    destruct (api (ListFIPs (proj_Namespace project) []) w) as [r w1]. simpl in Hl. subst r. unfold ret.
    destruct (find (holds_service req) items) as [f|] eqn:Hf.
    + apply find_true in Hf. by exists f.
    + exfalso. pose proof (find_none _ _ Hf g (proj1 (list_elem_of_In _ _) Hin)). congruence.
Qed.
End Claims.
