(* ===== verification/ApiServerDemo.v ===== *)
(** The API server on concrete requests: instances of the theorems of
    [ApiServerCorrect] and [ApiServerSafe], and three behaviours the comments of
    the source do not expect. *)

From S2P Require Import Prelude GoStd NetIP NetIPFacts Ipam IpamSpec IpamCorrect ApiTypes Kube ServiceLabels FipController MemKube FipDemo ApiServer ApiServerCorrect ApiServerSafe.

#[local] Existing Instances sorted_range no_err_text.

(** ** Labels *)

Definition web_labels : gmap string string :=
  <[floatingipGroupLabel := "g"]> (<[clusterNameLabel := "c1"]> (<[ns_key 0 := "default"]>
    (<[name_key 0 := "web"]> {[projectNameLabel := "p1"]}))).

Lemma web_labels_ok : service_labels_ok web_labels.
Proof.
  split.
  - intros k Hk Hp. unfold web_labels in Hk. rewrite !lookup_insert_is_Some in Hk.
    destruct Hk as [<-|[_ [<-|[_ [<-|[_ [<-|[_ Hk]]]]]]]]; try discriminate Hp.
    + exists 0. split; [unfold two63; lia | by left].
    + exists 0. split; [unfold two63; lia | by right].
    + apply lookup_singleton_is_Some in Hk as <-. discriminate Hp.
  - intros i. destruct (decide (i = 0)) as [->|Hne]; [split; intros _; vm_compute; by eexists|].
    assert (web_labels !! ns_key i = None ∧ web_labels !! name_key i = None) as [-> ->]; [|done].
    assert (ns_key i ≠ ns_key 0 ∧ name_key i ≠ name_key 0) as [Hn1 Hn2]
      by (split; [intros ?%ns_key_inj | intros ?%name_key_inj]; congruence).
    pose proof (ns_name_neq i 0). pose proof (ns_name_neq 0 i). unfold web_labels.
    rewrite !lookup_insert_ne, !lookup_singleton_ne; [done | discriminate || congruence ..].
Qed.

Lemma web_labels_small i : is_Some (web_labels !! name_key i) → i < two63 - 1.
Proof.
  intros Hi. destruct (decide (i = 0)) as [->|]; [unfold two63; lia|]. exfalso.
  apply (labels_paired _ web_labels_ok) in Hi.
  destruct (labels_canonical _ web_labels_ok (ns_key i) Hi (HasPrefix_app _ _)) as (j & Hj & Hij).
  unfold web_labels in Hi. rewrite !lookup_insert_is_Some in Hi.
  destruct Hi as [He|[_ [He|[_ [He|[_ [He|[_ He]]]]]]]]; try discriminate He.
  - apply ns_key_inj in He. congruence.
  - by apply eq_sym, ns_name_neq in He.
  - apply lookup_singleton_is_Some in He. discriminate He.
Qed.

Definition db_labels : gmap string string := (request_labels web_labels "p1" "c1" "db" "prod" "g").1.

Lemma request_registers_service_witness :
  service_labels_ok db_labels ∧
  parseServicesFromLabels (Some db_labels) = parseServicesFromLabels (Some web_labels) ++ [mkSvc "prod" "db"].
Proof.
  destruct (request_registers_service web_labels "p1" "c1" "db" "prod" "g") as (Hok & Hp & _).
  - exact web_labels_ok.
  - exact web_labels_small.
  - reflexivity.
  - split; [exact Hok|]. etransitivity; [exact Hp|]. vm_compute. reflexivity.
Defined.

Definition web_release : FIPReleaseRequest := mkFIPReleaseRequest "c1" "p1" "default" "web" "" "".

Lemma release_unregisters_service_witness :
  service_labels_ok (release_labels web_release web_labels) ∧
  (∃ l1 l2, parseServicesFromLabels (Some web_labels) = l1 ++ mkSvc "default" "web" :: l2 ∧
            parseServicesFromLabels (Some (release_labels web_release web_labels)) = l1 ++ l2) ∧
  release_labels web_release web_labels !! clusterNameLabel = None.
Proof.
  destruct (release_unregisters_service web_release web_labels) as (Hok & Hp & Hc & _).
  - exact web_labels_ok.
  - reflexivity.
  - vm_compute. left.
  - split; [exact Hok|]. split; [exact Hp|]. etransitivity; [exact Hc|]. vm_compute. reflexivity.
Defined.

(** ** Requests *)

Definition fip_in (name ip : string) (labels : gmap string string) (assigned : option AssignedInfo) : FloatingIP :=
  mkFIP (mkMeta name "ns" (Some labels) None [] "1" 0 None) (mkFIPSpec (Some ip) "pool")
    (mkFIPStatus ip "Allocated" assigned []).

Definition free_fip : FloatingIP := fip_in "a" "10.0.0.4" {[projectNameLabel := "p1"]} None.

Definition web_request (group : string) : FIPRequest :=
  mkFIPRequest "secret" "c1" "p1" "pool" "default" "web" "" group.

Section Mem.
#[local] Existing Instance demo_kube.
#[local] Existing Instance mem_retry_spec.

(** The free floating IP of the project is claimed. *)
Definition run_request : option (Reply FIPResponse) * World Mem :=
  serve_request 3 (web_request "") (world (demo_cluster free_fip []) New).

Lemma request_claims_safely_witness :
  (∃ resp, run_request.1 = Some (JSONOk resp) ∧ rs_IPAddress resp = "10.0.0.4") ∧
  (∃ l, events run_request.2 = l ++ [] ∧
     (claims_ok (claims_for (web_request "")) l ∨ cleaned_up (claims_for (web_request "")) l)).
Proof.
  split; [vm_compute; eauto|].
  destruct (request_claims_safely 3 (web_request "") (world (demo_cluster free_fip []) New) run_request.1 run_request.2)
    as [Hl _]; [unfold run_request; by destruct (serve_request _ _ _) | exact Hl].
Defined.

Definition run_watch : option (res FloatingIP) * World Mem :=
  WatchFloatingIP 3 free_fip (world (demo_cluster free_fip []) New).

Lemma WatchFloatingIP_correct_witness :
  (∃ l, events run_watch.2 = l ++ [] ∧ (run_watch.1 = None → (3 <= checks l)%nat)) ∧
  ∃ f, run_watch.1 = Some (Ok f) ∧ st_IPAddr (fip_Status f) ≠ "".
Proof.
  destruct (WatchFloatingIP_correct 3 free_fip (world (demo_cluster free_fip []) New) run_watch.1 run_watch.2)
    as [Hl Hf]; [unfold run_watch; by destruct (WatchFloatingIP _ _ _)|].
  split; [exact Hl|]. eexists. split; [vm_compute; reflexivity|]. eapply Hf. vm_compute. reflexivity.
Defined.

Lemma repeated_request_reuses_witness :
  holds_service (web_request "") (claimLabels (web_request "") (mkProject "p1" "ns") free_fip) = true ∧
  ∃ f, (obtain (mkProject "p1" "ns") (web_request "") run_request.2).1 = Ok (f, false).
Proof.
  destruct (repeated_request_reuses (web_request "") (mkProject "p1" "ns") run_request.2 eq_refl) as (Hc & _ & Hr).
  split.
  - apply Hc. split; try (vm_compute; reflexivity). by left.
  - edestruct Hr as (f & Hf & _); [vm_compute; reflexivity | vm_compute; left | vm_compute; reflexivity |].
    exists f. rewrite Hf. reflexivity.
Defined.

(** A client of project [p2] deletes a floating IP of project [p1], which lives in
    the same namespace. *)
Example delete_crosses_projects :
  let '(reply, w) := FIPDeleteHandler (Ok (mkFIPDeleteRequest "p2" "10.0.0.4"))
                       (world (demo_cluster free_fip []) New) in
  reply = JSONOk (mkStatusResponse "deleted" "Floating IP deleted successfully")
  ∧ m_fips (kube w) !! "ns/a" = None.
Proof. vm_compute. done. Qed.
End Mem.

(** ** A race for the address of a group *)

(** While the request of cluster [c1] for group [g] is on its way, cluster [c1]
    releases the address and [c2] claims it: the list the request reads is
    out of date when it updates the object. *)
Definition grouped (cluster : string) : FloatingIP :=
  fip_in "a" "10.0.0.4" (<[clusterNameLabel := cluster]> (<[floatingipGroupLabel := "g"]> {[projectNameLabel := "p1"]}))
    (Some (mkAssigned cluster "p1" "g" "key" [])).

Definition race_kube : KubeAPI (Mem * nat) := {|
  exec := λ R c s, let '(r, m) := mem_exec c s.1 in (r, (m, S s.2));
  others := λ s a, ((if bool_decide (s.2 = 3%nat) then set_m_fips s.1 {["ns/a" := grouped "c2"]} else s.1, s.2), a);
  Now := λ s, (m_clock s.1, s);
  rand_Int := λ max s, (Some 0, s);
  SplitMetaNamespaceKey := split_key;
  RetryOnConflict := λ A, mem_retry 4
|}.

Example group_claim_overwrites :
  let w := (@obtain _ race_kube _ (mkProject "p1" "ns") (web_request "g")
             (mkWorld (demo_cluster (grouped "c1") [], 1%nat) New ∅ [])).2 in
  (λ f, fip_label f clusterNameLabel) <$> (m_fips (kube w).1 !! "ns/a") = Some "c1"
  ∧ Exists (λ ev, match ev_call ev in Call T return res T → Prop with
                  | GetFIP _ _ => λ r, match r with Ok f => fip_label f clusterNameLabel = "c2" | _ => False end
                  | _ => λ _, False end (ev_result ev)) (events w).
Proof. vm_compute. split; [reflexivity|]. right. left. reflexivity. Qed.

(** The list shows a floating IP without an assignment to every cluster. *)
Example list_shows_unassigned :
  let labels := <[name_key 0 := "web"]> (<[ns_key 0 := "default"]> {[clusterNameLabel := "c1"; projectNameLabel := "p1"]}) in
  list_item (mkFIPListRequest "secret" "c2" "p1" "pool") (fip_in "a" "10.0.0.4" labels None)
    = [mkFIPListEntry "p1" "c1" "pool" "default" "web" "10.0.0.4" ""].
Proof. vm_compute. reflexivity. Qed.
