(* ===== verification/Middleware.v ===== *)
(** The API server's middleware, [apiserver/internal/middleware/middleware.go]:
    bearer tokens, the authorisation of a project, the cap on the size of a
    body, and rate limits per client.

    The JWT library and the token bucket of [golang.org/x/time/rate] are not
    part of the program: they are the interfaces [JWT] and [Bucket]. *)

From Stdlib Require Import Ascii.
From Stdlib Require QArith_base.
From S2P Require Import Prelude GoStd NetIP NetIPFacts Ipam IpamSpec IpamCorrect ApiTypes Kube ServiceLabels FipController ApiServer.

(** ** Rate limits *)

Definition limiterIdleTTL : time := 600 * 10 ^ 9.
Definition limiterSweepInterval : time := 60 * 10 ^ 9.
Definition limiterMaxEntries : Z := 10000.

(** [rate.NewLimiter(limit, burst)] and [Allow] at a time. *)
Class Bucket (L : Type) := {
  NewLimiter : QArith_base.Q → Z → L;
  Allow : time → L → bool * L
}.

Record limiterEntry (L : Type) := mkEntry { limiter : L; lastSeen : time }.
Arguments mkEntry {L}.
Arguments limiter {L}.
Arguments lastSeen {L}.

Record limiterStore (L : Type) := mkStore {
  entries : gmap string (limiterEntry L);
  limit : QArith_base.Q;
  burst_ : Z;
  lastSweep : time
}.
Arguments mkStore {L}.
Arguments entries {L}.
Arguments limit {L}.
Arguments burst_ {L}.
Arguments lastSweep {L}.

(** The zero [time.Time], in nanoseconds since the epoch. *)
Definition zero_time : time := - 62135596800 * 10 ^ 9.

Section Limiter.
Context {L : Type} `{HBucket : Bucket L, HRange : MapRange}.

Definition newLimiterStore (requestsPerSecond : QArith_base.Q) (burst : Z) : limiterStore L :=
  mkStore ∅ requestsPerSecond burst zero_time.

Definition set_entries (s : limiterStore L) (m : gmap string (limiterEntry L)) : limiterStore L :=
  mkStore m (limit s) (burst_ s) (lastSweep s).

Definition sweepLocked (s : limiterStore L) (now : time) : limiterStore L :=
  mkStore (filter (λ ke, now - lastSeen ke.2 <= limiterIdleTTL) (entries s)) (limit s) (burst_ s) now.

Definition older (a b : string * time) : Prop := a.2 <= b.2.
#[export] Instance older_dec a b : Decision (older a b).
Proof. unfold older. apply _. Defined.

(** The keys by the time they were last seen. *)
Definition ages (s : limiterStore L) : list (string * time) :=
  merge_sort older ((λ ke, (ke.1, lastSeen ke.2)) <$> range (entries s)).

Definition evictOldestLocked (s : limiterStore L) : limiterStore L :=
  let eighth := Z.of_nat (size (entries s)) / 8 in
  let target := if eighth <? 1 then 1 else eighth in
  set_entries s (foldl (λ m key, delete key m) (entries s) (take (Z.to_nat target) (ages s)).*1).

(** The entry of the key, after the sweep that may be due and the eviction that
    a new entry may need. *)
Definition find_entry (s : limiterStore L) (key : string) (now : time) : limiterStore L * L :=
  let s := if limiterSweepInterval <=? now - lastSweep s then sweepLocked s now else s in
  match entries s !! key with
  | Some entry => (s, limiter entry)
  | None =>
      (if limiterMaxEntries <=? Z.of_nat (size (entries s)) then evictOldestLocked s else s,
       NewLimiter (limit s) (burst_ s))
  end.

Definition allow_request (s : limiterStore L) (key : string) (now : time) : bool * limiterStore L :=
  let '(s, lim) := find_entry s key now in
  let '(ok, lim') := Allow now lim in
  (ok, set_entries s (<[key := mkEntry lim' now]> (entries s))).
End Limiter.

(** ** Isolation of the clients *)

Section Isolation.
Context {L : Type} `{HBucket : Bucket L, HRange : MapRange}.

#[local] Instance older_total : stdpp.base.Total older.
Proof. intros a b. unfold older. lia. Qed.
#[local] Instance older_trans : Transitive older.
Proof. intros a b c. unfold older. lia. Qed.

Lemma elem_of_ages (s : limiterStore L) k t :
  (k, t) ∈ ages s ↔ ∃ e, entries s !! k = Some e ∧ lastSeen e = t.
Proof.
  unfold ages. rewrite (merge_sort_Permutation older), list_elem_of_fmap. split.
  - intros ([k' e] & He & Hin%elem_of_range). simplify_eq/=. eauto.
  - intros (e & He & <-). exists (k, e). split; [done | by apply elem_of_range].
Qed.

Lemma foldl_delete_lookup (keys : list string) (k : string) : ∀ m : gmap string (limiterEntry L),
  foldl (λ m key, delete key m) m keys !! k = if decide (k ∈ keys) then None else m !! k.
Proof.
  induction keys as [|key keys IH]; intros m; cbn [foldl]; [done|].
  rewrite IH. destruct (decide (k = key)) as [->|Hne].
  - rewrite lookup_delete_eq. repeat case_decide; set_solver.
  - rewrite lookup_delete_ne by done. repeat case_decide; set_solver.
Qed.

Lemma sorted_take_drop (l : list (string * time)) n a b :
  StronglySorted older l → a ∈ take n l → b ∈ drop n l → older a b.
Proof.
  intros Hs. revert n. induction Hs as [|x l Hs IH Hx]; intros [|n] Ha Hb; simpl in *;
    try by apply not_elem_of_nil in Ha.
  apply elem_of_cons in Ha as [->|Ha]; [|by eapply IH].
  rewrite Forall_forall in Hx. apply Hx. rewrite <- (take_drop n l). apply elem_of_app. by right.
Qed.

(** An evicted entry is no younger than one that stays. *)
Lemma evict_lookup (s : limiterStore L) k :
  entries (evictOldestLocked s) !! k = entries s !! k ∨
  entries (evictOldestLocked s) !! k = None ∧ ∃ e, entries s !! k = Some e ∧
    ∀ k' e', entries (evictOldestLocked s) !! k' = Some e' → lastSeen e <= lastSeen e'.
Proof.
  unfold evictOldestLocked. cbn [entries set_entries]. set (n := Z.to_nat _).
  rewrite foldl_delete_lookup. case_decide as Hk; [|by left]. right. split; [done|].
  apply list_elem_of_fmap in Hk as ([k1 t] & -> & Hin). cbn [fst].
  assert ((k1, t) ∈ ages s) as (e & He & <-)%elem_of_ages.
  { rewrite <- (take_drop n (ages s)). apply elem_of_app. by left. }
  exists e. split; [done|]. intros k' e'. rewrite foldl_delete_lookup. case_decide as Hk'; [done|]. intros He'.
  apply (sorted_take_drop (ages s) n (k1, lastSeen e) (k', lastSeen e')); [|done|].
  - apply StronglySorted_merge_sort; apply _.
  - assert ((k', lastSeen e') ∈ ages s) as Ha by (apply elem_of_ages; eauto).
    rewrite <- (take_drop n (ages s)) in Ha. apply elem_of_app in Ha as [Ha|Ha]; [|done].
    exfalso. apply Hk'. apply list_elem_of_fmap. by exists (k', lastSeen e').
Qed.

(** An eviction makes room. *)
Lemma evict_size (s : limiterStore L) :
  (0 < size (entries s))%nat → (size (entries (evictOldestLocked s)) < size (entries s))%nat.
Proof.
  intros Hpos. unfold evictOldestLocked. cbn [entries set_entries]. set (n := Z.to_nat _).
  assert (0 < n)%nat as Hn.
  { unfold n. destruct (Z.ltb_spec (Z.of_nat (size (entries s)) / 8) 1); lia. }
  assert (length (ages s) = size (entries s)) as Hlen.
  { unfold ages. by rewrite (merge_sort_Permutation older), length_fmap, length_range. }
  destruct (ages s) as [|[k t] l] eqn:Hages; [simpl in Hlen; lia|].
  destruct n as [|n]; [lia|]. cbn [take fmap list_fmap foldl fst].
  assert ((k, t) ∈ ages s) as (e & He & _)%elem_of_ages by (rewrite Hages; by left).
  assert (∀ keys (m : gmap string (limiterEntry L)),
    (size (foldl (λ m key, delete key m) m keys) <= size m)%nat) as Hle.
  { induction keys as [|key keys IH]; intros m; simpl; [done|]. specialize (IH (delete key m)).
    pose proof (map_size_delete key m) as Hd. destruct (m !! key); simpl in Hd; lia. }
  specialize (Hle (take n l).*1 (delete k (entries s))).
  pose proof (map_size_delete k (entries s)) as Hd. rewrite He in Hd. unfold fmap in *. simpl in Hd. lia.
Qed.

Lemma sweep_lookup (s : limiterStore L) now k :
  entries (sweepLocked s now) !! k =
    match entries s !! k with
    | Some e => if decide (now - lastSeen e <= limiterIdleTTL) then Some e else None
    | None => None
    end.
Proof.
  unfold sweepLocked. cbn [entries]. destruct (entries s !! k) as [e|] eqn:He.
  - case_decide as Hd.
    + by apply map_lookup_filter_Some.
    + apply map_lookup_filter_None. right. intros e' He'. simplify_eq. done.
  - apply map_lookup_filter_None. by left.
Qed.

(** The bucket that a request of [key] finds: its own, unless it was forgotten. *)
Definition own_bucket (s : limiterStore L) (key : string) (now : time) : L :=
  match entries s !! key with
  | Some e => if (limiterSweepInterval <=? now - lastSweep s) && (limiterIdleTTL <? now - lastSeen e)
              then NewLimiter (limit s) (burst_ s) else limiter e
  | None => NewLimiter (limit s) (burst_ s)
  end.

(** Why the entry of another key may be gone. *)
Definition forgotten (s s' : limiterStore L) (key : string) (now : time) (e : limiterEntry L) : Prop :=
  limiterIdleTTL < now - lastSeen e ∨
  ∀ k' e', k' ≠ key → entries s' !! k' = Some e' → lastSeen e <= lastSeen e'.

(** whether a request may proceed depends on the bucket of its own key and on
    nothing else in the store; it takes a token from no other bucket, and makes
    the store forget only buckets that have been idle for long or, at the cap,
    that no remaining one is older than.  The store never exceeds its cap. *)
Theorem allow_isolated (s : limiterStore L) key now :
  let '(ok, s') := allow_request s key now in
  ok = (Allow now (own_bucket s key now)).1 ∧
  entries s' !! key = Some (mkEntry (Allow now (own_bucket s key now)).2 now) ∧
  (∀ k, k ≠ key → entries s' !! k = entries s !! k ∨
     entries s' !! k = None ∧ ∃ e, entries s !! k = Some e ∧ forgotten s s' key now e) ∧
  (Z.of_nat (size (entries s)) <= limiterMaxEntries → Z.of_nat (size (entries s')) <= limiterMaxEntries) ∧
  limit s' = limit s ∧ burst_ s' = burst_ s.
Proof.
  unfold allow_request, find_entry.
  set (s1 := if limiterSweepInterval <=? now - lastSweep s then sweepLocked s now else s).
  assert (limit s1 = limit s ∧ burst_ s1 = burst_ s) as [Hlim Hburst] by (unfold s1; by case_match).
  assert (∀ k, entries s1 !! k = entries s !! k ∨ entries s1 !! k = None ∧ ∃ e, entries s !! k = Some e ∧
    limiterIdleTTL < now - lastSeen e ∧ limiterSweepInterval <= now - lastSweep s) as Hs1.
  { intros k. unfold s1. destruct (Z.leb_spec limiterSweepInterval (now - lastSweep s)); [|by left].
    rewrite sweep_lookup. destruct (entries s !! k) as [e|]; [|by left]. case_decide; [by left | right].
    split; [done|]. exists e. repeat split; [lia|done]. }
  assert (Z.of_nat (size (entries s)) <= limiterMaxEntries → Z.of_nat (size (entries s1)) <= limiterMaxEntries) as Hsize.
  { unfold s1. case_match; [|done]. intros Hs. etrans; [|exact Hs]. apply inj_le, map_size_filter. }
  assert (own_bucket s key now = match entries s1 !! key with
    | Some e => limiter e | None => NewLimiter (limit s) (burst_ s) end) as Hown.
  { unfold own_bucket, s1. destruct (limiterSweepInterval <=? now - lastSweep s); cbn [andb]; [|done].
    rewrite sweep_lookup. destruct (entries s !! key) as [e|]; [|done].
    destruct (Z.ltb_spec limiterIdleTTL (now - lastSeen e)); case_decide; (done || lia). }
  rewrite Hown. destruct (entries s1 !! key) as [e|] eqn:Hkey.
  - destruct (Allow now (limiter e)) as [ok lim'] eqn:Ha. cbn [entries set_entries fst snd].
    split; [done|]. split; [apply lookup_insert_eq|]. split; [|split; [|done]].
    + intros k Hk. rewrite lookup_insert_ne by done. destruct (Hs1 k) as [?|(Hn & e' & He' & Hi & _)]; [by left|].
      right. split; [done|]. exists e'. split; [done | by left].
    + intros Hs. specialize (Hsize Hs). rewrite map_size_insert_Some by by eexists. done.
  - rewrite Hlim, Hburst. set (s2 := if limiterMaxEntries <=? Z.of_nat (size (entries s1)) then _ else _).
    assert (limit s2 = limit s ∧ burst_ s2 = burst_ s) as [Hlim2 Hburst2] by (unfold s2; by case_match).
    destruct (Allow now _) as [ok lim'] eqn:Ha. cbn [entries set_entries limit burst_ fst snd].
    split; [done|]. split; [apply lookup_insert_eq|]. split; [|split; [|done]].
    + intros k Hk. rewrite lookup_insert_ne by done.
      assert (entries s2 !! k = entries s1 !! k ∨ entries s2 !! k = None ∧ ∃ e, entries s1 !! k = Some e ∧
        ∀ k' e', entries s2 !! k' = Some e' → lastSeen e <= lastSeen e') as H2.
      { unfold s2. case_match; [apply evict_lookup | by left]. }
      destruct H2 as [H2|(Hn & e & He & Hold)].
      * rewrite H2. destruct (Hs1 k) as [?|(Hn & e' & He' & Hi & _)]; [by left|].
        right. split; [done|]. exists e'. split; [done | by left].
      * right. split; [done|]. exists e. split.
        { by destruct (Hs1 k) as [<-|(Hn' & _)]; [|congruence]. }
        right. intros k' e' Hk' He'. cbn [entries set_entries] in He'. rewrite lookup_insert_ne in He' by done. by eapply Hold.
    + intros Hs. specialize (Hsize Hs).
      assert (Z.of_nat (size (entries s2)) < limiterMaxEntries) as Hroom.
      { unfold s2. destruct (Z.leb_spec limiterMaxEntries (Z.of_nat (size (entries s1)))); [|done].
        pose proof (evict_size s1). unfold limiterMaxEntries in *. lia. }
      pose proof (map_size_insert key (mkEntry lim' now) (entries s2)) as Hi.
      destruct (entries s2 !! key); simpl in Hi; lia.
Qed.
End Isolation.

(** ** The bucket of a request *)

(** [net.SplitHostPort], the host. *)
Definition SplitHost (hostport : string) : option string :=
  match LastIndexByte hostport ":" with
  | None => None
  | Some i =>
      match hostport with
      | String "[" _ =>
          match IndexByte hostport "]" with
          | None => None
          | Some close =>
              if negb (S close =? i)%nat then None
              else if is_some (IndexByte (str_drop 1 hostport) "[") then None
              else if is_some (IndexByte (str_drop (S close) hostport) "]") then None
              else Some (str_drop 1 (str_take close hostport))
          end
      | _ =>
          let host := str_take i hostport in
          if is_some (IndexByte host ":") then None
          else if is_some (IndexByte hostport "[") then None
          else if is_some (IndexByte hostport "]") then None
          else Some host
      end
  end.

Definition RemoteIPRateLimitKey (remoteAddr : string) : string :=
  match SplitHost remoteAddr with
  | Some host => "ip:" +:+ host
  | None => "ip:" +:+ remoteAddr
  end.

(** [clientID] is the value the context carries, if any. *)
Definition ClientIDRateLimitKey (clientID : option string) (remoteAddr : string) : string :=
  match clientID with
  | Some id => if bool_decide (id = "") then RemoteIPRateLimitKey remoteAddr else "client:" +:+ id
  | None => RemoteIPRateLimitKey remoteAddr
  end.

Definition GlobalRateLimitKey : string := "global".

(** ** Tokens *)

(** A parsed token: whether its method is RSA, whether it is valid, and the
    client ID, if its claims are [JWTClaims]. *)
Record Token := mkToken { tok_RSA : bool; tok_Valid : bool; tok_ClientID : option string }.

(** [jwt.ParseWithClaims], which asks for the key to check the token with. *)
Class JWT := { ParseWithClaims : string → (Token → res unit) → res Token }.

(** [strings.Split] by a space. *)
Fixpoint split_spaces (s : string) : list string :=
  match s with
  | EmptyString => [""]
  | String c s =>
      if decide (c = " "%char) then "" :: split_spaces s
      else match split_spaces s with
           | part :: parts => String c part :: parts
           | [] => [String c ""]
           end
  end.

Section Auth.
Context `{HJWT : JWT}.

Definition ValidateJWT (tokenString : string) : res Token :=
  match ParseWithClaims tokenString
          (λ token, if tok_RSA token then Ok tt else Err (errorf "unexpected signing method")) with
  | Err err => Err (wrapf "failed to parse token" err)
  | Ok token => Ok token
  end.

(** The client ID with which the request goes on, or the reply. *)
Definition AuthMiddleware {B} (authHeader : string) : Reply B + string :=
  if bool_decide (authHeader = "") then inl (JSONError 401 "Authorization header is required")
  else match split_spaces authHeader with
  | [scheme; tokenString] =>
      if negb (bool_decide (scheme = "Bearer"))
      then inl (JSONError 401 "Authorization header format must be Bearer {token}")
      else match ValidateJWT tokenString with
      | Err _ => inl (JSONError 401 "Invalid token")
      | Ok token =>
          if negb (tok_Valid token) then inl (JSONError 401 "Invalid token")
          else match tok_ClientID token with
          | None => inl (JSONError 401 "Invalid token claims")
          | Some clientID => inr clientID
          end
      end
  | _ => inl (JSONError 401 "Authorization header format must be Bearer {token}")
  end.
End Auth.

(** ** The protected routes *)

(** What reading the body gives: its project and client secret, a body that is
    no JSON, one over the limit, or a failure. *)
Inductive BodyRead :=
| BodyJSON (project clientSecret : string)
| BodyMalformed
| BodyTooLarge
| BodyFailed.

(** A request as the middleware sees it. *)
Record Incoming := mkIncoming {
  in_ContentLength : Z;
  in_Authorization : string;
  in_RemoteAddr : string;
  in_Body : BodyRead
}.

(** [BodyLimitMiddleware]: a declared length over the limit. *)
Definition BodyLimitMiddleware {B} (maxBytes : Z) (r : Incoming) : option (Reply B) :=
  if maxBytes <? in_ContentLength r then Some (JSONError 413 "request body too large") else None.

Section Protected.
Context {S : Type} `{HKube : KubeAPI S, HJWT : JWT, HRange : MapRange} {L : Type} `{HBucket : Bucket L}.
#[local] Open Scope go_scope.

(** [AuthorizeMiddleware]: [None] lets the request through. *)
Definition AuthorizeMiddleware {B} (body : BodyRead) : M (World S) (option (Reply B)) :=
  match body with
  | BodyTooLarge => ret (Some (JSONError 413 "request body too large"))
  | BodyFailed => ret (Some (JSONError 500 "Failed to read request body"))
  | BodyMalformed => ret (Some (JSONError 400 "Invalid request body"))
  | BodyJSON project clientSecret =>
      let! ok := ValidateClientRequest project clientSecret in
      if ok then ret None else ret (Some (JSONError 403 "Client not authorized"))
  end.

(** [RateLimitMiddleware] on a store. *)
Definition rateLimitHandler {B} (s : limiterStore L) (key : string) (now : time)
    : option (Reply B) * limiterStore L :=
  let '(ok, s) := allow_request s key now in
  ((if ok then None else Some (JSONError 429 "rate limit exceeded")), s).

(** The routes under [/v1/fip], as [cmd/api-server/main.go] stacks them: the
    aggregate limit, the size of the body, the token, the client's limit, the
    project.  [None] means that the handler runs. *)
Definition protected_route {B} (maxBytes : Z) (now : time) (global client : limiterStore L) (r : Incoming)
    : M (World S) (option (Reply B) * limiterStore L * limiterStore L) :=
  let '(limited, global) := rateLimitHandler global GlobalRateLimitKey now in
  match limited with
  | Some reply => ret (Some reply, global, client)
  | None =>
  match BodyLimitMiddleware maxBytes r with
  | Some reply => ret (Some reply, global, client)
  | None =>
  match AuthMiddleware (in_Authorization r) with
  | inl reply => ret (Some reply, global, client)
  | inr clientID =>
  let '(limited, client) :=
    rateLimitHandler client (ClientIDRateLimitKey (Some clientID) (in_RemoteAddr r)) now in
  match limited with
  | Some reply => ret (Some reply, global, client)
  | None =>
      let! denied := AuthorizeMiddleware (in_Body r) in
      ret (denied, global, client)
  end end end end.
End Protected.

(** ** Who reaches a handler *)

Section Guard.
Context {S : Type} `{HKube : KubeAPI S, HJWT : JWT, HRange : MapRange} {L : Type} `{HBucket : Bucket L}.

(** [ParseWithClaims] returns a token only if the key function accepted it. *)
Hypothesis ParseWithClaims_key : ∀ t keyfunc token,
  ParseWithClaims t keyfunc = Ok token → keyfunc token = Ok tt.

(** The token of the request, signed with the server's key. *)
Definition authenticated (header clientID : string) : Prop :=
  ∃ tokenString token, split_spaces header = ["Bearer"; tokenString]
    ∧ ValidateJWT tokenString = Ok token ∧ tok_RSA token = true ∧ tok_Valid token = true
    ∧ tok_ClientID token = Some clientID.

(** The secret that the server read for the project. *)
Definition read_secret (project clientSecret : string) (ev : Event) : Prop :=
  match ev_call ev in Call T return res T → Prop with
  | GetSecret _ name => λ r, name = "rancher-fip-config-" +:+ project ∧
      ∃ data, r = Ok data ∧ data !! "project" = Some project ∧ data !! "clientSecret" = Some clientSecret
  | _ => λ _, False
  end (ev_result ev).

Lemma AuthMiddleware_inr {B} header clientID :
  AuthMiddleware (B := B) header = inr clientID → authenticated header clientID.
Proof.
  unfold AuthMiddleware. intros Ha. case_bool_decide; [done|].
  destruct (split_spaces header) as [|scheme [|tokenString [|? ?]]] eqn:Hs; try done.
  case_bool_decide; [|done]. subst scheme. cbn [negb] in Ha.
  destruct (ValidateJWT tokenString) as [token|] eqn:Hv; [|done].
  destruct (tok_Valid token) eqn:Hval; [|done]. cbn [negb] in Ha.
  destruct (tok_ClientID token) as [id|] eqn:Hid; [|done]. simplify_eq.
  exists tokenString, token. repeat split; try done. unfold ValidateJWT in Hv.
  destruct (ParseWithClaims tokenString _) as [t|] eqn:Hp; [|done]. simplify_eq.
  apply ParseWithClaims_key in Hp. by destruct (tok_RSA token).
Qed.

Lemma ValidateClientRequest_true project clientSecret (w w' : World S) :
  ValidateClientRequest project clientSecret w = (true, w') →
  Exists (read_secret project clientSecret) (events w').
Proof.
  unfold ValidateClientRequest, find_project, bind. intros Hv.
  destruct (api ListProjects w) as [[[items|]|e] w1]; cbv [ret] in Hv; [|by simplify_eq..].
  destruct (find _ items) as [p|] eqn:Hf; [|by simplify_eq]. apply find_some in Hf as [_ Hp]. bool_hyps. cbv [ret] in Hv.
  unfold api in Hv. destruct (interfere w1) as [u w2]. simpl in Hv. destruct (exec _ _) as [[data|e] k]; [|by simplify_eq].
  destruct (data !! "project") as [id|] eqn:Hd; [|by simplify_eq].
  destruct (bool_decide (id = proj_Name p)) eqn:Hid; cbn [negb] in Hv; [|by simplify_eq].
  destruct (data !! "clientSecret") as [cs|] eqn:Hc; simplify_eq. bool_hyps. subst.
  apply Exists_cons_hd. split; [done|]. exists data. done.
Qed.

(** C22: a request reaches a handler of the API only with a valid token signed by
    the RSA method, within both rate limits and the size limit, and with a body
    whose project and client secret are those of the secret that the server has
    just read for that project. *)
Theorem protected_route_guarded {B} maxBytes now (global client : limiterStore L) r (w : World S)
    global' client' w' :
  protected_route (B := B) maxBytes now global client r w = ((None, global', client'), w') →
  in_ContentLength r <= maxBytes ∧
  (allow_request global GlobalRateLimitKey now).1 = true ∧
  (∃ clientID, authenticated (in_Authorization r) clientID ∧
     (allow_request client (ClientIDRateLimitKey (Some clientID) (in_RemoteAddr r)) now).1 = true) ∧
  ∃ project clientSecret, in_Body r = BodyJSON project clientSecret ∧
    Exists (read_secret project clientSecret) (events w').
Proof.
  unfold protected_route, rateLimitHandler, BodyLimitMiddleware. intros Hr.
  destruct (allow_request global _ now) as [[] g1]; [|done].
  destruct (Z.ltb_spec maxBytes (in_ContentLength r)); [done|].
  destruct (AuthMiddleware _) as [?|clientID] eqn:Hauth; [done|].
  destruct (allow_request client _ now) as [[] c1] eqn:Hc; [|done].
  split; [done|]. split; [done|]. split.
  { exists clientID. rewrite Hc. split; [by eapply AuthMiddleware_inr | done]. }
  unfold bind, AuthorizeMiddleware in Hr. destruct (in_Body r) as [project clientSecret| | |]; try done.
  exists project, clientSecret. split; [done|]. unfold bind in Hr.
  destruct (ValidateClientRequest project clientSecret w) as [[] w1] eqn:Hv; cbv [ret] in Hr; simplify_eq.
  by eapply ValidateClientRequest_true.
Qed.
End Guard.
