(* ===== verification/ApiKeys.v ===== *)
(** The key of the API server, [apiserver/internal/auth/auth.go], and the tokens
    it signs with it, [TokenHandler] of [apiserver/internal/handlers].

    RSA and PEM are the class [RsaLib], the JWT library's side of signing the class
    [JWTSigner]; a private key is known by a name. *)

From Stdlib Require Import Ascii.
From S2P Require Import Prelude Prog Threads GoStd NetIP NetIPFacts Ipam IpamSpec IpamCorrect ApiTypes Kube ServiceLabels FipController ApiServer Middleware.

Inductive KeyCall : Type → Type :=
| KSecretGet (ns name : string) : KeyCall (res (gomap string))                (* its data *)
| KSecretCreate (ns name : string) (data : gmap string string) : KeyCall (res unit)
| RsaGenerateKey (bits : Z) : KeyCall (res string)
| KeyNow : KeyCall time.

Class RsaLib := {
  ParseRSAPrivateKeyFromPEM : string → res string;
  pem_of_key : string → string                          (* PKCS #1 in a PEM block *)
}.

(** The claims of a token. *)
Record JWTClaims := mkClaims { cl_IssuedAt : time; cl_ExpiresAt : time; cl_ClientID : string }.

Class JWTSigner := {
  NewNumericDate : time → time;
  SignedString : JWTClaims → string → res string        (* with RS256 and a key *)
}.

Record AuthTokenResponse := mkTokenResponse { tr_Token : string; tr_ExpiresAt : time }.

Section Keys.
Context `{HRsa : RsaLib}.
#[local] Open Scope prog_scope.

Definition GetPrivateKey (ns secretName dataKey : string) : Prog KeyCall (res string) :=
  try! data := call (KSecretGet ns secretName) else err =>
    Ret (Err (wrapf ("failed to get secret " +:+ ns +:+ "/" +:+ secretName) err)) in
  Ret (match mlookup data dataKey with
       | None => Err (errorf ("secret " +:+ ns +:+ "/" +:+ secretName +:+ " does not contain key " +:+ dataKey))
       | Some bytes =>
           match ParseRSAPrivateKeyFromPEM bytes with
           | Err err => Err (wrapf ("failed to parse private key from secret " +:+ ns +:+ "/" +:+ secretName) err)
           | Ok privateKey => Ok privateKey
           end
       end).

Definition GeneratePrivateKey : Prog KeyCall (res string) :=
  try! privateKey := call (RsaGenerateKey 2048) else err =>
    Ret (Err (wrapf "failed to generate private key" err)) in
  Ret (Ok privateKey).

Definition SavePrivateKey (ns secretName privateKey : string) : Prog KeyCall (res unit) :=
  try! _c := call (KSecretCreate ns secretName {["key" := pem_of_key privateKey]}) else err =>
    Ret (Err (wrapf ("failed to create private key secret " +:+ ns +:+ "/" +:+ secretName) err)) in
  Ret (Ok tt).

(** The reading that failed decides; a create that another replica was faster with
    is followed by a second reading. *)
Definition make_key (ns secretName : string) : Prog KeyCall (res string) :=
  try! privateKey := GeneratePrivateKey else err => Ret (Err err) in
  try! _s := SavePrivateKey ns secretName privateKey else err =>
    (if negb (IsAlreadyExists err) then Ret (Err err) else GetPrivateKey ns secretName "key") in
  Ret (Ok privateKey).

Definition EnsurePrivateKey (ns secretName : string) (generate : bool) : Prog KeyCall (res string) :=
  try! privateKey := GetPrivateKey ns secretName "key" else err =>
    (if negb (IsNotFound err) then Ret (Err err)
     else if negb generate
     then Ret (Err (errorf ("private key not found in secret " +:+ ns +:+ "/" +:+ secretName +:+ " and key generation is disabled")))
     else make_key ns secretName) in
  Ret (Ok privateKey).
End Keys.

Section Tokens.
Context `{HSigner : JWTSigner}.
#[local] Open Scope prog_scope.

Definition GenerateJWT (privateKey clientID : string) (expiration : time) : Prog KeyCall (res (string * time)) :=
  let! now := call KeyNow in
  let expiresAt := now + expiration in
  let! issued := call KeyNow in
  let claims := mkClaims (NewNumericDate issued) (NewNumericDate expiresAt) clientID in
  Ret (match SignedString claims privateKey with
       | Err err => Err (wrapf "failed to sign token" err)
       | Ok signedToken => Ok (signedToken, expiresAt)
       end).

Definition Hour : time := 3600 * 10 ^ 9.

(** [body] is the client ID that the body decodes to. *)
Definition TokenHandler (privateKey : string) (body : res string) : Prog KeyCall (Reply AuthTokenResponse) :=
  match body with
  | Err _ => Ret (JSONError 400 "Invalid request body")
  | Ok clientID =>
      if bool_decide (clientID = "") then Ret (JSONError 400 "clientID is required")
      else
        try! t := GenerateJWT privateKey clientID (1 * Hour) else _err =>
          Ret (JSONError 500 "Failed to generate token") in
        Ret (JSONOk (mkTokenResponse t.1 t.2))
  end.
End Tokens.

(** * What replicas and clients see *)

(** The key of the API server: replicas that start at the same time agree on it,
    and a token that one of them issues is accepted by the middleware. *)

(** ** The Secret *)

(** What the cluster answers about one Secret, which is there with its data or is
    not: a read gives what is there, a create succeeds once.  Unless the cluster is
    [reliable] a call may fail, and a create may fail although it was made. *)
Definition secret_answers (reliable : bool) (R : Type) (c : KeyCall R) : gomap string → R → gomap string → Prop :=
  match c in KeyCall R return gomap string → R → gomap string → Prop with
  | KSecretGet _ _ => λ s r s', s' = s ∧
      match r with
      | Ok data => s ≠ None ∧ data = s
      | Err e => if IsNotFound e then s = None else reliable = false
      end
  | KSecretCreate _ _ d => λ s r s',
      match r with
      | Ok _ => s = None ∧ s' = Some d
      | Err e => if IsAlreadyExists e then s ≠ None ∧ s' = s else reliable = false ∧ (s' = s ∨ s = None ∧ s' = Some d)
      end
  | RsaGenerateKey _ => λ s r s', s' = s ∧ (is_err r = true → reliable = false)
  | KeyNow => λ s _ s', s' = s
  end.

Section Replicas.
Context `{HRsa : RsaLib} (ns name : string).
Hypothesis parse_pem : ∀ k, ParseRSAPrivateKeyFromPEM (pem_of_key k) = Ok k.

(** The Secret holds the key. *)
Definition holds_key (k : string) (s : gomap string) : Prop :=
  ∃ bytes, mlookup s "key" = Some bytes ∧ ParseRSAPrivateKeyFromPEM bytes = Ok k.

Lemma holds_key_unique k1 k2 s : holds_key k1 s → holds_key k2 s → k1 = k2.
Proof. intros (b1 & H1 & P1) (b2 & H2 & P2). congruence. Qed.

Lemma holds_made k : holds_key k (Some {["key" := pem_of_key k]}).
Proof. exists (pem_of_key k). split; [apply lookup_singleton_eq | apply parse_pem]. Qed.

(** A replica creates nothing but a key. *)
Definition makes_keys (R : Type) (c : KeyCall R) : Prop :=
  match c with KSecretCreate _ _ d => ∃ k, d = {["key" := pem_of_key k]} | _ => True end.

(** A Secret that is there stays as it is; one that is made holds a key. *)
Definition kept (s s' : gomap string) : Prop := s' = s ∨ s = None ∧ ∃ k, holds_key k s'.

#[local] Instance kept_preorder : PreOrder kept.
Proof.
  split; [by left|]. intros s1 s2 s3 [-> | [-> [k Hk]]] [-> | [? [k' Hk']]]; [by left | right; eauto..].
Qed.

Lemma secret_answers_kept reliable R (c : KeyCall R) s r s' :
  makes_keys R c → secret_answers reliable R c s r s' → kept s s'.
Proof.
  unfold kept. destruct c; simpl; [intros _; destruct r; tauto | intros [k ->] | intros _; destruct r; tauto | tauto].
  pose proof (holds_made k). destruct r as [u|e]; [naive_solver|]. destruct (IsAlreadyExists e); naive_solver.
Qed.

Lemma holds_key_kept k s s' : holds_key k s → kept s s' → holds_key k s'.
Proof. intros Hk [-> | [-> _]]; [done|]. by destruct Hk as (? & ? & _). Qed.

Notation settled reliable := (settles (secret_answers reliable) makes_keys kept).

(** A replica ends with the key of the Secret; if nothing fails, it does. *)
Definition adopted (total : bool) (r : res string) (s : gomap string) : Prop :=
  match r with Ok k => holds_key k s | Err _ => total = false end.

Lemma adopted_lasting total : lasting kept (adopted total).
Proof. intros [k|e] s s'; [apply holds_key_kept | done]. Qed.

(** What a Secret may be at the start of a run that must succeed. *)
Definition sound (s : gomap string) : Prop := s = None ∨ ∃ k, holds_key k s.

Lemma sound_kept s s' : sound s → kept s s' → sound s'.
Proof. intros Hs [-> | [_ Hk]]; [done | by right]. Qed.

Section Replica.
Context (reliable total : bool) (Htotal : total = true → reliable = true).

Lemma not_total : reliable = false → total = false.
Proof. destruct total; [|done]. by rewrite Htotal. Qed.

(** Reading: what is missing is reported so. *)
Lemma auth_get_settles s : (total = true → sound s) →
  settled reliable (GetPrivateKey ns name "key")
    (λ r s', match r with Ok k => holds_key k s' | Err e => total = true → IsNotFound e = true ∧ s = None ∧ s' = None end) s.
Proof.
  intros Hs. unfold GetPrivateKey. simpl. split; [done|]. intros s1 [data|e] s2 Hk [-> Hr]; simpl.
  - destruct Hr as [Hn ->]. destruct (mlookup s1 "key") as [b|] eqn:Hb.
    + destruct (ParseRSAPrivateKeyFromPEM b) as [k|e] eqn:Hp; [by exists b|]. intros Ht.
      destruct (sound_kept _ _ (Hs Ht) Hk) as [? | (k & b' & Hb' & Hp')]; congruence.
    + intros Ht. destruct (sound_kept _ _ (Hs Ht) Hk) as [? | (k & b' & Hb' & Hp')]; congruence.
  - intros Ht. unfold IsNotFound in *. cbn. case_bool_decide; [|by rewrite (Htotal Ht) in Hr]. split; [done|].
    by destruct Hk as [<- | [? _]].
Qed.

Lemma make_settles s : (total = true → sound s) → settled reliable (make_key ns name) (adopted total) s.
Proof.
  intros Hs. unfold make_key, GeneratePrivateKey. simpl. split; [done|].
  intros s1 [k|e] s2 Hk1 [-> Hg]; [|by apply not_total, Hg].
  unfold SavePrivateKey. simpl. split; [by exists k|]. intros s3 [u|e] s4 Hk2 Hc; simpl.
  - destruct Hc as [_ ->]. apply holds_made.
  - unfold IsAlreadyExists in *. cbn. case_bool_decide; cbn; [|by apply not_total; destruct Hc].
    destruct Hc as [Hn ->].
    change (settled reliable (GetPrivateKey ns name "key") (adopted total) s3). eapply settles_post; [apply auth_get_settles|].
    + intros Ht. eapply sound_kept; [eapply sound_kept; [by apply Hs | exact Hk1] | exact Hk2].
    + intros [k'|e'] s5; [done|]. simpl. intros Hnf. destruct total; naive_solver.
Qed.

Lemma ensure_settles generate s : (total = true → generate = true ∧ sound s) →
  settled reliable (EnsurePrivateKey ns name generate) (adopted total) s.
Proof.
  intros Hs. unfold EnsurePrivateKey. eapply settles_bind; [apply auth_get_settles; naive_solver|].
  intros [k|e] s1; cbn [settles adopted]; [done|]. intros Hnf. destruct (IsNotFound e) eqn:He; cbn [negb].
  - destruct generate; cbn [negb]; [|destruct total; naive_solver].
    apply make_settles. intros Ht. left. by apply Hnf.
  - destruct total; [|done]. by destruct Hnf.
Qed.
End Replica.

Definition replicas (generate : list bool) : list (Prog KeyCall (res string)) := EnsurePrivateKey ns name <$> generate.

Lemma replicas_adopt reliable total generate s ts' s' :
  (total = true → reliable = true ∧ sound s ∧ Forall (λ g, g = true) generate) →
  reaches (secret_answers reliable) (replicas generate, s) (ts', s') →
  ∀ i r, ts' !! i = Some (Ret r) → adopted total r s'.
Proof.
  intros Ht Hr. apply (threads_settle (secret_answers reliable) makes_keys kept (secret_answers_kept reliable)
    (λ _, adopted total) (replicas generate) s); [intros _; apply adopted_lasting | done|].
  intros i p Hp. unfold replicas in Hp. apply list_lookup_fmap_Some in Hp as (g & -> & Hg).
  apply ensure_settles; [naive_solver|]. intros Htt. destruct (Ht Htt) as (_ & Hs & Hall). split; [|done].
  by eapply (Forall_lookup_1 _ _ _ _ Hall).
Qed.

(** C38: replicas of the API server that start side by side.  However their calls
    interleave, and however many of them fail or fail to be answered, the replicas
    that get a key get the same one, the key that the Secret holds, so that each
    accepts the tokens of the others.  If no call fails and the Secret is absent or
    holds a key, every replica that may create it gets the key. *)
Theorem replicas_agree_on_key reliable generate s ts' s' :
  reaches (secret_answers reliable) (replicas generate, s) (ts', s') →
  (∀ i j k1 k2, ts' !! i = Some (Ret (Ok k1)) → ts' !! j = Some (Ret (Ok k2)) → k1 = k2 ∧ holds_key k1 s') ∧
  (reliable = true → sound s → Forall (λ g, g = true) generate → ∀ i r, ts' !! i = Some (Ret r) → is_ok r = true).
Proof.
  intros Hr. split.
  - intros i j k1 k2 Hi Hj. pose proof (replicas_adopt _ false _ _ _ _ ltac:(done) Hr) as Ha.
    pose proof (Ha i _ Hi) as H1. pose proof (Ha j _ Hj) as H2. split; [by eapply holds_key_unique | done].
  - intros -> Hs Hg i r Hi. pose proof (replicas_adopt _ true _ _ _ _ ltac:(done) Hr i r Hi) as Ha.
    by destruct r.
Qed.
End Replicas.

(** ** Tokens *)

Lemma split_spaces_none t : Forall (λ c, c ≠ " "%char) (String.list_ascii_of_string t) → split_spaces t = [t].
Proof.
  induction t as [|c t IH]; simpl; [done|]. intros [Hc Ht]%Forall_cons. rewrite decide_False by done. by rewrite IH.
Qed.

Lemma split_bearer t : Forall (λ c, c ≠ " "%char) (String.list_ascii_of_string t) →
  split_spaces ("Bearer " +:+ t) = ["Bearer"; t].
Proof. intros Ht. simpl. by rewrite split_spaces_none. Qed.

Section Tokens.
Context `{HSigner : JWTSigner, HJWT : JWT}.

(** The library: times are cut to seconds; a signed token has no space, and with
    the same key, before its expiry, it is read back with its claims if the key
    function accepts its method. *)
Hypothesis numeric_date : ∀ t, t - 10 ^ 9 < NewNumericDate t ≤ t.
Hypothesis signed_chars : ∀ claims key t, SignedString claims key = Ok t →
  Forall (λ c, c ≠ " "%char) (String.list_ascii_of_string t).
Variables (key : string) (now : time).
Hypothesis reads_signed : ∀ claims t keyfunc, SignedString claims key = Ok t → now < cl_ExpiresAt claims →
  let token := mkToken true true (Some (cl_ClientID claims)) in
  keyfunc token = Ok tt → ParseWithClaims t keyfunc = Ok token.

(** a token that [TokenHandler] issues.  It is issued only for a client ID
    that is not empty; within its hour (cut to seconds), the middleware of every
    replica that has the key accepts it, and the request goes on as that client. *)
Theorem issued_token_accepted body H r H' :
  execs (TokenHandler key body) H (JSONOk r) H' →
  ∃ clientID, body = Ok clientID ∧ clientID ≠ "" ∧
    (∃ t, mkEv KeyNow t ∈ H' ∧ tr_ExpiresAt r = t + Hour) ∧
    (now ≤ tr_ExpiresAt r - 10 ^ 9 → AuthMiddleware (B := FIPResponse) ("Bearer " +:+ tr_Token r) = inr clientID).
Proof.
  unfold TokenHandler. destruct body as [clientID|e]; [|inversion 1]. case_bool_decide as Hne; [inversion 1|].
  intros Hx. exists clientID. split; [done|]. split; [done|].
  apply (wp_execs (λ _ _ _, True) _ (λ x H', ∀ r, x = JSONOk r → (∃ t, mkEv KeyNow t ∈ H' ∧ tr_ExpiresAt r = t + Hour) ∧
    (now ≤ tr_ExpiresAt r - 10 ^ 9 → AuthMiddleware (B := FIPResponse) ("Bearer " +:+ tr_Token r) = inr clientID))) in Hx as [Hq _];
    [by apply Hq|].
  clear Hx Hne. simpl. split; [done|]. intros t1. split; [done|]. intros t2.
  destruct (SignedString _ key) as [t|e] eqn:Ht; [|done]. cbn. intros r' [= <-]. cbn [tr_ExpiresAt tr_Token].
  rewrite Z.mul_1_l. split; [exists t1; split; [right; by left | done]|]. intros Hnow.
  unfold AuthMiddleware. rewrite split_bearer by by eapply signed_chars.
  rewrite bool_decide_eq_false_2 by discriminate. cbn [negb bool_decide]. rewrite bool_decide_eq_true_2 by done. cbn [negb].
  unfold ValidateJWT. rewrite (reads_signed (mkClaims (NewNumericDate t2) (NewNumericDate (t1 + 1 * Hour)) clientID) t);
    [done | done | | done].
  cbn [cl_ExpiresAt]. pose proof (numeric_date (t1 + 1 * Hour)). lia.
Qed.
End Tokens.
