(* ===== verification/TlsReload.v ===== *)
(** The certificate of the API server's listener,
    [apiserver/cmd/api-server/tlscert.go]: a key pair read from two files that may
    be replaced at any time, kept in memory and looked at again now and then.

    Loading a pair is a call; its answer is the pair.  The reloader's mutex makes a
    handshake one program; what it logs is left out. *)

From S2P Require Import Prelude Prog GoStd ApiTypes.

Record fileStamp := mkStamp { modTime : time; fsize : Z }.
#[export] Instance fileStamp_eq_dec : EqDecision fileStamp.
Proof. solve_decision. Defined.

Inductive TlsCall : Type → Type :=
| Stat (path : string) : TlsCall (res fileStamp)
| LoadX509KeyPair (certFile keyFile : string) : TlsCall (res string)
| TlsNow : TlsCall time.

Record certReloader := mkReloader {
  certFile : string; keyFile : string; checkInterval : time;
  rl_cert : option string; certStamp : fileStamp; keyStamp : fileStamp; lastCheck : time
}.

Definition tlsCertReloadInterval : time := 30 * 10 ^ 9.

#[local] Open Scope prog_scope.

Definition statStamp (path : string) : Prog TlsCall (res fileStamp) := call (Stat path).

(** Both files, the certificate first. *)
Definition stat_pair (cf kf : string) : Prog TlsCall (res (fileStamp * fileStamp)) :=
  try! c := statStamp cf else err => Ret (Err (wrapf "stat TLS certificate" err)) in
  try! k := statStamp kf else err => Ret (Err (wrapf "stat TLS key" err)) in
  Ret (Ok (c, k)).

(** [attempts_] is 3 in the code. *)
Fixpoint load_attempts (attempts_ : nat) (cf kf : string) : Prog TlsCall (res (string * (fileStamp * fileStamp))) :=
  match attempts_ with
  | O => Ret (Err (errorf "TLS certificate files changed while being read"))
  | S attempts_ =>
      try! before := stat_pair cf kf else err => Ret (Err err) in
      try! cert := call (LoadX509KeyPair cf kf) else err => Ret (Err (wrapf "load TLS key pair" err)) in
      try! after := stat_pair cf kf else err => Ret (Err err) in
      if bool_decide (before = after) then Ret (Ok (cert, before)) else load_attempts attempts_ cf kf
  end.

Definition loadTLSPair (cf kf : string) : Prog TlsCall (res (string * (fileStamp * fileStamp))) := load_attempts 3 cf kf.

Definition newCertReloader (cf kf : string) : Prog TlsCall (res certReloader) :=
  try! p := loadTLSPair cf kf else err => Ret (Err err) in
  let! now := call TlsNow in
  Ret (Ok (mkReloader cf kf tlsCertReloadInterval (Some p.1) p.2.1 p.2.2 now)).

Definition set_lastCheck (r : certReloader) (t : time) : certReloader :=
  mkReloader (certFile r) (keyFile r) (checkInterval r) (rl_cert r) (certStamp r) (keyStamp r) t.
Definition set_pair (r : certReloader) (cert : string) (stamps : fileStamp * fileStamp) : certReloader :=
  mkReloader (certFile r) (keyFile r) (checkInterval r) (Some cert) stamps.1 stamps.2 (lastCheck r).

Definition reloadIfChangedLocked (r : certReloader) : Prog TlsCall (option error * certReloader) :=
  try! stamps := stat_pair (certFile r) (keyFile r) else err => Ret (Some err, r) in
  if bool_decide (stamps = (certStamp r, keyStamp r)) then Ret (None, r)
  else
    try! p := loadTLSPair (certFile r) (keyFile r) else err => Ret (Some err, r) in
    Ret (None, set_pair r p.1 p.2).

(** One handshake; a reload that fails is logged. *)
Definition GetCertificate (r : certReloader) : Prog TlsCall (res string * certReloader) :=
  let! now := call TlsNow in
  let! r := if checkInterval r <=? time_sub now (lastCheck r)
            then let! x := reloadIfChangedLocked (set_lastCheck r now) in Ret x.2
            else Ret r in
  Ret (match rl_cert r with
       | None => Err (errorf "no TLS certificate loaded")
       | Some cert => Ok cert
       end, r).

(** A number of handshakes, one after the other. *)
Fixpoint handshakes (n : nat) (r : certReloader) : Prog TlsCall (list (res string) * certReloader) :=
  match n with
  | O => Ret ([], r)
  | S n => let! x := GetCertificate r in let! y := handshakes n x.2 in Ret (x.1 :: y.1, y.2)
  end.

(** * What the handshakes get *)

(** What the API server's listener presents in a handshake. *)

#[local] Notation any := (λ _ _ _, True).

(** The pair was read while both files had these stamps, before and after. *)
Definition loaded_at (cf kf cert : string) (stamps : fileStamp * fileStamp) (H : History TlsCall) : Prop :=
  ∃ l1 l2, H = l1 ++ mkEv (Stat kf) (Ok stamps.2) :: mkEv (Stat cf) (Ok stamps.1) :: mkEv (LoadX509KeyPair cf kf) (Ok cert)
    :: mkEv (Stat kf) (Ok stamps.2) :: mkEv (Stat cf) (Ok stamps.1) :: l2.

Lemma loaded_at_extends cf kf cert stamps H H' : extends H H' → loaded_at cf kf cert stamps H → loaded_at cf kf cert stamps H'.
Proof. intros [l ->] (l1 & l2 & ->). exists (l ++ l1), l2. by rewrite app_assoc. Qed.

(** The newest look at the files found these stamps. *)
Definition looked (cf kf : string) (stamps : fileStamp * fileStamp) (H : History TlsCall) : Prop :=
  ∃ l, H = mkEv (Stat kf) (Ok stamps.2) :: mkEv (Stat cf) (Ok stamps.1) :: l.

(** The reloader has a pair, with the stamps it was read with. *)
Definition consistent (r : certReloader) (H : History TlsCall) : Prop :=
  ∃ cert, rl_cert r = Some cert ∧ loaded_at (certFile r) (keyFile r) cert (certStamp r, keyStamp r) H.

Lemma consistent_extends r H H' : extends H H' → consistent r H → consistent r H'.
Proof. intros Hh (cert & ? & ?). exists cert. split; [done | by eapply loaded_at_extends]. Qed.

Lemma wp_stat_pair cf kf H :
  wp any (stat_pair cf kf) (λ x H', ∀ stamps, x = Ok stamps →
    H' = mkEv (Stat kf) (Ok stamps.2) :: mkEv (Stat cf) (Ok stamps.1) :: H) H.
Proof. unfold stat_pair. simpl. split; [done|]. intros [c|e]; [|done]. split; [done|]. intros [k|e]; [|done]. by intros ? [= <-]. Qed.

Lemma wp_load n cf kf : ∀ H,
  wp any (load_attempts n cf kf) (λ x H', ∀ cert stamps, x = Ok (cert, stamps) →
    loaded_at cf kf cert stamps H' ∧ looked cf kf stamps H') H.
Proof.
  induction n as [|n IH]; intros H; [done|]. cbn [load_attempts].
  eapply wp_seq; [apply wp_stat_pair|]. intros [before|e] H1 Hb _; [|done]. specialize (Hb _ eq_refl).
  apply wp_call_then; [done|]. intros [cert|e]; [|done].
  eapply wp_seq; [apply wp_stat_pair|]. intros [after|e] H2 Ha _; [|done]. specialize (Ha _ eq_refl).
  case_bool_decide as Heq; [|apply IH]. subst after. apply wp_ret. intros ? ? [= <- <-]. subst H1 H2.
  split; [by exists [], H | by eexists].
Qed.

(** ** One look *)

Lemma wp_reload r H : consistent r H →
  wp any (reloadIfChangedLocked r) (λ x H', consistent x.2 H' ∧
    certFile x.2 = certFile r ∧ keyFile x.2 = keyFile r ∧ checkInterval x.2 = checkInterval r ∧ lastCheck x.2 = lastCheck r ∧
    match x.1 with
    | None => looked (certFile r) (keyFile r) (certStamp x.2, keyStamp x.2) H'
    | Some _ => x.2 = r
    end) H.
Proof.
  intros Hc. unfold reloadIfChangedLocked. eapply wp_seq; [apply wp_stat_pair|].
  intros [stamps|e] H1 Hs Hh1; [|apply wp_ret; split; [by eapply consistent_extends | done]].
  specialize (Hs _ eq_refl). case_bool_decide as Heq.
  - subst stamps. apply wp_ret. split; [by eapply consistent_extends|]. do 4 (split; [done|]). by eexists.
  - eapply wp_seq; [apply wp_load|]. intros [[cert st]|e] H2 Hl Hh2.
    + destruct (Hl _ _ eq_refl) as [Ha Hk]. apply wp_ret. destruct st as [c k]. split; [by exists cert|]. done.
    + apply wp_ret. split; [eapply consistent_extends; [|done]; by etrans | done].
Qed.

(** What a handshake does at [now]: within the interval it looks at no file; after
    it, what it leaves is what the files were when it looked, or, if that failed,
    what was there. *)
Definition handshake (r : certReloader) (H : History TlsCall) (now : time) (r' : certReloader) (H' : History TlsCall) : Prop :=
  if checkInterval r <=? time_sub now (lastCheck r)
  then lastCheck r' = now ∧ (looked (certFile r) (keyFile r) (certStamp r', keyStamp r') H' ∨ r' = set_lastCheck r now)
  else r' = r ∧ H' = mkEv TlsNow now :: H.

Lemma wp_GetCertificate r H : consistent r H →
  wp any (GetCertificate r) (λ x H', consistent x.2 H' ∧
    certFile x.2 = certFile r ∧ keyFile x.2 = keyFile r ∧ checkInterval x.2 = checkInterval r ∧
    (∃ cert, x.1 = Ok cert ∧ rl_cert x.2 = Some cert) ∧ ∃ now, handshake r H now x.2 H') H.
Proof.
  intros Hc. unfold GetCertificate, handshake. apply wp_call_then; [done|]. intros now.
  assert (consistent r (mkEv TlsNow now :: H)) as Hc1 by (eapply consistent_extends; [|done]; by apply extends_cons).
  destruct (Z.leb_spec (checkInterval r) (time_sub now (lastCheck r))) as [Hle|Hgt].
  - apply wp_bind. eapply wp_seq; [by apply wp_reload|]. intros [e r'] H1 (Hc2 & Hcf & Hkf & Hci & Hlc & Hres) _. cbn in *.
    split; [done|]. do 3 (split; [done|]). split; [destruct Hc2 as (cert & Hcert & _); exists cert; by rewrite Hcert|].
    exists now. destruct (Z.leb_spec (checkInterval r) (time_sub now (lastCheck r))); [|lia]. split; [done|].
    destruct e; [right; by subst | by left].
  - cbn. split; [done|]. do 3 (split; [done|]). split; [destruct Hc as (cert & Hcert & _); exists cert; by rewrite Hcert|].
    exists now. destruct (Z.leb_spec (checkInterval r) (time_sub now (lastCheck r))); [lia|]. done.
Qed.

Lemma wp_new cf kf H :
  wp any (newCertReloader cf kf) (λ x H', ∀ r, x = Ok r → consistent r H' ∧ certFile r = cf ∧ keyFile r = kf) H.
Proof.
  unfold newCertReloader. eapply wp_seq; [apply wp_load|]. intros [[cert st]|e] H1 Hl _; [|done].
  destruct (Hl _ _ eq_refl) as [Ha _]. apply wp_call_then; [done|]. intros now. apply wp_ret. intros r [= <-]. cbn.
  split; [|done]. exists cert. split; [done|]. cbn. destruct st. eapply loaded_at_extends; [|exact Ha]. by apply extends_cons.
Qed.

(** What the handshakes served was read from the files as a pair. *)
Definition was_loaded (cf kf : string) (H : History TlsCall) (x : res string) : Prop :=
  ∃ cert stamps, x = Ok cert ∧ loaded_at cf kf cert stamps H.

Lemma wp_handshakes n : ∀ r H, consistent r H →
  wp any (handshakes n r) (λ x H', consistent x.2 H' ∧ certFile x.2 = certFile r ∧ keyFile x.2 = keyFile r ∧
    Forall (was_loaded (certFile r) (keyFile r) H') x.1) H.
Proof.
  induction n as [|n IH]; intros r H Hc; [by repeat split|]. cbn [handshakes].
  eapply wp_seq; [by apply wp_GetCertificate|].
  intros [x r1] H1 (Hc1 & Hcf & Hkf & _ & (cert & Hx & Hcert) & _) _. cbn in *.
  eapply wp_seq; [by apply IH|]. intros [xs r2] H2 (Hc2 & Hcf2 & Hkf2 & Hall) Hh2. cbn in *.
  rewrite Hcf, Hkf in *. split; [done|]. split; [done|]. split; [done|]. constructor; [|done].
  destruct Hc1 as (cert' & Hcert' & Hl). exists cert, (certStamp r1, keyStamp r1). split; [done|].
  rewrite Hcf, Hkf in Hl. eapply loaded_at_extends; [done|]. congruence.
Qed.

(** the certificate of the API server's listener.  Once a reloader was made,
    no handshake ever fails for want of a certificate, however the files change and
    fail to be read: each one gets a pair that was read from both files while
    neither changed.  A handshake that comes within the interval looks at no file;
    a later one leaves the pair with the stamps that it found last, or, if it could
    not look or read, the pair that was there. *)
Theorem served_pair_consistent cf kf r0 H0 n x H1 :
  execs (newCertReloader cf kf) [] (Ok r0) H0 → execs (handshakes n r0) H0 x H1 →
  Forall (was_loaded cf kf H1) x.1 ∧ consistent x.2 H1 ∧
  (∀ y H2, execs (GetCertificate x.2) H1 y H2 → ∃ now, handshake x.2 H1 now y.2 H2).
Proof.
  intros Hn Hx. destruct (wp_execs _ _ _ _ _ _ Hn (wp_new cf kf [])) as [Hr _].
  destruct (Hr _ eq_refl) as (Hc & <- & <-).
  destruct (wp_execs _ _ _ _ _ _ Hx (wp_handshakes n r0 H0 Hc)) as [(Hc1 & _ & _ & Hall) _].
  split; [done|]. split; [done|]. intros y H2 Hy.
  by destruct (wp_execs _ _ _ _ _ _ Hy (wp_GetCertificate _ _ Hc1)) as [(_ & _ & _ & _ & _ & ?) _].
Qed.
