(* ===== verification/ApiKeysDemo.v ===== *)
(** The API server at concrete inputs: a request through the whole middleware, with
    a token bucket of three requests and a JWT library that knows one token, the
    key that two replicas share, and the certificate. *)

From Stdlib Require QArith_base.
From Stdlib Require Import Ascii.
From S2P Require Import Prelude Prog Threads GoStd NetIP NetIPFacts Ipam IpamSpec IpamCorrect ApiTypes Kube ServiceLabels FipController MemKube FipDemo ApiServer Middleware ApiKeys TlsReload.

#[local] Existing Instances sorted_range no_err_text demo_kube.

#[local] Instance demo_bucket : Bucket Z := {|
  NewLimiter _ burst := burst;
  Allow _ tokens := (0 <? tokens, Z.max 0 (tokens - 1))
|}.

#[local] Instance demo_jwt : JWT := {|
  ParseWithClaims tokenString keyfunc :=
    let token := mkToken (bool_decide (tokenString = "good")) true (Some "c1") in
    match keyfunc token with Ok _ => Ok token | Err err => Err err end
|}.

Lemma demo_ParseWithClaims_key t keyfunc token :
  ParseWithClaims t keyfunc = Ok token → keyfunc token = Ok tt.
Proof. simpl. destruct (keyfunc _) as [[]|] eqn:Hk; intros ?; by simplify_eq. Qed.

Definition demo_request (token clientSecret : string) : Incoming :=
  mkIncoming 200 ("Bearer " +:+ token) "10.1.2.3:4000" (BodyJSON "p1" clientSecret).

Definition fresh_store : limiterStore Z := newLimiterStore (QArith_base.Qmake 1 1) 3.

Definition run_route (r : Incoming) :=
  protected_route (B := FIPResponse) 1024 0 fresh_store fresh_store r
    (world (demo_cluster (demo_fip None "") []) demo_alloc).

Example route_denies :
  (run_route (demo_request "forged" "secret")).1.1.1 = Some (JSONError 401 "Invalid token") ∧
  (run_route (demo_request "good" "guess")).1.1.1 = Some (JSONError 403 "Client not authorized") ∧
  in_RemoteAddr (demo_request "good" "secret") = "10.1.2.3:4000" ∧
  RemoteIPRateLimitKey "10.1.2.3:4000" = "ip:10.1.2.3".
Proof. vm_compute. done. Qed.

Lemma protected_route_guarded_witness :
  (run_route (demo_request "good" "secret")).1.1.1 = None ∧
  Exists (read_secret "p1" "secret") (events (run_route (demo_request "good" "secret")).2).
Proof.
  split; [vm_compute; reflexivity|].
  destruct (run_route (demo_request "good" "secret")) as [[[reply g] c] w] eqn:Hr.
  assert (reply = None) as ->.
  { change reply with (((reply, g, c), w).1.1.1). rewrite <- Hr. vm_compute. reflexivity. }
  destruct (protected_route_guarded demo_ParseWithClaims_key _ _ _ _ _ _ _ _ _ Hr)
    as (_ & _ & _ & project & clientSecret & Hb & Hex).
  injection Hb as <- <-. exact Hex.
Defined.

(** ** Two replicas and one Secret *)

#[local] Instance demo_rsa : RsaLib := {|
  ParseRSAPrivateKeyFromPEM := λ s, if HasPrefix s "RSA:" then Ok (TrimPrefix s "RSA:") else Err (errorf "no PEM");
  pem_of_key := λ k, "RSA:" +:+ k
|}.

Lemma demo_parse k : ParseRSAPrivateKeyFromPEM (pem_of_key k) = Ok k.
Proof. cbn -[HasPrefix TrimPrefix]. by rewrite HasPrefix_app, TrimPrefix_app. Qed.

(** Each key that is generated is new: the count of them is part of the state. *)
Definition key_handle : Handler KeyCall (gomap string) := λ R c,
  match c in KeyCall R return gomap string → R * gomap string with
  | KSecretGet _ _ => λ s, (match s with Some d => Ok (Some d) | None => Err (mkErr KNotFound "not found") end, s)
  | KSecretCreate _ _ d => λ s, match s with
      | None => (Ok tt, Some d)
      | Some _ => (Err (mkErr KAlreadyExists "already exists"), s)
      end
  | RsaGenerateKey _ => λ s, (Ok (match s with None => "first" | Some _ => "late" end), s)
  | KeyNow => λ s, (0, s)
  end.

Lemma key_handle_answers R (c : KeyCall R) s : secret_answers true R c s (key_handle R c s).1 (key_handle R c s).2.
Proof. destruct c, s; cbn; try done. all: repeat split; done. Qed.

(** Both look and find nothing; the second one has its key generated after the
    first one's was stored, and takes the first one's. *)
Definition race : list nat := [0; 1; 0; 0; 1; 1; 1]%nat.
Definition raced : list (Prog KeyCall (res string)) * gomap string :=
  run_threads key_handle race (replicas "ns" "jwt" [true; true], None).

Lemma replicas_agree_on_key_witness :
  raced.1 = [Ret (Ok "first"); Ret (Ok "first")] ∧ holds_key "first" raced.2.
Proof.
  assert (raced.1 = [Ret (Ok "first"); Ret (Ok "first")]) as Hr by (vm_compute; reflexivity). split; [exact Hr|].
  pose proof (run_reaches (secret_answers true) key_handle race key_handle_answers (replicas "ns" "jwt" [true; true], None)) as Hx.
  fold raced in Hx. rewrite (surjective_pairing raced) in Hx.
  destruct (replicas_agree_on_key "ns" "jwt" demo_parse true [true; true] None _ _ Hx) as [Ha _].
  refine (proj2 (Ha 0%nat 1%nat "first" "first" _ _)); rewrite Hr; reflexivity.
Defined.

(** ** A token

    A token is the key, the expiry and the client ID; what could not be read back
    is not signed. *)

Definition decode (t : string) : option (string * Z * string) :=
  i ← IndexByte t ".";
  let rest := str_drop (S i) t in
  j ← IndexByte rest ".";
  e ← atoi (str_take j rest);
  Some (str_take i t, e, str_drop (S j) rest).

#[local] Instance demo_signer : JWTSigner := {|
  NewNumericDate := λ t, t / 10 ^ 9 * 10 ^ 9;
  SignedString := λ claims key,
    let t := key +:+ "." +:+ itoa (cl_ExpiresAt claims) +:+ "." +:+ cl_ClientID claims in
    if bool_decide (decode t = Some (key, cl_ExpiresAt claims, cl_ClientID claims)) &&
       forallb (λ c, negb (bool_decide (c = " "%char))) (String.list_ascii_of_string t)
    then Ok t else Err (errorf "cannot sign")
|}.

(** The server with the key [k1], 10 minutes after the issue. *)
Definition demo_now : time := 600 * 10 ^ 9.

#[local] Instance token_jwt : JWT := {|
  ParseWithClaims t keyfunc :=
    match decode t with
    | None => Err (errorf "malformed token")
    | Some (k, e, clientID) =>
        let token := mkToken true true (Some clientID) in
        if bool_decide (k = "k1") && (demo_now <? e)
        then match keyfunc token with Ok _ => Ok token | Err err => Err err end
        else Err (errorf "token is invalid")
    end
|}.

Definition demo_response : AuthTokenResponse := mkTokenResponse "k1.3600000000000.cluster-a" (3600 * 10 ^ 9).

Lemma demo_numeric_date t : t - 10 ^ 9 < NewNumericDate t ≤ t.
Proof. cbn. pose proof (Z.div_mod t (10 ^ 9)). pose proof (Z.mod_pos_bound t (10 ^ 9)). lia. Qed.

Lemma demo_signed claims key t : SignedString claims key = Ok t →
  decode t = Some (key, cl_ExpiresAt claims, cl_ClientID claims) ∧
  Forall (λ c, c ≠ " "%char) (String.list_ascii_of_string t).
Proof.
  cbn -[decode]. destruct (_ && _) eqn:Hb; [|done]. intros [= <-].
  apply andb_prop in Hb as [Hd Hf]. split; [by apply bool_decide_eq_true in Hd|].
  apply Forall_forall. intros c Hc. rewrite forallb_forall in Hf. apply list_elem_of_In in Hc.
  specialize (Hf c Hc). by case_bool_decide.
Qed.

Lemma demo_reads_signed claims t keyfunc : SignedString claims "k1" = Ok t → demo_now < cl_ExpiresAt claims →
  let token := mkToken true true (Some (cl_ClientID claims)) in
  keyfunc token = Ok tt → ParseWithClaims t keyfunc = Ok token.
Proof.
  intros [Hd _]%demo_signed Hn token Hk. cbn -[decode]. rewrite Hd. rewrite (bool_decide_eq_true_2 ("k1" = "k1")) by done.
  destruct (Z.ltb_spec demo_now (cl_ExpiresAt claims)); [|lia]. subst token. cbn. by rewrite Hk.
Qed.

Lemma demo_issue :
  execs (TokenHandler "k1" (Ok "cluster-a")) [] (JSONOk demo_response)
    (Prog.run key_handle (TokenHandler "k1" (Ok "cluster-a")) None []).2.
Proof.
  pose proof (run_execs key_handle (TokenHandler "k1" (Ok "cluster-a")) None []) as Hx.
  assert ((Prog.run key_handle (TokenHandler "k1" (Ok "cluster-a")) None []).1.1 = JSONOk demo_response) as Hr by (vm_compute; reflexivity).
  by rewrite Hr in Hx.
Qed.

Lemma issued_token_accepted_witness :
  AuthMiddleware (B := FIPResponse) ("Bearer " +:+ tr_Token demo_response) = inr "cluster-a".
Proof.
  destruct (issued_token_accepted demo_numeric_date (λ claims key t Ht, proj2 (demo_signed claims key t Ht)) "k1" demo_now
    demo_reads_signed _ _ _ _ demo_issue) as (clientID & Hb & _ & _ & Ha).
  injection Hb as <-. apply Ha. vm_compute. discriminate.
Defined.

(** ** The listener's certificate *)

(** The files: a certificate and a key, each with its stamp; the clock. *)
Record TlsWorld := mkTlsWorld { tw_cert : option (string * Z); tw_key : option (string * Z); tw_now : time }.

Definition stamp_of (f : option (string * Z)) : res fileStamp :=
  match f with Some (data, t) => Ok (mkStamp t (Z.of_nat (String.length data))) | None => Err (errorf "no such file") end.

Definition tls_handle : Handler TlsCall TlsWorld := λ R c,
  match c in TlsCall R return TlsWorld → R * TlsWorld with
  | Stat f => λ w, (stamp_of (if bool_decide (f = "tls.crt") then tw_cert w else tw_key w), w)
  | LoadX509KeyPair _ _ => λ w, (match tw_cert w, tw_key w with
      | Some (c, _), Some (k, _) => Ok (c +:+ "/" +:+ k) | _, _ => Err (errorf "no such file") end, w)
  | TlsNow => λ w, (tw_now w, mkTlsWorld (tw_cert w) (tw_key w) (tw_now w + 20 * 10 ^ 9))
  end.

Definition first_pair : TlsWorld := mkTlsWorld (Some ("C1", 1)) (Some ("K1", 1)) 0.
(** The reloader as it starts on that pair. *)
Definition new_reloader : certReloader :=
  match (Prog.run tls_handle (newCertReloader "tls.crt" "tls.key") first_pair []).1.1 with
  | Ok r => r
  | Err _ => mkReloader "" "" 0 None (mkStamp 0 0) (mkStamp 0 0) 0
  end.
Definition new_history : History TlsCall := (Prog.run tls_handle (newCertReloader "tls.crt" "tls.key") first_pair []).2.
Definition renewed_pair : TlsWorld := mkTlsWorld (Some ("C2", 9)) (Some ("K2", 9)) (20 * 10 ^ 9).
Definition served := Prog.run tls_handle (handshakes 2 new_reloader) renewed_pair new_history.

Lemma new_executes : execs (newCertReloader "tls.crt" "tls.key") [] (Ok new_reloader) new_history.
Proof.
  pose proof (run_execs tls_handle (newCertReloader "tls.crt" "tls.key") first_pair []) as Hx.
  assert ((Prog.run tls_handle (newCertReloader "tls.crt" "tls.key") first_pair []).1.1 = Ok new_reloader) as Hr by (vm_compute; reflexivity).
  by rewrite Hr in Hx.
Qed.

(** The first handshake is too early to look; the second one has the new pair. *)
Lemma served_pair_consistent_witness :
  served.1.1.1 = [Ok "C1/K1"; Ok "C2/K2"] ∧ Forall (was_loaded "tls.crt" "tls.key" served.2) served.1.1.1.
Proof.
  split; [vm_compute; reflexivity|].
  exact (proj1 (served_pair_consistent "tls.crt" "tls.key" new_reloader new_history 2 served.1.1 served.2
    new_executes (run_execs tls_handle (handshakes 2 new_reloader) renewed_pair new_history))).
Defined.

(** A file that cannot be read: the pair that was there goes on. *)
Example lost_file :
  (Prog.run tls_handle (handshakes 3 new_reloader) (mkTlsWorld (Some ("C2", 9)) None (20 * 10 ^ 9)) new_history).1.1.1
  = [Ok "C1/K1"; Ok "C1/K1"; Ok "C1/K1"].
Proof. vm_compute. reflexivity. Qed.
