(* ===== verification/ApiLife.v ===== *)
(** The life of the API server, [apiserver/cmd/api-server/main.go]: its set-up, the
    listener, the probes and the shutdown, as goroutines.

    What the requests do is in [ApiServer] and [Middleware], the private key in
    [ApiKeys] and the certificate in [TlsReload]; here they are steps of the set-up
    that may fail, and requests in flight. *)

From stdpp Require Import functions.
From S2P Require Import Prelude Prog GoStd ApiTypes HttpServer RelyGuarantee Goroutines.

Inductive ApiRoutine :=
| ApiMainR                            (* [main] and [run] *)
| ApiSignalR                          (* waits for a signal *)
| ApiProbeR                           (* [serveHealthProbe] *)
| ApiProbeStopR                       (* shuts the probe server down *)
| ApiListenR.                         (* the listener of the API *)
Inductive ApiChannel := SigChan.
Inductive ApiServerName := ApiSrv | ProbeSrv.

#[export] Instance ApiRoutine_eq : EqDecision ApiRoutine.
Proof. solve_decision. Defined.
#[export] Instance ApiChannel_eq : EqDecision ApiChannel.
Proof. solve_decision. Defined.
#[export] Instance ApiServerName_eq : EqDecision ApiServerName.
Proof. solve_decision. Defined.

Abbreviation ApiGo := (GoState ApiRoutine ApiChannel Empty_set unit).
Abbreviation ApiGoCall := (GoCall ApiRoutine ApiChannel Empty_set unit).

(** What has to succeed at the start. *)
Inductive SetupStep := RestConfig | Clientset | DynamicClient | PrivateKey | FipRestClient | FipWatchClient | CertReloader.

Inductive ApiCall : Type → Type :=
| APrim {R} (c : ApiGoCall R) : ApiCall R
| ASrv (v : ApiServerName) {R} (c : ServerCall R) : ApiCall R
| AStoreReady (ready : bool) : ApiCall unit              (* [apiListenerReady] *)
| ASetup (step : SetupStep) : ApiCall (option error)
| AFatal : ApiCall unit.

Record ApiLife := mkApiLife {
  ago : ApiGo;
  servers : ApiServerName → HttpServer;
  apiListenerReady : bool;
  ahist : list (ApiRoutine * Ev ApiCall)
}.

Definition allocationWaitTimeout : time := 30 * 10 ^ 9.
Definition cleanupTimeout : time := 10 * 10 ^ 9.
Definition MaxRequestDuration : time := allocationWaitTimeout + cleanupTimeout.
Definition shutdownGraceMargin : time := 5 * 10 ^ 9.
Definition shutdownGracePeriod : time := MaxRequestDuration + shutdownGraceMargin.
Definition probeShutdownTimeout : time := 5 * 10 ^ 9.

(** The answers of the probes: a status and a body. *)
Definition healthHandler : Z * string := (200, "ok").
Definition readyHandler (s : ApiLife) : Z * string :=
  if apiListenerReady s then (200, "ok") else (503, "api listener not ready").

Section Code.
#[local] Open Scope prog_scope.

Definition must (step : SetupStep) (p : Prog ApiCall unit) : Prog ApiCall unit :=
  let! err := call (ASetup step) in match err with Some _ => call AFatal | None => p end.

(** [Serve] of [net/http]. *)
Definition api_Serve (v : ApiServerName) : Prog ApiCall (option error) :=
  let! ok := call (ASrv v Track) in if ok : bool then call (ASrv v AcceptLoop) else Ret None.

Definition shutdownAPI (v : ApiServerName) (grace : time) : Prog ApiCall unit :=
  call (ASrv v BeginShutdown) ;;;
  let! ok := call (ASrv v (AwaitIdle grace)) in
  if ok : bool then Ret tt else call (ASrv v CloseServer).

Definition api_listen : Prog ApiCall unit :=
  let! err := call (ASrv ApiSrv Listen) in
  match err with
  | Some _ => call AFatal
  | None =>
      call (AStoreReady true) ;;;
      let! err := api_Serve ApiSrv in match err with Some _ => call AFatal | None => Ret tt end
  end.

Definition api_serve : Prog ApiCall unit :=
  call (APrim (Go ApiListenR)) ;;;
  let! _i := call (APrim (Select [OnDone tt] false)) in
  call (AStoreReady false) ;;; shutdownAPI ApiSrv shutdownGracePeriod.

Definition api_run (tlsEnabled : bool) : Prog ApiCall unit :=
  must PrivateKey (must FipRestClient (must FipWatchClient
    (if tlsEnabled then must CertReloader api_serve else api_serve))).

(** [cancel] is deferred. *)
Definition api_main (tlsEnabled : bool) : Prog ApiCall unit :=
  call (APrim (Go ApiSignalR)) ;;; call (APrim (Go ApiProbeR)) ;;;
  must RestConfig (must Clientset (must DynamicClient (api_run tlsEnabled ;;; call (APrim (Cancel tt))))).

(** A failure of the probe server is only logged. *)
Definition serveHealthProbe : Prog ApiCall unit :=
  call (APrim (Go ApiProbeStopR)) ;;;
  let! err := call (ASrv ProbeSrv Listen) in
  match err with Some _ => Ret tt | None => let! _err := api_Serve ProbeSrv in Ret tt end.

Definition api_body (tlsEnabled : bool) (r : ApiRoutine) : Prog ApiCall unit :=
  call (APrim Begin) ;;;
  match r with
  | ApiMainR => api_main tlsEnabled
  | ApiSignalR => let! _i := call (APrim (Select [Recv SigChan] false)) in call (APrim (Cancel tt))
  | ApiProbeR => serveHealthProbe
  | ApiProbeStopR =>
      let! _i := call (APrim (Select [OnDone tt] false)) in
      call (ASrv ProbeSrv BeginShutdown) ;;;
      let! _ok := call (ASrv ProbeSrv (AwaitIdle probeShutdownTimeout)) in Ret tt
  | ApiListenR => api_listen
  end.

Definition api_routines : list ApiRoutine := [ApiMainR; ApiSignalR; ApiProbeR; ApiProbeStopR; ApiListenR].
End Code.

(** ** What the calls do *)

Definition set_ago (g : ApiGo) (s : ApiLife) : ApiLife := mkApiLife g (servers s) (apiListenerReady s) (ahist s).
Definition set_server (v : ApiServerName) (x : HttpServer) (s : ApiLife) : ApiLife :=
  mkApiLife (ago s) (<[v := x]> (servers s)) (apiListenerReady s) (ahist s).
Definition set_ready (b : bool) (s : ApiLife) : ApiLife := mkApiLife (ago s) (servers s) b (ahist s).
Definition set_servers (f : ApiServerName → HttpServer) (s : ApiLife) : ApiLife :=
  mkApiLife (ago s) f (apiListenerReady s) (ahist s).
(** [log.Fatal]: the process ends at once, with the requests of both servers. *)
Definition fatal (s : ApiLife) : ApiLife :=
  set_servers (λ v, killed (servers s v)) (set_ago (set_exited (ago s)) s).
Definition api_record {R} (r : ApiRoutine) (c : ApiCall R) (x : R) (s : ApiLife) : ApiLife :=
  mkApiLife (ago s) (servers s) (apiListenerReady s) ((r, mkEv c x) :: ahist s).

(** The process starts, gets signals, and its servers get requests. *)
Inductive api_environment : ApiLife → ApiLife → Prop :=
| aenv_main s : ApiMainR ∉ started (ago s) → api_environment s (set_ago (start ApiMainR (ago s)) s)
| aenv_signal s : api_environment s (set_ago (set_chan SigChan (mkChan 1 false) (ago s)) s)
| aenv_server v x s : server_env (servers s v) x → api_environment s (set_server v x s).

Inductive api_effect (r : ApiRoutine) : ∀ R, ApiCall R → ApiLife → R → ApiLife → Prop :=
| aeff_prim R (c : ApiGoCall R) s x g : go_answers r R c (ago s) x g → api_effect r R (APrim c) s x (set_ago g s)
| aeff_server v R (c : ServerCall R) s x y :
    server_answers R c (servers s v) x y → api_effect r R (ASrv v c) s x (set_server v y s)
| aeff_ready b s : api_effect r _ (AStoreReady b) s tt (set_ready b s)
| aeff_setup step s err : api_effect r _ (ASetup step) s err s
| aeff_fatal s : api_effect r _ AFatal s tt (fatal s).

Inductive api_answered (r : ApiRoutine) (R : Type) (c : ApiCall R) (s : ApiLife) (x : R) : ApiLife → Prop :=
| api_answered_call s' : exited (ago s) = false → api_effect r R c s x s' → api_answered r R c s x (api_record r c x s').

Definition ApiLifeConfig : Type := Config (S := ApiLife) (E := ApiCall) (A := unit).
Definition api_init_life : ApiLife := mkApiLife go_init (λ _, new_server) false [].
Definition api_life_init (tlsEnabled : bool) : ApiLifeConfig := (api_body tlsEnabled <$> api_routines, api_init_life).
Definition api_runs : ApiLifeConfig → ApiLifeConfig → Prop := runs api_answered api_environment api_routines.
