(* ===== verification/ApiLifeCorrect.v ===== *)
(** The API server is ready only while its port accepts, drains when it is stopped,
    and stops.

    As in [ManagerLogic], each goroutine is verified against what the others leave
    alone. *)

From stdpp Require Import functions.
From S2P Require Import Prelude Prog GoStd ApiTypes HttpServer RelyGuarantee Goroutines ApiLife.

Section Life.
Context (tlsEnabled : bool).
Implicit Types (s : ApiLife) (r : ApiRoutine).

Definition api_starter (q : ApiRoutine) : option ApiRoutine :=
  match q with
  | ApiMainR => None
  | ApiSignalR | ApiProbeR | ApiListenR => Some ApiMainR
  | ApiProbeStopR => Some ApiProbeR
  end.

Definition setup_steps : list SetupStep :=
  [RestConfig; Clientset; DynamicClient; PrivateKey; FipRestClient; FipWatchClient] ++ (if tlsEnabled then [CertReloader] else []).

(** The calls that the program cannot go on without. *)
Definition erred (e : Ev ApiCall) : bool :=
  match ev_c e in ApiCall R return R → bool with
  | ASetup _ => is_some
  | ASrv v c => match c in ServerCall R return R → bool with
      | Listen | AcceptLoop => λ x, bool_decide (v = ApiSrv) && is_some x
      | _ => λ _, false
      end
  | _ => λ _, false
  end (ev_ans e).

Definition step_done (step : SetupStep) s : Prop := (ApiMainR, mkEv (ASetup step) None) ∈ ahist s.
Definition set_up s : Prop := Forall (λ step, step_done step s) setup_steps.
Definition api_failed s : Prop := Exists (λ e, erred e.2 = true) (ahist s).
Definition stopping s : Prop := cancelled (ago s) tt = true.
(** The process was ended by [log.Fatal]. *)
Definition is_fatal (e : Ev ApiCall) : bool := match ev_c e with AFatal => true | _ => false end.
Definition died s : Prop := Exists (λ e, is_fatal e.2 = true) (ahist s).
(** The grace period was over before the requests. *)
Definition drain_expired s : Prop := (ApiMainR, mkEv (ASrv ApiSrv (AwaitIdle shutdownGracePeriod)) false) ∈ ahist s.

Record AInv s : Prop := {
  a_ok v : server_ok (servers s v);
  a_listen : ApiListenR ∈ started (ago s) → set_up s;
  a_ready : apiListenerReady s = true →
    ApiListenR ∈ started (ago s) ∧ (bound (servers s ApiSrv) = true ∨ stopping s ∨ api_failed s);
  a_closing : closing (servers s ApiSrv) = true → stopping s;
  a_cut : (0 < cut (servers s ApiSrv))%nat → drain_expired s ∨ died s ∧ api_failed s;
  a_exited : exited (ago s) = true → api_failed s
}.

Record arely r s s' : Prop := {
  ar_past e : e ∈ ahist s → e ∈ ahist s';
  ar_stopping : stopping s → stopping s';
  ar_started q : q ∈ started (ago s) → q ∈ started (ago s');
  ar_starter q : api_starter q = Some r → q ∈ started (ago s') → q ∈ started (ago s);
  ar_exited : exited (ago s) = true → exited (ago s') = true;
  ar_server v : server_later (servers s v) (servers s' v);
  ar_bound : r = ApiListenR → bound (servers s ApiSrv) = true → bound (servers s' ApiSrv) = true ∨ stopping s' ∨ exited (ago s') = true
}.

#[export] Instance arely_preorder r : PreOrder (arely r).
Proof.
  split; [by split; auto|]. intros s1 s2 s3 H1 H2.
  split; try (intros; apply H2, H1; done); try (intros; apply H1; [done|]; by apply H2).
  - intros v. etrans; [apply H1 | apply H2].
  - intros Hr Hb. destruct (ar_bound _ _ _ H1 Hr Hb) as [?|[?|?]];
      [by apply H2 | right; left; by apply H2 | right; right; by apply H2].
Qed.

Lemma set_up_mono s s' : (∀ e, e ∈ ahist s → e ∈ ahist s') → set_up s → set_up s'.
Proof. intros H Hs. eapply Forall_impl; [exact Hs|]. intros step. apply H. Qed.

Lemma api_failed_mono s s' : (∀ e, e ∈ ahist s → e ∈ ahist s') → api_failed s → api_failed s'.
Proof. intros H. unfold api_failed. rewrite !Exists_exists. intros (e & He & Hx). exists e. auto. Qed.

Lemma died_mono s s' : (∀ e, e ∈ ahist s → e ∈ ahist s') → died s → died s'.
Proof. intros H. unfold died. rewrite !Exists_exists. intros (e & He & Hx). exists e. auto. Qed.

Lemma cut_mono s s' : (∀ e, e ∈ ahist s → e ∈ ahist s') →
  drain_expired s ∨ died s ∧ api_failed s → drain_expired s' ∨ died s' ∧ api_failed s'.
Proof.
  intros H [?|[? ?]]; [left; by apply H | right]. split; [by eapply died_mono | by eapply api_failed_mono].
Qed.

(** ** What is known at a call *)

Definition a_at_prim r {R} (k : ApiGoCall R) s : Prop :=
  match k with
  | Go q => api_starter q = Some r ∧ q ∉ started (ago s) ∧ (q = ApiListenR → set_up s)
  | Select cases _ => OnDone tt ∈ cases ∨ r = ApiSignalR
  | Begin | CtxErr _ | Cancel _ => True
  | _ => False
  end.

Definition a_at_server r (v : ApiServerName) {R} (k : ServerCall R) s : Prop :=
  match k with
  | BeginShutdown => v = ApiSrv → stopping s
  | CloseServer => v = ApiSrv → stopping s ∧ drain_expired s
  | AcceptLoop => r ≠ ApiMainR ∧ (v = ApiSrv → r = ApiListenR)
  | _ => True
  end.

Definition a_at r R (k : ApiCall R) s : Prop :=
  match k with
  | APrim k => a_at_prim r k s
  | ASrv v k => a_at_server r v k s
  | AStoreReady b => b = true → r = ApiListenR ∧ ApiListenR ∈ started (ago s) ∧
      (bound (servers s ApiSrv) = true ∨ stopping s ∨ exited (ago s) = true)
  | ASetup _ => True
  | AFatal => api_failed s
  end.

Lemma a_at_rely r R (k : ApiCall R) s s' : a_at r R k s → arely r s s' → a_at r R k s'.
Proof.
  intros Hk H. destruct k as [R k|v R k|b|step|]; cbn in *; try done.
  - destruct k; cbn in *; try done. destruct Hk as (Hq & Hn & Hs). split_and!; [done | |].
    + intros Hi. by apply Hn, (ar_starter _ _ _ H).
    + intros ->. eapply set_up_mono; [apply H | by apply Hs].
  - destruct k; cbn in *; try done; intros Hv; [by apply H, Hk|]. destruct (Hk Hv). split; by apply H.
  - intros Hb. destruct (Hk Hb) as (-> & Hs & Hx). split_and!; [done | by apply H |].
    destruct Hx as [Hx|[Hx|Hx]]; [by apply H | right; left; by apply H | right; right; by apply H].
  - eapply api_failed_mono; [apply H | done].
Qed.

(** ** The step *)

(** The record of a call is only ever of use. *)
Lemma a_record_rely r r' {R} (k : ApiCall R) x s s' : arely r' s s' → arely r' s (api_record r k x s').
Proof. intros H. split; try apply H. intros e He. by apply list_elem_of_further, H. Qed.

Lemma a_record_Inv r {R} (k : ApiCall R) x s : AInv s → AInv (api_record r k x s).
Proof.
  assert (∀ e, e ∈ ahist s → e ∈ ahist (api_record r k x s)) as Hm by (intros e; apply list_elem_of_further).
  intros HI. split; try apply HI.
  - intros Hs. eapply set_up_mono; [exact Hm | by apply HI].
  - intros Hr. destruct (a_ready _ HI Hr) as [Hs [?|[?|?]]]; (split; [done|]); [by left | by right; left | right; right].
    by eapply api_failed_mono.
  - intros Hc. by eapply cut_mono, HI.
  - intros Hx. eapply api_failed_mono; [exact Hm | by apply HI].
Qed.

(** A state that differs in its goroutines, its contexts and its signal. *)
Lemma a_go_Inv g s : AInv s → (∀ q, q ∈ started (ago s) → q ∈ started g) →
  (ApiListenR ∈ started g → set_up s) → (stopping s → cancelled g tt = true) →
  (exited g = true → api_failed s) → AInv (set_ago g s).
Proof.
  intros HI Hs Hl Hc Hx. split; try apply HI; [exact Hl | | | exact Hx].
  - intros Hr. destruct (a_ready _ HI Hr) as [? [?|[?|?]]]; (split; [by apply Hs|]); [by left | right; left | by right; right].
    by apply Hc.
  - intros Hcl. by apply Hc, HI.
Qed.

Lemma a_prim_respects r R (k : ApiGoCall R) s x g : AInv s → a_at_prim r k s → go_answers r R k (ago s) x g →
  AInv (set_ago g s) ∧ ∀ r', r' ≠ r → arely r' s (set_ago g s).
Proof.
  intros HI Hk Ha. revert Hk. assert (AInv (set_ago (ago s) s) ∧ ∀ r', r' ≠ r → arely r' s (set_ago (ago s) s)) as Hsame.
  { split; [by destruct s | intros; by destruct s]. }
  remember (ago s) as g0 eqn:Hg. revert Hg Hsame.
  destruct Ha as [g Hb | q g Hq | ch g Hc | ch g Hc Hb | cases default i gd g Hi Hr | cases g Hn | c g | [] g | w g | w g Hl | w g Hl | g];
    intros -> Hsame Hk; cbn in Hk; try done.
  - destruct Hk as (Hs & _ & Hm). split.
    + apply a_go_Inv; [done | intros; by apply list_elem_of_further | | done | apply HI].
      intros [<-|Hi]%elem_of_cons; [by apply Hm | by apply HI].
    + intros r' Hr'. split; try done; [intros; by apply list_elem_of_further | | by left].
      intros q' Hq' [->|Hi]%elem_of_cons; [congruence | done].
  - destruct gd as [ch | x | d]; cbn [receive]; try done.
    split; [apply a_go_Inv; try done; apply HI | by split; auto].
  - split; [apply a_go_Inv; try done; apply HI | by split; auto].
Qed.

Lemma servers_set v y s v' : servers (set_server v y s) v' = if decide (v = v') then y else servers s v'.
Proof. done. Qed.

(** A call of a server, with what was known: the port, the requests that were cut, and
    the shutdown. *)
Lemma a_server_Inv v y s : AInv s → server_ok y →
  (v = ApiSrv → bound (servers s v) = true → bound y = true ∨ stopping s ∨ api_failed s) →
  (v = ApiSrv → closing y = true → stopping s) → (v = ApiSrv → (0 < cut y)%nat → drain_expired s ∨ died s ∧ api_failed s) →
  AInv (set_server v y s).
Proof.
  intros HI Hok Hb Hc Hx. split; try apply HI.
  - intros v'. rewrite servers_set. case_decide; [done | apply HI].
  - intros Hr. rewrite servers_set. destruct (a_ready _ HI Hr) as [Hs Hd]. split; [done|].
    case_decide as Hv; [subst|done]. destruct Hd as [Hd|?]; [by apply Hb | by right].
  - rewrite servers_set. case_decide as Hv; [by subst; apply Hc | apply HI].
  - rewrite servers_set. case_decide as Hv; [by subst; apply Hx | apply HI].
Qed.

Lemma a_server_rely r v y s : server_later (servers s v) y →
  (r = ApiListenR → v = ApiSrv → bound (servers s v) = true → bound y = true ∨ stopping s) →
  arely r s (set_server v y s).
Proof.
  intros Hl Hb. split; try done.
  - intros v'. rewrite servers_set. case_decide; by subst.
  - intros Hr. rewrite servers_set. case_decide; [subst | by left]. intros Hbs. destruct (Hb eq_refl eq_refl Hbs); auto.
Qed.

(** What a call of a server does to the port. *)
Lemma server_call_port r v {R} (k : ServerCall R) s x y : AInv s → a_at_server r v k s → server_answers R k (servers s v) x y →
  v = ApiSrv → bound (servers s v) = true →
  bound y = true ∨ stopping s ∨ r = ApiListenR ∧ erred (mkEv (ASrv v k) x) = true.
Proof.
  intros HI Hk Ha Hv. subst v. pose proof (a_closing _ HI) as Hc. revert Hc Hk. generalize (servers s ApiSrv), Ha.
  destruct 1; cbn; intros Hc Hk Hb; auto; right; try (left; by apply Hk).
  right. split; [by apply Hk | done].
Qed.

Lemma a_server_respects r v R (k : ServerCall R) s x y : AInv s → a_at_server r v k s → server_answers R k (servers s v) x y →
  AInv (api_record r (ASrv v k) x (set_server v y s)) ∧ ∀ r', r' ≠ r → arely r' s (set_server v y s).
Proof.
  intros HI Hk Ha. destruct (server_answers_later _ _ _ _ _ (a_ok _ HI v) Ha) as [Hl Hok].
  pose proof (server_call_port r v k s x y HI Hk Ha) as Hp. split.
  - change (api_record r (ASrv v k) x (set_server v y s)) with (set_server v y (api_record r (ASrv v k) x s)).
    assert (∀ e, e ∈ ahist s → e ∈ ahist (api_record r (ASrv v k) x s)) as Hm by (intros e; apply list_elem_of_further).
    apply a_server_Inv; [by apply a_record_Inv | done | | |].
    + intros Hv Hb. destruct (Hp Hv Hb) as [?|[?|[_ ?]]]; [by left | by right; left | right; right]. by left.
    + intros Hv. subst v. intros Hc. pose proof (a_closing _ HI) as Hcl. clear Hp Hl Hok Hm. revert Hcl Hk Hc. generalize (servers s ApiSrv), Ha.
      destruct 1; cbn; intros Hcl Hk Hc;
        first [discriminate | by apply Hcl | exact (Hk eq_refl) | exact (proj1 (Hk eq_refl))].
    + intros Hv Hc. subst v. apply (cut_mono s); [exact Hm|]. pose proof (server_cut _ _ _ _ _ Ha) as Hcut.
      destruct k; try (apply HI; rewrite <- Hcut; exact Hc). left. by apply Hk.
  - intros r' Hr'. apply a_server_rely; [done|]. intros -> Hv Hb. destruct (Hp Hv Hb) as [?|[?|[-> _]]]; [by left | by right | done].
Qed.

(** The end of the process cuts off what is in flight. *)
Lemma a_fatal_respects r s : AInv s → api_failed s →
  AInv (api_record r AFatal tt (fatal s)) ∧ ∀ r', r' ≠ r → arely r' s (api_record r AFatal tt (fatal s)).
Proof.
  intros HI Hf. set (s' := api_record r AFatal tt (fatal s)).
  assert (∀ e, e ∈ ahist s → e ∈ ahist s') as Hm by (intros e; apply list_elem_of_further).
  assert (api_failed s') as Hf' by by eapply api_failed_mono.
  split.
  - split; try done.
    + intros Hs. eapply set_up_mono; [exact Hm | by apply HI].
    + intros Hr. destruct (a_ready _ HI Hr) as [Hs _]. split; [exact Hs | by right; right].
    + exact (a_closing _ HI).
    + intros _. right. split; [by apply Exists_cons_hd | done].
  - intros r' _. split; try done.
    + intros v. apply killed_later.
    + intros _ _. by right; right.
Qed.

Lemma a_calls_respect r R (k : ApiCall R) s x s' : AInv s → a_at r R k s → api_answered r R k s x s' →
  AInv s' ∧ ∀ r', r' ≠ r → arely r' s s'.
Proof.
  intros HI Hk [s1 _ He].
  destruct He as [R k s x g Ha | v R k s x y Ha | b s | step s err | s]; cbn in Hk.
  - destruct (a_prim_respects _ _ _ _ _ _ HI Hk Ha) as [HI' Hr].
    split; [by apply a_record_Inv | intros; by apply a_record_rely, Hr].
  - destruct (a_server_respects _ _ _ _ _ _ _ HI Hk Ha) as [HI' Hr].
    split; [done | intros; by apply a_record_rely, Hr].
  - split; [apply a_record_Inv | intros; apply a_record_rely; by split; auto].
    split; try apply HI. cbn. intros Hb. destruct (Hk Hb) as (_ & ? & Hx). split; [done|].
    destruct Hx as [?|[?|Hx]]; [by left | by right; left | right; right; by apply HI].
  - split; [by apply a_record_Inv | intros; by apply a_record_rely].
  - by apply a_fatal_respects.
Qed.

Lemma a_environment_respects s s' : AInv s → api_environment s s' → AInv s' ∧ ∀ r, arely r s s'.
Proof.
  intros HI He. destruct He as [s Hn | s | v x s Hx].
  - split; [apply a_go_Inv; [done | intros; by apply list_elem_of_further | | done | apply HI]|].
    + intros [[=]|Hi]%elem_of_cons. by apply HI.
    + intros r. split; try done; [intros; by apply list_elem_of_further | | by left].
      intros q Hq [->|Hi]%elem_of_cons; done.
  - split; [apply a_go_Inv; try done; apply HI | intros; by split; auto].
  - destruct (server_env_later _ _ (a_ok _ HI v) Hx) as [Hl Hok].
    assert (bound x = bound (servers s v) ∧ closing x = closing (servers s v) ∧ cut x = cut (servers s v)) as (Hb & Hc & Hcut)
      by (by destruct Hx).
    split; [apply a_server_Inv; [done | done | rewrite Hb; auto | rewrite Hc | rewrite Hcut]; intros ->; apply HI|].
    intros r. apply a_server_rely; [done|]. rewrite Hb. auto.
Qed.

Lemma a_init_Inv : AInv api_init_life.
Proof. split; cbn; try done; try lia. by intros ?%not_elem_of_nil. Qed.

(** ** The goroutines *)

Abbreviation aens := (ensures api_answered AInv arely a_at).

Definition a_after r {R} (k : ApiCall R) s (x : R) s2 : Prop :=
  ∃ s', s2 = api_record r k x s' ∧
  match k in ApiCall R return R → Prop with
  | APrim k => λ x, ∃ g, go_after r k (ago s) x g ∧ s' = set_ago g s
  | ASrv v k => λ x, ∃ y, server_after k (servers s v) x y ∧ s' = set_server v y s
  | AStoreReady b => λ _, s' = set_ready b s
  | ASetup _ => λ _, s' = s
  | AFatal => λ _, exited (ago s') = true
  end x.

Lemma a_answered_after r R (k : ApiCall R) s x s2 : api_answered r R k s x s2 → a_after r k s x s2.
Proof.
  intros [s' _ He]. exists s'. split; [done|]. destruct He; cbn; eauto using go_answers_after, server_answers_after.
Qed.

Lemma aens_step r {R B} (k : ApiCall R) (f : R → Prog ApiCall B) P s : a_at r R k s →
  (∀ s1 x s2, arely r s s1 → AInv s1 → AInv s2 → a_after r k s1 x s2 → aens r (f x) P s2) →
  aens r (pbind (call k) f) P s.
Proof. intros Hk Hf. split; [done|]. intros s1 x s2 Hr H1 Ha H2. by eapply Hf; eauto using a_answered_after. Qed.

Lemma aens_last r {R} (k : ApiCall R) (P : R → ApiLife → Prop) s : a_at r R k s →
  (∀ s1 x s2, arely r s s1 → AInv s1 → AInv s2 → a_after r k s1 x s2 → P x s2) → aens r (call k) P s.
Proof. intros Hk Hf. split; [done|]. intros s1 x s2 Hr H1 Ha H2. by eapply Hf; eauto using a_answered_after. Qed.

(** [log.Fatal] ends the process. *)
Lemma aens_fatal r (P : unit → ApiLife → Prop) s : api_failed s → (∀ s, exited (ago s) = true → P tt s) → aens r (call AFatal) P s.
Proof. intros Hf HP. apply aens_last; [done|]. intros s1 [] s2 _ _ _ (s' & -> & Hx). by apply HP. Qed.

(** The process is gone, or the API is shut down and no request is left. *)
Definition drained_api s : Prop :=
  stopping s ∧ closing (servers s ApiSrv) = true ∧ active (servers s ApiSrv) = 0%nat.

Definition api_fin r (b : unit) s : Prop :=
  match r with ApiMainR => exited (ago s) = true ∨ drained_api s | _ => True end.

Lemma drained_api_rely r s s' : arely r s s' → drained_api s → drained_api s'.
Proof.
  intros H (Hs & Hc & Ha). destruct (ar_server _ _ _ H ApiSrv) as [H1 H2 _]. specialize (H2 Hc).
  split_and!; [by apply H | by apply H1 | lia].
Qed.

Lemma api_fin_rely r b s s' : api_fin r b s → arely r s s' → api_fin r b s'.
Proof. destruct r; try done. intros [Hx|Hd] H; [left; by apply H | right; by eapply drained_api_rely]. Qed.

Lemma shutdownAPI_ok s : stopping s →
  aens ApiMainR (shutdownAPI ApiSrv shutdownGracePeriod) (λ _, drained_api) s.
Proof.
  intros Hs. apply aens_step; [by intros _|]. intros s1 x s2 Hr _ _ (s' & -> & y & Hy & ->).
  assert (stopping s1) as Hs1 by (by apply Hr).
  assert (closing (servers (set_server ApiSrv y s1) ApiSrv) = true) as Hc by (by rewrite servers_set, decide_True).
  apply aens_step; [done|]. intros s3 ok s4 Hr' _ _ (s' & -> & z & [-> Hz] & ->).
  assert (stopping s3 ∧ closing (servers s3 ApiSrv) = true) as [Hs3 Hc3].
  { split; [apply Hr', Hs1 | by apply (later_closing _ _ (ar_server _ _ _ Hr' ApiSrv))]. }
  destruct ok.
  - split_and!; [done | | ]; cbn; rewrite fn_lookup_insert; auto.
  - apply aens_last.
    + intros _. split; [done|]. left.
    + intros s5 [] s6 Hr'' _ _ (s' & -> & w & [Hw1 Hw2] & ->).
      split_and!; [apply Hr'', Hs3 | |]; cbn; by rewrite fn_lookup_insert.
Qed.

(** The steps of the set-up so far. *)
Definition prepared (l : list SetupStep) s : Prop :=
  Forall (λ step, step_done step s) l ∧ ApiListenR ∉ started (ago s).

Lemma prepared_rely l s s' : arely ApiMainR s s' → prepared l s → prepared l s'.
Proof.
  intros H [Hl Hn]. split; [eapply Forall_impl; [exact Hl|]; intros step; apply H|].
  intros Hi. by apply Hn, (ar_starter _ _ _ H).
Qed.

Lemma must_ok l step p (P : unit → ApiLife → Prop) s : prepared l s →
  (∀ s, exited (ago s) = true → P tt s) →
  (∀ s', prepared (l ++ [step]) s' → aens ApiMainR p P s') → aens ApiMainR (must step p) P s.
Proof.
  intros Hl Hx Hp. apply aens_step; [done|]. intros s1 err s2 Hr _ _ (s' & -> & ->).
  apply (prepared_rely _ _ _ Hr) in Hl as [Hl Hn]. destruct err as [err|].
  - apply aens_fatal; [by left | done].
  - apply Hp. split; [apply Forall_app; split | done].
    + eapply Forall_impl; [exact Hl|]. intros step' Hd. by apply list_elem_of_further.
    + apply Forall_singleton. left.
Qed.

Lemma api_serve_ok s : prepared setup_steps s → aens ApiMainR api_serve (λ _, drained_api) s.
Proof.
  intros [Hl Hn]. apply aens_step; [done|]. intros s1 [] s2 _ _ _ (s' & -> & g & -> & ->).
  apply aens_step; [left; left|]. intros s3 i s4 _ _ _ (s' & -> & g & Hg & ->).
  assert (stopping s3 ∧ g = ago s3) as [Hs ->].
  { destruct i as [[|i]|]; [|by destruct Hg as (gd & ? & _)|by destruct Hg]. by destruct Hg as (gd & [= <-] & Hs & ->). }
  apply aens_step; [done|]. intros s5 [] s6 Hr _ _ (s' & -> & ->). apply shutdownAPI_ok. apply Hr, Hs.
Qed.

Lemma api_run_ok s : prepared [RestConfig; Clientset; DynamicClient] s →
  aens ApiMainR (api_run tlsEnabled) (λ _ s', exited (ago s') = true ∨ drained_api s') s.
Proof.
  intros Hs. assert (∀ s, exited (ago s) = true → exited (ago s) = true ∨ drained_api s) as Hx by auto.
  eapply must_ok; [exact Hs | done |]. intros s1 H1. eapply must_ok; [exact H1 | done |]. intros s2 H2.
  eapply must_ok; [exact H2 | done |]. intros s3 H3. cbn in H3.
  assert (∀ s, prepared setup_steps s → aens ApiMainR api_serve (λ _ s', exited (ago s') = true ∨ drained_api s') s) as Hserve.
  { intros s4 H4. eapply ensures_post; [by apply api_serve_ok | auto]. }
  unfold setup_steps in Hserve. destruct tlsEnabled; [|by apply Hserve].
  eapply must_ok; [exact H3 | done | exact Hserve].
Qed.

Lemma go_ok q (f : unit → Prog ApiCall unit) P s : api_starter q = Some ApiMainR → q ≠ ApiListenR →
  q ∉ started (ago s) → (∀ s' s1, arely ApiMainR s s1 → s' = api_record ApiMainR (APrim (Go q)) tt (set_ago (start q (ago s1)) s1) →
    aens ApiMainR (f tt) P s') → aens ApiMainR (pbind (call (APrim (Go q))) f) P s.
Proof.
  intros Hq Hl Hn Hf. apply aens_step; [by split_and!|]. intros s1 [] s2 Hr _ _ (s' & -> & g & -> & ->). by eapply Hf.
Qed.

Lemma api_main_ok s : (∀ q, api_starter q = Some ApiMainR → q ∉ started (ago s)) →
  aens ApiMainR (api_main tlsEnabled) (λ _ s', exited (ago s') = true ∨ drained_api s') s.
Proof.
  intros Hs. apply go_ok; [done | done | by apply Hs |]. intros s1 s2 Hr ->.
  assert (∀ q, api_starter q = Some ApiMainR → q ∉ started (ago s2)) as H2.
  { intros q Hq Hi. apply (Hs q Hq). by apply (ar_starter _ _ _ Hr). }
  apply go_ok; [done | done | |]; [intros [[=]|Hi]%elem_of_cons; by apply (H2 ApiProbeR)|]. intros s3 s4 Hr' ->.
  eapply (must_ok []); [split; [constructor|] | auto |].
  { intros [[=]|Hi]%elem_of_cons. apply (ar_starter _ _ _ Hr') in Hi; [|done].
    apply elem_of_cons in Hi as [[=]|Hi]. by apply (H2 ApiListenR). }
  intros s5 H5. eapply must_ok; [exact H5 | auto |]. intros s6 H6. eapply must_ok; [exact H6 | auto |].
  intros s7 H7. eapply ensures_bind; [by apply api_run_ok|]. intros [] s8 Hd.
  apply aens_last; [done|]. intros s9 [] s10 Hr'' _ _ (s' & -> & g & -> & ->).
  pose proof (api_fin_rely ApiMainR tt _ _ Hd Hr'') as [Hx|(Hst & Hc & Ha)]; [by left | by right].
Qed.

Lemma api_Serve_ok r v s : r ≠ ApiMainR → (v = ApiSrv → r = ApiListenR) →
  aens r (api_Serve v) (λ err s', is_some err = true → v = ApiSrv → api_failed s') s.
Proof.
  intros Hm Hv. apply aens_step; [done|]. intros s1 [|] s2 _ _ _ (s' & -> & y & _ & ->); [|done].
  apply aens_last; [by split|]. intros s3 err s4 _ _ _ (s' & -> & z & _ & ->) He ->. left. cbn. by destruct err.
Qed.

Lemma api_listen_ok s : ApiListenR ∈ started (ago s) → aens ApiListenR api_listen (λ _ _, True) s.
Proof.
  intros Hs. apply aens_step; [done|]. intros s1 [err|] s2 Hr _ _ (s' & -> & y & Hy & ->).
  { apply aens_fatal; [by left | done]. }
  apply aens_step.
  { intros _. split_and!; [done | by apply Hr |]. left. cbn. rewrite fn_lookup_insert. apply Hy. }
  intros s3 [] s4 _ _ _ _. eapply ensures_bind; [by apply api_Serve_ok|].
  intros [err|] s5 Hf; [apply aens_fatal; [by apply Hf | done] | done].
Qed.

Lemma serveHealthProbe_ok s : ApiProbeStopR ∉ started (ago s) → aens ApiProbeR serveHealthProbe (λ _ _, True) s.
Proof.
  intros Hs. apply aens_step; [by split_and!|]. intros s1 [] s2 _ _ _ _.
  apply aens_step; [done|]. intros s3 [err|] s4 _ _ _ _; [done|].
  eapply ensures_bind; [by apply api_Serve_ok|]. done.
Qed.

Lemma api_body_ok r : aens r (api_body tlsEnabled r) (api_fin r) api_init_life.
Proof.
  apply aens_step; [done|]. intros s1 [] s2 Hr _ _ (s' & -> & g & [Hs ->] & ->).
  assert (∀ q, api_starter q = Some r → q ∉ started (ago s1)) as Hq.
  { intros q Hq Hi. apply (ar_starter _ _ _ Hr) in Hi; [|done]. by apply not_elem_of_nil in Hi. }
  destruct r.
  - apply api_main_ok. exact Hq.
  - apply aens_step; [by right|]. intros s3 i s4 _ _ _ _. by apply aens_last.
  - eapply ensures_post; [apply serveHealthProbe_ok | done]. by apply Hq.
  - apply aens_step; [left; left|]. intros s3 i s4 _ _ _ _. apply aens_step; [by intros ?|].
    intros s5 [] s6 _ _ _ _. by apply aens_step.
  - by apply api_listen_ok.
Qed.

(** ** All of them *)

Definition api_known : ApiLifeConfig → Prop := known api_answered api_routines AInv arely a_at api_fin.

Lemma api_routines_NoDup : NoDup api_routines.
Proof. apply (bool_decide_unpack _). by vm_compute. Qed.

Lemma api_known_turns x y : api_known x → turns api_answered api_environment api_routines x y → api_known y.
Proof.
  apply known_turns.
  - apply _.
  - intros. by eapply a_at_rely.
  - intros. by eapply a_calls_respect.
  - intros. by apply a_environment_respects.
  - apply api_routines_NoDup.
  - intros. by eapply api_fin_rely.
Qed.

Lemma api_turn_rely x y : api_known x → turns api_answered api_environment api_routines x y → ∃ r, arely r x.2 y.2.
Proof.
  apply (known_turn_rely _ _ _ _ _ _) with (r0 := ApiMainR) (r1 := ApiSignalR);
    [by intros; eapply a_calls_respect | by intros; eapply a_environment_respects|].
  intros r. destruct (decide (r = ApiMainR)) as [->|]; [by right | left; congruence].
Qed.

Lemma api_known_runs x : api_runs (api_life_init tlsEnabled) x → api_known x.
Proof.
  assert (api_known (api_life_init tlsEnabled)) as H0.
  { split; [apply a_init_Inv|]. intros i r p Hi Hp. change ((api_body tlsEnabled <$> api_routines) !! i = Some p) in Hp.
    rewrite list_lookup_fmap, Hi in Hp. injection Hp as <-. apply api_body_ok. }
  intros Hr. revert H0. generalize (api_life_init tlsEnabled), Hr. induction 1; [done|]. eauto using api_known_turns.
Qed.

(** C33: what the readiness probe says.  When it answers ok, every step of the set-up
    has succeeded, the certificate's too if the server uses TLS, and the port of the
    API accepts connections, unless the process is being stopped or the listener has
    failed.  No [log.Fatalf] ends the process but after a step of the set-up or the listener
    has failed. *)
Theorem ready_means_accepting ts s :
  api_runs (api_life_init tlsEnabled) (ts, s) →
  (readyHandler s = (200, "ok") →
     set_up s ∧ (bound (servers s ApiSrv) = true ∨ stopping s ∨ api_failed s)) ∧
  (exited (ago s) = true → api_failed s).
Proof.
  intros Hr. destruct (api_known_runs _ Hr) as [HI _]. cbn in HI. split; [|apply HI].
  unfold readyHandler. destruct (apiListenerReady s) eqn:Hready; [|done]. intros _.
  destruct (a_ready _ HI Hready) as [Hs Hb]. split; [by apply HI | done].
Qed.

Definition main_returned (x : ApiLifeConfig) : Prop := x.1 !! 0%nat = Some (Ret tt).

(** C32: the shutdown of the API server.  When [main] has returned, the process was
    ended by a failure, or the server is shut down, so that no request will come, and
    none is in flight.  A request is cut off only when the grace period of the
    shutdown (45 s) was over, or the process was ended by [log.Fatal] after a step of
    the set-up or the listener had failed, which takes the requests in flight with it
    without any grace. *)
Theorem requests_drained ts s :
  api_runs (api_life_init tlsEnabled) (ts, s) →
  (main_returned (ts, s) → exited (ago s) = true ∨ drained_api s) ∧
  ((0 < cut (servers s ApiSrv))%nat → drain_expired s ∨ died s ∧ api_failed s).
Proof.
  intros Hr. destruct (api_known_runs _ Hr) as [HI Hts]. cbn in HI. split; [|apply HI].
  intros Hp. exact (Hts 0%nat _ _ eq_refl Hp).
Qed.

(** ** The end *)

Definition api_ending (x : ApiLifeConfig) : Prop :=
  api_known x ∧ length x.1 = length api_routines ∧ stopping x.2 ∧ ApiMainR ∈ started (ago x.2).

Lemma api_ending_turns x y : api_ending x → turns api_answered api_environment api_routines x y → api_ending y.
Proof.
  intros (Hk & Hl & Hc & Hs) Ht. destruct (api_turn_rely _ _ Hk Ht) as [r Hr].
  split_and!; [by eapply api_known_turns | | by apply (ar_stopping _ _ _ Hr) | by apply (ar_started _ _ _ Hr)].
  by rewrite (turns_length _ _ _ _ _ Ht).
Qed.

(** No call of [main] blocks once a signal came. *)
Lemma main_answerable {R} (k : ApiCall R) s : a_at ApiMainR R k s → ApiMainR ∈ started (ago s) → stopping s →
  exited (ago s) = false → ∃ x s', api_answered ApiMainR R k s x s'.
Proof.
  intros Hk Hs Hst Hx. assert ((∃ x s', api_effect ApiMainR R k s x s') → ∃ x s', api_answered ApiMainR R k s x s') as H.
  { intros (x & s' & He). exists x. eexists. by constructor. }
  apply H. clear H. destruct k as [R k|v R k|b|step|]; cbn in Hk.
  - assert ((∃ x g, go_answers ApiMainR R k (ago s) x g) → ∃ x s', api_effect ApiMainR R (APrim k) s x s') as H.
    { intros (x & g & Ha). eexists _, _. by constructor. }
    apply H. destruct k; cbn in Hk; try done; try (by do 2 eexists; constructor).
    + do 2 eexists. constructor. apply Hk.
    + destruct Hk as [Hin|[=]]. apply list_elem_of_lookup in Hin as [i Hi]. by do 2 eexists; eapply ans_case.
  - destruct (server_answerable k (servers s v)) as (x & y & Ha); [|eexists _, _; by constructor].
    destruct k; cbn in *; tauto.
  - eexists _, _. constructor.
  - exists None. eexists. constructor.
  - eexists _, _. constructor.
Qed.

(** A signal ends the API server, whatever its clients do.  From every state in
    which the process runs and its context is done, [main] returns, unless a failure
    ends the process before; and until then [main] itself can act: it waits for no
    request beyond the grace period. *)
Theorem signal_ends_api ts s :
  api_runs (api_life_init tlsEnabled) (ts, s) → stopping s → ApiMainR ∈ started (ago s) →
  inevitable api_answered api_environment api_routines (λ r, r = ApiMainR)
    (λ x, main_returned x ∨ exited (ago x.2) = true) (ts, s).
Proof.
  intros Hr Hst Hs. eapply (inevitable_intro _ _ _ _ _ api_ending).
  - exact api_ending_turns.
  - clear ts s Hr Hst Hs. intros [ts s] ([HI Hts] & Hlen & Hst & Hs). cbn in *.
    destruct (exited (ago s)) eqn:Hx; [by left; right|].
    destruct (lookup_lt_is_Some_2 ts 0) as [p Hp]; [rewrite Hlen; cbn; lia|].
    pose proof (Hts 0%nat ApiMainR p eq_refl Hp) as He. destruct p as [[] | R k kont]; [by left; left|]. right.
    destruct He as [Hat _]. destruct (main_answerable _ _ Hat Hs Hst Hx) as (x & s' & Ha).
    exists ApiMainR. eexists. split; [done|]. by eapply (acts_call _ _ _ _ 0%nat).
  - split_and!; [by eapply api_known_runs | rewrite (runs_length _ _ _ _ _ Hr); done | done | done].
Qed.
End Life.

(** * At concrete inputs *)

(** [hint] chooses among the answers of a call. *)
Definition api_exec (r : ApiRoutine) (hint : nat) {R} (k : ApiCall R) (s : ApiLife) : option (R * ApiLife) :=
  match k in ApiCall R return option (R * ApiLife) with
  | APrim k => match exec_prim r hint k (ago s) with Some (x, g) => Some (x, set_ago g s) | None => None end
  | ASrv v k => match server_exec hint k (servers s v) with Some (x, y) => Some (x, set_server v y s) | None => None end
  | AStoreReady b => Some (tt, set_ready b s)
  | ASetup _ => Some (match hint with O => None | _ => Some (mkErr KOther "set-up") end, s)
  | AFatal => Some (tt, fatal s)
  end.

Lemma api_exec_sound r hint R (k : ApiCall R) s x s' : api_exec r hint k s = Some (x, s') → api_effect r R k s x s'.
Proof.
  destruct k; cbn; intros He.
  - destruct (exec_prim r hint c (ago s)) as [[y g]|] eqn:Hp; simplify_eq. constructor. by eapply exec_prim_sound.
  - destruct (server_exec hint c (servers s v)) as [[y z]|] eqn:Hp; simplify_eq. constructor. by eapply server_exec_sound.
  - simplify_eq. by constructor.
  - simplify_eq. by constructor.
  - simplify_eq. by constructor.
Qed.

Inductive ApiChoice := ATurn (i hint : nat) | ABoot | ASignal | AArrives | AEnds.

Definition api_choose (x : ApiLifeConfig) (ch : ApiChoice) : option ApiLifeConfig :=
  let '(ts, s) := x in
  let v := servers s ApiSrv in
  match ch with
  | ABoot => if bool_decide (ApiMainR ∈ started (ago s)) then None else Some (ts, set_ago (start ApiMainR (ago s)) s)
  | ASignal => Some (ts, set_ago (set_chan SigChan (mkChan 1 false) (ago s)) s)
  | AArrives => if tracked v && bound v
      then Some (ts, set_server ApiSrv (mkServer (bound v) (tracked v) (closing v) (S (active v)) (cut v)) s) else None
  | AEnds => match active v with
      | O => None
      | S n => Some (ts, set_server ApiSrv (mkServer (bound v) (tracked v) (closing v) n (cut v)) s)
      end
  | ATurn i hint => if exited (ago s) then None else
      match api_routines !! i, ts !! i with
      | Some r, Some (Do k kont) => match api_exec r hint k s with
          | Some (y, s') => Some (<[i := kont y]> ts, api_record r k y s')
          | None => None
          end
      | _, _ => None
      end
  end.

Lemma api_choose_turns x ch y : api_choose x ch = Some y → turns api_answered api_environment api_routines x y.
Proof.
  destruct x as [ts s], ch; cbn -[api_routines api_exec]; intros He.
  - destruct (exited (ago s)) eqn:Hx; [done|].
    destruct (api_routines !! i) as [r|] eqn:Hi; [|done]. destruct (ts !! i) as [[|R k kont]|] eqn:Hp; [done | | done].
    destruct (api_exec r hint k s) as [[a s']|] eqn:Hk; simplify_eq. eapply turns_act, acts_call; [done | done |].
    constructor; [done | by eapply api_exec_sound].
  - case_bool_decide; simplify_eq. apply turns_env. by constructor.
  - simplify_eq. apply turns_env. constructor.
  - destruct (tracked _ && bound _) eqn:Hb; simplify_eq. apply andb_true_iff in Hb as [? ?].
    apply turns_env. constructor. by constructor.
  - destruct (active (servers s ApiSrv)) as [|n] eqn:Ha; simplify_eq. apply turns_env. constructor. by constructor.
Qed.

Fixpoint api_play (x : ApiLifeConfig) (chs : list ApiChoice) : option ApiLifeConfig :=
  match chs with [] => Some x | ch :: chs => match api_choose x ch with Some y => api_play y chs | None => None end end.

Lemma api_play_runs x chs y : api_play x chs = Some y → api_runs x y.
Proof.
  revert x. induction chs as [|ch chs IH]; intros x; cbn -[api_choose]; [by intros [= ->]; apply rtc_refl|].
  destruct (api_choose x ch) as [z|] eqn:Hc; [|done]. intros Hp. eapply rtc_l; [by eapply api_choose_turns | by apply IH].
Qed.

Definition api_demo (chs : list ApiChoice) : ApiLifeConfig := default (api_life_init true) (api_play (api_life_init true) chs).

Lemma api_demo_runs chs : is_Some (api_play (api_life_init true) chs) → api_runs (api_life_init true) ((api_demo chs).1, (api_demo chs).2).
Proof. intros [y Hy]. unfold api_demo. rewrite Hy. cbn. destruct y. by apply (api_play_runs _ chs). Qed.

Definition api_turns (i n : nat) : list ApiChoice := replicate n (ATurn i 0).
(** The API is up, and has two requests in flight. *)
Definition api_up : list ApiChoice := ABoot :: api_turns 0 11 ++ api_turns 4 4 ++ [AArrives; AArrives].
(** A signal comes, and the shutdown begins. *)
Definition api_signalled : list ApiChoice := ASignal :: api_turns 1 3 ++ api_turns 0 3.
(** One request ends in time, the other does not. *)
Definition api_slow : list ApiChoice := api_up ++ api_signalled ++ [AEnds; ATurn 0 1] ++ api_turns 0 2.

Ltac api_plays := vm_compute; by eexists.

Lemma ready_means_accepting_witness :
  let s := (api_demo api_up).2 in
  readyHandler s = (200, "ok") ∧ (set_up true s ∧ (bound (servers s ApiSrv) = true ∨ stopping s ∨ api_failed s)).
Proof.
  assert (api_runs (api_life_init true) ((api_demo api_up).1, (api_demo api_up).2)) as Hr by (apply api_demo_runs; api_plays).
  destruct (ready_means_accepting true _ _ Hr) as [Hready _]. split; [by vm_compute | apply Hready; by vm_compute].
Defined.

Lemma requests_drained_witness :
  let x := api_demo api_slow in
  main_returned x ∧ (exited (ago x.2) = true ∨ drained_api x.2) ∧ cut (servers x.2 ApiSrv) = 1%nat ∧
  (drain_expired x.2 ∨ died x.2 ∧ api_failed x.2).
Proof.
  assert (api_runs (api_life_init true) ((api_demo api_slow).1, (api_demo api_slow).2)) as Hr by (apply api_demo_runs; api_plays).
  destruct (requests_drained true _ _ Hr) as [Hm Hc].
  split_and!; [by vm_compute | apply Hm; by vm_compute | by vm_compute | apply Hc; vm_compute; lia].
Defined.

Lemma signal_ends_api_witness :
  let x := api_demo (api_up ++ api_signalled) in
  stopping x.2 ∧ active (servers x.2 ApiSrv) = 2%nat ∧
  inevitable api_answered api_environment api_routines (λ r, r = ApiMainR)
    (λ x, main_returned x ∨ exited (ago x.2) = true) (x.1, x.2).
Proof.
  split; [by vm_compute|]. split; [by vm_compute|].
  apply (signal_ends_api true); [apply api_demo_runs; api_plays | by vm_compute | vm_compute; repeat (first [left | right])].
Defined.

(** The signal comes while the listener is being opened: the flag is cleared first and
    set then, so that the probe says ok of a server that was shut down. *)
Definition late_ready : list ApiChoice :=
  ABoot :: api_turns 0 11 ++ api_turns 4 2 ++ ASignal :: api_turns 1 3 ++ api_turns 0 5 ++ api_turns 4 2.

Lemma ready_after_shutdown :
  let x := api_demo late_ready in
  api_runs (api_life_init true) (x.1, x.2) ∧ main_returned x ∧ exited (ago x.2) = false ∧
  readyHandler x.2 = (200, "ok") ∧ bound (servers x.2 ApiSrv) = false.
Proof. split; [apply api_demo_runs; api_plays | by vm_compute]. Qed.
