(* ===== verification/DeepCopy.v ===== *)
(** The resources of PureLB and their copies, [lbcontroller/pkg/purelb/types.go].

    The copies are written by hand, field by field, over Go's pointers and slices, so
    there is a heap: a pointer is a location, and a slice the location of its array.
    What a value stands for is read through the heap ([denote]); what it is made of are
    the locations it can reach ([locs]).  The metadata is of the Kubernetes library: a
    class with the laws of its own [DeepCopyInto]. *)

From stdpp Require Import fin_map_dom.
From S2P Require Import Prelude.

Definition Loc : Type := positive.
Definition Ptr (A : Type) : Type := option Loc.                 (* nil or not *)
Definition Slice (A : Type) : Type := option Loc.               (* nil, or its array *)

(** ** The resources *)

Record AddressPool := mkAddressPool { Subnet : string; Pool : string; Aggregation : string }.
Record ServiceGroupLocal := mkGroupLocal { V4Pools : Slice AddressPool; V6Pools : Slice AddressPool }.
Record ServiceGroupSpec := mkGroupSpec { sgs_Local : Ptr ServiceGroupLocal }.
Record LBNodeAgentLocal := mkAgentLocal { ExtLBInt : string; LocalInt : string; SendGARP : Ptr bool }.
Record LBNodeAgentSpec := mkAgentSpec { las_Local : Ptr LBNodeAgentLocal }.
(** A [ServiceGroup] or an [LBNodeAgent], and the lists of them. *)
Record Resource (O A : Type) := mkResource { r_type : string; r_meta : O; r_spec : A }.
Record ResourceList (L A : Type) := mkResourceList { rl_type : string; rl_meta : L; rl_Items : Slice A }.
Arguments mkResource {O A}.
Arguments r_type {O A}.
Arguments r_meta {O A}.
Arguments r_spec {O A}.
Arguments mkResourceList {L A}.
Arguments rl_type {L A}.
Arguments rl_meta {L A}.
Arguments rl_Items {L A}.

Section Copies.
(** [O] is [ObjectMeta], [L] is [ListMeta]; their maps and pointers are cells [M]. *)
Context {O L M : Type}.

Inductive Cell :=
| CPools (x : list AddressPool)
| CGroupLocal (x : ServiceGroupLocal)
| CAgentLocal (x : LBNodeAgentLocal)
| CBool (x : bool)
| CGroup (x : Resource O ServiceGroupSpec)
| CGroups (x : list (Resource O ServiceGroupSpec))
| CGroupList (x : ResourceList L (Resource O ServiceGroupSpec))
| CAgent (x : Resource O LBNodeAgentSpec)
| CAgents (x : list (Resource O LBNodeAgentSpec))
| CAgentList (x : ResourceList L (Resource O LBNodeAgentSpec))
| CMeta (x : M).

Abbreviation Heap := (gmap Loc Cell).

Definition alloc (c : Cell) (h : Heap) : Loc * Heap := let l := fresh (dom h) in (l, <[l := c]> h).

(** ** Values that are copied *)

(** [V] is what a value stands for, [None] when it dangles. *)
Class Copied (A V : Type) := {
  denote : Heap → A → option V;
  locs : Heap → A → gset Loc;
  copy : A → Heap → A * Heap
}.

(** What a value stands for is determined by the cells it reaches; a copy stands for
    the same, is made of new cells only, and leaves the others. *)
Class CopyLaws A V `{Copied A V} : Prop := {
  reads h a v : denote h a = Some v → locs h a ⊆ dom h ∧
    ∀ h', (∀ l, l ∈ locs h a → h' !! l = h !! l) → denote h' a = Some v ∧ locs h' a = locs h a;
  copies h a v a' h' : denote h a = Some v → copy a h = (a', h') →
    h ⊆ h' ∧ denote h' a' = Some v ∧ locs h' a' ## dom h
}.

Lemma agrees (S : gset Loc) (h h' : Heap) : S ⊆ dom h → h ⊆ h' → ∀ l, l ∈ S → h' !! l = h !! l.
Proof. intros HS Hh l Hl. apply HS, elem_of_dom in Hl as [c Hc]. rewrite Hc. by eapply lookup_weaken. Qed.

Lemma denote_mono {A V} `{CopyLaws A V} h h' a v : denote h a = Some v → h ⊆ h' → denote h' a = Some v ∧ locs h' a = locs h a.
Proof. intros Hv Hh. destruct (reads h a v Hv) as [Hd Hr]. by apply Hr, agrees. Qed.

Lemma alloc_spec c h l h' : alloc c h = (l, h') → l ∉ dom h ∧ h' !! l = Some c ∧ h ⊆ h'.
Proof.
  intros [= <- <-]. assert (fresh (dom h) ∉ dom h) as Hn by apply is_fresh.
  split_and!; [done | by rewrite lookup_insert_eq | by apply insert_subseteq, not_elem_of_dom].
Qed.

(** ** Plain values, lists, and what is behind a pointer *)

Definition plain {A} : Copied A A := {| denote := λ _ a, Some a; locs := λ _ _, ∅; copy := λ a h, (a, h) |}.

Lemma plain_laws {A} : CopyLaws A A (H := plain).
Proof. split; cbn; [intros h a v [= ->]; split; [set_solver | done] | intros h a v a' h' [= ->] [= <- <-]; split_and!; [done | done | set_solver]]. Qed.

Section Elements.
Context {A V : Type} `{HC : Copied A V}.

Fixpoint copy_all (xs : list A) (h : Heap) : list A * Heap :=
  match xs with
  | [] => ([], h)
  | x :: xs => let '(x', h) := copy x h in let '(xs', h) := copy_all xs h in (x' :: xs', h)
  end.

Lemma denote_cons h x xs v : mapM (denote h) (x :: xs) = Some v →
  ∃ y ys, denote h x = Some y ∧ mapM (denote h) xs = Some ys ∧ v = y :: ys.
Proof.
  intros Hv. cbn in Hv. apply bind_Some in Hv as (y & Hy & (ys & Hys & [= <-])%bind_Some). eauto.
Qed.

Lemma denote_cons_2 h x xs y ys : denote h x = Some y → mapM (denote h) xs = Some ys → mapM (denote h) (x :: xs) = Some (y :: ys).
Proof. intros Hy Hys. apply bind_Some. exists y. split; [done|]. apply bind_Some. eauto. Qed.

#[export] Instance copied_list : Copied (list A) (list V) :=
  {| denote := λ h, mapM (denote h); locs := λ h xs, ⋃ (locs h <$> xs); copy := copy_all |}.

Context `{!CopyLaws A V}.

Lemma list_reads h (xs : list A) ys : mapM (denote h) xs = Some ys → ⋃ (locs h <$> xs) ⊆ dom h ∧
  ∀ h', (∀ l, l ∈ ⋃ (locs h <$> xs) → h' !! l = h !! l) → mapM (denote h') xs = Some ys ∧ ⋃ (locs h' <$> xs) = ⋃ (locs h <$> xs).
Proof.
  revert ys. induction xs as [|x xs IH]; intros ys' Hv; [split; [set_solver | intros; by split]|].
  apply denote_cons in Hv as (y & ys & Hy & Hys & ->). destruct (reads h x y Hy) as [Hd Hr], (IH _ Hys) as [Hds Hrs].
  split; [set_solver|]. intros h' Hh. cbn in Hh.
  destruct (Hr h') as [Hx Hl]; [set_solver|]. destruct (Hrs h') as [Hxs Hls]; [set_solver|].
  split; [by apply denote_cons_2 | cbn; by rewrite Hl, Hls].
Qed.

Lemma copy_all_spec xs : ∀ h ys xs' h', mapM (denote h) xs = Some ys → copy_all xs h = (xs', h') →
  h ⊆ h' ∧ mapM (denote h') xs' = Some ys ∧ ⋃ (locs h' <$> xs') ## dom h.
Proof.
  induction xs as [|x xs IH]; intros h v xs' h' Hv Hc; cbn in Hc.
  { cbn in *. simplify_eq. split_and!; [done | done | set_solver]. }
  apply denote_cons in Hv as (y & ys & Hy & Hys & ->).
  destruct (copy x h) as [x' h1] eqn:Hx, (copy_all xs h1) as [xs1 h2] eqn:Hxs. simplify_eq.
  destruct (copies h x y x' h1 Hy Hx) as (Hh1 & Hy1 & Hl1).
  destruct (list_reads h xs ys Hys) as [Hd Hr]. destruct (Hr h1 (agrees _ _ _ Hd Hh1)) as [Hys1 _].
  destruct (IH h1 ys xs1 h' Hys1 Hxs) as (Hh2 & Hys2 & Hl2).
  destruct (denote_mono h1 h' x' y Hy1 Hh2) as [Hy2 Hl1'].
  split_and!; [by etrans | by apply denote_cons_2 |]. cbn. rewrite Hl1'.
  apply subseteq_dom in Hh1. set_solver.
Qed.

#[export] Instance list_laws : CopyLaws (list A) (list V).
Proof. split; [apply list_reads | intros; by eapply copy_all_spec]. Qed.
End Elements.

(** A pointer, or a slice, to a cell of one kind. *)
Section Pointer.
Context {A V : Type} `{HC : Copied A V} (inj : A → Cell) (proj : Cell → option A).

Definition pointed (h : Heap) (p : option Loc) : option A := l ← p; c ← h !! l; proj c.

Definition pointer : Copied (option Loc) (option V) := {|
  denote := λ h p, match p with None => Some None | Some _ => x ← pointed h p; v ← denote h x; Some (Some v) end;
  locs := λ h p, match p with None => ∅ | Some l => {[l]} ∪ from_option (locs h) ∅ (pointed h p) end;
  copy := λ p h, match pointed h p with
    | None => (None, h)
    | Some x => let '(x', h) := copy x h in let '(l, h) := alloc (inj x') h in (Some l, h)
    end
|}.

Context `{!CopyLaws A V} (Hproj : ∀ x, proj (inj x) = Some x).

Lemma pointed_eq h h' l : h' !! l = h !! l → pointed h' (Some l) = pointed h (Some l).
Proof. intros Hl. unfold pointed. simpl. by rewrite Hl. Qed.

Lemma pointed_inj h l x : h !! l = Some (inj x) → pointed h (Some l) = Some x.
Proof. intros Hl. unfold pointed. simpl. rewrite Hl. simpl. apply Hproj. Qed.

Lemma denote_pointer h p v : denote (Copied := pointer) h p = Some v →
  p = None ∧ v = None ∨ ∃ l x y, p = Some l ∧ v = Some y ∧ l ∈ dom h ∧ pointed h (Some l) = Some x ∧ denote h x = Some y.
Proof.
  destruct p as [l|]; [|intros [= <-]; by left]. intros Hv. right.
  apply bind_Some in Hv as (x & Hx & (y & Hy & [= <-])%bind_Some). exists l, x, y. split_and!; try done.
  apply bind_Some in Hx as (c & Hc & _). by eapply elem_of_dom_2.
Qed.

Lemma pointer_laws : CopyLaws (option Loc) (option V) (H := pointer).
Proof.
  split.
  - intros h p v [[-> ->]|(l & x & y & -> & -> & Hl & Hx & Hy)]%denote_pointer; [split; [set_solver | intros; by split]|].
    destruct (reads h x y Hy) as [Hd Hr]. cbn -[pointed]. rewrite Hx. split; [set_solver|]. intros h' Hh. simpl in Hh.
    destruct (Hr h') as [Hy' Hl']; [set_solver|]. rewrite (pointed_eq h h'), Hx by set_solver. simpl.
    rewrite Hl'. split; [|done]. apply bind_Some. eauto.
  - intros h p v p' h' [[-> ->]|(l & x & y & -> & -> & Hl & Hx & Hy)]%denote_pointer.
    { intros [= <- <-]. cbn. split_and!; [done | done | set_solver]. }
    cbn -[pointed alloc]. rewrite Hx. destruct (copy x h) as [x' h1] eqn:Hc, (alloc (inj x') h1) as [l' h2] eqn:Ha.
    intros [= <- <-]. destruct (copies h x y x' h1 Hy Hc) as (Hh1 & Hy1 & Hl1).
    destruct (alloc_spec _ _ _ _ Ha) as (Hf & Hl' & Hh2). destruct (denote_mono h1 h2 x' y Hy1 Hh2) as [Hy2 Hl2].
    split; [by etrans|]. cbn -[pointed]. rewrite (pointed_inj _ _ _ Hl'). split.
    { simpl. apply bind_Some. eauto. }
    simpl. rewrite Hl2. apply subseteq_dom in Hh1. set_solver.
Qed.
End Pointer.

(** Two parts, one after the other. *)
#[export] Instance copied_prod {A V B W} `{Copied A V, Copied B W} : Copied (A * B) (V * W) := {|
  denote := λ h x, v ← denote h x.1; w ← denote h x.2; Some (v, w);
  locs := λ h x, locs h x.1 ∪ locs h x.2;
  copy := λ x h, let '(a, h) := copy x.1 h in let '(b, h) := copy x.2 h in ((a, b), h)
|}.

#[export] Instance prod_laws {A V B W} `{CopyLaws A V, CopyLaws B W} : CopyLaws (A * B) (V * W).
Proof.
  split; intros h [a b] [v w] *.
  - intros (v' & Ha & (w' & Hb & [= -> ->])%bind_Some)%bind_Some. simpl in *.
    destruct (reads h a v Ha) as [Hda Hra], (reads h b w Hb) as [Hdb Hrb]. split; [set_solver|]. intros h' Hh.
    destruct (Hra h') as [Ha' Hla]; [set_solver|]. destruct (Hrb h') as [Hb' Hlb]; [set_solver|].
    rewrite Hla, Hlb. split; [|done]. apply bind_Some. exists v. split; [done|]. apply bind_Some. eauto.
  - intros (v' & Ha & (w' & Hb & [= -> ->])%bind_Some)%bind_Some. simpl in *.
    destruct (copy a h) as [a1 h1] eqn:Hca, (copy b h1) as [b1 h2] eqn:Hcb. intros [= <- <-].
    destruct (copies h a v a1 h1 Ha Hca) as (Hh1 & Ha1 & Hl1). destruct (denote_mono h h1 b w Hb Hh1) as [Hb1 _].
    destruct (copies h1 b w b1 h2 Hb1 Hcb) as (Hh2 & Hb2 & Hl2). destruct (denote_mono h1 h2 a1 v Ha1 Hh2) as [Ha2 Hl1'].
    split_and!; [by etrans | apply bind_Some; exists v; split; [done|]; apply bind_Some; eauto |]. simpl.
    rewrite Hl1'. apply subseteq_dom in Hh1. set_solver.
Qed.

(** [*out = *in], and then the parts that hold pointers are replaced. *)
Section Struct.
Context {A V C U : Type} `{HC : Copied A V} (part : C → A) (rest : C → U) (put : C → A → C).

Definition struct : Copied C (U * V) := {|
  denote := λ h x, v ← denote h (part x); Some (rest x, v);
  locs := λ h x, locs h (part x);
  copy := λ x h, let '(a, h) := copy (part x) h in (put x a, h)
|}.

Lemma struct_laws `{!CopyLaws A V} : (∀ x a, part (put x a) = a) → (∀ x a, rest (put x a) = rest x) → CopyLaws C (U * V) (H := struct).
Proof.
  intros Hp Hr. split; intros h x [u v] *.
  - intros (v' & Hv & [= <- ->])%bind_Some. destruct (reads h (part x) v Hv) as [Hd Hrd]. split; [done|].
    intros h' Hh. destruct (Hrd h' Hh) as [Hv' Hl]. split; [apply bind_Some; eauto | done].
  - intros (v' & Hv & [= <- ->])%bind_Some. simpl. destruct (copy (part x) h) as [a h1] eqn:Hc. intros [= <- <-].
    destruct (copies h (part x) v a h1 Hv Hc) as (Hh & Ha & Hl). rewrite Hp, Hr. split_and!; [done | apply bind_Some; eauto | done].
Qed.
End Struct.

(** ** The copies of the source *)

Context {VO VL : Type} `{HO : Copied O VO, HOL : !CopyLaws O VO, HL : Copied L VL, HLL : !CopyLaws L VL}.

Definition pools_copy : Copied (Slice AddressPool) (option (list AddressPool)) :=
  pointer (HC := copied_list (HC := plain)) CPools (λ c, match c with CPools x => Some x | _ => None end).

Definition ServiceGroupLocal_copy : Copied ServiceGroupLocal (unit * (option (list AddressPool) * option (list AddressPool))) :=
  struct (HC := @copied_prod _ _ _ _ pools_copy pools_copy) (λ x, (V4Pools x, V6Pools x)) (λ _, tt) (λ _ a, mkGroupLocal a.1 a.2).

Definition ServiceGroupSpec_copy : Copied ServiceGroupSpec (unit * option _) :=
  struct (HC := pointer (HC := ServiceGroupLocal_copy) CGroupLocal (λ c, match c with CGroupLocal x => Some x | _ => None end))
    sgs_Local (λ _, tt) (λ _ p, mkGroupSpec p).

Definition LBNodeAgentLocal_copy : Copied LBNodeAgentLocal ((string * string) * option bool) :=
  struct (HC := pointer (HC := plain) CBool (λ c, match c with CBool x => Some x | _ => None end))
    SendGARP (λ x, (ExtLBInt x, LocalInt x)) (λ x p, mkAgentLocal (ExtLBInt x) (LocalInt x) p).

Definition LBNodeAgentSpec_copy : Copied LBNodeAgentSpec (unit * option _) :=
  struct (HC := pointer (HC := LBNodeAgentLocal_copy) CAgentLocal (λ c, match c with CAgentLocal x => Some x | _ => None end))
    las_Local (λ _, tt) (λ _ p, mkAgentSpec p).

Definition resource_copy {A V} (c : Copied A V) : Copied (Resource O A) (string * (VO * V)) :=
  struct (HC := @copied_prod _ _ _ _ HO c) (λ x, (r_meta x, r_spec x)) r_type (λ x a, mkResource (r_type x) a.1 a.2).

Definition list_copy {A V} (c : Copied A V) (inj : list A → Cell) (proj : Cell → option (list A)) :
    Copied (ResourceList L A) (string * (VL * option (list V))) :=
  struct (HC := @copied_prod _ _ _ _ HL (pointer (HC := copied_list (HC := c)) inj proj))
    (λ x, (rl_meta x, rl_Items x)) rl_type (λ x a, mkResourceList (rl_type x) a.1 a.2).

Definition ServiceGroup_copy := resource_copy ServiceGroupSpec_copy.
Definition LBNodeAgent_copy := resource_copy LBNodeAgentSpec_copy.
Definition ServiceGroupList_copy := list_copy ServiceGroup_copy CGroups (λ c, match c with CGroups x => Some x | _ => None end).
Definition LBNodeAgentList_copy := list_copy LBNodeAgent_copy CAgents (λ c, match c with CAgents x => Some x | _ => None end).

(** The methods have pointer receivers: nil copies to nil, the rest to a new object. *)
Definition ServiceGroup_DeepCopy := pointer (HC := ServiceGroup_copy) CGroup (λ c, match c with CGroup x => Some x | _ => None end).
Definition ServiceGroupList_DeepCopy :=
  pointer (HC := ServiceGroupList_copy) CGroupList (λ c, match c with CGroupList x => Some x | _ => None end).
Definition LBNodeAgent_DeepCopy := pointer (HC := LBNodeAgent_copy) CAgent (λ c, match c with CAgent x => Some x | _ => None end).
Definition LBNodeAgentList_DeepCopy :=
  pointer (HC := LBNodeAgentList_copy) CAgentList (λ c, match c with CAgentList x => Some x | _ => None end).

(** ** Copies share nothing *)

(** The copy stands for the same value as the original, and whatever is written to what
    one of them reaches, the other still stands for that value. *)
Definition separate {A V} (c : Copied A V) : Prop := ∀ h a v a' h',
  denote h a = Some v → copy a h = (a', h') →
  denote h' a' = Some v ∧ denote h' a = Some v ∧
  (∀ h2, (∀ l, l ∉ locs h' a' → h2 !! l = h' !! l) → denote h2 a = Some v) ∧
  (∀ h2, (∀ l, l ∉ locs h' a → h2 !! l = h' !! l) → denote h2 a' = Some v).

Lemma laws_separate {A V} (c : Copied A V) : CopyLaws A V → separate c.
Proof.
  intros HC h a v a' h' Hv Hc. destruct (copies h a v a' h' Hv Hc) as (Hh & Hv' & Hl).
  destruct (denote_mono h h' a v Hv Hh) as [Hva Hla]. destruct (reads h a v Hv) as [Hd _].
  split_and!; [done | done | |]; intros h2 H2.
  - apply (reads h' a v Hva). intros l Hin. apply H2. rewrite Hla in Hin. set_solver.
  - apply (reads h' a' v Hv'). intros l Hin. apply H2. rewrite Hla. set_solver.
Qed.

(** Every copy is made of the combinators. *)
Ltac copies_laws := repeat first
  [ assumption | apply plain_laws | apply @list_laws | apply @prod_laws
  | apply @struct_laws; [| done | by intros []] | apply @struct_laws; [| by intros ? [] | by intros []]
  | apply @pointer_laws; [| done] ].

(** A copy of a resource of PureLB, or of a list of them, is a copy in full: it stands
    for the same, and shares no pointer, slice or array with the original, at any
    depth.  This is assumed of the metadata, which Kubernetes' own library copies. *)
Theorem deep_copies_separate :
  separate ServiceGroup_DeepCopy ∧ separate ServiceGroupList_DeepCopy ∧
  separate LBNodeAgent_DeepCopy ∧ separate LBNodeAgentList_DeepCopy.
Proof. split_and!; apply laws_separate; copies_laws. Qed.
End Copies.

(** * At concrete inputs *)

(** Metadata with a name, and labels that are shared by pointer. *)
Definition Meta : Type := string * option Loc.
Definition DemoCell : Type := Cell (O := Meta) (L := string) (M := gmap string string).
Abbreviation DemoHeap := (gmap Loc DemoCell).

Definition meta_labels : Copied (O := Meta) (L := string) (option Loc) (option (gmap string string)) :=
  pointer (HC := plain) CMeta (λ c, match c with CMeta m => Some m | _ => None end).
#[local] Instance meta_copy : Copied (O := Meta) (L := string) (M := gmap string string) Meta (string * option (gmap string string)) :=
  struct (HC := meta_labels) snd fst (λ x p, (fst x, p)).
#[local] Instance meta_copy_laws : CopyLaws (O := Meta) (L := string) (M := gmap string string) Meta _.
Proof. apply @struct_laws; [apply pointer_laws; [apply plain_laws | done] | done | done]. Qed.
#[local] Instance list_meta_copy : Copied (O := Meta) (L := string) (M := gmap string string) string string := plain.
#[local] Instance list_meta_laws : CopyLaws (O := Meta) (L := string) (M := gmap string string) string string.
Proof. apply plain_laws. Qed.

(** A list of one group, with one IPv4 range and a label. *)
Definition demo_heap : DemoHeap := list_to_map [
  (1%positive, CMeta {["app" := "web"]});
  (2%positive, CPools [mkAddressPool "192.0.2.7/32" "192.0.2.7/32" "default"]);
  (3%positive, CGroupLocal (mkGroupLocal (Some 2%positive) None));
  (4%positive, CGroups [mkResource "ServiceGroup" ("fip", Some 1%positive) (mkGroupSpec (Some 3%positive))]);
  (5%positive, CGroupList (mkResourceList "ServiceGroupList" "v1" (Some 4%positive)))].

Definition demo_copy : option Loc * DemoHeap := copy (Copied := ServiceGroupList_DeepCopy) (Some 5%positive) demo_heap.
(** Everything that the copy reaches is overwritten. *)
Definition scribble (X : gset Loc) (h : DemoHeap) : DemoHeap := set_fold (λ l h, <[l := CBool false]> h) h X.

Lemma scribble_other X h l : l ∉ X → scribble X h !! l = h !! l.
Proof.
  unfold scribble. revert X. apply (set_fold_ind_L (λ h' X, l ∉ X → h' !! l = h !! l)); [done|].
  intros x X h' _ IH Hl. rewrite lookup_insert_ne by set_solver. apply IH. set_solver.
Qed.

Definition demo_scribbled : DemoHeap := scribble (locs (Copied := ServiceGroupList_DeepCopy) demo_copy.2 demo_copy.1) demo_copy.2.

Lemma deep_copies_separate_witness :
  let v := denote (Copied := ServiceGroupList_DeepCopy) demo_heap (Some 5%positive) in
  v ≠ None ∧ size (locs (Copied := ServiceGroupList_DeepCopy) demo_copy.2 demo_copy.1) = 5%nat ∧
  denote (Copied := ServiceGroupList_DeepCopy) demo_copy.2 demo_copy.1 = v ∧
  denote (Copied := ServiceGroupList_DeepCopy) demo_scribbled (Some 5%positive) = v ∧
  denote (Copied := ServiceGroupList_DeepCopy) demo_scribbled demo_copy.1 = None.
Proof.
  destruct (deep_copies_separate (O := Meta) (L := string) (M := gmap string string)) as (_ & Hs & _).
  destruct (denote (Copied := ServiceGroupList_DeepCopy) demo_heap (Some 5%positive)) as [v|] eqn:Hv; [|by vm_compute in Hv].
  destruct (Hs demo_heap (Some 5%positive) v demo_copy.1 demo_copy.2 Hv) as (Hc & _ & Ho & _); [apply surjective_pairing|].
  split; [done|]. split; [by vm_compute|]. split; [exact Hc|]. split; [|by vm_compute].
  apply Ho. intros l Hl. by apply scribble_other.
Defined.
