(* ===== verification/LbApi.v ===== *)
(** What the load-balancer controller talks to: its cluster (Services,
    namespaces, Secrets), MetalLB and PureLB, the address manager, its informer
    cache, work queue and locks.

    These are calls ([LbCall]) whose answers are arbitrary; the libraries it
    only computes with are the class [LbLibs].  The pool and advertisement
    objects carry the fields the controller writes or reads. *)

From S2P Require Import Prelude GoStd ApiTypes ApiServer Prog.

(** ** Objects *)

Record Service := mkService {
  svc_meta : ObjectMeta;
  svc_Type : string;
  svc_Ingress : list string      (* [Status.LoadBalancer.Ingress] *)
}.

Definition svc_ns (s : Service) : string := Namespace (svc_meta s).
Definition svc_name (s : Service) : string := Name (svc_meta s).
Definition svc_ann (s : Service) (k : string) : string := mget (Annotations (svc_meta s)) k.
Definition set_svc_meta (s : Service) (m : ObjectMeta) : Service :=
  mkService m (svc_Type s) (svc_Ingress s).
Definition set_svc_annotations (s : Service) (a : gomap string) : Service :=
  let m := svc_meta s in
  set_svc_meta s (mkMeta (Name m) (Namespace m) (Labels m) a (Finalizers m) (ResourceVersion m)
    (CreationTimestamp m) (DeletionTimestamp m)).
Definition set_svc_deleted (s : Service) (t : time) : Service :=
  let m := svc_meta s in
  set_svc_meta s (mkMeta (Name m) (Namespace m) (Labels m) (Annotations m) (Finalizers m)
    (ResourceVersion m) (CreationTimestamp m) (Some t)).
Definition same_service (s t : Service) : bool :=
  bool_decide (svc_ns s = svc_ns t) && bool_decide (svc_name s = svc_name t).

Record Secret := mkSecret { sec_Name : string; sec_Data : gomap string }.
Definition sec (s : Secret) (k : string) : string := mget (sec_Data s) k.

(** [metav1.LabelSelector]; its expressions only go through the library. *)
Record LabelSelector := mkSelector { MatchLabels : gmap string string; MatchExpressions : list string }.

(** [ServiceAllocation] of a MetalLB pool. *)
Record ServiceAllocation := mkAllocation {
  sa_Namespaces : list string;
  sa_NamespaceSelectors : list LabelSelector;
  sa_ServiceSelectors : list LabelSelector
}.
Record IPAddressPool := mkIPAddressPool {
  ap_Name : string; ap_Namespace : string; ap_Addresses : list string;
  ap_AllocateTo : option ServiceAllocation
}.
Record L2Advertisement := mkL2Advertisement {
  l2_Name : string; l2_Namespace : string; l2_IPAddressPools : list string; l2_Interfaces : list string
}.

(** PureLB. *)
Record AddressPool := mkAddressPool { pl_Aggregation : string; pl_Pool : string; pl_Subnet : string }.
Record ServiceGroup := mkServiceGroup {
  sg_Name : string; sg_Namespace : string; sg_V4Pools : list AddressPool; sg_V6Pools : list AddressPool
}.

(** ** The address manager *)

(** A client of the manager: its endpoint and its identity. *)
Record IPAMClient := mkClient { cl_apiURL : string; cl_clientID : string }.

(** The parameters of [RequestFIP] and [ReleaseFIP]. *)
Record FipArgs := mkFipArgs {
  fa_ClientSecret : string; fa_Cluster : string; fa_Project : string; fa_FloatingIPPool : string;
  fa_ServiceNamespace : string; fa_ServiceName : string; fa_IPAddr : string; fa_FloatingIPGroup : string
}.

(** The parameters of [ListFIPs]. *)
Record ListArgs := mkListArgs {
  la_ClientSecret : string; la_Cluster : string; la_Project : string; la_FloatingIPPool : string
}.

(** A cached client, with the Secret values it was built from. *)
Record ipamClientEntry := mkClientEntry { ce_apiURL : string; ce_clientID : string; ce_client : IPAMClient }.

(** ** Calls *)

Inductive LbCall : Type → Type :=
(* the cluster *)
| GetNamespace (name : string) : LbCall (res (gomap string))          (* its labels *)
| GetLbSecret (ns name : string) : LbCall (res Secret)
| GetConfigMap (ns name : string) : LbCall (res (gomap string))       (* its data *)
| GetService (ns name : string) : LbCall (res Service)
| UpdateService (s : Service) : LbCall (res Service)
| DeleteService (ns name : string) : LbCall (res unit)
| ListServices (ns : string) (selector : option string) : LbCall (res (list Service))
(* MetalLB *)
| CreateIPAddressPool (p : IPAddressPool) : LbCall (res unit)
| UpdateIPAddressPool (p : IPAddressPool) : LbCall (res unit)
| DeleteIPAddressPool (name ns : string) : LbCall (res unit)
| GetIPAddressPool (name ns : string) : LbCall (res (option IPAddressPool))
| GetIPAddressPools (ns : string) : LbCall (res (list IPAddressPool))
| CreateL2Advertisement (a : L2Advertisement) : LbCall (res unit)
| DeleteL2Advertisement (name ns : string) : LbCall (res unit)
(* PureLB *)
| CreateServiceGroup (g : ServiceGroup) : LbCall (res unit)
| DeleteServiceGroup (name ns : string) : LbCall (res unit)
| GetServiceGroups (ns : string) : LbCall (res (list ServiceGroup))
(* the address manager: an address, its subnet and the shared key *)
| RequestFIP (c : IPAMClient) (a : FipArgs) : LbCall (res (string * string * string))
| ReleaseFIP (c : IPAMClient) (a : FipArgs) : LbCall (res unit)
| ListFIPs_ (c : IPAMClient) (a : ListArgs) : LbCall (res (list FIPListEntry))
(* the informer cache: the services under an index value, some of another type *)
| ByIndex (value : string) : LbCall (res (list (option Service)))
| GetByKey (key : string) : LbCall (res (option Service))
(* the cache of clients, the snapshots of deleted services, the locks *)
| LoadClient (project : string) : LbCall (option ipamClientEntry)
| StoreClient (project : string) (e : ipamClientEntry) : LbCall unit
| PeekTombstone (key : string) : LbCall (option Service)
| TakeTombstone (key : string) : LbCall unit
| SetTombstone (key : string) (s : Service) : LbCall unit
| LockAddress (ip : string) : LbCall unit
| UnlockAddress (ip : string) : LbCall unit
(* events, the work queue, the clock *)
| Eventf (s : Service) (reason message : string) : LbCall unit
| LbAdd (key : string) : LbCall unit
| LbAddAfter (key : string) (delay : time) : LbCall unit
| LbAddRateLimited (key : string) : LbCall unit
| LbForget (key : string) : LbCall unit
| LbDone (key : string) : LbCall unit
| LbNow : LbCall time.

(** Libraries the controller computes with. *)
Class LbLibs := {
  (* [strconv.Quote] *)
  Quote : string → string;
  (* [validation.IsDNS1123Subdomain] finds nothing to complain about *)
  IsDNS1123Subdomain : string → bool;
  (* [metav1.LabelSelectorAsSelector], [Matches] and [String] of a selector *)
  Selector : Type;
  LabelSelectorAsSelector : LabelSelector → res Selector;
  Selector_Matches : Selector → gomap string → bool;
  Selector_String : Selector → string;
  (* [cache.MetaNamespaceKeyFunc] and [cache.SplitMetaNamespaceKey] *)
  MetaNamespaceKeyFunc : Service → res string;
  SplitKey : string → res (string * string)
}.
