(* ===== verification/LbController.v ===== *)
(** The load-balancer controller, [lbcontroller/internal/controller/controller.go]:
    it requests a floating IP for every Service of type LoadBalancer of a
    downstream cluster, publishes it through MetalLB or PureLB, records it on
    the Service, and releases it when the Service goes away.

    Every function is a [Prog]: a tree of the calls it makes.  The functions
    follow the source; a function that the source writes inline is named after
    what it does. *)

From Stdlib Require Import Ascii.
From S2P Require Import Prelude GoStd NetIP ApiTypes ApiServer Prog LbApi.

(** ** Constants *)

Definition lb_finalizerName : string := "rancher.k8s.binbash.org/floatingip-cleanup".
Definition floatingIPAnnotation : string := "rancher.k8s.binbash.org/floatingip".
Definition floatingIPRequestAnnotation : string := "rancher.k8s.binbash.org/floatingip-request".
Definition projectAnnotation : string := "rancher.k8s.binbash.org/floatingip-project".
Definition cleanupProgressAnnotation : string := "rancher.k8s.binbash.org/floatingip-cleanup".
Definition cleanupStageResourcesDeleted : string := "resources-deleted".
Definition cleanupStageReleased : string := "released".
Definition groupAnnotation : string := "rancher.k8s.binbash.org/floatingip-group".
Definition staticIPAnnotation : string := "rancher.k8s.binbash.org/static-ip".
Definition staticNetworkAnnotation : string := "rancher.k8s.binbash.org/static-network".
Definition subnetAnnotation : string := "rancher.k8s.binbash.org/floatingip-subnet".
Definition serviceLabel : string := "rancher.k8s.binbash.org/service".
Definition serviceNamespaceLabel : string := "rancher.k8s.binbash.org/servicenamespace".
Definition serviceGroupLabel : string := "rancher.k8s.binbash.org/servicegroup".
Definition projectIdLabel : string := "field.cattle.io/projectId".
Definition LoadBalancer : string := "LoadBalancer".
Definition deferredRequeueDelay : time := 300 * 10 ^ 9.

(** ** Small functions *)

(** [containsString] is the one of [ApiTypes]; this [removeString] drops the
    first occurrence. *)
Fixpoint lb_removeString (slice : list string) (s : string) : list string :=
  match slice with
  | [] => []
  | item :: slice => if bool_decide (item = s) then slice else item :: lb_removeString slice s
  end.

Fixpoint trim_left (s : string) (c : ascii) : string :=
  match s with
  | String d s' => if decide (d = c) then trim_left s' c else s
  | EmptyString => s
  end.
Fixpoint trim_right (s : string) (c : ascii) : string :=
  match s with
  | String d s => match trim_right s c with
                  | EmptyString => if decide (d = c) then EmptyString else String d EmptyString
                  | t => String d t
                  end
  | EmptyString => s
  end.

Section Names.
Context `{HLibs : LbLibs}.

Definition is_ipv6 (ip : Z) : bool := negb (is_some (To4 (IP16 ip))).

Definition poolNameForAddress (ipAddress : string) : string :=
  match ParseIP ipAddress with
  | Some ip =>
      if is_ipv6 ip then
        let legacy := "ip6-" +:+ ReplaceByte ipAddress ":" "." in
        if IsDNS1123Subdomain legacy then legacy
        else
          let sanitized := trim_right (trim_left (ReplaceByte (IP_String (IP16 ip)) ":" "-") "-") "-" in
          "ip6-" +:+ (if bool_decide (sanitized = "") then "0" else sanitized)
      else "ip4-" +:+ ipAddress
  | None => "ip4-" +:+ ipAddress
  end.
End Names.

Definition addressCIDR (ipAddress : string) : string :=
  match ParseIP ipAddress with
  | Some ip => if is_ipv6 ip then ipAddress +:+ "/128" else ipAddress +:+ "/32"
  | None => ipAddress +:+ "/32"
  end.

(** An entry of a pool covers the address: a CIDR, or a bare address. *)
Definition entry_covers (ip : IP) (address : string) : bool :=
  match ParseCIDR address with
  | Some cidr => IPNet_Contains cidr ip
  | None => match ParseIP address with Some single => IP_Equal (IP16 single) ip | None => false end
  end.
Definition poolContainsAddress (addresses : list string) (ip : IP) : bool :=
  existsb (entry_covers ip) addresses.

Definition cleanupStageReached (progress stage : string) : bool :=
  bool_decide (progress = cleanupStageReleased)
  || (bool_decide (stage = cleanupStageResourcesDeleted) && bool_decide (progress = cleanupStageResourcesDeleted)).

Definition hasFloatingIPRecord (svc : Service) : bool :=
  containsString (Finalizers (svc_meta svc)) lb_finalizerName
  || negb (bool_decide (svc_ann svc floatingIPAnnotation = ""))
  || negb (bool_decide (svc_ann svc floatingIPRequestAnnotation = ""))
  || negb (bool_decide (svc_ann svc cleanupProgressAnnotation = "")).

Definition serviceNeedsFloatingIP (svc : Service) : bool := bool_decide (svc_Type svc = LoadBalancer).

Definition names_service (cluster namespace name : string) (fip : FIPListEntry) : bool :=
  bool_decide (le_Cluster fip = cluster) && bool_decide (le_ServiceNamespace fip = namespace)
  && bool_decide (le_ServiceName fip = name).

Definition lookupServiceFloatingIP (fips : list FIPListEntry) (cluster namespace name : string) : option string :=
  le_IPAddress <$> find (names_service cluster namespace name) fips.

Definition ownsFloatingIP (fips : list FIPListEntry) (cluster namespace name ipAddress : string) : bool :=
  bool_decide (lookupServiceFloatingIP fips cluster namespace name = Some ipAddress).

(** [NewClientWithCA] of [lbcontroller/pkg/ipam/client.go]; the transport reads
    the CA bundle at every handshake. *)
Definition NewClientWithCA (apiURL clientID : string) : res IPAMClient :=
  if bool_decide (apiURL = "") then Err (errorf "IPAM API URL is not configured")
  else Ok (mkClient apiURL clientID).

(** Annotations and labels: whether the write changes anything. *)
Definition put (m : gomap string) (k v : string) : gomap string * bool :=
  if bool_decide (mget m k = v) then (m, false) else (Some (<[k := v]> (default ∅ m)), true).
Definition drop_key (m : gomap string) (k : string) : gomap string * bool :=
  match m with
  | Some m' => if is_some (m' !! k) then (Some (delete k m'), true) else (m, false)
  | None => (None, false)
  end.

(** The static part of a [reconciler]: [serviceIndexer] and [metallbClient] may
    be nil, and a client may override the cache. *)
Record reconciler := mkReconciler {
  appNamespace : string;
  has_indexer : bool;
  has_metallb : bool;
  ipamClientOverride : option IPAMClient
}.

(** [fmt.Errorf] with [%w] of an error that may be nil. *)
Definition wrapf_opt (msg : string) (e : option error) : error :=
  match e with
  | Some e => wrapf msg e
  | None => errorf (msg +:+ ": %!w(<nil>)")
  end.

Definition full_name (svc : Service) : string := svc_ns svc +:+ "/" +:+ svc_name svc.

Section Lb.
Context `{HLibs : LbLibs, HRetry : Retries LbCall} (r : reconciler).
#[local] Open Scope prog_scope.

(** ** Updating a Service *)

Definition updateService (namespace name : string) (mutate : Service → Service * bool)
    : Prog LbCall (res Service) :=
  RetryConflict (
    try! currentSvc := call (GetService namespace name) else err => Ret (Err err) in
    let '(svcToUpdate, changed) := mutate currentSvc in
    if negb changed then Ret (Ok currentSvc) else call (UpdateService svcToUpdate)).

Definition write_annotation (k v : string) (currentSvc : Service) : Service * bool :=
  let '(a, changed) := put (Annotations (svc_meta currentSvc)) k v in
  (set_svc_annotations currentSvc a, changed).
Definition drop_annotation (k : string) (currentSvc : Service) : Service * bool :=
  let '(a, changed) := drop_key (Annotations (svc_meta currentSvc)) k in
  (set_svc_annotations currentSvc a, changed).

Definition markAllocationPending (svc : Service) (projectId : string) : Prog LbCall (res unit) :=
  try! _s := updateService (svc_ns svc) (svc_name svc) (write_annotation floatingIPRequestAnnotation projectId)
  else err => Ret (Err err) in
  Ret (Ok tt).

Definition recordCleanupProgress (svc : Service) (stage : string) : Prog LbCall (res unit) :=
  try! _s := updateService (svc_ns svc) (svc_name svc) (write_annotation cleanupProgressAnnotation stage)
  else err =>
    (if IsNotFound err then Ret (Ok tt)
     else Ret (Err (wrapf ("failed to record cleanup progress " +:+ Quote stage +:+ " on service "
                    +:+ full_name svc) err))) in
  Ret (Ok tt).

Definition clearAllocationPending (svc : Service) : Prog LbCall unit :=
  updateService (svc_ns svc) (svc_name svc) (drop_annotation floatingIPRequestAnnotation) ;;; Ret tt.

Definition without_lb_finalizer (currentSvc : Service) : Service * bool :=
  let m := svc_meta currentSvc in
  if negb (containsString (Finalizers m) lb_finalizerName) then (currentSvc, false)
  else (set_svc_meta currentSvc (set_Finalizers m (lb_removeString (Finalizers m) lb_finalizerName)), true).

Definition lb_removeFinalizer (svc : Service) : Prog LbCall (res unit) :=
  try! _s := updateService (svc_ns svc) (svc_name svc) without_lb_finalizer
  else err =>
    (if IsNotFound err then Ret (Ok tt)
     else Ret (Err (wrapf ("failed to remove finalizer from service " +:+ full_name svc) err))) in
  Ret (Ok tt).

(** ** Clients of the address manager *)

(** A new client takes the project's place in the cache. *)
Definition store_client (projectID apiURL clientID : string) : Prog LbCall (res IPAMClient) :=
  match NewClientWithCA apiURL clientID with
  | Err err => Ret (Err err)
  | Ok client => call (StoreClient projectID (mkClientEntry apiURL clientID client)) ;;; Ret (Ok client)
  end.

Definition ipamClientFor (projectID : string) (secret : Secret) : Prog LbCall (res IPAMClient) :=
  match ipamClientOverride r with
  | Some client => Ret (Ok client)
  | None =>
      let apiURL := sec secret "apiUrl" in
      let clientID := "client-" +:+ sec secret "cluster" in
      let! entry := call (LoadClient projectID) in
      match entry with
      | Some e =>
          if bool_decide (ce_apiURL e = apiURL) && bool_decide (ce_clientID e = clientID)
          then Ret (Ok (ce_client e))
          else store_client projectID apiURL clientID
      | None => store_client projectID apiURL clientID
      end
  end.

Definition list_args (secret : Secret) (fipPoolName : string) : ListArgs :=
  mkListArgs (sec secret "clientSecret") (sec secret "cluster") (sec secret "project") fipPoolName.
Definition fip_args (secret : Secret) (fipPoolName : string) (svc : Service) (ipaddr group : string) : FipArgs :=
  mkFipArgs (sec secret "clientSecret") (sec secret "cluster") (sec secret "project") fipPoolName
    (svc_ns svc) (svc_name svc) ipaddr group.

(** ** Who else uses an address *)

(** The services found under the index, each read again from the API server. *)
Fixpoint live_user (svc : Service) (ipAddress : string) (objs : list (option Service))
    : Prog LbCall (res bool) :=
  match objs with
  | [] => Ret (Ok false)
  | None :: objs => live_user svc ipAddress objs
  | Some other :: objs =>
      if same_service other svc then live_user svc ipAddress objs
      else
        let! g := call (GetService (svc_ns other) (svc_name other)) in
        match g with
        | Err err =>
            if IsNotFound err then live_user svc ipAddress objs
            else Ret (Err (wrapf ("failed to get service " +:+ full_name other +:+ " while checking address "
                    +:+ ipAddress) err))
        | Ok live =>
            if bool_decide (svc_ann live floatingIPAnnotation = ipAddress) && serviceNeedsFloatingIP live
            then Ret (Ok true) else live_user svc ipAddress objs
        end
  end.

Definition addressInUse (svc : Service) (ipAddress : string) : Prog LbCall (res bool) :=
  if bool_decide (ipAddress = "") then Ret (Ok false)
  else if has_indexer r then
    try! objs := call (ByIndex ipAddress) else err =>
      Ret (Err (wrapf ("failed to look up services using address " +:+ ipAddress) err)) in
    live_user svc ipAddress objs
  else
    try! items := call (ListServices "" None) else err => Ret (Err (wrapf "failed to list services" err)) in
    Ret (Ok (existsb (λ other, negb (same_service other svc)
      && bool_decide (svc_ann other floatingIPAnnotation = ipAddress) && serviceNeedsFloatingIP other) items)).

(** A service of a namespace of the pool that the pool admits. *)
Definition admits (svc : Service) (selectors : list Selector) (other : Service) : bool :=
  negb (same_service other svc) && serviceNeedsFloatingIP other
  && negb (is_some (DeletionTimestamp (svc_meta other)))
  && (bool_decide (length selectors = 0%nat)
      || existsb (λ selector, Selector_Matches selector (Labels (svc_meta other))) selectors).

Fixpoint pool_selectors (poolName : string) (l : list LabelSelector) : res (list Selector) :=
  match l with
  | [] => Ok []
  | sel :: l =>
      match LabelSelectorAsSelector sel with
      | Err err => Err (wrapf ("invalid ServiceSelector on IPAddressPool " +:+ appNamespace r +:+ "/" +:+ poolName) err)
      | Ok s => match pool_selectors poolName l with Ok ss => Ok (s :: ss) | Err err => Err err end
      end
  end.

Fixpoint admitted_in (svc : Service) (selectors : list Selector) (options : option string)
    (namespaces : list string) : Prog LbCall (res bool) :=
  match namespaces with
  | [] => Ret (Ok false)
  | namespace :: namespaces =>
      try! items := call (ListServices namespace options) else err =>
        Ret (Err (wrapf ("failed to list services in namespace " +:+ namespace) err)) in
      if existsb (admits svc selectors) items then Ret (Ok true)
      else admitted_in svc selectors options namespaces
  end.

Definition metalLBAddressInUse (svc : Service) (poolName : string) : Prog LbCall (res bool) :=
  if negb (has_metallb r) then Ret (Ok false)
  else
    let! g := call (GetIPAddressPool poolName (appNamespace r)) in
    match g with
    | Err err =>
        if IsNotFound err then Ret (Ok false)
        else Ret (Err (wrapf ("failed to get IPAddressPool " +:+ appNamespace r +:+ "/" +:+ poolName) err))
    | Ok None => Ret (Ok false)
    | Ok (Some pool) =>
        match ap_AllocateTo pool with
        | None => Ret (Ok true)
        | Some alloc =>
            if negb (bool_decide (length (sa_NamespaceSelectors alloc) = 0%nat)) then Ret (Ok true)
            else
              match pool_selectors poolName (sa_ServiceSelectors alloc) with
              | Err err => Ret (Err err)
              | Ok selectors =>
                  let options := match selectors with [s] => Some (Selector_String s) | _ => None end in
                  admitted_in svc selectors options (sa_Namespaces alloc)
              end
        end
    end.

(** An entry of the manager's list names a live service other than [svc]. *)
Fixpoint claimed_in (svc : Service) (cluster ipAddress : string) (fips : list FIPListEntry)
    : Prog LbCall (res bool) :=
  match fips with
  | [] => Ret (Ok false)
  | fip :: fips =>
      if negb (bool_decide (le_Cluster fip = cluster)) || negb (bool_decide (le_IPAddress fip = ipAddress))
         || (bool_decide (le_ServiceNamespace fip = svc_ns svc) && bool_decide (le_ServiceName fip = svc_name svc))
      then claimed_in svc cluster ipAddress fips
      else
        let! g := call (GetService (le_ServiceNamespace fip) (le_ServiceName fip)) in
        match g with
        | Err err =>
            if IsNotFound err then claimed_in svc cluster ipAddress fips
            else Ret (Err (wrapf ("failed to get service " +:+ le_ServiceNamespace fip +:+ "/"
                    +:+ le_ServiceName fip +:+ " listed for address " +:+ ipAddress) err))
        | Ok other =>
            if is_some (DeletionTimestamp (svc_meta other)) || negb (serviceNeedsFloatingIP other)
            then claimed_in svc cluster ipAddress fips else Ret (Ok true)
        end
  end.

Definition ipamAddressInUse (svc : Service) (projectId : string) (secret : Secret)
    (ipAddress fipPoolName : string) : Prog LbCall (res bool) :=
  try! client := ipamClientFor projectId secret else err =>
    Ret (Err (wrapf "failed to create IPAM client" err)) in
  try! fips := call (ListFIPs_ client (list_args secret fipPoolName)) else err =>
    Ret (Err (wrapf ("failed to list floating IPs for " +:+ full_name svc) err)) in
  claimed_in svc (sec secret "cluster") ipAddress fips.

Definition sharedPoolInUse (svc : Service) (projectId : string) (secret : Secret)
    (ipAddress poolName fipPoolName : string) : Prog LbCall (res bool) :=
  if bool_decide (sec secret "loadBalancerType" = "metallb") then
    let! inUse := metalLBAddressInUse svc poolName in
    match inUse with
    | Err err => Ret (Err err)
    | Ok true => Ret (Ok true)
    | Ok false => ipamAddressInUse svc projectId secret ipAddress fipPoolName
    end
  else ipamAddressInUse svc projectId secret ipAddress fipPoolName.

(** Both checks, as the two deletion paths make them. *)
Definition shared_address (svc : Service) (projectId : string) (secret : Secret)
    (ipAddress poolName fipPoolName : string) : Prog LbCall (res bool) :=
  try! inUse := addressInUse svc ipAddress else err => Ret (Err err) in
  if inUse then Ret (Ok true) else sharedPoolInUse svc projectId secret ipAddress poolName fipPoolName.

(** ** Projects *)

Definition getProjectIDFromAppNamespace : Prog LbCall (res string) :=
  let! g := call (GetNamespace (appNamespace r)) in
  Ret (match g with
       | Err err =>
           if IsNotFound err then Ok ""
           else Err (wrapf ("failed to get namespace " +:+ appNamespace r) err)
       | Ok labels => Ok (mget labels "rancher.k8s.binbash.org/project-name")
       end).

Definition deletionProjectID (svc : Service) : Prog LbCall (res string) :=
  if negb (bool_decide (svc_ann svc projectAnnotation = "")) then Ret (Ok (svc_ann svc projectAnnotation))
  else if negb (bool_decide (svc_ann svc floatingIPRequestAnnotation = ""))
  then Ret (Ok (svc_ann svc floatingIPRequestAnnotation))
  else
    try! projectId := getProjectIDFromAppNamespace else err => Ret (Err err) in
    if negb (bool_decide (projectId = "")) then Ret (Ok projectId)
    else
      let! g := call (GetNamespace (svc_ns svc)) in
      Ret (match g with
           | Err err =>
               if IsNotFound err then Ok "" else Err (wrapf ("failed to get namespace " +:+ svc_ns svc) err)
           | Ok labels => Ok (mget labels projectIdLabel)
           end).
End Lb.
