(* ===== verification/LbReconcile.v ===== *)
(** The load-balancer controller: [reconcile], the deletion of an allocation,
    the finding, publishing and recording of one,
    [lbcontroller/internal/controller/controller.go]. *)

From S2P Require Import Prelude GoStd NetIP ApiTypes ApiServer Prog LbApi LbController.

(** A part of [reconcile] that may end it: [inl] is a [return]. *)
Definition Step (A : Type) : Type := (res unit + A)%type.
Definition stop {A} (x : res unit) : Prog LbCall (Step A) := Ret (inl x).
Definition next {A} (x : A) : Prog LbCall (Step A) := Ret (inr x).

Notation "'go!' x := m 'in' k" :=
  (pbind m (λ s, match s with inl stopped => Ret (inl stopped) | inr x => k end))
  (at level 10, x binder, m at level 100, k at level 200) : prog_scope.

(** [fmt.Errorf] with [%w] of an error and a note about a second one. *)
Definition wrapf_note (msg : string) (e : error) (note : string) (e2 : error) : error :=
  mkErr (err_kind e) (msg +:+ ": " +:+ err_msg e +:+ " (" +:+ note +:+ ": " +:+ err_msg e2 +:+ ")").

(** [%v, original error: %w]. *)
Definition cleanup_error (what : string) (e : error) (original : option error) : error :=
  wrapf_opt ("failed to " +:+ what +:+ " cleanup: " +:+ err_msg e +:+ ", original error") original.

Section Lb.
Context `{HLibs : LbLibs, HRetry : Retries LbCall} (r : reconciler).
#[local] Open Scope prog_scope.

(** ** Releasing the allocation of a Service that goes away *)

Definition abandonDeletion (svc : Service) (ipAddress projectId reason : string) : Prog LbCall (res unit) :=
  (if negb (bool_decide (ipAddress = "")) then
     call (Eventf svc "OrphanedFloatingIP" ("Removing finalizer without releasing FloatingIP " +:+ ipAddress
       +:+ " of project " +:+ Quote projectId +:+ ": " +:+ reason +:+ "; the address must be released manually"))
   else Ret tt) ;;;
  lb_removeFinalizer svc.

Definition tolerate_missing (e : res unit) : res unit :=
  match e with Err err => if IsNotFound err then Ok tt else Err err | Ok _ => Ok tt end.

(** The pool and the advertisement, or the ServiceGroup, of an address. *)
Definition delete_resources (secret : Secret) (poolName whose : string) : Prog LbCall (res unit) :=
  if bool_decide (sec secret "loadBalancerType" = "metallb") then
    let! e := call (DeleteL2Advertisement poolName (appNamespace r)) in
    match tolerate_missing e with
    | Err err => Ret (Err (wrapf ("failed to delete L2Advertisement " +:+ poolName +:+ whose) err))
    | Ok _ =>
        let! e := call (DeleteIPAddressPool poolName (appNamespace r)) in
        match tolerate_missing e with
        | Err err => Ret (Err (wrapf ("failed to delete IPAddressPool " +:+ poolName +:+ whose) err))
        | Ok _ => Ret (Ok tt)
        end
    end
  else if bool_decide (sec secret "loadBalancerType" = "purelb") then
    let! e := call (DeleteServiceGroup poolName (appNamespace r)) in
    match tolerate_missing e with
    | Err err => Ret (Err (wrapf ("failed to delete ServiceGroup " +:+ poolName +:+ whose) err))
    | Ok _ => Ret (Ok tt)
    end
  else Ret (Ok tt).

(** The address of a request that was never recorded. *)
Definition recover_pending (svc : Service) (projectId : string) (secret : Secret) (fipPoolName : string)
    : Prog LbCall (res string) :=
  try! client := ipamClientFor r projectId secret else err =>
    Ret (Err (wrapf "failed to create IPAM client" err)) in
  try! fips := call (ListFIPs_ client (list_args secret fipPoolName)) else err =>
    Ret (Err (wrapf ("failed to list floating IPs for " +:+ full_name svc) err)) in
  Ret (Ok (default "" (lookupServiceFloatingIP fips (sec secret "cluster") (svc_ns svc) (svc_name svc)))).

(** The stages of a deletion, resumed where an earlier one stopped. *)
Definition release_stages (svc : Service) (projectId : string) (secret : Secret)
    (ipAddress poolName fipPoolName : string) (sharedAddress : bool) : Prog LbCall (res unit) :=
  let progress := svc_ann svc cleanupProgressAnnotation in
  let released := cleanupStageReached progress cleanupStageReleased in
  let resourcesDeleted := cleanupStageReached progress cleanupStageResourcesDeleted in
  try! _u := (if negb released && negb sharedAddress && negb resourcesDeleted then
       try! _d := delete_resources secret poolName "" else err => Ret (Err err) in
       recordCleanupProgress svc cleanupStageResourcesDeleted
     else Ret (Ok tt)) else err => Ret (Err err) in
  if released then Ret (Ok tt)
  else
    try! client := ipamClientFor r projectId secret else err =>
      Ret (Err (wrapf "failed to create IPAM client" err)) in
    try! _u := call (ReleaseFIP client (fip_args secret fipPoolName svc ipAddress "")) else err =>
      Ret (Err (wrapf "failed to release FIP" err)) in
    recordCleanupProgress svc cleanupStageReleased.

Definition drop_records (currentSvc : Service) : Service * bool :=
  let '(s, c1) := drop_annotation floatingIPAnnotation currentSvc in
  let '(s, c2) := drop_annotation floatingIPRequestAnnotation s in
  let '(s, c3) := drop_annotation cleanupProgressAnnotation s in
  (s, c1 || c2 || c3).

(** Under the lock of the address. *)
Definition release_locked (svc : Service) (projectId : string) (secret : Secret)
    (ipAddress poolName fipPoolName : string) : Prog LbCall (res unit) :=
  try! sharedAddress := (if bool_decide (ipAddress = "") then Ret (Ok false)
    else shared_address r svc projectId secret ipAddress poolName fipPoolName) else err => Ret (Err err) in
  try! _u := (if bool_decide (ipAddress = "") then Ret (Ok tt)
    else release_stages svc projectId secret ipAddress poolName fipPoolName sharedAddress)
    else err => Ret (Err err) in
  try! _u := (if negb (bool_decide (ipAddress = ""))
       || negb (bool_decide (svc_ann svc floatingIPRequestAnnotation = ""))
       || negb (bool_decide (svc_ann svc cleanupProgressAnnotation = "")) then
       try! _s := updateService (svc_ns svc) (svc_name svc) drop_records else err =>
         (if IsNotFound err then Ret (Ok tt)
          else Ret (Err (wrapf ("failed to remove floatingip annotations from service " +:+ full_name svc) err))) in
       Ret (Ok tt)
     else Ret (Ok tt)) else err => Ret (Err err) in
  lb_removeFinalizer svc.

(** [defer unlockAddress()]; there is no lock for the empty address. *)
Definition with_lock {A} (ipAddress : string) (p : Prog LbCall A) : Prog LbCall A :=
  if bool_decide (ipAddress = "") then p
  else
    call (LockAddress ipAddress) ;;;
    let! x := p in
    call (UnlockAddress ipAddress) ;;; Ret x.

Definition resolve_pool (svc : Service) (secret : Secret) : string :=
  let network := svc_ann svc staticNetworkAnnotation in
  if bool_decide (network = "") then sec secret "floatingIPPool" else network.

Definition secret_name (projectId : string) : string := "rancher-fip-config-" +:+ projectId.

Definition release_with (svc : Service) (projectId : string) (secret : Secret) : Prog LbCall (res unit) :=
  let fipPoolName := resolve_pool svc secret in
  let recorded := svc_ann svc floatingIPAnnotation in
  try! ipAddress := (if bool_decide (recorded = "")
       && negb (bool_decide (svc_ann svc floatingIPRequestAnnotation = ""))
     then recover_pending svc projectId secret fipPoolName else Ret (Ok recorded)) else err => Ret (Err err) in
  if negb (bool_decide (ipAddress = "")) && negb (is_some (ParseIP ipAddress)) then
    Ret (Err (errorf ("failed to parse allocated IP address: " +:+ ipAddress)))
  else
    let poolName := if bool_decide (ipAddress = "") then "" else poolNameForAddress ipAddress in
    with_lock ipAddress (release_locked svc projectId secret ipAddress poolName fipPoolName).

(** The branch of [reconcile] for a Service that is deleted, or converted. *)
Definition reconcile_delete (svc : Service) : Prog LbCall (res unit) :=
  if negb (hasFloatingIPRecord svc) then Ret (Ok tt)
  else
    let recorded := svc_ann svc floatingIPAnnotation in
    try! projectId := deletionProjectID r svc else err => Ret (Err err) in
    if bool_decide (projectId = "") then
      abandonDeletion svc recorded projectId ("namespace " +:+ svc_ns svc +:+ " does not belong to a project")
    else
      let! g := call (GetLbSecret (appNamespace r) (secret_name projectId)) in
      match g with
      | Err err =>
          if IsNotFound err then
            abandonDeletion svc recorded projectId
              ("Secret " +:+ appNamespace r +:+ "/" +:+ secret_name projectId +:+ " not found")
          else Ret (Err (wrapf ("failed to get secret " +:+ secret_name projectId) err))
      | Ok secret => release_with svc projectId secret
      end.

(** ** Finding or requesting an address *)

Definition requeueAfter (svc : Service) (delay : time) : Prog LbCall unit :=
  match MetaNamespaceKeyFunc svc with
  | Err _ => Ret tt
  | Ok key => call (LbAddAfter key delay)
  end.

Definition first_missing (secret : Secret) (keys : list string) : option string :=
  find (λ key, bool_decide (sec secret key = "")) keys.

Definition validateProjectConfig (secret : Secret) (fipPoolName : string) : option error :=
  let lbType := sec secret "loadBalancerType" in
  if negb (bool_decide (lbType = "metallb")) && negb (bool_decide (lbType = "purelb")) then
    Some (errorf ("Secret " +:+ sec_Name secret +:+ " has unsupported loadBalancerType " +:+ Quote lbType
      +:+ " (must be " +:+ Quote "metallb" +:+ " or " +:+ Quote "purelb" +:+ ")"))
  else match first_missing secret ["apiUrl"; "clientSecret"; "cluster"; "project"] with
  | Some key => Some (errorf ("Secret " +:+ sec_Name secret +:+ " is missing required key " +:+ Quote key))
  | None =>
      if bool_decide (fipPoolName = "") then
        Some (errorf ("Secret " +:+ sec_Name secret
          +:+ " has no floatingIPPool and the Service requests no static-network"))
      else None
  end.

(** What an allocation works with. *)
Record Allocation := mkAlloc {
  al_projectId : string; al_secret : Secret; al_pool : string; al_interface : string;
  al_client : IPAMClient
}.

Definition prepare (svc : Service) : Prog LbCall (Step Allocation) :=
  if negb (serviceNeedsFloatingIP svc) then stop (Ok tt)
  else
  let! g := call (GetNamespace (svc_ns svc)) in
  match g with
  | Err err => stop (Err (wrapf ("failed to get namespace " +:+ svc_ns svc) err))
  | Ok nsLabels =>
  let! p := getProjectIDFromAppNamespace r in
  match p with
  | Err err => stop (Err err)
  | Ok appProject =>
  match (if bool_decide (appProject = "") then mlookup nsLabels projectIdLabel else Some appProject) with
  | None => requeueAfter svc deferredRequeueDelay ;;; stop (Ok tt)
  | Some projectId =>
  let! g := call (GetLbSecret (appNamespace r) (secret_name projectId)) in
  match g with
  | Err err =>
      if IsNotFound err then requeueAfter svc deferredRequeueDelay ;;; stop (Ok tt)
      else stop (Err (wrapf ("failed to get secret " +:+ secret_name projectId) err))
  | Ok secret =>
  let! g := call (GetConfigMap (appNamespace r) "network-interface-mappings") in
  match g with
  | Err err => stop (Err (wrapf "failed to get configmap network-interface-mappings" err))
  | Ok data =>
  let fipPoolName := resolve_pool svc secret in
  match validateProjectConfig secret fipPoolName with
  | Some err =>
      call (Eventf svc "InvalidConfiguration"
        ("Cannot allocate a FloatingIP for this Service: " +:+ err_msg err)) ;;;
      requeueAfter svc deferredRequeueDelay ;;; stop (Ok tt)
  | None =>
  match mlookup data fipPoolName with
  | None => stop (Err (errorf ("no network interface found for floating ip pool " +:+ fipPoolName)))
  | Some networkInterface =>
  let! c := ipamClientFor r projectId secret in
  match c with
  | Err err => stop (Err (wrapf "failed to create IPAM client" err))
  | Ok client => next (mkAlloc projectId secret fipPoolName networkInterface client)
  end end end end end end end end.

(** The address of the Service: its subnet and shared key as far as they are
    known, whether it is adopted, the project to record. *)
Record Held := mkHeld {
  held_ip : string; held_subnet : string; held_sharedKey : string; held_adopted : bool;
  held_project : string
}.

(** An allocation that the Service has already. *)
Definition find_allocation (svc : Service) (a : Allocation) : Prog LbCall (Step (option Held)) :=
  let annotated := svc_ann svc floatingIPAnnotation in
  let pendingRequestProject := svc_ann svc floatingIPRequestAnnotation in
  let subnet := svc_ann svc subnetAnnotation in
  let has_ingress := negb (bool_decide (length (svc_Ingress svc) = 0%nat)) in
  if negb (bool_decide (annotated = "")) then next (Some (mkHeld annotated subnet "" true ""))
  else if has_ingress || negb (bool_decide (pendingRequestProject = "")) then
    let! l := call (ListFIPs_ (al_client a) (list_args (al_secret a) (al_pool a))) in
    match l with
    | Err err => stop (Err (wrapf ("failed to list floating IPs for " +:+ full_name svc) err))
    | Ok fips =>
        match lookupServiceFloatingIP fips (sec (al_secret a) "cluster") (svc_ns svc) (svc_name svc) with
        | Some recoveredIP => next (Some (mkHeld recoveredIP subnet "" true pendingRequestProject))
        | None => if has_ingress then stop (Ok tt) else next None
        end
    end
  else next None.

(** A refusal that another request would not change soon. *)
Definition defer (svc : Service) (reason message : string) : Prog LbCall (Step Held) :=
  call (Eventf svc reason message) ;;;
  clearAllocationPending svc ;;;
  requeueAfter svc deferredRequeueDelay ;;; stop (Ok tt).

Definition request_failed (svc : Service) (a : Allocation) (err : error) : Prog LbCall (Step Held) :=
  let secret := al_secret a in
  let ipAddress := svc_ann svc staticIPAnnotation in
  if Contains (err_msg err) "quota exceeded" then
    defer svc "QuotaExceeded" ("Failed to request FloatingIP for Service Load Balancer: quota exceeded for project "
      +:+ sec secret "project")
  else if Contains (err_msg err) "denied the request" then
    defer svc "RequestDenied" ("Failed to request FloatingIP for Service Load Balancer: request denied for project "
      +:+ sec secret "project")
  else if negb (bool_decide (ipAddress = "")) && Contains (err_msg err) "IP address is already assigned" then
    let! l := call (ListFIPs_ (al_client a) (list_args secret (al_pool a))) in
    match l with
    | Err listErr => stop (Err (wrapf_note "failed to request FIP" err "listing floating IPs" listErr))
    | Ok fips =>
        if ownsFloatingIP fips (sec secret "cluster") (svc_ns svc) (svc_name svc) ipAddress
        then next (mkHeld ipAddress "" "" true (al_projectId a))
        else defer svc "StaticIPConflict" ("Static IP " +:+ ipAddress +:+ " is already assigned to another Service")
    end
  else stop (Err (wrapf "failed to request FIP" err)).

Definition request_allocation (svc : Service) (a : Allocation) : Prog LbCall (Step Held) :=
  let! m := markAllocationPending svc (al_projectId a) in
  match m with
  | Err err =>
      if IsNotFound err then stop (Ok tt)
      else stop (Err (wrapf ("failed to record pending FloatingIP allocation for " +:+ full_name svc) err))
  | Ok _ =>
      let! q := call (RequestFIP (al_client a) (fip_args (al_secret a) (al_pool a) svc
                  (svc_ann svc staticIPAnnotation) (svc_ann svc groupAnnotation))) in
      match q with
      | Ok (ip, subnet, sharedKey) => next (mkHeld ip subnet sharedKey false (al_projectId a))
      | Err err => request_failed svc a err
      end
  end.

(** ** Publishing the address *)

(** The release that a failed set-up owes: an adopted address is kept. *)
Definition release_requested (svc : Service) (a : Allocation) (held : Held) (during : string)
    (original : option error) : Prog LbCall (res unit) :=
  if held_adopted held then Ret (Ok tt)
  else
    try! _u := call (ReleaseFIP (al_client a)
        (fip_args (al_secret a) (al_pool a) svc (held_ip held) (svc_ann svc groupAnnotation))) else errRelease =>
      Ret (Err (cleanup_error ("release FIP during " +:+ during) errRelease original)) in
    Ret (Ok tt).

(** The check before something shared is deleted: [inl] is a [return]. *)
Definition unless_in_use (svc : Service) (ipAddress failed what : string) (original : option error)
    : Prog LbCall (option (res unit)) :=
  let! inUse := addressInUse r svc ipAddress in
  match inUse with
  | Err listErr =>
      Ret (Some (Err (match original with
        | Some err => wrapf_note failed err "listing services to check for shared use" listErr
        | None => errorf (failed +:+ ": %!w(<nil>) (listing services to check for shared use: "
                          +:+ err_msg listErr +:+ ")")
        end)))
  | Ok true =>
      (if bool_decide (what = "") then Ret tt
       else call (Eventf svc "AddressInUse" ("FloatingIP " +:+ ipAddress
              +:+ " is still used by another Service, keeping its " +:+ what))) ;;;
      Ret (Some (Err (wrapf_opt failed original)))
  | Ok false => Ret None
  end.

Definition pool_object (svc : Service) (poolName ipAddress : string) : IPAddressPool :=
  let group := svc_ann svc groupAnnotation in
  let matchLabels : gmap string string :=
    if bool_decide (group = "") then
      <[serviceNamespaceLabel := svc_ns svc]> {[serviceLabel := svc_name svc]}
    else {[serviceGroupLabel := group]} in
  mkIPAddressPool poolName (appNamespace r) [addressCIDR ipAddress]
    (Some (mkAllocation [svc_ns svc] [] [mkSelector matchLabels []])).

(** Whether the pool of a group is there; the Service's namespace is added. *)
Definition join_pool (svc : Service) (poolName : string) : Prog LbCall (Step bool) :=
  if bool_decide (svc_ann svc groupAnnotation = "") then next false
  else
    let! g := call (GetIPAddressPool poolName (appNamespace r)) in
    match g with
    | Err _ | Ok None => next false
    | Ok (Some existingPool) =>
        match ap_AllocateTo existingPool with
        | None => stop (Err (mkErr KPanic "invalid memory address or nil pointer dereference"))
        | Some alloc =>
            if containsString (sa_Namespaces alloc) (svc_ns svc) then next true
            else
              let! u := call (UpdateIPAddressPool (mkIPAddressPool (ap_Name existingPool)
                (ap_Namespace existingPool) (ap_Addresses existingPool)
                (Some (mkAllocation (sa_Namespaces alloc ++ [svc_ns svc]) (sa_NamespaceSelectors alloc)
                  (sa_ServiceSelectors alloc))))) in
              match u with
              | Err err => stop (Err (wrapf "failed to update IPAddressPool" err))
              | Ok _ => next true
              end
        end
    end.

(** The old pool of the address: withdrawn, unless another Service uses it. *)
Definition replace_pool (svc : Service) (a : Allocation) (held : Held) (p pool : IPAddressPool)
    : Prog LbCall (Step bool) :=
  let! kept := unless_in_use svc (held_ip held) "failed to create IPAddressPool" "MetalLB IPAddressPool" None in
  match kept with
  | Some x => stop x
  | None =>
      let! e1 := call (DeleteL2Advertisement (ap_Name p) (appNamespace r)) in
      let! e2 := call (DeleteIPAddressPool (ap_Name p) (appNamespace r)) in
      if is_err e1 || is_err e2 then
        let! x := release_requested svc a held "CreateIPAddressPool" None in
        match x with
        | Err err => stop (Err err)
        | Ok _ => stop (Err (wrapf_opt "failed to create IPAddressPool" None))
        end
      else
        let! c := call (CreateIPAddressPool pool) in
        match c with
        | Ok _ => next true
        | Err err =>
            if IsAlreadyExists err then next false
            else stop (Err (wrapf "failed to create IPAddressPool" err))
        end
  end.

Definition pool_failed (svc : Service) (a : Allocation) (held : Held) (pool : IPAddressPool) (ip : IP)
    (err : error) : Prog LbCall (Step bool) :=
  if Contains (err_msg err) "overlaps with already defined CIDR" then
    let! l := call (GetIPAddressPools (appNamespace r)) in
    match l with
    | Err err => stop (Err (wrapf "failed to get IPAddressPools" err))
    | Ok ipAddressPools =>
        match find (λ p, poolContainsAddress (ap_Addresses p) ip) ipAddressPools with
        | Some p => replace_pool svc a held p pool
        | None => next false
        end
    end
  else
    let! x := release_requested svc a held "CreateIPAddressPool" (Some err) in
    match x with
    | Err err => stop (Err err)
    | Ok _ => stop (Err (wrapf "failed to create IPAddressPool" err))
    end.

Definition create_pool (svc : Service) (a : Allocation) (held : Held) (poolName : string) (ip : IP)
    : Prog LbCall (Step bool) :=
  let pool := pool_object svc poolName (held_ip held) in
  let! c := call (CreateIPAddressPool pool) in
  match c with
  | Ok _ => next true
  | Err err => if IsAlreadyExists err then next false else pool_failed svc a held pool ip err
  end.

Definition advertise_failed (svc : Service) (a : Allocation) (held : Held) (poolName : string) (err : error)
    : Prog LbCall (res unit) :=
  let! kept := unless_in_use svc (held_ip held) "failed to create L2Advertisement" "MetalLB IPAddressPool" (Some err) in
  match kept with
  | Some x => Ret x
  | None =>
      try! _u := call (DeleteIPAddressPool poolName (appNamespace r)) else errDelete =>
        Ret (Err (cleanup_error "delete IPAddressPool during CreateL2Advertisement" errDelete (Some err))) in
      try! _u := release_requested svc a held "CreateL2Advertisement" (Some err) else e => Ret (Err e) in
      Ret (Err (wrapf "failed to create L2Advertisement" err))
  end.

Definition publish_metallb (svc : Service) (a : Allocation) (held : Held) (poolName : string) (ip : IP)
    : Prog LbCall (Step bool) :=
  go! poolAlreadyExists := join_pool svc poolName in
  if (poolAlreadyExists : bool) then next false
  else
    go! createdPool := create_pool svc a held poolName ip in
    let! e := call (CreateL2Advertisement (mkL2Advertisement poolName (appNamespace r) [poolName] [al_interface a])) in
    match e with
    | Ok _ => next createdPool
    | Err err =>
        if IsAlreadyExists err then next createdPool
        else let! x := advertise_failed svc a held poolName err in stop x
    end.

Definition group_object (held : Held) (poolName : string) (ip : IP) : ServiceGroup :=
  let pool := mkAddressPool "default" (addressCIDR (held_ip held)) (held_subnet held) in
  if is_some (To4 ip) then mkServiceGroup poolName (appNamespace r) [pool] []
  else mkServiceGroup poolName (appNamespace r) [] [pool].

(** Whether the ServiceGroup is there. *)
Definition group_exists (svc : Service) (held : Held) (poolName : string) : Prog LbCall (Step bool) :=
  if negb (bool_decide (svc_ann svc groupAnnotation = ""))
     || (held_adopted held && bool_decide (held_subnet held = "")) then
    let! l := call (GetServiceGroups (appNamespace r)) in
    match l with
    | Err err => stop (Err (wrapf "failed to get ServiceGroups" err))
    | Ok groups => next (existsb (λ sg, bool_decide (sg_Name sg = poolName)) groups)
    end
  else next false.

Definition group_failed (svc : Service) (a : Allocation) (held : Held) (err : error) : Prog LbCall (res unit) :=
  let! kept := unless_in_use svc (held_ip held) "failed to create ServiceGroup" "PureLB ServiceGroup" (Some err) in
  match kept with
  | Some x => Ret x
  | None =>
      try! _u := release_requested svc a held "CreateServiceGroup" (Some err) else e => Ret (Err e) in
      Ret (Err (wrapf "failed to create ServiceGroup" err))
  end.

Definition publish_purelb (svc : Service) (a : Allocation) (held : Held) (poolName : string) (ip : IP)
    : Prog LbCall (Step bool) :=
  go! exists_ := group_exists svc held poolName in
  if (exists_ : bool) then next false
  else if held_adopted held && bool_decide (held_subnet held = "") then
    call (Eventf svc "MissingServiceGroupSubnet" ("Cannot recreate PureLB ServiceGroup " +:+ poolName
      +:+ " for FloatingIP " +:+ held_ip held +:+ ": allocation subnet is unknown")) ;;;
    next false
  else
    let! e := call (CreateServiceGroup (group_object held poolName ip)) in
    match e with
    | Ok _ => next true
    | Err err =>
        if IsAlreadyExists err then next false
        else let! x := group_failed svc a held err in stop x
    end.

(** Whether this reconcile created the pool. *)
Definition publish (svc : Service) (a : Allocation) (held : Held) (poolName : string) (ip : IP)
    : Prog LbCall (Step bool) :=
  if bool_decide (sec (al_secret a) "loadBalancerType" = "metallb") then publish_metallb svc a held poolName ip
  else if bool_decide (sec (al_secret a) "loadBalancerType" = "purelb") then publish_purelb svc a held poolName ip
  else next false.

(** ** Recording the allocation on the Service *)

Definition set_label (k v : string) (s : Service) : Service * bool :=
  let m := svc_meta s in
  let '(l, changed) := put (Labels m) k v in
  (set_svc_meta s (set_Labels m l), changed).

(** One write after another; whether any of them changed the Service. *)
Fixpoint apply_all (writes : list (Service → Service * bool)) (s : Service) : Service * bool :=
  match writes with
  | [] => (s, false)
  | f :: writes => let '(s, c1) := f s in let '(s, c2) := apply_all writes s in (s, c1 || c2)
  end.

Definition when (b : bool) (f : Service → Service * bool) (s : Service) : Service * bool :=
  if b then f s else (s, false).

Definition add_finalizer (s : Service) : Service * bool :=
  let m := svc_meta s in
  if containsString (Finalizers m) lb_finalizerName then (s, false)
  else (set_svc_meta s (set_Finalizers m (Finalizers m ++ [lb_finalizerName])), true).

Definition nonempty (s : string) : bool := negb (bool_decide (s = "")).

(** Share the address through the load balancer, if the Service is in a group. *)
Definition share (key sharedKey : string) (s : Service) : Service * bool :=
  when (nonempty (svc_ann s groupAnnotation) && nonempty sharedKey) (write_annotation key sharedKey) s.

Definition annotate (svc : Service) (a : Allocation) (held : Held) (poolName : string)
    : Service → Service * bool :=
  let group := svc_ann svc groupAnnotation in
  let lbType := sec (al_secret a) "loadBalancerType" in
  apply_all ([
    (λ s, set_label serviceLabel (svc_name s) s);
    (λ s, set_label serviceNamespaceLabel (svc_ns s) s);
    when (nonempty group) (set_label serviceGroupLabel group);
    write_annotation floatingIPAnnotation (held_ip held);
    drop_annotation floatingIPRequestAnnotation;
    when (nonempty (held_subnet held)) (write_annotation subnetAnnotation (held_subnet held));
    when (nonempty (held_project held)) (write_annotation projectAnnotation (held_project held))
  ] ++ (if bool_decide (lbType = "metallb") then [share "metallb.io/allow-shared-ip" (held_sharedKey held)]
        else if bool_decide (lbType = "purelb") then
          [write_annotation "purelb.io/service-group" poolName;
           share "purelb.io/allow-shared-ip" (held_sharedKey held)]
        else [])
    ++ [add_finalizer]).

(** The Service is gone: its claim is released, and its pool if nobody else
    uses the address. *)
Definition release_vanished_locked (svc : Service) (projectId : string) (secret : Secret)
    (ipAddress poolName fipPoolName : string) : Prog LbCall (res unit) :=
  try! shared := shared_address r svc projectId secret ipAddress poolName fipPoolName else err => Ret (Err err) in
  try! _u := (if shared then Ret (Ok tt)
    else delete_resources secret poolName (" of vanished service " +:+ full_name svc)) else err => Ret (Err err) in
  try! client := ipamClientFor r projectId secret else err =>
    Ret (Err (wrapf ("failed to create IPAM client while cleaning up vanished service " +:+ full_name svc) err)) in
  try! _u := call (ReleaseFIP client (fip_args secret fipPoolName svc ipAddress "")) else err =>
    Ret (Err (wrapf ("failed to release FloatingIP " +:+ ipAddress +:+ " of vanished service " +:+ full_name svc) err)) in
  Ret (Ok tt).

Definition releaseVanishedAllocation (svc : Service) (projectId : string) (secret : Secret)
    (ipAddress poolName fipPoolName : string) : Prog LbCall (res unit) :=
  with_lock ipAddress (release_vanished_locked svc projectId secret ipAddress poolName fipPoolName).

(** The Service could not be written. *)
Definition undo_pool (svc : Service) (a : Allocation) (poolName : string) (createdPool : bool) (err : error)
    : Prog LbCall (res unit) :=
  let lbType := sec (al_secret a) "loadBalancerType" in
  if negb createdPool then Ret (Ok tt)
  else if bool_decide (lbType = "metallb") then
    try! _u := call (DeleteL2Advertisement poolName (appNamespace r)) else e =>
      Ret (Err (cleanup_error "delete L2Advertisement during finalizer update" e (Some err))) in
    try! _u := call (DeleteIPAddressPool poolName (appNamespace r)) else e =>
      Ret (Err (cleanup_error "delete IPAddressPool during finalizer update" e (Some err))) in
    Ret (Ok tt)
  else if bool_decide (lbType = "purelb") then
    try! _u := call (DeleteServiceGroup poolName (appNamespace r)) else e =>
      Ret (Err (cleanup_error "delete ServiceGroup during finalizer update" e (Some err))) in
    Ret (Ok tt)
  else Ret (Ok tt).

Definition annotate_failed (svc : Service) (a : Allocation) (held : Held) (poolName : string)
    (createdPool : bool) (err : error) : Prog LbCall (res unit) :=
  let failed := "failed to add finalizer, label and annotation to service " +:+ full_name svc in
  let! kept := unless_in_use svc (held_ip held) failed "" (Some err) in
  match kept with
  | Some x => Ret x
  | None =>
      try! _u := undo_pool svc a poolName createdPool err else e => Ret (Err e) in
      try! _u := release_requested svc a held "finalizer update" (Some err) else e => Ret (Err e) in
      Ret (Err (wrapf failed err))
  end.

(** [reconcile] also writes to the Service it was given. *)
Definition record_allocation_on (svc : Service) (a : Allocation) (held : Held) (poolName : string)
    (createdPool : bool) : Prog LbCall (res unit * Service) :=
  let! u := updateService (svc_ns svc) (svc_name svc) (annotate svc a held poolName) in
  match u with
  | Ok _ => Ret (Ok tt, svc)
  | Err err =>
      if IsNotFound err then
        if bool_decide (held_ip held = "") then Ret (Ok tt, svc)
        else
          let! c := releaseVanishedAllocation svc (al_projectId a) (al_secret a) (held_ip held) poolName (al_pool a) in
          match c with
          | Ok _ => Ret (Ok tt, svc)
          | Err cleanupErr => Ret (Err cleanupErr, (write_annotation floatingIPAnnotation (held_ip held) svc).1)
          end
      else let! x := annotate_failed svc a held poolName createdPool err in Ret (x, svc)
  end.

(** ** [reconcile] *)

(** The address to publish: held already, or requested now. *)
Definition hold (svc : Service) (a : Allocation) : Prog LbCall (Step Held) :=
  go! found := find_allocation svc a in
  match (found : option Held) with
  | Some held => next held
  | None => request_allocation svc a
  end.

Definition reconcile_load_balancer (svc : Service) : Prog LbCall (res unit * Service) :=
  let! p := prepare svc in
  match p with
  | inl x => Ret (x, svc)
  | inr a =>
  let! h := hold svc a in
  match h with
  | inl x => Ret (x, svc)
  | inr held =>
  match ParseIP (held_ip held) with
  | None => Ret (Err (errorf ("failed to parse allocated IP address: " +:+ held_ip held)), svc)
  | Some ip =>
  let poolName := poolNameForAddress (held_ip held) in
  let! c := publish svc a held poolName (IP16 ip) in
  match c with
  | inl x => Ret (x, svc)
  | inr createdPool => record_allocation_on svc a held poolName createdPool
  end end end end.

(** The Service is deleted, or is no longer a load balancer and has a record. *)
Definition goes_away (svc : Service) : bool :=
  is_some (DeletionTimestamp (svc_meta svc))
  || (negb (serviceNeedsFloatingIP svc) && hasFloatingIPRecord svc).

Definition lb_reconcile (svc : Service) : Prog LbCall (res unit * Service) :=
  if goes_away svc then let! x := reconcile_delete svc in Ret (x, svc)
  else reconcile_load_balancer svc.
End Lb.
