(* ===== verification/LbLoop.v ===== *)
(** The load-balancer controller: its event handlers, the snapshots of deleted
    Services and the work queue handler,
    [lbcontroller/internal/controller/controller.go]. *)

From S2P Require Import Prelude GoStd ApiTypes Kube ApiServer Prog LbApi LbController LbReconcile.

(** The index of the informer cache. *)
Definition indexServiceByFloatingIP (obj : option Service) : list string :=
  match obj with
  | Some svc =>
      if negb (bool_decide (svc_ann svc floatingIPAnnotation = "")) then [svc_ann svc floatingIPAnnotation] else []
  | None => []
  end.

Definition reconcileAnnotations : list string :=
  [floatingIPAnnotation; groupAnnotation; staticIPAnnotation; staticNetworkAnnotation; projectAnnotation].

Definition serviceNeedsReconcile (oldSvc newSvc : Service) : bool :=
  if is_some (DeletionTimestamp (svc_meta newSvc)) then true
  else if negb (serviceNeedsFloatingIP newSvc) then serviceNeedsFloatingIP oldSvc || hasFloatingIPRecord newSvc
  else if negb (serviceNeedsFloatingIP oldSvc) then true
  else if bool_decide (ResourceVersion (svc_meta oldSvc) = ResourceVersion (svc_meta newSvc)) then true
  else if negb (Bool.eqb (containsString (Finalizers (svc_meta oldSvc)) lb_finalizerName)
                         (containsString (Finalizers (svc_meta newSvc)) lb_finalizerName)) then true
  else existsb (λ annotation, negb (bool_decide (svc_ann oldSvc annotation = svc_ann newSvc annotation)))
         reconcileAnnotations.

Section Loop.
Context `{HLibs : LbLibs, HRetry : Retries LbCall} (r : reconciler).
#[local] Open Scope prog_scope.

Definition lb_enqueue (svc : Service) : Prog LbCall unit :=
  match MetaNamespaceKeyFunc svc with
  | Err _ => Ret tt
  | Ok key => call (LbAdd key)
  end.

(** Without the finalizer or a record there is nothing to release. *)
Definition remembers (svc : Service) : bool :=
  containsString (Finalizers (svc_meta svc)) lb_finalizerName
  || negb (bool_decide (svc_ann svc floatingIPAnnotation = ""))
  || negb (bool_decide (svc_ann svc floatingIPRequestAnnotation = "")).

Definition rememberTombstone (svc : Service) : Prog LbCall unit :=
  if negb (remembers svc) then Ret tt
  else match MetaNamespaceKeyFunc svc with
  | Err _ => Ret tt
  | Ok key => call (SetTombstone key svc)
  end.

(** [None] is an object of another type. *)
Definition addFunc (obj : option Service) : Prog LbCall unit :=
  match obj with
  | None => Ret tt
  | Some service =>
      if serviceNeedsFloatingIP service || hasFloatingIPRecord service then lb_enqueue service else Ret tt
  end.

Definition updateFunc (oldObj newObj : option Service) : Prog LbCall unit :=
  match oldObj, newObj with
  | Some oldSvc, Some service => if serviceNeedsReconcile oldSvc service then lb_enqueue service else Ret tt
  | _, _ => Ret tt
  end.

Definition deleteFunc (obj : Informed Service) : Prog LbCall unit :=
  match obj with
  | Obj service => lb_enqueue service
  | Tombstone (Some service) => rememberTombstone service ;;; lb_enqueue service
  | Tombstone None | Unknown => Ret tt
  end.

(** [reconcile] of the [Controller].  Setting the deletion time writes to the stored
    snapshot as well, which nobody can tell: only whether there is one is read,
    and every reader sets it first. *)
Definition reconcile_gone (key : string) : Prog LbCall (res unit) :=
  let! snapshot := call (PeekTombstone key) in
  match snapshot with
  | None => Ret (Ok tt)
  | Some svc =>
      let! svc := (if is_some (DeletionTimestamp (svc_meta svc)) then Ret svc
                   else let! now := call LbNow in Ret (set_svc_deleted svc now)) in
      let! x := lb_reconcile r svc in
      match x.1 with
      | Err err => Ret (Err err)
      | Ok _ => call (TakeTombstone key) ;;; Ret (Ok tt)
      end
  end.

(** A panic passes through. *)
Definition reconcile_cached (key : string) (svc : Service) : Prog LbCall (res unit) :=
  call (TakeTombstone key) ;;;
  let! x := lb_reconcile r svc in
  match x with
  | (Err err, svc') =>
      (if bool_decide (err_kind err = KPanic) then Ret tt else rememberTombstone svc') ;;; Ret (Err err)
  | (Ok _, _) => Ret (Ok tt)
  end.

Definition controller_reconcile (key : string) : Prog LbCall (res unit) :=
  match SplitKey key with
  | Err _ => Ret (Ok tt)
  | Ok _ =>
      let! g := call (GetByKey key) in
      match g with
      | Err err => Ret (Err err)
      | Ok None => reconcile_gone key
      | Ok (Some svc) => reconcile_cached key svc
      end
  end.

(** [None] is the queue shut down; [Done] is deferred. *)
Definition processNextItem (key : option string) : Prog LbCall bool :=
  match key with
  | None => Ret false
  | Some key =>
      let! x := controller_reconcile key in
      (match x with
       | Err err =>
           if bool_decide (err_kind err = KPanic) then Ret tt else call (LbAddRateLimited key)
       | Ok _ => call (LbForget key)
       end) ;;;
      call (LbDone key) ;;; Ret true
  end.
End Loop.
