(* ===== verification/LbEvidence.v ===== *)
(** What the history of a run of the load-balancer controller shows: who uses
    an address, what was withdrawn, what was released; and the specifications
    of the controller's queries in these terms. *)

From S2P Require Import Prelude GoStd NetIP ApiTypes ApiServer Prog LbApi LbController LbReconcile.

(** ** Evidence *)

Section Evidence.
Context `{HLibs : LbLibs} (r : reconciler).

(** A Service, read from the API server, that references the address. *)
Definition references (ip : string) (s : Service) : Prop :=
  svc_ann s floatingIPAnnotation = ip ∧ svc_Type s = LoadBalancer.

(** [addressInUse] answered false: no other Service that the cache lists under
    the address references it. *)
Definition unreferenced (svc : Service) (ip : string) (h : History LbCall) : Prop :=
  if has_indexer r then
    asked (ByIndex ip) h (λ a, ∃ objs, a = Ok objs ∧ ∀ other, Some other ∈ objs → same_service other svc = false →
      asked (GetService (svc_ns other) (svc_name other)) h
        (λ b, NotFoundErr b ∨ ∃ live, b = Ok live ∧ ¬ references ip live))
  else asked (ListServices "" None) h (λ a, ∃ items, a = Ok items ∧
    ∀ other, other ∈ items → same_service other svc = false → ¬ references ip other).

(** The manager lists the address for no other live Service of the cluster. *)
Definition other_claim (svc : Service) (cluster ip : string) (fip : FIPListEntry) : Prop :=
  le_Cluster fip = cluster ∧ le_IPAddress fip = ip ∧
  ¬ (le_ServiceNamespace fip = svc_ns svc ∧ le_ServiceName fip = svc_name svc).
Definition live_service (s : Service) : Prop :=
  DeletionTimestamp (svc_meta s) = None ∧ svc_Type s = LoadBalancer.

Definition unclaimed (svc : Service) (secret : Secret) (fipPoolName ip : string) (h : History LbCall) : Prop :=
  ∃ client, asked (ListFIPs_ client (list_args secret fipPoolName)) h (λ a, ∃ fips, a = Ok fips ∧
    ∀ fip, fip ∈ fips → other_claim svc (sec secret "cluster") ip fip →
      asked (GetService (le_ServiceNamespace fip) (le_ServiceName fip)) h
        (λ b, NotFoundErr b ∨ ∃ s, b = Ok s ∧ ¬ live_service s)).

(** Another Service uses the address or its pool, as far as the controller can
    tell: it references the address, it is admitted by the pool, the manager
    lists it for the address; or the pool is open to all. *)
Inductive used_elsewhere (svc : Service) (ip poolName : string) (h : History LbCall) : Prop :=
| used_referenced ns name s :
    (ns, name) ≠ (svc_ns svc, svc_name svc) → mkEv (GetService ns name) (Ok s) ∈ h → references ip s →
    used_elsewhere svc ip poolName h
| used_listed items s :
    mkEv (ListServices "" None) (Ok items) ∈ h → s ∈ items → same_service s svc = false → references ip s →
    used_elsewhere svc ip poolName h
| used_admitted pool alloc selectors ns sel items s :
    mkEv (GetIPAddressPool poolName (appNamespace r)) (Ok (Some pool)) ∈ h → ap_AllocateTo pool = Some alloc →
    pool_selectors r poolName (sa_ServiceSelectors alloc) = Ok selectors → ns ∈ sa_Namespaces alloc →
    mkEv (ListServices ns sel) (Ok items) ∈ h → s ∈ items → admits svc selectors s = true →
    used_elsewhere svc ip poolName h
| used_open pool :
    mkEv (GetIPAddressPool poolName (appNamespace r)) (Ok (Some pool)) ∈ h →
    (ap_AllocateTo pool = None ∨ ∃ alloc, ap_AllocateTo pool = Some alloc ∧ sa_NamespaceSelectors alloc ≠ []) →
    used_elsewhere svc ip poolName h
| used_claimed client args fips fip s :
    mkEv (ListFIPs_ client args) (Ok fips) ∈ h → fip ∈ fips → other_claim svc (la_Cluster args) ip fip →
    mkEv (GetService (le_ServiceNamespace fip) (le_ServiceName fip)) (Ok s) ∈ h → live_service s →
    used_elsewhere svc ip poolName h.

(** The pool of the address is no longer announced. *)
Definition withdrawn (secret : Secret) (poolName : string) (h : History LbCall) : Prop :=
  if bool_decide (sec secret "loadBalancerType" = "metallb") then
    asked (DeleteL2Advertisement poolName (appNamespace r)) h gone ∧
    asked (DeleteIPAddressPool poolName (appNamespace r)) h gone
  else if bool_decide (sec secret "loadBalancerType" = "purelb") then
    asked (DeleteServiceGroup poolName (appNamespace r)) h gone
  else True.

Lemma unreferenced_extends svc ip h h' : extends h h' → unreferenced svc ip h → unreferenced svc ip h'.
Proof.
  intros Hh. unfold unreferenced. destruct (has_indexer r); [|by apply asked_extends].
  intros (a & Ha & objs & -> & Ho). exists (Ok objs). split; [by eapply elem_extends|]. exists objs. split; [done|].
  intros other Hin Hs. eapply asked_extends; [done|]. by apply Ho.
Qed.

Lemma unclaimed_extends svc secret pool ip h h' :
  extends h h' → unclaimed svc secret pool ip h → unclaimed svc secret pool ip h'.
Proof.
  intros Hh (client & a & Ha & fips & -> & Ho). exists client, (Ok fips). split; [by eapply elem_extends|].
  exists fips. split; [done|]. intros fip Hin Hs. eapply asked_extends; [done|]. by apply Ho.
Qed.

Lemma used_elsewhere_extends svc ip pool h h' :
  extends h h' → used_elsewhere svc ip pool h → used_elsewhere svc ip pool h'.
Proof.
  intros Hh [ns name s ? ? ?|items s ? ? ? ?|p alloc ss ns sel items s ? ? ? ? ? ? ?|p ? ?|c a fips fip s ? ? ? ? ?].
  - eapply used_referenced; by eauto using elem_extends.
  - eapply used_listed; by eauto using elem_extends.
  - eapply used_admitted; by eauto using elem_extends.
  - eapply used_open; by eauto using elem_extends.
  - eapply used_claimed; by eauto using elem_extends.
Qed.

Lemma withdrawn_extends secret pool h h' : extends h h' → withdrawn secret pool h → withdrawn secret pool h'.
Proof.
  intros Hh. unfold withdrawn. repeat case_bool_decide; [|by apply asked_extends|done].
  intros [? ?]. split; by eapply asked_extends.
Qed.
End Evidence.

#[export] Hint Resolve asked_extends unreferenced_extends unclaimed_extends used_elsewhere_extends
  withdrawn_extends elem_extends : lb.

(** ** The controller's queries *)

(** What the work queue handler does around a reconciliation. *)
Definition bookkeeping {R} (c : LbCall R) : bool :=
  match c with
  | TakeTombstone _ | SetTombstone _ _ | LbAddRateLimited _ | LbForget _ | LbDone _ => true
  | _ => false
  end.

(** Calls that take nothing away: every guard of the development allows them. *)
Definition harmless {R} (c : LbCall R) : bool :=
  match c with
  | UpdateService _ | DeleteService _ _ | DeleteIPAddressPool _ _ | DeleteL2Advertisement _ _
  | DeleteServiceGroup _ _ | RequestFIP _ _ | ReleaseFIP _ _ | LockAddress _ | UnlockAddress _ => false
  | _ => negb (bookkeeping c)
  end.

(** The calls on the locks of addresses. *)
Definition locking {R} (c : LbCall R) : bool :=
  match c with LockAddress _ | UnlockAddress _ => true | _ => false end.

(** [P] holds of what was seen since the lock of the address was taken, and it
    has been held ever since. *)
Definition under_lock (ip : string) (P : History LbCall → Prop) (h : History LbCall) : Prop :=
  ∃ l h0, h = l ++ mkEv (LockAddress ip) tt :: h0 ∧ Forall (λ ev, locking (ev_c ev) = false) l ∧ P l.

Section Queries.
Context `{HLibs : LbLibs, HRetry : Retries LbCall} (r : reconciler).
Context (G : Guard LbCall) (HG : ∀ h R (c : LbCall R), harmless c = true → G h R c).

(** What an update that reports an error, or succeeds, has seen. *)
Definition update_outcome (ns name : string) (mutate : Service → Service * bool) (x : res Service)
    (h : History LbCall) : Prop :=
  match x with
  | Err e => mkEv (GetService ns name) (Err e) ∈ h
      ∨ ∃ s, mkEv (GetService ns name) (Ok s) ∈ h ∧ mkEv (UpdateService (mutate s).1) (Err e) ∈ h
  | Ok s' => ∃ s, mkEv (GetService ns name) (Ok s) ∈ h ∧
      ((mutate s).2 = false ∨ mkEv (UpdateService (mutate s).1) (Ok s') ∈ h)
  end.

Lemma wp_update ns name mutate h :
  (∀ h' s, extends h h' → (mutate s).2 = true →
     G (mkEv (GetService ns name) (Ok s) :: h') _ (UpdateService (mutate s).1)) →
  wp G (updateService ns name mutate) (update_outcome ns name mutate) h.
Proof.
  intros Hu. unfold updateService. 
  apply (wp_weaken G G _ (λ x h', update_outcome ns name mutate x h' ∧ extends h h'));
    [|done|by intros ? ? [Hq _]].
  apply wp_retry; [done|]. intros h1 Hh. apply wp_call_then; [by apply HG|]. intros [s|e].
  2:{ apply wp_ret. split; [left; by left | by apply extends_cons]. }
  destruct (mutate s) as [s2 changed] eqn:Hm. destruct changed; cbn [negb].
  - apply wp_call; [specialize (Hu h1 s Hh); rewrite Hm in Hu; by apply Hu|].
    intros [s'|e]; (split; [|by do 2 apply extends_cons]).
    + exists s. split; [right; by left|]. right. rewrite Hm. by left.
    + right. exists s. rewrite Hm. split; [right; by left | by left].
  - apply wp_ret. split; [|by apply extends_cons]. exists s. split; [by left|]. left. by rewrite Hm.
Qed.

Ltac wcall := apply wp_call_then; [by apply HG|].

Lemma wp_live_user svc ip poolName : ∀ objs h,
  wp G (live_user svc ip objs) (λ x h', match x with
    | Ok true => used_elsewhere r svc ip poolName h'
    | Ok false => ∀ other, Some other ∈ objs → same_service other svc = false →
        asked (GetService (svc_ns other) (svc_name other)) h' (λ b, NotFoundErr b ∨ ∃ live, b = Ok live ∧ ¬ references ip live)
    | Err _ => True
    end) h.
Proof.
  induction objs as [|[other|] objs IH]; intros h; cbn [live_user].
  - apply wp_ret. intros other Hin. by apply not_elem_of_nil in Hin.
  - destruct (same_service other svc) eqn:Hs.
    + eapply wp_post; [apply IH|]. intros [[]|] h' Hx _; try done. intros o [[= ->]|Ho]%elem_of_cons Hso; [congruence | by apply Hx].
    + assert (∀ h1 b, mkEv (GetService (svc_ns other) (svc_name other)) b ∈ h1 →
        (NotFoundErr b ∨ ∃ live, b = Ok live ∧ ¬ references ip live) →
        wp G (live_user svc ip objs) (λ x h', match x with
          | Ok true => used_elsewhere r svc ip poolName h'
          | Ok false => ∀ o, Some o ∈ Some other :: objs → same_service o svc = false →
              asked (GetService (svc_ns o) (svc_name o)) h' (λ b, NotFoundErr b ∨ ∃ live, b = Ok live ∧ ¬ references ip live)
          | Err _ => True end) h1) as Hskip.
      { intros h1 b Hb Hdead. eapply wp_post; [apply IH|]. intros [[]|] h' Hx Hh; try done.
        intros o [[= ->]|Ho]%elem_of_cons Hso; [|by apply Hx]. exists b. split; [by eapply elem_extends | done]. }
      wcall. intros [live|e].
      * destruct (bool_decide _ && _) eqn:Hl.
        -- apply wp_ret. apply andb_true_iff in Hl as [Hl1 Hl2]. unfold serviceNeedsFloatingIP in Hl2. bool_hyps.
           eapply (used_referenced _ _ _ _ _ (svc_ns other) (svc_name other)); [|by left | done].
           intros [= Hn Hm]. unfold same_service in Hs. rewrite Hn, Hm, !bool_decide_true in Hs by done. done.
        -- eapply Hskip; [by left|]. right. exists live. split; [done|]. intros [Hr Ht].
           unfold serviceNeedsFloatingIP in Hl. by rewrite Hr, Ht, !bool_decide_true in Hl.
      * destruct (IsNotFound e) eqn:He; [|by apply wp_ret]. eapply Hskip; [by left|]. left. by exists e.
  - eapply wp_post; [apply IH|]. intros [[]|] h' Hx _; try done. intros o [?|Ho]%elem_of_cons; [done | by apply Hx].
Qed.

Lemma wp_addressInUse svc ip poolName h :
  ip ≠ "" →
  wp G (addressInUse r svc ip) (λ x h', match x with
    | Ok true => used_elsewhere r svc ip poolName h'
    | Ok false => unreferenced r svc ip h'
    | Err _ => True end) h.
Proof.
  intros Hip. unfold addressInUse, unreferenced. rewrite bool_decide_false by done.
  destruct (has_indexer r) eqn:Hx.
  - wcall. intros [objs|e]; [|by apply wp_ret]. eapply wp_post; [apply (wp_live_user svc ip poolName)|].
    intros [[]|] h' Hq Hh; try done. exists (Ok objs). split; [eapply elem_extends; [by left | done]|]. by exists objs.
  - wcall. intros [items|e]; [|by apply wp_ret]. apply wp_ret. case_goal.
    + apply existsb_exists in Heqb as (s & Hin & Hs). apply list_elem_of_In in Hin. unfold serviceNeedsFloatingIP in Hs. bool_hyps.
      eapply used_listed; [by left | done | done | done].
    + exists (Ok items). split; [by left|]. exists items. split; [done|]. intros other Hin Hso [Hr Ht].
      apply not_true_iff_false in Heqb. apply Heqb, existsb_exists. exists other. split; [by apply list_elem_of_In|].
      unfold serviceNeedsFloatingIP. by rewrite Hso, Hr, Ht, !bool_decide_true.
Qed.

(** Queries that only read have no effect a guard could refuse. *)
Lemma wp_admitted svc ip poolName pool alloc selectors options : ∀ namespaces h,
  mkEv (GetIPAddressPool poolName (appNamespace r)) (Ok (Some pool)) ∈ h → ap_AllocateTo pool = Some alloc →
  pool_selectors r poolName (sa_ServiceSelectors alloc) = Ok selectors →
  (∀ ns, ns ∈ namespaces → ns ∈ sa_Namespaces alloc) →
  wp G (admitted_in svc selectors options namespaces) (λ x h',
    x = Ok true → used_elsewhere r svc ip poolName h') h.
Proof.
  induction namespaces as [|ns namespaces IH]; intros h Hp Ha Hs Hin; cbn [admitted_in]; [by apply wp_ret|].
  wcall. intros [items|e]; [|by apply wp_ret]. case_goal.
  - apply wp_ret. intros _. apply existsb_exists in Heqb as (s & Hi & Had). apply list_elem_of_In in Hi.
    eapply used_admitted; [by right | done | done | apply Hin; by left | by left | done | done].
  - apply IH; [by right | done | done|]. intros ns' ?. apply Hin. by right.
Qed.

Lemma wp_metalLBAddressInUse svc ip poolName h :
  wp G (metalLBAddressInUse r svc poolName) (λ x h', x = Ok true → used_elsewhere r svc ip poolName h') h.
Proof.
  unfold metalLBAddressInUse. case_goal; [by apply wp_ret|]. wcall. intros [[pool|]|e]; [|by apply wp_ret | case_goal; by apply wp_ret].
  destruct (ap_AllocateTo pool) as [alloc|] eqn:Ha.
  - case_bool_decide; cbn [negb].
    + destruct (pool_selectors _ _ _) as [selectors|] eqn:Hs; [|by apply wp_ret].
      eapply wp_admitted; [by left | done | done | done].
    + apply wp_ret. intros _. eapply used_open; [by left|]. right. exists alloc. split; [done|]. intros Hn. by rewrite Hn in *.
  - apply wp_ret. intros _. eapply used_open; [by left|]. by left.
Qed.

Lemma wp_ipamClientFor projectID secret h : wp G (ipamClientFor r projectID secret) (λ _ _, True) h.
Proof.
  unfold ipamClientFor. case_goal; [by apply wp_ret|]. wcall.
  assert (∀ h', wp G (store_client projectID (sec secret "apiUrl") ("client-" +:+ sec secret "cluster")) (λ _ _, True) h') as Hst.
  { intros h'. unfold store_client. case_goal; [|by apply wp_ret]. wcall. intros ?. by apply wp_ret. }
  intros [e|]; [|done]. case_goal; [by apply wp_ret | done].
Qed.

Lemma wp_claimed svc cluster ip poolName client args fips0 : ∀ fips h,
  mkEv (ListFIPs_ client args) (Ok fips0) ∈ h → la_Cluster args = cluster → (∀ f, f ∈ fips → f ∈ fips0) →
  wp G (claimed_in svc cluster ip fips) (λ x h', match x with
    | Ok true => used_elsewhere r svc ip poolName h'
    | Ok false => ∀ fip, fip ∈ fips → other_claim svc cluster ip fip →
        asked (GetService (le_ServiceNamespace fip) (le_ServiceName fip)) h'
          (λ b, NotFoundErr b ∨ ∃ s, b = Ok s ∧ ¬ live_service s)
    | Err _ => True end) h.
Proof.
  intros fips h Hl Hc. revert h Hl. induction fips as [|fip fips IH]; intros h Hl Hin; cbn [claimed_in].
  { apply wp_ret. intros f Hf. by apply not_elem_of_nil in Hf. }
  assert (∀ h1, extends h h1 →
    (other_claim svc cluster ip fip → asked (GetService (le_ServiceNamespace fip) (le_ServiceName fip)) h1
          (λ b, NotFoundErr b ∨ ∃ s, b = Ok s ∧ ¬ live_service s)) →
    wp G (claimed_in svc cluster ip fips) (λ x h', match x with
      | Ok true => used_elsewhere r svc ip poolName h'
      | Ok false => ∀ f, f ∈ fip :: fips → other_claim svc cluster ip f →
          asked (GetService (le_ServiceNamespace f) (le_ServiceName f)) h'
            (λ b, NotFoundErr b ∨ ∃ s, b = Ok s ∧ ¬ live_service s)
      | Err _ => True end) h1) as Hskip.
  { intros h1 Hh Hd. eapply wp_post; [apply IH; [by eapply elem_extends|]|].
    - intros f Hf. apply Hin. by right.
    - intros [[]|] h' Hx Hh'; try done. intros f [->|Hf]%elem_of_cons Ho; [eapply asked_extends; [done | by apply Hd] | by apply Hx]. }
  destruct (_ || _) eqn:Hs.
  - apply Hskip; [done|]. intros (Hc1 & Hc2 & Hc3). exfalso. apply orb_true_iff in Hs as [Hs|Hs].
    + by rewrite Hc1, Hc2, !bool_decide_true in Hs.
    + bool_hyps. by apply Hc3.
  - bool_hyps. wcall. intros [s|e].
    + destruct (_ || _) eqn:Hd.
      * apply Hskip; [by apply extends_cons|]. intros _. apply asked_cons. right. exists s. split; [done|].
        intros [Hl1 Hl2]. unfold serviceNeedsFloatingIP in Hd. by rewrite Hl1, Hl2, bool_decide_true in Hd.
      * apply wp_ret. bool_hyps. unfold serviceNeedsFloatingIP in *. bool_hyps.
        eapply used_claimed; [by right | apply Hin; by left | | by left |].
        -- rewrite Hc. split; [done|]. split; [done|]. intros [Hn1 Hn2]. by rewrite Hn1, Hn2, !bool_decide_true in *.
        -- split; [|done]. by destruct (DeletionTimestamp _).
    + destruct (IsNotFound e) eqn:He; [|by apply wp_ret]. apply Hskip; [by apply extends_cons|]. intros _.
      apply asked_cons. left. by exists e.
Qed.

Lemma wp_ipamAddressInUse svc projectId secret ip poolName fipPoolName h :
  wp G (ipamAddressInUse r svc projectId secret ip fipPoolName) (λ x h', match x with
    | Ok true => used_elsewhere r svc ip poolName h'
    | Ok false => unclaimed svc secret fipPoolName ip h'
    | Err _ => True end) h.
Proof.
  unfold ipamAddressInUse. eapply wp_seq; [apply wp_ipamClientFor|]. intros [client|e] h1 _ _; [|by apply wp_ret].
  wcall. intros [fips|e]; [|by apply wp_ret].
  eapply wp_post; [eapply (wp_claimed _ _ _ poolName client _ fips); [by left | done | done]|].
  intros [[]|] h' Hx Hh; try done. exists client, (Ok fips). split; [eapply elem_extends; [by left | done]|].
  exists fips. split; [done|]. exact Hx.
Qed.

(** Both checks answered false: nobody else uses the address or its pool. *)
Definition unshared (svc : Service) (secret : Secret) (fipPoolName ip : string) (h : History LbCall) : Prop :=
  unreferenced r svc ip h ∧ unclaimed svc secret fipPoolName ip h.

Lemma wp_shared_address svc projectId secret ip poolName fipPoolName h :
  ip ≠ "" →
  wp G (shared_address r svc projectId secret ip poolName fipPoolName) (λ x h', match x with
    | Ok true => used_elsewhere r svc ip poolName h'
    | Ok false => unshared svc secret fipPoolName ip h'
    | Err _ => True end) h.
Proof.
  intros Hip. unfold shared_address. eapply wp_seq; [by apply (wp_addressInUse _ _ poolName)|].
  intros [[]|e] h1 Hx Hh1; [by apply wp_ret| |by apply wp_ret].
  assert (∀ h2, extends h1 h2 → wp G (ipamAddressInUse r svc projectId secret ip fipPoolName) (λ x h', match x with
    | Ok true => used_elsewhere r svc ip poolName h'
    | Ok false => unshared svc secret fipPoolName ip h'
    | Err _ => True end) h2) as Hipam.
  { intros h2 Hh2. eapply wp_post; [apply (wp_ipamAddressInUse _ _ _ _ poolName)|].
    intros [[]|] h' Hx' Hh'; try done. split; [|done]. eapply unreferenced_extends; [|done]. by etrans. }
  unfold sharedPoolInUse. case_bool_decide; [|by apply Hipam].
  eapply wp_seq; [apply (wp_metalLBAddressInUse _ ip)|]. intros [[]|e] h2 Hx2 Hh2; [apply wp_ret; auto | by apply Hipam | by apply wp_ret].
Qed.
End Queries.
