(* ===== verification/LbDeleteCorrect.v ===== *)
(** The deletion of a Service's allocation: the order of its steps. *)

From S2P Require Import Prelude GoStd NetIP ApiTypes ApiServer Prog LbApi LbController LbReconcile LbEvidence.

(** The Service that the last call read. *)
Definition head_read (h : History LbCall) : option Service :=
  match h with
  | [] => None
  | ev :: _ =>
      match ev_c ev in LbCall T return T → option Service with
      | GetService _ _ => λ a, match a with Ok s => Some s | Err _ => None end
      | _ => λ _, None
      end (ev_ans ev)
  end.

Definition has_finalizer (s : Service) : Prop := lb_finalizerName ∈ Finalizers (svc_meta s).

(** The write takes the controller's finalizer off the Service just read. *)
Definition drops_finalizer (h : History LbCall) (s : Service) : Prop :=
  ∃ s0, head_read h = Some s0 ∧ has_finalizer s0 ∧ ¬ has_finalizer s.

Section Deletion.
Context `{HLibs : LbLibs, HRetry : Retries LbCall} (r : reconciler) (svc : Service).

(** ** When the finalizer may go, an address be released, a pool be deleted *)

Definition released (h : History LbCall) : Prop :=
  ∃ client args, mkEv (ReleaseFIP client args) (Ok tt) ∈ h ∧
    fa_ServiceNamespace args = svc_ns svc ∧ fa_ServiceName args = svc_name svc.

(** The Service holds no address: none is recorded, and no request is pending
    for which the manager lists one. *)
Definition nothing_held (h : History LbCall) : Prop :=
  svc_ann svc floatingIPAnnotation = "" ∧
  (svc_ann svc floatingIPRequestAnnotation = "" ∨
   ∃ client args fips, mkEv (ListFIPs_ client args) (Ok fips) ∈ h ∧
     default "" (lookupServiceFloatingIP fips (la_Cluster args) (svc_ns svc) (svc_name svc)) = "").

(** There is no identity to release with: the project is unknown, or has no
    Secret. *)
Definition no_identity (h : History LbCall) : Prop :=
  (∃ p, asked (GetLbSecret (appNamespace r) (secret_name p)) h NotFoundErr) ∨
  (svc_ann svc projectAnnotation = "" ∧ svc_ann svc floatingIPRequestAnnotation = "" ∧
   asked (GetNamespace (svc_ns svc)) h (λ a, NotFoundErr a ∨ ∃ l, a = Ok l ∧ mget l projectIdLabel = "")).

Definition may_drop_finalizer (h : History LbCall) : Prop :=
  released h ∨ svc_ann svc cleanupProgressAnnotation = cleanupStageReleased ∨ nothing_held h ∨ no_identity h.

Definition secret_read (secret : Secret) (h : History LbCall) : Prop :=
  ∃ p, mkEv (GetLbSecret (appNamespace r) (secret_name p)) (Ok secret) ∈ h.

Definition unannounced (secret : Secret) (ip : string) (l : History LbCall) : Prop :=
  svc_ann svc cleanupProgressAnnotation = cleanupStageResourcesDeleted ∨
  used_elsewhere r svc ip (poolNameForAddress ip) l ∨ withdrawn r secret (poolNameForAddress ip) l.

(** Under the lock of the address: it is no longer announced, now or since an
    earlier attempt, or someone else was just seen to use it. *)
Definition may_release (args : FipArgs) (h : History LbCall) : Prop :=
  fa_ServiceNamespace args = svc_ns svc ∧ fa_ServiceName args = svc_name svc ∧ fa_FloatingIPGroup args = "" ∧
  ∃ secret, secret_read secret h ∧ under_lock (fa_IPAddr args) (unannounced secret (fa_IPAddr args)) h.

(** Since the lock of its address was taken, nobody else was found to use the
    pool. *)
Definition may_withdraw (poolName : string) (h : History LbCall) : Prop :=
  ∃ ip secret, poolName = poolNameForAddress ip ∧ secret_read secret h ∧
    under_lock ip (unshared r svc secret (resolve_pool svc secret) ip) h.

Definition deletion_guard (h : History LbCall) (R : Type) (c : LbCall R) : Prop :=
  match c with
  | UpdateService s => drops_finalizer h s → may_drop_finalizer h
  | ReleaseFIP _ args => may_release args h
  | DeleteIPAddressPool name ns | DeleteL2Advertisement name ns | DeleteServiceGroup name ns =>
      ns = appNamespace r ∧ may_withdraw name h
  | RequestFIP _ _ | DeleteService _ _ => False
  | _ => bookkeeping c = false
  end.

(** The finalizer is off, or the Service is gone. *)
Definition settled (h : History LbCall) : Prop :=
  asked (GetService (svc_ns svc) (svc_name svc)) h (λ a, NotFoundErr a ∨ ∃ s, a = Ok s ∧
    (¬ has_finalizer s ∨ asked (UpdateService (without_lb_finalizer s).1) h (λ b, NotFoundErr b ∨ is_ok b = true))).

(** ** Proofs *)

Lemma deletion_harmless h R (c : LbCall R) : harmless c = true → deletion_guard h R c.
Proof. by destruct c. Qed.

(** What is allowed while the lock of an address is held, in terms of what was
    seen since it was taken. *)
Definition locked_guard (secret : Secret) (ip : string) (l : History LbCall) (R : Type) (c : LbCall R) : Prop :=
  match c with
  | UpdateService s => ¬ drops_finalizer l s
  | ReleaseFIP _ args =>
      fa_ServiceNamespace args = svc_ns svc ∧ fa_ServiceName args = svc_name svc ∧ fa_FloatingIPGroup args = "" ∧
      fa_IPAddr args = ip ∧ unannounced secret ip l
  | DeleteIPAddressPool name ns | DeleteL2Advertisement name ns | DeleteServiceGroup name ns =>
      ns = appNamespace r ∧ name = poolNameForAddress ip ∧ unshared r svc secret (resolve_pool svc secret) ip l
  | RequestFIP _ _ | DeleteService _ _ => False
  | _ => bookkeeping c = false
  end ∧ locking c = false.

Lemma locked_harmless secret ip h R (c : LbCall R) : harmless c = true → locked_guard secret ip h R c.
Proof. by destruct c. Qed.

Definition quiet (l : History LbCall) : Prop := Forall (λ ev, locking (ev_c ev) = false) l.

Lemma head_read_locked l ip h0 : head_read (l ++ mkEv (LockAddress ip) tt :: h0) = head_read l.
Proof. by destruct l. Qed.

(** A program that keeps to it under the lock keeps to the guard of the
    deletion. *)
Lemma wp_under_lock {A} secret ip (p : Prog LbCall A) Q l h0 :
  secret_read secret h0 → quiet l → wp (locked_guard secret ip) p Q l →
  wp deletion_guard p (λ a h', ∃ l', h' = l' ++ mkEv (LockAddress ip) tt :: h0 ∧ quiet l' ∧ Q a l')
    (l ++ mkEv (LockAddress ip) tt :: h0).
Proof.
  intros Hsec Hl Hp. eapply wp_weaken; [eapply (wp_suffix (λ l R c, quiet l ∧ locked_guard secret ip l R c)
    deletion_guard _ (λ a l, quiet l ∧ Q a l))| done |].
  - eapply wp_inv; [|done|exact Hp]. intros h R c x [_ Hc] Hq. by constructor.
  - intros l' R c [Hq Hg].
    assert (secret_read secret (l' ++ mkEv (LockAddress ip) tt :: h0)) as Hs
      by (destruct Hsec as [p0 ?]; exists p0; apply elem_of_app; right; by right).
    destruct c; simpl in Hg |- *; destruct Hg as [Hg Hlk]; try done.
    + intros Hd. exfalso. apply Hg. unfold drops_finalizer in *. by rewrite head_read_locked in Hd.
    + destruct Hg as [-> [-> Hu]]. split; [done|]. exists ip, secret. split; [done|]. split; [done|]. by exists l', h0.
    + destruct Hg as [-> [-> Hu]]. split; [done|]. exists ip, secret. split; [done|]. split; [done|]. by exists l', h0.
    + destruct Hg as [-> [-> Hu]]. split; [done|]. exists ip, secret. split; [done|]. split; [done|]. by exists l', h0.
    + destruct Hg as (?&?&?&Hip&Hu). split; [done|]. split; [done|]. split; [done|]. exists secret. split; [done|].
      rewrite Hip. by exists l', h0.
  - intros a h' (l' & ? & ? & ?). eauto.
Qed.

Lemma secret_read_extends secret h h' : extends h h' → secret_read secret h → secret_read secret h'.
Proof. intros Hh [p ?]. exists p. by eapply elem_extends. Qed.

Lemma may_drop_extends h h' : extends h h' → may_drop_finalizer h → may_drop_finalizer h'.
Proof.
  intros Hh [(c & a & ? & ? & ?)|[?|[[? [?|(c & a & l & ? & ?)]]|[[p ?]|(? & ? & ?)]]]].
  - left. exists c, a. split; [by eapply elem_extends | done].
  - by right; left.
  - right; right; left. split; [done | by left].
  - right; right; left. split; [done|]. right. exists c, a, l. split; [by eapply elem_extends | done].
  - right; right; right. left. exists p. by eapply asked_extends.
  - right; right; right. right. split; [done|]. split; [done|]. by eapply asked_extends.
Qed.

Lemma containsString_has s : containsString (Finalizers (svc_meta s)) lb_finalizerName = true ↔ has_finalizer s.
Proof. apply containsString_true. Qed.

(** An update that leaves the finalizers alone. *)
Definition keeps_finalizers (mutate : Service → Service * bool) : Prop :=
  ∀ s, Finalizers (svc_meta (mutate s).1) = Finalizers (svc_meta s).

Lemma keeps_write k v : keeps_finalizers (write_annotation k v).
Proof. intros s. unfold write_annotation. by destruct (put _ _ _). Qed.
Lemma keeps_drop k : keeps_finalizers (drop_annotation k).
Proof. intros s. unfold drop_annotation. by destruct (drop_key _ _). Qed.
Lemma keeps_drop_records : keeps_finalizers drop_records.
Proof.
  intros s. unfold drop_records.
  pose proof (keeps_drop floatingIPAnnotation s) as H1. destruct (drop_annotation _ s) as [s1 ?].
  pose proof (keeps_drop floatingIPRequestAnnotation s1) as H2. destruct (drop_annotation _ s1) as [s2 ?].
  pose proof (keeps_drop cleanupProgressAnnotation s2) as H3. destruct (drop_annotation _ s2) as [s3 ?].
  simpl in *. congruence.
Qed.

Section Keeping.
Context (G : Guard LbCall) (HG : ∀ h R (c : LbCall R), harmless c = true → G h R c)
  (HU : ∀ h s, ¬ drops_finalizer h s → G h _ (UpdateService s)).

Lemma wp_update_keeps ns name mutate h :
  keeps_finalizers mutate →
  wp G (updateService ns name mutate) (update_outcome ns name mutate) h.
Proof.
  intros Hk. apply (wp_update _ HG). intros h' s _ _. apply HU. intros (s0 & [= <-] & Hf & Hn).
  apply Hn. unfold has_finalizer. by rewrite Hk.
Qed.

Lemma wp_recordCleanupProgress stage h :
  wp G (recordCleanupProgress svc stage) (λ _ _, True) h.
Proof.
  unfold recordCleanupProgress. eapply wp_seq; [apply wp_update_keeps, keeps_write|].
  intros [s|e] h' _ _; [by apply wp_ret|]. case_goal; by apply wp_ret.
Qed.
End Keeping.

Lemma locked_update secret ip h s : ¬ drops_finalizer h s → locked_guard secret ip h _ (UpdateService s).
Proof. by split. Qed.
Lemma deletion_update h s : ¬ drops_finalizer h s → deletion_guard h _ (UpdateService s).
Proof. by intros ? ?. Qed.

Lemma wp_removeFinalizer h :
  may_drop_finalizer h →
  wp deletion_guard (lb_removeFinalizer svc) (λ x h', x = Ok tt → settled h') h.
Proof.
  intros Hmay. unfold lb_removeFinalizer. eapply wp_seq; [apply (wp_update _ deletion_harmless)|].
  { intros h' s Hh _ _. eapply may_drop_extends; [|done]. by apply extends_cons. }
  intros [s'|e] h' Hout _; simpl in Hout.
  - apply wp_ret. intros _. destruct Hout as (s & Hs & Hm). exists (Ok s). split; [done|]. right. exists s. split; [done|].
    unfold without_lb_finalizer in *. destruct (containsString _ _) eqn:Hc; cbn [negb] in *.
    + right. destruct Hm as [?|Hm]; [done|]. exists (Ok s'). split; [exact Hm | by right].
    + left. rewrite <- containsString_has. by rewrite Hc.
  - destruct (IsNotFound e) eqn:He; apply wp_ret; [|done]. intros _. destruct Hout as [Hg|(s & Hs & Hu)].
    + exists (Err e). split; [done|]. left. by exists e.
    + exists (Ok s). split; [done|]. right. exists s. split; [done|]. right. exists (Err e). split; [done|]. left. by exists e.
Qed.

Lemma wp_abandonDeletion ip p reason h :
  may_drop_finalizer h →
  wp deletion_guard (abandonDeletion svc ip p reason) (λ x h', x = Ok tt → settled h') h.
Proof.
  intros Hmay. unfold abandonDeletion. eapply wp_seq with (P := λ _ _, True).
  - case_goal; [apply wp_call; [by apply deletion_harmless | done] | by apply wp_ret].
  - intros ? h' _ Hh. apply wp_removeFinalizer. by eapply may_drop_extends.
Qed.

Lemma gone_tolerated a : tolerate_missing a = Ok tt → gone a.
Proof.
  destruct a as [[]|e]; [by left|]. simpl. destruct (IsNotFound e) eqn:He; [|done]. intros _. right. by exists e.
Qed.

Lemma tolerate_cases a : tolerate_missing a = Ok tt ∨ ∃ e, tolerate_missing a = Err e.
Proof. destruct a as [|e]; simpl; [by left|]. destruct (IsNotFound e); [by left | right; eauto]. Qed.

(** Under the lock of the address [ip]. *)
Section Locked.
Context (secret : Secret) (ip : string).
Notation poolName := (poolNameForAddress ip).
Notation L := (locked_guard secret ip).

Lemma unshared_cons pool ev l : unshared r svc secret pool ip l → unshared r svc secret pool ip (ev :: l).
Proof. intros [? ?]. split; [eapply unreferenced_extends | eapply unclaimed_extends]; (by apply extends_cons) || done. Qed.

Lemma wp_delete_resources whose l :
  unshared r svc secret (resolve_pool svc secret) ip l →
  wp L (delete_resources r secret poolName whose) (λ x l', x = Ok tt → withdrawn r secret poolName l') l.
Proof.
  intros Hmay. unfold delete_resources, withdrawn.
  destruct (bool_decide (_ = "metallb")); [|destruct (bool_decide (_ = "purelb")); [|by apply wp_ret]].
  - apply wp_call_then; [done|]. intros a. destruct (tolerate_cases a) as [Ht|[e Ht]]; rewrite Ht; [|by apply wp_ret].
    apply wp_call_then; [split; [|done]; split; [done|]; split; [done|]; by apply unshared_cons|].
    intros b. destruct (tolerate_cases b) as [Hb|[e Hb]]; rewrite Hb; apply wp_ret; [|done]. intros _. split.
    + eapply asked_extends; [by apply extends_cons|]. by apply asked_cons, gone_tolerated.
    + by apply asked_cons, gone_tolerated.
  - apply wp_call_then; [done|]. intros a. destruct (tolerate_cases a) as [Ht|[e Ht]]; rewrite Ht; apply wp_ret; [|done].
    intros _. by apply asked_cons, gone_tolerated.
Qed.

(** The address was given back, now or by an earlier attempt. *)
Definition given_up (h : History LbCall) : Prop :=
  released h ∨ svc_ann svc cleanupProgressAnnotation = cleanupStageReleased.

Lemma given_up_released client args h :
  fa_ServiceNamespace args = svc_ns svc → fa_ServiceName args = svc_name svc →
  mkEv (ReleaseFIP client args) (Ok tt) ∈ h → given_up h.
Proof. intros ? ? ?. left. by exists client, args. Qed.

Lemma wp_release_stages projectId shared l :
  (if shared : bool then used_elsewhere r svc ip poolName l
   else unshared r svc secret (resolve_pool svc secret) ip l) →
  wp L (release_stages r svc projectId secret ip poolName (resolve_pool svc secret) shared)
    (λ x l', x = Ok tt → given_up l') l.
Proof.
  intros Hshared. unfold release_stages.
  set (released_ := cleanupStageReached _ cleanupStageReleased).
  set (deleted_ := cleanupStageReached _ cleanupStageResourcesDeleted).
  assert (released_ = true → svc_ann svc cleanupProgressAnnotation = cleanupStageReleased) as Hrel.
  { unfold released_, cleanupStageReached. intros [?|?]%orb_true_iff; bool_hyps; done. }
  assert (released_ = false → deleted_ = true →
    svc_ann svc cleanupProgressAnnotation = cleanupStageResourcesDeleted) as Hdel.
  { unfold released_, deleted_, cleanupStageReached. intros [Hr _]%orb_false_iff. rewrite Hr. cbn [orb]. intros ?. by bool_hyps. }
  eapply wp_seq with (P := λ x l', x = Ok tt → released_ = false → unannounced secret ip l').
  { destruct released_ eqn:Hr; [by apply wp_ret|]. destruct shared; [apply wp_ret; right; auto|]. cbn [negb andb].
    destruct deleted_; [apply wp_ret; left; auto|]. cbn [negb].
    eapply wp_seq; [by apply wp_delete_resources|]. intros [[]|e] l1 Hw _; [|by apply wp_ret].
    eapply wp_post; [apply (wp_recordCleanupProgress _ (locked_harmless _ _) (locked_update _ _))|].
    intros x l2 _ Hh _ _. right; right. eapply withdrawn_extends; [done | by apply Hw]. }
  intros [[]|e] l1 Hout Hl1; [|by apply wp_ret].
  destruct released_; [apply wp_ret; intros _; right; by apply Hrel|].
  eapply wp_seq; [apply (wp_ipamClientFor r _ (locked_harmless _ _))|]. intros [client|e] l2 _ Hl2; [|by apply wp_ret].
  apply wp_call_then.
  - split; [|done]. do 4 (split; [done|]). destruct (Hout eq_refl eq_refl) as [?|[Hu|Hw]];
      [by left | right; left | right; right]; [eapply used_elsewhere_extends | eapply withdrawn_extends]; done.
  - intros [[]|e]; [|by apply wp_ret].
    eapply wp_post; [apply (wp_recordCleanupProgress _ (locked_harmless _ _) (locked_update _ _))|].
    intros x l' _ Hl' _. eapply given_up_released; [| |eapply elem_extends; [by left | exact Hl']]; done.
Qed.
End Locked.

Lemma given_up_may_drop l h : given_up l → (∃ h0, h = l ++ h0) → may_drop_finalizer h.
Proof.
  intros [(c & a & ? & ? & ?)|?] [h0 ->]; [left | by right; left]. exists c, a. split; [|done]. apply elem_of_app. by left.
Qed.

(** The records go, and then the finalizer. *)
Lemma wp_release_end (recorded : bool) h :
  may_drop_finalizer h →
  wp deletion_guard (try! _u := (if recorded then
       try! _s := updateService (svc_ns svc) (svc_name svc) drop_records else err =>
         (if IsNotFound err then Ret (Ok tt)
          else Ret (Err (wrapf ("failed to remove floatingip annotations from service " +:+ full_name svc) err))) in
       Ret (Ok tt)
     else Ret (Ok tt)) else err => Ret (Err err) in
  lb_removeFinalizer svc)%prog (λ x h', x = Ok tt → settled h') h.
Proof.
  intros Hmay. eapply wp_seq with (P := λ _ _, True).
  { destruct recorded; [|by apply wp_ret].
    eapply wp_seq; [apply (wp_update_keeps _ deletion_harmless deletion_update), keeps_drop_records|].
    intros [?|?] ? _ _; [by apply wp_ret|]. case_goal; by apply wp_ret. }
  intros [?|?] h3 _ Hh3; [|by apply wp_ret]. apply wp_removeFinalizer. by eapply may_drop_extends.
Qed.

Lemma wp_release_locked projectId secret ip h :
  ip ≠ "" → secret_read secret h →
  wp deletion_guard (release_locked r svc projectId secret ip (poolNameForAddress ip) (resolve_pool svc secret))
    (λ x h', x = Ok tt → settled h') (mkEv (LockAddress ip) tt :: h).
Proof.
  intros Hip Hsec. unfold release_locked. rewrite !(bool_decide_false (ip = "")) by done.
  eapply wp_seq.
  { eapply (wp_under_lock secret ip _ _ [] h Hsec); [by constructor|].
    by apply (wp_shared_address r _ (locked_harmless secret ip) _ _ _ _ (poolNameForAddress ip)). }
  intros [shared|e] h1 (l1 & -> & Hq1 & Hshared) _; [|by apply wp_ret].
  eapply wp_seq.
  { eapply (wp_under_lock secret ip _ _ l1 h Hsec Hq1). apply wp_release_stages. by destruct shared. }
  intros [[]|e] h2 (l2 & -> & Hq2 & Hg) _; [|by apply wp_ret].
  apply wp_release_end. eapply given_up_may_drop; [by apply Hg | eauto].
Qed.

Lemma wp_release_nothing projectId secret h :
  nothing_held h →
  wp deletion_guard (release_locked r svc projectId secret "" "" (resolve_pool svc secret))
    (λ x h', x = Ok tt → settled h') h.
Proof.
  intros Hnone. unfold release_locked. rewrite !(bool_decide_true ("" = "")) by done. cbn [pbind].
  apply wp_release_end. by right; right; left.
Qed.

Lemma settled_extends h h' : extends h h' → settled h → settled h'.
Proof.
  intros Hh (a & Ha & Hp). exists a. split; [by eapply elem_extends|].
  destruct Hp as [?|(s & ? & [?|?])]; [by left|right; exists s..]; (split; [done|]); [by left|].
  right. by eapply asked_extends.
Qed.

Lemma wp_release_with projectId secret h :
  secret_read secret h →
  wp deletion_guard (release_with r svc projectId secret) (λ x h', x = Ok tt → settled h') h.
Proof.
  intros Hsec. unfold release_with.
  eapply wp_seq with (P := λ x h', x = Ok "" → nothing_held h').
  { case_goal.
    - bool_hyps. unfold recover_pending. eapply wp_seq; [apply (wp_ipamClientFor r _ deletion_harmless)|].
      intros [client|e] h1 _ _; [|by apply wp_ret]. apply wp_call_then; [by apply deletion_harmless|].
      intros [fips|e]; apply wp_ret; [|done]. intros [= Hd]. split; [done|]. right.
      exists client, (list_args secret (resolve_pool svc secret)), fips. split; [by left | done].
    - apply wp_ret. intros [= Hr]. split; [done|]. left. rewrite Hr, bool_decide_true in Heqb by done. simpl in Heqb.
      by bool_hyps. }
  intros [ip|e] h1 Hnone Hh1; [|by apply wp_ret]. case_goal; [by apply wp_ret|].
  unfold with_lock. case_bool_decide as Hip.
  - subst ip. apply wp_release_nothing. auto.
  - apply wp_call_then; [done|]. intros [].
    eapply wp_seq; [apply wp_release_locked; [done | by eapply secret_read_extends]|].
    intros x h2 Hx _. apply wp_call_then; [done|]. intros []. apply wp_ret. intros ->.
    eapply settled_extends; [by apply extends_cons | by apply Hx].
Qed.

Lemma wp_deletionProjectID h :
  wp deletion_guard (deletionProjectID r svc) (λ x h', x = Ok "" → no_identity h') h.
Proof.
  unfold deletionProjectID, getProjectIDFromAppNamespace.
  case_bool_decide as Hp; cbn [negb]; [|apply wp_ret; by intros [= ?]].
  case_bool_decide as Hq; cbn [negb]; [|apply wp_ret; by intros [= ?]].
  eapply wp_seq with (P := λ _ _, True).
  { apply wp_call_then; [by apply deletion_harmless|]. intros ?. by apply wp_ret. }
  intros [p|e] h1 _ _; [|by apply wp_ret]. case_bool_decide; cbn [negb]; [|apply wp_ret; by intros [= ?]].
  apply wp_call_then; [by apply deletion_harmless|]. intros a. apply wp_ret. intros Hx. right. split; [done|]. split; [done|].
  apply asked_cons. destruct a as [l|e]; simplify_eq/=.
  - right. by exists l.
  - destruct (IsNotFound e) eqn:He; simplify_eq. left. by exists e.
Qed.

Lemma wp_reconcile_delete h :
  wp deletion_guard (reconcile_delete r svc)
    (λ x h', x = Ok tt → hasFloatingIPRecord svc = true → settled h') h.
Proof.
  unfold reconcile_delete. destruct (hasFloatingIPRecord svc); cbn [negb]; [|by apply wp_ret].
  eapply wp_post with (P := λ x h', x = Ok tt → settled h'); [|by auto].
  eapply wp_seq; [apply wp_deletionProjectID|]. intros [p|e] h1 Hid _; [|by apply wp_ret].
  case_bool_decide as Hp; [apply wp_abandonDeletion; right; right; right; subst; auto|].
  apply wp_call_then; [by apply deletion_harmless|]. intros [secret|e].
  - apply wp_release_with. exists p. by left.
  - destruct (IsNotFound e) eqn:He; [|by apply wp_ret]. apply wp_abandonDeletion. right; right; right. left.
    exists p. apply asked_cons. by exists e.
Qed.

End Deletion.
