(* ===== verification/LbAllocCorrect.v ===== *)
(** The allocation of an address for a Service: what is requested, what is taken
    back, what is recorded. *)

From S2P Require Import Prelude GoStd NetIP ApiTypes ApiServer Prog LbApi LbController LbReconcile LbEvidence LbDeleteCorrect.

(** ** Requests in a history *)

Definition request_of (ev : Ev LbCall) : option FipArgs :=
  match ev_c ev with RequestFIP _ args => Some args | _ => None end.

(** The address that a request obtained. *)
Definition granted_ip (ev : Ev LbCall) : option string :=
  match ev_c ev in LbCall T return T → option string with
  | RequestFIP _ _ => λ a, match a with Ok (ip, _, _) => Some ip | Err _ => None end
  | _ => λ _, None
  end (ev_ans ev).

(** The addresses whose locks were taken. *)
Definition lock_of (ev : Ev LbCall) : option string :=
  match ev_c ev with LockAddress ip => Some ip | _ => None end.

Definition requests (h : History LbCall) : list FipArgs := omap request_of h.
Definition granted_ips (h : History LbCall) : list string := omap granted_ip h.
Definition locks (h : History LbCall) : list string := omap lock_of h.

Definition no_request {R} (c : LbCall R) : Prop := match c with RequestFIP _ _ => False | _ => True end.

Lemma only_no_request h h' :
  only (@no_request) h h' → requests h' = requests h ∧ granted_ips h' = granted_ips h.
Proof.
  intros (l & -> & Hl). unfold requests, granted_ips. rewrite !omap_app.
  assert (omap request_of l = [] ∧ omap granted_ip l = []) as [-> ->]; [|done].
  induction Hl as [|[R c a] l Hc _ [IH1 IH2]]; [done|]. simpl in *.
  destruct c; try done; by rewrite IH1, IH2.
Qed.

(** ** Recording *)

(** A write that reports no change makes none. *)
Definition honest (f : Service → Service * bool) : Prop := ∀ s, (f s).2 = false → (f s).1 = s.

Lemma set_same_annotations s : set_svc_annotations s (Annotations (svc_meta s)) = s.
Proof. by destruct s as [[] ? ?]. Qed.

Lemma honest_write k v : honest (write_annotation k v).
Proof.
  intros s. unfold write_annotation, put. case_bool_decide; simpl; [|done]. intros _. apply set_same_annotations.
Qed.
Lemma honest_drop k : honest (drop_annotation k).
Proof.
  intros s. unfold drop_annotation, drop_key. destruct (Annotations (svc_meta s)) as [m|] eqn:Hm.
  - destruct (is_some _); simpl; [done|]. intros _. rewrite <- Hm. apply set_same_annotations.
  - simpl. intros _. rewrite <- Hm. apply set_same_annotations.
Qed.
Lemma honest_label k v : honest (set_label k v).
Proof. intros s. unfold set_label, put. case_bool_decide; simpl; [|done]. by destruct s as [[] ? ?]. Qed.
Lemma honest_when b f : honest f → honest (when b f).
Proof. intros Hf s. unfold when. destruct b; [apply Hf | done]. Qed.
Lemma honest_finalizer : honest add_finalizer.
Proof. intros s. unfold add_finalizer. by destruct (containsString _ _). Qed.

Lemma honest_all writes : Forall honest writes → honest (apply_all writes).
Proof.
  induction 1 as [|f writes Hf _ IH]; [done|]. intros s. simpl. pose proof (Hf s) as H1. destruct (f s) as [s1 c1].
  pose proof (IH s1) as H2. destruct (apply_all writes s1) as [s2 c2]. simpl in *. intros [-> ->]%orb_false_iff.
  by rewrite H2, H1.
Qed.

Definition preserves (P : Service → Prop) (f : Service → Service * bool) : Prop := ∀ s, P s → P (f s).1.

Lemma preserves_all P writes : Forall (preserves P) writes → preserves P (apply_all writes).
Proof.
  induction 1 as [|f writes Hf _ IH]; intros s Hs; [done|]. simpl. specialize (Hf s Hs). destruct (f s) as [s1 c1].
  specialize (IH s1 Hf). by destruct (apply_all writes s1).
Qed.

Lemma apply_all_app w1 w2 s :
  (apply_all (w1 ++ w2) s).1 = (apply_all w2 (apply_all w1 s).1).1.
Proof.
  revert s. induction w1 as [|f w1 IH]; intros s; [done|]. simpl. destruct (f s) as [s1 c1].
  specialize (IH s1). destruct (apply_all (w1 ++ w2) s1), (apply_all w1 s1). done.
Qed.

Lemma apply_all_last w f s : (apply_all (w ++ [f]) s).1 = (f (apply_all w s).1).1.
Proof. rewrite apply_all_app. simpl. by destruct (f _). Qed.

Lemma write_sets k v s : svc_ann (write_annotation k v s).1 k = v.
Proof.
  unfold write_annotation, put, svc_ann. case_bool_decide; simpl; [done|]. unfold mget. simpl. by rewrite lookup_insert_eq.
Qed.
Lemma write_preserves k v k' v' : k ≠ k' → preserves (λ s, svc_ann s k' = v') (write_annotation k v).
Proof.
  intros Hk s Hs. unfold write_annotation, put, svc_ann in *. case_bool_decide; simpl; [done|].
  unfold mget in *. simpl. rewrite lookup_insert_ne by done. by destruct (Annotations _).
Qed.
Lemma drop_preserves k k' v' : k ≠ k' → preserves (λ s, svc_ann s k' = v') (drop_annotation k).
Proof.
  intros Hk s Hs. unfold drop_annotation, drop_key, svc_ann in *. destruct (Annotations _) as [m|]; simpl; [|done].
  destruct (is_some _); simpl; [|done]. unfold mget in *. simpl in *. by rewrite lookup_delete_ne.
Qed.
Lemma label_preserves k v k' v' : preserves (λ s, svc_ann s k' = v') (set_label k v).
Proof. intros s Hs. unfold set_label. by destruct (put _ _ _). Qed.
Lemma when_preserves P b f : preserves P f → preserves P (when b f).
Proof. intros Hf s Hs. unfold when. destruct b; [by apply Hf | done]. Qed.
Lemma share_preserves k v k' v' : k ≠ k' → preserves (λ s, svc_ann s k' = v') (share k v).
Proof. intros Hk s Hs. unfold share. by apply when_preserves; [apply write_preserves|]. Qed.
Lemma finalizer_preserves k' v' : preserves (λ s, svc_ann s k' = v') add_finalizer.
Proof. intros s Hs. unfold add_finalizer. by destruct (containsString _ _). Qed.

Section Annotate.
Context `{HLibs : LbLibs} (r : reconciler) (svc : Service) (a : Allocation) (held : Held) (poolName : string).

(** [annotate] leaves the address and the finalizer on the Service, and says so
    if it changed anything. *)
Lemma annotate_spec s :
  svc_ann (annotate svc a held poolName s).1 floatingIPAnnotation = held_ip held ∧
  has_finalizer (annotate svc a held poolName s).1 ∧ honest (annotate svc a held poolName).
Proof.
  unfold annotate. split; [|split].
  - change (?x :: ?y :: ?z :: ?w :: ?l) with (([x; y; z] ++ [w]) ++ l). rewrite <- app_assoc, apply_all_app.
    apply (preserves_all (λ s, svc_ann s floatingIPAnnotation = held_ip held)); [|by rewrite apply_all_last, write_sets].
    rewrite !Forall_app. repeat split; repeat case_bool_decide; repeat constructor;
      (apply drop_preserves || apply write_preserves || apply share_preserves || apply finalizer_preserves
       || (apply when_preserves, write_preserves)); done.
  - rewrite app_assoc, apply_all_last. destruct (apply_all _ s) as [s1 c1]. cbn [fst].
    unfold add_finalizer, has_finalizer.
    destruct (containsString _ _) eqn:Hc; simpl; [by apply containsString_true|]. apply elem_of_app. right. by left.
  - apply honest_all. rewrite !Forall_app.
    assert (∀ k, honest (share k (held_sharedKey held))) as Hshare by (intros k t; by apply honest_when, honest_write).
    repeat split; repeat case_bool_decide; repeat constructor; auto using honest_drop, honest_write, honest_label,
      honest_when, honest_finalizer; intros t; apply honest_label.
Qed.
End Annotate.

(** ** What the allocation may do *)

Section Allocation.
Context `{HLibs : LbLibs, HRetry : Retries LbCall} (r : reconciler) (svc : Service).

Notation read_svc := (GetService (svc_ns svc) (svc_name svc)).

(** The write clears the mark of a pending request on the Service just read. *)
Definition clears_mark (h : History LbCall) (s : Service) : Prop :=
  ∃ s0, head_read h = Some s0 ∧ svc_ann s0 floatingIPRequestAnnotation ≠ "" ∧ svc_ann s floatingIPRequestAnnotation = "".

(** The Service carries [v] at [k]: it was read so, or written. *)
Definition carries (k v : string) (h : History LbCall) : Prop :=
  asked read_svc h (λ a, ∃ s, a = Ok s ∧
    (svc_ann s k = v ∨ ∃ s', svc_ann s' k = v ∧ asked (UpdateService s') h (λ b, is_ok b = true))).

(** The address is recorded: annotation and finalizer are on the Service. *)
Definition recorded (ip : string) (h : History LbCall) : Prop :=
  ∃ s, svc_ann s floatingIPAnnotation = ip ∧ has_finalizer s ∧
    (mkEv read_svc (Ok s) ∈ h ∨ asked (UpdateService s) h (λ b, is_ok b = true)).

Definition names_svc (args : FipArgs) : Prop :=
  fa_ServiceNamespace args = svc_ns svc ∧ fa_ServiceName args = svc_name svc.

Definition given_back (ip : string) (h : History LbCall) : Prop :=
  ∃ client args, mkEv (ReleaseFIP client args) (Ok tt) ∈ h ∧ names_svc args ∧ fa_IPAddr args = ip.

Definition vanished (h : History LbCall) : Prop :=
  asked read_svc h NotFoundErr ∨ ∃ s, asked (UpdateService s) h NotFoundErr.

(** The manager holds nothing for the Service yet. *)
Definition fresh (h : History LbCall) : Prop :=
  svc_ann svc floatingIPAnnotation = "" ∧ svc_Ingress svc = [] ∧
  (svc_ann svc floatingIPRequestAnnotation = "" ∨
   ∃ client args fips, mkEv (ListFIPs_ client args) (Ok fips) ∈ h ∧
     lookupServiceFloatingIP fips (la_Cluster args) (svc_ns svc) (svc_name svc) = None).

(** The project's Secret was read and is complete. *)
Definition configured (projectId : string) (secret : Secret) (h : History LbCall) : Prop :=
  mkEv (GetLbSecret (appNamespace r) (secret_name projectId)) (Ok secret) ∈ h ∧
  validateProjectConfig secret (resolve_pool svc secret) = None.

Definition may_request (args : FipArgs) (h : History LbCall) : Prop :=
  fresh h ∧ ∃ p secret, configured p secret h ∧ carries floatingIPRequestAnnotation p h ∧
    args = fip_args secret (resolve_pool svc secret) svc (svc_ann svc staticIPAnnotation) (svc_ann svc groupAnnotation).

(** The pool of an address that nobody else references. *)
Definition may_take_down (name : string) (h : History LbCall) : Prop :=
  ∃ ip, unreferenced r svc ip h ∧
    (name = poolNameForAddress ip ∨
     ∃ a pools p, ParseIP ip = Some a ∧ mkEv (GetIPAddressPools (appNamespace r)) (Ok pools) ∈ h ∧ p ∈ pools ∧
       poolContainsAddress (ap_Addresses p) (IP16 a) = true ∧ name = ap_Name p).

(** What is allowed once [g] was granted; only the request itself, and the locks
    for the clean-up after a Service that vanished, are not. *)
Definition late_guard (g : list string) (h : History LbCall) (R : Type) (c : LbCall R) : Prop :=
  match c with
  | UpdateService s =>
      ¬ drops_finalizer h s ∧ (clears_mark h s → g = [] ∨ g = [svc_ann s floatingIPAnnotation])
  | ReleaseFIP _ args => names_svc args ∧ (fa_IPAddr args ∈ g ∨ vanished h)
  | DeleteIPAddressPool name ns | DeleteL2Advertisement name ns | DeleteServiceGroup name ns =>
      ns = appNamespace r ∧ may_take_down name h
  | RequestFIP _ _ | DeleteService _ _ | LockAddress _ | UnlockAddress _ => False
  | _ => bookkeeping c = false
  end.

Definition allocation_guard (h : History LbCall) (R : Type) (c : LbCall R) : Prop :=
  match c with
  | RequestFIP _ args => requests h = [] ∧ may_request args h
  | LockAddress _ | UnlockAddress _ => vanished h
  | _ => late_guard (granted_ips h) h R c
  end.

(** What was requested, locked and granted so far. *)
Definition so_far (q : list FipArgs) (g : list string) (h : History LbCall) : Prop :=
  (requests h = q ∧ locks h = []) ∧ granted_ips h = g.

(** Under the late guard nothing more is requested, and nothing is locked. *)
Lemma wp_late_at {A} q k g (p : Prog LbCall A) Q h :
  requests h = q ∧ locks h = k ∧ granted_ips h = g → wp (late_guard g) p Q h →
  wp allocation_guard p (λ a h, (requests h = q ∧ locks h = k ∧ granted_ips h = g) ∧ Q a h) h.
Proof.
  intros Hs Hp. eapply wp_weaken; [apply (wp_inv (λ h, requests h = q ∧ locks h = k ∧ granted_ips h = g)); [|exact Hs | exact Hp]| |done].
  - intros h' R c a Hc Hq. destruct c; try done.
  - intros h' R c [(? & ? & Hg) Hc]. destruct c; try done; simpl; by rewrite Hg.
Qed.

Lemma wp_late {A} q g (p : Prog LbCall A) Q h :
  so_far q g h → wp (late_guard g) p Q h → wp allocation_guard p (λ a h, so_far q g h ∧ Q a h) h.
Proof.
  intros [[Hq Hl] Hg] Hp. eapply wp_weaken; [by apply (wp_late_at q [] g) | done|].
  by intros a h' [(? & ? & ?) ?].
Qed.

(** ** Proofs *)

Lemma late_harmless g h R (c : LbCall R) : harmless c = true → late_guard g h R c.
Proof. by destruct c. Qed.

Lemma configured_extends p secret h h' : extends h h' → configured p secret h → configured p secret h'.
Proof. intros Hh [? ?]. split; [by eapply elem_extends | done]. Qed.

Lemma fresh_extends h h' : extends h h' → fresh h → fresh h'.
Proof.
  intros Hh (? & ? & [?|(c & a & l & ? & ?)]); (split; [done|]; split; [done|]); [by left|].
  right. exists c, a, l. split; [by eapply elem_extends | done].
Qed.

Lemma recorded_extends ip h h' : extends h h' → recorded ip h → recorded ip h'.
Proof.
  intros Hh (s & ? & ? & [?|?]); exists s; (split; [done|]; split; [done|]); [left | right].
  - by eapply elem_extends.
  - by eapply asked_extends.
Qed.

Lemma vanished_extends h h' : extends h h' → vanished h → vanished h'.
Proof. intros Hh [?|[s ?]]; [left | right; exists s]; by eapply asked_extends. Qed.

Lemma take_down_extends name h h' : extends h h' → may_take_down name h → may_take_down name h'.
Proof.
  intros Hh (ip & Hu & Hn). exists ip. split; [by eapply unreferenced_extends|].
  destruct Hn as [?|(a & l & p & ? & ? & ?)]; [by left|]. right. exists a, l, p.
  split; [done|]. split; [by eapply elem_extends | done].
Qed.

Lemma take_down_cons name ev h : may_take_down name h → may_take_down name (ev :: h).
Proof. apply take_down_extends. by apply extends_cons. Qed.

(** A write that keeps the finalizer and never clears a mark that is owed. *)
Lemma wp_late_update g mutate h :
  (∀ s, has_finalizer s → has_finalizer (mutate s).1) →
  (∀ s, svc_ann s floatingIPRequestAnnotation ≠ "" → svc_ann (mutate s).1 floatingIPRequestAnnotation = "" →
     g = [] ∨ g = [svc_ann (mutate s).1 floatingIPAnnotation]) →
  wp (late_guard g) (updateService (svc_ns svc) (svc_name svc) mutate)
    (update_outcome (svc_ns svc) (svc_name svc) mutate) h.
Proof.
  intros Hf Hm. apply (wp_update _ (late_harmless g)). intros h' s _ _. split.
  - intros (s0 & [= <-] & Hs & Hn). by apply Hn, Hf.
  - intros (s0 & [= <-] & Hs & Hn). by apply Hm.
Qed.

Lemma outcome_vanished mutate e h :
  update_outcome (svc_ns svc) (svc_name svc) mutate (Err e) h → IsNotFound e = true → vanished h.
Proof.
  intros [Hg|(s & ? & Hu)] He; [left | right; exists (mutate s).1]; (eexists; split; [done|]; by exists e).
Qed.

(** The address is in [g]; only then is it held by the manager for us. *)
Definition mine (held : Held) : list string := if held_adopted held then [] else [held_ip held].

Lemma wp_unless_in_use g ip failed what original h :
  ip ≠ "" →
  wp (late_guard g) (unless_in_use r svc ip failed what original) (λ x h', match x with
    | Some y => is_err y = true
    | None => unreferenced r svc ip h' end) h.
Proof.
  intros Hip. unfold unless_in_use. eapply wp_seq; [by apply (wp_addressInUse _ _ (late_harmless g) _ _ "")|].
  intros [[]|e] h1 Hx _; [|by apply wp_ret|by apply wp_ret].
  eapply wp_seq with (P := λ _ _, True); [case_goal; [by apply wp_ret | by apply wp_call]|]. intros ? ? _ _. by apply wp_ret.
Qed.

Lemma wp_release_requested a held during original h :
  wp (late_guard (mine held)) (release_requested svc a held during original) (λ _ _, True) h.
Proof.
  unfold release_requested, mine. case_goal; [by apply wp_ret|]. apply wp_call_then.
  - split; [done|]. left. by left.
  - intros [|]; by apply wp_ret.
Qed.

Ltac wcall := apply wp_call_then; [by apply late_harmless|].

Lemma wp_requeueAfter g delay h : wp (late_guard g) (requeueAfter svc delay) (λ _ _, True) h.
Proof. unfold requeueAfter. destruct (MetaNamespaceKeyFunc svc); [by apply wp_call | by apply wp_ret]. Qed.

(** An early return, after the Service was queued again. *)
Lemma wp_later {A} g delay x (Q : Step A → History LbCall → Prop) h :
  (∀ h', Q (inl x) h') →
  wp (late_guard g) (pbind (requeueAfter svc delay) (λ _, stop x)) Q h.
Proof. intros Hq. eapply wp_seq; [apply wp_requeueAfter|]. intros ? ? _ _. by apply wp_ret. Qed.

Definition readied (a : Allocation) (h : History LbCall) : Prop :=
  configured (al_projectId a) (al_secret a) h ∧ al_pool a = resolve_pool svc (al_secret a).

Lemma wp_prepare g h :
  wp (late_guard g) (prepare r svc) (λ x h', match x with inr a => readied a h' | inl _ => True end) h.
Proof.
  unfold prepare. case_goal; [by apply wp_ret|]. wcall. intros [nsLabels|e]; [|by apply wp_ret].
  eapply wp_seq with (P := λ _ _, True).
  { unfold getProjectIDFromAppNamespace. wcall. intros ?. by apply wp_ret. }
  intros [app|e] h1 _ _; [|by apply wp_ret].
  destruct (if bool_decide _ then _ else _) as [projectId|]; [|by apply wp_later].
  wcall. intros [secret|e]; [|case_goal; [by apply wp_later | by apply wp_ret]].
  wcall. intros [data|e]; [|by apply wp_ret].
  destruct (validateProjectConfig _ _) eqn:Hv; [wcall; intros ?; by apply wp_later|].
  destruct (mlookup data _); [|by apply wp_ret].
  eapply wp_seq; [apply (wp_ipamClientFor r _ (late_harmless g))|]. intros [client|e] h2 _ Hh; apply wp_ret; [|done].
  split; [|done]. split; [|done]. eapply elem_extends; [|exact Hh]. right. by left.
Qed.

(** An allocation that is found is adopted. *)
Lemma wp_find_allocation g a h :
  wp (late_guard g) (find_allocation svc a) (λ x h', match x with
    | inr (Some held) => held_adopted held = true
    | inr None => fresh h'
    | inl _ => True end) h.
Proof.
  unfold find_allocation. case_bool_decide as Hann; cbn [negb]; [|by apply wp_ret].
  case_goal.
  - wcall. intros [fips|e]; [|by apply wp_ret]. destruct (lookupServiceFloatingIP _ _ _ _) eqn:Hl; [by apply wp_ret|].
    case_bool_decide; cbn [negb]; apply wp_ret; [|done].
    split; [done|]. split; [by apply nil_length_inv|]. right. eexists _, _, fips. split; [by left | exact Hl].
  - apply wp_ret. bool_hyps. split; [done|]. split; [by apply nil_length_inv|]. by left.
Qed.

Lemma wp_defer reason message h :
  wp (late_guard []) (defer svc reason message) (λ x _, match x with inl _ => True | inr _ => False end) h.
Proof.
  unfold defer. wcall. intros []. eapply wp_seq with (P := λ _ _, True); [|intros ? ? _ _; by apply wp_later].
  unfold clearAllocationPending. eapply wp_seq; [apply wp_late_update|].
  - intros s. unfold has_finalizer. by rewrite keeps_drop.
  - by left.
  - intros ? ? _ _. by apply wp_ret.
Qed.

(** A refused request leaves nothing but an address that was assigned before. *)
Lemma wp_request_failed a err h :
  wp (late_guard []) (request_failed svc a err) (λ x _, match x with inl _ => True | inr held => held_adopted held = true end) h.
Proof.
  assert (∀ reason message h', wp (late_guard []) (defer svc reason message)
    (λ x _, match x with inl _ => True | inr held => held_adopted held = true end) h') as Hdefer.
  { intros. eapply wp_post; [apply wp_defer|]. by intros [|]. }
  unfold request_failed. case_goal; [apply Hdefer|]. case_goal; [apply Hdefer|]. case_goal; [|by apply wp_ret].
  wcall. intros [fips|e]; [|by apply wp_ret]. case_goal; [by apply wp_ret | apply Hdefer].
Qed.

Lemma wp_mark a h :
  wp (late_guard []) (markAllocationPending svc (al_projectId a))
    (λ x h', x = Ok tt → carries floatingIPRequestAnnotation (al_projectId a) h') h.
Proof.
  unfold markAllocationPending. eapply wp_seq; [apply wp_late_update|].
  - intros s. unfold has_finalizer. by rewrite keeps_write.
  - by left.
  - intros [s'|e] h' Hout _; apply wp_ret; [|done]. intros _. destruct Hout as (s & Hs & Hm).
    exists (Ok s). split; [done|]. exists s. split; [done|]. destruct Hm as [Hm|Hm].
    + left. rewrite <- (honest_write floatingIPRequestAnnotation (al_projectId a) s Hm). apply write_sets.
    + right. eexists. split; [apply write_sets|]. exists (Ok s'). by split.
Qed.

(** ** Publishing *)

Section Publish.
Context (a : Allocation) (held : Held) (ip : Z) (Hip : ParseIP (held_ip held) = Some ip).
Let G := late_guard (mine held).
Let poolName := poolNameForAddress (held_ip held).

Lemma held_nonempty : held_ip held ≠ "".
Proof. intros He. by rewrite He in Hip. Qed.

(** A part of the set-up that ends the reconcile ends it with an error. *)
Definition ends_in_error {A} (x : Step A) (_ : History LbCall) : Prop :=
  match x with inl y => is_err y = true | inr _ => True end.

Lemma wp_join_pool h : wp G (join_pool r svc poolName) ends_in_error h.
Proof.
  unfold join_pool. case_goal; [by apply wp_ret|]. wcall. intros [[pool|]|e]; [|by apply wp_ret..].
  destruct (ap_AllocateTo pool); [|by apply wp_ret]. case_goal; [by apply wp_ret|]. wcall.
  intros [|]; by apply wp_ret.
Qed.

(** What follows [release_requested] in the failure paths. *)
Lemma wp_fail_after {A} during original (k : res unit → Prog LbCall A) Q h :
  (∀ x h', wp G (k x) Q h') → wp G (pbind (release_requested svc a held during original) k) Q h.
Proof. intros Hk. eapply wp_seq; [apply wp_release_requested|]. intros x h' _ _. apply Hk. Qed.

Ltac wfail := apply wp_fail_after; intros [|] ?; by apply wp_ret.

Lemma wp_replace_pool p pools pool h :
  mkEv (GetIPAddressPools (appNamespace r)) (Ok pools) ∈ h → p ∈ pools →
  poolContainsAddress (ap_Addresses p) (IP16 ip) = true →
  wp G (replace_pool r svc a held p pool) ends_in_error h.
Proof.
  intros Hl Hp Hc. unfold replace_pool.
  eapply wp_seq; [apply wp_unless_in_use, held_nonempty|]. intros [y|] h1 Hu Hh1; [by apply wp_ret|].
  assert (may_take_down (ap_Name p) h1) as Hmay.
  { exists (held_ip held). split; [done|]. right. exists ip, pools, p. split; [done|]. split; [by eapply elem_extends | done]. }
  apply wp_call_then; [split; [done | exact Hmay]|]. intros e1.
  apply wp_call_then; [split; [done | by apply take_down_cons]|]. intros e2.
  case_goal; [wfail|]. wcall. intros [|e]; [by apply wp_ret|]. case_goal; by apply wp_ret.
Qed.

Lemma wp_create_pool h : wp G (create_pool r svc a held poolName (IP16 ip)) ends_in_error h.
Proof.
  unfold create_pool. wcall. intros [|err]; [by apply wp_ret|]. case_goal; [by apply wp_ret|].
  unfold pool_failed. case_goal; [|wfail]. wcall. intros [pools|e]; [|by apply wp_ret].
  destruct (find _ pools) as [p|] eqn:Hf; [|by apply wp_ret]. apply find_some in Hf as [Hin Hc].
  eapply wp_replace_pool; [by left | by apply list_elem_of_In | exact Hc].
Qed.

Lemma wp_advertise_failed err h :
  wp G (advertise_failed r svc a held poolName err) (λ x _, is_err x = true) h.
Proof.
  unfold advertise_failed. eapply wp_seq; [apply wp_unless_in_use, held_nonempty|].
  intros [y|] h1 Hu _; [by apply wp_ret|].
  apply wp_call_then; [split; [done|]; exists (held_ip held); split; [done | by left]|].
  intros [|e]; [|by apply wp_ret]. wfail.
Qed.

Lemma wp_publish h : wp G (publish r svc a held poolName (IP16 ip)) ends_in_error h.
Proof.
  unfold publish. case_goal; [|case_goal; [|by apply wp_ret]].
  - unfold publish_metallb. eapply wp_seq; [apply wp_join_pool|]. intros [y|[]] h1 Hj _; [by apply wp_ret..|].
    eapply wp_seq; [apply wp_create_pool|]. intros [y|created] h2 Hp _; [by apply wp_ret|].
    wcall. intros [|err]; [by apply wp_ret|]. case_goal; [by apply wp_ret|].
    eapply wp_seq; [apply wp_advertise_failed|]. intros x h3 Hx _. by apply wp_ret.
  - unfold publish_purelb. eapply wp_seq with (P := ends_in_error).
    { unfold group_exists. case_goal; [|by apply wp_ret]. wcall. intros [|]; by apply wp_ret. }
    intros [y|[]] h1 Hj _; [by apply wp_ret..|]. case_goal; [wcall; intros []; by apply wp_ret|].
    wcall. intros [|err]; [by apply wp_ret|]. case_goal; [by apply wp_ret|]. unfold group_failed.
    eapply wp_seq with (P := λ x _, is_err x = true); [|intros x h3 Hx _; by apply wp_ret].
    eapply wp_seq; [apply wp_unless_in_use, held_nonempty|]. intros [y|] h2 Hu _; [by apply wp_ret|]. wfail.
Qed.

(** ** Recording *)

Lemma wp_release_vanished_locked h :
  vanished h →
  wp G (release_vanished_locked r svc (al_projectId a) (al_secret a) (held_ip held) poolName (al_pool a))
    (λ x h', x = Ok tt → given_back (held_ip held) h') h.
Proof.
  intros Hv. unfold release_vanished_locked.
  eapply wp_seq; [apply (wp_shared_address r _ (late_harmless (mine held))), held_nonempty|].
  intros [shared|e] h1 Hsh Hh1; [|by apply wp_ret].
  eapply wp_seq with (P := λ _ _, True).
  { destruct shared; [by apply wp_ret|]. destruct Hsh as [Hu _]. assert (may_take_down poolName h1) as Hmay.
    { exists (held_ip held). split; [done | by left]. }
    unfold delete_resources. case_goal; [|case_goal; [|by apply wp_ret]].
    - apply wp_call_then; [split; [done | exact Hmay]|]. intros e1. destruct (tolerate_missing e1); [|by apply wp_ret].
      apply wp_call_then; [split; [done | by apply take_down_cons]|].
      intros e2. destruct (tolerate_missing e2); by apply wp_ret.
    - apply wp_call_then; [split; [done | exact Hmay]|]. intros e1. destruct (tolerate_missing e1); by apply wp_ret. }
  intros [[]|e] h2 _ Hh2; [|by apply wp_ret].
  eapply wp_seq; [apply (wp_ipamClientFor r _ (late_harmless (mine held)))|]. intros [client|e] h3 _ Hh3; [|by apply wp_ret].
  apply wp_call_then.
  - split; [done|]. right. eapply vanished_extends, vanished_extends, vanished_extends, Hv; [exact Hh3 | exact Hh2 | exact Hh1].
  - intros [[]|e]; apply wp_ret; [|done]. intros _. eexists _, _. split; [by left | done].
Qed.

(** Cleaning up after a Service that vanished takes the lock of its address. *)
Lemma wp_releaseVanished q h :
  so_far q (mine held) h → vanished h →
  wp allocation_guard
    (releaseVanishedAllocation r svc (al_projectId a) (al_secret a) (held_ip held) poolName (al_pool a))
    (λ x h', (locks h' = [held_ip held] ∧ granted_ips h' = mine held) ∧ (x = Ok tt → given_back (held_ip held) h')) h.
Proof.
  intros [[Hq Hl] Hg] Hv. unfold releaseVanishedAllocation, with_lock. rewrite bool_decide_false by apply held_nonempty.
  apply wp_call_then; [done|]. intros [].
  eapply wp_seq.
  { apply (wp_late_at q [held_ip held] (mine held)); [split; [done|]; split; [|done]|].
    - change (held_ip held :: locks h = [held_ip held]). by rewrite Hl.
    - apply wp_release_vanished_locked. eapply vanished_extends; [|exact Hv]. by apply extends_cons. }
  intros x h' [(_ & Hl' & Hg') Hx] Hh. apply wp_call_then.
  { eapply vanished_extends; [|exact Hv]. etrans; [by apply extends_cons | exact Hh]. }
  intros []. apply wp_ret. split; [done|]. intros ->. destruct (Hx eq_refl) as (c & args & ? & ?).
  exists c, args. split; [by right | done].
Qed.

Lemma wp_annotate_failed createdPool err h :
  wp G (annotate_failed r svc a held poolName createdPool err) (λ x _, is_err x = true) h.
Proof.
  unfold annotate_failed. eapply wp_seq; [apply wp_unless_in_use, held_nonempty|].
  intros [y|] h1 Hu _; [by apply wp_ret|].
  assert (may_take_down poolName h1) as Hmay by (exists (held_ip held); split; [done | by left]).
  eapply wp_seq with (P := λ _ _, True); [|intros [|] h2 _ _; [wfail | by apply wp_ret]].
  unfold undo_pool. case_goal; [by apply wp_ret|]. case_goal; [|case_goal; [|by apply wp_ret]].
  - apply wp_call_then; [by split|]. intros [|]; [|by apply wp_ret].
    apply wp_call_then; [split; [done | by apply take_down_cons]|]. intros [|]; by apply wp_ret.
  - apply wp_call_then; [by split|]. intros [|]; by apply wp_ret.
Qed.

(** What is to be remembered of the Service when the reconciliation fails: the
    Service that was given; or, if it vanished and the clean-up, which takes the
    lock of the address that was to be recorded, failed, the Service with this
    address written on it.  It is the address that was granted, if one was. *)
Definition remembered (h : History LbCall) (s : Service) : Prop :=
  (locks h = [] ∧ s = svc) ∨
  ∃ ip, ip ≠ "" ∧ locks h = [ip] ∧ granted_ips h ⊆ [ip] ∧ s = (write_annotation floatingIPAnnotation ip svc).1.

Lemma wp_record q createdPool h :
  so_far q (mine held) h →
  wp allocation_guard (record_allocation_on r svc a held poolName createdPool)
    (λ y h', granted_ips h' = mine held ∧ (is_err y.1 = true → remembered h' y.2) ∧
       (y.1 = Ok tt → recorded (held_ip held) h' ∨ given_back (held_ip held) h')) h.
Proof.
  intros Hs. unfold record_allocation_on. eapply wp_seq; [eapply wp_late; [exact Hs | apply wp_late_update]|].
  - intros s _. apply annotate_spec.
  - intros s _ _. destruct (annotate_spec svc a held poolName s) as [-> _]. unfold mine.
    destruct (held_adopted held); [by left | by right].
  - intros [s'|e] h1 [Hs1 Hout] _; cbn [update_outcome] in Hout.
    + apply wp_ret. split; [apply Hs1|]. split; [done|]. intros _. left. destruct Hout as (s & Hr & Hm).
      destruct (annotate_spec svc a held poolName s) as (Hip' & Hf & Hh).
      exists (annotate svc a held poolName s).1. split; [done|]. split; [done|]. destruct Hm as [Hm|Hm].
      * left. by rewrite (Hh s Hm).
      * right. by exists (Ok s').
    + destruct (IsNotFound e) eqn:He.
      * rewrite bool_decide_false by apply held_nonempty.
        eapply wp_seq; [by eapply wp_releaseVanished, outcome_vanished|].
        intros [[]|e'] h2 [[Hl Hg] Hok] _; apply wp_ret; (split; [done|]);
          [split; [done | intros _; right; by apply Hok]|].
        split; [|done]. intros _. right. exists (held_ip held). split; [apply held_nonempty|]. split; [done|]. split; [|done].
        rewrite Hg. unfold mine. destruct (held_adopted held); set_solver.
      * eapply wp_seq; [eapply wp_late; [exact Hs1 | apply wp_annotate_failed]|].
        intros [|] h2 [Hs2 Hx] _; [done|]. apply wp_ret. split; [apply Hs2|]. split; [|done]. intros _. left. split; [apply Hs2 | done].
Qed.
End Publish.

(** ** The whole *)

(** The address of the Service is at hand: what was granted is exactly it, if it
    is not an adopted one. *)
Lemma wp_request_allocation a h :
  so_far [] [] h → fresh h → readied a h →
  wp allocation_guard (request_allocation svc a)
    (λ x h', locks h' = [] ∧ granted_ips h' = match x with inr held => mine held | inl _ => [] end) h.
Proof.
  intros Hs Hf [Hc Hp]. unfold request_allocation.
  eapply wp_seq; [eapply wp_late; [exact Hs | apply wp_mark]|].
  intros [[]|e] h1 [[[Hq Hl] Hg] Hm] Hh1; [|case_goal; by apply wp_ret].
  apply wp_call_then.
  - split; [done|]. split; [by eapply fresh_extends|]. exists (al_projectId a), (al_secret a).
    split; [by eapply configured_extends|]. split; [by apply Hm|]. by rewrite Hp.
  - intros [[[ip subnet] key]|e].
    + apply wp_ret. split; [done|]. change (ip :: granted_ips h1 = [ip]). by rewrite Hg.
    + eapply wp_post; [eapply (wp_late (requests (mkEv _ (Err e) :: h1)) []); [by split | apply wp_request_failed]|].
      intros [x|held] h2 [[[_ Hl2] Hg2] Hx] _; [done|]. split; [done|]. unfold mine. by rewrite Hx.
Qed.

Lemma wp_hold a h :
  so_far [] [] h → readied a h →
  wp allocation_guard (hold svc a)
    (λ x h', locks h' = [] ∧ granted_ips h' = match x with inr held => mine held | inl _ => [] end) h.
Proof.
  intros Hs Ha. unfold hold. eapply wp_seq; [eapply wp_late; [exact Hs | apply wp_find_allocation]|].
  intros [x|[held|]] h1 [[[Hq Hl] Hg] Hx] Hh1; [by apply wp_ret | apply wp_ret; unfold mine; by rewrite Hx |].
  apply wp_request_allocation; [done | done|]. destruct Ha as [? ?]. split; [by eapply configured_extends | done].
Qed.

Definition no_leak (h : History LbCall) : Prop := ∀ ip, ip ∈ granted_ips h → recorded ip h ∨ given_back ip h.

Lemma no_leak_nothing h : granted_ips h = [] → no_leak h.
Proof. intros Hg ip. rewrite Hg. set_solver. Qed.

Lemma wp_reconcile_load_balancer h :
  so_far [] [] h →
  wp allocation_guard (reconcile_load_balancer r svc)
    (λ y h', (is_err y.1 = true → remembered h' y.2) ∧ (y.1 = Ok tt → no_leak h')) h.
Proof.
  intros H0. unfold reconcile_load_balancer.
  eapply wp_seq; [eapply (wp_late [] []); [exact H0 | apply wp_prepare]|].
  intros [y|a] h1 [Hs Ha] _; [apply wp_ret; split; [intros _; left; split; [apply Hs | done] | intros _; apply no_leak_nothing, Hs]|].
  eapply wp_seq; [by apply wp_hold|]. intros [y|held] h2 [Hl Hg] _; cbn in Hg.
  { apply wp_ret. split; [intros _; by left | intros _; by apply no_leak_nothing]. }
  destruct (ParseIP (held_ip held)) as [ip|] eqn:Hip; [|apply wp_ret; split; [by left | done]].
  eapply wp_seq; [eapply (wp_late (requests h2)); [split; [done | exact Hg] | by apply wp_publish]|].
  intros [y|created] h3 [Hs3 Hy] _; [apply wp_ret; split; [intros _; left; split; [apply Hs3 | done] | by destruct y]|].
  eapply wp_post; [by eapply wp_record|].
  intros y h4 (Hg4 & Hw & Hx) _. split; [done|]. intros Hok ip' Hin. rewrite Hg4 in Hin. unfold mine in Hin.
  destruct (held_adopted held); [set_solver|]. apply list_elem_of_singleton in Hin as ->. by apply Hx.
Qed.

(** C4: one reconciliation of a load balancer, whatever the rest of the system
    answers.  At most one address is requested, and only if the Service has none
    that is recorded, shown in its status or (for a request that was pending)
    listed by the manager; the request carries the identity of the project's
    complete Secret and the Service's own wishes, and the Service is marked
    before.  The mark is cleared only while nothing was granted, or by the write
    that records the granted address.  An address is given back only if this
    reconciliation was granted it or the Service vanished: one that is adopted is
    kept.  A pool is taken down only after no other Service was found to
    reference its address.  The finalizer is never taken off.  If all of it
    succeeds, every granted address is recorded with the finalizer, or was given
    back: none leaks. *)
Theorem allocation_never_leaks x svc' h :
  goes_away svc = false → execs (lb_reconcile r svc) [] (x, svc') h →
  obeys allocation_guard [] h ∧ (x = Ok tt → no_leak h).
Proof.
  intros Hgo Hrun. unfold lb_reconcile in Hrun. rewrite Hgo in Hrun.
  destruct (wp_execs _ _ _ _ _ _ Hrun (wp_reconcile_load_balancer [] (conj (conj eq_refl eq_refl) eq_refl))) as [[_ Hq] Ho]. by split.
Qed.
End Allocation.
