(* ===== verification/LbLoopCorrect.v ===== *)
(** The work queue handler of the load-balancer controller: what it keeps of a
    Service that vanished, and until when. *)

From S2P Require Import Prelude GoStd ApiTypes Kube ApiServer Prog LbApi LbController LbReconcile LbLoop LbEvidence LbDeleteCorrect LbAllocCorrect.

Section Loop.
Context `{HLibs : LbLibs, HRetry : Retries LbCall} (r : reconciler) (key : string).

(** The snapshot under the key is no longer needed: the Service is in the cache
    again, or the deletion of the snapshot is done. *)
Definition may_forget_snapshot (h : History LbCall) : Prop :=
  (∃ svc, mkEv (GetByKey key) (Ok (Some svc)) ∈ h) ∨
  ∃ snapshot, mkEv (PeekTombstone key) (Some snapshot) ∈ h ∧
    (hasFloatingIPRecord snapshot = true → settled snapshot h).

(** The Service to remember after a failed reconciliation of [svc]: [svc], with
    the address written on it that the reconciliation held when [svc] vanished. *)
Definition to_remember (svc : Service) (h : History LbCall) (s : Service) : Prop :=
  if goes_away svc then s = svc else remembered svc h s.

(** A snapshot that this run stored is not dropped. *)
Definition snapshot_guard (h : History LbCall) (R : Type) (c : LbCall R) : Prop :=
  match c with
  | TakeTombstone k => k = key ∧ may_forget_snapshot h ∧ ∀ k' s, mkEv (SetTombstone k' s) tt ∉ h
  | SetTombstone k s => ∃ svc, mkEv (GetByKey key) (Ok (Some svc)) ∈ h ∧ to_remember svc h s ∧ MetaNamespaceKeyFunc s = Ok k
  | LbForget _ | LbDone _ | LbAddRateLimited _ => False
  | _ => True
  end.

(** The snapshots under a key. *)
Definition on_snapshot (k : string) {R} (c : LbCall R) : bool :=
  match c with TakeTombstone k' | SetTombstone k' _ => bool_decide (k' = k) | _ => false end.

(** [s] was stored under the key, and is what is there. *)
Definition kept (k : string) (s : Service) (h : History LbCall) : Prop :=
  ∃ l h0, h = l ++ mkEv (SetTombstone k s) tt :: h0 ∧ Forall (λ ev, on_snapshot k (ev_c ev) = false) l.

(** What the cache answered. *)
Definition cache_answer (ev : Ev LbCall) : option (res (option Service)) :=
  match ev_c ev in LbCall T return T → option (res (option Service)) with
  | GetByKey _ => Some
  | _ => λ _, None
  end (ev_ans ev).

(** The Service to remember is what is stored under its key. *)
Definition snapshot_stored (svc : Service) (h : History LbCall) : Prop :=
  ∃ s, to_remember svc h s ∧ ∀ k, MetaNamespaceKeyFunc s = Ok k → kept k s h.

Lemma settled_of_deleted svc t h : settled (set_svc_deleted svc t) h ↔ settled svc h.
Proof. done. Qed.

Lemma record_of_deleted svc t : hasFloatingIPRecord (set_svc_deleted svc t) = hasFloatingIPRecord svc.
Proof. done. Qed.

Lemma deletion_keeps_books svc h R (c : LbCall R) : deletion_guard r svc h R c → snapshot_guard h R c.
Proof. by destruct c. Qed.

Lemma allocation_keeps_books svc h R (c : LbCall R) : allocation_guard r svc h R c → snapshot_guard h R c.
Proof. by destruct c. Qed.

Definition no_snapshot (h : History LbCall) : Prop := ∀ k s, mkEv (SetTombstone k s) tt ∉ h.

Definition no_set {R} (c : LbCall R) : Prop := match c with SetTombstone _ _ => False | _ => True end.

Definition set_snapshot (ev : Ev LbCall) : Prop :=
  match ev_c ev with SetTombstone _ _ => True | _ => False end.

Lemma no_snapshot_cons ev h : no_set (ev_c ev) → no_snapshot h → no_snapshot (ev :: h).
Proof.
  intros Hev Hh k s [He|Hin]%elem_of_cons; [|by eapply Hh].
  assert (set_snapshot ev) as Hs by (rewrite <- He; exact I). unfold set_snapshot in Hs. by destruct (ev_c ev).
Qed.

(** The reconciliation itself leaves the snapshots alone. *)
Lemma only_no_snapshot h h' : only (@no_set) h h' → no_snapshot h → no_snapshot h'.
Proof.
  intros (l & -> & Hl) Hh. induction Hl as [|ev l Hev _ IH]; [done|]. by apply no_snapshot_cons.
Qed.

Lemma wp_lb_reconcile svc h :
  so_far [] [] h → no_snapshot h →
  wp snapshot_guard (lb_reconcile r svc) (λ y h', no_snapshot h' ∧ (is_err y.1 = true → to_remember svc h' y.2) ∧
    (goes_away svc = true → y.1 = Ok tt → hasFloatingIPRecord svc = true → settled svc h')) h.
Proof.
  intros H0 Hn. unfold lb_reconcile, to_remember. destruct (goes_away svc) eqn:Hgo.
  - eapply wp_weaken; [apply (wp_only (@no_set) (deletion_guard r svc)); [by intros ? ? []|]| apply (deletion_keeps_books svc)|].
    + eapply wp_seq; [apply wp_reconcile_delete|]. intros x h' Hx _. apply wp_ret.
      instantiate (1 := λ y h', y.2 = svc ∧ (y.1 = Ok tt → hasFloatingIPRecord svc = true → settled svc h')). by split.
    + intros y h' [[Hs Hx] Ho]. split; [by eapply only_no_snapshot|]. by split.
  - eapply wp_weaken; [apply (wp_only (@no_set) (allocation_guard r svc)); [by intros ? ? []|]; by apply wp_reconcile_load_balancer
      | apply (allocation_keeps_books svc)|].
    intros y h' [[Hw _] Ho]. split; [by eapply only_no_snapshot|]. split; [exact Hw | by intros ?].
Qed.

Lemma remembers_to_remember svc h s : remembers svc = true → to_remember svc h s → remembers s = true.
Proof.
  unfold to_remember. intros Hr Hs. destruct (goes_away svc); [by subst|].
  destruct Hs as [[_ ->]|(t & Ht & _ & _ & ->)]; [done|]. unfold remembers. rewrite write_sets, (bool_decide_false (t = "")) by done.
  cbn [negb]. by rewrite orb_true_r.
Qed.

Lemma wp_reconcile_gone h :
  so_far [] [] h → no_snapshot h → wp snapshot_guard (reconcile_gone r key) (λ _ _, True) h.
Proof.
  intros H0 Hn. unfold reconcile_gone. apply wp_call_then; [done|]. intros [snapshot|]; [|by apply wp_ret].
  eapply wp_seq with (P := λ s h1, (so_far [] [] h1 ∧ no_snapshot h1) ∧ mkEv (PeekTombstone key) (Some snapshot) ∈ h1 ∧
    goes_away s = true ∧ hasFloatingIPRecord s = hasFloatingIPRecord snapshot ∧ (∀ h', settled s h' ↔ settled snapshot h')).
  { destruct (is_some _) eqn:Hd.
    - apply wp_ret. split; [split; [done | by apply no_snapshot_cons]|]. split; [by left|]. unfold goes_away. by rewrite Hd.
    - apply wp_call_then; [done|]. intros t. apply wp_ret. split; [split; [done | apply no_snapshot_cons; [done|]; by apply no_snapshot_cons]|].
      split; [right; by left|]. done. }
  intros s h1 ([Hs1 Hn1] & Hp & Hgo & Hrec & Hset) _. eapply wp_seq; [by apply wp_lb_reconcile|].
  intros [[[]|e] s'] h2 (Hn2 & _ & Hok) Hh2; [|by apply wp_ret]. apply wp_call_then; [|intros []; by apply wp_ret].
  split; [done|]. split; [|exact Hn2]. right. exists snapshot. split; [by eapply elem_extends|]. rewrite <- Hrec. intros Hr.
  apply Hset. by apply Hok.
Qed.

Lemma to_remember_cons svc ev h s : lock_of ev = None → granted_ip ev = None → to_remember svc h s → to_remember svc (ev :: h) s.
Proof.
  unfold to_remember, remembered, locks, granted_ips. intros Hl Hg. cbn [omap list_omap]. by rewrite Hl, Hg.
Qed.

Lemma wp_rememberTombstone svc s h :
  mkEv (GetByKey key) (Ok (Some svc)) ∈ h → to_remember svc h s →
  wp snapshot_guard (rememberTombstone s) (λ _ h', remembers svc = true → snapshot_stored svc h') h.
Proof.
  intros Hc Hw. unfold rememberTombstone. destruct (remembers s) eqn:Hr; cbn [negb].
  - destruct (MetaNamespaceKeyFunc s) as [k|e] eqn:Hk.
    + apply wp_call; [by exists svc|]. intros [] _. exists s. split; [by apply to_remember_cons|].
      intros k' Hk'. rewrite Hk in Hk'. injection Hk' as <-. exists [], h. by split.
    + apply wp_ret. intros _. exists s. split; [done|]. intros k' Hk'. by rewrite Hk in Hk'.
  - apply wp_ret. intros Hs. by rewrite (remembers_to_remember _ _ _ Hs Hw) in Hr.
Qed.

Definition failure_remembered (x : res unit) (h : History LbCall) : Prop :=
  ∀ svc e, last h = Some (mkEv (GetByKey key) (Ok (Some svc))) → x = Err e → err_kind e ≠ KPanic →
    remembers svc = true → snapshot_stored svc h.

Lemma wp_reconcile_cached svc h :
  so_far [] [] h → no_snapshot h → mkEv (GetByKey key) (Ok (Some svc)) ∈ h →
  wp snapshot_guard (reconcile_cached r key svc)
    (λ x h', ∀ e, x = Err e → err_kind e ≠ KPanic → remembers svc = true → snapshot_stored svc h') h.
Proof.
  intros H0 Hn Hc. unfold reconcile_cached.
  apply wp_call_then; [split; [done | split; [left; by exists svc | exact Hn]]|]. intros [].
  eapply wp_seq; [apply wp_lb_reconcile; [done | by apply no_snapshot_cons]|].
  intros [[|e] s] h1 (_ & Hw & _) Hh1; [by apply wp_ret|]. specialize (Hw eq_refl).
  eapply wp_seq with (P := λ _ h', err_kind e ≠ KPanic → remembers svc = true → snapshot_stored svc h').
  - case_bool_decide; [by apply wp_ret|]. eapply wp_post; [apply (wp_rememberTombstone svc); [|exact Hw]|].
    + eapply elem_extends; [|exact Hh1]. by right.
    + intros [] h2 Hq _ _. exact Hq.
  - intros [] h2 Hq _. apply wp_ret. intros e' [= <-]. exact Hq.
Qed.

Lemma wp_controller_reconcile : wp snapshot_guard (controller_reconcile r key) failure_remembered [].
Proof.
  assert (no_snapshot []) as Hn by (intros ? ?; apply not_elem_of_nil).
  unfold controller_reconcile. destruct (SplitKey key); [|by apply wp_ret].
  apply wp_call_then; [done|]. intros [[svc|]|e].
  - eapply wp_post; [apply (wp_reconcile_cached svc); [done | by apply no_snapshot_cons | by left]|].
    intros x h' Hx (l0 & ->) svc' e Hl. rewrite last_snoc in Hl. apply (f_equal (fmap cache_answer)) in Hl. simplify_eq/=. by apply Hx.
  - eapply wp_post; [apply wp_reconcile_gone; [done | by apply no_snapshot_cons]|].
    intros x h' _ (l0 & ->) svc' e Hl. rewrite last_snoc in Hl. apply (f_equal (fmap cache_answer)) in Hl. by simplify_eq/=.
  - apply wp_ret. intros svc' e' Hl. apply (f_equal (fmap cache_answer)) in Hl. by simplify_eq/=.
Qed.

(** C19: the life of a snapshot.  The handler drops the snapshot under a key only
    when the cache has the Service, or after the deletion of the snapshot was
    carried through (its finalizer is off, or the Service is gone); a deletion
    that fails keeps it, and a snapshot that the run itself stored is not dropped.
    If the reconciliation of a cached Service that has something to release fails
    (with an error, not by a panic), its snapshot is what is stored under its key in
    the end.  The snapshot is the cached Service itself, unless the Service vanished
    while its address was being recorded and the clean-up for it (the only part of
    an allocation that takes the lock of an address) failed: then it is the Service
    with this address written on it, which is the one granted in this run, if one
    was.  What is held stays known even if the Service vanishes. *)
Theorem snapshot_kept_until_released x h :
  execs (controller_reconcile r key) [] x h →
  obeys snapshot_guard [] h ∧
  ∀ svc e, last h = Some (mkEv (GetByKey key) (Ok (Some svc))) → x = Err e → err_kind e ≠ KPanic →
    remembers svc = true → snapshot_stored svc h.
Proof.
  intros Hrun. eapply (wp_execs snapshot_guard _ failure_remembered) in Hrun as [Hq Ho]; [by split|].
  apply wp_controller_reconcile.
Qed.
End Loop.
