(* ===== verification/LbNames.v ===== *)
(** The names and ranges under which the load-balancer controller publishes an
    address: a pool covers its own address and no other, and two addresses do
    not share a pool. *)

From Stdlib Require Import Ascii.
From S2P Require Import Prelude GoStd NetIP NetIPFacts ApiTypes ApiServer Prog LbApi LbController.

(** ** Bytes of a printed address *)

Lemma absent_octet c x :
  0 <= x < 256 → forallb (λ k, bool_decide (IndexByte (itoa (Z.of_nat k)) c = None)) (seq 0 256) = true →
  IndexByte (itoa x) c = None.
Proof.
  intros Hx Hc. revert x Hx. apply (Z_range_cases (λ x, IndexByte (itoa x) c = None) 256). intros k Hk.
  rewrite forallb_forall in Hc. assert (In k (seq 0 256)) as Hin by (apply in_seq; lia). specialize (Hc k Hin). by bool_hyps.
Qed.

Lemma absent_string4 c v :
  c ≠ "."%char → forallb (λ k, bool_decide (IndexByte (itoa (Z.of_nat k)) c = None)) (seq 0 256) = true →
  IndexByte (string4 v) c = None.
Proof.
  intros Hne Hc. assert (IndexByte "." c = None) as H1 by (cbn [IndexByte]; by rewrite decide_False).
  unfold string4. cbn [fmap list_fmap Join].
  repeat (apply IndexByte_app; [apply absent_octet; [apply octet_bound | done]|]; apply IndexByte_app; [done|]).
  apply absent_octet; [apply octet_bound | done].
Qed.

Lemma ip_name_v4 v : is_v4_val v = true → ip_name v = string4 (v mod 2 ^ 32).
Proof. intros H4. unfold ip_name. by rewrite canon_v4. Qed.

Lemma ip_name_v6 v : is_v4_val v = false → ip_name v = string6 v.
Proof.
  intros H6. unfold ip_name. rewrite canon_v6 by done. unfold Addr_String, Is4In6, is_v4_val in *. simpl. by rewrite H6.
Qed.

Lemma absent_string6 c v : foreign c → c ≠ ":"%char → IndexByte (string6 v) c = None.
Proof.
  intros Hc Hne. unfold string6. destruct (zero_run _ _ _ _) as [zs ze].
  apply absent_print6; [done | done|]. intros. by apply groups_ok.
Qed.

Lemma ip_name_slash v : IndexByte (ip_name v) "/" = None.
Proof.
  destruct (is_v4_val v) eqn:H4.
  - rewrite ip_name_v4 by done. by apply absent_string4.
  - rewrite ip_name_v6 by done. apply absent_string6; [by apply foreign_ex | done].
Qed.

Lemma ParseIP_ip_name v : 0 <= v < max128 → ParseIP (ip_name v) = Some v.
Proof. intros Hv. unfold ParseIP. rewrite ParseAddr_ip_name by done. by rewrite hasZone_canon, addr_canon. Qed.

Lemma is_ipv6_val v : is_ipv6 v = negb (is_v4_val v).
Proof. unfold is_ipv6, To4, is_v4_val. by destruct (_ =? _). Qed.

(** ** The range of a pool *)

Lemma IndexByte_first s c t : IndexByte s c = None → IndexByte (s +:+ String c t) c = Some (String.length s).
Proof.
  induction s as [|d s IH]; intros Hs; [rewrite str_app_nil_l; cbn [IndexByte]; by rewrite decide_True|].
  change (String d s +:+ String c t) with (String d (s +:+ String c t)). cbn [IndexByte] in *.
  destruct (decide (d = c)); [done|]. destruct (IndexByte s c); [done|]. by rewrite IH.
Qed.

Lemma ParseCIDR_host v mask bits :
  0 <= v < max128 → mask = itoa bits → bits = (if is_v4_val v then 32 else 128) →
  ParseCIDR (ip_name v +:+ "/" +:+ mask) =
    Some (mkIPNet (if is_v4_val v then IP4 (Z.land (v mod 2 ^ 32) (CIDRMask bits bits))
                   else IP16 (Z.land v (CIDRMask bits bits))) (CIDRMask bits bits) bits).
Proof.
  intros Hv -> Hb. unfold ParseCIDR. change ("/" +:+ ?t) with (String "/" t).
  rewrite IndexByte_first by apply ip_name_slash.
  rewrite str_take_app, ParseAddr_ip_name, hasZone_canon by done.
  replace (str_drop (S (String.length (ip_name v))) (ip_name v +:+ String "/" (itoa bits))) with (itoa bits).
  2:{ generalize (ip_name v). intros s. induction s as [|c s IH]; [done | exact IH]. }
  destruct (is_v4_val v) eqn:H4; subst bits.
  - rewrite canon_v4 by done. done.
  - rewrite canon_v6 by done. done.
Qed.

Lemma land_ones_all v : 0 <= v < max128 → Z.land v (CIDRMask 128 128) = v.
Proof.
  intros Hv. replace (CIDRMask 128 128) with (Z.ones 128) by done. rewrite Z.land_ones by lia. by apply Z.mod_small.
Qed.

Lemma land_ones_32 v : 0 <= v < 2 ^ 32 → Z.land v (CIDRMask 32 32) = v.
Proof.
  intros Hv. replace (CIDRMask 32 32) with (Z.ones 32) by done. rewrite Z.land_ones by lia. by apply Z.mod_small.
Qed.

Lemma v4_val_split v : is_v4_val v = true → v = v4prefix + v mod 2 ^ 32.
Proof. unfold is_v4_val, v4prefix. intros. bool_hyps. zlia. Qed.

(** C25: the range of a pool.  The pool that the controller creates for an
    address in its canonical form covers, as the controller tests it, exactly
    that address. *)
Theorem own_pool_covers_exactly v w :
  0 <= v < max128 → 0 <= w < max128 →
  poolContainsAddress [addressCIDR (ip_name v)] (IP16 w) = bool_decide (v = w).
Proof.
  intros Hv Hw. unfold poolContainsAddress, addressCIDR, entry_covers. cbn [existsb]. rewrite orb_false_r.
  rewrite ParseIP_ip_name, is_ipv6_val by done.
  assert (0 <= v mod 2 ^ 32 < 2 ^ 32 ∧ 0 <= w mod 2 ^ 32 < 2 ^ 32) as [Hv4 Hw4] by (split; apply Z.mod_pos_bound; lia).
  destruct (is_v4_val v) eqn:H4; cbn [negb].
  - change "/32" with ("/" +:+ "32"). rewrite (ParseCIDR_host v "32" 32); [|exact Hv | reflexivity | by rewrite H4]. rewrite H4.
    unfold IPNet_Contains, To4. cbn [net_ip net_mask]. rewrite (land_ones_32 (v mod 2 ^ 32)) by done.
    change (w / 2 ^ 32 =? 65535) with (is_v4_val w).
    destruct (is_v4_val w) eqn:Hw'.
    + change (CIDRMask 32 32 mod 2 ^ 32) with (CIDRMask 32 32). rewrite !land_ones_32 by done.
      apply v4_val_split in H4, Hw'. case_bool_decide as Heq; [subst; apply Z.eqb_refl|]. apply Z.eqb_neq. congruence.
    + rewrite bool_decide_false; [done|]. intros ->. congruence.
  - change "/128" with ("/" +:+ "128"). rewrite (ParseCIDR_host v "128" 128); [|exact Hv | reflexivity | by rewrite H4]. rewrite H4.
    unfold IPNet_Contains, To4. cbn [net_ip net_mask net_bits to16]. rewrite !land_ones_all by done.
    change (?x / 2 ^ 32 =? 65535) with (is_v4_val x). rewrite H4. destruct (is_v4_val w) eqn:Hw'.
    + rewrite bool_decide_false; [done|]. intros ->. congruence.
    + simpl. case_bool_decide as Heq; [subst; apply Z.eqb_refl | by apply Z.eqb_neq].
Qed.

(** ** The name of a pool *)

Lemma ReplaceByte_inj old new : ∀ s t,
  IndexByte s new = None → IndexByte t new = None → ReplaceByte s old new = ReplaceByte t old new → s = t.
Proof.
  induction s as [|c s IH]; intros [|d t] Hs Ht Heq; try done. cbn [ReplaceByte IndexByte] in *.
  destruct (decide (c = new)), (decide (d = new)); try done.
  destruct (IndexByte s new) eqn:Hs'; [done|]. destruct (IndexByte t new) eqn:Ht'; [done|].
  injection Heq as Hc Hst. rewrite (IH t) by done. f_equal. repeat case_decide; congruence.
Qed.

Lemma ReplaceByte_absent old new c : ∀ s,
  c ≠ new → IndexByte s c = None → IndexByte (ReplaceByte s old new) c = None.
Proof.
  induction s as [|d s IH]; intros Hne Hs; [done|]. cbn [ReplaceByte IndexByte] in *.
  destruct (decide (d = c)); [done|]. destruct (IndexByte s c) eqn:Hs'; [done|]. rewrite (IH Hne eq_refl).
  rewrite decide_False; [done|]. case_decide; congruence.
Qed.

Lemma ReplaceByte_present old new : ∀ s,
  IndexByte s old ≠ None → IndexByte (ReplaceByte s old new) new ≠ None.
Proof.
  induction s as [|d s IH]; intros Hs; [done|]. cbn [ReplaceByte IndexByte] in *.
  repeat case_decide; try done. destruct (IndexByte s old); [|done]. specialize (IH ltac:(done)).
  by destruct (IndexByte (ReplaceByte s old new) new).
Qed.

Lemma IndexByte_app_none s t c : IndexByte (s +:+ t) c = None → IndexByte t c = None.
Proof.
  induction s as [|d s IH]; [done|]. change (String d s +:+ t) with (String d (s +:+ t)). cbn [IndexByte].
  destruct (decide (d = c)); [done|]. by destruct (IndexByte (s +:+ t) c); intros; [|apply IH].
Qed.

(** The printed form neither starts nor ends with the ellipsis. *)
Definition plain_ends (s : string) : bool := negb (HasPrefix s ":") && negb (HasSuffix s ":").

Lemma plain_ends_spec s : plain_ends s = true → (∀ t, s ≠ String ":" t) ∧ ∀ t, s ≠ t +:+ ":".
Proof.
  unfold plain_ends. intros [H1%negb_true_iff H2%negb_true_iff]%andb_true_iff. split; intros t ->.
  - change (HasPrefix (":" +:+ t) ":" = false) in H1. by rewrite HasPrefix_app in H1.
  - by rewrite HasSuffix_app in H2.
Qed.

Lemma trim_left_id c s : (∀ t, s ≠ String c t) → trim_left s c = s.
Proof. destruct s as [|d s]; [done|]. intros Hne. cbn [trim_left]. rewrite decide_False; [done|]. intros ->. by eapply Hne. Qed.

Lemma trim_right_id c : ∀ s, (∀ t, s ≠ t +:+ String c "") → trim_right s c = s.
Proof.
  induction s as [|d s IH]; intros Hne; [done|]. cbn [trim_right].
  rewrite IH by (intros t ->; by apply (Hne (String d t))). destruct s; [|done].
  rewrite decide_False; [done|]. intros ->. by apply (Hne "").
Qed.

Lemma ReplaceByte_app old new s t : ReplaceByte (s +:+ t) old new = ReplaceByte s old new +:+ ReplaceByte t old new.
Proof. induction s as [|c s IH]; [done|]. simpl. by rewrite IH. Qed.

Lemma str_snoc_inj a b x y : a +:+ String x "" = b +:+ String y "" → x = y.
Proof.
  revert b. induction a as [|c a IH]; intros [|e b] Hab; simpl in Hab; simplify_eq; [done | | | by eapply IH].
  - by destruct b.
  - by destruct a.
Qed.

Lemma sanitized_id s :
  IndexByte s "-" = None → plain_ends s = true →
  trim_right (trim_left (ReplaceByte s ":" "-") "-") "-" = ReplaceByte s ":" "-".
Proof.
  intros Hs [Hl Hr]%plain_ends_spec. rewrite trim_left_id.
  - apply trim_right_id. intros t Ht. assert (∃ u d, s = u +:+ String d "") as (u & d & ->).
    { clear -Ht. revert t Ht. induction s as [|c s IH]; intros t Ht; [by destruct t|].
      destruct s as [|c' s]; [by exists "", c|]. destruct t as [|e t]; [done|]. injection Ht as _ Ht.
      destruct (IH _ Ht) as (u & d & Hu). exists (String c u), d. by rewrite Hu. }
    rewrite ReplaceByte_app in Ht. cbn [ReplaceByte] in Ht. apply str_snoc_inj in Ht. case_decide as Hd; [subst; by eapply Hr|]. subst d. apply IndexByte_app_none in Hs. done.
  - intros t Ht. destruct s as [|d s]; [done|]. cbn [ReplaceByte] in Ht. injection Ht as Hd _.
    case_decide; [subst; by eapply Hl|]. subst d. done.
Qed.

Section PoolNames.
Context `{HLibs : LbLibs}.

Lemma v6_name_bytes v :
  is_v4_val v = false →
  IndexByte (ip_name v) "." = None ∧ IndexByte (ip_name v) "-" = None ∧ IndexByte (ip_name v) ":" ≠ None.
Proof.
  intros H6. rewrite ip_name_v6 by done.
  split; [apply absent_string6; [by apply foreign_ex | done]|].
  split; [apply absent_string6; [by apply foreign_ex | done]|].
  unfold string6. destruct (zero_run _ _ _ _) as [zs ze].
  assert (∀ s, addr_family s = Some ":"%char → IndexByte s ":" ≠ None) as Hfam.
  { induction s as [|c s IH]; [done|]. cbn [addr_family IndexByte]. case_decide as Hc.
    - intros [= ->]. by rewrite decide_True.
    - intros Hs. case_decide; [done|]. specialize (IH Hs). by destruct (IndexByte s ":"). }
  apply Hfam, family_print6. intros. by apply groups_ok.
Qed.

(** What follows the prefix of the name. *)
Definition v6_label (v : Z) : string :=
  if IsDNS1123Subdomain ("ip6-" +:+ ReplaceByte (ip_name v) ":" ".")
  then ReplaceByte (ip_name v) ":" "." else ReplaceByte (ip_name v) ":" "-".

Lemma pool_name_v6 v :
  0 <= v < max128 → is_v4_val v = false → plain_ends (ip_name v) = true →
  poolNameForAddress (ip_name v) = "ip6-" +:+ v6_label v.
Proof.
  intros Hv H6 Hp. unfold poolNameForAddress, v6_label. rewrite ParseIP_ip_name, is_ipv6_val, H6 by done. cbn [negb].
  destruct (IsDNS1123Subdomain _); [done|]. destruct (v6_name_bytes v H6) as (_ & Hd & Hc).
  assert (IP_String (IP16 v) = ip_name v) as ->.
  { unfold IP_String, To4, is_v4_val in *. rewrite H6. cbn [to16]. unfold ip_name. by rewrite canon_v6. }
  rewrite sanitized_id by done. rewrite bool_decide_false; [done|]. intros He. apply Hc.
  destruct (ip_name v); [done | discriminate].
Qed.

Lemma pool_name_v4 v :
  0 <= v < max128 → is_v4_val v = true → poolNameForAddress (ip_name v) = "ip4-" +:+ ip_name v.
Proof. intros Hv H4. unfold poolNameForAddress. by rewrite ParseIP_ip_name, is_ipv6_val, H4. Qed.

Lemma v6_label_inj v w :
  0 <= v < max128 → 0 <= w < max128 → is_v4_val v = false → is_v4_val w = false → v6_label v = v6_label w → v = w.
Proof.
  intros Hv Hw H6 H6' Heq. apply ip_name_inj; [done..|]. unfold v6_label in Heq.
  destruct (v6_name_bytes v H6) as (Hp & Hd & Hc), (v6_name_bytes w H6') as (Hp' & Hd' & Hc').
  destruct (IsDNS1123Subdomain _), (IsDNS1123Subdomain _); try by eapply ReplaceByte_inj in Heq.
  - exfalso. apply (ReplaceByte_present ":" "." _ Hc). rewrite Heq. by apply ReplaceByte_absent.
  - exfalso. apply (ReplaceByte_present ":" "." _ Hc'). rewrite <- Heq. by apply ReplaceByte_absent.
Qed.

(** names of pools.  Whatever the validation of names says, two addresses in
    canonical form have different pool names, if the form of an IPv6 address
    neither starts nor ends with the ellipsis. *)
Theorem pool_names_differ v w :
  0 <= v < max128 → 0 <= w < max128 → plain_ends (ip_name v) = true → plain_ends (ip_name w) = true →
  v ≠ w → poolNameForAddress (ip_name v) ≠ poolNameForAddress (ip_name w).
Proof.
  intros Hv Hw Hpv Hpw Hne Heq. apply Hne.
  destruct (is_v4_val v) eqn:Hv4, (is_v4_val w) eqn:Hw4.
  - rewrite !pool_name_v4 in Heq by done. apply ip_name_inj; [done..|]. by apply str_app_inj_l in Heq.
  - rewrite (pool_name_v4 v), (pool_name_v6 w) in Heq by done. discriminate.
  - rewrite (pool_name_v4 w), (pool_name_v6 v) in Heq by done. discriminate.
  - rewrite !pool_name_v6 in Heq by done. apply v6_label_inj; [done..|]. by apply str_app_inj_l in Heq.
Qed.

(** Without that condition they need not: [::1] and [1::]. *)
Example pool_names_collide :
  IsDNS1123Subdomain "ip6-..1" = false → IsDNS1123Subdomain "ip6-1.." = false →
  poolNameForAddress "::1" = "ip6-1" ∧ poolNameForAddress "1::" = "ip6-1".
Proof.
  intros H1 H2. unfold poolNameForAddress.
  replace (ParseIP "::1") with (Some 1) by (vm_compute; reflexivity). replace (ParseIP "1::") with (Some (2 ^ 112)) by (vm_compute; reflexivity).
  replace (is_ipv6 1) with true by (vm_compute; reflexivity). replace (is_ipv6 (2 ^ 112)) with true by (vm_compute; reflexivity).
  change (ReplaceByte "::1" ":" ".") with "..1". change (ReplaceByte "1::" ":" ".") with "1..".
  change ("ip6-" +:+ "..1") with "ip6-..1". change ("ip6-" +:+ "1..") with "ip6-1..". rewrite H1, H2. done.
Qed.
End PoolNames.
