(* ===== verification/LbClient.v ===== *)
(** The load-balancer controller's client of the API server,
    [lbcontroller/pkg/ipam/client.go], and its composition with the handler that
    answers it ([ApiServer]).

    A request is a call whose answer is arbitrary; [encoding/json] and the
    parser of URLs are the class [HttpLib].  [json.Marshal] of a map of strings
    does not fail. *)

From S2P Require Import Prelude GoStd NetIP ApiTypes Kube FipController ApiServer ApiServerSafe Prog LbApi LbController.

(** ** Requests *)

(** The bodies the client marshals. *)
Inductive ReqBody :=
| TokenBody (clientID : string)
| FipBody (a : FipArgs)
| ListBody (a : ListArgs)
| DeleteBody (clientSecret project ipaddr : string).

(** A response: the status, and the body or the error of reading it. *)
Record HttpResponse := mkHttp { StatusCode : Z; hr_Body : res string }.

Inductive HttpCall : Type → Type :=
| Send (method url : string) (token : option string) (body : ReqBody) (timeout : time) : HttpCall (res HttpResponse).

Class HttpLib := {
  (* [http.NewRequestWithContext]: the error of a malformed URL *)
  bad_url : string → option error;
  unmarshal_token : string → res string;
  unmarshal_fip : string → res FIPResponse;
  unmarshal_status : string → res StatusResponse;
  decode_list : string → res FIPListResponse
}.

Definition tokenTimeout : time := 10 * 10 ^ 9.
Definition requestTimeout : time := 60 * 10 ^ 9.

Definition status_code (code : Z) : string := "status code " +:+ itoa code.

Section Client.
Context `{HHttp : HttpLib}.
#[local] Open Scope prog_scope.

Definition send_request (c : IPAMClient) (method path : string) (token : option string) (body : ReqBody)
    (timeout : time) (new_failed send_failed : string) : Prog HttpCall (res HttpResponse) :=
  let url := cl_apiURL c +:+ path in
  match bad_url url with
  | Some err => Ret (Err (wrapf new_failed err))
  | None =>
      try! resp := call (Send method url token body timeout) else err => Ret (Err (wrapf send_failed err)) in
      Ret (Ok resp)
  end.

Definition getToken (c : IPAMClient) : Prog HttpCall (res string) :=
  try! resp := send_request c "POST" "/auth/token" None (TokenBody (cl_clientID c)) tokenTimeout
    "request error" "client error" else err => Ret (Err err) in
  Ret (if negb (StatusCode resp =? 200) then Err (errorf (status_code (StatusCode resp)))
       else match hr_Body resp with
            | Err err => Err (wrapf "response error" err)
            | Ok body =>
                match unmarshal_token body with
                | Err err => Err (wrapf "response unmarshal error" err)
                | Ok token => Ok token
                end
            end).

(** The first check that the response fails. *)
Definition mismatch (a : FipArgs) (rs : FIPResponse) : option string :=
  if negb (bool_decide (rs_ClientSecret rs = fa_ClientSecret a)) then Some "client secret mismatch"
  else if negb (bool_decide (rs_Status rs = "approved")) then Some ("status " +:+ rs_Status rs)
  else if negb (bool_decide (rs_Cluster rs = fa_Cluster a)) then Some "cluster mismatch"
  else if negb (bool_decide (rs_Project rs = fa_Project a)) then Some "project mismatch"
  else if negb (bool_decide (rs_FloatingIPPool rs = fa_FloatingIPPool a)) then Some "floating IP pool mismatch"
  else if negb (bool_decide (rs_ServiceNamespace rs = fa_ServiceNamespace a)) then Some "service namespace mismatch"
  else if negb (bool_decide (rs_ServiceName rs = fa_ServiceName a)) then Some "service name mismatch"
  else if bool_decide (rs_IPAddress rs = "") then Some "IP address is empty"
  else if negb (bool_decide (rs_FloatingIPGroup rs = fa_FloatingIPGroup a)) then Some "floatingip-group name mismatch"
  else None.

Definition accept_response (a : FipArgs) (resp : HttpResponse) : res (string * string * string) :=
  match hr_Body resp with
  | Err err => Err (wrapf "failed to read FIP response body" err)
  | Ok body =>
      match unmarshal_fip body with
      | Err err => Err (wrapf "failed to unmarshal FIP response" err)
      | Ok rs =>
          if negb (StatusCode resp =? 200) then
            if Contains body "quota exceeded" then Err (errorf "failed to request FIP: quota exceeded")
            else Err (errorf ("failed to request FIP: " +:+ status_code (StatusCode resp) +:+ " (" +:+ body +:+ ")"))
          else match mismatch a rs with
               | Some m => Err (errorf ("failed to request FIP: " +:+ m))
               | None => Ok (rs_IPAddress rs, rs_Subnet rs, rs_SharedKey rs)
               end
      end
  end.

Definition client_RequestFIP (c : IPAMClient) (a : FipArgs) : Prog HttpCall (res (string * string * string)) :=
  try! token := getToken c else err => Ret (Err (wrapf "failed to get token for FIP request" err)) in
  try! resp := send_request c "POST" "/fip/request" (Some ("Bearer " +:+ token)) (FipBody a) requestTimeout
    "failed to create FIP request" "failed to request FIP" else err => Ret (Err err) in
  Ret (accept_response a resp).

(** A release is done when the manager says so, or no longer knows the claim. *)
Definition released_response (resp : HttpResponse) : res unit :=
  if (StatusCode resp =? 404) || (StatusCode resp =? 410) then Ok tt
  else if negb (StatusCode resp =? 200) then
    Err (errorf ("failed to release FIP: " +:+ status_code (StatusCode resp)))
  else match hr_Body resp with
  | Err err => Err (wrapf "failed to read FIP release response body" err)
  | Ok body =>
      match unmarshal_status body with
      | Err err => Err (wrapf "failed to unmarshal FIP release response" err)
      | Ok rs =>
          if negb (bool_decide (sr_Status rs = "released"))
          then Err (errorf ("failed to release FIP: status " +:+ sr_Status rs)) else Ok tt
      end
  end.

Definition client_ReleaseFIP (c : IPAMClient) (a : FipArgs) : Prog HttpCall (res unit) :=
  try! token := getToken c else err => Ret (Err (wrapf "failed to get token for FIP release" err)) in
  try! resp := send_request c "POST" "/fip/release" (Some ("Bearer " +:+ token)) (FipBody a) requestTimeout
    "failed to create FIP release request" "failed to release FIP" else err => Ret (Err err) in
  Ret (released_response resp).

Definition client_ListFIPs (c : IPAMClient) (a : ListArgs) : Prog HttpCall (res FIPListResponse) :=
  try! token := getToken c else err => Ret (Err (wrapf "failed to get token for FIP list request" err)) in
  try! resp := send_request c "POST" "/fip/list" (Some ("Bearer " +:+ token)) (ListBody a) requestTimeout
    "failed to create FIP list request" "failed to get FloatingIP list" else err => Ret (Err err) in
  Ret (if negb (StatusCode resp =? 200)
       then Err (errorf ("failed to get FloatingIP list: " +:+ status_code (StatusCode resp)))
       else match hr_Body resp with
            | Err err => Err (wrapf "failed to decode response" err)
            | Ok body =>
                match decode_list body with
                | Err err => Err (wrapf "failed to decode response" err)
                | Ok l => Ok l
                end
            end).

Definition client_DeleteFIP (c : IPAMClient) (clientSecret project ipaddr : string) : Prog HttpCall (res unit) :=
  try! token := getToken c else err => Ret (Err (wrapf "failed to get token for FIP delete request" err)) in
  try! resp := send_request c "DELETE" "/fip/delete" (Some ("Bearer " +:+ token))
    (DeleteBody clientSecret project ipaddr) requestTimeout
    "failed to create FIP delete request" "failed to delete ip address" else err => Ret (Err err) in
  Ret (if negb (StatusCode resp =? 200)
       then Err (errorf ("failed to delete ip address: " +:+ status_code (StatusCode resp))) else Ok tt).

(** ** What the client accepts *)

Lemma mismatch_none a rs :
  mismatch a rs = None ↔
  rs_ClientSecret rs = fa_ClientSecret a ∧ rs_Status rs = "approved" ∧ rs_Cluster rs = fa_Cluster a ∧
  rs_Project rs = fa_Project a ∧ rs_FloatingIPPool rs = fa_FloatingIPPool a ∧
  rs_ServiceNamespace rs = fa_ServiceNamespace a ∧ rs_ServiceName rs = fa_ServiceName a ∧
  rs_IPAddress rs ≠ "" ∧ rs_FloatingIPGroup rs = fa_FloatingIPGroup a.
Proof.
  unfold mismatch. split.
  - intros H. do 9 (case_bool_decide; cbn [negb] in H; try done).
  - intros (-> & -> & -> & -> & -> & -> & -> & Hip & ->). do 7 (rewrite bool_decide_true by done; cbn [negb]).
    rewrite (bool_decide_false _ Hip). by rewrite bool_decide_true.
Qed.

Lemma accept_ok a resp x :
  accept_response a resp = Ok x →
  StatusCode resp = 200 ∧ ∃ body rs, hr_Body resp = Ok body ∧ unmarshal_fip body = Ok rs ∧ mismatch a rs = None ∧
    x = (rs_IPAddress rs, rs_Subnet rs, rs_SharedKey rs).
Proof.
  unfold accept_response. intros H. destruct (hr_Body resp) as [body|]; [|done].
  destruct (unmarshal_fip body) as [rs|] eqn:Hu; [|done].
  destruct (Z.eqb_spec (StatusCode resp) 200); cbn [negb] in H; [|by destruct (Contains _ _)].
  destruct (mismatch a rs) eqn:Hm; [done|]. simplify_eq. split; [done|]. by exists body, rs.
Qed.
End Client.

(** ** The client and the handler together *)

(** The request as the handler decodes it; an empty group is left out and read
    as empty. *)
Definition server_view (a : FipArgs) : FIPRequest :=
  mkFIPRequest (fa_ClientSecret a) (fa_Cluster a) (fa_Project a) (fa_FloatingIPPool a) (fa_ServiceNamespace a)
    (fa_ServiceName a) (fa_IPAddr a) (fa_FloatingIPGroup a).

Section Together.
Context {S : Type} `{HKube : KubeAPI S, HRetry : !RetrySpec S, HRange : MapRange} `{HHttp : HttpLib}.

Lemma serve_request_granted fuel req (w : World S) rs w' :
  serve_request fuel req w = (Some (JSONOk rs), w') →
  ∃ f pool, rs = granted req f pool ∧ st_IPAddr (fip_Status f) ≠ "".
Proof.
  unfold serve_request, bind. destruct (find_project _ w) as [[project|e] w1].
  2:{ unfold writeHandlerError. intros Hr. cbv [ret] in Hr. by destruct (err_kind e). }
  destruct (obtain project req w1) as [[[fip created]|e] w2].
  2:{ unfold writeHandlerError. intros Hr. cbv [ret] in Hr. by destruct (err_kind e). }
  unfold WatchFloatingIP. cbn [fst snd]. set (wait := negb _).
  destruct (watch_loop_does (claims_for req) fuel (fip_ns fip) (fip_name fip) wait watchReconnectInitialDelay w2)
    as (l3 & _ & _ & Hwait).
  destruct (watch_loop _ _ _ _ _ w2) as [[[f|e]|] w3]; simpl in *; [|intros Hr|done].
  - destruct (api (GetPool _) w3) as [[pool|] w4]; cbv [ret]; intros Hr; simplify_eq. exists f, pool. split; [done|].
    specialize (Hwait f eq_refl). unfold allocated in Hwait. by case_bool_decide.
  - destruct (wait_failed_calls fip created e w3) as (_ & _ & _ & Hno).
    destruct (wait_failed fip created e w3) as [reply w4]. cbv [ret] in Hr. simplify_eq. by destruct (Hno rs).
Qed.

(** C20: the client understands the handler.  If the handler of the API server
    approves the client's request and the body reaches the client, the client
    takes the address, the subnet and the shared key of the reply, with one
    exception: a floating IP whose group is not the requested one is refused. *)
Theorem granted_reply_accepted fuel a (w : World S) rs w' body :
  FIPRequestHandler fuel (Ok (server_view a)) w = (Some (JSONOk rs), w') → unmarshal_fip body = Ok rs →
  accept_response a (mkHttp 200 (Ok body)) =
    if bool_decide (rs_FloatingIPGroup rs = fa_FloatingIPGroup a)
    then Ok (rs_IPAddress rs, rs_Subnet rs, rs_SharedKey rs)
    else Err (errorf "failed to request FIP: floatingip-group name mismatch").
Proof.
  intros (f & pool & Hrs & Hip)%serve_request_granted Hb. unfold accept_response. cbn [hr_Body StatusCode]. rewrite Hb.
  cbn [Z.eqb Pos.eqb negb]. assert (mismatch a rs = if bool_decide (rs_FloatingIPGroup rs = fa_FloatingIPGroup a)
    then None else Some "floatingip-group name mismatch") as ->; [|by case_bool_decide].
  unfold mismatch. subst rs. cbn [granted server_view rs_ClientSecret rs_Status rs_Cluster rs_Project rs_FloatingIPPool
    rs_ServiceNamespace rs_ServiceName rs_IPAddress rq_ClientSecret rq_Cluster rq_Project rq_FloatingIPPool
    rq_ServiceNamespace rq_ServiceName].
  do 7 (rewrite bool_decide_true by done; cbn [negb]). rewrite (bool_decide_false _ Hip). by case_bool_decide.
Qed.
End Together.
