(* ===== verification/LbServer.v ===== *)
(** The management page of the load-balancer controller,
    [lbcontroller/pkg/http/server.go]: sessions, forms, and the requests that
    release or remove a floating IP.

    A handler is a program of calls whose answers are arbitrary.  What happens to
    the session map under its mutex is one call, [SessionDo]; [session_do] is
    what it does.  The templates are constants, a page is its data. *)

From S2P Require Import Prelude GoStd NetIP ApiTypes Kube ApiServer Prog LbApi LbController.

(** ** Sessions *)

Definition maxSessions : Z := 1024.
Definition sessionDuration : time := 24 * 3600 * 10 ^ 9.
Definition releaseWaitTimeout : time := 30 * 10 ^ 9.
Definition releasePollInterval : time := 500 * 10 ^ 6.

Record session := mkSession { expiresAt : time; csrfToken_ : string }.
Notation Sessions := (gmap string session).

Section Sessions.
Context `{HRange : MapRange}.

(** The session closest to expiry, in the order of a range over the map. *)
Definition oldest (m : Sessions) : string :=
  (foldl (λ acc ts, if bool_decide (acc.1 = "") || (expiresAt ts.2 <? acc.2) then (ts.1, expiresAt ts.2) else acc)
    ("", 0) (range m)).1.

(** The loop drops one session a round. *)
Fixpoint evict (fuel : nat) (m : Sessions) : Sessions :=
  match fuel with
  | O => m
  | S fuel => if maxSessions <=? Z.of_nat (size m) then evict fuel (delete (oldest m) m) else m
  end.

Definition unexpired (now : time) (m : Sessions) : Sessions := filter (λ ts, now <= expiresAt ts.2) m.

Definition pruneSessionsLocked (now : time) (m : Sessions) : Sessions :=
  let m := unexpired now m in evict (size m) m.

(** The critical sections of the handlers. *)
Inductive SessionOp : Type → Type :=
| CheckSession (token : string) (now : time) : SessionOp bool             (* [withAuth] *)
| TokenOf (token : string) (now : time) : SessionOp string                (* [csrfTokenFor] *)
| Login (now : time) (token : string) (s : session) : SessionOp unit
| Logout (token : string) : SessionOp unit
| Sweep (now : time) : SessionOp unit.                                    (* [runSessionJanitor] *)

Definition session_do {R} (op : SessionOp R) : Sessions → R * Sessions :=
  match op with
  | CheckSession token now => λ m,
      match m !! token with
      | None => (false, m)
      | Some sess => if expiresAt sess <? now then (false, delete token m) else (true, m)
      end
  | TokenOf token now => λ m,
      match m !! token with
      | None => ("", m)
      | Some sess => if expiresAt sess <? now then ("", m) else (csrfToken_ sess, m)
      end
  | Login now token s => λ m, (tt, <[token := s]> (pruneSessionsLocked now m))
  | Logout token => λ m, (tt, delete token m)
  | Sweep now => λ m, (tt, pruneSessionsLocked now m)
  end.
End Sessions.

(** ** Requests and answers *)

Inductive cookie := Cookie (value : string) | NoCookie | BadCookie.

Record HttpRequest := mkRequest {
  req_Method : string;
  req_Form : res (gmap string string);       (* [ParseForm], then the values *)
  req_Cookie : cookie;                       (* the session cookie *)
  req_TLS : bool;
  req_ForwardedProto : string
}.

Inductive UiReply :=
| HttpError (code : Z) (message : string)
| Redirect (location : string)
| LoginPage (error : string)
| ListPage (fips : list FIPListEntry) (csrf : string).

Inductive UiCall : Type → Type :=
| OnCluster {R} (c : LbCall R) : UiCall R
| DeleteFIP_ (client : IPAMClient) (clientSecret project ipaddr : string) : UiCall (res unit)
| SessionDo {R} (op : SessionOp R) : UiCall R
| RandomToken : UiCall (res string)
| IsLeader : UiCall bool
| UiNow : UiCall time
| PollTick : UiCall (res unit)     (* the interval passed, or the context ended *)
| SetCookie (value : string) (expires maxAge : time) (secure : bool) : UiCall unit
| RetryAfter (seconds : string) : UiCall unit.

Record Server := mkServer {
  ui_client : IPAMClient;
  ui_clientSecret : string;
  ui_cluster : string;
  ui_project : string;
  floatingIPPools : list string;
  username : string;
  password : string;
  ui_csrfToken : string;
  has_leader_check : bool
}.

Section Handlers.
Context `{HRange : MapRange} (s : Server).
#[local] Open Scope prog_scope.

Definition authDisabled : bool := bool_decide (username s = "") && bool_decide (password s = "").

Definition FormValue (form : gmap string string) (k : string) : string := default "" (form !! k).

Definition isHTTPS (r : HttpRequest) : bool := req_TLS r || bool_decide (req_ForwardedProto r = "https").

Definition setSessionCookie (r : HttpRequest) (value : string) (expires maxAge : time) : Prog UiCall unit :=
  call (SetCookie value expires maxAge (isHTTPS r)).

Definition leaderReplica : Prog UiCall bool :=
  if has_leader_check s then call IsLeader else Ret true.

(** The answer of a replica that is not the leader. *)
Definition requireLeader : Prog UiCall (option UiReply) :=
  let! leader := leaderReplica in
  if (leader : bool) then Ret None
  else
    call (RetryAfter "5") ;;;
    Ret (Some (HttpError 503 "this replica is not the leader; retry the request")).

Definition withAuth (next : HttpRequest → Prog UiCall UiReply) (r : HttpRequest) : Prog UiCall UiReply :=
  if authDisabled then next r
  else match req_Cookie r with
  | NoCookie => Ret (Redirect "/login")
  | BadCookie => Ret (HttpError 400 "Bad Request")
  | Cookie token =>
      let! now := call UiNow in
      let! ok := call (SessionDo (CheckSession token now)) in
      if (ok : bool) then next r else Ret (Redirect "/login")
  end.

Definition csrfTokenFor (r : HttpRequest) : Prog UiCall string :=
  if authDisabled then Ret (ui_csrfToken s)
  else match req_Cookie r with
  | Cookie token =>
      let! now := call UiNow in
      call (SessionDo (TokenOf token now))
  | _ => Ret ""
  end.

Definition validCSRF (r : HttpRequest) (form : gmap string string) : Prog UiCall bool :=
  let! expected := csrfTokenFor r in
  let submitted := FormValue form "csrf_token" in
  Ret (if bool_decide (expected = "") || bool_decide (submitted = "") then false
       else bool_decide (submitted = expected)).

Definition newSession : Prog UiCall (option (string * string)) :=
  let! t := call RandomToken in
  match t with
  | Err _ => Ret None
  | Ok sessionToken =>
      let! c := call RandomToken in
      match c with
      | Err _ => Ret None
      | Ok csrf => Ret (Some (sessionToken, csrf))
      end
  end.

Definition handleLogin (r : HttpRequest) : Prog UiCall UiReply :=
  if bool_decide (req_Method r = "GET") then Ret (LoginPage "")
  else if bool_decide (req_Method r = "POST") then
    match req_Form r with
    | Err _ => Ret (HttpError 400 "Failed to parse form")
    | Ok form =>
        if bool_decide (FormValue form "username" = username s) && bool_decide (FormValue form "password" = password s)
        then
          let! t := newSession in
          match (t : option (string * string)) with
          | None => Ret (HttpError 500 "Internal Server Error")
          | Some (sessionToken, csrf) =>
              let! now := call UiNow in
              let expires := now + sessionDuration in
              let! now2 := call UiNow in
              call (SessionDo (Login now2 sessionToken (mkSession expires csrf))) ;;;
              setSessionCookie r sessionToken expires 0 ;;;
              Ret (Redirect "/")
          end
        else Ret (LoginPage "Unauthorized")
    end
  else Ret (HttpError 405 "Method not allowed").

Definition handleLogout (r : HttpRequest) : Prog UiCall UiReply :=
  if negb (bool_decide (req_Method r = "POST")) then Ret (HttpError 405 "Method not allowed")
  else match req_Form r with
  | Err _ => Ret (HttpError 400 "Failed to parse form")
  | Ok form =>
      let! ok := validCSRF r form in
      if negb ok then Ret (HttpError 403 "Invalid CSRF token")
      else match req_Cookie r with
      | Cookie token =>
          call (SessionDo (Logout token)) ;;;
          setSessionCookie r "" (10 ^ 9) (-1) ;;;
          Ret (Redirect "/login")
      | _ => Ret (Redirect "/login")
      end
  end.

(** ** The list *)

Definition unassigned (v : string) : string := if bool_decide (v = "") then "Unassigned" else v.
Definition show_entry (e : FIPListEntry) : FIPListEntry :=
  mkFIPListEntry (le_Project e) (unassigned (le_Cluster e)) (le_FloatingIPPool e) (unassigned (le_ServiceNamespace e))
    (unassigned (le_ServiceName e)) (le_IPAddress e) (le_FloatingIPGroup e).

Fixpoint list_pools (pools : list string) : Prog UiCall (res (list FIPListEntry)) :=
  match pools with
  | [] => Ret (Ok [])
  | pool :: pools =>
      try! fips := call (OnCluster (ListFIPs_ (ui_client s)
          (mkListArgs (ui_clientSecret s) (ui_cluster s) (ui_project s) pool))) else err =>
        Ret (Err (errorf ("failed to list fips from pool " +:+ pool +:+ ": " +:+ err_msg err))) in
      try! rest := list_pools pools else err => Ret (Err err) in
      Ret (Ok (fips ++ rest))
  end.

Definition handleFIPList (r : HttpRequest) : Prog UiCall UiReply :=
  let! l := list_pools (floatingIPPools s) in
  match l with
  | Err err => Ret (HttpError 500 (err_msg err))
  | Ok fips =>
      let! csrf := csrfTokenFor r in
      Ret (ListPage (map show_entry fips) csrf)
  end.

(** ** Releasing and removing *)

(** What precedes both: the method, the leader, the form and its token. *)
Definition mutating (r : HttpRequest) (k : gmap string string → Prog UiCall UiReply) : Prog UiCall UiReply :=
  if negb (bool_decide (req_Method r = "POST")) then Ret (HttpError 405 "Method not allowed")
  else
    let! refused := requireLeader in
    match (refused : option UiReply) with
    | Some reply => Ret reply
    | None =>
        match req_Form r with
        | Err _ => Ret (HttpError 400 "Failed to parse form")
        | Ok form =>
            let! ok := validCSRF r form in
            if negb ok then Ret (HttpError 403 "Invalid CSRF token") else k form
        end
    end.

Definition form_field_error (key value : string) : option string :=
  if bool_decide (value = "") then Some (key +:+ " is a required field")
  else if (253 <? Z.of_nat (String.length value)) then
    Some (key +:+ " is too long, maximum length is 253 characters")
  else None.

Fixpoint first_form_error (fields : list (string * string)) : option string :=
  match fields with
  | [] => None
  | (k, v) :: fields =>
      match form_field_error k v with Some e => Some e | None => first_form_error fields end
  end.

(** The polls that fit into the timeout, the first one at once. *)
Definition max_polls : nat := 61.

Fixpoint poll_gone (fuel : nat) (ns name : string) : Prog UiCall (res unit) :=
  match fuel with
  | O => Ret (Err (mkErr KDeadlineExceeded "context deadline exceeded"))
  | S fuel =>
      let! g := call (OnCluster (GetService ns name)) in
      match g with
      | Err err => if IsNotFound err then Ret (Ok tt) else Ret (Err err)
      | Ok _ =>
          try! _u := call PollTick else err => Ret (Err err) in
          poll_gone fuel ns name
      end
  end.

Definition waitForServiceGone (ns name : string) : Prog UiCall (res unit) := poll_gone max_polls ns name.

(** What a form asks to release. *)
Record ReleaseForm := mkReleaseForm {
  rf_pool : string; rf_ns : string; rf_name : string; rf_ip : string; rf_group : string
}.

Definition release_form (form : gmap string string) : ReleaseForm :=
  mkReleaseForm (FormValue form "floatingippool") (FormValue form "servicenamespace") (FormValue form "servicename")
    (FormValue form "ipaddr") (FormValue form "floatingipgroup").

Definition form_values (f : ReleaseForm) : gmap string string :=
  <["floatingippool" := rf_pool f]> (<["servicenamespace" := rf_ns f]> (<["servicename" := rf_name f]>
    {["ipaddr" := rf_ip f]})).

Definition release_claim (f : ReleaseForm) : Prog UiCall (res unit) :=
  call (OnCluster (ReleaseFIP (ui_client s) (mkFipArgs (ui_clientSecret s) (ui_cluster s) (ui_project s) (rf_pool f)
    (rf_ns f) (rf_name f) (rf_ip f) (rf_group f)))).

(** The Service is deleted first, so that the controller releases its address. *)
Definition release_service (f : ReleaseForm) (svc : Service) : Prog UiCall UiReply :=
  let name := rf_ns f +:+ "/" +:+ rf_name f in
  if negb (bool_decide (svc_ann svc floatingIPAnnotation = rf_ip f)) then
    Ret (HttpError 409 ("service " +:+ name +:+ " is not managed by this controller or does not hold " +:+ rf_ip f))
  else if negb (bool_decide (svc_ann svc projectAnnotation = ""))
          && negb (bool_decide (svc_ann svc projectAnnotation = ui_project s)) then
    Ret (HttpError 409 ("service " +:+ name +:+ " belongs to project " +:+ svc_ann svc projectAnnotation +:+ ", not "
      +:+ ui_project s))
  else
    let! d := call (OnCluster (DeleteService (rf_ns f) (rf_name f))) in
    match d with
    | Err err => Ret (HttpError 500 ("failed to delete service " +:+ name +:+ ": " +:+ err_msg err))
    | Ok _ =>
        let! g := waitForServiceGone (rf_ns f) (rf_name f) in
        match g with
        | Err err => Ret (HttpError 504 ("service " +:+ name
            +:+ " deletion was requested, but the controller has not finished releasing " +:+ rf_ip f
            +:+ " within 30s; check the controller logs and retry"))
        | Ok _ =>
            let! x := release_claim f in
            match x with
            | Err err => Ret (HttpError 500 ("service " +:+ name +:+ " was deleted, but releasing " +:+ rf_ip f
                +:+ " failed: " +:+ err_msg err +:+ "; retry the release"))
            | Ok _ => Ret (Redirect "/")
            end
        end
    end.

Definition release_submitted (form : gmap string string) : Prog UiCall UiReply :=
  let f := release_form form in
  match first_form_error (range (form_values f)) with
  | Some e => Ret (HttpError 400 e)
  | None =>
      if negb (is_some (ParseIP (rf_ip f))) then Ret (HttpError 400 "invalid ip address format for ipaddr")
      else
        let! g := call (OnCluster (GetService (rf_ns f) (rf_name f))) in
        match g with
        | Ok svc => release_service f svc
        | Err err =>
            if negb (IsNotFound err) then
              Ret (HttpError 500 ("failed to check if service " +:+ rf_ns f +:+ "/" +:+ rf_name f +:+ " exists: "
                +:+ err_msg err))
            else
              let! x := release_claim f in
              match x with
              | Err err => Ret (HttpError 500 ("failed to release fip: " +:+ err_msg err))
              | Ok _ => Ret (Redirect "/")
              end
        end
  end.

Definition handleRelease (r : HttpRequest) : Prog UiCall UiReply := mutating r release_submitted.

Definition remove_submitted (form : gmap string string) : Prog UiCall UiReply :=
  let ipaddr := FormValue form "ipaddr" in
  match form_field_error "ipaddr" ipaddr with
  | Some e => Ret (HttpError 400 e)
  | None =>
      if negb (is_some (ParseIP ipaddr)) then Ret (HttpError 400 "invalid ip address format for ipaddr")
      else
        let! x := call (DeleteFIP_ (ui_client s) (ui_clientSecret s) (ui_project s) ipaddr) in
        match x with
        | Err err => Ret (HttpError 500 ("failed to remove fip: " +:+ err_msg err))
        | Ok _ => Ret (Redirect "/")
        end
  end.

Definition handleRemove (r : HttpRequest) : Prog UiCall UiReply := mutating r remove_submitted.

(** ** Routes *)

(** The handlers that [Start] registers; [/] matches every other path. *)
Definition route (path : string) (r : HttpRequest) : Prog UiCall UiReply :=
  if bool_decide (path = "/release") then withAuth handleRelease r
  else if bool_decide (path = "/remove") then withAuth handleRemove r
  else if bool_decide (path = "/login") then handleLogin r
  else if bool_decide (path = "/logout") then handleLogout r
  else withAuth handleFIPList r.
End Handlers.
