(* ===== verification/LbServerCorrect.v ===== *)
(** The management page: the bound on its sessions, and what a request may do. *)

From S2P Require Import Prelude GoStd NetIP ApiTypes Kube ApiServer Prog LbApi LbController LbReconcile LbEvidence LbServer.

(** ** The session map *)

Section Sessions.
Context `{HRange : MapRange}.

Lemma oldest_fold (l : list (string * session)) : ∀ acc,
  (∀ x, x ∈ l → x.1 ≠ "") →
  let r := foldl (λ acc ts, if bool_decide (acc.1 = "") || (expiresAt ts.2 <? acc.2) then (ts.1, expiresAt ts.2) else acc)
             acc l in
  (acc.1 ≠ "" → r.2 <= acc.2) ∧ (∀ x, x ∈ l → r.2 <= expiresAt x.2) ∧
  (r = acc ∧ (acc.1 ≠ "" ∨ l = []) ∨ ∃ x, x ∈ l ∧ r = (x.1, expiresAt x.2)).
Proof.
  induction l as [|x l IH]; intros acc Hl r; subst r; simpl in *.
  { split; [lia|]. split; [intros x Hx; by apply not_elem_of_nil in Hx|]. left. auto. }
  assert (∀ y, y ∈ l → y.1 ≠ "") as Hl' by (intros y ?; apply Hl; by right).
  assert (x.1 ≠ "") as Hx by (apply Hl; by left).
  destruct (bool_decide (acc.1 = "") || (expiresAt x.2 <? acc.2)) eqn:Hc.
  - destruct (IH (x.1, expiresAt x.2) Hl') as (H1 & H2 & H3). simpl in *. specialize (H1 Hx). split; [|split].
    + intros Ha. rewrite bool_decide_false in Hc by done. simpl in Hc. apply Z.ltb_lt in Hc. lia.
    + intros y [->|Hy]%elem_of_cons; [done | by apply H2].
    + right. destruct H3 as [[-> _]|(y & Hy & ->)]; [exists x | exists y]; (split; [|done]); [by left | by right].
  - apply orb_false_iff in Hc as [Ha Hge]. bool_hyps. destruct (IH acc Hl') as (H1 & H2 & H3). specialize (H1 Ha).
    split; [done|]. split; [intros y [->|Hy]%elem_of_cons; [lia | by apply H2]|].
    destruct H3 as [[-> _]|(y & Hy & ->)]; [by left; auto|]. right. exists y. split; [by right | done].
Qed.

Definition tokens_ok (m : Sessions) : Prop := m !! "" = None.

Lemma oldest_spec (m : Sessions) :
  tokens_ok m → m ≠ ∅ →
  ∃ s, m !! oldest m = Some s ∧ ∀ k s', m !! k = Some s' → expiresAt s <= expiresAt s'.
Proof.
  intros Hok Hne. assert (∀ x, x ∈ range m → x.1 ≠ "") as Hl.
  { intros [k s] Hx%elem_of_range. simpl. intros ->. unfold tokens_ok in Hok. congruence. }
  unfold oldest. destruct (oldest_fold (range m) ("", 0) Hl) as (_ & H2 & H3).
  destruct H3 as [[_ [?|Hnil]]|([k s] & Hx & Hr)]; [done| |].
  - exfalso. apply Hne. apply map_to_list_empty_iff. apply Permutation_nil_r. by rewrite <- Hnil, range_perm.
  - rewrite Hr in *. cbn [fst snd] in *. exists s. split; [by apply elem_of_range|].
    intros k' s' Hk'. apply (H2 (k', s')). by apply elem_of_range.
Qed.

(** The rounds of the eviction bring the map below its cap; what goes is no later
    than what stays. *)
Lemma evict_spec fuel : ∀ m, tokens_ok m → (size m <= fuel)%nat →
  evict fuel m ⊆ m ∧ Z.of_nat (size (evict fuel m)) < maxSessions ∧
  (Z.of_nat (size m) < maxSessions → evict fuel m = m) ∧
  ∀ k s k' s', m !! k = Some s → evict fuel m !! k = None → evict fuel m !! k' = Some s' → expiresAt s <= expiresAt s'.
Proof.
  induction fuel as [|fuel IH]; intros m Hok Hsz; cbn [evict].
  { split; [done|]. split; [unfold maxSessions; lia|]. split; [done|]. congruence. }
  destruct (Z.leb_spec maxSessions (Z.of_nat (size m))) as [Hcap|Hlt].
  2:{ split; [done|]. split; [done|]. split; [done|]. congruence. }
  assert (m ≠ ∅) as Hne by (intros ->; rewrite map_size_empty in Hcap; by unfold maxSessions in Hcap).
  destruct (oldest_spec m Hok Hne) as (so & Ho & Hmin).
  assert (size m = S (size (delete (oldest m) m))) as Hsize.
  { rewrite map_size_delete, Ho. assert (size m ≠ 0%nat) by (by intros ?%map_size_empty_inv). lia. }
  destruct (IH (delete (oldest m) m)) as (Hsub & Hb & Hid & Hord); [by apply lookup_delete_None; right | lia |].
  split; [etrans; [exact Hsub | apply delete_subseteq]|]. split; [done|]. split; [lia|].
  intros k s k' s' Hk Hn Hk'. destruct (decide (k = oldest m)) as [->|Hne'].
  - rewrite Ho in Hk. injection Hk as <-. apply (Hmin k'). eapply lookup_weaken; [|apply delete_subseteq].
    by eapply lookup_weaken.
  - eapply Hord; [|exact Hn | exact Hk']. by rewrite lookup_delete_ne.
Qed.

Definition op_ok {R} (op : SessionOp R) : Prop := match op with Login _ token _ => token ≠ "" | _ => True end.

Record sessions_ok (m : Sessions) : Prop := {
  sessions_tokens : tokens_ok m;
  sessions_bound : Z.of_nat (size m) <= maxSessions
}.

Lemma prune_spec now (m : Sessions) :
  tokens_ok m →
  let m' := pruneSessionsLocked now m in
  m' ⊆ m ∧ Z.of_nat (size m') < maxSessions ∧
  (∀ k s, m' !! k = Some s → now <= expiresAt s) ∧
  (∀ k s, m !! k = Some s → now <= expiresAt s → m' !! k = None →
     maxSessions <= Z.of_nat (size (unexpired now m)) ∧ ∀ k' s', m' !! k' = Some s' → expiresAt s <= expiresAt s').
Proof.
  intros Hok m'. unfold m', pruneSessionsLocked. set (u := unexpired now m).
  assert (tokens_ok u) as Hu by (apply map_lookup_filter_None; by left).
  destruct (evict_spec (size u) u Hu ltac:(done)) as (Hsub & Hb & Hid & Hord).
  split; [etrans; [exact Hsub | apply map_filter_subseteq]|]. split; [done|]. split.
  - intros k s Hk. eapply lookup_weaken in Hk; [|exact Hsub]. by apply map_lookup_filter_Some in Hk as [_ ?].
  - intros k s Hk Hlive Hn. assert (u !! k = Some s) as Hks by (by apply map_lookup_filter_Some).
    split; [|intros k' s' Hk'; by eapply Hord]. destruct (Z.leb_spec maxSessions (Z.of_nat (size u))); [done|].
    rewrite Hid in Hn by lia. congruence.
Qed.

Lemma sessions_ok_subseteq m m' : sessions_ok m → m' ⊆ m → sessions_ok m'.
Proof.
  intros [Ht Hb] Hs. split.
  - unfold tokens_ok in *. destruct (m' !! "") eqn:Hm; [|done]. eapply lookup_weaken in Hm; [|exact Hs]. congruence.
  - apply map_subseteq_size in Hs. lia.
Qed.

Definition op_effect {R} (op : SessionOp R) (m : Sessions) : R → Sessions → Prop :=
  match op with
  | CheckSession token now => λ r _, r = true ↔ ∃ s, m !! token = Some s ∧ now <= expiresAt s
  | Login now token s => λ _ m', m' !! token = Some s ∧
      ∀ k, k ≠ token → match m' !! k with
        | Some s' => m !! k = Some s' ∧ now <= expiresAt s'
        | None => ∀ s', m !! k = Some s' → now <= expiresAt s' →
            maxSessions <= Z.of_nat (size (unexpired now m)) ∧
            ∀ k' s'', k' ≠ token → m' !! k' = Some s'' → expiresAt s' <= expiresAt s''
        end
  | _ => λ _ _, True
  end.

(** C23: the session map.  Every critical section keeps it within its cap of 1024
    sessions.  A login registers its session; no other is added or changed, an
    expired one is dropped, and one that is still valid is dropped only if the
    cap is reached, and then none that expires earlier stays.  A check answers
    whether the session is there and still valid. *)
Theorem session_do_keeps_cap {R} (op : SessionOp R) (m : Sessions) :
  sessions_ok m → op_ok op → sessions_ok (session_do op m).2 ∧ op_effect op m (session_do op m).1 (session_do op m).2.
Proof.
  intros Hok Hop. destruct op as [token now|token now|now token s|token|now]; cbn [session_do op_effect].
  - destruct (m !! token) as [sess|] eqn:Hm; [|split; [done|]; split; [done | intros (? & ? & _); congruence]].
    destruct (Z.ltb_spec (expiresAt sess) now); cbn [fst snd].
    + split; [by eapply sessions_ok_subseteq, delete_subseteq|]. split; [done|]. intros (s & Hs & ?). simplify_eq. lia.
    + split; [done|]. split; [intros _; by exists sess | done].
  - destruct (m !! token) as [sess|]; [|done]. by destruct (_ <? _).
  - destruct (prune_spec now m (sessions_tokens _ Hok)) as (Hsub & Hb & Hlive & Hord). split.
    + split; [unfold tokens_ok; cbn; rewrite lookup_insert_ne by done|].
      * apply (sessions_ok_subseteq _ _ Hok Hsub).
      * cbn. rewrite map_size_insert. destruct (_ !! token); unfold id; lia.
    + split; [apply lookup_insert_eq|]. intros k Hk. cbn. rewrite lookup_insert_ne by done.
      destruct (pruneSessionsLocked now m !! k) as [s'|] eqn:Hp.
      * split; [by eapply lookup_weaken | by eapply Hlive].
      * intros s' Hs' Hv. destruct (Hord k s' Hs' Hv Hp) as [Hc Ho]. split; [done|]. intros k' s'' Hk'.
        rewrite lookup_insert_ne by done. by apply Ho.
  - split; [by eapply sessions_ok_subseteq, delete_subseteq | done].
  - split; [|done]. eapply sessions_ok_subseteq; [done|]. by apply prune_spec, Hok.
Qed.
End Sessions.

(** ** What a request may do *)

Section Requests.
Context `{HRange : MapRange} (s : Server) (r : HttpRequest).

(** The caller's session was found valid. *)
Definition authenticated (h : History UiCall) : Prop :=
  authDisabled s = true ∨
  ∃ token now, req_Cookie r = Cookie token ∧ asked (SessionDo (CheckSession token now)) h (λ ok, ok = true).

(** The form carries the token that belongs to the caller. *)
Definition genuine (form : gmap string string) (h : History UiCall) : Prop :=
  let t := FormValue form "csrf_token" in
  t ≠ "" ∧ (authDisabled s = true ∧ t = ui_csrfToken s ∨
    ∃ token now, req_Cookie r = Cookie token ∧ asked (SessionDo (TokenOf token now)) h (λ a, a = t)).

Definition admitted (form : gmap string string) (h : History UiCall) : Prop :=
  req_Method r = "POST" ∧ req_Form r = Ok form ∧ authenticated h ∧ genuine form h ∧
  (has_leader_check s = true → asked IsLeader h (λ a, a = true)).

(** The Service holds the address of the form, for the project of this
    controller. *)
Definition may_delete (f : ReleaseForm) (h : History UiCall) : Prop :=
  is_some (ParseIP (rf_ip f)) = true ∧
  asked (OnCluster (GetService (rf_ns f) (rf_name f))) h (λ a, ∃ svc, a = Ok svc ∧
    svc_ann svc floatingIPAnnotation = rf_ip f ∧
    (svc_ann svc projectAnnotation = "" ∨ svc_ann svc projectAnnotation = ui_project s)).

(** The claim of a Service that is gone, under the identity of this controller. *)
Definition may_release_claim (f : ReleaseForm) (client : IPAMClient) (a : FipArgs) (h : History UiCall) : Prop :=
  client = ui_client s ∧
  a = mkFipArgs (ui_clientSecret s) (ui_cluster s) (ui_project s) (rf_pool f) (rf_ns f) (rf_name f) (rf_ip f) (rf_group f) ∧
  is_some (ParseIP (rf_ip f)) = true ∧
  asked (OnCluster (GetService (rf_ns f) (rf_name f))) h NotFoundErr.

Definition ui_guard (path : string) (h : History UiCall) (R : Type) (c : UiCall R) : Prop :=
  match c with
  | OnCluster (DeleteService ns name) =>
      path = "/release" ∧ ∃ form, admitted form h ∧
        let f := release_form form in ns = rf_ns f ∧ name = rf_name f ∧ may_delete f h
  | OnCluster (ReleaseFIP client a) =>
      path = "/release" ∧ ∃ form, admitted form h ∧ may_release_claim (release_form form) client a h
  | OnCluster (GetService _ _) => path = "/release"
  | OnCluster (ListFIPs_ client a) => authenticated h ∧ client = ui_client s ∧ la_ClientSecret a = ui_clientSecret s
  | OnCluster _ => False
  | DeleteFIP_ client clientSecret project ipaddr =>
      path = "/remove" ∧ (∃ form, admitted form h ∧ ipaddr = FormValue form "ipaddr") ∧
        is_some (ParseIP ipaddr) = true ∧ client = ui_client s ∧ clientSecret = ui_clientSecret s ∧ project = ui_project s
  | SessionDo (Login _ token _) =>
      path = "/login" ∧ req_Method r = "POST" ∧ ∃ form, req_Form r = Ok form ∧
        FormValue form "username" = username s ∧ FormValue form "password" = password s
  | SessionDo (Logout token) => ∃ form, req_Cookie r = Cookie token ∧ req_Form r = Ok form ∧ genuine form h
  | _ => True
  end.

Lemma authenticated_extends h h' : extends h h' → authenticated h → authenticated h'.
Proof. intros Hh [?|(t & n & ? & ?)]; [by left|]. right. exists t, n. split; [done|]. by eapply asked_extends. Qed.

Lemma genuine_extends form h h' : extends h h' → genuine form h → genuine form h'.
Proof.
  intros Hh [? [?|(t & n & ? & ?)]]; (split; [done|]); [by left|]. right. exists t, n. split; [done|]. by eapply asked_extends.
Qed.

Lemma admitted_extends form h h' : extends h h' → admitted form h → admitted form h'.
Proof.
  intros Hh (? & ? & ? & ? & Hl). split; [done|]. split; [done|]. split; [by eapply authenticated_extends|].
  split; [by eapply genuine_extends|]. intros Hc. eapply asked_extends; [done | by apply Hl].
Qed.

Definition anything {A} (_ : A) (_ : History UiCall) : Prop := True.

Context (path : string).
Notation G := (ui_guard path).

Ltac wcall := apply wp_call_then; [done|].

Lemma wp_withAuth next h :
  (∀ h', authenticated h' → wp G (next r) anything h') → wp G (withAuth s next r) anything h.
Proof.
  intros Hn. unfold withAuth. destruct (authDisabled s) eqn:Ha; [apply Hn; by left|].
  destruct (req_Cookie r) as [token| |] eqn:Hc; [|done..]. wcall. intros now. wcall. intros [|]; [|done].
  apply Hn. right. exists token, now. split; [done|]. by apply asked_cons.
Qed.

Lemma wp_csrfTokenFor h :
  wp G (csrfTokenFor s r) (λ t h', t ≠ "" → authDisabled s = true ∧ t = ui_csrfToken s ∨
    ∃ token now, req_Cookie r = Cookie token ∧ asked (SessionDo (TokenOf token now)) h' (λ a, a = t)) h.
Proof.
  unfold csrfTokenFor. destruct (authDisabled s); [apply wp_ret; by left|].
  destruct (req_Cookie r) as [token| |]; [|by apply wp_ret..]. wcall. intros now. apply wp_call; [done|].
  intros t _. right. exists token, now. split; [done|]. by apply asked_cons.
Qed.

Lemma wp_validCSRF form h : wp G (validCSRF s r form) (λ ok h', ok = true → genuine form h') h.
Proof.
  unfold validCSRF. eapply wp_seq; [apply wp_csrfTokenFor|]. intros t h' Ht _. apply wp_ret.
  case_bool_decide; [done|]. case_bool_decide; [done|]. cbn [orb]. intros Heq. bool_hyps. split; [done|].
  rewrite Heq. by apply Ht.
Qed.

Lemma wp_mutating k h :
  authenticated h →
  (∀ form h', admitted form h' → wp G (k form) anything h') → wp G (mutating s r k) anything h.
Proof.
  intros Ha Hk. unfold mutating. case_bool_decide as Hm; cbn [negb]; [|done].
  eapply wp_seq with (P := λ x h', x = None → has_leader_check s = true → asked IsLeader h' (λ a, a = true)).
  { unfold requireLeader, leaderReplica. destruct (has_leader_check s); [|by apply wp_ret]. wcall. intros [|].
    - apply wp_ret. intros _ _. by apply asked_cons.
    - wcall. intros []. by apply wp_ret. }
  intros [reply|] h1 Hl Hh1; [done|]. destruct (req_Form r) as [form|] eqn:Hf; [|done].
  eapply wp_seq; [apply wp_validCSRF|]. intros [|] h2 Hg Hh2; cbn [negb]; [|done]. apply Hk.
  split; [done|]. split; [done|]. split; [eapply authenticated_extends, Ha; by etrans|]. split; [by apply Hg|].
  intros Hc. eapply asked_extends; [exact Hh2 | by apply Hl].
Qed.

Lemma wp_poll_gone fuel ns name h :
  path = "/release" →
  wp G (poll_gone fuel ns name) (λ x h', x = Ok tt → asked (OnCluster (GetService ns name)) h' NotFoundErr) h.
Proof.
  intros Hp. revert h. induction fuel as [|fuel IH]; intros h; cbn [poll_gone]; [by apply wp_ret|].
  apply wp_call_then; [exact Hp|]. intros [svc|e].
  - wcall. intros [[]|e]; [apply IH | by apply wp_ret].
  - destruct (IsNotFound e) eqn:He; apply wp_ret; [|done]. intros _. apply asked_cons. by exists e.
Qed.

Lemma wp_release_submitted form h :
  path = "/release" → admitted form h → wp G (release_submitted s form) anything h.
Proof.
  intros Hp Ha. unfold release_submitted. set (f := release_form form). destruct (first_form_error _); [done|].
  destruct (is_some (ParseIP (rf_ip f))) eqn:Hip; cbn [negb]; [|done].
  assert (∀ h' (k : res unit → Prog UiCall UiReply), extends h h' →
    asked (OnCluster (GetService (rf_ns f) (rf_name f))) h' NotFoundErr →
    (∀ x h', wp G (k x) anything h') → wp G (pbind (release_claim s f) k) anything h') as Hclaim.
  { intros h' k Hh Hs Hk. apply wp_call_then; [|intros x; apply Hk]. split; [done|]. exists form.
    split; [by eapply admitted_extends | done]. }
  apply wp_call_then; [exact Hp|]. intros [svc|e].
  - unfold release_service. case_bool_decide as Hann; cbn [negb]; [|done].
    destruct (negb _ && negb _) eqn:Hproj; [done|]. apply wp_call_then.
    + split; [done|]. exists form. split; [eapply admitted_extends, Ha; by apply extends_cons|].
      split; [done|]. split; [done|]. split; [done|]. apply asked_cons. exists svc. split; [done|]. split; [done|].
      apply andb_false_iff in Hproj as [Hproj|Hproj]; bool_hyps; [by left | by right].
    + intros [[]|e]; [|done]. eapply wp_seq; [by apply wp_poll_gone|]. intros [[]|e] h1 Hg Hh1; [|done].
      apply Hclaim; [etrans; [|exact Hh1]; by do 2 apply extends_cons | by apply Hg | by intros [|]].
  - destruct (IsNotFound e) eqn:He; cbn [negb]; [|done].
    apply Hclaim; [by apply extends_cons | apply asked_cons; by exists e | by intros [|]].
Qed.

Lemma wp_remove_submitted form h :
  path = "/remove" → admitted form h → wp G (remove_submitted s form) anything h.
Proof.
  intros Hp Ha. unfold remove_submitted. destruct (form_field_error _ _); [done|].
  destruct (is_some _) eqn:Hip; cbn [negb]; [|done]. apply wp_call_then; [|by intros [|]].
  split; [done|]. split; [by exists form | done].
Qed.

Lemma wp_handleFIPList h : authenticated h → wp G (handleFIPList s r) anything h.
Proof.
  intros Ha. unfold handleFIPList. eapply wp_seq with (P := anything).
  - clear -Ha. revert h Ha. induction (floatingIPPools s) as [|pool pools IH]; intros h Ha; [done|]. cbn [list_pools].
    apply wp_call_then; [done|]. intros [fips|]; [|done].
    eapply wp_seq; [apply IH; eapply authenticated_extends, Ha; by apply extends_cons|]. by intros [|].
  - intros [fips|e] h' _ _; [|done]. eapply wp_seq; [apply wp_csrfTokenFor|]. done.
Qed.

Lemma wp_handleLogin h : path = "/login" → wp G (handleLogin s r) anything h.
Proof.
  intros Hp. unfold handleLogin. case_bool_decide; [done|]. case_bool_decide as Hm; [|done].
  destruct (req_Form r) as [form|] eqn:Hf; [|done]. destruct (_ && _) eqn:Hc; [|done]. bool_hyps.
  eapply wp_seq with (P := anything).
  { unfold newSession. wcall. intros [t|]; [|done]. wcall. by intros [|]. }
  intros [[token csrf]|] h' _ _; [|done]. wcall. intros now. wcall. intros now2.
  apply wp_call_then; [split; [done|]; split; [done|]; by exists form|]. intros [].
  apply wp_call_then; [done|]. done.
Qed.

Lemma wp_handleLogout h : wp G (handleLogout s r) anything h.
Proof.
  unfold handleLogout. case_goal; [done|]. destruct (req_Form r) as [form|] eqn:Hf; [|done].
  eapply wp_seq; [apply wp_validCSRF|]. intros [|] h1 Hg _; cbn [negb]; [|done].
  destruct (req_Cookie r) as [token| |] eqn:Hc; [|done..].
  apply wp_call_then; [exists form; split; [done|]; split; [done | by apply Hg]|]. intros []. by wcall.
Qed.
End Requests.

