(* ===== verification/LbServe.v ===== *)
(** The listeners of the load-balancer controller, [Start], [ServeHealth] and [serve]
    of [lbcontroller/pkg/http/server.go]: the page and the probes, until the context
    is done.

    What the requests to the page do is in [LbServer]. *)

From stdpp Require Import functions.
From S2P Require Import Prelude Prog GoStd ApiTypes HttpServer RelyGuarantee Goroutines.

Inductive PageRoutine :=
| PageR                               (* [Start], or [ServeHealth] *)
| PageAcceptR                         (* accepts *)
| PageJanitorR.                       (* sweeps the sessions *)
Inductive PageChannel := PageReady | ServeErr.

#[export] Instance PageRoutine_eq : EqDecision PageRoutine.
Proof. solve_decision. Defined.
#[export] Instance PageChannel_eq : EqDecision PageChannel.
Proof. solve_decision. Defined.

Abbreviation PageGo := (GoState PageRoutine PageChannel Empty_set unit).
Abbreviation PageGoCall := (GoCall PageRoutine PageChannel Empty_set unit).

Inductive PageCall : Type → Type :=
| PPrim {R} (c : PageGoCall R) : PageCall R
| PSrv {R} (c : ServerCall R) : PageCall R
| PPutErr (err : option error) : PageCall unit            (* the value that is sent into [serveErr] *)
| PTakeErr : PageCall (option error)                      (* ... and received *)
| PPrune : PageCall unit.                                 (* [pruneSessionsLocked] *)

Record PageLife := mkPageLife {
  pgo : PageGo;
  page : HttpServer;
  serveErr : option (option error);                       (* what was put into the channel *)
  phist : list (PageRoutine * Ev PageCall)
}.

Definition sweepInterval : time := 10 * (60 * 10 ^ 9).
Definition pageShutdownTimeout : time := 10 * 10 ^ 9.

Section Code.
#[local] Open Scope prog_scope.

(** [Serve] of [net/http], and what it returns is sent. *)
Definition page_accept : Prog PageCall unit :=
  let! ok := call (PSrv Track) in
  let! err := (if ok : bool then call (PSrv AcceptLoop) else Ret None) in
  call (PPutErr err) ;;; call (PPrim (Send ServeErr)).

Definition page_serve : Prog PageCall (option error) :=
  call (PPrim (Go PageAcceptR)) ;;;
  let! i := call (PPrim (Select [Recv ServeErr; OnDone tt] false)) in
  if bool_decide (i = Some 0%nat) then
    let! err : option error := call PTakeErr in
    Ret (wrapf "http server stopped" <$> err)
  else
    call (PSrv BeginShutdown) ;;;
    let! ok := call (PSrv (AwaitIdle pageShutdownTimeout)) in
    Ret (if ok : bool then None else Some (wrapf "http server shutdown" (mkErr KDeadlineExceeded "context deadline exceeded"))).

Definition page_Start (port : Z) : Prog PageCall (option error) :=
  let! err := call (PSrv Listen) in
  match err with
  | Some err => Ret (Some (wrapf ("failed to listen on :" +:+ itoa port) err))
  | None => call (PPrim (Close PageReady)) ;;; call (PPrim (Go PageJanitorR)) ;;; page_serve
  end.

Definition ServeHealth (port : Z) : Prog PageCall (option error) :=
  let! err := call (PSrv Listen) in
  match err with Some err => Ret (Some (wrapf ("failed to listen on :" +:+ itoa port) err)) | None => page_serve end.

(** The sweeps, for a number of rounds. *)
Fixpoint runSessionJanitor (rounds : nat) : Prog PageCall unit :=
  match rounds with
  | O => Ret tt
  | S rounds =>
      let! i := call (PPrim (Select [OnDone tt; Timer sweepInterval] false)) in
      if bool_decide (i = Some 0%nat) then Ret tt else call PPrune ;;; runSessionJanitor rounds
  end.

Definition page_body (health : bool) (port : Z) (rounds : nat) (r : PageRoutine) : Prog PageCall (option error) :=
  call (PPrim Begin) ;;;
  match r with
  | PageR => if health then ServeHealth port else page_Start port
  | PageAcceptR => page_accept ;;; Ret None
  | PageJanitorR => runSessionJanitor rounds ;;; Ret None
  end.

Definition page_routines : list PageRoutine := [PageR; PageAcceptR; PageJanitorR].
End Code.

(** ** What the calls do *)

Definition set_pgo (g : PageGo) (s : PageLife) : PageLife := mkPageLife g (page s) (serveErr s) (phist s).
Definition set_page (x : HttpServer) (s : PageLife) : PageLife := mkPageLife (pgo s) x (serveErr s) (phist s).
Definition set_serveErr (e : option error) (s : PageLife) : PageLife := mkPageLife (pgo s) (page s) (Some e) (phist s).
Definition page_record {R} (r : PageRoutine) (c : PageCall R) (x : R) (s : PageLife) : PageLife :=
  mkPageLife (pgo s) (page s) (serveErr s) ((r, mkEv c x) :: phist s).

(** The server is started, its context ends, and requests come. *)
Inductive page_environment : PageLife → PageLife → Prop :=
| penv_start s : PageR ∉ started (pgo s) → page_environment s (set_pgo (start PageR (pgo s)) s)
| penv_stop s : page_environment s (set_pgo (cancel tt (pgo s)) s)
| penv_server x s : server_env (page s) x → page_environment s (set_page x s).

Inductive page_effect (r : PageRoutine) : ∀ R, PageCall R → PageLife → R → PageLife → Prop :=
| peff_prim R (c : PageGoCall R) s x g : go_answers r R c (pgo s) x g → page_effect r R (PPrim c) s x (set_pgo g s)
| peff_server R (c : ServerCall R) s x y : server_answers R c (page s) x y → page_effect r R (PSrv c) s x (set_page y s)
| peff_put err s : page_effect r _ (PPutErr err) s tt (set_serveErr err s)
| peff_take s err : serveErr s = Some err → page_effect r _ PTakeErr s err s
| peff_prune s : page_effect r _ PPrune s tt s.

Inductive page_answered (r : PageRoutine) (R : Type) (c : PageCall R) (s : PageLife) (x : R) : PageLife → Prop :=
| page_answered_call s' : page_effect r R c s x s' → page_answered r R c s x (page_record r c x s').

Definition PageConfig : Type := Config (S := PageLife) (E := PageCall) (A := option error).
Definition page_init_life : PageLife := mkPageLife go_init new_server None [].
Definition page_init (health : bool) (port : Z) (rounds : nat) : PageConfig := (page_body health port rounds <$> page_routines, page_init_life).
Definition page_runs : PageConfig → PageConfig → Prop := runs page_answered page_environment page_routines.

(** * What holds of the listeners *)

Implicit Types (s : PageLife) (r : PageRoutine) (err : option error).

Definition page_starter (q : PageRoutine) : option PageRoutine :=
  match q with PageR => None | PageAcceptR | PageJanitorR => Some PageR end.

Definition page_stopping s : Prop := cancelled (pgo s) tt = true.
Definition page_listened s : Prop := (PageR, mkEv (PSrv Listen) None) ∈ phist s.
Definition listen_failed s : Prop := ∃ e, (PageR, mkEv (PSrv Listen) (Some e)) ∈ phist s.
Definition accept_failed s : Prop := ∃ e, (PageAcceptR, mkEv (PSrv AcceptLoop) (Some e)) ∈ phist s.
Definition page_expired s : Prop := (PageR, mkEv (PSrv (AwaitIdle pageShutdownTimeout)) false) ∈ phist s.
Definition port_open s : Prop := bound (page s) = true ∨ page_stopping s ∨ accept_failed s.

(** What [Serve] returned. *)
Definition served err s : Prop :=
  match err with None => closing (page s) = true | Some _ => accept_failed s end.

Record PInv s : Prop := {
  p_ok : server_ok (page s);
  p_closing : closing (page s) = true → page_stopping s;
  p_ready : is_closed (chans (pgo s) PageReady) = true → page_listened s ∧ port_open s;
  p_open : is_closed (chans (pgo s) ServeErr) = false;
  p_sent : (0 < buffered (chans (pgo s) ServeErr))%nat → serveErr s ≠ None;
  p_err err : serveErr s = Some err → served err s;
  p_cut : cut (page s) = 0%nat
}.

Record prely r s s' : Prop := {
  pr_past e : e ∈ phist s → e ∈ phist s';
  pr_stopping : page_stopping s → page_stopping s';
  pr_started q : q ∈ started (pgo s) → q ∈ started (pgo s');
  pr_starter q : page_starter q = Some r → q ∈ started (pgo s') → q ∈ started (pgo s);
  pr_server : server_later (page s) (page s');
  pr_err : serveErr s ≠ None → serveErr s' ≠ None;
  pr_closing : r = PageR → closing (page s') = true → closing (page s) = true;
  pr_ready : r = PageR → is_closed (chans (pgo s') PageReady) = is_closed (chans (pgo s) PageReady);
  pr_port : r = PageR → port_open s → port_open s';
  pr_send : r = PageAcceptR → serveErr s' = serveErr s ∧
    (buffered (chans (pgo s') ServeErr) ≤ buffered (chans (pgo s) ServeErr))%nat
}.

#[export] Instance prely_preorder r : PreOrder (prely r).
Proof.
  split; [by split; auto|]. intros s1 s2 s3 H1 H2.
  split; try (intros; apply H2, H1; done); try (intros; apply H1; [done|]; by apply H2).
  - etrans; [apply H1 | apply H2].
  - intros Hr. by rewrite (pr_ready _ _ _ H2 Hr), (pr_ready _ _ _ H1 Hr).
  - intros Hr. destruct (pr_send _ _ _ H2 Hr) as [-> Hb'], (pr_send _ _ _ H1 Hr) as [-> Hb]. split; [done | lia].
Qed.

Lemma accept_failed_mono s s' : (∀ e, e ∈ phist s → e ∈ phist s') → accept_failed s → accept_failed s'.
Proof. intros H [err He]. exists err. auto. Qed.

Lemma served_mono err s s' : (∀ e, e ∈ phist s → e ∈ phist s') → server_later (page s) (page s') → served err s → served err s'.
Proof. intros H Hl. destruct err; cbn; [by apply accept_failed_mono | by apply Hl]. Qed.

(** ** What is known at a call *)

Definition p_at_prim r {R} (k : PageGoCall R) s : Prop :=
  match k with
  | Begin => True
  | Go q => page_starter q = Some r ∧ q ∉ started (pgo s)
  | Close ch => ch = PageReady ∧ r = PageR ∧ is_closed (chans (pgo s) ch) = false ∧ page_listened s ∧ port_open s
  | Send ch => ch = ServeErr ∧ r = PageAcceptR ∧ buffered (chans (pgo s) ch) = 0%nat ∧ serveErr s ≠ None
  | Select cases default => default = false ∧ OnDone tt ∈ cases
  | _ => False
  end.

Definition p_at_server r {R} (k : ServerCall R) s : Prop :=
  match k with
  | Listen | Track | AwaitIdle _ => True
  | AcceptLoop => r = PageAcceptR ∧ serveErr s = None
  | BeginShutdown => r = PageR ∧ page_stopping s
  | CloseServer => False
  end.

Definition p_at r R (k : PageCall R) s : Prop :=
  match k with
  | PPrim k => p_at_prim r k s
  | PSrv k => p_at_server r k s
  | PPutErr err => r = PageAcceptR ∧ serveErr s = None ∧ served err s
  | PTakeErr => serveErr s ≠ None
  | PPrune => True
  end.

Lemma p_at_rely r R (k : PageCall R) s s' : p_at r R k s → prely r s s' → p_at r R k s'.
Proof.
  intros Hk H. destruct k as [R k|R k|err| |]; cbn in *; [| | | by apply H | done].
  - destruct k; cbn in *; try done.
    + destruct Hk as [Hq Hn]. split; [done|]. intros Hi. by apply Hn, (pr_starter _ _ _ H).
    + destruct Hk as (-> & -> & Hc & Hl & Hp). split_and!; [done | done | by rewrite (pr_ready _ _ _ H) | by apply H | by apply H].
    + destruct Hk as (-> & -> & Hb & He). destruct (pr_send _ _ _ H eq_refl) as [_ Hb'].
      split_and!; [done | done | lia | by apply H].
  - destruct k; cbn in *; try done.
    + destruct Hk as [-> He]. split; [done|]. by rewrite (proj1 (pr_send _ _ _ H eq_refl)).
    + destruct Hk. split; [done | by apply H].
  - destruct Hk as (-> & He & Hs). split_and!; [done | by rewrite (proj1 (pr_send _ _ _ H eq_refl)) |].
    eapply served_mono; [apply H | apply H | done].
Qed.

(** ** The step *)

Lemma p_record_rely r r' {R} (k : PageCall R) x s s' : prely r' s s' → prely r' s (page_record r k x s').
Proof.
  intros H. assert (∀ e, e ∈ phist s' → e ∈ phist (page_record r k x s')) as Hm by (intros e; apply list_elem_of_further).
  split; try apply H; [intros e He; by apply Hm, H|].
  intros Hr Hp. destruct (pr_port _ _ _ H Hr Hp) as [?|[?|?]]; [by left | by right; left | right; right].
  by eapply accept_failed_mono.
Qed.

Lemma port_open_mono s s' : (∀ e, e ∈ phist s → e ∈ phist s') → (page_stopping s → page_stopping s') →
  (bound (page s) = true → bound (page s') = true) → port_open s → port_open s'.
Proof. intros H Hs Hb [?|[?|?]]; [left; auto | right; left; auto | right; right; by eapply accept_failed_mono]. Qed.

Lemma p_record_Inv r {R} (k : PageCall R) x s : PInv s → PInv (page_record r k x s).
Proof.
  assert (∀ e, e ∈ phist s → e ∈ phist (page_record r k x s)) as Hm by (intros e; apply list_elem_of_further).
  intros HI. split; try apply HI.
  - intros Hr. destruct (p_ready _ HI Hr) as [Hl Hp]. split; [by apply Hm | by eapply port_open_mono].
  - intros err He. eapply served_mono; [exact Hm | done | by apply HI].
Qed.

(** A state that differs in its goroutines, its channels and its context. *)
Lemma p_go_Inv g s : PInv s → (page_stopping s → cancelled g tt = true) →
  (is_closed (chans g PageReady) = true → is_closed (chans (pgo s) PageReady) = true ∨ page_listened s ∧ port_open s) →
  is_closed (chans g ServeErr) = false →
  ((0 < buffered (chans g ServeErr))%nat → serveErr s ≠ None) → PInv (set_pgo g s).
Proof.
  intros HI Hst Hr Ho Hs. split; try apply HI; [intros Hc; by apply Hst, HI | | exact Ho | exact Hs].
  intros Hc. assert (page_listened s ∧ port_open s) as [Hl Hp] by (destruct (Hr Hc); [by apply HI | done]).
  split; [exact Hl | revert Hp; by apply port_open_mono].
Qed.

Lemma p_go_rely r g s : (∀ q, q ∈ started (pgo s) → q ∈ started g) →
  (∀ q, page_starter q = Some r → q ∈ started g → q ∈ started (pgo s)) → (page_stopping s → cancelled g tt = true) →
  (r = PageR → is_closed (chans g PageReady) = is_closed (chans (pgo s) PageReady)) →
  (r = PageAcceptR → (buffered (chans g ServeErr) ≤ buffered (chans (pgo s) ServeErr))%nat) → prely r s (set_pgo g s).
Proof.
  intros Hst Hq Hc Hr Hb. split; try done; [intros _ | by split; auto].
  by apply port_open_mono.
Qed.

Lemma chans_set ch ch' x (g : PageGo) : chans (set_chan ch x g) ch' = if decide (ch = ch') then x else chans g ch'.
Proof. done. Qed.

Lemma p_prim_respects r R (k : PageGoCall R) s x g : PInv s → p_at_prim r k s → go_answers r R k (pgo s) x g →
  PInv (set_pgo g s) ∧ ∀ r', r' ≠ r → prely r' s (set_pgo g s).
Proof.
  intros HI Hk Ha. revert Hk. remember (pgo s) as g0 eqn:Hg. revert Hg.
  destruct Ha as [g Hb | q g Hq | ch g Hc | ch g Hc Hb | cases default i gd g Hi Hr | cases g Hn | c g | c g | w g | w g Hl | w g Hl | g];
    intros -> Hk; cbn in Hk; try done.
  - split; [apply p_go_Inv | intros; apply p_go_rely]; try done; try apply HI. by left.
  - destruct Hk as [Hs _]. split.
    + apply p_go_Inv; try done; try apply HI. by left.
    + intros r' Hr'. apply p_go_rely; try done; [intros; by apply list_elem_of_further|].
      intros q' Hq' [->|Hi]%elem_of_cons; [congruence | done].
  - destruct Hk as (-> & -> & _ & Hl & Hp). split.
    + apply p_go_Inv; rewrite ?chans_set, ?decide_False by done; try done; try apply HI. auto.
    + intros r' Hr'. apply p_go_rely; rewrite ?chans_set, ?decide_False by done; done.
  - destruct Hk as (-> & -> & _ & He). split.
    + apply p_go_Inv; rewrite ?chans_set, ?(decide_False (P := ServeErr = PageReady)), ?decide_True by done; try done; try apply HI. by left.
    + intros r' Hr'. apply p_go_rely; rewrite ?chans_set, ?decide_False by done; done.
  - assert (∀ ch, is_closed (chans (receive gd (pgo s)) ch) = is_closed (chans (pgo s) ch) ∧
      (buffered (chans (receive gd (pgo s)) ch) ≤ buffered (chans (pgo s) ch))%nat) as Hch.
    { intros ch. destruct gd as [ch'| |]; cbn [receive]; try done. rewrite chans_set. case_decide; subst; cbn; [split; [done | lia] | done]. }
    assert (started (receive gd (pgo s)) = started (pgo s) ∧ cancelled (receive gd (pgo s)) = cancelled (pgo s)) as [Hs Hcl] by (by destruct gd).
    split; [apply p_go_Inv | intros; apply p_go_rely]; rewrite ?Hs, ?Hcl, ?(proj1 (Hch _)); try done; try apply HI; try (by left).
    + intros Hb. apply HI. pose proof (proj2 (Hch ServeErr)). lia.
    + intros _. apply Hch.
  - by destruct Hk.
Qed.

(** A call of the server. *)
Lemma p_server_respects r R (k : ServerCall R) s x y : PInv s → p_at_server r k s → server_answers R k (page s) x y →
  PInv (page_record r (PSrv k) x (set_page y s)) ∧ ∀ r', r' ≠ r → prely r' s (page_record r (PSrv k) x (set_page y s)).
Proof.
  intros HI Hk Ha. destruct (server_answers_later _ _ _ _ _ (p_ok _ HI) Ha) as [Hl Hok].
  set (s' := page_record r (PSrv k) x (set_page y s)).
  assert (∀ e, e ∈ phist s → e ∈ phist s') as Hm by (intros e; apply list_elem_of_further).
  assert (port_open s → port_open s') as Hport.
  { assert (closing (page s) = true → page_stopping s') as Hcl by (intros; by apply (p_closing _ HI)).
    intros [Hb|[?|?]]; [| by right; left | right; right; by eapply accept_failed_mono].
    subst s'. unfold port_open. revert Hb Hk Hcl. clear Hm Hl Hok.
    destruct Ha; cbn; intros Hb Hk Hcl; auto; try (by left); try (right; left; tauto).
    right; right. destruct Hk as [-> _]. eexists. left. }
  assert (closing y = true → closing (page s) = true ∨ r = PageR ∧ page_stopping s) as Hc.
  { revert Hk. clear -Ha. destruct Ha; cbn; auto; try done. }
  split.
  - split; [exact Hok | | | apply HI | apply HI | |].
    + intros Hy. destruct (Hc Hy) as [?|[_ ?]]; [by apply (p_closing _ HI) | done].
    + intros Hr. destruct (p_ready _ HI Hr) as [Hl' Hp]. split; [by apply Hm | by apply Hport].
    + intros err He. eapply served_mono; [exact Hm | exact Hl | by apply HI].
    + pose proof (server_cut _ _ _ _ _ Ha) as Hcut. destruct k; try (change (cut y = 0%nat); rewrite Hcut; apply HI). done.
  - intros r' Hr'. split; try done.
    intros -> Hy. destruct (Hc Hy) as [?|[-> _]]; done.
Qed.

Lemma p_calls_respect r R (k : PageCall R) s x s' : PInv s → p_at r R k s → page_answered r R k s x s' →
  PInv s' ∧ ∀ r', r' ≠ r → prely r' s s'.
Proof.
  intros HI Hk [s1 He]. destruct He as [R k s x g Ha | R k s x y Ha | err s | s err He | s]; cbn in Hk.
  - destruct (p_prim_respects _ _ _ _ _ _ HI Hk Ha) as [HI' Hr].
    split; [by apply p_record_Inv | intros; by apply p_record_rely, Hr].
  - by apply p_server_respects.
  - destruct Hk as (-> & Hn & He). split; [apply p_record_Inv | intros; apply p_record_rely].
    + split; try apply HI; [done|]. intros err' [= <-]. exact He.
    + by split.
  - split; [by apply p_record_Inv | intros; by apply p_record_rely].
  - split; [by apply p_record_Inv | intros; by apply p_record_rely].
Qed.

Lemma p_environment_respects s s' : PInv s → page_environment s s' → PInv s' ∧ ∀ r, prely r s s'.
Proof.
  intros HI He. destruct He as [s Hn | s | x s Hx].
  - split; [apply p_go_Inv; try done; try apply HI; by left|]. intros r. apply p_go_rely; try done.
    + intros; by apply list_elem_of_further.
    + intros q Hq [->|Hi]%elem_of_cons; done.
  - split; [apply p_go_Inv; try done; try apply HI; by left | intros; by apply p_go_rely].
  - destruct (server_env_later _ _ (p_ok _ HI) Hx) as [Hl Hok].
    assert (bound x = bound (page s) ∧ closing x = closing (page s) ∧ cut x = cut (page s)) as (Hb & Hc & Hcut) by (by destruct Hx).
    assert (port_open s → port_open (set_page x s)) as Hp by (apply port_open_mono; cbn; [done | done | congruence]).
    split; [split; cbn; try done; try apply HI | intros r; split; try done].
    + rewrite Hc. apply HI.
    + intros Hr. destruct (p_ready _ HI Hr). by split; [|apply Hp].
    + intros err He. apply (served_mono err s); [done | exact Hl | by apply HI].
    + rewrite Hcut. apply HI.
    + intros _ Hcl. by rewrite <- Hc.
Qed.

Lemma p_init_Inv : PInv page_init_life.
Proof. split; cbn; try done; lia. Qed.

(** ** The goroutines *)

Abbreviation pens := (ensures page_answered PInv prely p_at).

Definition p_after r {R} (k : PageCall R) s (x : R) s2 : Prop :=
  ∃ s', s2 = page_record r k x s' ∧
  match k in PageCall R return R → Prop with
  | PPrim k => λ x, ∃ g, go_after r k (pgo s) x g ∧ s' = set_pgo g s
  | PSrv k => λ x, ∃ y, server_after k (page s) x y ∧ s' = set_page y s
  | PPutErr err => λ _, s' = set_serveErr err s
  | PTakeErr => λ err, serveErr s = Some err ∧ s' = s
  | PPrune => λ _, s' = s
  end x.

Lemma p_answered_after r R (k : PageCall R) s x s2 : page_answered r R k s x s2 → p_after r k s x s2.
Proof.
  intros [s' He]. exists s'. split; [done|]. destruct He; cbn; eauto using go_answers_after, server_answers_after.
Qed.

Lemma pens_step r {R B} (k : PageCall R) (f : R → Prog PageCall B) P s : p_at r R k s →
  (∀ s1 x s2, prely r s s1 → PInv s1 → PInv s2 → p_after r k s1 x s2 → pens r (f x) P s2) →
  pens r (pbind (call k) f) P s.
Proof. intros Hk Hf. split; [done|]. intros s1 x s2 Hr H1 Ha H2. by eapply Hf; eauto using p_answered_after. Qed.

Lemma pens_last r {R} (k : PageCall R) (P : R → PageLife → Prop) s : p_at r R k s →
  (∀ s1 x s2, prely r s s1 → PInv s1 → PInv s2 → p_after r k s1 x s2 → P x s2) → pens r (call k) P s.
Proof. intros Hk Hf. split; [done|]. intros s1 x s2 Hr H1 Ha H2. by eapply Hf; eauto using p_answered_after. Qed.

(** The server is shut down and no request is left. *)
Definition page_drained s : Prop := page_stopping s ∧ closing (page s) = true ∧ active (page s) = 0%nat.

(** Why [Start] returns what it does. *)
Definition page_result (err : option error) s : Prop :=
  match err with None => page_drained s | Some _ => listen_failed s ∨ accept_failed s ∨ page_expired s end.

(** Nothing is left that [Serve] would wait for. *)
Definition serve_ends s : Prop := PageAcceptR ∈ started (pgo s) → closing (page s) = true ∨ serveErr s ≠ None.

Definition page_fin r err s : Prop := match r with PageR => page_result err s ∧ serve_ends s | _ => True end.

Lemma page_fin_rely r err s s' : page_fin r err s → prely r s s' → page_fin r err s'.
Proof.
  destruct r; try done. intros [Hp He] H. split.
  - destruct err as [e|]; cbn in *.
    + destruct Hp as [[e' He']|[Hf|He']]; [left; exists e'; by apply H | right; left; eapply accept_failed_mono; [apply H | done] | right; right; by apply H].
    + destruct Hp as (Hs & Hc & Ha). pose proof (later_active _ _ (pr_server _ _ _ H) Hc).
      split_and!; [by apply H | by apply (pr_server _ _ _ H) | lia].
  - intros Hi. destruct He as [Hc|Hn]; [by apply (pr_starter _ _ _ H) | left; by apply (pr_server _ _ _ H) | right; by apply H].
Qed.

Lemma page_accept_ok s : serveErr s = None → buffered (chans (pgo s) ServeErr) = 0%nat →
  pens PageAcceptR page_accept (λ _ _, True) s.
Proof.
  intros Hn Hb. apply pens_step; [done|]. intros s1 ok s2 Hr _ _ (s' & -> & y & Hy & ->).
  destruct (pr_send _ _ _ Hr eq_refl) as [Hn1 Hb1]. rewrite Hn in Hn1. rewrite Hb in Hb1.
  assert (∀ err s3, serveErr s3 = None → buffered (chans (pgo s3) ServeErr) = 0%nat → served err s3 →
    pens PageAcceptR (pbind (call (PPutErr err)) (λ _, call (PPrim (Send ServeErr)))) (λ _ _, True) s3) as Hput.
  { intros err s3 H3 H3' Hs. apply pens_step; [done|]. intros s4 [] s5 Hr' _ _ (s' & -> & ->).
    destruct (pr_send _ _ _ Hr' eq_refl) as [_ Hb']. apply pens_last; [|done].
    split_and!; [done | done | cbn; lia | done]. }
  destruct ok.
  - apply pens_step; [done|]. intros s3 err s4 Hr' _ _ (s' & -> & z & (_ & _ & Hz) & ->).
    destruct (pr_send _ _ _ Hr' eq_refl) as [Hn3 Hb3]. cbn in Hn3, Hb3.
    apply Hput; [by cbn; rewrite Hn3 | cbn; lia |].
    destruct err as [e|]; cbn; [exists e; left | by apply Hz].
  - apply Hput; [done | cbn; lia |]. cbn. by destruct Hy as [?|(_ & _ & ?)].
Qed.

(** The server of the page is open, and nobody accepts on it yet. *)
Definition page_fresh s : Prop := closing (page s) = false ∧ PageAcceptR ∉ started (pgo s).

Lemma page_closing_stays s s' : prely PageR s s' → closing (page s) = false → closing (page s') = false.
Proof.
  intros H Hc. destruct (closing (page s')) eqn:Hc'; [|done]. rewrite (pr_closing _ _ _ H eq_refl Hc') in Hc. done.
Qed.

Lemma page_fresh_rely s s' : prely PageR s s' → page_fresh s → page_fresh s'.
Proof.
  intros H [Hc Hn]. split; [by eapply page_closing_stays | intros Hi; by apply Hn, (pr_starter _ _ _ H)].
Qed.

Lemma page_serve_ok s : page_fresh s → pens PageR page_serve (page_fin PageR) s.
Proof.
  intros Hf. apply pens_step; [split; [done | apply Hf]|]. intros s1 [] s2 Hr _ _ (s' & -> & g & -> & ->).
  destruct (page_fresh_rely _ _ Hr Hf) as [Hc _]. clear Hf.
  apply pens_step; [split; [done | right; left]|]. intros s3 i s4 Hr' HI3 _ (s' & -> & g & Hg & ->).
  pose proof (page_closing_stays _ _ Hr' Hc) as Hc3. destruct i as [i|]; [|by destruct Hg].
  destruct Hg as (gd & Hi & Hgd & ->). destruct i as [|[|i]]; [| |done]; injection Hi as <-.
  - assert (serveErr s3 ≠ None) as He3.
    { apply (p_sent _ HI3). destruct Hgd as [?|Hcl]; [done | by rewrite (p_open _ HI3) in Hcl]. }
    apply pens_step; [done|]. intros s5 err s6 Hr5 HI5 HI6 (s' & -> & He5 & ->).
    pose proof (page_closing_stays _ _ Hr5 Hc3) as Hc5. pose proof (p_err _ HI6 _ He5) as Hs.
    destruct err as [e|]; [|cbn in *; congruence]. split; [right; by left | right; cbn; congruence].
  - apply pens_step; [by split|]. intros s5 [] s6 Hr5 _ _ (s' & -> & y & Hy & ->).
    apply pens_step; [done|]. intros s7 ok s8 Hr7 HI7 _ (s' & -> & z & [-> Hz] & ->).
    assert (closing (page s7) = true) as Hc7 by (apply (pr_server _ _ _ Hr7), Hy).
    destruct ok; (split; [|by left]).
    + split_and!; [by apply (p_closing _ HI7) | done | by apply Hz].
    + right; right. left.
Qed.

Lemma page_listen_ok s (f : option error → Prog PageCall (option error)) : page_fresh s →
  (∀ e, ∃ e', f (Some e) = Ret (Some e')) →
  (∀ s', page_fresh s' → page_listened s' → bound (page s') = true →
    is_closed (chans (pgo s') PageReady) = is_closed (chans (pgo s) PageReady) →
    (PageJanitorR ∈ started (pgo s') → PageJanitorR ∈ started (pgo s)) → pens PageR (f None) (page_fin PageR) s') →
  pens PageR (pbind (call (PSrv Listen)) f) (page_fin PageR) s.
Proof.
  intros Hf Hfail Hok. apply pens_step; [done|]. intros s1 err s2 Hr _ _ (s' & -> & y & Hy & ->).
  pose proof (page_fresh_rely _ _ Hr Hf) as Hf1. destruct err as [e|].
  - destruct (Hfail e) as [e' ->]. split; [left; exists e; left | intros Hi; by apply Hf1 in Hi].
  - destruct Hy as [Hb Hc]. apply Hok; [| left | exact Hb | by apply (pr_ready _ _ _ Hr) | by apply Hr].
    split; [|apply Hf1]. cbn. rewrite Hc. apply Hf1.
Qed.

Lemma page_Start_ok port s : page_fresh s → is_closed (chans (pgo s) PageReady) = false → PageJanitorR ∉ started (pgo s) →
  pens PageR (page_Start port) (page_fin PageR) s.
Proof.
  intros Hf Hc Hj. apply page_listen_ok; [done | by eexists |]. intros s1 Hf1 Hl1 Hb1 Hc1 Hj1.
  apply pens_step; [split_and!; [done | done | by rewrite Hc1 | done | by left]|].
  intros s2 [] s3 Hr _ _ (s' & -> & g & -> & ->). pose proof (page_fresh_rely _ _ Hr Hf1) as Hf2.
  assert (PageJanitorR ∉ started (pgo s2)) as Hj2 by (intros Hi; apply (pr_starter _ _ _ Hr) in Hi; auto).
  apply pens_step; [by split|]. intros s4 [] s5 Hr4 _ _ (s' & -> & g & -> & ->).
  destruct (page_fresh_rely _ _ Hr4 Hf2) as [Hc4 Hn4].
  apply page_serve_ok. split; [exact Hc4|]. by intros [[=]|Hi]%elem_of_cons.
Qed.

Lemma runSessionJanitor_ok rounds s : pens PageJanitorR (runSessionJanitor rounds) (λ _ _, True) s.
Proof.
  revert s. induction rounds as [|rounds IH]; intros s; [done|].
  apply pens_step; [split; [done | left]|]. intros s1 i s2 _ _ _ _. case_bool_decide; [done|].
  apply pens_step; [done|]. intros s3 [] s4 _ _ _ _. apply IH.
Qed.

Lemma page_body_ok health port rounds r : pens r (page_body health port rounds r) (page_fin r) page_init_life.
Proof.
  apply pens_step; [done|]. intros s1 [] s2 Hr _ _ (s' & -> & g & [Hs ->] & ->).
  assert (∀ q, page_starter q = Some r → q ∉ started (pgo s1)) as Hq.
  { intros q Hq Hi. apply (pr_starter _ _ _ Hr) in Hi; [|done]. by apply not_elem_of_nil in Hi. }
  destruct r.
  - assert (page_fresh (page_record PageR (PPrim Begin) tt (set_pgo (pgo s1) s1))) as Hf.
    { split; [by apply (page_closing_stays _ _ Hr) | by apply Hq]. }
    destruct health; [apply page_listen_ok; [done | by eexists | by intros; apply page_serve_ok] |].
    apply page_Start_ok; [done | exact (pr_ready _ _ _ Hr eq_refl) | by apply Hq].
  - eapply ensures_bind; [|by intros]. destruct (pr_send _ _ _ Hr eq_refl) as [Hn Hb].
    apply page_accept_ok; [exact Hn | cbn in *; lia].
  - eapply ensures_bind; [apply runSessionJanitor_ok | by intros].
Qed.

(** ** All of them *)

Definition page_known : PageConfig → Prop := known page_answered page_routines PInv prely p_at page_fin.

Lemma page_known_turns x y : page_known x → turns page_answered page_environment page_routines x y → page_known y.
Proof.
  apply known_turns.
  - apply _.
  - intros. by eapply p_at_rely.
  - intros. by eapply p_calls_respect.
  - intros. by apply p_environment_respects.
  - apply (bool_decide_unpack _). by vm_compute.
  - intros. by eapply page_fin_rely.
Qed.

Lemma page_turn_rely x y : page_known x → turns page_answered page_environment page_routines x y → ∃ r, prely r x.2 y.2.
Proof.
  apply (known_turn_rely _ _ _ _ _ _) with (r0 := PageR) (r1 := PageAcceptR);
    [by intros; eapply p_calls_respect | by intros; eapply p_environment_respects|].
  intros r. destruct (decide (r = PageR)) as [->|]; [by right | left; congruence].
Qed.

Lemma page_known_runs health port rounds x : page_runs (page_init health port rounds) x → page_known x.
Proof.
  assert (page_known (page_init health port rounds)) as H0.
  { split; [apply p_init_Inv|]. intros i r p Hi Hp. change ((page_body health port rounds <$> page_routines) !! i = Some p) in Hp.
    rewrite list_lookup_fmap, Hi in Hp. injection Hp as <-. apply page_body_ok. }
  intros Hr. revert H0. generalize (page_init health port rounds), Hr. induction 1; [done|]. eauto using page_known_turns.
Qed.

(** What the listeners of the controller do, of the page as of the probes.  The channel
    that the leader label waits for is closed only once the port is open, and the port
    stays open until the context is done or accepting has failed.  [Start] returns nil
    only when the server was stopped and no request is in flight; an error it returns
    is that of listening, of accepting, or of a shutdown that took too long.  No request
    is ever cut off. *)
Theorem listeners_report health port rounds ts s :
  page_runs (page_init health port rounds) (ts, s) →
  (is_closed (chans (pgo s) PageReady) = true → page_listened s ∧ port_open s) ∧
  (∀ err, ts !! 0%nat = Some (Ret err) → page_result err s) ∧ cut (page s) = 0%nat.
Proof.
  intros Hr. destruct (page_known_runs _ _ _ _ Hr) as [HI Hts]. cbn in HI. split_and!; [apply HI | | apply HI].
  intros err Hp. by destruct (Hts 0%nat _ _ eq_refl Hp) as [? _].
Qed.

(** ** The end *)

Definition all_returned (x : PageConfig) : Prop :=
  ∀ i r p, page_routines !! i = Some r → x.1 !! i = Some p → r ∈ started (pgo x.2) → ∃ err, p = Ret err.

Definition page_ending (x : PageConfig) : Prop :=
  page_known x ∧ length x.1 = length page_routines ∧ page_stopping x.2 ∧ PageR ∈ started (pgo x.2).

Lemma page_ending_turns x y : page_ending x → turns page_answered page_environment page_routines x y → page_ending y.
Proof.
  intros (Hk & Hl & Hc & Hs) Ht. destruct (page_turn_rely _ _ Hk Ht) as [r Hr].
  split_and!; [by eapply page_known_turns | | by apply (pr_stopping _ _ _ Hr) | by apply (pr_started _ _ _ Hr)].
  by rewrite (turns_length _ _ _ _ _ Ht).
Qed.

(** Only [Serve] waits, and only for the shutdown. *)
Lemma page_answerable r {R} (k : PageCall R) s : PInv s → p_at r R k s → r ∈ started (pgo s) → page_stopping s →
  (serveErr s = None → r = PageAcceptR → closing (page s) = true) → ∃ x s', page_answered r R k s x s'.
Proof.
  intros HI Hk Hs Hst Hc. assert ((∃ x s', page_effect r R k s x s') → ∃ x s', page_answered r R k s x s') as H.
  { intros (x & s' & He). exists x. eexists. by constructor. }
  apply H. clear H. destruct k as [R k|R k|err| |]; cbn in Hk.
  - assert ((∃ x g, go_answers r R k (pgo s) x g) → ∃ x s', page_effect r R (PPrim k) s x s') as H.
    { intros (x & g & Ha). eexists _, _. by constructor. }
    apply H. destruct k; cbn in Hk; try done; try (do 2 eexists; constructor; apply Hk || done).
    + destruct Hk as (-> & _ & Hb & _). do 2 eexists. constructor; [apply HI | done].
    + destruct Hk as [_ Hin]. apply list_elem_of_lookup in Hin as [i Hi]. by do 2 eexists; eapply ans_case.
  - destruct (server_answerable k (page s)) as (x & y & Ha); [|eexists _, _; by constructor].
    destruct k; cbn in *; try tauto. destruct Hk as [-> Hn]. intros Hcl. by rewrite Hc in Hcl.
  - do 2 eexists. constructor.
  - destruct (serveErr s) as [e|] eqn:He; [|done]. do 2 eexists. by constructor.
  - do 2 eexists. constructor.
Qed.

(** Once its context is done the server ends, whatever its clients do: [Start] returns,
    and so do the goroutines that it has started, the one that accepts and the one that
    sweeps the sessions. *)
Theorem page_server_stops health port rounds ts s :
  page_runs (page_init health port rounds) (ts, s) → page_stopping s → PageR ∈ started (pgo s) →
  inevitable page_answered page_environment page_routines (λ _, True) all_returned (ts, s).
Proof.
  intros Hr Hst Hs. eapply (inevitable_intro _ _ _ _ _ page_ending).
  - exact page_ending_turns.
  - clear ts s Hr Hst Hs. intros [ts s] ([HI Hts] & Hlen & Hst & Hs). cbn in *.
    assert (∀ i r, page_routines !! i = Some r → (r = PageAcceptR → serve_ends s) →
      (r ∈ started (pgo s) → ∃ err, ts !! i = Some (Ret err)) ∨ ∃ r y, True ∧ acts page_answered page_routines r (ts, s) y) as Hone.
    { intros i r Hi Hc. destruct (decide (r ∈ started (pgo s))) as [Hq|]; [|by left].
      destruct (lookup_lt_is_Some_2 ts i) as [p Hp]; [apply lookup_lt_Some in Hi; cbn in Hi; lia|].
      destruct p as [err | R k kont]; [left; by exists err | right]. destruct (Hts _ _ _ Hi Hp) as [Hat _].
      destruct (page_answerable _ _ _ HI Hat Hq Hst) as (x & s' & Ha).
      { intros Hn ->. by destruct (Hc eq_refl Hq). }
      exists r. eexists. split; [done|]. by eapply acts_call. }
    destruct (Hone 0%nat PageR eq_refl) as [H0|?]; [done | | by right]. destruct (H0 Hs) as [err Hret].
    destruct (Hts 0%nat PageR _ eq_refl Hret) as [_ Hse].
    destruct (Hone 1%nat PageAcceptR eq_refl) as [H1|?]; [done | | by right].
    destruct (Hone 2%nat PageJanitorR eq_refl) as [H2|?]; [done | | by right].
    left. intros [|[|[|i]]] r p Hi Hp Hq; simplify_eq/=; [eauto | destruct (H1 Hq) | destruct (H2 Hq)]; simplify_eq; eauto.
  - split_and!; [by eapply page_known_runs | rewrite (runs_length _ _ _ _ _ Hr); done | done | done].
Qed.

(** * At concrete inputs *)

(** [hint] chooses among the answers of a call. *)
Definition page_exec (r : PageRoutine) (hint : nat) {R} (k : PageCall R) (s : PageLife) : option (R * PageLife) :=
  match k in PageCall R return option (R * PageLife) with
  | PPrim k => match exec_prim r hint k (pgo s) with Some (x, g) => Some (x, set_pgo g s) | None => None end
  | PSrv k => match server_exec hint k (page s) with Some (x, y) => Some (x, set_page y s) | None => None end
  | PPutErr err => Some (tt, set_serveErr err s)
  | PTakeErr => match serveErr s with Some err => Some (err, s) | None => None end
  | PPrune => Some (tt, s)
  end.

Lemma page_exec_sound r hint R (k : PageCall R) s x s' : page_exec r hint k s = Some (x, s') → page_effect r R k s x s'.
Proof.
  destruct k; cbn; intros He.
  - destruct (exec_prim r hint c (pgo s)) as [[y g]|] eqn:Hp; simplify_eq. constructor. by eapply exec_prim_sound.
  - destruct (server_exec hint c (page s)) as [[y z]|] eqn:Hp; simplify_eq. constructor. by eapply server_exec_sound.
  - simplify_eq. by constructor.
  - destruct (serveErr s) eqn:He'; simplify_eq. by constructor.
  - simplify_eq. by constructor.
Qed.

Inductive PageChoice := PTurn (i hint : nat) | PBoot | PDone | PArrives | PEnds.

Definition page_choose (x : PageConfig) (ch : PageChoice) : option PageConfig :=
  let '(ts, s) := x in
  let v := page s in
  match ch with
  | PBoot => if bool_decide (PageR ∈ started (pgo s)) then None else Some (ts, set_pgo (start PageR (pgo s)) s)
  | PDone => Some (ts, set_pgo (cancel tt (pgo s)) s)
  | PArrives => if tracked v && bound v
      then Some (ts, set_page (mkServer (bound v) (tracked v) (closing v) (S (active v)) (cut v)) s) else None
  | PEnds => match active v with
      | O => None
      | S n => Some (ts, set_page (mkServer (bound v) (tracked v) (closing v) n (cut v)) s)
      end
  | PTurn i hint => match page_routines !! i, ts !! i with
      | Some r, Some (Do k kont) => match page_exec r hint k s with
          | Some (y, s') => Some (<[i := kont y]> ts, page_record r k y s')
          | None => None
          end
      | _, _ => None
      end
  end.

Lemma page_choose_turns x ch y : page_choose x ch = Some y → turns page_answered page_environment page_routines x y.
Proof.
  destruct x as [ts s], ch; cbn -[page_routines page_exec]; intros He.
  - destruct (page_routines !! i) as [r|] eqn:Hi; [|done]. destruct (ts !! i) as [[|R k kont]|] eqn:Hp; [done | | done].
    destruct (page_exec r hint k s) as [[a s']|] eqn:Hk; simplify_eq. eapply turns_act, acts_call; [done | done |].
    constructor. by eapply page_exec_sound.
  - case_bool_decide; simplify_eq. apply turns_env. by constructor.
  - simplify_eq. apply turns_env. constructor.
  - destruct (tracked _ && bound _) eqn:Hb; simplify_eq. apply andb_true_iff in Hb as [? ?].
    apply turns_env. constructor. by constructor.
  - destruct (active (page s)) as [|n] eqn:Ha; simplify_eq. apply turns_env. constructor. by constructor.
Qed.

Fixpoint page_play (x : PageConfig) (chs : list PageChoice) : option PageConfig :=
  match chs with [] => Some x | ch :: chs => match page_choose x ch with Some y => page_play y chs | None => None end end.

Lemma page_play_runs x chs y : page_play x chs = Some y → page_runs x y.
Proof.
  revert x. induction chs as [|ch chs IH]; intros x; cbn -[page_choose]; [by intros [= ->]; apply rtc_refl|].
  destruct (page_choose x ch) as [z|] eqn:Hc; [|done]. intros Hp. eapply rtc_l; [by eapply page_choose_turns | by apply IH].
Qed.

Definition page_demo (chs : list PageChoice) : PageConfig := default (page_init false 8080 5) (page_play (page_init false 8080 5) chs).

Lemma page_demo_runs chs : is_Some (page_play (page_init false 8080 5) chs) → page_runs (page_init false 8080 5) ((page_demo chs).1, (page_demo chs).2).
Proof. intros [y Hy]. unfold page_demo. rewrite Hy. cbn. destruct y. by apply (page_play_runs _ chs). Qed.

(** The page is up, sweeps once and has a request in flight when its context ends. *)
Definition page_up : list PageChoice :=
  PBoot :: replicate 5 (PTurn 0 0) ++ [PTurn 1 0; PTurn 1 0; PTurn 2 0; PTurn 2 1; PTurn 2 0; PArrives; PDone].
(** The request ends in time. *)
Definition page_down : list PageChoice := page_up ++ [PTurn 0 1; PTurn 0 0; PEnds; PTurn 0 0].

Lemma listeners_report_witness :
  let x := page_demo page_down in
  x.1 !! 0%nat = Some (Ret None) ∧ page_drained x.2 ∧ page_listened x.2 ∧ cut (page x.2) = 0%nat.
Proof.
  assert (page_runs (page_init false 8080 5) ((page_demo page_down).1, (page_demo page_down).2)) as Hr
    by (apply page_demo_runs; vm_compute; by eexists).
  destruct (listeners_report false 8080 5 _ _ Hr) as (Hp & Hx & Hc).
  split_and!; [by vm_compute | apply (Hx None); by vm_compute | apply Hp; by vm_compute | exact Hc].
Defined.

Lemma page_server_stops_witness :
  let x := page_demo page_up in
  active (page x.2) = 1%nat ∧ started (pgo x.2) = [PageAcceptR; PageJanitorR; PageR] ∧
  inevitable page_answered page_environment page_routines (λ _, True) all_returned (x.1, x.2).
Proof.
  split; [by vm_compute|]. split; [by vm_compute|].
  apply (page_server_stops false 8080 5); [apply page_demo_runs; vm_compute; by eexists | by vm_compute | vm_compute; repeat (first [left | right])].
Defined.
