(* ===== verification/LbDemo.v ===== *)
(** The load-balancer controller against a small cluster with MetalLB and an
    address manager in memory: the theorems at concrete inputs, and what the
    controller does there. *)

From S2P Require Import Prelude GoStd NetIP NetIPFacts Ipam ApiTypes Kube FipController MemKube FipDemo ApiServer ApiServerDemo Prog LbApi LbController LbReconcile LbLoop LbEvidence LbDeleteCorrect LbAllocCorrect LbLoopCorrect LbNames LbClient LbServer LbServerCorrect.

(** ** The cluster *)

Record Cluster := mkCluster {
  w_svcs : gmap string Service;
  w_pools : gmap string IPAddressPool;
  w_l2 : gmap string L2Advertisement;
  w_fips : list FIPListEntry;           (* the manager's list *)
  w_tombs : gmap string Service;
  w_refuses : option string             (* the manager's answer to a request *)
}.

Definition set_svcs (f : gmap string Service → gmap string Service) (w : Cluster) : Cluster :=
  mkCluster (f (w_svcs w)) (w_pools w) (w_l2 w) (w_fips w) (w_tombs w) (w_refuses w).
Definition set_pools (f : gmap string IPAddressPool → gmap string IPAddressPool) (w : Cluster) : Cluster :=
  mkCluster (w_svcs w) (f (w_pools w)) (w_l2 w) (w_fips w) (w_tombs w) (w_refuses w).
Definition set_l2 (f : gmap string L2Advertisement → gmap string L2Advertisement) (w : Cluster) : Cluster :=
  mkCluster (w_svcs w) (w_pools w) (f (w_l2 w)) (w_fips w) (w_tombs w) (w_refuses w).
Definition set_fips (f : list FIPListEntry → list FIPListEntry) (w : Cluster) : Cluster :=
  mkCluster (w_svcs w) (w_pools w) (w_l2 w) (f (w_fips w)) (w_tombs w) (w_refuses w).
Definition set_tombs (f : gmap string Service → gmap string Service) (w : Cluster) : Cluster :=
  mkCluster (w_svcs w) (w_pools w) (w_l2 w) (w_fips w) (f (w_tombs w)) (w_refuses w).

Definition key_of (ns name : string) : string := ns +:+ "/" +:+ name.

Definition found {A} (o : option A) : res A :=
  match o with Some a => Ok a | None => Err (mkErr KNotFound "not found") end.

(** Create and delete by name, as an API server does. *)
Definition create {A} (m : gmap string A) (k : string) (a : A) : option (gmap string A) :=
  match m !! k with Some _ => None | None => Some (<[k := a]> m) end.

Definition created {A} (m : gmap string A) (k : string) (a : A) (upd : gmap string A → Cluster → Cluster)
    (w : Cluster) : res unit * Cluster :=
  match create m k a with
  | Some m => (Ok tt, upd m w)
  | None => (Err (mkErr KAlreadyExists "already exists"), w)
  end.
Definition deleted {A} (m : gmap string A) (k : string) (upd : gmap string A → Cluster → Cluster)
    (w : Cluster) : res unit * Cluster :=
  match m !! k with
  | Some _ => (Ok tt, upd (delete k m) w)
  | None => (Err (mkErr KNotFound "not found"), w)
  end.

Definition demo_secret : Secret := mkSecret "rancher-fip-config-p1" (Some (list_to_map [
  ("apiUrl", "https://fip"); ("clientSecret", "s3cret"); ("cluster", "c1"); ("project", "p1");
  ("floatingIPPool", "pool"); ("loadBalancerType", "metallb")])).

(** A request is answered from a fixed address, and listed. *)
Definition demo_grant (a : FipArgs) (w : Cluster) : res (string * string * string) * Cluster :=
  match w_refuses w with
  | Some msg => (Err (errorf msg), w)
  | None => (Ok ("10.0.0.5", "10.0.0.0/24", ""),
      set_fips (λ l, l ++ [mkFIPListEntry (fa_Project a) (fa_Cluster a) (fa_FloatingIPPool a) (fa_ServiceNamespace a)
        (fa_ServiceName a) "10.0.0.5" (fa_FloatingIPGroup a)]) w)
  end.

Definition w_handle (R : Type) (c : LbCall R) : Cluster → R * Cluster :=
  match c in LbCall R return Cluster → R * Cluster with
  | GetNamespace n => λ w, (Ok (if bool_decide (n = "fip") then None else Some {["field.cattle.io/projectId" := "p1"]}), w)
  | GetLbSecret ns n => λ w, (if bool_decide (n = sec_Name demo_secret) then Ok demo_secret else found None, w)
  | GetConfigMap _ _ => λ w, (Ok (Some {["pool" := "eth0"]}), w)
  | GetService ns n => λ w, (found (w_svcs w !! key_of ns n), w)
  | UpdateService s => λ w, match w_svcs w !! key_of (svc_ns s) (svc_name s) with
      | Some _ => (Ok s, set_svcs (λ m, if is_some (DeletionTimestamp (svc_meta s))
                                           && bool_decide (Finalizers (svc_meta s) = [])
                                        then delete (key_of (svc_ns s) (svc_name s)) m
                                        else <[key_of (svc_ns s) (svc_name s) := s]> m) w)
      | None => (found None, w) end
  | DeleteService ns n => λ w, deleted (w_svcs w) (key_of ns n) (λ m, set_svcs (λ _, m)) w
  | ListServices ns _ => λ w,
      (Ok (filter (λ s, ns = "" ∨ svc_ns s = ns) (map_to_list (w_svcs w)).*2), w)
  | CreateIPAddressPool p => λ w, created (w_pools w) (ap_Name p) p (λ m, set_pools (λ _, m)) w
  | UpdateIPAddressPool p => λ w, (Ok tt, set_pools (<[ap_Name p := p]>) w)
  | DeleteIPAddressPool n _ => λ w, deleted (w_pools w) n (λ m, set_pools (λ _, m)) w
  | GetIPAddressPool n _ => λ w, (match w_pools w !! n with Some p => Ok (Some p) | None => found None end, w)
  | GetIPAddressPools _ => λ w, (Ok (map_to_list (w_pools w)).*2, w)
  | CreateL2Advertisement a => λ w, created (w_l2 w) (l2_Name a) a (λ m, set_l2 (λ _, m)) w
  | DeleteL2Advertisement n _ => λ w, deleted (w_l2 w) n (λ m, set_l2 (λ _, m)) w
  | CreateServiceGroup _ | DeleteServiceGroup _ _ => λ w, (Ok tt, w)
  | GetServiceGroups _ => λ w, (Ok [], w)
  | RequestFIP _ a => demo_grant a
  | ReleaseFIP _ a => λ w, (Ok tt, set_fips (filter (λ e, le_IPAddress e ≠ fa_IPAddr a)) w)
  | ListFIPs_ _ _ => λ w, (Ok (w_fips w), w)
  | ByIndex v => λ w, (Ok (filter (λ o, v ∈ indexServiceByFloatingIP o) (Some <$> (map_to_list (w_svcs w)).*2)), w)
  | GetByKey k => λ w, (Ok (w_svcs w !! k), w)
  | LoadClient _ => λ w, (None, w)
  | PeekTombstone k => λ w, (w_tombs w !! k, w)
  | TakeTombstone k => λ w, (tt, set_tombs (delete k) w)
  | SetTombstone k s => λ w, (tt, set_tombs (<[k := s]>) w)
  | LbNow => λ w, (7, w)
  | StoreClient _ _ | LockAddress _ | UnlockAddress _ | Eventf _ _ _ | LbAdd _ | LbAddAfter _ _
  | LbAddRateLimited _ | LbForget _ | LbDone _ => λ w, (tt, w)
  end.

#[local] Instance demo_libs : LbLibs := {|
  Quote s := "'" +:+ s +:+ "'";
  IsDNS1123Subdomain s := negb (Contains s "..") ;
  Selector := LabelSelector;
  LabelSelectorAsSelector s := Ok s;
  Selector_Matches s l := bool_decide (map_Forall (λ k v, mget l k = v) (MatchLabels s));
  Selector_String _ := "";
  MetaNamespaceKeyFunc s := Ok (key_of (svc_ns s) (svc_name s));
  SplitKey := split_key
|}.

#[local] Program Instance demo_retries : Retries LbCall := {| RetryConflict _ := attempts 4 |}.
Next Obligation. intros A fn. by exists 4%nat. Qed.

Definition demo_r : reconciler := mkReconciler "fip" true true None.

(** ** A new Service gets an address *)

Definition web : Service :=
  mkService (mkMeta "web" "apps" None None [] "1" 0 None) LoadBalancer [].
Definition empty_cluster : Cluster := mkCluster {["apps/web" := web]} ∅ ∅ [] ∅ None.

Definition run_lb {A} (p : Prog LbCall A) (w : Cluster) : A * Cluster * History LbCall := run w_handle p w [].

Definition allocated : Cluster := (run_lb (lb_reconcile demo_r web) empty_cluster).1.2.

Example web_published :
  ((λ s, svc_ann s floatingIPAnnotation) <$> w_svcs allocated !! "apps/web") = Some "10.0.0.5" ∧
  (ap_Addresses <$> w_pools allocated !! "ip4-10.0.0.5") = Some ["10.0.0.5/32"] ∧
  (l2_Interfaces <$> w_l2 allocated !! "ip4-10.0.0.5") = Some ["eth0"].
Proof. vm_compute. done. Qed.

Lemma allocation_never_leaks_witness :
  let y := run_lb (lb_reconcile demo_r web) empty_cluster in
  y.1.1 = (Ok tt, web) ∧ granted_ips y.2 = ["10.0.0.5"] ∧
  obeys (allocation_guard demo_r web) [] y.2 ∧ no_leak web y.2.
Proof.
  intros y. split; [by vm_compute|]. split; [by vm_compute|].
  pose proof (run_execs w_handle (lb_reconcile demo_r web) empty_cluster []) as He.
  rewrite (surjective_pairing (run w_handle (lb_reconcile demo_r web) empty_cluster []).1.1) in He.
  destruct (allocation_never_leaks demo_r web _ _ _ ltac:(by vm_compute) He) as [Ho Hn].
  split; [exact Ho|]. apply Hn. by vm_compute.
Defined.

(** ** The Service is deleted *)

Definition web_deleted : Service :=
  match w_svcs allocated !! "apps/web" with Some s => set_svc_deleted s 5 | None => web end.
Definition going_cluster : Cluster := set_svcs (<["apps/web" := web_deleted]>) allocated.

Example web_withdrawn :
  let w := (run_lb (lb_reconcile demo_r web_deleted) going_cluster).1.2 in
  (w_svcs w, w_pools w, w_l2 w, w_fips w) = (∅, ∅, ∅, []).
Proof. vm_compute. done. Qed.


(** ** The manager refuses while the Service vanishes *)

Definition refusing : Cluster :=
  mkCluster {["apps/web" := (write_annotation floatingIPRequestAnnotation "p1" web).1]} ∅ ∅ [] ∅ (Some "connection refused").
Definition pending_web : Service := default web (w_svcs refusing !! "apps/web").

Definition refusal : error := errorf "failed to request FIP: connection refused".

Lemma snapshot_kept_until_released_witness :
  let y := run_lb (controller_reconcile demo_r "apps/web") refusing in
  y.1.1 = Err refusal ∧ obeys (snapshot_guard "apps/web") [] y.2 ∧ snapshot_stored pending_web y.2 ∧
  w_tombs y.1.2 !! "apps/web" = Some pending_web.
Proof.
  intros y.
  pose proof (run_execs w_handle (controller_reconcile demo_r "apps/web") refusing []) as He.
  destruct (snapshot_kept_until_released demo_r "apps/web" _ _ He) as [Ho Hn].
  assert (y.1.1 = Err refusal) as Hx by by vm_compute. split; [exact Hx|]. split; [exact Ho|].
  split; [|by vm_compute]. apply (Hn pending_web refusal); [by vm_compute | exact Hx | done | by vm_compute].
Defined.

(** ** Names and ranges *)

Lemma own_pool_covers_exactly_witness :
  poolContainsAddress [addressCIDR (ip_name 42540766411282592856903984951653826565)]
    (IP16 42540766411282592856903984951653826566) = false ∧
  poolContainsAddress [addressCIDR (ip_name (v4prefix + 167772165))] (IP16 (v4prefix + 167772165)) = true.
Proof. split; rewrite own_pool_covers_exactly by (vm_compute; done); by vm_compute. Defined.

Lemma pool_names_differ_witness :
  poolNameForAddress (ip_name 42540766411282592856903984951653826565) ≠ poolNameForAddress (ip_name (v4prefix + 167772165)).
Proof. apply pool_names_differ; by vm_compute. Defined.

(** ** The management page *)

Section Page.
#[local] Existing Instance sorted_range.

Definition ui_handle (R : Type) (c : UiCall R) : Cluster * Sessions → R * (Cluster * Sessions) :=
  match c in UiCall R return Cluster * Sessions → R * (Cluster * Sessions) with
  | OnCluster c => λ w, let '(a, w1) := w_handle _ c w.1 in (a, (w1, w.2))
  | DeleteFIP_ _ _ _ ip => λ w, (Ok tt, (set_fips (filter (λ e, le_IPAddress e ≠ ip)) w.1, w.2))
  | SessionDo op => λ w, let '(a, m) := session_do op w.2 in (a, (w.1, m))
  | RandomToken => λ w, (Ok ("token" +:+ itoa (Z.of_nat (size w.2))), w)
  | IsLeader => λ w, (true, w)
  | UiNow => λ w, (5, w)
  | PollTick => λ w, (Ok tt, w)
  | SetCookie _ _ _ _ | RetryAfter _ => λ w, (tt, w)
  end.

Definition demo_ui : Server :=
  mkServer (mkClient "https://fip" "client-c1") "s3cret" "c1" "p1" ["pool"] "admin" "secret" "" true.
Definition demo_sessions : Sessions := {["token0" := mkSession 10 "csrf0"]}.
Definition release_request (csrf : string) : HttpRequest :=
  mkRequest "POST" (Ok (list_to_map [("csrf_token", csrf); ("floatingippool", "pool"); ("servicenamespace", "apps");
    ("servicename", "web"); ("ipaddr", "10.0.0.5")])) (Cookie "token0") true "".

Definition ui_run (csrf : string) : UiReply * (Cluster * Sessions) * History UiCall :=
  run ui_handle (route demo_ui "/release" (release_request csrf)) (allocated, demo_sessions) [].

Example forged_form_refused :
  (ui_run "csrf1").1.1 = HttpError 403 "Invalid CSRF token" ∧ w_fips (ui_run "csrf1").1.2.1 = w_fips allocated.
Proof. vm_compute. done. Qed.


Lemma session_do_keeps_cap_witness :
  sessions_ok (session_do (Login 5 "token1" (mkSession 15 "csrf1")) demo_sessions).2 ∧
  (session_do (Login 5 "token1" (mkSession 15 "csrf1")) demo_sessions).2 !! "token0" = Some (mkSession 10 "csrf0").
Proof.
  split; [|by vm_compute].
  destruct (session_do_keeps_cap (Login 5 "token1" (mkSession 15 "csrf1")) demo_sessions) as [Hok _];
    [split; by vm_compute | done | exact Hok].
Defined.
End Page.

(** ** The client and the handler *)

Section Together.
#[local] Existing Instances sorted_range no_err_text demo_kube mem_retry_spec.

(** A decoder that knows one body. *)
Definition decoder (rs : FIPResponse) : HttpLib := {|
  bad_url _ := None;
  unmarshal_token _ := Ok "token";
  unmarshal_fip body := if bool_decide (body = "body") then Ok rs else Err (errorf "unexpected end of JSON input");
  unmarshal_status _ := Err (errorf "unexpected end of JSON input");
  decode_list _ := Err (errorf "unexpected end of JSON input")
|}.

Definition web_args (ip : string) : FipArgs := mkFipArgs "secret" "c1" "p1" "pool" "default" "web" ip "".

Definition handled (ip : string) (f : FloatingIP) : option (Reply FIPResponse) * World Mem :=
  FIPRequestHandler 3 (Ok (server_view (web_args ip))) (world (demo_cluster f []) New).

Definition approved (r : option (Reply FIPResponse)) : FIPResponse :=
  match r with Some (JSONOk rs) => rs | _ => mkFIPResponse "" "" "" "" "" "" "" "" "" "" "" end.

Lemma granted_reply_accepted_witness :
  let rs := approved (handled "" free_fip).1 in
  @accept_response (decoder rs) (web_args "") (mkHttp 200 (Ok "body")) =
    if bool_decide (rs_FloatingIPGroup rs = "") then Ok ("10.0.0.4", rs_Subnet rs, "")
    else Err (errorf "failed to request FIP: floatingip-group name mismatch").
Proof.
  intros rs.
  rewrite (granted_reply_accepted (HHttp := decoder rs) 3 (web_args "") (world (demo_cluster free_fip []) New) rs
    (handled "" free_fip).2 "body"); [by vm_compute | | reflexivity].
  assert ((handled "" free_fip).1 = Some (JSONOk rs)) as H1 by by vm_compute.
  rewrite <- H1. apply surjective_pairing.
Defined.

(** A request for a pinned address without a group is approved for an address
    that is assigned to a group; the client refuses the reply, again and again. *)
Example group_address_refused :
  let rs := approved (handled "10.0.0.4" (grouped "c1")).1 in
  rs_FloatingIPGroup rs = "g" ∧
  @accept_response (decoder rs) (web_args "10.0.0.4") (mkHttp 200 (Ok "body")) =
    Err (errorf "failed to request FIP: floatingip-group name mismatch").
Proof. vm_compute. done. Qed.
End Together.
