(* ===== verification/LbRun.v ===== *)
(** The life of the load-balancer controller, [Run] of
    [lbcontroller/internal/controller/controller.go]: its workers, and the drain at
    its end.

    There are two contexts: [Lease], which [Run] is given, and [Work], which the
    calls of a reconcile use and which [Lease] does not cancel.  The reconcile of
    one item is one call here; [LbLoop] models it. *)

From stdpp Require Import functions.
From S2P Require Import Prelude GoStd ApiTypes Prog RelyGuarantee Goroutines WorkQueue.

Inductive LbRoutine :=
| LbRunR                             (* [Run] *)
| LbDrainR                           (* waits for the workers *)
| LbWorkerR (i : nat).
Inductive LbChannel := Drained.
Inductive LbGroup := LbWorkersWG.
Inductive LbContext := Lease | Work.

#[export] Instance LbRoutine_eq : EqDecision LbRoutine.
Proof. solve_decision. Defined.
#[export] Instance LbChannel_eq : EqDecision LbChannel.
Proof. solve_decision. Defined.
#[export] Instance LbGroup_eq : EqDecision LbGroup.
Proof. solve_decision. Defined.
#[export] Instance LbContext_eq : EqDecision LbContext.
Proof. solve_decision. Defined.

Abbreviation LbState := (GoState LbRoutine LbChannel LbGroup LbContext).
Abbreviation LbGoCall := (GoCall LbRoutine LbChannel LbGroup LbContext).

Inductive LbRunCall : Type → Type :=
| LbPrim {R} (c : LbGoCall R) : LbRunCall R
| LbCacheSync : LbRunCall bool
| LbGet : LbRunCall (option string)                        (* [None]: shutdown *)
| LbDone (key : string) : LbRunCall unit
| LbForget (key : string) : LbRunCall unit
| LbAgain (key : string) : LbRunCall unit                  (* AddRateLimited *)
| LbShutDown : LbRunCall unit
| LbReconcile (key : string) : LbRunCall (option error)
| LbOutOfRounds : LbRunCall unit.                          (* the bound of the model on a worker's loop *)

Record LbRunWorld (Q : Type) := mkLbRunWorld {
  lgo : LbState;
  lqueue : Q;
  lsynced : bool;
  lhist : list (LbRoutine * Ev LbRunCall)                  (* the calls so far, newest first *)
}.
Arguments mkLbRunWorld {Q}.
Arguments lgo {Q}.
Arguments lqueue {Q}.
Arguments lsynced {Q}.
Arguments lhist {Q}.

(** The bounds of the two waits at the end. *)
Definition shutdownGracePeriod : time := 20 * 10 ^ 9.
Definition shutdownAbortTimeout : time := 5 * 10 ^ 9.

Section Code.
#[local] Open Scope prog_scope.

Definition lb_next_item : Prog LbRunCall bool :=
  let! obj := call LbGet in
  match obj with
  | None => Ret false
  | Some key =>
      let! err := call (LbReconcile key) in
      match err with
      | Some _ => call (LbAgain key)
      | None => call (LbForget key)
      end ;;;
      call (LbDone key) ;;; Ret true
  end.

Fixpoint lb_runWorker (rounds : nat) : Prog LbRunCall unit :=
  match rounds with
  | O => call LbOutOfRounds
  | S rounds => let! more := lb_next_item in if more : bool then lb_runWorker rounds else Ret tt
  end.

(** [wait.Until] with the [Done] channel of the lease. *)
Fixpoint lb_until (rounds : nat) (f : Prog LbRunCall unit) : Prog LbRunCall unit :=
  match rounds with
  | O => call LbOutOfRounds
  | S rounds =>
      let! stop := call (LbPrim (CtxErr Lease)) in
      if stop : bool then Ret tt else f ;;; lb_until rounds f
  end.

Definition lb_worker (rounds : nat) : Prog LbRunCall unit :=
  lb_until 2 (lb_runWorker rounds) ;;; call (LbPrim (WgDone LbWorkersWG)).

Fixpoint lb_start_workers (i n : nat) : Prog LbRunCall unit :=
  match n with
  | O => Ret tt
  | S n =>
      call (LbPrim (WgAdd LbWorkersWG)) ;;; call (LbPrim (Go (LbWorkerR i))) ;;; lb_start_workers (S i) n
  end.

(** Whether the workers were gone before the time was up. *)
Definition drained_in_time (after : time) : Prog LbRunCall bool :=
  let! i := call (LbPrim (Select [Recv Drained; Timer after] false)) in Ret (bool_decide (i = Some 0%nat)).

Definition lb_drain : Prog LbRunCall unit :=
  call (LbPrim (Go LbDrainR)) ;;;
  let! ok := drained_in_time shutdownGracePeriod in
  if ok : bool then Ret tt
  else call (LbPrim (Cancel Work)) ;;; let! _ok := drained_in_time shutdownAbortTimeout in Ret tt.

(** The last call is the deferred one. *)
Definition lb_Run (workers : nat) : Prog LbRunCall unit :=
  let! ok := call LbCacheSync in
  (if ok : bool then
     lb_start_workers 0 workers ;;;
     let! _i := call (LbPrim (Select [OnDone Lease] false)) in
     call LbShutDown ;;; lb_drain
   else call LbShutDown) ;;;
  call (LbPrim (Cancel Work)).

Definition lb_body (workers rounds : nat) (r : LbRoutine) : Prog LbRunCall unit :=
  call (LbPrim Begin) ;;;
  match r with
  | LbRunR => lb_Run workers
  | LbDrainR => call (LbPrim (WgWait LbWorkersWG)) ;;; call (LbPrim (Close Drained))
  | LbWorkerR _ => lb_worker rounds
  end.

Definition lb_routines (workers : nat) : list LbRoutine := LbRunR :: LbDrainR :: (LbWorkerR <$> seq 0 workers).
End Code.

Section System.
Context {Q : Type} `{HQueue : WorkQueue Q}.

Definition set_lgo (g : LbState) (s : LbRunWorld Q) : LbRunWorld Q := mkLbRunWorld g (lqueue s) (lsynced s) (lhist s).
Definition set_lqueue (q : Q) (s : LbRunWorld Q) : LbRunWorld Q := mkLbRunWorld (lgo s) q (lsynced s) (lhist s).
Definition set_lsynced (s : LbRunWorld Q) : LbRunWorld Q := mkLbRunWorld (lgo s) (lqueue s) true (lhist s).
Definition lb_record {R} (r : LbRoutine) (c : LbRunCall R) (x : R) (s : LbRunWorld Q) : LbRunWorld Q :=
  mkLbRunWorld (lgo s) (lqueue s) (lsynced s) ((r, mkEv c x) :: lhist s).

(** The start of [Run], the end of the lease, the informer and its handlers, and
    items that come due. *)
Inductive lb_environment : LbRunWorld Q → LbRunWorld Q → Prop :=
| lb_env_run s : LbRunR ∉ started (lgo s) → lb_environment s (set_lgo (start LbRunR (lgo s)) s)
| lb_env_lease s : lb_environment s (set_lgo (cancel Lease (lgo s)) s)
| lb_env_synced s : lb_environment s (set_lsynced s)
| lb_env_add key s : lb_environment s (set_lqueue (q_Add key (lqueue s)) s)
| lb_env_tick q s : q_tick (lqueue s) q → lb_environment s (set_lqueue q s).

(** [WaitForCacheSync] is given up only at the end of the lease. *)
Inductive lb_effect (r : LbRoutine) : ∀ R, LbRunCall R → LbRunWorld Q → R → LbRunWorld Q → Prop :=
| lb_eff_prim R (c : LbGoCall R) s x g : go_answers r R c (lgo s) x g → lb_effect r R (LbPrim c) s x (set_lgo g s)
| lb_eff_synced s : lsynced s = true → lb_effect r _ LbCacheSync s true s
| lb_eff_unsynced s : cancelled (lgo s) Lease = true → lb_effect r _ LbCacheSync s false s
| lb_eff_get s x q : q_Get (lqueue s) = Some (x, q) → lb_effect r _ LbGet s x (set_lqueue q s)
| lb_eff_done key s : lb_effect r _ (LbDone key) s tt (set_lqueue (q_Done key (lqueue s)) s)
| lb_eff_forget key s : lb_effect r _ (LbForget key) s tt (set_lqueue (q_Forget key (lqueue s)) s)
| lb_eff_again key s : lb_effect r _ (LbAgain key) s tt (set_lqueue (q_AddRateLimited key (lqueue s)) s)
| lb_eff_shutdown s : lb_effect r _ LbShutDown s tt (set_lqueue (q_ShutDown (lqueue s)) s)
| lb_eff_reconcile key s err : lb_effect r _ (LbReconcile key) s err s.

Inductive lb_answered (r : LbRoutine) (R : Type) (c : LbRunCall R) (s : LbRunWorld Q) (x : R) : LbRunWorld Q → Prop :=
| lb_answered_call s' : lb_effect r R c s x s' → lb_answered r R c s x (lb_record r c x s').

Definition LbConfig : Type := Config (S := LbRunWorld Q) (E := LbRunCall) (A := unit).
Definition lb_init_world : LbRunWorld Q := mkLbRunWorld go_init q_new false [].
Definition lb_init (workers rounds : nat) : LbConfig := (lb_body workers rounds <$> lb_routines workers, lb_init_world).
Definition lb_runs (workers : nat) : LbConfig → LbConfig → Prop := runs lb_answered lb_environment (lb_routines workers).
End System.
