(* ===== verification/LbRunCorrect.v ===== *)
(** The drain of the load-balancer controller: a reconcile in flight keeps its
    context when the lease is lost, until the workers are gone or the grace period
    is over; and [Run] ends, whether or not its workers do.

    As in [ManagerLogic], each goroutine relies on what the others leave alone. *)

From stdpp Require Import functions.
From S2P Require Import Prelude Prog RelyGuarantee Goroutines WorkQueue GoStd ApiTypes LbRun.

Definition is_worker (r : LbRoutine) : Prop := match r with LbWorkerR _ => True | _ => False end.
#[export] Instance is_worker_dec r : Decision (is_worker r).
Proof. destruct r; cbn; apply _. Defined.

Definition lb_starter (q : LbRoutine) : option LbRoutine := match q with LbRunR => None | _ => Some LbRunR end.

Definition lev_took (e : Ev LbRunCall) : bool :=
  match ev_c e in LbRunCall R return R → bool with LbGet => λ x, is_some x | _ => λ _, false end (ev_ans e).
Definition lev_gave (e : Ev LbRunCall) : bool := match ev_c e with LbDone _ => true | _ => false end.
Abbreviation lb_took := (count lev_took).
Abbreviation lb_gave := (count lev_gave).

Section Logic.
Context {Q : Type} `{HQueue : WorkQueue Q} `{!WorkQueueLaws Q} (workers : nat).
Implicit Types (s : LbRunWorld Q) (r : LbRoutine).

Definition l_closed s : Prop := is_closed (chans (lgo s) Drained) = true.
Definition l_done s : list LbRoutine := finished (wgs (lgo s) LbWorkersWG).
Definition l_added s : nat := added (wgs (lgo s) LbWorkersWG).
Definition l_members s : list LbRoutine := filter is_worker (started (lgo s)).
Definition l_down s : Prop := q_down (lqueue s) = true.
Definition lease_lost s : Prop := cancelled (lgo s) Lease = true.
Definition work_cancelled s : Prop := cancelled (lgo s) Work = true.

(** The grace period was over before the workers were gone. *)
Definition grace_over s : Prop :=
  (LbRunR, mkEv (LbPrim (Select [Recv Drained; Timer shutdownGracePeriod] false)) (Some 1%nat)) ∈ lhist s.

(** All workers that there are have ended. *)
Definition all_gone s : Prop :=
  LbDrainR ∈ started (lgo s) ∧ ∀ r, is_worker r → r ∈ started (lgo s) → r ∈ l_done s.

(** Why the calls of reconciles may be cancelled. *)
Definition may_abort s : Prop := l_closed s ∨ grace_over s ∨ ∀ r, r ∈ started (lgo s) → ¬ is_worker r.

Record LInv s : Prop := {
  v_started : NoDup (started (lgo s));
  v_workers i : LbWorkerR i ∈ started (lgo s) → (i < workers)%nat;
  v_finished : NoDup (l_done s) ∧ ∀ r, r ∈ l_done s → is_worker r ∧ r ∈ started (lgo s);
  v_added : (length (l_members s) ≤ l_added s)%nat;
  v_over r : r ∈ l_done s → lb_took r (lhist s) = lb_gave r (lhist s);
  v_took r e : (r, e) ∈ lhist s → lev_took e = true → is_worker r ∧ r ∈ started (lgo s);
  v_down : l_down s → lease_lost s;
  v_drain : LbDrainR ∈ started (lgo s) → l_down s ∧ l_added s = length (l_members s);
  v_closed : l_closed s → all_gone s;
  v_work : work_cancelled s → lease_lost s ∧ may_abort s;
  v_buffered : buffered (chans (lgo s) Drained) = 0%nat
}.

Record l_rely r s s' : Prop := {
  lr_lease : lease_lost s → lease_lost s';
  lr_work : work_cancelled s → work_cancelled s';
  lr_alive : r = LbRunR → work_cancelled s' → work_cancelled s;
  lr_started q : q ∈ started (lgo s) → q ∈ started (lgo s');
  lr_starter q : lb_starter q = Some r → q ∈ started (lgo s') → q ∈ started (lgo s);
  lr_members : r = LbRunR → l_members s' = l_members s ∧ l_added s' = l_added s;
  lr_late : LbDrainR ∈ started (lgo s) → l_members s' = l_members s ∧ l_added s' = l_added s;
  lr_closed : l_closed s → l_closed s';
  lr_open : r = LbDrainR → l_closed s' → l_closed s;
  lr_finished q : q ∈ l_done s → q ∈ l_done s';
  lr_finisher : r ∈ l_done s' → r ∈ l_done s;
  lr_down : l_down s → l_down s';
  lr_mine : by_routine r (lhist s') = by_routine r (lhist s);
  lr_past e : e ∈ lhist s → e ∈ lhist s'
}.

#[export] Instance l_rely_preorder r : PreOrder (l_rely r).
Proof.
  split; [by split|]. intros s1 s2 s3 H1 H2.
  split; try (intros; apply H2, H1; done); try (intros; apply H1; [done|]; by apply H2).
  - intros Hr. destruct (lr_members _ _ _ H1 Hr), (lr_members _ _ _ H2 Hr). split; congruence.
  - intros Hd. destruct (lr_late _ _ _ H1 Hd), (lr_late _ _ _ H2 (lr_started _ _ _ H1 _ Hd)). split; congruence.
  - intros Hx. by apply H1, H2.
  - etrans; [apply H2 | apply H1].
Qed.

(** ** Changes that concern nobody *)

Record l_quiet s s' : Prop := {
  lq_started : started (lgo s') = started (lgo s);
  lq_chans : is_closed (chans (lgo s') Drained) = is_closed (chans (lgo s) Drained);
  lq_buffered : buffered (chans (lgo s') Drained) = buffered (chans (lgo s) Drained);
  lq_wgs : wgs (lgo s') = wgs (lgo s);
  lq_lease : lease_lost s → lease_lost s';
  lq_work : cancelled (lgo s') Work = cancelled (lgo s) Work;
  lq_queue : q_down (lqueue s') = q_down (lqueue s);
  lq_hist : lhist s' = lhist s
}.

Lemma l_quiet_rely r s s' : l_quiet s s' → l_rely r s s'.
Proof.
  intros [H1 H2 H3 H4 H5 H6 H7 H8].
  split; unfold work_cancelled, l_members, l_added, l_closed, l_done, l_down; rewrite ?H1, ?H2, ?H4, ?H6, ?H7, ?H8; done.
Qed.

Lemma may_abort_rely s s' : l_rely LbRunR s s' → may_abort s → may_abort s'.
Proof.
  intros H [Hc|[Hg|Hn]]; [left; by apply H | right; left; by apply H |]. right. right.
  intros r Hr Hw. apply (Hn r); [|done]. apply (lr_starter _ _ _ H); [by destruct r | done].
Qed.

Lemma l_quiet_Inv s s' : LInv s → l_quiet s s' → LInv s'.
Proof.
  intros HI H. pose proof (l_quiet_rely LbRunR _ _ H) as Hr. destruct H as [H1 H2 H3 H4 H5 H6 H7 H8].
  split; unfold all_gone, l_done, l_added, l_members, l_down, l_closed; rewrite ?H1, ?H2, ?H3, ?H4, ?H7, ?H8; try apply HI.
  - intros Hd. by apply H5, HI.
  - intros Hw. assert (work_cancelled s) as Hw' by (unfold work_cancelled in *; congruence).
    destruct (v_work _ HI Hw'). split; [auto | by eapply may_abort_rely].
Qed.

(** ** The calls *)

Definition l_may_record r {R} (k : LbRunCall R) (x : R) s : Prop :=
  match k in LbRunCall R return R → Prop with
  | LbGet => λ x, is_Some x → is_worker r ∧ r ∈ started (lgo s) ∧ r ∉ l_done s
  | LbDone _ => λ _, r ∉ l_done s
  | _ => λ _, True
  end x.

Lemma l_record_rely r r' {R} (k : LbRunCall R) x s : r' ≠ r → l_rely r' s (lb_record r k x s).
Proof.
  intros Hr. split; try done.
  - cbn [lhist lb_record]. by rewrite by_routine_ne.
  - intros e He. by apply list_elem_of_further.
Qed.

Lemma l_record_Inv r {R} (k : LbRunCall R) x s : LInv s → l_may_record r k x s → LInv (lb_record r k x s).
Proof.
  intros HI Hm. split; try apply HI.
  - intros r' Hd. cbn [lhist lb_record]. destruct (decide (r' = r)) as [->|Hr]; [|rewrite !count_ne by done; by apply HI].
    rewrite !count_cons, (v_over _ HI _ Hd). f_equal. destruct k; try done; cbn in *.
    destruct x; [|done]. by destruct (Hm ltac:(done)) as (_ & _ & []).
  - intros r' e [He|He]%elem_of_cons Ht; [|by apply (v_took _ HI _ e)]. simplify_eq. destruct k; try done. cbn in *.
    destruct x; [|done]. by destruct (Hm ltac:(done)) as (? & ? & _).
  - intros Hw. destruct (v_work _ HI Hw) as [Hl [?|[Hg|?]]]; (split; [done|]); [by left | | by right; right].
    right. left. by apply list_elem_of_further.
Qed.

(** Starting a goroutine. *)
Definition may_start q s : Prop :=
  match q with
  | LbWorkerR i => (i < workers)%nat ∧ LbDrainR ∉ started (lgo s) ∧ (length (l_members s) < l_added s)%nat ∧ ¬ work_cancelled s
  | LbDrainR => l_down s ∧ l_added s = length (l_members s)
  | LbRunR => True
  end.

Lemma l_members_start q s :
  l_members (set_lgo (start q (lgo s)) s) = if decide (is_worker q) then q :: l_members s else l_members s.
Proof. unfold l_members. cbn [started lgo set_lgo start]. by rewrite filter_cons. Qed.

Lemma l_start_rely r q s : lb_starter q ≠ Some r → may_start q s → l_rely r s (set_lgo (start q (lgo s)) s).
Proof.
  intros Hq Hm. split; try done.
  - intros q' Hs. by apply list_elem_of_further.
  - intros q' Hq' [->|Hs]%elem_of_cons; done.
  - intros ->. rewrite l_members_start. by destruct q.
  - intros Hd. rewrite l_members_start. destruct q; try done. by destruct Hm as (_ & [] & _).
Qed.

Lemma l_start_Inv q s : LInv s → q ∉ started (lgo s) → may_start q s → LInv (set_lgo (start q (lgo s)) s).
Proof.
  intros HI Hn Hm. split; try apply HI.
  - cbn. constructor; [done | apply HI].
  - cbn. intros i [<-|Hi]%elem_of_cons; [apply Hm | by apply HI].
  - destruct (v_finished _ HI) as [Hnd Hf]. split; [done|]. intros r Hr. destruct (Hf r Hr).
    split; [done | by apply list_elem_of_further].
  - change (l_added (set_lgo (start q (lgo s)) s)) with (l_added s). rewrite l_members_start.
    pose proof (v_added _ HI). case_decide; [|done]. destruct q; try done. cbn [length]. destruct Hm as (_ & _ & ? & _). lia.
  - intros r e He Ht. destruct (v_took _ HI r e He Ht). split; [done | by apply list_elem_of_further].
  - change (l_added (set_lgo (start q (lgo s)) s)) with (l_added s). rewrite l_members_start.
    intros [<-|Hs]%elem_of_cons; [done|]. destruct q; try (by apply HI). by destruct Hm as (_ & [] & _).
  - intros Hc. destruct (v_closed _ HI Hc) as [Hd Hg]. split; [by apply list_elem_of_further|].
    intros r Hw [->|Hr]%elem_of_cons; [|by apply Hg]. destruct q; try done. by destruct Hm as (_ & [] & _).
  - intros Hw. destruct (v_work _ HI Hw) as [Hl [Hc|[Hg|Hno]]]; (split; [done|]); [by left | by right; left |].
    right. right. intros r [->|Hr]%elem_of_cons Hwr; [|by apply (Hno r)]. destruct q; try done. by apply Hm.
Qed.

(** The channel. *)
Lemma l_chan_rely r x s : is_closed (chans (lgo s) Drained) = is_closed x ∨ is_closed x = true ∧ r ≠ LbDrainR →
  l_rely r s (set_lgo (set_chan Drained x (lgo s)) s).
Proof.
  intros Hx. split; try done; unfold l_closed; cbn; rewrite fn_lookup_insert.
  - intros Hc. destruct Hx as [<- | [? _]]; done.
  - intros -> Hc. destruct Hx as [-> | [_ ?]]; done.
Qed.

Lemma l_chan_Inv x s : LInv s → buffered x = 0%nat → (is_closed x = true → l_closed s ∨ all_gone s) →
  (l_closed s → is_closed x = true) → LInv (set_lgo (set_chan Drained x (lgo s)) s).
Proof.
  intros HI Hb Hx Hm. split; try apply HI; unfold l_closed; cbn; rewrite ?fn_lookup_insert.
  - intros [?|?]%Hx; [by apply HI | done].
  - intros Hw. destruct (v_work _ HI Hw) as [Hl [Hc|?]]; (split; [done|]); [left | by right].
    unfold l_closed. cbn. rewrite fn_lookup_insert. by apply Hm.
  - done.
Qed.

(** The wait group. *)
Lemma l_wg_change x s : wgs (lgo (set_lgo (set_wg LbWorkersWG x (lgo s)) s)) LbWorkersWG = x.
Proof. cbn. by rewrite fn_lookup_insert. Qed.

Lemma l_add_rely r s : r ≠ LbRunR → LbDrainR ∉ started (lgo s) →
  l_rely r s (set_lgo (set_wg LbWorkersWG (mkWaitGroup (S (l_added s)) (l_done s)) (lgo s)) s).
Proof. intros Hr Hd. split; try done; unfold l_done; by rewrite l_wg_change. Qed.

Lemma l_add_Inv s : LInv s → LbDrainR ∉ started (lgo s) →
  LInv (set_lgo (set_wg LbWorkersWG (mkWaitGroup (S (l_added s)) (l_done s)) (lgo s)) s).
Proof.
  intros HI Hd. split; try apply HI; unfold all_gone, l_done, l_added; rewrite ?l_wg_change; try apply HI.
  - pose proof (v_added _ HI). cbn [added]. change (length (l_members s) ≤ S (l_added s))%nat. lia.
  - by intros ?.
Qed.

Lemma l_done_rely r r' s : r' ≠ r →
  l_rely r' s (set_lgo (set_wg LbWorkersWG (mkWaitGroup (l_added s) (r :: l_done s)) (lgo s)) s).
Proof.
  intros Hr. split; try done; unfold l_done, l_added; rewrite ?l_wg_change; cbn [finished added].
  - intros q Hq. by apply list_elem_of_further.
  - by intros [->|?]%elem_of_cons.
Qed.

Lemma l_done_Inv r s : LInv s → is_worker r → r ∈ started (lgo s) → r ∉ l_done s →
  lb_took r (lhist s) = lb_gave r (lhist s) →
  LInv (set_lgo (set_wg LbWorkersWG (mkWaitGroup (l_added s) (r :: l_done s)) (lgo s)) s).
Proof.
  intros HI Hw Hs Hn Hb. destruct (v_finished _ HI) as [Hnd Hf].
  split; try apply HI; unfold all_gone, l_done, l_added; rewrite ?l_wg_change; cbn [finished added]; try apply HI.
  - split; [by constructor|]. intros q [->|Hq]%elem_of_cons; [done | by apply Hf].
  - intros q [->|Hq]%elem_of_cons; [done | by apply HI].
  - intros Hc. destruct (v_closed _ HI Hc) as [Hd Hg]. split; [done|]. intros q Hq Hqs. by apply list_elem_of_further, Hg.
Qed.

(** The contexts and the queue. *)
Lemma l_cancel_rely r s : r ≠ LbRunR → l_rely r s (set_lgo (cancel Work (lgo s)) s).
Proof. intros Hr. by split. Qed.

Lemma l_cancel_Inv s : LInv s → lease_lost s → may_abort s → LInv (set_lgo (cancel Work (lgo s)) s).
Proof. intros HI Hl Hm. by split; try apply HI. Qed.

Lemma l_lease_quiet s : l_quiet s (set_lgo (cancel Lease (lgo s)) s).
Proof. split; try done. Qed.

Lemma l_queue_quiet (q : Q) s : q_down q = q_down (lqueue s) → l_quiet s (set_lqueue q s).
Proof. by split. Qed.

Lemma l_down_rely r s : l_rely r s (set_lqueue (q_ShutDown (lqueue s)) s).
Proof. split; try done. intros _. apply shutdown_down. Qed.

Lemma l_down_Inv s : LInv s → lease_lost s → LInv (set_lqueue (q_ShutDown (lqueue s)) s).
Proof.
  intros HI Hl. split; try apply HI; [done|]. intros Hd. split; [apply shutdown_down | by apply HI].
Qed.

(** ** What is known at a call *)

Definition l_at_prim r {R} (k : LbGoCall R) s : Prop :=
  match k with
  | Go q => lb_starter q = Some r ∧ q ∉ started (lgo s) ∧ may_start q s
  | Close _ => r = LbDrainR ∧ ¬ l_closed s ∧ all_gone s
  | Select cases _ => r = LbRunR ∧ (OnDone Lease ∈ cases ∨ ∃ d, Timer d ∈ cases)
  | Cancel x => x = Work ∧ r = LbRunR ∧ lease_lost s ∧ may_abort s
  | WgAdd _ => r = LbRunR ∧ LbDrainR ∉ started (lgo s)
  | WgDone _ => is_worker r ∧ r ∈ started (lgo s) ∧ r ∉ l_done s ∧ lb_took r (lhist s) = lb_gave r (lhist s)
  | WgWait _ => r = LbDrainR
  | Send _ | Exit => False
  | Begin | CtxErr _ => True
  end.

Definition l_at r R (k : LbRunCall R) s : Prop :=
  match k with
  | LbPrim k => l_at_prim r k s
  | LbGet => is_worker r ∧ r ∈ started (lgo s) ∧ r ∉ l_done s
  | LbDone _ => is_worker r ∧ r ∉ l_done s
  | LbShutDown => r = LbRunR ∧ lease_lost s
  | LbCacheSync => r = LbRunR
  | _ => is_worker r
  end.

Lemma all_gone_rely s s' : l_rely LbDrainR s s' → all_gone s → all_gone s'.
Proof.
  intros H [Hd Hg]. split; [by apply H|]. intros r Hw Hr. apply H, Hg; [done|].
  assert (r ∈ l_members s) as [_ Hm]%list_elem_of_filter; [|done].
  destruct (lr_late _ _ _ H Hd) as [<- _]. by apply list_elem_of_filter.
Qed.

Lemma l_may_start_rely q s s' : l_rely LbRunR s s' → may_start q s → may_start q s'.
Proof.
  intros H Hm. destruct (lr_members _ _ _ H eq_refl) as [H1 H2]. destruct q; [done | |]; cbn in *; rewrite H1, H2.
  - destruct Hm. split; [by apply (lr_down _ _ _ H) | done].
  - destruct Hm as (? & Hd & ? & Ha). split_and!; [done | | done | intros Hw; by apply Ha, H].
    intros Hi. by apply Hd, (lr_starter _ _ _ H).
Qed.

Lemma l_balance_rely r s s' : l_rely r s s' → lb_took r (lhist s) = lb_gave r (lhist s) →
  lb_took r (lhist s') = lb_gave r (lhist s').
Proof. intros H Hb. by rewrite !(count_same _ _ _ _ (lr_mine _ _ _ H)). Qed.

Lemma l_at_rely r R (k : LbRunCall R) s s' : l_at r R k s → l_rely r s s' → l_at r R k s'.
Proof.
  intros Hk H. destruct k as [R k| | | | | | | |]; cbn in *; try done.
  - destruct k; cbn in *; try done.
    + destruct Hk as (Hq & Hn & Hm). split_and!; [done | intros Hi; by apply Hn, (lr_starter _ _ _ H) |].
      destruct q; try done; injection Hq as <-; by eapply l_may_start_rely.
    + destruct Hk as (-> & Hn & Hg). split_and!; [done | intros Hx; by apply Hn, H | by eapply all_gone_rely].
    + destruct Hk as (-> & -> & Hl & Hm). split_and!; [done | done | by apply H | by eapply may_abort_rely].
    + destruct Hk as (-> & Hd). split; [done|]. intros Hi. by apply Hd, (lr_starter _ _ _ H).
    + destruct Hk as (Hw & Hs & Hn & Hb). split_and!; [done | by apply H | intros Hx; by apply Hn, H | by eapply l_balance_rely].
  - destruct Hk as (Hw & Hs & Hn). split_and!; [done | by apply H | intros Hx; by apply Hn, H].
  - destruct Hk as (Hw & Hn). split; [done | intros Hx; by apply Hn, H].
  - destruct Hk as (-> & Hl). split; [done | by apply H].
Qed.

(** ** The step *)

Lemma l_prim_respects r R (k : LbGoCall R) s x g : LInv s → l_at_prim r k s → go_answers r R k (lgo s) x g →
  LInv (set_lgo g s) ∧ ∀ r', r' ≠ r → l_rely r' s (set_lgo g s).
Proof.
  intros HI Hk Ha. revert Hk. remember (lgo s) as g0 eqn:Hg. revert Hg.
  assert (∀ s', l_quiet s s' → LInv s' ∧ ∀ r', r' ≠ r → l_rely r' s s') as Hquiet.
  { intros s' Hq. split; [by eapply l_quiet_Inv | intros; by apply l_quiet_rely]. }
  destruct Ha as [g Hb | q g Hq | [] g Hc | [] g Hc Hb | cases default i gd g Hi Hr | cases g Hn | c g | c g | [] g | [] g Hl | w g Hl | g];
    intros -> Hk; cbn in Hk; try by apply Hquiet.
  - destruct Hk as (Hs & _ & Hm). split; [by apply l_start_Inv|]. intros r' Hr'. apply l_start_rely; [congruence | done].
  - destruct Hk as (-> & Hn & Hg). split.
    + apply l_chan_Inv; cbn; [done | apply HI | by right | done].
    + intros r' Hr'. apply l_chan_rely. by right.
  - destruct gd as [[] | x | ]; cbn [receive]; try by apply Hquiet. split.
    + apply l_chan_Inv; cbn; [done | by rewrite (v_buffered _ HI) | by left | done].
    + intros r' Hr'. apply l_chan_rely. by left.
  - destruct Hk as (-> & -> & Hl & Hm). split; [by apply l_cancel_Inv|]. intros r' Hr'. by apply l_cancel_rely.
  - destruct Hk as (-> & Hd). split; [by apply l_add_Inv|]. intros r' Hr'. by apply l_add_rely.
  - destruct Hk as (Hm & Hs & Hn & Ho). split; [by apply l_done_Inv|]. intros r' Hr'. by apply l_done_rely.
Qed.

Lemma l_effect_respects r R (k : LbRunCall R) s x s' : LInv s → l_at r R k s → lb_effect r R k s x s' →
  (LInv s' ∧ ∀ r', r' ≠ r → l_rely r' s s') ∧ l_may_record r k x s'.
Proof.
  intros HI Hk He. revert HI Hk.
  assert (∀ s s', LInv s → l_quiet s s' → LInv s' ∧ ∀ r', r' ≠ r → l_rely r' s s') as Hquiet.
  { intros s1 s2 H1 Hq. split; [by eapply l_quiet_Inv | intros; by apply l_quiet_rely]. }
  destruct He as [R k s x g Ha | | | s x q Hx | key s | key s | key s | s | ]; intros HI Hk; cbn in Hk |- *;
    try (split; [by apply Hquiet | done]).
  - split; [by eapply l_prim_respects | done].
  - split; [|done]. apply Hquiet; [done|]. apply l_queue_quiet. destruct x; [by apply (get_takes _ _ _ Hx)|].
    by destruct (get_quits _ _ Hx) as [-> ->].
  - split; [|apply Hk]. apply Hquiet; [done|]. apply l_queue_quiet, done_keeps.
  - split; [|done]. apply Hquiet; [done|]. apply l_queue_quiet, forget_keeps.
  - split; [|done]. apply Hquiet; [done|]. apply l_queue_quiet, again_keeps.
  - split; [|done]. destruct Hk. split; [by apply l_down_Inv|]. intros. apply l_down_rely.
Qed.

Lemma l_calls_respect r R (k : LbRunCall R) s x s' : LInv s → l_at r R k s → lb_answered r R k s x s' →
  LInv s' ∧ ∀ r', r' ≠ r → l_rely r' s s'.
Proof.
  intros HI Hk [s1 He]. destruct (l_effect_respects _ _ _ _ _ _ HI Hk He) as [[HI' Hr] Hm].
  split; [by apply l_record_Inv|]. intros r' Hr'. etrans; [by apply Hr | by apply l_record_rely].
Qed.

Lemma l_environment_respects s s' : LInv s → lb_environment s s' → LInv s' ∧ ∀ r, l_rely r s s'.
Proof.
  assert (∀ s s', LInv s → l_quiet s s' → LInv s' ∧ ∀ r, l_rely r s s') as Hquiet.
  { intros s1 s2 H1 Hq. split; [by eapply l_quiet_Inv | intros; by apply l_quiet_rely]. }
  intros HI He. destruct He as [s Hn | s | s | key s | q s Hq].
  - split; [by apply l_start_Inv|]. intros r. by apply l_start_rely.
  - apply Hquiet; [done | apply l_lease_quiet].
  - by apply Hquiet.
  - apply Hquiet; [done|]. apply l_queue_quiet, add_keeps.
  - apply Hquiet; [done|]. apply l_queue_quiet. by apply tick_keeps.
Qed.

Lemma l_init_Inv : LInv lb_init_world.
Proof.
  split; cbn; try done; try (by constructor); try (by intros ? ?%not_elem_of_nil); try (by intros ?%not_elem_of_nil).
  - split; [constructor | by intros ? ?%not_elem_of_nil].
  - by intros r e ?%not_elem_of_nil.
  - unfold l_down. cbn. by rewrite new_up.
Qed.
End Logic.

Section Correct.
Context {Q : Type} `{HQueue : WorkQueue Q} `{!WorkQueueLaws Q} (workers rounds : nat).
Implicit Types (s : LbRunWorld Q) (r : LbRoutine).

Abbreviation lens := (ensures (lb_answered (Q := Q)) (LInv workers) l_rely (l_at workers)).

(** What a call leaves. *)
Definition l_after r {R} (k : LbRunCall R) s (x : R) s2 : Prop :=
  ∃ s', s2 = lb_record r k x s' ∧
  match k in LbRunCall R return R → Prop with
  | LbPrim k => λ x, ∃ g, go_after r k (lgo s) x g ∧ s' = set_lgo g s
  | LbCacheSync => λ x, (x = false → lease_lost s) ∧ s' = s
  | LbGet => λ x, ∃ q, q_Get (lqueue s) = Some (x, q) ∧ s' = set_lqueue q s
  | LbDone key => λ _, s' = set_lqueue (q_Done key (lqueue s)) s
  | LbForget key => λ _, s' = set_lqueue (q_Forget key (lqueue s)) s
  | LbAgain key => λ _, s' = set_lqueue (q_AddRateLimited key (lqueue s)) s
  | LbShutDown => λ _, s' = set_lqueue (q_ShutDown (lqueue s)) s
  | _ => λ _, s' = s
  end x.

Lemma l_answered_after r R (k : LbRunCall R) s x s2 : lb_answered r R k s x s2 → l_after r k s x s2.
Proof. intros [s' He]. exists s'. split; [done|]. destruct He; try done; cbn; eauto using go_answers_after. Qed.

Lemma lens_step r {R B} (k : LbRunCall R) (f : R → Prog LbRunCall B) P s : l_at workers r R k s →
  (∀ s1 x s2, l_rely r s s1 → LInv workers s1 → LInv workers s2 → l_after r k s1 x s2 → lens r (f x) P s2) →
  lens r (pbind (call k) f) P s.
Proof. intros Hk Hf. split; [done|]. intros s1 x s2 Hr H1 Ha H2. by eapply Hf; eauto using l_answered_after. Qed.

Lemma lens_last r {R} (k : LbRunCall R) (P : R → LbRunWorld Q → Prop) s : l_at workers r R k s →
  (∀ s1 x s2, l_rely r s s1 → LInv workers s1 → LInv workers s2 → l_after r k s1 x s2 → P x s2) → lens r (call k) P s.
Proof. intros Hk Hf. split; [done|]. intros s1 x s2 Hr H1 Ha H2. by eapply Hf; eauto using l_answered_after. Qed.

(** ** A worker *)

(** [r] is at work, with [n] items in its hands. *)
Definition l_holds (n : nat) r s : Prop :=
  is_worker r ∧ r ∈ started (lgo s) ∧ r ∉ l_done s ∧ lb_took r (lhist s) = (n + lb_gave r (lhist s))%nat.

Lemma l_holds_rely n r s s' : l_rely r s s' → l_holds n r s → l_holds n r s'.
Proof.
  intros H (Hw & Hs & Hn & Hb). split_and!; [done | by apply H | intros Hx; by apply Hn, H |].
  by rewrite !(count_same _ _ _ _ (lr_mine _ _ _ H)).
Qed.

(** A call that takes nothing and gives nothing back. *)
Lemma l_holds_quiet n r {R} (k : LbRunCall R) (x : R) s s' : l_holds n r s → l_quiet s s' →
  lev_took (mkEv k x) = false → lev_gave (mkEv k x) = false → l_holds n r (lb_record r k x s').
Proof.
  intros (Hw & Hs & Hn & Hb) Hq Ht Hg. split_and!; [done | | |].
  - cbn. by rewrite (lq_started _ _ Hq).
  - unfold l_done. cbn. by rewrite (lq_wgs _ _ Hq).
  - cbn [lhist lb_record]. rewrite !count_cons, Ht, Hg, (lq_hist _ _ Hq). exact Hb.
Qed.

Lemma lens_quiet n r {R} (k : LbRunCall R) s : l_holds n r s → l_at workers r R k s →
  (∀ s1 x s2, l_after r k s1 x s2 → ∃ s', s2 = lb_record r k x s' ∧ l_quiet s1 s') →
  (∀ x, lev_took (mkEv k x) = false ∧ lev_gave (mkEv k x) = false) → lens r (call k) (λ _, l_holds n r) s.
Proof.
  intros Hh Hk Hq He. apply lens_last; [done|]. intros s1 x s2 Hr _ _ (s' & -> & Hs)%Hq.
  destruct (He x). by eapply l_holds_quiet; [by eapply l_holds_rely | | |].
Qed.

Lemma lb_next_item_ok r s : l_holds 0 r s → lens r lb_next_item (λ b s', l_holds 0 r s' ∧ (b = false → l_down s')) s.
Proof.
  intros Hh. apply lens_step; [by destruct Hh as (? & ? & ? & _)|]. intros s1 x s2 Hr _ _ (s' & -> & q & Hq & ->).
  destruct (l_holds_rely _ _ _ _ Hr Hh) as (Hw & Hs & Hn & Hb). destruct x as [key|].
  - eapply (ensures_bind _ _ _ _ _ _ _ (λ _, l_holds 1 r)).
    { eapply lens_quiet; [split_and!; [done | done | done |] | done | intros s2 x s3 (s' & -> & ->); by exists s2 | done].
      cbn [lhist lb_record set_lqueue]. rewrite !count_cons, Hb. done. }
    intros err s2 H2. eapply (ensures_bind _ _ _ _ _ _ _ (λ _, l_holds 1 r)).
    { destruct err; (eapply lens_quiet; [done | by destruct H2 | | done]); intros s3 x s4 (s' & -> & ->); eexists; (split; [done|]);
        apply l_queue_quiet; [apply again_keeps | apply forget_keeps]. }
    intros _ s3 H3. apply lens_step; [by destruct H3 as (? & ? & ? & _)|]. intros s4 x s5 Hr' _ _ (s' & -> & ->).
    destruct (l_holds_rely _ _ _ _ Hr' H3) as (_ & Hs3 & Hn3 & Hb3).
    split; [split_and!; [done | done | done |] | done]. cbn [lhist lb_record set_lqueue]. rewrite !count_cons, Hb3. done.
  - split; [|intros _; by apply (get_quits _ _ Hq)]. split_and!; [done | done | done |].
    cbn [lhist lb_record set_lqueue]. by rewrite !count_cons, Hb.
Qed.

Lemma lb_runWorker_ok r n : ∀ s, l_holds 0 r s → lens r (lb_runWorker n) (λ _, l_holds 0 r) s.
Proof.
  induction n as [|n IH]; intros s Hh.
  - split; [apply Hh|]. intros s1 x s2 _ _ [s' He]. inversion He.
  - eapply ensures_bind; [by apply lb_next_item_ok|]. intros [|] s' [Hh' _]; [by apply IH | done].
Qed.

Lemma lb_until_ok r n (f : Prog LbRunCall unit) : (∀ s, l_holds 0 r s → lens r f (λ _, l_holds 0 r) s) →
  ∀ s, l_holds 0 r s → lens r (lb_until n f) (λ _, l_holds 0 r) s.
Proof.
  intros Hf. induction n as [|n IH]; intros s Hh.
  - split; [apply Hh|]. intros s1 x s2 _ _ [s' He]. inversion He.
  - eapply ensures_bind.
    { eapply lens_quiet; [done | done | | done]. intros s1 x s2 (s' & -> & g & [_ ->] & ->). eexists. split; [done|]. by split. }
    intros [|] s1 H1; [done|]. eapply (ensures_bind _ _ _ _ _ _ _ (λ _, l_holds 0 r)); [by apply Hf|]. intros _ s2 H2. by apply IH.
Qed.

Lemma lb_worker_ok r s : l_holds 0 r s → lens r (lb_worker rounds) (λ _ s', r ∈ l_done s') s.
Proof.
  intros Hh. eapply ensures_bind; [apply lb_until_ok; [intros; by apply lb_runWorker_ok | done]|].
  intros _ s1 (Hw & Hs & Hn & Hb). apply lens_last; [by split_and!|].
  intros s2 x s3 _ _ _ (s' & -> & g & -> & ->). unfold l_done. cbn. rewrite fn_lookup_insert. left.
Qed.

(** ** [Run] and its drain *)

(** What [Run] knows while it starts its workers. *)
Definition l_starting i s : Prop :=
  (∀ j, (i ≤ j)%nat → LbWorkerR j ∉ started (lgo s)) ∧ LbDrainR ∉ started (lgo s) ∧
  length (l_members s) = l_added s ∧ ¬ work_cancelled s.

Lemma l_starting_rely i s s' : l_rely LbRunR s s' → l_starting i s → l_starting i s'.
Proof.
  intros H (Hj & Hd & Hl & Hc). destruct (lr_members _ _ _ H eq_refl) as [H1 H2]. split_and!.
  - intros j Hi Hs. apply (Hj j Hi), (lr_starter _ _ _ H); done.
  - intros Hs. by apply Hd, (lr_starter _ _ _ H).
  - congruence.
  - intros Hw. by apply Hc, H.
Qed.

Lemma lb_start_workers_ok n : ∀ i s, (i + n = workers)%nat → l_starting i s →
  lens LbRunR (lb_start_workers i n) (λ _, l_starting workers) s.
Proof.
  induction n as [|n IH]; intros i s Hn Hs; [by rewrite <- Hn, Nat.add_0_r|].
  apply lens_step; [split; [done | apply Hs]|]. intros s1 x s2 Hr _ _ (s' & -> & g & -> & ->).
  destruct (l_starting_rely _ _ _ Hr Hs) as (Hj & Hd & Hl & Hc).
  apply lens_step.
  { split; [done|]. split; [apply (Hj i); lia|]. split_and!; [lia | done | | done].
    unfold l_added. cbn. rewrite fn_lookup_insert. cbn. fold (l_added s1). rewrite <- Hl. unfold l_members. cbn. lia. }
  intros s3 y s4 Hr' _ _ (s' & -> & g & -> & ->).
  assert (∀ q, lb_starter q = Some LbRunR → q ∈ started (lgo s3) → q ∈ started (lgo s1)) as Hst
    by (intros q Hq; apply (lr_starter _ _ _ Hr' q Hq)).
  destruct (lr_members _ _ _ Hr' eq_refl) as [Hm Ha]. apply IH; [lia|]. split_and!.
  - intros j Hij. cbn. intros [[= ->]|Hi]%elem_of_cons; [lia|]. apply (Hj j); [lia | by apply Hst].
  - cbn. intros [[=]|Hi]%elem_of_cons. by apply Hd, Hst.
  - change (length (l_members (set_lgo (start (LbWorkerR i) (lgo s3)) s3)) = l_added s3).
    rewrite l_members_start, decide_True by done. cbn [length]. rewrite Hm, Ha. unfold l_added at 1. cbn.
    rewrite fn_lookup_insert. cbn. fold (l_added s1). rewrite <- Hl. done.
  - intros Hw. apply Hc. by apply (lr_alive _ _ _ Hr').
Qed.

(** The answer to a wait is no only when its timer fired. *)
Lemma drained_in_time_ok d s :
  lens LbRunR (drained_in_time d) (λ b s', if b : bool then l_closed s' else
    (LbRunR, mkEv (LbPrim (Select [Recv Drained; Timer d] false)) (Some 1%nat)) ∈ lhist s') s.
Proof.
  apply lens_step; [split; [done|]; right; exists d; by right; left|].
  intros s1 x s2 _ HI _ (s' & -> & g & Hg & ->). destruct x as [[|[|i]]|].
  - destruct Hg as (gd & [= <-] & [Hb|Hc] & ->); [rewrite (v_buffered _ _ HI) in Hb; lia|].
    rewrite bool_decide_true by done. unfold l_closed. cbn. by rewrite fn_lookup_insert.
  - rewrite bool_decide_false by done. left.
  - by destruct Hg as (gd & ? & _).
  - by destruct Hg.
Qed.

(** What nothing takes back. *)
Record l_grows s s' : Prop := {
  lg_lease : lease_lost s → lease_lost s';
  lg_down : l_down s → l_down s';
  lg_past e : e ∈ lhist s → e ∈ lhist s'
}.

Lemma l_rely_grows r s s' : l_rely r s s' → l_grows s s'.
Proof. intros H. split; apply H. Qed.

Lemma l_answered_grows r R (k : LbRunCall R) s x s' : lb_answered r R k s x s' → l_grows s s'.
Proof.
  intros [s1 He]. assert (∀ q, (l_down s → q_down q = true) → l_grows s (lb_record r k x (set_lqueue q s))) as Hq.
  { intros q Hd. split; [done | exact Hd | intros; by apply list_elem_of_further]. }
  destruct He as [R k s x g Ha | | | s x q Hx | key s | key s | key s | s | ];
    try (by split; [done | done | intros; apply list_elem_of_further]).
  - split; [|done | intros; by apply list_elem_of_further]. unfold lease_lost. cbn.
    destruct Ha as [| | | | ? ? ? [] ? | | | [] | | | |]; done.
  - apply Hq. unfold l_down. destruct x; [by destruct (get_takes _ _ _ Hx) as [_ ->] | intros _; apply (get_quits _ _ Hx)].
  - apply Hq. unfold l_down. by rewrite (proj2 (done_keeps key (lqueue s))).
  - apply Hq. unfold l_down. by rewrite (proj2 (forget_keeps key (lqueue s))).
  - apply Hq. unfold l_down. by rewrite (proj2 (again_keeps key (lqueue s))).
  - apply Hq. intros _. apply shutdown_down.
Qed.

Lemma lens_keep {B} r (p : Prog LbRunCall B) (K : LbRunWorld Q → Prop) P : (∀ s s', l_grows s s' → K s → K s') →
  ∀ s, K s → lens r p P s → lens r p (λ b s', P b s' ∧ K s') s.
Proof.
  intros HK. induction p as [b | R k kont IH]; intros s Ks; simpl; [done|].
  intros [Hk Hp]. split; [done|]. intros s1 x s2 Hr H1 Ha H2. apply IH; [|by apply (Hp s1)].
  eapply HK; [by eapply l_answered_grows|]. eapply HK; [by eapply l_rely_grows | done].
Qed.

(** [Run] may abort what is in flight, and does. *)
Definition l_ending s : Prop := lease_lost s ∧ l_down s.

Lemma l_ending_grows s s' : l_grows s s' → l_ending s → l_ending s'.
Proof. intros H [? ?]. split; by apply H. Qed.

Lemma l_abort_ok s : l_ending s → may_abort s →
  lens LbRunR (call (LbPrim (Cancel Work))) (λ _ s', (l_down s' ∧ work_cancelled s') ∧ l_ending s') s.
Proof.
  intros He Hm. apply lens_keep; [by apply l_ending_grows | done |]. apply lens_last; [split_and!; [done | done | apply He | done]|].
  intros s1 x s2 Hr _ _ (s' & -> & g & -> & ->). split; [by apply Hr, He | done].
Qed.

Lemma lb_drain_ok s : l_ending s → LbDrainR ∉ started (lgo s) → l_added s = length (l_members s) →
  lens LbRunR lb_drain (λ _ s', may_abort s' ∧ l_ending s') s.
Proof.
  intros He Hd Ha. apply lens_step; [split_and!; [done | done | by split; [apply He|]]|].
  intros s1 x s2 Hr _ _ (s' & -> & g & -> & ->).
  assert (l_ending s1) as H1 by (eapply l_ending_grows; [by eapply l_rely_grows | done]).
  eapply ensures_bind; [apply (lens_keep _ _ l_ending); [apply l_ending_grows | exact H1 | apply drained_in_time_ok]|].
  intros [|] s3 [Hc H3]; [by split; [left|]|].
  assert (may_abort s3) as Hm by (by right; left).
  eapply ensures_post; [apply (lens_keep _ _ (λ s, grace_over s ∧ l_ending s) (λ _ _, True))|].
  - intros s5 s6 Hg [? ?]. split; [by apply Hg | by eapply l_ending_grows].
  - done.
  - eapply ensures_bind; [by apply l_abort_ok|]. intros _ s4 _. eapply ensures_bind; [apply drained_in_time_ok | done].
  - intros _ s4 [_ [Hg H4]]. split; [by right; left | done].
Qed.

Lemma lb_Run_ok s : l_starting 0 s →
  lens LbRunR (lb_Run workers) (λ _ s', l_down s' ∧ work_cancelled s') s.
Proof.
  intros Hs. apply lens_step; [done|]. intros s1 ok s2 Hr _ _ (s' & -> & Hok & ->).
  apply (l_starting_rely _ _ _ Hr) in Hs. eapply (ensures_bind _ _ _ _ _ _ _ (λ _ s', may_abort s' ∧ l_ending s')).
  - destruct ok.
    + eapply (ensures_bind _ _ _ _ _ _ _ (λ _, l_starting workers)); [by apply lb_start_workers_ok|]. intros _ s3 H3.
      apply lens_step; [split; [done|]; left; left|]. intros s4 x s5 Hr' _ _ (s' & -> & g & Hg & ->).
      assert (lease_lost s4 ∧ g = lgo s4) as [Hl ->].
      { destruct x as [[|i]|]; [|by destruct Hg as (gd & ? & _)|by destruct Hg].
        by destruct Hg as (gd & [= <-] & Hl & ->). }
      apply (l_starting_rely _ _ _ Hr') in H3.
      apply lens_step; [done|]. intros s6 y s7 Hr'' _ _ (s' & -> & ->).
      apply (l_starting_rely workers (lb_record LbRunR (LbPrim (Select [OnDone Lease] false)) x (set_lgo (lgo s4) s4)) s6 Hr'') in H3.
      apply lb_drain_ok; [split; [by apply Hr'' | apply shutdown_down] | apply H3 | symmetry; apply H3].
    + apply lens_last; [split; [done | by apply Hok]|]. intros s3 x s4 Hr' _ _ (s' & -> & ->).
      apply (l_starting_rely 0 (lb_record LbRunR LbCacheSync false s1) _ Hr') in Hs. split.
      * right. right. intros r Hi Hw. destruct r as [| |i]; try done. by apply (proj1 Hs i (Nat.le_0_l i)).
      * split; [by apply Hr', Hok | apply shutdown_down].
  - intros _ s3 [Hm He]. eapply ensures_post; [by apply l_abort_ok|]. by intros _ s4 [? _].
Qed.

(** ** All of them *)

Definition lb_fin r (b : unit) s : Prop :=
  match r with LbRunR => l_down s ∧ work_cancelled s | _ => True end.

Lemma lb_fin_rely r b s s' : lb_fin r b s → l_rely r s s' → lb_fin r b s'.
Proof. destruct r; try done. intros [? ?] Hr. split; by apply Hr. Qed.

Lemma lb_drainer_ok s : LbDrainR ∈ started (lgo s) → ¬ l_closed s →
  lens LbDrainR (call (LbPrim (WgWait LbWorkersWG)) ;;; call (LbPrim (Close Drained)))%prog (λ _ _, True) s.
Proof.
  intros Hs Hc. apply lens_step; [done|]. intros s1 x s2 Hr HI _ (s' & -> & g & [Hl ->] & ->).
  assert (LbDrainR ∈ started (lgo s1)) as Hs1 by (by apply Hr).
  apply lens_last; [|done]. split; [done|]. split; [intros Hx; by apply Hc, Hr|]. split; [done|].
  intros r Hw Hi. destruct (v_drain _ _ HI Hs1) as [_ Ha]. destruct (v_finished _ _ HI) as [Hnd Hf].
  apply (all_finished (l_done s1) (l_members s1)); [done | | | by apply list_elem_of_filter].
  - intros q Hq. by apply list_elem_of_filter, Hf.
  - unfold l_done. rewrite Hl. fold (l_added s1). lia.
Qed.

Lemma lb_body_ok r : lens r (lb_body workers rounds r) (lb_fin r) lb_init_world.
Proof.
  apply lens_step; [done|]. intros s1 x s2 Hr HI _ (s' & -> & g & [Hs ->] & ->). destruct r as [| |i].
  - apply lb_Run_ok. apply (l_starting_rely 0 lb_init_world _ Hr).
    split_and!; [by intros j _ ?%not_elem_of_nil | by intros ?%not_elem_of_nil | done | done].
  - apply lb_drainer_ok; [done|]. intros Hc. by apply (lr_open _ _ _ Hr) in Hc.
  - eapply ensures_post; [apply lb_worker_ok | done]. split_and!; [done | done | |].
    + intros Hd. apply (lr_finisher _ _ _ Hr) in Hd. by apply not_elem_of_nil in Hd.
    + cbn [lhist lb_record set_lgo]. rewrite !count_cons. by rewrite !(count_same _ _ _ _ (lr_mine _ _ _ Hr)).
Qed.

Definition lb_known : LbConfig → Prop := known (lb_answered (Q := Q)) (lb_routines workers) (LInv workers) l_rely (l_at workers) lb_fin.

Lemma lb_routines_NoDup : NoDup (lb_routines workers).
Proof.
  constructor; [|constructor].
  - intros [?|(i & ? & _)%list_elem_of_fmap]%elem_of_cons; done.
  - by intros (i & ? & _)%list_elem_of_fmap.
  - apply NoDup_fmap_2; [by intros ? ? [=] | apply NoDup_seq].
Qed.

Lemma lb_known_turns x y : lb_known x → turns lb_answered lb_environment (lb_routines workers) x y → lb_known y.
Proof.
  apply known_turns.
  - apply _.
  - intros. by eapply l_at_rely.
  - intros. by eapply l_calls_respect.
  - intros. by apply l_environment_respects.
  - apply lb_routines_NoDup.
  - intros. by eapply lb_fin_rely.
Qed.

Lemma lb_turn_rely x y : lb_known x → turns lb_answered lb_environment (lb_routines workers) x y → ∃ r, l_rely r x.2 y.2.
Proof.
  apply (known_turn_rely _ _ _ _ _ _) with (r0 := LbRunR) (r1 := LbDrainR);
    [by intros; eapply l_calls_respect | by intros; eapply l_environment_respects|].
  intros [| |i]; [by right | by left..].
Qed.

Lemma lb_known_runs x : lb_runs workers (lb_init workers rounds) x → lb_known x.
Proof.
  assert (lb_known (lb_init workers rounds)) as H0.
  { split; [apply l_init_Inv|]. intros i r p Hi Hp. change ((lb_body workers rounds <$> lb_routines workers) !! i = Some p) in Hp.
    rewrite list_lookup_fmap, Hi in Hp. injection Hp as <-. apply lb_body_ok. }
  intros Hr. revert H0. generalize (lb_init (Q := Q) workers rounds), Hr. induction 1; [done|]. eauto using lb_known_turns.
Qed.

(** ** In-flight work and the lease *)

(** What the workers took they have given back. *)
Definition settled s : Prop :=
  ∀ r, is_worker r → r ∈ started (lgo s) → lb_took r (lhist s) = lb_gave r (lhist s).

Lemma may_abort_settled s : LInv workers s → may_abort s → settled s ∨ grace_over s.
Proof.
  intros HI [Hc|[Hg|Hno]]; [left | by right | left; intros r Hw Hs; by destruct (Hno r Hs)].
  intros r Hw Hs. by apply (v_over _ _ HI), (v_closed _ _ HI Hc).
Qed.

(** C31: a reconcile in flight survives the loss of the lease.  The context of the
    calls of a reconcile is cancelled only when the lease is lost, and then only when
    every item that a worker took was given back, or the grace period of the drain
    was over before the workers were gone.  When [Run] has returned, that context is
    cancelled and the queue is shut down. *)
Theorem work_outlives_lease ts s :
  lb_runs workers (lb_init workers rounds) (ts, s) →
  (work_cancelled s → lease_lost s ∧ (settled s ∨ grace_over s)) ∧
  (∀ i, lb_routines workers !! i = Some LbRunR → ts !! i = Some (Ret tt) → l_down s ∧ work_cancelled s).
Proof.
  intros Hr. destruct (lb_known_runs _ Hr) as [HI Hts]. cbn in HI. split.
  - intros Hw. destruct (v_work _ _ HI Hw) as [Hl Hm]. split; [done | by apply may_abort_settled].
  - intros i Hi Hp. exact (Hts i _ _ Hi Hp).
Qed.

(** Once [Run] has returned, nothing is in flight, or the grace period was over. *)
Lemma returned_settled x : lb_known x → x.1 !! 0%nat = Some (Ret tt) → settled x.2 ∨ grace_over x.2.
Proof.
  intros [HI Hts] Hp. destruct (Hts 0%nat LbRunR _ eq_refl Hp) as [_ Hw].
  by apply may_abort_settled, (v_work _ _ HI Hw).
Qed.

(** ** The end of [Run] *)

Definition run_returned (x : LbConfig (Q := Q)) : Prop := x.1 !! 0%nat = Some (Ret tt).

Definition lb_leaving (x : LbConfig (Q := Q)) : Prop :=
  lb_known x ∧ length x.1 = length (lb_routines workers) ∧ lease_lost x.2 ∧ LbRunR ∈ started (lgo x.2).

Lemma lb_leaving_turns x y : lb_leaving x → turns lb_answered lb_environment (lb_routines workers) x y → lb_leaving y.
Proof.
  intros (Hk & Hl & Hc & Hs) Ht. destruct (lb_turn_rely _ _ Hk Ht) as [r Hr].
  split_and!; [by eapply lb_known_turns | | by apply (lr_lease _ _ _ Hr) | by apply (lr_started _ _ _ Hr)].
  by rewrite (turns_length _ _ _ _ _ Ht).
Qed.

(** No call of [Run] blocks for good once the lease is lost. *)
Lemma run_answerable {R} (k : LbRunCall R) s : LInv workers s → l_at workers LbRunR R k s → LbRunR ∈ started (lgo s) → lease_lost s →
  ∃ x s', lb_answered LbRunR R k s x s'.
Proof.
  intros HI Hk Hs Hl. destruct k as [R k| | | | | | | |]; cbn in Hk; try done.
  - assert ((∃ x g, go_answers LbRunR R k (lgo s) x g) → ∃ x s', lb_answered LbRunR R (LbPrim k) s x s') as Hprim.
    { intros (x & g & Ha). exists x. eexists. constructor. by constructor. }
    apply Hprim. destruct k; cbn in Hk; try done; try (by do 2 eexists; constructor); try (by destruct Hk).
    + do 2 eexists. constructor. apply Hk.
    + destruct Hk as [_ [Hin|[d Hin]]]; apply list_elem_of_lookup in Hin as [i Hi]; by do 2 eexists; eapply ans_case.
  - exists false. eexists. constructor. by constructor.
  - by destruct Hk.
  - by destruct Hk.
  - do 2 eexists. constructor. constructor.
Qed.

(** losing the lease ends [Run], though its workers may hang.  From every state in
    which [Run] was started and the lease is lost, [Run] returns, whatever the
    schedule and the environment; and until then it is [Run] itself that can act: it
    waits for no worker, nor for the drain, beyond its two timers. *)
Theorem lost_lease_ends_run ts s :
  lb_runs workers (lb_init workers rounds) (ts, s) → lease_lost s → LbRunR ∈ started (lgo s) →
  inevitable lb_answered lb_environment (lb_routines workers) (λ r, r = LbRunR) run_returned (ts, s).
Proof.
  intros Hr Hl Hs. eapply (inevitable_intro _ _ _ _ _ lb_leaving).
  - exact lb_leaving_turns.
  - clear ts s Hr Hl Hs. intros [ts s] ([HI Hts] & Hlen & Hl & Hs). cbn in *.
    destruct (lookup_lt_is_Some_2 ts 0) as [p Hp]; [rewrite Hlen; cbn; lia|].
    pose proof (Hts 0%nat LbRunR p eq_refl Hp) as He. destruct p as [[] | R k kont]; [by left|]. right.
    destruct He as [Hat _]. destruct (run_answerable _ _ HI Hat Hs Hl) as (x & s' & Ha).
    exists LbRunR. eexists. split; [done|]. by eapply (acts_call _ _ _ _ 0%nat).
  - split_and!; [by eapply lb_known_runs | rewrite (runs_length _ _ _ _ _ Hr); apply length_fmap | done | done].
Qed.
End Correct.
