(* ===== verification/LbStart.v ===== *)
(** The start of the load-balancer controller,
    [lbcontroller/cmd/lb-controller/main.go]: the bundle of trusted certificates,
    the management page with its credentials, and the label that sends the page's
    visitors to the leader.

    Parsing certificates is the class [CertPoolLib]. *)

From S2P Require Import Prelude Prog Threads GoStd NetIP ApiTypes Kube ApiServer LbApi LbController LbServer.

Inductive StartCall : Type → Type :=
| StNamespaceGet (name : string) : StartCall (res (gomap string))            (* its labels *)
| StSecretGet (ns name : string) : StartCall (res (gomap string))            (* its data *)
| StSecretCreate (ns name : string) (data : gmap string string) : StartCall (res (gomap string))
| StConfigMapGet (ns name : string) : StartCall (res (gomap string))
| StRandInt (max : Z) : StartCall (res Z)
| StRandRead (n : nat) : StartCall (res (list Z))
| ServePage (s : Server) (port : Z) : StartCall unit                          (* [go httpServer.Start] *)
| AwaitPage (timeout : time) : StartCall bool                                 (* ready; or a timeout, or the end of the context *)
| PatchPodLabel (ns pod key : string) (value : option string) : StartCall (res unit).

(** ** The trusted certificates *)

Class CertPoolLib (P : Type) := { AppendCertsFromPEM : string → option P }.

(** [None] means the roots of the system. *)
Record CAStore (P : Type) := mkCAStore { pool : option P }.
Arguments mkCAStore {P}.
Arguments pool {P}.

Section CA.
Context {P : Type} `{HPool : CertPoolLib P}.

Definition CAStore_Update (store : CAStore P) (caCertData : string) : res unit * CAStore P :=
  if bool_decide (caCertData = "") then (Ok tt, mkCAStore None)
  else match AppendCertsFromPEM caCertData with
  | None => (Err (errorf "CA bundle contains no valid PEM certificate"), store)
  | Some p => (Ok tt, mkCAStore (Some p))
  end.

Definition NewCAStore (caCertData : string) : res (CAStore P) :=
  match CAStore_Update (mkCAStore None) caCertData with
  | (Err err, _) => Err err
  | (Ok _, store) => Ok store
  end.

Definition caSecretName : string := "cacerts".
Definition caReloadInterval : time := 60 * 10 ^ 9.

#[local] Open Scope prog_scope.

(** The bundle at the start: what cannot be read is like what is not there. *)
Definition initial_ca (appNamespace : string) : Prog StartCall (res (CAStore P)) :=
  let! got := call (StSecretGet appNamespace caSecretName) in
  Ret (NewCAStore (match got with Ok data => mget data "ca.crt" | Err _ => "" end)).

(** One round of [watchCACert]. *)
Definition reload_ca (appNamespace : string) (store : CAStore P) : Prog StartCall (CAStore P) :=
  let! got := call (StSecretGet appNamespace caSecretName) in
  Ret (match got with Ok data => (CAStore_Update store (mget data "ca.crt")).2 | Err _ => store end).
End CA.

Section Start.
Context `{HRange : MapRange}.
#[local] Open Scope prog_scope.

(** ** Random strings, [pkg/util] *)

Definition letters : string := "0123456789ABCDEFGHIJKLMNOPQRSTUVWXYZabcdefghijklmnopqrstuvwxyz-".

Fixpoint random_string (n : nat) : Prog StartCall (res string) :=
  match n with
  | O => Ret (Ok "")
  | S n =>
      try! num := call (StRandInt (Z.of_nat (String.length letters))) else err => Ret (Err err) in
      match String.get (Z.to_nat num) letters with
      | None => Ret (Err (mkErr KPanic "index out of range"))
      | Some c => try! rest := random_string n else err => Ret (Err err) in Ret (Ok (String c rest))
      end
  end.

(** ** The page's credentials *)

Definition httpAuthSecretName : string := "rancher-fip-http-auth".

(** A replica that was slower to create the Secret reads the other one's. *)
Definition create_auth (appNamespace : string) : Prog StartCall (res (gomap string)) :=
  try! username := random_string 10 else err =>
    Ret (Err (errorf ("failed to generate random string for username: " +:+ err_msg err))) in
  try! password := random_string 32 else err =>
    Ret (Err (errorf ("failed to generate random string for password: " +:+ err_msg err))) in
  let! created := call (StSecretCreate appNamespace httpAuthSecretName
    (<["username" := username]> {["password" := password]})) in
  let! got := match created with
    | Err err => if IsAlreadyExists err then call (StSecretGet appNamespace httpAuthSecretName) else Ret (Err err)
    | Ok data => Ret (Ok data)
    end in
  Ret (match got with
       | Err err => Err (errorf ("failed to create http auth secret " +:+ httpAuthSecretName +:+ ": " +:+ err_msg err))
       | Ok data => Ok data
       end).

Definition auth_secret (appNamespace : string) : Prog StartCall (res (gomap string)) :=
  try! data := call (StSecretGet appNamespace httpAuthSecretName) else err =>
    (if IsNotFound err then create_auth appNamespace
     else Ret (Err (errorf ("failed to get http auth secret " +:+ httpAuthSecretName +:+ ": " +:+ err_msg err)))) in
  Ret (Ok data).

(** The user name and the password that the page asks for. *)
Definition credentials (appNamespace : string) : Prog StartCall (res (string * string)) :=
  try! data := auth_secret appNamespace else err => Ret (Err err) in
  Ret (Ok (mget data "username", mget data "password")).

(** ** The page *)

Definition projectLabel : string := "rancher.k8s.binbash.org/project-name".
Definition mappingsName : string := "network-interface-mappings".

Definition newRandomToken : Prog StartCall (res string) :=
  try! bytes := call (StRandRead 32) else err => Ret (Err err) in
  Ret (Ok (EncodeToString (resize 32 0 bytes))).

Definition NewServer (client : IPAMClient) (clientSecret cluster project : string) (pools : list string)
    (username password : string) : Prog StartCall (res Server) :=
  try! token := newRandomToken else err => Ret (Err (wrapf "failed to generate CSRF token" err)) in
  Ret (Ok (mkServer client clientSecret cluster project pools username password token true)).

(** The page of a project, when its credentials are known. *)
Definition make_page (appNamespace projectId : string) (auth : string * string) : Prog StartCall (res Server) :=
  let secretName := "rancher-fip-config-" +:+ projectId in
  try! secret := call (StSecretGet appNamespace secretName) else err =>
    Ret (Err (errorf ("failed to get secret " +:+ secretName +:+ " in namespace " +:+ appNamespace +:+ ": " +:+ err_msg err))) in
  try! mappings := call (StConfigMapGet appNamespace mappingsName) else err =>
    Ret (Err (wrapf "failed to get configmap network-interface-mappings" err)) in
  match NewClientWithCA (mget secret "apiUrl") ("client-" +:+ mget secret "cluster") with
  | Err err => Ret (Err (wrapf "failed to create ipam client" err))
  | Ok client =>
      try! server := NewServer client (mget secret "clientSecret") (mget secret "cluster") (mget secret "project")
          (range (default ∅ mappings)).*1 auth.1 auth.2 else err =>
        Ret (Err (wrapf "failed to create http server" err)) in
      Ret (Ok server)
  end.

(** Whether a page is served: a namespace without a project has none. *)
Definition startHttpServer (appNamespace : string) (port : Z) : Prog StartCall (res bool) :=
  try! labels := call (StNamespaceGet appNamespace) else err =>
    Ret (Err (errorf ("failed to get app namespace " +:+ appNamespace +:+ ": " +:+ err_msg err))) in
  match mlookup labels projectLabel with
  | None => Ret (Ok false)
  | Some projectId =>
      try! auth := credentials appNamespace else err => Ret (Err err) in
      try! server := make_page appNamespace projectId auth else err => Ret (Err err) in
      call (ServePage server port) ;;; Ret (Ok true)
  end.

(** ** The label of the leader *)

Definition leaderLabelKey : string := "rancher-fip-lb-controller/leader".
Definition uiStartupTimeout : time := 30 * 10 ^ 9.

Definition patchLeaderLabel (podName podNamespace : string) (leader : bool) : Prog StartCall (res unit) :=
  call (PatchPodLabel podNamespace podName leaderLabelKey (if leader then Some "true" else None)).

(** [page] is whether a page is served. *)
Definition markLeaderPod (podName podNamespace : string) (page : bool) : Prog StartCall unit :=
  if bool_decide (podName = "") then Ret tt
  else if negb page then Ret tt
  else
    let! ready := call (AwaitPage uiStartupTimeout) in
    if ready : bool then let! _p := patchLeaderLabel podName podNamespace true in Ret tt else Ret tt.

Definition removeLeaderLabel (podName podNamespace : string) : Prog StartCall unit :=
  if bool_decide (podName = "") then Ret tt
  else let! _p := patchLeaderLabel podName podNamespace false in Ret tt.

(** ** A replica: the page, the stale label, and then the times it leads *)

Record StartArgs := mkStartArgs {
  sta_appNamespace : string; sta_podName : string; sta_podNamespace : string;
  sta_httpServerEnabled : bool; sta_httpServerPort : Z
}.

(** The environment names the pod's namespace, or leaves it to the application's. *)
Definition pod_namespace (a : StartArgs) : string :=
  if bool_decide (sta_podNamespace a = "") then sta_appNamespace a else sta_podNamespace a.

(** What the start leaves: whether the page is served. *)
Definition start_page (a : StartArgs) : Prog StartCall bool :=
  let! page := if sta_httpServerEnabled a
               then let! x := startHttpServer (sta_appNamespace a) (sta_httpServerPort a) in
                    Ret (match x with Ok page => page | Err _ => false end)
               else Ret false in
  removeLeaderLabel (sta_podName a) (pod_namespace a) ;;; Ret page.

(** [OnStartedLeading] and [OnStoppedLeading], of what this file models. *)
Definition lead (a : StartArgs) (page : bool) : Prog StartCall unit :=
  markLeaderPod (sta_podName a) (pod_namespace a) page.
Definition stop_leading (a : StartArgs) : Prog StartCall unit :=
  removeLeaderLabel (sta_podName a) (pod_namespace a).
End Start.

(** * What a start leaves *)

(** The start of the load-balancer controller: replicas share the credentials of
    the management page, and visitors are sent to a page that is open. *)

(** ** The Secret of the credentials *)

(** It is there with its data or is not; a create succeeds once and gives what was
    stored.  Any call may fail, and a create may fail although it was made. *)
Definition auth_answers (R : Type) (c : StartCall R) : gomap string → R → gomap string → Prop :=
  match c in StartCall R return gomap string → R → gomap string → Prop with
  | StSecretGet _ _ => λ s r s', s' = s ∧
      match r with Ok data => s ≠ None ∧ data = s | Err e => IsNotFound e = true → s = None end
  | StSecretCreate _ _ d => λ s r s',
      match r with
      | Ok data => s = None ∧ s' = Some d ∧ data = s'
      | Err e => if IsAlreadyExists e then s ≠ None ∧ s' = s else s' = s ∨ s = None ∧ s' = Some d
      end
  | _ => λ s _ s', s' = s
  end.

(** The data a replica creates. *)
Definition fresh_auth (d : gmap string string) : Prop :=
  ∃ u p, String.length u = 10%nat ∧ String.length p = 32%nat ∧ d = <["username" := u]> {["password" := p]}.

Definition auth_calls (R : Type) (c : StartCall R) : Prop :=
  match c with
  | StSecretGet _ n => n = httpAuthSecretName
  | StSecretCreate _ n d => n = httpAuthSecretName ∧ fresh_auth d
  | StRandInt _ => True
  | _ => False
  end.

Definition auth_kept (s s' : gomap string) : Prop := s' = s ∨ s = None ∧ ∃ d, fresh_auth d ∧ s' = Some d.

#[local] Instance auth_kept_preorder : PreOrder auth_kept.
Proof.
  split; [by left|]. intros s1 s2 s3 [-> | [-> (d & Hd & ->)]] [-> | [? (d' & Hd' & ->)]]; [by left | right; eauto..].
Qed.

Lemma auth_answers_kept R (c : StartCall R) s r s' : auth_calls R c → auth_answers R c s r s' → auth_kept s s'.
Proof.
  unfold auth_kept. destruct c; simpl; try tauto. intros [_ Hd]. destruct r as [o|e]; [naive_solver|].
  destruct (IsAlreadyExists e); naive_solver.
Qed.

Notation auth_settles := (settles auth_answers auth_calls auth_kept).

(** The credentials are those of the Secret. *)
Definition from_secret (r : res (string * string)) (s : gomap string) : Prop :=
  ∀ u p, r = Ok (u, p) → ∃ d, s = Some d ∧ u = default "" (d !! "username") ∧ p = default "" (d !! "password").

Lemma from_secret_lasting : lasting auth_kept from_secret.
Proof.
  intros r s s' Hr Hs u p ->. destruct (Hr u p eq_refl) as (d & -> & Hd). destruct Hs as [-> | [? _]]; [|done]. by exists d.
Qed.

Lemma random_settles n : ∀ s,
  auth_settles (random_string n) (λ r _, ∀ x, r = Ok x → String.length x = n) s.
Proof.
  induction n as [|n IH]; intros s; [by intros ? [= <-]|]. cbn [random_string].
  apply (settles_bind _ _ _ _ _ (λ _ _, True)); [simpl; done|]. intros [num|e] s1 _; [|done].
  destruct (String.get _ _) as [c|]; [|done]. eapply settles_bind; [apply IH|].
  intros [rest|e] s2 Hr; [|done]. intros x [= <-]. simpl. by rewrite (Hr rest).
Qed.

(** What a replica reads or creates is there. *)
Definition stored (r : res (gomap string)) (s : gomap string) : Prop := ∀ data, r = Ok data → s ≠ None ∧ data = s.

Lemma get_settles ns s : auth_settles (call (StSecretGet ns httpAuthSecretName)) stored s.
Proof. simpl. split; [done|]. intros s1 [data|e] s2 _ [-> Hr]; [|done]. by intros ? [= <-]. Qed.

Lemma create_settles ns s : auth_settles (create_auth ns) stored s.
Proof.
  unfold create_auth. eapply settles_bind; [apply random_settles|]. intros [u|e] s1 Hu; [|done].
  eapply settles_bind; [apply random_settles|]. intros [p|e] s2 Hp; [|done].
  eapply (settles_bind _ _ _ _ _ (λ r s', stored r s' ∨ ∃ e, r = Err e)).
  { simpl. split; [split; [done|]; exists u, p; split; [by apply Hu | split; [by apply Hp | done]]|].
    intros s3 [data|e] s4 _ Ha; [left | right; by eexists]. destruct Ha as (_ & -> & ->). by intros ? [= <-]. }
  intros r s3 Hr. eapply (settles_bind _ _ _ _ _ stored).
  - destruct r as [data|e]; [destruct Hr as [? | [? ?]]; done|]. destruct (IsAlreadyExists e); [apply get_settles | done].
  - intros [data|e] s4 Hs; [|done]. intros ? [= <-]. by apply Hs.
Qed.

Lemma credentials_settle ns s : auth_settles (credentials ns) from_secret s.
Proof.
  unfold credentials. eapply (settles_bind _ _ _ _ _ stored).
  - unfold auth_secret. eapply settles_bind; [apply get_settles|]. intros [data|e] s1 Hs.
    + intros ? [= <-]. by apply Hs.
    + destruct (IsNotFound e); [apply create_settles | done].
  - intros [data|e] s1 Hs; [|done]. destruct (Hs data eq_refl) as [Hn ->]. destruct s1 as [d|]; [|done].
    intros u p [= <- <-]. by exists d.
Qed.

(** The page asks for a user name and a password. *)
Definition asks (c : string * string) : bool := negb (bool_decide (c.1 = "") && bool_decide (c.2 = "")).

(** the credentials of the management page.  However the starts of the replicas
    interleave and their calls fail, all of the pages ask for the same user name and
    password, those of the Secret; if the Secret was not there before, they are ten
    and 32 characters that one of the replicas drew, so that every page asks for
    them. *)
Theorem page_credentials_shared ns n s ts' s' :
  reaches auth_answers (replicate n (credentials ns), s) (ts', s') →
  (∀ i j c1 c2, ts' !! i = Some (Ret (Ok c1)) → ts' !! j = Some (Ret (Ok c2)) → c1 = c2) ∧
  (s = None → ∀ i c, ts' !! i = Some (Ret (Ok c)) →
     String.length c.1 = 10%nat ∧ String.length c.2 = 32%nat ∧ asks c = true).
Proof.
  intros Hr.
  assert (∀ i r, ts' !! i = Some (Ret r) → from_secret r s' ∧ auth_kept s s') as Hall.
  { apply (threads_settle auth_answers auth_calls auth_kept auth_answers_kept
      (λ _ r s', from_secret r s' ∧ auth_kept s s') (replicate n (credentials ns)) s); [| done |].
    - intros _ r s1 s2 [Hf Hk] Hs. split; [by eapply from_secret_lasting | by etrans].
    - intros i p [-> _]%lookup_replicate. eapply (settles_kept auth_answers auth_calls auth_kept auth_answers_kept).
      apply credentials_settle. }
  split.
  - intros i j [u1 p1] [u2 p2] Hi Hj. destruct (Hall i _ Hi) as [H1 _]. destruct (Hall j _ Hj) as [H2 _].
    destruct (H1 u1 p1 eq_refl) as (d1 & -> & -> & ->). destruct (H2 u2 p2 eq_refl) as (d2 & [= <-] & -> & ->). done.
  - intros -> i [u p] Hi. destruct (Hall i _ Hi) as [H1 Hk]. destruct (H1 u p eq_refl) as (d & -> & -> & ->).
    destruct Hk as [? | [_ (d' & (u & p & Hu & Hp & ->) & [= ->])]]; [done|].
    rewrite lookup_insert_eq, lookup_insert_ne, lookup_singleton_eq by done. cbn. split; [done|]. split; [done|].
    unfold asks. cbn. rewrite (bool_decide_eq_false_2 (u = "")); [done|]. by intros ->.
Qed.

(** ** The page and the label *)

#[local] Notation any := (λ _ _, True).

Section Start.
Context `{HRange : MapRange} (a : StartArgs).

Notation app := (sta_appNamespace a).
Notation auth_read := (StSecretGet app httpAuthSecretName).

(** The project of the application's namespace. *)
Definition project_of (pid : string) (H : History StartCall) : Prop :=
  asked (StNamespaceGet app) H (λ x, ∃ labels, x = Ok labels ∧ mlookup labels projectLabel = Some pid).

(** The credentials of the Secret: as it was read, or as it was created. *)
Definition auth_known (d : gomap string) (H : History StartCall) : Prop :=
  mkEv auth_read (Ok d) ∈ H ∨ ∃ d0, mkEv (StSecretCreate app httpAuthSecretName d0) (Ok d) ∈ H.

(** The page of the project, with the credentials of the Secret and the configuration
    that the cluster manager delivered for the project. *)
Definition page_of (s : Server) (H : History StartCall) : Prop :=
  (∃ d, auth_known d H ∧ username s = mget d "username" ∧ password s = mget d "password") ∧
  (∃ pid cfg, project_of pid H ∧ mkEv (StSecretGet app ("rancher-fip-config-" +:+ pid)) (Ok cfg) ∈ H ∧
     ui_clientSecret s = mget cfg "clientSecret" ∧ ui_cluster s = mget cfg "cluster" ∧ ui_project s = mget cfg "project" ∧
     NewClientWithCA (mget cfg "apiUrl") ("client-" +:+ mget cfg "cluster") = Ok (ui_client s)) ∧
  has_leader_check s = true ∧ String.length (ui_csrfToken s) = 64%nat.

Definition page_served (H : History StartCall) : Prop :=
  ∃ s, mkEv (ServePage s (sta_httpServerPort a)) tt ∈ H.

Definition start_guard (H : History StartCall) (R : Type) (c : StartCall R) : Prop :=
  match c with
  | StNamespaceGet n => n = app
  | StSecretGet ns n => ns = app ∧ (n = httpAuthSecretName ∨ ∃ pid, project_of pid H ∧ n = "rancher-fip-config-" +:+ pid)
  | StSecretCreate ns n d => ns = app ∧ n = httpAuthSecretName ∧ asked auth_read H NotFoundErr ∧ fresh_auth d
  | StConfigMapGet ns n => ns = app ∧ n = mappingsName
  | StRandInt _ | StRandRead _ | AwaitPage _ => True
  | ServePage s port => page_of s H ∧ port = sta_httpServerPort a
  | PatchPodLabel ns pod k v => ns = pod_namespace a ∧ pod = sta_podName a ∧ pod ≠ "" ∧ k = leaderLabelKey ∧
      (v = None ∨ v = Some "true" ∧ page_served H ∧ asked (AwaitPage uiStartupTimeout) H (λ x, x = true))
  end.

Notation G := start_guard.
Ltac rcall := apply wp_call_then; [done|].

Lemma auth_known_extends d H H' : extends H H' → auth_known d H → auth_known d H'.
Proof. intros Hh [? | [d0 ?]]; [left | right; exists d0]; by eapply elem_extends. Qed.

Lemma wp_random n : ∀ H, wp G (random_string n) (λ r _, ∀ x, r = Ok x → String.length x = n) H.
Proof.
  induction n as [|n IH]; intros H; [by intros ? [= <-]|]. cbn [random_string]. rcall. intros [num|e]; [|done].
  destruct (String.get _ _) as [c|]; [|done]. eapply wp_seq; [apply IH|].
  intros [rest|e] H1 Hr _; [|done]. intros x [= <-]. simpl. by rewrite (Hr rest).
Qed.

Lemma wp_auth_secret H : wp G (auth_secret app) (λ r H', ∀ d, r = Ok d → auth_known d H') H.
Proof.
  unfold auth_secret. apply wp_call_then; [split; [done | by left]|]. intros [d|e]; [intros ? [= <-]; left; by left|].
  destruct (IsNotFound e) eqn:He; [|done]. unfold create_auth.
  eapply wp_seq; [apply wp_random|]. intros [u|e1] H1 Hu Hh1; [|done].
  eapply wp_seq; [apply wp_random|]. intros [p|e1] H2 Hp Hh2; [|done].
  apply wp_call_then.
  { split; [done|]. split; [done|]. split; [|exists u, p; split; [by apply Hu | split; [by apply Hp | done]]].
    exists (Err e). split; [|by exists e]. eapply elem_extends; [by left|]. by etrans. }
  intros [d|e1]; [intros ? [= <-]; right; eexists; by left|].
  destruct (IsAlreadyExists e1); [|done]. apply wp_call_then; [split; [done | by left]|].
  intros [d|e2]; [|done]. intros ? [= <-]. left. by left.
Qed.

Lemma wp_make_page pid auth d H : project_of pid H → auth_known d H → auth = (mget d "username", mget d "password") →
  wp G (make_page app pid auth) (λ r H', ∀ s, r = Ok s → page_of s H') H.
Proof.
  intros Hp Hd ->. unfold make_page. apply wp_call_then; [split; [done|]; right; by exists pid|].
  intros [cfg|e]; [|done]. rcall. intros [maps|e]; [|done].
  destruct (NewClientWithCA _ _) as [client|e] eqn:Hc; [|done]. unfold NewServer, newRandomToken.
  apply wp_bind, wp_bind, wp_bind, wp_call; [done|]. intros [bytes|e]; [|done]. cbn. intros s [= <-].
  split_and!; cbn; [| | done |].
  - exists d. split; [|done]. eapply auth_known_extends; [|done]. by do 3 apply extends_cons.
  - exists pid, cfg. split; [eapply asked_extends; [|done]; by do 3 apply extends_cons|].
    split; [do 2 right; by left | done].
  - by rewrite length_EncodeToString, length_resize.
Qed.

Lemma wp_startHttpServer H :
  wp G (startHttpServer app (sta_httpServerPort a)) (λ r H', r = Ok true → page_served H') H.
Proof.
  unfold startHttpServer. rcall. intros [labels|e]; [|done]. destruct (mlookup labels projectLabel) as [pid|] eqn:Hl; [|done].
  assert (project_of pid (mkEv (StNamespaceGet app) (Ok labels) :: H)) as Hp by (apply asked_cons; by exists labels).
  set (H1 := _ :: H) in *. clearbody H1. unfold credentials.
  eapply (wp_seq _ _ _ (λ r H', ∀ c, r = Ok c → ∃ d, auth_known d H' ∧ c = (mget d "username", mget d "password"))).
  { eapply wp_seq; [apply wp_auth_secret|]. intros [d|e] H2 Hd _; [|done]. intros c [= <-]. exists d.
    split; [by apply Hd | done]. }
  intros [auth|e] H2 Ha Hh2; [|done]. destruct (Ha auth eq_refl) as (d & Hd & ->).
  eapply wp_seq; [eapply wp_make_page; [by eapply asked_extends | done | done]|].
  intros [s|e] H3 Hs Hh3; [|done]. apply wp_call_then; [split; [by apply Hs | done]|].
  intros []. intros _. exists s. by left.
Qed.

Lemma wp_remove H : wp G (removeLeaderLabel (sta_podName a) (pod_namespace a)) any H.
Proof.
  unfold removeLeaderLabel. case_bool_decide; [done|]. unfold patchLeaderLabel.
  apply wp_call_then; [split_and!; [done.. | by left] | done].
Qed.

Lemma wp_start_page H : wp G (start_page a) (λ page H', page = true → page_served H') H.
Proof.
  unfold start_page. eapply (wp_seq _ _ _ (λ page H', page = true → page_served H')).
  - destruct (sta_httpServerEnabled a); [|done]. eapply wp_seq; [apply wp_startHttpServer|].
    intros [page|e] H1 Hp _; [|done]. intros ->. by apply Hp.
  - intros page H1 Hp _. eapply wp_seq; [apply wp_remove|]. intros [] H2 _ Hh2. intros Ht.
    destruct (Hp Ht) as [s Hs]. exists s. by eapply elem_extends.
Qed.

Lemma wp_lead page H : (page = true → page_served H) → wp G (lead a page) any H.
Proof.
  intros Hp. unfold lead, markLeaderPod. case_bool_decide as Hn; [done|]. destruct page; [|done]. cbn [negb].
  rcall. intros [|]; [|done]. unfold patchLeaderLabel. apply wp_call_then; [|done].
  split_and!; [done.. |]. right. split; [done|]. split; [|by apply asked_cons].
  destruct (Hp eq_refl) as [s Hs]. exists s. by right.
Qed.

(** The times this replica leads, one after the other. *)
Fixpoint leading (n : nat) (page : bool) : Prog StartCall unit :=
  match n with
  | O => Ret tt
  | S n => pbind (lead a page) (λ _, pbind (stop_leading a) (λ _, leading n page))
  end.

(** the start of the load-balancer controller, and the times it leads.  The
    credentials of the page are created only if the Secret was found missing, and
    then of random characters; a page is served only with the credentials that the
    Secret holds and the configuration of the project that the namespace belongs
    to, refuses changes on a replica that is not the leader, and has a token of 32
    random bytes; only the own pod is labelled, as the leader only when a page was
    served and its listener was open. *)
Theorem page_label_safe n H :
  execs (pbind (start_page a) (leading n)) [] tt H → obeys start_guard [] H.
Proof.
  intros Hx. cut (wp G (pbind (start_page a) (leading n)) any []); [intros Hw; by eapply wp_execs|].
  eapply wp_seq; [apply wp_start_page|]. intros page H1 Hp _. clear Hx. revert H1 Hp.
  induction n as [|n IH]; intros H1 Hp; [done|]. cbn [leading].
  eapply wp_seq; [by apply wp_lead|]. intros [] H2 _ Hh2. eapply wp_seq; [apply wp_remove|]. intros [] H3 _ Hh3.
  apply IH. intros Ht. destruct (Hp Ht) as [s Hs]. exists s. eapply elem_extends; [done|]. by etrans.
Qed.
End Start.
