(* ===== verification/LbElect.v ===== *)
(** The leader election of the load-balancer controller: the callbacks in [main] of
    [lbcontroller/cmd/lb-controller/main.go].

    client-go elects, and is the environment: it starts [OnStartedLeading] once, ends
    the context of the lease, and calls [OnStoppedLeading] after that, whether this
    replica has led or not.  [run] is two calls, its begin and its end; its life is
    [LbRun].  The label of the pod is set and removed by the programs of [LbStart]. *)

From stdpp Require Import functions.
From S2P Require Import Prelude Prog GoStd ApiTypes RelyGuarantee Goroutines WorkQueue LbRun LbRunCorrect LbStart.

Inductive ElRoutine :=
| ElLeadR                             (* [OnStartedLeading] *)
| ElPublishR                          (* [publishLeader] *)
| ElStopR                             (* [OnStoppedLeading] *)
| ElUnlabelR.                         (* removes the label *)
Inductive ElChannel := ControllerStarted | ControllerDone | UnlabelDone.

#[export] Instance ElRoutine_eq : EqDecision ElRoutine.
Proof. solve_decision. Defined.
#[export] Instance ElChannel_eq : EqDecision ElChannel.
Proof. solve_decision. Defined.

Abbreviation ElGo := (GoState ElRoutine ElChannel Empty_set unit).
Abbreviation ElGoCall := (GoCall ElRoutine ElChannel Empty_set unit).

Inductive ElCall : Type → Type :=
| ElPrim {R} (c : ElGoCall R) : ElCall R
| ElStoreReady (b : bool) : ElCall unit                   (* [leaderReady.Store] *)
| ElRunBegin : ElCall bool                                (* whether the lease was over then; the code does not ask *)
| ElRunEnd : ElCall unit
| ElStart {R} (c : StartCall R) : ElCall R.

Record Election := mkElection {
  ego : ElGo;
  leaderReady : bool;
  labelled : bool;                                        (* the pod has the label of the leader *)
  ehist : list (ElRoutine * Ev ElCall)
}.

Definition leaderDrainTimeout : time := 25 * 10 ^ 9.

Fixpoint el_lift {B} (p : Prog StartCall B) : Prog ElCall B :=
  match p with Ret b => Ret b | Do c k => Do (ElStart c) (λ x, el_lift (k x)) end.

Section Code.
Context (a : StartArgs) (hasPage : bool).
#[local] Open Scope prog_scope.

Definition el_run : Prog ElCall unit := let! _over := call ElRunBegin in call ElRunEnd.

Definition el_OnStartedLeading : Prog ElCall unit :=
  call (ElPrim (Close ControllerStarted)) ;;; call (ElStoreReady true) ;;; call (ElPrim (Go ElPublishR)) ;;;
  el_run ;;; call (ElPrim (Close ControllerDone)).

(** The controller is waited for if it was started. *)
Definition el_drain : Prog ElCall unit :=
  let! i := call (ElPrim (Select [Recv ControllerStarted] true)) in
  if bool_decide (i = Some 0%nat)
  then let! _i := call (ElPrim (Select [Recv ControllerDone; Timer leaderDrainTimeout] false)) in Ret tt
  else Ret tt.

Definition el_OnStoppedLeading : Prog ElCall unit :=
  call (ElStoreReady false) ;;; call (ElPrim (Go ElUnlabelR)) ;;; el_drain ;;;
  let! _i := call (ElPrim (Select [Recv UnlabelDone] false)) in call (ElPrim Exit).

Definition el_body (r : ElRoutine) : Prog ElCall unit :=
  call (ElPrim Begin) ;;;
  match r with
  | ElLeadR => el_OnStartedLeading
  | ElPublishR => el_lift (lead a hasPage)
  | ElStopR => el_OnStoppedLeading
  | ElUnlabelR => el_lift (stop_leading a) ;;; call (ElPrim (Close UnlabelDone))
  end.

Definition el_routines : list ElRoutine := [ElLeadR; ElPublishR; ElStopR; ElUnlabelR].
End Code.

(** ** What the calls do *)

Definition set_ego (g : ElGo) (s : Election) : Election := mkElection g (leaderReady s) (labelled s) (ehist s).
Definition set_leaderReady (b : bool) (s : Election) : Election := mkElection (ego s) b (labelled s) (ehist s).
Definition set_labelled (b : bool) (s : Election) : Election := mkElection (ego s) (leaderReady s) b (ehist s).
Definition el_record {R} (r : ElRoutine) (c : ElCall R) (x : R) (s : Election) : Election :=
  mkElection (ego s) (leaderReady s) (labelled s) ((r, mkEv c x) :: ehist s).

Definition lease_over (s : Election) : Prop := cancelled (ego s) tt = true.

Inductive el_environment : Election → Election → Prop :=
| eenv_elected s : ElLeadR ∉ started (ego s) → ElStopR ∉ started (ego s) → el_environment s (set_ego (start ElLeadR (ego s)) s)
| eenv_over s : el_environment s (set_ego (cancel tt (ego s)) s)
| eenv_stopped s : lease_over s → ElStopR ∉ started (ego s) → el_environment s (set_ego (start ElStopR (ego s)) s).

(** A patch that has failed may have been applied.  [run] returns when the lease is over. *)
Inductive el_effect (r : ElRoutine) : ∀ R, ElCall R → Election → R → Election → Prop :=
| eeff_prim R (c : ElGoCall R) s x g : go_answers r R c (ego s) x g → el_effect r R (ElPrim c) s x (set_ego g s)
| eeff_ready b s : el_effect r _ (ElStoreReady b) s tt (set_leaderReady b s)
| eeff_begin s : el_effect r _ ElRunBegin s (cancelled (ego s) tt) s
| eeff_end s : lease_over s → el_effect r _ ElRunEnd s tt s
| eeff_patched ns pod key v s x : el_effect r _ (ElStart (PatchPodLabel ns pod key v)) s x (set_labelled (is_some v) s)
| eeff_unpatched ns pod key v s e : el_effect r _ (ElStart (PatchPodLabel ns pod key v)) s (Err e) s
| eeff_page timeout s x : el_effect r _ (ElStart (AwaitPage timeout)) s x s.

(** A process that has exited does nothing more. *)
Inductive el_answered (r : ElRoutine) (R : Type) (c : ElCall R) (s : Election) (x : R) : Election → Prop :=
| el_answered_call s' : exited (ego s) = false → el_effect r R c s x s' → el_answered r R c s x (el_record r c x s').

Definition ElConfig : Type := Config (S := Election) (E := ElCall) (A := unit).
Definition el_init_state : Election := mkElection go_init false false [].
Definition el_init (a : StartArgs) (hasPage : bool) : ElConfig := (el_body a hasPage <$> el_routines, el_init_state).
Definition el_runs : ElConfig → ElConfig → Prop := runs el_answered el_environment el_routines.

(** * What holds of the callbacks *)

Section Life.
Context (a : StartArgs) (hasPage : bool).
Implicit Types (s : Election) (r : ElRoutine).

Definition el_starter (q : ElRoutine) : option ElRoutine :=
  match q with ElLeadR | ElStopR => None | ElPublishR => Some ElLeadR | ElUnlabelR => Some ElStopR end.
Definition el_closer (ch : ElChannel) : ElRoutine := match ch with UnlabelDone => ElUnlabelR | _ => ElLeadR end.

(** [run] was begun while this replica held the lease. *)
Definition begins (e : Ev ElCall) : bool :=
  match ev_c e in ElCall R return R → bool with ElRunBegin => negb | _ => λ _, false end (ev_ans e).
Definition led s : Prop := Exists (λ e, begins e.2 = true) (ehist s).
Definition run_over s : Prop := (ElLeadR, mkEv ElRunEnd tt) ∈ ehist s.
Definition drain_over s : Prop :=
  (ElStopR, mkEv (ElPrim (Select [Recv ControllerDone; Timer leaderDrainTimeout] false)) (Some 1%nat)) ∈ ehist s.
Definition label_removed s : Prop := sta_podName a = "" ∨
  ∃ x, (ElUnlabelR, mkEv (ElStart (PatchPodLabel (pod_namespace a) (sta_podName a) leaderLabelKey None)) x) ∈ ehist s.
(** Nothing is abandoned by an exit. *)
Definition may_exit s : Prop := lease_over s ∧ (run_over s ∨ drain_over s ∨ ¬ led s).
Abbreviation closed ch s := (is_closed (chans (ego s) ch) = true).

Record EInv s : Prop := {
  i_exited : exited (ego s) = true → (led s → run_over s ∨ drain_over s) ∧ label_removed s;
  i_done : closed ControllerDone s → run_over s;
  i_unlabel : closed UnlabelDone s → label_removed s;
  i_stopped : ElStopR ∈ started (ego s) → lease_over s;
  i_empty ch : buffered (chans (ego s) ch) = 0%nat;
  i_led : led s → closed ControllerStarted s;
  i_over : exited (ego s) = true → lease_over s
}.

Record erely r s s' : Prop := {
  er_past e : e ∈ ehist s → e ∈ ehist s';
  er_started q : q ∈ started (ego s) → q ∈ started (ego s');
  er_starter q : el_starter q = Some r → q ∈ started (ego s') → q ∈ started (ego s);
  er_over : lease_over s → lease_over s';
  er_closed ch : closed ch s → closed ch s';
  er_closer ch : el_closer ch = r → closed ch s' → closed ch s;
  er_led : r = ElStopR → lease_over s → led s' → led s;
  er_exited : exited (ego s) = true → exited (ego s') = true
}.

#[export] Instance erely_preorder r : PreOrder (erely r).
Proof.
  split; [by split; auto|]. intros s1 s2 s3 H1 H2.
  split; try (intros; apply H2, H1; done); try (intros; apply H1; [done|]; by apply H2).
  - intros Hr Ho Hl. apply H1; [done | done |]. apply H2; [done | by apply H1 | done].
Qed.

Lemma label_removed_mono s s' : (∀ e, e ∈ ehist s → e ∈ ehist s') → label_removed s → label_removed s'.
Proof. intros H [?|[x Hx]]; [by left | right; exists x; auto]. Qed.

Lemma may_exit_rely s s' : erely ElStopR s s' → may_exit s → may_exit s'.
Proof.
  intros H [Ho Hm]. split; [by apply H|].
  destruct Hm as [?|[?|Hl]]; [left; by apply H | right; left; by apply H | right; right].
  intros Hl'. apply Hl. by apply (er_led _ _ _ H).
Qed.

(** ** What is known at a call *)

Definition e_at_prim r {R} (k : ElGoCall R) s : Prop :=
  match k with
  | Begin => True
  | Go q => el_starter q = Some r ∧ q ∉ started (ego s)
  | Close ch => el_closer ch = r ∧ is_closed (chans (ego s) ch) = false ∧
      (ch = ControllerDone → run_over s) ∧ (ch = UnlabelDone → label_removed s)
  | Select cases default => r = ElStopR ∧
      (default = true ∨ Timer leaderDrainTimeout ∈ cases ∨ cases = [Recv UnlabelDone] ∧ ElUnlabelR ∈ started (ego s))
  | Exit => r = ElStopR ∧ may_exit s ∧ label_removed s
  | _ => False
  end.

Definition e_at_start {R} (k : StartCall R) : Prop :=
  match k with AwaitPage _ | PatchPodLabel _ _ _ _ => True | _ => False end.

Definition e_at r R (k : ElCall R) s : Prop :=
  match k with
  | ElPrim k => e_at_prim r k s
  | ElStoreReady _ => r ≠ ElUnlabelR
  | ElRunBegin => r = ElLeadR ∧ closed ControllerStarted s
  | ElRunEnd => r = ElLeadR
  | ElStart k => e_at_start k
  end.

Lemma e_at_rely r R (k : ElCall R) s s' : e_at r R k s → erely r s s' → e_at r R k s'.
Proof.
  intros Hk H. destruct k as [R k| | | |R k]; cbn in *; try done; [|destruct Hk; split; [done | by apply H]].
  destruct k; cbn in *; try done.
  - destruct Hk as [Hq Hn]. split; [done|]. intros Hi. by apply Hn, (er_starter _ _ _ H).
  - destruct Hk as (Hc & Ho & Hd & Hu). split_and!; [done | | intros; apply H, Hd; done | intros Hch; eapply label_removed_mono; [apply H | by apply Hu]].
    apply not_true_is_false. intros Hcl. apply (er_closer _ _ _ H) in Hcl; [congruence | done].
  - destruct Hk as (-> & [?|[?|[? ?]]]); (split; [done|]); [by left | by right; left | right; right].
    split; [done | by apply H].
  - destruct Hk as (-> & He & Hu). split_and!; [done | by eapply may_exit_rely | eapply label_removed_mono; [apply H | done]].
Qed.

(** ** The step *)

Lemma e_past r {R} (k : ElCall R) x s e : e ∈ ehist s → e ∈ ehist (el_record r k x s).
Proof. apply list_elem_of_further. Qed.

Lemma led_record r {R} (k : ElCall R) x s : led (el_record r k x s) →
  led s ∨ begins (mkEv k x) = true.
Proof. intros [He|Hl]%Exists_cons; [by right | by left]. Qed.

(** The record of a call is only ever of use; that [run] begins is told apart. *)
Lemma e_record_Inv r {R} (k : ElCall R) x s : EInv s →
  (led (el_record r k x s) → led s ∨ exited (ego s) = false ∧ closed ControllerStarted s) → EInv (el_record r k x s).
Proof.
  intros HI Hl. assert (∀ e, e ∈ ehist s → e ∈ ehist (el_record r k x s)) as Hm by (intros e; apply e_past).
  split; try apply HI.
  - intros Hx. destruct (i_exited _ HI Hx) as [Hd Hr]. split; [|by eapply label_removed_mono].
    intros Hled. destruct (Hl Hled) as [Hled'|[Hx' _]]; [|cbn in Hx; congruence].
    destruct (Hd Hled'); [left | right]; by apply Hm.
  - intros Hc. by apply Hm, HI.
  - intros Hc. by eapply label_removed_mono, (i_unlabel _ HI).
  - intros Hled. destruct (Hl Hled) as [?|[_ ?]]; [by apply (i_led _ HI) | done].
Qed.

Lemma e_record_rely r r' {R} (k : ElCall R) x s s' : (lease_over s → led (el_record r k x s') → led s) →
  erely r' s s' → erely r' s (el_record r k x s').
Proof.
  intros Hl H. split; try apply H; [intros e He; by apply e_past, H | auto].
Qed.

Lemma e_go_Inv g s : EInv s → (exited g = true → exited (ego s) = true ∨ may_exit s ∧ label_removed s) →
  (ElStopR ∈ started g → lease_over s) → (lease_over s → cancelled g tt = true) →
  (∀ ch, closed ch s → is_closed (chans g ch) = true) →
  (is_closed (chans g ControllerDone) = true → run_over s) → (is_closed (chans g UnlabelDone) = true → label_removed s) →
  (∀ ch, buffered (chans g ch) = 0%nat) → EInv (set_ego g s).
Proof.
  intros HI Hx Hs Ho Hc Hd Hu Hb. split; try done.
  - intros Hg. destruct (Hx Hg) as [Hg'|[[Hov Hm] Hl]]; [by apply HI|].
    split; [|done]. intros Hled. destruct Hm as [?|[?|?]]; [by left | by right | done].
  - intros Hi. by apply Ho, Hs.
  - intros Hl. by apply Hc, HI.
  - intros Hg. apply Ho. destruct (Hx Hg) as [Hg'|[[Hov _] _]]; [by apply (i_over _ HI) | done].
Qed.

Lemma e_go_rely r g s : (∀ q, q ∈ started (ego s) → q ∈ started g) →
  (∀ q, el_starter q = Some r → q ∈ started g → q ∈ started (ego s)) → (lease_over s → cancelled g tt = true) →
  (∀ ch, closed ch s → is_closed (chans g ch) = true) →
  (∀ ch, el_closer ch = r → is_closed (chans g ch) = true → closed ch s) →
  (exited (ego s) = true → exited g = true) → erely r s (set_ego g s).
Proof. intros. by split. Qed.

Lemma echans_set ch ch' x (g : ElGo) : chans (set_chan ch x g) ch' = if decide (ch = ch') then x else chans g ch'.
Proof. done. Qed.

Lemma e_prim_respects r R (k : ElGoCall R) s x g : EInv s → e_at_prim r k s → go_answers r R k (ego s) x g →
  EInv (set_ego g s) ∧ ∀ r', r' ≠ r → erely r' s (set_ego g s).
Proof.
  intros HI Hk Ha. revert Hk. remember (ego s) as g0 eqn:Hg. revert Hg.
  destruct Ha as [g Hb | q g Hq | ch g Hc | ch g Hc Hb | cases default i gd g Hi Hr | cases g Hn | c g | c g | w g | w g Hl | w g Hl | g];
    intros -> Hk; cbn in Hk; try done.
  - split; [apply e_go_Inv | intros; apply e_go_rely]; try done; try apply HI. by left.
  - destruct Hk as [Hs _]. split.
    + apply e_go_Inv; try done; try apply HI; [by left|]. intros [<-|Hi]%elem_of_cons; [done | by apply HI].
    + intros r' Hr'. apply e_go_rely; try done; [intros; by apply list_elem_of_further|].
      intros q' Hq' [->|Hi]%elem_of_cons; [congruence | done].
  - destruct Hk as (Hcl & _ & Hd & Hu). split.
    + apply e_go_Inv; try done; try apply HI; [by left | intros ch' | | | intros ch'];
        rewrite echans_set; case_decide; cbn; auto; by apply HI.
    + intros r' Hr'. apply e_go_rely; try done; intros ch'; rewrite !echans_set; case_decide; subst; cbn; auto.
  - assert (∀ ch, chans (receive gd (ego s)) ch = chans (ego s) ch) as Hch.
    { intros ch. destruct gd as [ch'| |]; cbn [receive]; try done. rewrite echans_set. case_decide; [|done]. subst ch'.
      pose proof (i_empty _ HI ch) as Hb. destruct (chans (ego s) ch). cbn in *. by rewrite Hb. }
    assert (started (receive gd (ego s)) = started (ego s) ∧ cancelled (receive gd (ego s)) = cancelled (ego s) ∧
      exited (receive gd (ego s)) = exited (ego s)) as (Hs & Hcl & Hx) by (by destruct gd).
    split.
    + apply e_go_Inv; rewrite ?Hs, ?Hcl, ?Hx, ?Hch; try done; try apply HI; [by left | |]; intros ch; rewrite Hch; [done | apply HI].
    + intros r' Hr'. apply e_go_rely; rewrite ?Hs, ?Hcl, ?Hx; try done; intros ch; by rewrite Hch.
  - split; [apply e_go_Inv | intros; apply e_go_rely]; try done; try apply HI. by left.
  - destruct Hk as (-> & Hm & Hl). split; [apply e_go_Inv | intros; apply e_go_rely]; try done; try apply HI. by right.
Qed.

Lemma e_calls_respect r R (k : ElCall R) s x s' : EInv s → e_at r R k s → el_answered r R k s x s' →
  EInv s' ∧ ∀ r', r' ≠ r → erely r' s s'.
Proof.
  intros HI Hk [s1 Hx He].
  destruct He as [R k s x g Ha | b s | s | s Ho | ns pod key v s x | ns pod key v s e | timeout s x]; cbn in Hk.
  - destruct (e_prim_respects _ _ _ _ _ _ HI Hk Ha) as [HI' Hr]. split.
    + apply e_record_Inv; [done|]. intros [?|?]%led_record; [by left | done].
    + intros r' Hr'. apply e_record_rely; [|by apply Hr]. intros _ [?|?]%led_record; done.
  - split; [apply e_record_Inv | intros; apply e_record_rely]; try (by split; apply HI); try (by intros _ [?|?]%led_record); [|done].
    intros [?|?]%led_record; [by left | done].
  - destruct Hk as [-> Hc]. split; [by apply e_record_Inv; auto|]. intros r' Hr'. apply e_record_rely; [|done].
    unfold lease_over. intros Ho [?|He]%led_record; [done|]. cbn in He. by rewrite Ho in He.
  - split; [apply e_record_Inv | intros; apply e_record_rely]; try done; try (by intros _ [?|?]%led_record).
    intros [?|?]%led_record; [by left | done].
  - split; [apply e_record_Inv | intros; apply e_record_rely]; try (by split; apply HI); try (by intros _ [?|?]%led_record); [|done].
    intros [?|?]%led_record; [by left | done].
  - split; [apply e_record_Inv | intros; apply e_record_rely]; try done; try (by intros _ [?|?]%led_record).
    intros [?|?]%led_record; [by left | done].
  - split; [apply e_record_Inv | intros; apply e_record_rely]; try done; try (by intros _ [?|?]%led_record).
    intros [?|?]%led_record; [by left | done].
Qed.

Lemma e_environment_respects s s' : EInv s → el_environment s s' → EInv s' ∧ ∀ r, erely r s s'.
Proof.
  intros HI He. destruct He as [s Hn Hn' | s | s Ho Hn].
  - split; [apply e_go_Inv; try done; try apply HI; [by left|] | intros r; apply e_go_rely; try done].
    + intros [[=]|Hi]%elem_of_cons. by apply HI.
    + intros; by apply list_elem_of_further.
    + intros q Hq [->|Hi]%elem_of_cons; done.
  - split; [apply e_go_Inv; try done; try apply HI; by left | intros r; by apply e_go_rely].
  - split; [apply e_go_Inv; try done; try apply HI; by left | intros r; apply e_go_rely; try done].
    + intros; by apply list_elem_of_further.
    + intros q Hq [->|Hi]%elem_of_cons; done.
Qed.

Lemma e_init_Inv : EInv el_init_state.
Proof. split; cbn; try done; [by intros ?%not_elem_of_nil | by intros ?%Exists_nil]. Qed.

(** ** The goroutines *)

Abbreviation eens := (ensures el_answered EInv erely e_at).

(** A [select] takes its default only if no case is ready. *)
Definition go_missed {R} (k : ElGoCall R) (g : ElGo) (x : R) : Prop :=
  match k in GoCall _ _ _ _ R return R → Prop with
  | Select cases _ => λ x, x = None → Forall (λ gd, ¬ ready g gd) cases
  | _ => λ _, True
  end x.

Lemma go_answers_missed r R (k : ElGoCall R) g0 x g : go_answers r R k g0 x g → go_missed k g0 x.
Proof. destruct 1; cbn; try done; intros; by simplify_eq. Qed.

Definition e_after r {R} (k : ElCall R) s (x : R) s2 : Prop :=
  ∃ s', s2 = el_record r k x s' ∧
  match k in ElCall R return R → Prop with
  | ElPrim k => λ x, ∃ g, go_after r k (ego s) x g ∧ go_missed k (ego s) x ∧ s' = set_ego g s
  | _ => λ _, ego s' = ego s ∧ ehist s' = ehist s
  end x.

Lemma e_answered_after r R (k : ElCall R) s x s2 : el_answered r R k s x s2 → e_after r k s x s2.
Proof. intros [s' _ He]. exists s'. split; [done|]. destruct He; cbn; try done. eexists. split_and!; eauto using go_answers_after, go_answers_missed. Qed.

Lemma eens_step r {R B} (k : ElCall R) (f : R → Prog ElCall B) P s : e_at r R k s →
  (∀ s1 x s2, erely r s s1 → EInv s1 → EInv s2 → e_after r k s1 x s2 → eens r (f x) P s2) →
  eens r (pbind (call k) f) P s.
Proof. intros Hk Hf. split; [done|]. intros s1 x s2 Hr H1 Ha H2. by eapply Hf; eauto using e_answered_after. Qed.

Lemma eens_last r {R} (k : ElCall R) (P : R → Election → Prop) s : e_at r R k s →
  (∀ s1 x s2, erely r s s1 → EInv s1 → EInv s2 → e_after r k s1 x s2 → P x s2) → eens r (call k) P s.
Proof. intros Hk Hf. split; [done|]. intros s1 x s2 Hr H1 Ha H2. by eapply Hf; eauto using e_answered_after. Qed.

Definition el_fin r (b : unit) s : Prop :=
  match r with ElStopR => exited (ego s) = true | ElUnlabelR => closed UnlabelDone s | _ => True end.

Lemma el_fin_rely r b s s' : el_fin r b s → erely r s s' → el_fin r b s'.
Proof. destruct r; try done; intros Hf H; by apply H. Qed.

(** A channel stays open until its own goroutine closes it. *)
Lemma e_open r ch s s' : erely r s s' → el_closer ch = r →
  is_closed (chans (ego s) ch) = false → is_closed (chans (ego s') ch) = false.
Proof.
  intros H Hr Hc. apply not_true_is_false. intros Hc'. apply (er_closer _ _ _ H) in Hc'; [congruence | done].
Qed.

Lemma el_unstarted r q s s' : erely r s s' → el_starter q = Some r → q ∉ started (ego s) → q ∉ started (ego s').
Proof. intros H Hq Hn Hi. by apply Hn, (er_starter _ _ _ H). Qed.

Lemma el_OnStartedLeading_ok s : is_closed (chans (ego s) ControllerStarted) = false →
  is_closed (chans (ego s) ControllerDone) = false → ElPublishR ∉ started (ego s) →
  eens ElLeadR el_OnStartedLeading (λ _ _, True) s.
Proof.
  intros Hs Hd Hp. apply eens_step; [by split_and!|]. intros s1 [] s2 Hr1 _ _ (s' & -> & g & -> & _ & ->).
  apply eens_step; [done|]. intros s3 [] s4 Hr3 _ _ (s' & -> & He & Hh).
  assert (closed ControllerStarted s3) as Hst by (by apply Hr3).
  assert (is_closed (chans (ego s3) ControllerDone) = false) as Hd3.
  { apply (e_open _ _ _ _ Hr3); [done|]. exact (e_open _ ControllerDone _ _ Hr1 eq_refl Hd). }
  assert (ElPublishR ∉ started (ego s3)) as Hp3.
  { apply (el_unstarted _ _ _ _ Hr3); [done|]. exact (el_unstarted _ ElPublishR _ _ Hr1 eq_refl Hp). }
  apply eens_step; [cbn; by rewrite He|]. intros s5 [] s6 Hr5 _ _ (s5' & -> & g & -> & _ & ->).
  assert (is_closed (chans (ego s5) ControllerDone) = false) as Hd5 by (apply (e_open _ _ _ _ Hr5); [done | cbn; by rewrite He]).
  assert (closed ControllerStarted s5) as Hst5 by (apply Hr5; cbn; by rewrite He).
  eapply ensures_bind with (P := λ _ s', is_closed (chans (ego s') ControllerDone) = false ∧ run_over s').
  - apply eens_step; [by split|]. intros s7 b s8 Hr7 _ _ (s7' & -> & He7 & _).
    apply (e_open _ _ _ _ Hr7) in Hd5; [|done]. apply eens_last; [done|]. intros s9 [] s10 Hr9 _ _ (s9' & -> & He9 & _).
    split; [|left]. cbn. rewrite He9. apply (e_open _ _ _ _ Hr9); [done|]. cbn. by rewrite He7.
  - intros [] s7 [Hd7 Ho7]. by apply eens_last.
Qed.

Lemma el_drain_ok q s : lease_over s → q ∈ started (ego s) →
  eens ElStopR el_drain (λ _ s', may_exit s' ∧ q ∈ started (ego s')) s.
Proof.
  intros Ho Hq. apply eens_step; [split; [done | by left]|]. intros s1 i s2 Hr1 HI1 _ (s' & -> & g & Hg & Hd & ->).
  assert (lease_over s1) as Ho1 by (by apply Hr1). apply (er_started _ _ _ Hr1) in Hq. destruct i as [i|].
  - destruct Hg as (gd & Hi & Hgd & ->). destruct i as [|i]; [|done]. injection Hi as <-.
    apply eens_step; [split; [done | right; left; right; left]|]. intros s3 j s4 Hr3 HI3 _ (s' & -> & g & Hg & _ & ->).
    apply (er_started _ _ _ Hr3) in Hq. destruct j as [j|]; [|by destruct Hg].
    destruct Hg as (gd' & Hj & Hgd' & ->). destruct j as [|[|j]]; [| |done]; injection Hj as <-; (split; [|exact Hq]).
    + split; [by apply Hr3|]. left. apply list_elem_of_further, (i_done _ HI3).
      destruct Hgd' as [Hb|?]; [rewrite (i_empty _ HI3) in Hb; lia | done].
    + split; [by apply Hr3|]. right. left. left.
  - destruct Hg as [_ ->]. split; [|exact Hq]. split; [done|]. right; right. intros [Hl|Hl]%led_record; [|done].
    apply (i_led _ HI1) in Hl. specialize (Hd eq_refl). rewrite Forall_singleton in Hd. apply Hd. by right.
Qed.

Lemma el_OnStoppedLeading_ok s : lease_over s → ElUnlabelR ∉ started (ego s) →
  eens ElStopR el_OnStoppedLeading (el_fin ElStopR) s.
Proof.
  intros Ho Hu. apply eens_step; [done|]. intros s1 [] s2 Hr1 _ _ (s' & -> & He & Hh).
  assert (lease_over s1) as Ho1 by (by apply Hr1). apply (el_unstarted _ _ _ _ Hr1) in Hu; [|done].
  apply eens_step; [split; [done | cbn; by rewrite He]|]. intros s3 [] s4 Hr3 _ _ (s3' & -> & g & -> & _ & ->).
  assert (lease_over s3) as Ho3 by (apply Hr3; unfold lease_over; cbn; by rewrite He).
  eapply ensures_bind; [apply (el_drain_ok ElUnlabelR); [exact Ho3 | left]|].
  intros [] s5 [Hm Hst]. apply eens_step; [split; [done | right; right; by split]|].
  intros s6 i s7 Hr6 HI6 _ (s6' & -> & g & Hg & _ & ->). apply (may_exit_rely _ _ Hr6) in Hm.
  destruct i as [i|]; [|by destruct Hg]. destruct Hg as (gd & Hi & Hgd & ->). destruct i as [|i]; [|done]. injection Hi as <-.
  assert (label_removed s6) as Hl.
  { apply (i_unlabel _ HI6). destruct Hgd as [Hb|?]; [rewrite (i_empty _ HI6) in Hb; lia | done]. }
  apply eens_last.
  - split_and!; [done | | ].
    + destruct Hm as [Hov Hm]. split; [done|].
      destruct Hm as [?|[?|?]]; [left | right; left | right; right]; [by apply list_elem_of_further..|].
      by intros [?|?]%led_record.
    + eapply label_removed_mono; [|exact Hl]. intros e. apply list_elem_of_further.
  - intros s8 [] s9 _ _ _ (s8' & -> & g & -> & _ & ->). done.
Qed.

Lemma el_lead_ok s : eens ElPublishR (el_lift (lead a hasPage)) (λ _ _, True) s.
Proof.
  unfold lead, markLeaderPod. case_bool_decide; [done|]. destruct hasPage; [|done].
  split; [done|]. intros s1 [|] s2 _ _ _ _; [|done]. by split.
Qed.

Lemma el_unlabel_ok s : is_closed (chans (ego s) UnlabelDone) = false →
  eens ElUnlabelR (pbind (el_lift (stop_leading a)) (λ _, call (ElPrim (Close UnlabelDone)))) (el_fin ElUnlabelR) s.
Proof.
  intros Hc. eapply ensures_bind with (P := λ _ s', label_removed s' ∧ is_closed (chans (ego s') UnlabelDone) = false).
  - unfold stop_leading, removeLeaderLabel. case_bool_decide as Hn; [by split; [left|]|].
    split; [done|]. intros s1 x s2 Hr1 _ Ha _. destruct (e_answered_after _ _ _ _ _ _ Ha) as (s' & -> & He & Hh).
    split; [right; exists x; left|]. cbn. rewrite He. by apply (e_open _ _ _ _ Hr1).
  - intros [] s1 [Hl Hc1]. apply eens_last; [by split_and!|].
    intros s2 [] s3 _ _ _ (s' & -> & g & -> & _ & ->). done.
Qed.

Lemma el_body_ok r : eens r (el_body a hasPage r) (el_fin r) el_init_state.
Proof.
  apply eens_step; [done|]. intros s1 [] s2 Hr HI _ (s' & -> & g & [Hs ->] & _ & ->).
  assert (∀ q, el_starter q = Some r → q ∉ started (ego s1)) as Hq.
  { intros q Hq. by apply (el_unstarted _ _ _ _ Hr), not_elem_of_nil. }
  assert (∀ ch, el_closer ch = r → is_closed (chans (ego s1) ch) = false) as Hch.
  { intros ch Hc. by apply (e_open _ _ _ _ Hr). }
  destruct r.
  - apply el_OnStartedLeading_ok; [by apply Hch | by apply Hch | by apply Hq].
  - apply el_lead_ok.
  - apply el_OnStoppedLeading_ok; [by apply (i_stopped _ HI) | by apply Hq].
  - by apply el_unlabel_ok, Hch.
Qed.

(** ** All of them *)

Definition el_known : ElConfig → Prop := known el_answered el_routines EInv erely e_at el_fin.

Lemma el_known_turns x y : el_known x → turns el_answered el_environment el_routines x y → el_known y.
Proof.
  apply known_turns.
  - apply _.
  - intros. by eapply e_at_rely.
  - intros. by eapply e_calls_respect.
  - intros. by apply e_environment_respects.
  - apply (bool_decide_unpack _). by vm_compute.
  - intros. by eapply el_fin_rely.
Qed.

Lemma el_turn_rely x y : el_known x → turns el_answered el_environment el_routines x y → ∃ r, erely r x.2 y.2.
Proof.
  apply (known_turn_rely _ _ _ _ _ _) with (r0 := ElLeadR) (r1 := ElStopR);
    [by intros; eapply e_calls_respect | by intros; eapply e_environment_respects|].
  intros r. destruct (decide (r = ElLeadR)) as [->|]; [by right | left; congruence].
Qed.

Lemma el_known_runs x : el_runs (el_init a hasPage) x → el_known x.
Proof.
  assert (el_known (el_init a hasPage)) as H0.
  { split; [apply e_init_Inv|]. intros i r p Hi Hp. change ((el_body a hasPage <$> el_routines) !! i = Some p) in Hp.
    rewrite list_lookup_fmap, Hi in Hp. injection Hp as <-. apply el_body_ok. }
  intros Hr. revert H0. generalize (el_init a hasPage), Hr. induction 1; [done|]. eauto using el_known_turns.
Qed.

(** The end of a leader.  The process exits only when the lease is over; and if
    [run] was begun while this replica held it, [run] has returned by then, or the time
    of the drain is up, which is as much as [Run] needs for its own grace period and its
    abort.  That the label of the leader be removed was asked before. *)
Theorem leader_exits_drained ts s :
  el_runs (el_init a hasPage) (ts, s) →
  (exited (ego s) = true → (led s → run_over s ∨ drain_over s) ∧ label_removed s) ∧
  (ElStopR ∈ started (ego s) → lease_over s) ∧
  LbRun.shutdownGracePeriod + shutdownAbortTimeout ≤ leaderDrainTimeout.
Proof.
  intros Hr. destruct (el_known_runs _ Hr) as [HI _]. cbn in HI. split_and!; [apply HI | apply HI | done].
Qed.

(** ** The end *)

Definition el_ending (x : ElConfig) : Prop :=
  el_known x ∧ length x.1 = length el_routines ∧ ElStopR ∈ started (ego x.2).

Lemma el_ending_turns x y : el_ending x → turns el_answered el_environment el_routines x y → el_ending y.
Proof.
  intros (Hk & Hl & Hs) Ht. destruct (el_turn_rely _ _ Hk Ht) as [r Hr].
  split_and!; [by eapply el_known_turns | | by apply (er_started _ _ _ Hr)]. by rewrite (turns_length _ _ _ _ _ Ht).
Qed.

Lemma el_answerable r {R} (k : ElCall R) s : EInv s → e_at r R k s → r ∈ started (ego s) → exited (ego s) = false →
  r ≠ ElLeadR → (r = ElStopR → ElUnlabelR ∈ started (ego s) → closed UnlabelDone s) → ∃ x s', el_answered r R k s x s'.
Proof.
  intros HI Hk Hs Hx Hl Hu. assert ((∃ x s', el_effect r R k s x s') → ∃ x s', el_answered r R k s x s') as H.
  { intros (x & s' & He). exists x. eexists. by constructor. }
  apply H. clear H. destruct k as [R k|b| | |R k]; cbn in Hk.
  - assert ((∃ x g, go_answers r R k (ego s) x g) → ∃ x s', el_effect r R (ElPrim k) s x s') as H.
    { intros (x & g & Ha). eexists _, _. by constructor. }
    apply H. destruct k as [|q|ch|ch|cases default|c|c|w|w|w|]; cbn in Hk; try done; try (do 2 eexists; constructor; apply Hk || done).
    destruct Hk as (-> & [->|[Hin|[-> Hst]]]).
    + destruct (decide (Exists (λ g, readyb (ego s) g = true) cases)) as [He|Hn].
      * apply Exists_exists in He as (gd & Hin & Hg%readyb_spec). apply list_elem_of_lookup in Hin as [i Hi].
        by do 2 eexists; eapply ans_case.
      * do 2 eexists. apply ans_default. apply Forall_forall. intros gd Hin Hg%readyb_spec. apply Hn, Exists_exists. eauto.
    + apply list_elem_of_lookup in Hin as [i Hi]. by do 2 eexists; eapply ans_case.
    + do 2 eexists. eapply (ans_case _ _ _ 0); [done|]. right. by apply Hu.
  - eexists _, _. constructor.
  - eexists _, _. constructor.
  - done.
  - destruct k; cbn in Hk; try done; [exists true | exists (Ok tt)]; eexists; constructor.
Qed.

(** A leader that is stopped exits, whatever its controller does and wherever it hangs:
    from every state in which client-go has called [OnStoppedLeading] the process ends,
    and until then that goroutine or the one that removes the label can act. *)
Theorem stopped_leader_exits ts s :
  el_runs (el_init a hasPage) (ts, s) → ElStopR ∈ started (ego s) →
  inevitable el_answered el_environment el_routines (λ r, r = ElStopR ∨ r = ElUnlabelR)
    (λ x, exited (ego x.2) = true) (ts, s).
Proof.
  intros Hr Hs. eapply (inevitable_intro _ _ _ _ _ el_ending).
  - exact el_ending_turns.
  - clear ts s Hr Hs. intros [ts s] ([HI Hts] & Hlen & Hs). cbn in *.
    destruct (exited (ego s)) eqn:Hx; [by left | right].
    assert (∀ i r, el_routines !! i = Some r → r ≠ ElLeadR → r ∈ started (ego s) →
      (r = ElStopR → ElUnlabelR ∈ started (ego s) → closed UnlabelDone s) →
      (∃ b, ts !! i = Some (Ret b)) ∨ ∃ y, acts el_answered el_routines r (ts, s) y) as Hone.
    { intros i r Hi Hne Hq Hu. destruct (lookup_lt_is_Some_2 ts i) as [p Hp]; [apply lookup_lt_Some in Hi; cbn in Hi; lia|].
      destruct p as [b | R k kont]; [left; by exists b | right]. destruct (Hts _ _ _ Hi Hp) as [Hat _].
      destruct (el_answerable _ _ _ HI Hat Hq Hx Hne Hu) as (x & s' & Ha). eexists. by eapply acts_call. }
    assert ((ElUnlabelR ∈ started (ego s) → closed UnlabelDone s) ∨ ∃ y, acts el_answered el_routines ElUnlabelR (ts, s) y) as [Hu|[y Hy]].
    { destruct (decide (ElUnlabelR ∈ started (ego s))) as [Hu|]; [|by left].
      destruct (Hone 3%nat ElUnlabelR) as [[b Hb]|?]; [done | done | done | done | left | by right].
      intros _. by apply (Hts 3%nat ElUnlabelR _ eq_refl Hb). }
    + destruct (Hone 2%nat ElStopR) as [[b Hb]|[y Hy]]; [done | done | done | by intros _ | | eauto].
      pose proof (Hts 2%nat ElStopR _ eq_refl Hb) as Hf. cbn in Hf. congruence.
    + eauto.
  - split_and!; [by eapply el_known_runs | rewrite (runs_length _ _ _ _ _ Hr); done | done].
Qed.
End Life.

(** * The process *)

(** The callbacks and the controller that they run, [LbRun], as one process. *)
Section Process.
Context {Q : Type} `{HQueue : WorkQueue Q} `{!WorkQueueLaws Q} (a : StartArgs) (hasPage : bool) (workers rounds : nat).

Definition Process : Type := ElConfig * LbConfig (Q := Q).

Definition run_begins (e : Ev ElCall) : bool := match ev_c e with ElRunBegin => true | _ => false end.
Definition run_ends (e : Ev ElCall) : bool := match ev_c e with ElRunEnd => true | _ => false end.
Definition returned (y : LbConfig (Q := Q)) : bool := match y.1 !! 0%nat with Some (Ret tt) => true | _ => false end.

(** There is one lease; [run] starts [Run], and is over only when [Run] has returned. *)
Definition linked (p : Process) : Prop :=
  cancelled (lgo p.2.2) Lease = cancelled (ego p.1.2) tt ∧
  (LbRunR ∈ started (lgo p.2.2) ↔ Exists (λ e, run_begins e.2 = true) (ehist p.1.2)) ∧
  (Exists (λ e, run_ends e.2 = true) (ehist p.1.2) → returned p.2 = true).

#[export] Instance linked_dec p : Decision (linked p).
Proof. unfold linked. apply _. Defined.

Abbreviation el_turn := (turns el_answered el_environment el_routines).
Abbreviation lb_turn := (turns (lb_answered (Q := Q)) lb_environment (lb_routines workers)).

Inductive process_turn : Process → Process → Prop :=
| turn_callbacks x x' y : el_turn x x' → linked (x', y) → process_turn (x, y) (x', y)
| turn_controller x y y' : exited (ego x.2) = false → lb_turn y y' → linked (x, y') → process_turn (x, y) (x, y')
| turn_both x x' y y' : exited (ego x.2) = false → el_turn x x' → lb_turn y y' → linked (x', y') → process_turn (x, y) (x', y').

Definition process_init : Process := (el_init a hasPage, lb_init workers rounds).

Lemma process_parts p : rtc process_turn process_init p →
  el_runs (el_init a hasPage) p.1 ∧ lb_runs workers (lb_init workers rounds) p.2 ∧ linked p.
Proof.
  revert p. apply (rtc_ind_r (λ p, el_runs (el_init a hasPage) p.1 ∧ lb_runs workers (lb_init workers rounds) p.2 ∧ linked p)).
  - split_and!; [apply rtc_refl | apply rtc_refl |]. split_and!; [done | | by intros ?%Exists_nil].
    split; [by intros ?%not_elem_of_nil | by intros ?%Exists_nil].
  - intros p q _ Ht (He & Hl & _). destruct Ht as [x x' y Hx Hlk | x y y' _ Hy Hlk | x x' y y' _ Hx Hy Hlk]; cbn in *;
      split_and!; try done; by eapply rtc_r.
Qed.

(** C30: the exit of the load-balancer controller abandons no reconcile.  The
    process exits only when its lease is over and after the removal of the label of
    the leader from its pod was asked for (if it knows its pod; the answer of that
    patch is not waited for to be a success).  If it led - [run] was begun while it
    held the lease - every service that a worker took from the queue was given back
    by then, so that an address it may have requested is recorded - unless the grace
    period of the controller's drain was over, or the callback's own wait, which is
    at least as long as the grace period and the abort together. *)
Theorem exit_abandons_nothing x y :
  rtc process_turn process_init (x, y) → exited (ego x.2) = true →
  lease_over x.2 ∧ (led x.2 → settled y.2 ∨ grace_over y.2 ∨ drain_over x.2) ∧ label_removed a x.2 ∧
  LbRun.shutdownGracePeriod + shutdownAbortTimeout ≤ leaderDrainTimeout.
Proof.
  intros Hr Hx. destruct (process_parts _ Hr) as (He & Hl & _ & _ & Hret). cbn in *.
  destruct (el_known_runs _ _ _ He) as [HI _]. destruct (i_exited _ _ HI Hx) as [Hd Hlab]. pose proof (i_over _ _ HI Hx) as Hov.
  split_and!; [done | | done | done]. intros Hled. destruct (Hd Hled) as [Ho|Ho]; [|by right; right].
  assert (returned y = true) as Hy.
  { apply Hret, Exists_exists. eexists. by split; [exact Ho|]. }
  destruct (returned_settled workers y) as [?|?]; [by eapply lb_known_runs | | by left | by right; left].
  unfold returned in Hy. destruct (y.1 !! 0%nat) as [[[]|]|]; done.
Qed.
End Process.

(** * At concrete inputs *)

(** [hint] chooses among the answers of a call. *)
Definition el_exec (r : ElRoutine) (hint : nat) {R} (k : ElCall R) (s : Election) : option (R * Election) :=
  match k in ElCall R return option (R * Election) with
  | ElPrim k => match exec_prim r hint k (ego s) with Some (x, g) => Some (x, set_ego g s) | None => None end
  | ElStoreReady b => Some (tt, set_leaderReady b s)
  | ElRunBegin => Some (cancelled (ego s) tt, s)
  | ElRunEnd => if cancelled (ego s) tt then Some (tt, s) else None
  | ElStart k => match k in StartCall R return option (R * Election) with
      | PatchPodLabel ns pod key v => Some (Ok tt, set_labelled (is_some v) s)
      | AwaitPage t => Some ((hint =? 0)%nat, s)
      | _ => None
      end
  end.

Lemma el_exec_sound r hint R (k : ElCall R) s x s' : el_exec r hint k s = Some (x, s') → el_effect r R k s x s'.
Proof.
  destruct k as [R k|b| | |R k]; cbn; intros He.
  - destruct (exec_prim r hint k (ego s)) as [[y g]|] eqn:Hp; simplify_eq. constructor. by eapply exec_prim_sound.
  - simplify_eq. by constructor.
  - simplify_eq. by constructor.
  - destruct (cancelled (ego s) tt) eqn:Ho; simplify_eq. by constructor.
  - destruct k; simplify_eq; constructor.
Qed.

Inductive ElChoice := ETurn (i hint : nat) | EElected | EOver | EStopped.

Definition el_choose (x : ElConfig) (ch : ElChoice) : option ElConfig :=
  let '(ts, s) := x in
  match ch with
  | EElected => if bool_decide (ElLeadR ∈ started (ego s)) || bool_decide (ElStopR ∈ started (ego s)) then None
      else Some (ts, set_ego (start ElLeadR (ego s)) s)
  | EOver => Some (ts, set_ego (cancel tt (ego s)) s)
  | EStopped => if cancelled (ego s) tt && negb (bool_decide (ElStopR ∈ started (ego s)))
      then Some (ts, set_ego (start ElStopR (ego s)) s) else None
  | ETurn i hint => if exited (ego s) then None else
      match el_routines !! i, ts !! i with
      | Some r, Some (Do k kont) => match el_exec r hint k s with
          | Some (y, s') => Some (<[i := kont y]> ts, el_record r k y s')
          | None => None
          end
      | _, _ => None
      end
  end.

Lemma el_choose_turns x ch y : el_choose x ch = Some y → turns el_answered el_environment el_routines x y.
Proof.
  destruct x as [ts s], ch; cbn -[el_routines el_exec]; intros He.
  - destruct (exited (ego s)) eqn:Hx; [done|].
    destruct (el_routines !! i) as [r|] eqn:Hi; [|done]. destruct (ts !! i) as [[|R k kont]|] eqn:Hp; [done | | done].
    destruct (el_exec r hint k s) as [[b s']|] eqn:Hk; simplify_eq. eapply turns_act, acts_call; [done | done |].
    constructor; [done | by eapply el_exec_sound].
  - destruct (bool_decide _ || bool_decide _) eqn:Hb; simplify_eq.
    apply orb_false_iff in Hb as [?%bool_decide_eq_false ?%bool_decide_eq_false]. apply turns_env. by constructor.
  - simplify_eq. apply turns_env. constructor.
  - destruct (_ && _) eqn:Hb; simplify_eq. apply andb_true_iff in Hb as [? ?%negb_true_iff%bool_decide_eq_false].
    apply turns_env. by constructor.
Qed.

Fixpoint el_play (x : ElConfig) (chs : list ElChoice) : option ElConfig :=
  match chs with [] => Some x | ch :: chs => match el_choose x ch with Some y => el_play y chs | None => None end end.

Lemma el_play_runs x chs y : el_play x chs = Some y → el_runs x y.
Proof.
  revert x. induction chs as [|ch chs IH]; intros x; cbn -[el_choose]; [by intros [= ->]; apply rtc_refl|].
  destruct (el_choose x ch) as [z|] eqn:Hc; [|done]. intros Hp. eapply rtc_l; [by eapply el_choose_turns | by apply IH].
Qed.

Definition el_args : StartArgs := mkStartArgs "rancher-fip-manager" "lb-0" "" true 8080.
Definition el_demo (chs : list ElChoice) : ElConfig := default (el_init el_args true) (el_play (el_init el_args true) chs).

Lemma el_demo_runs chs : is_Some (el_play (el_init el_args true) chs) → el_runs (el_init el_args true) ((el_demo chs).1, (el_demo chs).2).
Proof. intros [y Hy]. unfold el_demo. rewrite Hy. cbn. destruct y. by apply (el_play_runs _ chs). Qed.

(** It leads with the label; the lease is lost and the callback begins. *)
Definition el_leading : list ElChoice := EElected :: replicate 5 (ETurn 0 0) ++ replicate 3 (ETurn 1 0).
Definition el_losing : list ElChoice := el_leading ++ EOver :: EStopped :: replicate 4 (ETurn 2 0).
(** [run] returns in time, or it hangs. *)
Definition el_drained : list ElChoice := el_losing ++ [ETurn 0 0; ETurn 0 0; ETurn 2 0] ++ replicate 3 (ETurn 3 0) ++ replicate 2 (ETurn 2 0).
Definition el_hung : list ElChoice := el_losing ++ [ETurn 2 1] ++ replicate 3 (ETurn 3 0) ++ replicate 2 (ETurn 2 0).

Ltac el_plays := vm_compute; by eexists.

Lemma leader_exits_drained_witness :
  let s := (el_demo el_hung).2 in
  exited (ego s) = true ∧ labelled s = false ∧ led s ∧ (run_over s ∨ drain_over s) ∧ label_removed el_args s.
Proof.
  assert (el_runs (el_init el_args true) ((el_demo el_hung).1, (el_demo el_hung).2)) as Hr by (apply el_demo_runs; el_plays).
  assert (led (el_demo el_hung).2) as Hl by (vm_compute; repeat (first [by apply Exists_cons_hd | apply Exists_cons_tl])).
  destruct (leader_exits_drained el_args true _ _ Hr) as (Hx & _ & _).
  split; [by vm_compute|]. split; [by vm_compute|]. split; [exact Hl|]. destruct (Hx ltac:(by vm_compute)) as [Hd Hr']. split; [by apply Hd | exact Hr'].
Defined.

Lemma stopped_leader_exits_witness :
  let x := el_demo el_losing in
  exited (ego x.2) = false ∧ labelled x.2 = true ∧
  inevitable el_answered el_environment el_routines (λ r, r = ElStopR ∨ r = ElUnlabelR)
    (λ x, exited (ego x.2) = true) (x.1, x.2).
Proof.
  split; [by vm_compute|]. split; [by vm_compute|].
  apply (stopped_leader_exits el_args true); [apply el_demo_runs; el_plays | vm_compute; repeat (first [left | right])].
Defined.

(** The lease is lost before [OnStartedLeading], a goroutine of its own, has taken its
    first step: [OnStoppedLeading] clears the flag first and [OnStartedLeading] sets it
    after, so that the page of a replica that lost the lease passes for the leader's
    until the process exits, and another replica may lead. *)
Definition el_late : list ElChoice := [EElected; EOver; EStopped] ++ replicate 3 (ETurn 2 0) ++ [ETurn 2 1] ++ replicate 3 (ETurn 0 0).

Lemma flag_set_after_loss :
  let x := el_demo el_late in
  el_runs (el_init el_args true) (x.1, x.2) ∧ lease_over x.2 ∧ ElStopR ∈ started (ego x.2) ∧
  exited (ego x.2) = false ∧ leaderReady x.2 = true.
Proof.
  split; [apply el_demo_runs; el_plays|].
  split_and!; [by vm_compute | vm_compute; repeat (first [left | right]) | by vm_compute | by vm_compute].
Qed.
