(* ===== verification/LbStartDemo.v ===== *)
(** The load-balancer controller at concrete inputs: with one worker at work, when the
    lease is lost while a service is reconciled, and its start. *)

From stdpp Require Import functions.
From S2P Require Import Prelude Prog Threads RelyGuarantee Goroutines WorkQueue GoStd NetIP ApiTypes Kube ApiServer LbApi LbController LbServer LbRun LbRunCorrect LbStart LbElect.

Abbreviation LWorld := (LbRunWorld ListQueue).

(** [hint] chooses among the answers of a call. *)
Definition lb_exec (r : LbRoutine) (hint : nat) {R} (k : LbRunCall R) (s : LWorld) : option (R * LWorld) :=
  match k in LbRunCall R return option (R * LWorld) with
  | LbPrim k => match exec_prim r hint k (lgo s) with Some (x, g) => Some (x, set_lgo g s) | None => None end
  | LbCacheSync => if lsynced s then Some (true, s) else if cancelled (lgo s) Lease then Some (false, s) else None
  | LbGet => match q_Get (lqueue s) with Some (x, q) => Some (x, set_lqueue q s) | None => None end
  | LbDone key => Some (tt, set_lqueue (q_Done key (lqueue s)) s)
  | LbForget key => Some (tt, set_lqueue (q_Forget key (lqueue s)) s)
  | LbAgain key => Some (tt, set_lqueue (q_AddRateLimited key (lqueue s)) s)
  | LbShutDown => Some (tt, set_lqueue (q_ShutDown (lqueue s)) s)
  | LbReconcile _ => Some (match hint with O => None | _ => Some (mkErr KOther "reconcile") end, s)
  | LbOutOfRounds => None
  end.

Lemma lb_exec_sound r hint R (k : LbRunCall R) s x s' : lb_exec r hint k s = Some (x, s') → lb_effect r R k s x s'.
Proof.
  destruct k; cbn -[q_Get]; intros He.
  - destruct (exec_prim r hint c (lgo s)) as [[y g]|] eqn:Hp; simplify_eq. constructor. by eapply exec_prim_sound.
  - destruct (lsynced s) eqn:Hs; [|destruct (cancelled (lgo s) Lease) eqn:Hc]; simplify_eq; by constructor.
  - destruct (q_Get (lqueue s)) as [[y q]|] eqn:Hq; simplify_eq. by constructor.
  - simplify_eq. exact (lb_eff_done r key s).
  - simplify_eq. exact (lb_eff_forget r key s).
  - simplify_eq. exact (lb_eff_again r key s).
  - simplify_eq. exact (lb_eff_shutdown r s).
  - simplify_eq. by constructor.
  - done.
Qed.

Inductive LbChoice := LbTurn (i hint : nat) | LbBegin | LbLose | LbSynced | LbAdded (key : string).

Definition lb_choose (x : LbConfig (Q := ListQueue)) (ch : LbChoice) : option LbConfig :=
  let '(ts, s) := x in
  match ch with
  | LbBegin => if bool_decide (LbRunR ∈ started (lgo s)) then None else Some (ts, set_lgo (start LbRunR (lgo s)) s)
  | LbLose => Some (ts, set_lgo (cancel Lease (lgo s)) s)
  | LbSynced => Some (ts, set_lsynced s)
  | LbAdded key => Some (ts, set_lqueue (q_Add key (lqueue s)) s)
  | LbTurn i hint =>
      match lb_routines 1 !! i, ts !! i with
      | Some r, Some (Do k kont) => match lb_exec r hint k s with
          | Some (y, s') => Some (<[i := kont y]> ts, lb_record r k y s')
          | None => None
          end
      | _, _ => None
      end
  end.

Lemma lb_choose_turns x ch y : lb_choose x ch = Some y → turns lb_answered lb_environment (lb_routines 1) x y.
Proof.
  destruct x as [ts s], ch; cbn -[lb_routines lb_exec]; intros He.
  - destruct (lb_routines 1 !! i) as [r|] eqn:Hi; [|done]. destruct (ts !! i) as [[|R k kont]|] eqn:Hp; [done | | done].
    destruct (lb_exec r hint k s) as [[a s']|] eqn:Hk; simplify_eq. eapply turns_act, acts_call; [done | done |].
    constructor. by eapply lb_exec_sound.
  - case_bool_decide; simplify_eq. apply turns_env. by constructor.
  - simplify_eq. apply turns_env. constructor.
  - simplify_eq. apply turns_env. constructor.
  - simplify_eq. apply turns_env. constructor.
Qed.

Fixpoint lb_play (x : LbConfig (Q := ListQueue)) (chs : list LbChoice) : option LbConfig :=
  match chs with [] => Some x | ch :: chs => match lb_choose x ch with Some y => lb_play y chs | None => None end end.

Lemma lb_play_runs x chs y : lb_play x chs = Some y → lb_runs 1 x y.
Proof.
  revert x. induction chs as [|ch chs IH]; intros x; cbn -[lb_choose]; [by intros [= ->]; apply rtc_refl|].
  destruct (lb_choose x ch) as [z|] eqn:Hc; [|done]. intros Hp. eapply rtc_l; [by eapply lb_choose_turns | by apply IH].
Qed.

Definition lb_demo (chs : list LbChoice) : LbConfig := default (lb_init 1 3) (lb_play (lb_init 1 3) chs).

Lemma lb_demo_runs chs : is_Some (lb_play (lb_init 1 3) chs) → lb_runs 1 (lb_init 1 3) ((lb_demo chs).1, (lb_demo chs).2).
Proof. intros [y Hy]. unfold lb_demo. rewrite Hy. cbn. destruct y. by apply (lb_play_runs _ chs). Qed.

Definition run_steps (n : nat) : list LbChoice := replicate n (LbTurn 0 0).
Definition drain_steps (n : nat) : list LbChoice := replicate n (LbTurn 1 0).
Definition worker_steps (n : nat) : list LbChoice := replicate n (LbTurn 2 0).

(** The worker has taken a service, and is about to reconcile it, when the lease is lost. *)
Definition in_flight : list LbChoice :=
  LbBegin :: LbSynced :: run_steps 4 ++ LbAdded "ns/web" :: worker_steps 3 ++ [LbLose] ++ run_steps 2.

(** It gets to its end, and [Run] returns within the grace period. *)
Definition drains : list LbChoice := in_flight ++ run_steps 1 ++ worker_steps 6 ++ drain_steps 3 ++ run_steps 2.
(** It hangs: the timer of [Run] fires, and the context of its calls is cancelled. *)
Definition hangs : list LbChoice := in_flight ++ run_steps 1 ++ [LbTurn 0 1] ++ run_steps 1.

Ltac lb_plays := vm_compute; by eexists.

(** ** The process: its callbacks and its controller *)

Definition PProcess : Type := Process (Q := ListQueue).
Inductive ProcessChoice := Callbacks (ch : ElChoice) | Controller (ch : LbChoice) | Both (ch : ElChoice) (ch' : LbChoice).

Definition process_choose (p : PProcess) (ch : ProcessChoice) : option PProcess :=
  let '(x, y) := p in
  q ← match ch with
      | Callbacks ch => x' ← el_choose x ch; Some (x', y)
      | Controller ch => if exited (ego x.2) then None else y' ← lb_choose y ch; Some (x, y')
      | Both ch ch' => if exited (ego x.2) then None else x' ← el_choose x ch; y' ← lb_choose y ch'; Some (x', y')
      end;
  if bool_decide (linked q) then Some q else None.

Lemma process_choose_turn p ch q : process_choose p ch = Some q → process_turn 1 p q.
Proof.
  destruct p as [x y], ch as [ch|ch|ch ch']; cbn -[el_choose lb_choose linked].
  - destruct (el_choose x ch) as [x'|] eqn:Hx; cbn -[linked]; [|done]. case_bool_decide as Hl; intros; simplify_eq.
    apply turn_callbacks; [by eapply el_choose_turns | done].
  - destruct (exited (ego x.2)) eqn:He; [done|].
    destruct (lb_choose y ch) as [y'|] eqn:Hy; cbn -[linked]; [|done]. case_bool_decide as Hl; intros; simplify_eq.
    apply turn_controller; [done | by eapply lb_choose_turns | done].
  - destruct (exited (ego x.2)) eqn:He; [done|].
    destruct (el_choose x ch) as [x'|] eqn:Hx; cbn -[linked lb_choose]; [|done].
    destruct (lb_choose y ch') as [y'|] eqn:Hy; cbn -[linked]; [|done]. case_bool_decide as Hl; intros; simplify_eq.
    apply turn_both; [done | by eapply el_choose_turns | by eapply lb_choose_turns | done].
Qed.

Fixpoint process_play (p : PProcess) (chs : list ProcessChoice) : option PProcess :=
  match chs with [] => Some p | ch :: chs => q ← process_choose p ch; process_play q chs end.

Lemma process_play_runs p chs q : process_play p chs = Some q → rtc (process_turn 1) p q.
Proof.
  revert p. induction chs as [|ch chs IH]; intros p; cbn -[process_choose]; [by intros [= ->]; apply rtc_refl|].
  destruct (process_choose p ch) as [r|] eqn:Hc; [|done]. intros Hp. eapply rtc_l; [by eapply process_choose_turn | by apply IH].
Qed.

Definition process_start : PProcess := process_init el_args true 1 3.
Definition process_demo (chs : list ProcessChoice) : PProcess := default process_start (process_play process_start chs).

Lemma process_demo_runs chs : is_Some (process_play process_start chs) → rtc (process_turn 1) process_start (process_demo chs).
Proof. intros [q Hq]. unfold process_demo. rewrite Hq. by apply (process_play_runs _ chs). Qed.

(** It leads; a service is in flight when the lease is lost, and its worker gets to
    the end before the process exits. *)
Definition callbacks (i n : nat) : list ProcessChoice := replicate n (Callbacks (ETurn i 0)).
Definition controller (i n : nat) : list ProcessChoice := replicate n (Controller (LbTurn i 0)).
Definition leads_and_exits : list ProcessChoice :=
  Callbacks EElected :: callbacks 0 4 ++ [Both (ETurn 0 0) LbBegin] ++ callbacks 1 3 ++
  Controller LbSynced :: controller 0 4 ++ Controller (LbAdded "ns/web") :: controller 2 3 ++
  [Both EOver LbLose; Callbacks EStopped] ++ callbacks 2 4 ++ callbacks 3 3 ++
  controller 0 3 ++ controller 2 6 ++ controller 1 3 ++ controller 0 2 ++ callbacks 0 2 ++ callbacks 2 3.

Lemma exit_abandons_nothing_witness :
  let p := process_demo leads_and_exits in
  exited (ego p.1.2) = true ∧ labelled p.1.2 = false ∧ (LbWorkerR 0, mkEv (LbDone "ns/web") tt) ∈ lhist p.2.2 ∧
  led p.1.2 ∧ (settled p.2.2 ∨ grace_over p.2.2 ∨ drain_over p.1.2) ∧ label_removed el_args p.1.2.
Proof.
  assert (rtc (process_turn 1) process_start ((process_demo leads_and_exits).1, (process_demo leads_and_exits).2)) as Hr.
  { rewrite <- surjective_pairing. apply process_demo_runs. vm_compute. by eexists. }
  assert (led (process_demo leads_and_exits).1.2) as Hl by (vm_compute; repeat (first [by apply Exists_cons_hd | apply Exists_cons_tl])).
  destruct (exit_abandons_nothing el_args true 1 3 _ _ Hr ltac:(by vm_compute)) as (_ & Hd & Hlab & _).
  split; [by vm_compute|]. split; [by vm_compute|]. split; [vm_compute; repeat (first [left | right])|].
  split; [exact Hl|]. split; [by apply Hd | exact Hlab].
Defined.

Lemma work_outlives_lease_witness :
  (let x := lb_demo hangs in work_cancelled x.2 ∧ (settled x.2 ∨ grace_over x.2) ∧
     lb_took (LbWorkerR 0) (lhist x.2) = S (lb_gave (LbWorkerR 0) (lhist x.2))) ∧
  (let x := lb_demo drains in x.1 !! 0%nat = Some (Ret tt) ∧ l_down x.2 ∧ work_cancelled x.2 ∧
     (LbWorkerR 0, mkEv (LbDone "ns/web") tt) ∈ lhist x.2).
Proof.
  split; cbv zeta.
  - assert (lb_runs 1 (lb_init 1 3) ((lb_demo hangs).1, (lb_demo hangs).2)) as Hr by (apply lb_demo_runs; lb_plays).
    destruct (work_outlives_lease 1 3 _ _ Hr) as [Hw _]. split_and!; [by vm_compute | | by vm_compute].
    exact (proj2 (Hw eq_refl)).
  - assert (lb_runs 1 (lb_init 1 3) ((lb_demo drains).1, (lb_demo drains).2)) as Hr by (apply lb_demo_runs; lb_plays).
    destruct (work_outlives_lease 1 3 _ _ Hr) as [_ Hd].
    destruct (Hd 0%nat eq_refl eq_refl) as [H1 H2].
    split_and!; [by vm_compute | exact H1 | exact H2 | vm_compute; repeat (first [left | right])].
Defined.

Lemma lost_lease_ends_run_witness :
  lease_lost (lb_demo in_flight).2 ∧ lb_gave (LbWorkerR 0) (lhist (lb_demo in_flight).2) = 0%nat ∧
  inevitable lb_answered lb_environment (lb_routines 1) (λ r, r = LbRunR) run_returned ((lb_demo in_flight).1, (lb_demo in_flight).2).
Proof.
  split; [by vm_compute|]. split; [by vm_compute|].
  apply (lost_lease_ends_run 1 3); [apply lb_demo_runs; lb_plays | by vm_compute | vm_compute; repeat (first [left | right])].
Defined.

(** * The start *)

#[local] Existing Instance sorted_range.

(** ** Two replicas *)

(** Each string that is drawn is of the letter the state of the Secret selects. *)
Definition auth_handle : Handler StartCall (gomap string) := λ R c,
  match c in StartCall R return gomap string → R * gomap string with
  | StSecretGet _ _ => λ s, (match s with Some d => Ok (Some d) | None => Err (mkErr KNotFound "not found") end, s)
  | StSecretCreate _ _ d => λ s, match s with
      | None => (Ok (Some d), Some d)
      | Some _ => (Err (mkErr KAlreadyExists "already exists"), s)
      end
  | StRandInt _ => λ s, (Ok (match s with None => 10 | Some _ => 11 end), s)
  | StNamespaceGet _ | StConfigMapGet _ _ => λ s, (Err (errorf "no answer"), s)
  | StRandRead _ => λ s, (Ok [], s)
  | ServePage _ _ => λ s, (tt, s)
  | AwaitPage _ => λ s, (true, s)
  | PatchPodLabel _ _ _ _ => λ s, (Ok tt, s)
  end.

Lemma auth_handle_answers R (c : StartCall R) s : auth_answers R c s (auth_handle R c s).1 (auth_handle R c s).2.
Proof. destruct c, s; cbn; done. Qed.

(** Both find nothing and draw; the first one creates, the second one takes its. *)
Definition race : list nat := [0; 1]%nat ++ replicate 43 0%nat ++ replicate 44 1%nat.
Definition raced : list (Prog StartCall (res (string * string))) * gomap string :=
  run_threads auth_handle race (replicate 2 (credentials "fip"), None).
Definition drawn_pair : string * string := ("AAAAAAAAAA", "AAAAAAAAAAAAAAAAAAAAAAAAAAAAAAAA").

Lemma page_credentials_shared_witness :
  raced.1 = [Ret (Ok drawn_pair); Ret (Ok drawn_pair)] ∧ asks drawn_pair = true.
Proof.
  assert (raced.1 = [Ret (Ok drawn_pair); Ret (Ok drawn_pair)]) as Hr by (vm_compute; reflexivity). split; [exact Hr|].
  pose proof (run_reaches auth_answers auth_handle race auth_handle_answers (replicate 2 (credentials "fip"), None)) as Hx.
  fold raced in Hx. rewrite (surjective_pairing raced) in Hx.
  destruct (page_credentials_shared "fip" 2 None _ _ Hx) as [_ Ha].
  refine (proj2 (proj2 (Ha eq_refl 0%nat drawn_pair _))). rewrite Hr. reflexivity.
Defined.

(** A Secret without the two keys: the page asks for nothing. *)
Lemma empty_secret_disables_auth :
  (Prog.run auth_handle (credentials "fip") (Some ∅) []).1.1 = Ok ("", "") ∧ asks ("", "") = false.
Proof. vm_compute. done. Qed.

(** ** A leader *)

Definition demo_start : StartArgs := mkStartArgs "fip" "lb-0" "" true 8080.

Definition start_handle : Handler StartCall (list (option string)) := λ R c,
  match c in StartCall R return list (option string) → R * list (option string) with
  | StNamespaceGet _ => λ w, (Ok (Some {[projectLabel := "p1"]}), w)
  | StSecretGet _ n => λ w, (if bool_decide (n = httpAuthSecretName)
      then Ok (Some {["username" := "u"; "password" := "p"]})
      else Ok (Some {["apiUrl" := "https://fip"; "cluster" := "c1"; "clientSecret" := "s"; "project" := "p1"]}), w)
  | StSecretCreate _ _ d => λ w, (Ok (Some d), w)
  | StConfigMapGet _ _ => λ w, (Ok (Some {["pool" := "eth0"]}), w)
  | StRandInt _ => λ w, (Ok 0, w)
  | StRandRead _ => λ w, (Ok [], w)
  | ServePage _ _ => λ w, (tt, w)
  | AwaitPage _ => λ w, (true, w)
  | PatchPodLabel _ _ _ v => λ w, (Ok tt, v :: w)
  end.

Definition led := Prog.run start_handle (pbind (start_page demo_start) (leading demo_start 1)) [] [].

(** The label is taken off, put on, and taken off. *)
Lemma page_label_safe_witness :
  led.1.2 = [None; Some "true"; None] ∧ obeys (start_guard demo_start) [] led.2.
Proof.
  split; [vm_compute; reflexivity|]. apply (page_label_safe demo_start 1 led.2).
  assert (led.1.1 = tt) as <- by (destruct led.1.1; reflexivity).
  exact (run_execs start_handle (pbind (start_page demo_start) (leading demo_start 1)) [] []).
Defined.

(** ** The trusted certificates *)

#[local] Instance demo_pool : CertPoolLib string := {|
  AppendCertsFromPEM := λ s, if HasPrefix s "PEM:" then Some s else None
|}.

(** A bundle that cannot be parsed is ignored, an empty one trusts the system's roots. *)
Example ca_updates :
  (CAStore_Update (mkCAStore (Some "PEM:a")) "garbage").2 = mkCAStore (Some "PEM:a") ∧
  (CAStore_Update (mkCAStore (Some "PEM:a")) "PEM:b").2 = mkCAStore (Some "PEM:b") ∧
  (CAStore_Update (mkCAStore (Some "PEM:a")) "").2 = mkCAStore None ∧
  is_err (NewCAStore (P := string) "garbage") = true.
Proof. vm_compute. done. Qed.
