(* ===== verification/CmApi.v ===== *)
(** What the cluster manager talks to: the management cluster, the downstream
    clusters, Helm, the clock and the random source.

    These are calls ([CmCall]) whose answers are arbitrary; the libraries it only
    computes with are the class [CmLibs].  The objects carry the fields the
    program reads or writes; a secret's bytes are strings. *)

From S2P Require Import Prelude GoStd ApiTypes Prog.

(** ** Clients *)

(** [rest.Config]: whom to talk to, and the timeout of a request. *)
Record RESTConfig := mkREST { rc_Server : string; rc_Timeout : time }.

#[export] Instance RESTConfig_eq_dec : EqDecision RESTConfig.
Proof. solve_decision. Defined.

(** Where a call goes.  [client.Client] of the manager reads from its informer
    cache and writes to the API server, [APIReader] reads from the API server;
    a client of another cluster is known by its configuration. *)
Inductive Target :=
| Cache
| Uncached
| Remote (config : RESTConfig).

#[export] Instance Target_eq_dec : EqDecision Target.
Proof. solve_decision. Defined.

(** ** Objects *)

(** [managementv3.Cluster] and [managementv3.Project]. *)
Record MgmtCluster := mkMgmtCluster {
  mc_Name : string; mc_DisplayName : string; mc_Labels : gomap string
}.
Record MgmtProject := mkMgmtProject {
  mp_Name : string; mp_Namespace : string; mp_ClusterName : string
}.

(** [provisioningv1.Cluster]: its machine pools, and the node configuration of
    each. *)
Record NodeRef := mkNodeRef { nr_Kind : string; nr_Name : string }.
Record MachinePool := mkMachinePool { ControlPlaneRole : bool; NodeConfig : option NodeRef }.
Record ProvCluster := mkProvCluster {
  pc_Name : string; CloudCredentialSecretName : string; RKEConfig : option (list MachinePool)
}.

(** The three string fields of an unstructured HarvesterConfig; a missing field,
    or one that is no string, is empty. *)
Record HarvesterConfig := mkHarvesterConfig {
  hc_Name : string; vmNamespace : string; networkInfo : string; networkName : string
}.

Record KSecret := mkKSecret { ks_Name : string; ks_Namespace : string; ks_Data : gomap string }.
Record KNamespace := mkKNamespace { kn_Name : string; kn_Labels : gomap string; kn_Annotations : gomap string }.
Record ConfigMap := mkConfigMap { km_Name : string; km_Namespace : string; km_Data : gomap string }.
Record Deployment := mkDeployment {
  dp_Name : string; dp_Namespace : string; dp_TemplateAnnotations : gomap string
}.

Definition set_ks_Data (s : KSecret) (data : gomap string) : KSecret :=
  mkKSecret (ks_Name s) (ks_Namespace s) data.
Definition set_kn_Labels (n : KNamespace) (labels : gomap string) : KNamespace :=
  mkKNamespace (kn_Name n) labels (kn_Annotations n).
Definition set_km_Data (m : ConfigMap) (data : gomap string) : ConfigMap :=
  mkConfigMap (km_Name m) (km_Namespace m) data.
Definition set_dp_Annotations (d : Deployment) (a : gomap string) : Deployment :=
  mkDeployment (dp_Name d) (dp_Namespace d) a.

(** [helm.ChartSpec] *)
Record ChartSpec := mkChartSpec {
  cs_ChartName : string; cs_ReleaseName : string; cs_Namespace : string;
  cs_Version : string; cs_Values : string; cs_RepoURL : string
}.

#[export] Instance ChartSpec_eq_dec : EqDecision ChartSpec.
Proof. solve_decision. Defined.

(** The configuration of the manager. *)
Record Config := mkConfig {
  RancherFipApiServerURL : string;
  RancherFipLBControllerChartName : string;
  RancherFipLBControllerChartRef : string;
  RancherFipLBControllerChartVersion : string;
  RancherFipLBControllerNamespace : string;
  RancherFipLBControllerValues : string;
  PureLBControllerChartName : string;
  PureLBControllerChartRef : string;
  PureLBControllerChartVersion : string;
  PureLBControllerNamespace : string;
  PureLBControllerValues : string;
  MetalLBControllerChartName : string;
  MetalLBControllerChartRef : string;
  MetalLBControllerChartVersion : string;
  MetalLBControllerNamespace : string;
  MetalLBControllerValues : string;
  CaCrt : option string
}.

(** A reconciler of the manager, and what its [Reconcile] returns. *)
Record CmReconciler := mkCmReconciler {
  APIReader : option Target; cm_Config : Config; AppNamespace : string
}.
Record CtrlResult := mkResult { RequeueAfter : time }.

(** ** Calls *)

Inductive CmCall : Type → Type :=
(* Rancher's objects, from the cache *)
| ClusterGet (name : string) : CmCall (res MgmtCluster)
| ProjectList : CmCall (res (list MgmtProject))
| ProvClusterList : CmCall (res (list ProvCluster))
| HarvesterConfigGet (ns name : string) : CmCall (res HarvesterConfig)
(* the manager's own objects *)
| QuotaGet (name : string) : CmCall (res FloatingIPProjectQuota)
| QuotaList : CmCall (res (list FloatingIPProjectQuota))
| QuotaPatch (base fresh : FloatingIPProjectQuota) : CmCall (res unit)
| PoolList : CmCall (res (list FloatingIPPool))
| FipList : CmCall (res (list FloatingIP))
| FipUpdate (f : FloatingIP) : CmCall (res unit)
(* Kubernetes, here or downstream; [None] lists all namespaces *)
| SecretGet (t : Target) (ns name : string) : CmCall (res KSecret)
| SecretList (t : Target) (ns : option string) : CmCall (res (list KSecret))
| SecretCreate (t : Target) (s : KSecret) : CmCall (res unit)
| SecretUpdate (t : Target) (s : KSecret) : CmCall (res unit)
| SecretDelete (t : Target) (ns name : string) : CmCall (res unit)
| NamespaceGet (t : Target) (name : string) : CmCall (res KNamespace)
| NamespaceCreate (t : Target) (n : KNamespace) : CmCall (res unit)
| NamespaceUpdate (t : Target) (n : KNamespace) : CmCall (res unit)
| ConfigMapGet (t : Target) (ns name : string) : CmCall (res ConfigMap)
| ConfigMapCreate (t : Target) (m : ConfigMap) : CmCall (res unit)
| ConfigMapUpdate (t : Target) (m : ConfigMap) : CmCall (res unit)
| DeploymentGet (t : Target) (ns name : string) : CmCall (res Deployment)
| DeploymentUpdate (t : Target) (d : Deployment) : CmCall (res unit)
| PodList (t : Target) (ns : string) : CmCall (res unit)
(* a client of a downstream cluster *)
| NewDownstreamClient (config : RESTConfig) : CmCall (res unit)
(* Helm *)
| AddOrUpdateChartRepo (name url : string) : CmCall (res unit)
| InstallOrUpgrade (config : RESTConfig) (spec : ChartSpec) : CmCall (res unit)
| CheckIfChartIsInstalled (config : RESTConfig) (release ns : string) : CmCall (res bool)
(* [rand.Read] of a slice: the bytes it was filled with; [time.Now] *)
| RandRead (n : nat) : CmCall (res (list Z))
| CmNow : CmCall time.

(** Libraries the manager computes with. *)
Class CmLibs := {
  (* [clientcmd.RESTConfigFromKubeConfig] *)
  RESTConfigFromKubeConfig : string → res RESTConfig;
  (* [json.Unmarshal] of a networkInfo: the network names of its interfaces *)
  UnmarshalNetworkInfo : string → res (list string);
  (* [Format(time.RFC3339)] *)
  FormatRFC3339 : time → string
}.

(** [apiequality.Semantic.DeepEqual] of two maps: nil and empty are equal. *)
Definition SemanticDeepEqual (a b : gomap string) : bool := bool_decide (default ∅ a = default ∅ b).

(** [m[key] = value], of a map that was made if it was nil. *)
Definition mset (m : gomap string) (key value : string) : gomap string := Some (<[key := value]> (default ∅ m)).

Definition minutes (n : Z) : time := n * (60 * 10 ^ 9).

(** The pairs that handlers and reconcilers return. *)
Definition Outcome : Type := CtrlResult * option error.
Definition finished : Outcome := (mkResult 0, None).
Definition requeue (d : time) : Outcome := (mkResult d, None).
Definition fail (err : error) : Outcome := (mkResult 0, Some err).
Definition fail_after (d : time) (err : error) : Outcome := (mkResult d, Some err).

(** A step of a reconciler ends it, or hands on a value. *)
Notation "'step!' x := m 'in' k" :=
  (pbind m (λ r, match r with inl stop => Ret stop | inr x => k end))
  (at level 10, x name, m at level 100, k at level 200) : prog_scope.
Notation "'step!' ' p := m 'in' k" :=
  (pbind m (λ r, match r with inl stop => Ret stop | inr p => k end))
  (at level 10, p strict pattern, m at level 100, k at level 200) : prog_scope.

(** A step of a part of a reconciler. *)
Definition and_then {A B} (m : Prog CmCall (Outcome + A)) (k : Prog CmCall (Outcome + B))
    : Prog CmCall (Outcome + B) :=
  pbind m (λ r, match r with inl stop => Ret (inl stop) | inr _ => k end).
