(* ===== verification/CmStart.v ===== *)
(** The start of the cluster manager, [run] of
    [clustermanager/cmd/cluster-manager/main.go]: its configuration, and the
    reconcilers that it is given to.

    [logrus.Fatalf] ends the process; a program that has called it does nothing
    more.  The manager of controller-runtime, which runs the reconcilers, is one
    call. *)

From S2P Require Import Prelude Prog GoStd ApiTypes CmApi.

Inductive CmStartCall : Type → Type :=
| CmClientset : CmStartCall (option error)
| CmConfigMap (ns name : string) : CmStartCall (res (gomap string))
| CmSecret (ns name : string) : CmStartCall (res (gomap string))
| CmCtxErr : CmStartCall bool                                   (* the context is done *)
| CmNewManager (probes : string) : CmStartCall (option error)
| CmClusterController (r : CmReconciler) : CmStartCall (option error)   (* SetupWithManager *)
| CmQuotaController (r : CmReconciler) : CmStartCall (option error)
| CmMgrStart : CmStartCall (option error)
| CmFatal : CmStartCall unit.

(** A key that is missing reads as the empty string. *)
Definition app_config (data : gomap string) (ca : option string) : Config :=
  let at_ k := mget data k in
  mkConfig (at_ "RancherFipApiServerURL")
    (at_ "RancherFipLBControllerChartName") (at_ "RancherFipLBControllerChartRef")
    (at_ "RancherFipLBControllerChartVersion") (at_ "RancherFipLBControllerNamespace")
    (at_ "RancherFipLBControllerValues")
    (at_ "PureLBControllerChartName") (at_ "PureLBControllerChartRef") (at_ "PureLBControllerChartVersion")
    (at_ "PureLBControllerNamespace") (at_ "PureLBControllerValues")
    (at_ "MetalLBControllerChartName") (at_ "MetalLBControllerChartRef") (at_ "MetalLBControllerChartVersion")
    (at_ "MetalLBControllerNamespace") (at_ "MetalLBControllerValues") ca.

Section Code.
#[local] Open Scope prog_scope.

Definition cm_fatal_unless_done : Prog CmStartCall unit :=
  let! gone := call CmCtxErr in if gone : bool then Ret tt else call CmFatal.

Definition cm_must (step : CmStartCall (option error)) (p : Prog CmStartCall unit) : Prog CmStartCall unit :=
  let! err := call step in match err with Some _ => call CmFatal | None => p end.

(** A Secret that is missing means that there is no CA of its own. *)
Definition cm_with_ca (ns : string) (p : option string → Prog CmStartCall unit) : Prog CmStartCall unit :=
  let! r := call (CmSecret ns "cacerts") in
  match r with
  | Ok data => p (mlookup data "ca.crt")
  | Err e => if IsNotFound e then p None else cm_fatal_unless_done
  end.

Definition cm_manage (r : CmReconciler) : Prog CmStartCall unit :=
  cm_must (CmNewManager "0") (cm_must (CmClusterController r) (cm_must (CmQuotaController r) (cm_must CmMgrStart (Ret tt)))).

Definition cm_run (ns : string) : Prog CmStartCall unit :=
  cm_must CmClientset (
    let! r := call (CmConfigMap ns "rancher-fip-config") in
    match r with
    | Err _ => cm_fatal_unless_done
    | Ok data => cm_with_ca ns (λ ca, cm_manage (mkCmReconciler (Some Uncached) (app_config data ca) ns))
    end).
End Code.

(** * What a start shows *)

Section Start.
Context (ns : string).

Definition cm_read (data : gomap string) (ca : option string) (h : History CmStartCall) : Prop :=
  mkEv (CmConfigMap ns "rancher-fip-config") (Ok data) ∈ h ∧
  asked (CmSecret ns "cacerts") h (λ r, match r with Ok sec => ca = mlookup sec "ca.crt" | Err e => IsNotFound e = true ∧ ca = None end).

(** A reconciler has the configuration that was read, and reads past the cache. *)
Definition configured (r : CmReconciler) (h : History CmStartCall) : Prop :=
  AppNamespace r = ns ∧ APIReader r = Some Uncached ∧
  ∃ data ca, cm_read data ca h ∧ cm_Config r = app_config data ca.

(** The event of a step that the start cannot go on without, and that failed. *)
Definition step_failed (e : Ev CmStartCall) : bool :=
  match ev_c e in CmStartCall R return R → bool with
  | CmClientset | CmNewManager _ | CmClusterController _ | CmQuotaController _ | CmMgrStart => is_some
  | _ => λ _, false
  end (ev_ans e).

Definition read_failed (e : Ev CmStartCall) : bool :=
  match ev_c e in CmStartCall R return R → bool with
  | CmConfigMap _ _ => λ r, negb (is_ok r)
  | CmSecret _ _ => λ r, match r with Err e => negb (IsNotFound e) | Ok _ => false end
  | _ => λ _, false
  end (ev_ans e).

(** Why the process may be ended. *)
Definition cm_failed (h : History CmStartCall) : Prop :=
  Exists (λ e, step_failed e = true) h ∨
  Exists (λ e, read_failed e = true) h ∧ mkEv CmCtxErr false ∈ h.

Definition cm_start_guard : Prog.Guard CmStartCall := λ h R c,
  match c with
  | CmFatal => cm_failed h
  | CmClusterController r => configured r h
  | CmQuotaController r => configured r h ∧ mkEv (CmClusterController r) None ∈ h
  | CmMgrStart => ∃ r, configured r h ∧ mkEv (CmClusterController r) None ∈ h ∧ mkEv (CmQuotaController r) None ∈ h
  | _ => True
  end.

#[local] Notation any := (λ _ _, True).

Lemma cm_configured_extends r h h' : extends h h' → configured r h → configured r h'.
Proof.
  intros Hh (Hn & Ha & data & ca & [Hd Hs] & Hc). split_and!; [done | done |].
  exists data, ca. split_and!; [split; [by eapply elem_extends | by eapply asked_extends] | done].
Qed.

Lemma wp_must step p h : (∀ e, step_failed (mkEv step (Some e)) = true) →
  cm_start_guard h _ step → wp cm_start_guard p any (mkEv step None :: h) → wp cm_start_guard (cm_must step p) any h.
Proof.
  intros Hf Hg Hp. apply wp_call_then; [done|]. intros [e|]; [|done]. apply wp_call; [|done].
  left. left. apply Hf.
Qed.

Lemma wp_fatal_unless_done h : Exists (λ e, read_failed e = true) h → wp cm_start_guard cm_fatal_unless_done any h.
Proof.
  intros Hr. apply wp_call_then; [done|]. intros [|]; [done|]. apply wp_call; [|done].
  right. split; [by right | left].
Qed.

Lemma wp_manage r h : configured r h → wp cm_start_guard (cm_manage r) any h.
Proof.
  intros Hc. assert (∀ h', extends h h' → configured r h') as Hk by (intros h' Hh; by eapply cm_configured_extends).
  apply wp_must; [done | done |]. apply wp_must; [done | by apply Hk; auto |].
  apply wp_must; [done | split; [by apply Hk; auto | left] |].
  apply wp_must; [done | | done].
  exists r. split_and!; [by apply Hk; auto | right; left | left].
Qed.

(** The start of the cluster manager.  In every run the process is ended only when a
    step of the start has failed, and by a read of its configuration only if the
    context was still alive: a shutdown during the start is not a failure.  The
    reconcilers are given the values that the config map holds, and the CA of the
    [cacerts] Secret unless there is none; they read past the cache; and the manager
    runs only when both are set up. *)
Theorem cluster_manager_starts h u : execs (cm_run ns) [] u h → obeys cm_start_guard [] h.
Proof.
  intros He. eapply wp_execs; [exact He|]. apply wp_must; [done | done |].
  apply wp_call_then; [done|]. intros [data|e]; [|apply wp_fatal_unless_done; by left].
  apply wp_call_then; [done|]. intros [sec|e].
  - apply wp_manage. split_and!; [done | done |]. exists data, (mlookup sec "ca.crt").
    split; [|done]. split; [right; left | by apply asked_cons].
  - destruct (IsNotFound e) eqn:Hn; [|apply wp_fatal_unless_done; left; cbn; by rewrite Hn].
    apply wp_manage. split_and!; [done | done |]. exists data, None.
    split; [|done]. split; [right; left | by apply asked_cons].
Qed.
End Start.

(** The config map is read while the process is told to stop; and a start that goes
    through. *)
Definition cm_start_answers (reads done : bool) : Handler CmStartCall unit := λ R c s,
  (match c in CmStartCall R return R with
   | CmConfigMap _ _ => if reads then Ok (Some {["RancherFipApiServerURL" := "https://fip"]}) else Err (errorf "context canceled")
   | CmSecret _ _ => Err (mkErr KNotFound "cacerts")
   | CmCtxErr => done
   | CmFatal => tt
   | CmClientset | CmNewManager _ | CmClusterController _ | CmQuotaController _ | CmMgrStart => None
   end, s).

Definition cm_start_run (reads done : bool) : History CmStartCall := (run (cm_start_answers reads done) (cm_run "fip") tt []).2.

Lemma cluster_manager_starts_witness :
  obeys (cm_start_guard "fip") [] (cm_start_run true false) ∧
  mkEv CmMgrStart None ∈ cm_start_run true false ∧
  Forall (λ e, match ev_c e with CmFatal => False | _ => True end) (cm_start_run false true) ∧
  Exists (λ e, match ev_c e with CmFatal => True | _ => False end) (cm_start_run false false).
Proof.
  split; [|split; [|split]].
  - apply (cluster_manager_starts "fip" _ (run (cm_start_answers true false) (cm_run "fip") tt []).1.1). apply run_execs.
  - left.
  - vm_compute. repeat constructor.
  - vm_compute. by repeat constructor.
Defined.
