(* ===== verification/CmHandlers.v ===== *)
(** The handlers of the cluster manager: [clustermanager/internal/secret],
    [pkg/controllers/namespace_handler.go], [configmap_handler.go],
    [secret_handler.go] and [downstream.go]. *)

From S2P Require Import Prelude GoStd ApiTypes Prog CmApi.

Definition configSecretPrefix : string := "rancher-fip-config-".
Definition projectNameKey : string := "rancher.k8s.binbash.org/project-name".
Definition restartedAtAnnotation : string := "rancher.k8s.binbash.org/lb-controller-restarted-at".
Definition configMapName : string := "network-interface-mappings".
Definition downstreamOperationTimeout : time := 30 * 10 ^ 9.

(** ** Secrets *)

Definition downstream_data (apiUrl clientSecret cluster project floatingIPPool loadBalancerType : string)
    : gmap string string :=
  list_to_map [("apiUrl", apiUrl); ("cluster", cluster); ("clientSecret", clientSecret);
    ("project", project); ("floatingIPPool", floatingIPPool); ("loadBalancerType", loadBalancerType)].

Definition NewDownstreamSecret
    (name namespace apiUrl clientSecret cluster project floatingIPPool loadBalancerType : string) : KSecret :=
  mkKSecret name namespace
    (Some (downstream_data apiUrl clientSecret cluster project floatingIPPool loadBalancerType)).

Definition local_data (clientSecret project : string) : gmap string string :=
  list_to_map [("clientSecret", clientSecret); ("project", project)].

Definition NewLocalSecret (name namespace clientSecret project : string) : KSecret :=
  mkKSecret name namespace (Some (local_data clientSecret project)).

Section Handlers.
Context `{HLibs : CmLibs}.
#[local] Open Scope prog_scope.

(** The 16 bytes of the slice are what the random source wrote into it. *)
Definition GenerateClientSecret : Prog CmCall (res string) :=
  try! bytes := call (RandRead 16) else err => Ret (Err err) in
  Ret (Ok (EncodeToString (resize 16 0 bytes))).

Definition newDownstreamRESTConfig (kubeconfig : string) : res RESTConfig :=
  match RESTConfigFromKubeConfig kubeconfig with
  | Err err => Err err
  | Ok config => Ok (mkREST (rc_Server config) downstreamOperationTimeout)
  end.

(** ** Namespaces *)

(** The namespace is there, or is created; the error of reading or creating it
    is told apart by the caller. *)
Definition ensure_namespace (c : Target) (name : string) : Prog CmCall (res unit) :=
  let! g := call (NamespaceGet c name) in
  match g with
  | Ok _ => Ret (Ok tt)
  | Err err =>
      if IsNotFound err then call (NamespaceCreate c (mkKNamespace name None None)) else Ret (Err err)
  end.

Definition EnsureNamespace (c : Target) (namespaceName : string) : Prog CmCall (res unit) :=
  if bool_decide (namespaceName = "") then
    Ret (Err (errorf "namespace name is not set in the configuration"))
  else ensure_namespace c namespaceName.

(** The deployment is restarted by a new value of an annotation of its pods. *)
Definition restart_lb_controller (c : Target) (namespaceName : string) : Prog CmCall (res unit) :=
  let! g := call (DeploymentGet c namespaceName "rancher-fip-lb-controller") in
  match g with
  | Err err => Ret (if IsNotFound err then Ok tt else Err err)
  | Ok deployment =>
      let! now := call CmNow in
      call (DeploymentUpdate c (set_dp_Annotations deployment
        (mset (dp_TemplateAnnotations deployment) restartedAtAnnotation (FormatRFC3339 now))))
  end.

Definition LabelNamespaceWithProjectID (c : Target) (namespaceName projectID : string) : Prog CmCall (res unit) :=
  try! namespace := call (NamespaceGet c namespaceName) else err => Ret (Err err) in
  if bool_decide (mlookup (kn_Labels namespace) projectNameKey = Some projectID) then Ret (Ok tt)
  else
    try! _u := call (NamespaceUpdate c (set_kn_Labels namespace
      (mset (kn_Labels namespace) projectNameKey projectID))) else err => Ret (Err err) in
    restart_lb_controller c namespaceName.

(** ** The map of network interfaces *)

Definition interface_mappings (targetCluster : string) (pools : list FloatingIPPool) : gmap string string :=
  foldl (λ m pool,
    if bool_decide (TargetCluster (pool_Spec pool) = targetCluster)
    then <[Name (pool_meta pool) := TargetNetworkInterface (pool_Spec pool)]> m else m) ∅ pools.

Definition put_configmap (c : Target) (appNamespace : string) (data : gmap string string) : Prog CmCall (res unit) :=
  let! g := call (ConfigMapGet c appNamespace configMapName) in
  match g with
  | Err err =>
      if IsNotFound err then call (ConfigMapCreate c (mkConfigMap configMapName appNamespace (Some data)))
      else Ret (Err err)
  | Ok cm =>
      if SemanticDeepEqual (km_Data cm) (Some data) then Ret (Ok tt)
      else call (ConfigMapUpdate c (set_km_Data cm (Some data)))
  end.

Definition HandleNetworkConfigMap (downstreamClient : Target) (targetCluster appNamespace : string)
    : Prog CmCall (res unit) :=
  try! floatingIPPools := call PoolList else err => Ret (Err err) in
  let configMapData := interface_mappings targetCluster floatingIPPools in
  if bool_decide (configMapData = ∅) then Ret (Ok tt)
  else
    try! _n := ensure_namespace downstreamClient appNamespace else err => Ret (Err err) in
    put_configmap downstreamClient appNamespace configMapData.

(** ** The config secrets *)

(** The client secret in the local cluster: the existing one, or a new one that
    is stored there first. *)
Definition local_client_secret (localReader : Target) (projectNamespace projectID : string)
    : Prog CmCall (res string) :=
  let secretName := configSecretPrefix +:+ projectID in
  let! g := call (SecretGet localReader projectNamespace secretName) in
  match g with
  | Ok existingSecret =>
      let clientSecret := mget (ks_Data existingSecret) "clientSecret" in
      if negb (bool_decide (clientSecret = "")) then Ret (Ok clientSecret)
      else
        try! clientSecret := GenerateClientSecret else err => Ret (Err err) in
        try! _u := call (SecretUpdate Cache (set_ks_Data existingSecret
          (Some (local_data clientSecret projectID)))) else err => Ret (Err err) in
        Ret (Ok clientSecret)
  | Err _ =>
      try! clientSecret := GenerateClientSecret else err => Ret (Err err) in
      try! _c := call (SecretCreate Cache (NewLocalSecret secretName projectNamespace clientSecret projectID))
        else err => Ret (Err err) in
      Ret (Ok clientSecret)
  end.

(** The CA bundle: read afresh, with the snapshot of the start as the fallback
    of a read that fails. *)
Definition resolve_ca (apiReader : option Target) (appNamespace : string) (caCrt : option string)
    : Prog CmCall (option string) :=
  match apiReader with
  | Some reader =>
      if bool_decide (appNamespace = "") then Ret caCrt
      else
        let! g := call (SecretGet reader appNamespace "cacerts") in
        Ret (match g with
             | Ok s => mlookup (ks_Data s) "ca.crt"
             | Err err => if IsNotFound err then None else caCrt
             end)
  | None => Ret caCrt
  end.

(** A secret is created, or brought up to date. *)
Definition put_secret (c : Target) (desired : KSecret) : Prog CmCall (res unit) :=
  let! g := call (SecretGet c (ks_Namespace desired) (ks_Name desired)) in
  match g with
  | Err err => if IsNotFound err then call (SecretCreate c desired) else Ret (Err err)
  | Ok existing =>
      if SemanticDeepEqual (ks_Data existing) (ks_Data desired) then Ret (Ok tt)
      else call (SecretUpdate c (set_ks_Data existing (ks_Data desired)))
  end.

Definition put_cacerts (c : Target) (targetNamespace : string) (caCrt : option string) : Prog CmCall (res unit) :=
  match caCrt with
  | None => Ret (Ok tt)
  | Some ca => put_secret c (mkKSecret "cacerts" targetNamespace (Some {["ca.crt" := ca]}))
  end.

(** What [HandleConfigSecrets] is told. *)
Record SecretArgs := mkSecretArgs {
  sa_apiReader : option Target; sa_downstreamClient : option Target;
  sa_targetNamespace : string; sa_project : string; sa_projectNamespace : string;
  sa_targetNetwork : string; sa_apiServerURL : string; sa_cluster : string;
  sa_loadBalancerType : string; sa_caCrt : option string; sa_appNamespace : string
}.

Definition desired_secret (a : SecretArgs) (clientSecret : string) : KSecret :=
  NewDownstreamSecret (configSecretPrefix +:+ sa_project a) (sa_targetNamespace a) (sa_apiServerURL a)
    clientSecret (sa_cluster a) (sa_project a) (sa_targetNetwork a) (sa_loadBalancerType a).

Definition local_reader (a : SecretArgs) : Target := default Cache (sa_apiReader a).

(** Every failure is logged and tried again in a minute. *)
Definition HandleConfigSecrets (a : SecretArgs) : Prog CmCall Outcome :=
  let retry := requeue (minutes 1) in
  try! clientSecret := local_client_secret (local_reader a) (sa_projectNamespace a) (sa_project a)
    else _e => Ret retry in
  match sa_downstreamClient a with
  | None => Ret finished
  | Some downstream =>
      try! _n := ensure_namespace downstream (sa_targetNamespace a) else _e => Ret retry in
      let! caCrt := resolve_ca (sa_apiReader a) (sa_appNamespace a) (sa_caCrt a) in
      try! _c := put_cacerts downstream (sa_targetNamespace a) caCrt else _e => Ret retry in
      try! _s := put_secret downstream (desired_secret a clientSecret) else _e => Ret retry in
      Ret finished
  end.
End Handlers.
