(* ===== verification/CmSecretsCorrect.v ===== *)
(** The handlers of the cluster manager: which credentials they hand to a
    downstream cluster, and what is there when they say they are done. *)

From S2P Require Import Prelude GoStd ApiTypes Prog CmApi CmHandlers.

(** The secret exists in the cluster of [c] with the data of [s]: it was created
    so, it was read so, or it was brought up to date. *)
Definition holds (c : Target) (s : KSecret) (h : History CmCall) : Prop :=
  asked (SecretCreate c s) h (λ x, x = Ok tt) ∨
  asked (SecretGet c (ks_Namespace s) (ks_Name s)) h (λ x, ∃ s0, x = Ok s0 ∧
    (default ∅ (ks_Data s0) = default ∅ (ks_Data s) ∨
     asked (SecretUpdate c (set_ks_Data s0 (ks_Data s))) h (λ y, y = Ok tt))).

Lemma holds_extends c s h h' : extends h h' → holds c s h → holds c s h'.
Proof.
  intros Hh [Hc | (x & Hx & s0 & -> & Hs)]; [left; by eapply asked_extends|].
  right. exists (Ok s0). split; [by eapply elem_extends|]. exists s0. split; [done|].
  destruct Hs as [? | ?]; [by left | right; by eapply asked_extends].
Qed.

Section Secrets.
Context `{HLibs : CmLibs} (a : SecretArgs).

Notation name := (configSecretPrefix +:+ sa_project a).
Notation read_local := (SecretGet (local_reader a) (sa_projectNamespace a) name).

(** A client secret that was drawn from the random source. *)
Definition drawn (cs : string) (h : History CmCall) : Prop :=
  asked (RandRead 16) h (λ x, ∃ bytes, x = Ok bytes ∧ cs = EncodeToString (resize 16 0 bytes)).

(** The local cluster holds the client secret of the project. *)
Inductive local_holds (cs : string) (h : History CmCall) : Prop :=
| holds_existing s :
    mkEv read_local (Ok s) ∈ h → mget (ks_Data s) "clientSecret" = cs → local_holds cs h
| holds_regenerated s :
    mkEv read_local (Ok s) ∈ h → drawn cs h →
    mkEv (SecretUpdate Cache (set_ks_Data s (Some (local_data cs (sa_project a))))) (Ok tt) ∈ h → local_holds cs h
| holds_created :
    drawn cs h → mkEv (SecretCreate Cache (NewLocalSecret name (sa_projectNamespace a) cs (sa_project a))) (Ok tt) ∈ h →
    local_holds cs h.

Lemma drawn_extends cs h h' : extends h h' → drawn cs h → drawn cs h'.
Proof. apply asked_extends. Qed.

Lemma local_holds_extends cs h h' : extends h h' → local_holds cs h → local_holds cs h'.
Proof.
  intros Hh [s Hs ? | s Hs ? ? | ? ?].
  - eapply holds_existing; [by eapply elem_extends | done].
  - eapply holds_regenerated; [by eapply elem_extends | by eapply drawn_extends | by eapply elem_extends].
  - eapply holds_created; [by eapply drawn_extends | by eapply elem_extends].
Qed.

(** A write of the config secret in the local cluster: it repairs a secret
    without client secret, or creates one where none could be read. *)
Definition writes_local {R} (c : CmCall R) (h : History CmCall) : Prop :=
  match c with
  | SecretUpdate t s => t = Cache ∧ ∃ s0 cs, mkEv read_local (Ok s0) ∈ h ∧
      mget (ks_Data s0) "clientSecret" = "" ∧ drawn cs h ∧
      s = set_ks_Data s0 (Some (local_data cs (sa_project a)))
  | SecretCreate t s => t = Cache ∧ asked read_local h (λ x, is_err x = true) ∧ ∃ cs, drawn cs h ∧
      s = NewLocalSecret name (sa_projectNamespace a) cs (sa_project a)
  | _ => False
  end.

(** The CA bundle that the downstream cluster is to trust, if any: the one just
    read, and none if the secret is gone; the snapshot of the start only if the
    read failed otherwise, or nothing can be read. *)
Definition resolved (ca : option string) (h : History CmCall) : Prop :=
  match sa_apiReader a with
  | Some reader =>
      if bool_decide (sa_appNamespace a = "") then ca = sa_caCrt a
      else asked (SecretGet reader (sa_appNamespace a) "cacerts") h (λ x, match x with
        | Ok s => ca = mlookup (ks_Data s) "ca.crt"
        | Err e => ca = if IsNotFound e then None else sa_caCrt a
        end)
  | None => ca = sa_caCrt a
  end.

Definition ca_secret (ca : string) : KSecret := mkKSecret "cacerts" (sa_targetNamespace a) (Some {["ca.crt" := ca]}).

(** The data of a secret for the downstream cluster: the CA bundle, or the
    project's secret with the client secret that the local cluster holds. *)
Definition downstream_content (secretName : string) (data : gomap string) (h : History CmCall) : Prop :=
  (secretName = "cacerts" ∧ ∃ ca, resolved (Some ca) h ∧ data = ks_Data (ca_secret ca)) ∨
  (secretName = name ∧ ∃ cs, cs ≠ "" ∧ local_holds cs h ∧ data = ks_Data (desired_secret a cs)).

Lemma resolved_extends ca h h' : extends h h' → resolved ca h → resolved ca h'.
Proof.
  intros Hh. unfold resolved. destruct (sa_apiReader a); [|done]. case_bool_decide; [done|]. by apply asked_extends.
Qed.

Lemma downstream_content_extends n data h h' :
  extends h h' → downstream_content n data h → downstream_content n data h'.
Proof.
  intros Hh [(? & ca & ? & ?)|(? & cs & ? & ? & ?)].
  - left. split; [done|]. exists ca. split; [by eapply resolved_extends | done].
  - right. split; [done|]. exists cs. split_and!; [done | by eapply local_holds_extends | done].
Qed.

(** A write in the downstream cluster goes to the namespace of the load-balancer
    controller: a secret that was absent, or one that was read there. *)
Definition writes_downstream {R} (c : CmCall R) (h : History CmCall) : Prop :=
  match c with
  | NamespaceCreate t n =>
      sa_downstreamClient a = Some t ∧ n = mkKNamespace (sa_targetNamespace a) None None ∧
      asked (NamespaceGet t (sa_targetNamespace a)) h NotFoundErr
  | SecretCreate t s =>
      sa_downstreamClient a = Some t ∧ ks_Namespace s = sa_targetNamespace a ∧
      asked (SecretGet t (sa_targetNamespace a) (ks_Name s)) h NotFoundErr ∧ downstream_content (ks_Name s) (ks_Data s) h
  | SecretUpdate t s =>
      sa_downstreamClient a = Some t ∧ ∃ s0 secretName,
      mkEv (SecretGet t (sa_targetNamespace a) secretName) (Ok s0) ∈ h ∧ s = set_ks_Data s0 (ks_Data s) ∧
      downstream_content secretName (ks_Data s) h
  | _ => False
  end.

Definition reads {R} (c : CmCall R) : Prop :=
  match c with SecretGet _ _ _ | NamespaceGet _ _ | RandRead _ => True | _ => False end.

Definition secrets_guard (h : History CmCall) (R : Type) (c : CmCall R) : Prop :=
  reads c ∨ writes_local c h ∨ writes_downstream c h.

Notation G := secrets_guard.
Ltac rcall := apply wp_call_then; [by left|].

Lemma drawn_nonempty cs h : drawn cs h → cs ≠ "".
Proof.
  intros (x & _ & bytes & -> & ->) He. pose proof (length_EncodeToString (resize 16 0 bytes)) as Hl.
  rewrite He, length_resize in Hl. discriminate Hl.
Qed.

Lemma wp_generate h :
  wp G GenerateClientSecret (λ x h', match x with Ok cs => drawn cs h' | Err _ => True end) h.
Proof.
  unfold GenerateClientSecret. rcall. intros [bytes|e]; [|done]. apply wp_ret. apply asked_cons. eauto.
Qed.

Lemma wp_local h :
  wp G (local_client_secret (local_reader a) (sa_projectNamespace a) (sa_project a))
    (λ x h', match x with Ok cs => cs ≠ "" ∧ local_holds cs h' | Err _ => True end) h.
Proof.
  unfold local_client_secret. rcall. intros [s|e].
  - case_bool_decide as Hcs; cbn [negb].
    + eapply wp_seq; [apply wp_generate|]. intros [cs|e] h' Hd Hh; [|done].
      assert (mkEv read_local (Ok s) ∈ h') as Hr by (eapply elem_extends; [by left | done]).
      apply wp_call_then. { right. left. split; [done|]. by exists s, cs. }
      intros [[]|e]; [|done]. apply wp_ret. split; [by eapply drawn_nonempty|].
      eapply holds_regenerated; [by right | | by left]. eapply drawn_extends; [|done]. auto.
    + split; [done|]. eapply holds_existing; [by left | done].
  - eapply wp_seq; [apply wp_generate|]. intros [cs|e'] h' Hd Hh; [|done].
    apply wp_call_then.
    { right. left. split; [done|]. split; [|by exists cs]. exists (Err e). split; [|done]. eapply elem_extends; [by left | done]. }
    intros [[]|e']; [|done]. apply wp_ret. split; [by eapply drawn_nonempty|].
    eapply holds_created; [|by left]. eapply drawn_extends; [|done]. auto.
Qed.

Lemma wp_ensure t h :
  sa_downstreamClient a = Some t → wp G (ensure_namespace t (sa_targetNamespace a)) (λ _ _, True) h.
Proof.
  intros Ht. unfold ensure_namespace. rcall. intros [n|e]; [done|]. destruct (IsNotFound e) eqn:He; [|done].
  apply wp_call; [|done]. right. right. split; [done|]. split; [done|]. apply asked_cons. by exists e.
Qed.

Lemma wp_put t s h :
  sa_downstreamClient a = Some t → ks_Namespace s = sa_targetNamespace a → downstream_content (ks_Name s) (ks_Data s) h →
  wp G (put_secret t s) (λ x h', x = Ok tt → holds t s h') h.
Proof.
  intros Ht Hns Hc. unfold put_secret.
  assert (∀ ev, downstream_content (ks_Name s) (ks_Data s) (ev :: h)) as Hc'.
  { intros ev. eapply downstream_content_extends; [|done]. auto. }
  rcall. intros [s0|e].
  - unfold SemanticDeepEqual. case_bool_decide as Heq.
    + apply wp_ret. intros _. right. exists (Ok s0). split; [by left|]. exists s0. split; [done | by left].
    + apply wp_call.
      * right. right. split; [done|]. exists s0, (ks_Name s). rewrite <- Hns. split; [by left|]. by split.
      * intros x ->. right. exists (Ok s0). split; [right; by left|]. exists s0. split; [done|]. right. by apply asked_cons.
  - destruct (IsNotFound e) eqn:He; [|done]. apply wp_call.
    + right. right. split; [done|]. split; [done|]. split; [|done]. rewrite <- Hns. apply asked_cons. by exists e.
    + intros x ->. left. by apply asked_cons.
Qed.

Lemma wp_resolve_ca h : wp G (resolve_ca (sa_apiReader a) (sa_appNamespace a) (sa_caCrt a)) resolved h.
Proof.
  unfold resolve_ca, resolved. destruct (sa_apiReader a) as [reader|]; [|done]. case_bool_decide; [done|].
  rcall. intros [s|e]; apply wp_ret; by apply asked_cons.
Qed.

(** The bundle, if there is one, is in the cluster of [t]. *)
Definition ca_held (t : Target) (ca : option string) (h : History CmCall) : Prop :=
  match ca with Some ca => holds t (ca_secret ca) h | None => True end.

Lemma wp_cacerts t ca h :
  sa_downstreamClient a = Some t → resolved ca h →
  wp G (put_cacerts t (sa_targetNamespace a) ca) (λ x h', x = Ok tt → ca_held t ca h') h.
Proof.
  intros Ht Hr. unfold put_cacerts. destruct ca as [ca|]; [|done]. apply (wp_put t (ca_secret ca)); [done..|].
  left. split; [done|]. by exists ca.
Qed.

(** What is there when the handler is done. *)
Definition delivered (h : History CmCall) : Prop :=
  ∃ cs, cs ≠ "" ∧ local_holds cs h ∧
    match sa_downstreamClient a with
    | Some t => holds t (desired_secret a cs) h ∧ ∃ ca, resolved ca h ∧ ca_held t ca h
    | None => True
    end.

Lemma wp_HandleConfigSecrets h :
  wp G (HandleConfigSecrets a) (λ x h', x.2 = None ∧ (x = finished → delivered h')) h.
Proof.
  unfold HandleConfigSecrets. eapply wp_seq; [apply wp_local|]. intros [cs|e] h1; [|done]. intros [Hne Hl] Hh1.
  destruct (sa_downstreamClient a) as [t|] eqn:Ht; [|apply wp_ret; split; [done|]; intros _; exists cs; by rewrite Ht].
  eapply wp_seq; [by apply wp_ensure|]. intros [[]|e] h2 _ Hh2; [|done].
  eapply wp_seq; [apply wp_resolve_ca|]. intros ca h3 Hca Hh3.
  eapply wp_seq; [by apply wp_cacerts|]. intros [[]|e] h4 Hput Hh4; [|done].
  assert (local_holds cs h4) as Hl4.
  { eapply local_holds_extends; [|done]. by etrans; [|etrans]. }
  eapply wp_seq; [apply (wp_put t (desired_secret a cs)); [done..|]; right; split; [done | by exists cs]|].
  intros [[]|e] h5 Hp Hh5; [|done]. apply wp_ret. split; [done|]. intros _. exists cs. rewrite Ht.
  split; [done|]. split; [by eapply local_holds_extends|]. split; [by apply Hp|].
  exists ca. split; [eapply resolved_extends; [|done]; by etrans|].
  specialize (Hput eq_refl). destruct ca; [by eapply holds_extends | done].
Qed.

(** C12: the config secrets of a project.  In every run of [HandleConfigSecrets],
    the local secret is written only if none could be read or the one read had no
    client secret, and then with 16 fresh random bytes; a secret goes to the
    downstream cluster only in the namespace of the load-balancer controller, and
    it is [cacerts] with the CA bundle, or the project's secret with a client
    secret that is not empty and that the local cluster holds.  The CA bundle is
    the one that the run has read; the snapshot of the start stands in only for a
    read that failed with another error than "not found" (or when there is nothing
    to read with).  The handler never returns an error; if it is done, both
    clusters hold the same client secret, and the downstream one holds all of the
    project's configuration and the CA bundle, if there is one. *)
Theorem config_secrets_agree h x h' :
  execs (HandleConfigSecrets a) h x h' →
  obeys secrets_guard h h' ∧ x.2 = None ∧ (x = finished → delivered h').
Proof.
  intros Hx. pose proof (wp_execs _ _ _ _ _ _ Hx (wp_HandleConfigSecrets h)) as [[? ?] ?]. auto.
Qed.
End Secrets.
