(* ===== verification/CmProvisioning.v ===== *)
(** The controller of Rancher's clusters,
    [clustermanager/pkg/controllers/clusterprovisioning_controller.go]: it
    installs the charts in a downstream cluster and hands it its config secret;
    when the cluster is gone it releases the cluster's addresses. *)

From Stdlib Require Import Ascii.
From S2P Require Import Prelude GoStd ApiTypes Prog CmApi CmHandlers.

Definition fipEnabledLabel : string := "rancher-fip".
Definition fipLBTypeLabel : string := "rancher-fip-lbtype".
Definition clusterProviderLabel : string := "provider.cattle.io".
Definition fipClusterNameLabel : string := "rancher.k8s.binbash.org/cluster-name".
Definition fipGroupLabel : string := "rancher.k8s.binbash.org/floatingip-group".
Definition fipServiceLabelPrefix : string := "rancher.k8s.binbash.org/service-".
Definition projectIdAnnotation : string := "field.cattle.io/projectId".
Definition provisioningReconcileInterval : time := minutes 30.

(** ** What is worth a run *)

Definition provisioningTriggerChanged (oldObj newObj : option MgmtCluster) : bool :=
  match oldObj, newObj with
  | Some o, Some n =>
      negb (bool_decide (mget (mc_Labels o) fipEnabledLabel = mget (mc_Labels n) fipEnabledLabel))
      || negb (bool_decide (mget (mc_Labels o) fipLBTypeLabel = mget (mc_Labels n) fipLBTypeLabel))
  | _, _ => true
  end.

(** The events of an informer, and the predicate on them. *)
Inductive InformerEvent (A : Type) :=
| CreateEvent (obj : A)
| UpdateEvent (old new : option A)
| DeleteEvent (obj : A)
| GenericEvent (obj : A).
Arguments CreateEvent {A}.
Arguments UpdateEvent {A}.
Arguments DeleteEvent {A}.
Arguments GenericEvent {A}.

Definition clusterProvisioningPredicate (e : InformerEvent MgmtCluster) : bool :=
  match e with
  | CreateEvent _ | DeleteEvent _ => true
  | UpdateEvent o n => provisioningTriggerChanged o n
  | GenericEvent _ => false
  end.

(** Clusters that this program leaves alone. *)
Definition not_provisioned (cluster : MgmtCluster) : bool :=
  bool_decide (mc_Name cluster = "local")
  || bool_decide (mget (mc_Labels cluster) clusterProviderLabel = "harvester")
  || negb (bool_decide (mget (mc_Labels cluster) fipEnabledLabel = "enabled")).

Definition load_balancer_type (cluster : MgmtCluster) : string :=
  if bool_decide (mget (mc_Labels cluster) fipLBTypeLabel = "metallb") then "metallb" else "purelb".

(** The kubeconfig secret, under the cluster's name or its display name. *)
Definition kubeconfig_of (cluster : MgmtCluster) (secrets : list KSecret) : option KSecret :=
  find (λ s, bool_decide (ks_Name s = mc_Name cluster +:+ "-kubeconfig")
             || bool_decide (ks_Name s = mc_DisplayName cluster +:+ "-kubeconfig")) secrets.

(** ** Releasing a cluster's claims *)

Definition is_service_claim (key : string) : bool :=
  HasPrefix key fipServiceLabelPrefix && (HasSuffix key "-name" || HasSuffix key "-namespace").

Section Release.
Context `{MapRange}.
#[local] Open Scope prog_scope.

(** [delete] on a nil map does nothing; deleting while ranging is allowed. *)
Definition releaseClaimLabels (labels : gomap string) : gomap string :=
  match labels with
  | None => None
  | Some m =>
      let m := delete fipGroupLabel (delete fipClusterNameLabel m) in
      Some (foldl (λ m kv, if is_service_claim kv.1 then delete kv.1 m else m) m (range m))
  end.

Definition released_fip (fip : FloatingIP) : FloatingIP :=
  set_fip_meta fip (set_Labels (fip_meta fip) (releaseClaimLabels (Labels (fip_meta fip)))).

Definition labelled_by (clusterName : string) (fip : FloatingIP) : bool :=
  bool_decide (mget (Labels (fip_meta fip)) fipClusterNameLabel = clusterName).

Fixpoint release_all (clusterName : string) (items : list FloatingIP) : Prog CmCall (res unit) :=
  match items with
  | [] => Ret (Ok tt)
  | fip :: items =>
      if negb (labelled_by clusterName fip) then release_all clusterName items
      else
        try! _u := call (FipUpdate (released_fip fip)) else err => Ret (Err err) in
        release_all clusterName items
  end.

Definition releaseFloatingIPs (clusterName : string) : Prog CmCall (res unit) :=
  try! fipList := call FipList else err => Ret (Err err) in
  release_all clusterName fipList.
End Release.

(** ** Charts *)

Definition is_http (ref : string) : bool := HasPrefix ref "https://" || HasPrefix ref "http://".

Definition createChartSpec (name ref version namespace values : string) : ChartSpec :=
  if HasPrefix ref "oci://" then mkChartSpec ref name namespace version values ""
  else if HasPrefix ref "http://" || HasPrefix ref "https://" then
    mkChartSpec (name +:+ "/" +:+ name) name namespace version values ref
  else mkChartSpec name name namespace version values "".

(** A chart of the configuration. *)
Record Chart := mkChart {
  ch_name : string; ch_ref : string; ch_version : string; ch_namespace : string; ch_values : string
}.
Definition lb_controller_chart (c : Config) : Chart :=
  mkChart (RancherFipLBControllerChartName c) (RancherFipLBControllerChartRef c)
    (RancherFipLBControllerChartVersion c) (RancherFipLBControllerNamespace c) (RancherFipLBControllerValues c).
Definition metallb_chart (c : Config) : Chart :=
  mkChart (MetalLBControllerChartName c) (MetalLBControllerChartRef c)
    (MetalLBControllerChartVersion c) (MetalLBControllerNamespace c) (MetalLBControllerValues c).
Definition purelb_chart (c : Config) : Chart :=
  mkChart (PureLBControllerChartName c) (PureLBControllerChartRef c)
    (PureLBControllerChartVersion c) (PureLBControllerNamespace c) (PureLBControllerValues c).

Definition chart_spec (ch : Chart) : ChartSpec :=
  createChartSpec (ch_name ch) (ch_ref ch) (ch_version ch) (ch_namespace ch) (ch_values ch).

(** The network that a HarvesterConfig names. *)
Section Network.
Context `{HLibs : CmLibs}.

Definition harvesterNetworkName (c : HarvesterConfig) : res string :=
  if negb (bool_decide (networkInfo c = "")) then
    match UnmarshalNetworkInfo (networkInfo c) with
    | Err err => Err (wrapf ("unable to unmarshal networkInfo of HarvesterConfig " +:+ hc_Name c) err)
    | Ok [] => Err (errorf ("networkName not found in networkInfo of HarvesterConfig " +:+ hc_Name c))
    | Ok (name :: _) =>
        if bool_decide (name = "")
        then Err (errorf ("networkName not found in networkInfo of HarvesterConfig " +:+ hc_Name c))
        else Ok name
    end
  else Ok (networkName c).
End Network.

(** The HarvesterConfig of the first control plane pool that has one. *)
Definition is_harvester_pool (pool : MachinePool) : bool :=
  ControlPlaneRole pool &&
  match NodeConfig pool with Some ref => bool_decide (nr_Kind ref = "HarvesterConfig") | None => false end.
Definition harvester_config_name (c : ProvCluster) : string :=
  match RKEConfig c with
  | None => ""
  | Some pools =>
      match find is_harvester_pool pools with
      | Some (mkMachinePool _ (Some ref)) => nr_Name ref
      | _ => ""
      end
  end.

(** Of [cluster:project] only the project counts. *)
Definition project_id (annotation : string) : string :=
  match SplitByte annotation ":"%char with [_; p] => p | _ => annotation end.

Section Provisioning.
Context `{HLibs : CmLibs, MapRange} (r : CmReconciler).
#[local] Open Scope prog_scope.

(** A client of the downstream cluster that answers. *)
Definition connect (cluster : MgmtCluster) : Prog CmCall (Outcome + RESTConfig) :=
  try! secrets := call (SecretList Cache (Some "fleet-default")) else err => Ret (inl (fail err)) in
  match kubeconfig_of cluster secrets with
  | None => Ret (inl (requeue (minutes 2)))
  | Some s =>
      match mlookup (ks_Data s) "value" with
      | None => Ret (inl (requeue (minutes 1)))
      | Some kubeconfig =>
          match newDownstreamRESTConfig kubeconfig with
          | Err _ => Ret (inl (requeue (minutes 1)))
          | Ok config =>
              try! _c := call (NewDownstreamClient config) else _e => Ret (inl (requeue (minutes 1))) in
              try! _p := call (PodList (Remote config) "kube-system") else err =>
                Ret (inl (if Contains (err_msg err) "Forbidden" then requeue (minutes 2) else fail err)) in
              Ret (inr config)
          end
      end
  end.

(** The namespace of a chart, its repository, the chart. *)
Definition install_chart (config : RESTConfig) (ch : Chart) : Prog CmCall (Outcome + unit) :=
  let failed err := Ret (inl (fail_after (minutes 1) err)) in
  try! _n := EnsureNamespace (Remote config) (ch_namespace ch) else err => failed err in
  try! _r := (if is_http (ch_ref ch) then call (AddOrUpdateChartRepo (ch_name ch) (ch_ref ch))
              else Ret (Ok tt)) else err => failed err in
  try! _i := call (InstallOrUpgrade config (chart_spec ch)) else err => failed err in
  Ret (inr tt).

(** The other load balancer is not installed. *)
Definition not_installed (config : RESTConfig) (ch : Chart) : Prog CmCall (Outcome + unit) :=
  try! chartInstalled := call (CheckIfChartIsInstalled config (ch_name ch) (ch_namespace ch)) else err =>
    Ret (inl (fail_after (minutes 1) err)) in
  Ret (if chartInstalled : bool then inl (requeue provisioningReconcileInterval) else inr tt).

Definition install_charts (config : RESTConfig) (cluster : MgmtCluster) : Prog CmCall (Outcome + unit) :=
  let c := cm_Config r in
  and_then (install_chart config (lb_controller_chart c))
    (if bool_decide (load_balancer_type cluster = "metallb") then
       and_then (not_installed config (purelb_chart c)) (install_chart config (metallb_chart c))
     else and_then (not_installed config (metallb_chart c)) (install_chart config (purelb_chart c))).

(** The provisioning cluster of the management cluster. *)
Definition find_provisioning (cluster : MgmtCluster) : Prog CmCall (Outcome + ProvCluster) :=
  try! provisioningClusters := call ProvClusterList else err => Ret (inl (fail err)) in
  Ret (match find (λ p, bool_decide (pc_Name p = mc_Name cluster)
                        || bool_decide (pc_Name p = mc_DisplayName cluster)) provisioningClusters with
       | None => inl (fail_after (minutes 1)
           (errorf ("unable to find matching provisioningv1 cluster for " +:+ mc_Name cluster)))
       | Some p =>
           if bool_decide (CloudCredentialSecretName p = "") then inl (requeue provisioningReconcileInterval)
           else inr p
       end).

(** The namespace of the VMs, and the name of their network in Harvester. *)
Definition vm_network (p : ProvCluster) : Prog CmCall (Outcome + string * string) :=
  let name := harvester_config_name p in
  if bool_decide (name = "") then Ret (inl (requeue provisioningReconcileInterval))
  else
    try! harvesterConfig := call (HarvesterConfigGet "fleet-default" name) else err => Ret (inl (fail err)) in
    Ret (match harvesterNetworkName harvesterConfig with
         | Err err => inl (fail err)
         | Ok network =>
             if bool_decide (network = "") then inl (requeue provisioningReconcileInterval)
             else match SplitByte network "/"%char with
                  | [_; name] => inr (vmNamespace harvesterConfig, name)
                  | _ => inl (fail (errorf ("invalid networkName format: " +:+ network)))
                  end
         end).

(** The Harvester cluster whose credentials the guest cluster uses, with its
    identifier. *)
Definition harvester_cluster (p : ProvCluster) : Prog CmCall (Outcome + string * MgmtCluster) :=
  match SplitByte (CloudCredentialSecretName p) ":"%char with
  | ns :: name :: _ =>
      try! cred := call (SecretGet Cache ns name) else err => Ret (inl (fail err)) in
      match mlookup (ks_Data cred) "harvestercredentialConfig-clusterId" with
      | None => Ret (inl (fail (errorf
          ("harvestercredentialConfig-clusterId not found in secret " +:+ ns +:+ "/" +:+ name))))
      | Some clusterId =>
          try! hc := call (ClusterGet clusterId) else err => Ret (inl (fail err)) in
          Ret (inr (clusterId, hc))
      end
  | _ => Ret (inl (fail (errorf
      "error cloudCredentialSecretName format is not correct, expected format <namespace>:<secret>")))
  end.

(** The project that the namespace of the VMs belongs to, in Harvester. *)
Definition vm_project (clusterId vmNamespace : string) : Prog CmCall (Outcome + string) :=
  try! s := call (SecretGet Cache "fleet-default" (clusterId +:+ "-kubeconfig")) else err => Ret (inl (fail err)) in
  match newDownstreamRESTConfig (mget (ks_Data s) "value") with
  | Err err => Ret (inl (fail err))
  | Ok config =>
      try! _c := call (NewDownstreamClient config) else err => Ret (inl (fail err)) in
      try! namespace := call (NamespaceGet (Remote config) vmNamespace) else err => Ret (inl (fail err)) in
      Ret (match mlookup (kn_Annotations namespace) projectIdAnnotation with
           | None => inl (requeue provisioningReconcileInterval)
           | Some annotation => inr (project_id annotation)
           end)
  end.

Definition find_mgmt_project (projectID : string) : Prog CmCall (Outcome + MgmtProject) :=
  try! projects := call ProjectList else err => Ret (inl (fail err)) in
  Ret (match find (λ p, bool_decide (mp_Name p = projectID)) projects with
       | None => inl (requeue provisioningReconcileInterval)
       | Some p => inr p
       end).

(** Only a project with a FloatingIPProjectQuota gets a config secret. *)
Definition require_quota (projectID : string) : Prog CmCall (Outcome + unit) :=
  try! _q := call (QuotaGet projectID) else err =>
    Ret (inl (if IsNotFound err then requeue (minutes 15) else fail err)) in
  Ret (inr tt).

Definition secret_args (cluster : MgmtCluster) (downstream : option Target) (project : MgmtProject)
    (targetNetwork : string) : SecretArgs :=
  let c := cm_Config r in
  mkSecretArgs (APIReader r) downstream (RancherFipLBControllerNamespace c) (mp_Name project)
    (mp_Namespace project) targetNetwork (RancherFipApiServerURL c) (mc_Name cluster)
    (load_balancer_type cluster) (CaCrt c) (AppNamespace r).

(** The last part: everything is known, the downstream cluster is told. *)
Definition enable_project (cluster : MgmtCluster) (config : RESTConfig) (projectID : string)
    (project : MgmtProject) (harvesterName targetNetwork : string) : Prog CmCall Outcome :=
  let ns := RancherFipLBControllerNamespace (cm_Config r) in
  try! _l := LabelNamespaceWithProjectID (Remote config) ns projectID else err =>
    Ret (fail_after (minutes 1) err) in
  try! _m := HandleNetworkConfigMap (Remote config) harvesterName ns else err =>
    Ret (fail_after (minutes 1) err) in
  let! outcome := HandleConfigSecrets (secret_args cluster (Some (Remote config)) project targetNetwork) in
  Ret (match outcome with
       | (result, Some err) => (result, Some err)
       | (_, None) => requeue provisioningReconcileInterval
       end).

(** A cluster that is to be provisioned. *)
Definition provision (cluster : MgmtCluster) : Prog CmCall Outcome :=
  step! config := connect cluster in
  step! _i := install_charts config cluster in
  step! p := find_provisioning cluster in
  step! 'net := vm_network p in
  let '(vmNamespace, harvesterNetworkname) := net : string * string in
  step! 'hc := harvester_cluster p in
  let '(clusterId, harvesterCluster) := hc : string * MgmtCluster in
  let targetNetwork := mc_DisplayName harvesterCluster +:+ "--" +:+ harvesterNetworkname in
  step! projectID := vm_project clusterId vmNamespace in
  step! project := find_mgmt_project projectID in
  step! _q := require_quota projectID in
  enable_project cluster config projectID project (mc_DisplayName harvesterCluster) targetNetwork.

(** [ClusterProvisioningReconciler.Reconcile] *)
Definition provisioning_Reconcile (name : string) : Prog CmCall Outcome :=
  let! g := call (ClusterGet name) in
  match g with
  | Err err =>
      if IsNotFound err then
        try! _r := releaseFloatingIPs name else err => Ret (fail err) in
        Ret finished
      else Ret (fail err)
  | Ok cluster => if not_provisioned cluster then Ret finished else provision cluster
  end.
End Provisioning.
