(* ===== verification/CmProvisioningCorrect.v ===== *)
(** What a run of the controller of clusters may do, and what it has done when a
    cluster is gone: the labels that hold its claims are removed, which the other
    parts of the program read as a release. *)

From Stdlib Require Import Ascii.
From S2P Require Import Prelude Prog GoStd ApiTypes ServiceLabels CmApi CmHandlers CmSecretsCorrect CmProvisioning.

Section Labels.
Context `{MapRange}.

Lemma foldl_delete_where (P : string → bool) (l : list (string * string)) : ∀ m k,
  foldl (λ m kv, if P kv.1 then delete kv.1 m else m) m l !! k =
  if P k && bool_decide (k ∈ l.*1) then None else (m : gmap string string) !! k.
Proof.
  induction l as [|[k' v] l IH]; intros m k; cbn [foldl fmap list_fmap].
  { rewrite bool_decide_eq_false_2 by apply not_elem_of_nil. by rewrite andb_false_r. }
  rewrite IH. simpl. destruct (decide (k = k')) as [->|Hne].
  - rewrite (bool_decide_eq_true_2 (k' ∈ k' :: _)) by left. rewrite andb_true_r.
    destruct (P k') eqn:Hp; simpl; [|done]. rewrite lookup_delete_eq. by destruct (bool_decide _).
  - assert (bool_decide (k ∈ k' :: l.*1) = bool_decide (k ∈ l.*1)) as ->.
    { apply bool_decide_ext. rewrite elem_of_cons. naive_solver. }
    destruct (P k'); [by rewrite lookup_delete_ne by done | done].
Qed.

(** The keys that are removed are the claims, and no others. *)
Definition is_claim (key : string) : bool :=
  bool_decide (key = fipClusterNameLabel) || bool_decide (key = fipGroupLabel) || is_service_claim key.

Lemma release_lookup labels k :
  mlookup (releaseClaimLabels labels) k = if is_claim k then None else mlookup labels k.
Proof.
  unfold releaseClaimLabels, is_claim. destruct labels as [m|]; cbn [mlookup]; [|by destruct (_ || _)].
  rewrite foldl_delete_where. set (m1 := delete _ (delete _ m)).
  destruct (m1 !! k) as [v|] eqn:Hk.
  - rewrite bool_decide_eq_true_2 by (apply list_elem_of_fmap; exists (k, v); by rewrite elem_of_range).
    rewrite andb_true_r. unfold m1 in Hk.
    apply lookup_delete_Some in Hk as [Hg Hk]. apply lookup_delete_Some in Hk as [Hc Hk].
    rewrite !bool_decide_eq_false_2 by done. simpl. by rewrite Hk.
  - rewrite bool_decide_eq_false_2, andb_false_r.
    2: { intros ([k' v] & -> & Hv)%list_elem_of_fmap. apply elem_of_range in Hv. simpl in *. congruence. }
    apply lookup_delete_None in Hk as [<- | Hk]; [by rewrite (bool_decide_eq_true_2 (fipGroupLabel = fipGroupLabel)), orb_true_r by done|].
    apply lookup_delete_None in Hk as [<- | Hk]; [by rewrite (bool_decide_eq_true_2 (fipClusterNameLabel = fipClusterNameLabel)) by done|]. rewrite Hk. by destruct (_ || _).
Qed.

(** What is left has no services. *)
Lemma released_no_services labels :
  (∀ m, labels = Some m → canonical_labels m) → parseServicesFromLabels (releaseClaimLabels labels) = [].
Proof.
  intros Hcan. destruct (releaseClaimLabels labels) as [m'|] eqn:Hr; [|done].
  assert (∀ k, m' !! k = if is_claim k then None else mlookup labels k) as Hl.
  { intros k. rewrite <- release_lookup, Hr. done. }
  destruct labels as [m|]; [|done]. specialize (Hcan m eq_refl).
  assert (foldl add_service_label ∅ (range m') = ∅) as He; [|by unfold parseServicesFromLabels; rewrite He].
  assert (∀ l sm, (∀ k v, (k, v) ∈ l → HasPrefix k serviceIndexLabelPrefix = false) → foldl add_service_label sm l = sm) as Hfold.
  { induction l as [|[k v] l IH]; intros sm Hp; [done|]. cbn [foldl]. unfold add_service_label at 2.
    rewrite (Hp k v) by left. cbn [negb]. apply IH. intros k' v' ?. apply (Hp k' v'). by right. }
  apply Hfold. intros k v Hk%elem_of_range. rewrite Hl in Hk. destruct (is_claim k) eqn:Hc; [done|].
  apply not_true_iff_false. intros Hp. destruct (Hcan k) as (i & Hi & Hki); [by eexists | done|].
  apply orb_false_iff in Hc as [_ Hc]. unfold is_service_claim in Hc.
  change fipServiceLabelPrefix with serviceIndexLabelPrefix in Hc. rewrite Hp in Hc. cbn [andb] in Hc.
  apply orb_false_iff in Hc as [Hn Hns]. destruct Hki as [-> | ->].
  - unfold ns_key in Hns. by rewrite str_app_assoc, HasSuffix_app in Hns.
  - unfold name_key in Hn. by rewrite str_app_assoc, HasSuffix_app in Hn.
Qed.
End Labels.

(** * The controller *)

Section Provisioning.
Context `{HLibs : CmLibs, HRange : MapRange} (r : CmReconciler) (name : string).

Notation conf := (cm_Config r).
Notation lb_ns := (RancherFipLBControllerNamespace conf).

(** ** What the history shows *)

(** The cluster exists and is to be provisioned. *)
Definition enabled (cluster : MgmtCluster) (h : History CmCall) : Prop :=
  mkEv (ClusterGet name) (Ok cluster) ∈ h ∧ not_provisioned cluster = false.

(** The client is that of the cluster's kubeconfig, and the cluster answered. *)
Definition connected (cluster : MgmtCluster) (config : RESTConfig) (h : History CmCall) : Prop :=
  (∃ secrets s kubeconfig, mkEv (SecretList Cache (Some "fleet-default")) (Ok secrets) ∈ h ∧
    kubeconfig_of cluster secrets = Some s ∧ mlookup (ks_Data s) "value" = Some kubeconfig ∧
    newDownstreamRESTConfig kubeconfig = Ok config) ∧
  mkEv (PodList (Remote config) "kube-system") (Ok tt) ∈ h.

(** The load balancer that the cluster's label selects, and the other one. *)
Definition chosen (cluster : MgmtCluster) : Chart :=
  if bool_decide (load_balancer_type cluster = "metallb") then metallb_chart conf else purelb_chart conf.
Definition other (cluster : MgmtCluster) : Chart :=
  if bool_decide (load_balancer_type cluster = "metallb") then purelb_chart conf else metallb_chart conf.

Definition installed (config : RESTConfig) (ch : Chart) (h : History CmCall) : Prop :=
  mkEv (InstallOrUpgrade config (chart_spec ch)) (Ok tt) ∈ h.
Definition absent (config : RESTConfig) (ch : Chart) (h : History CmCall) : Prop :=
  mkEv (CheckIfChartIsInstalled config (ch_name ch) (ch_namespace ch)) (Ok false) ∈ h.

(** The chart may be installed now. *)
Definition due (cluster : MgmtCluster) (config : RESTConfig) (ch : Chart) (h : History CmCall) : Prop :=
  ch = lb_controller_chart conf ∨
  ch = chosen cluster ∧ installed config (lb_controller_chart conf) h ∧ absent config (other cluster) h.

(** The project of the cluster, as this run has found it: the cluster's machines
    are in a namespace [vmNamespace] of a Harvester cluster [harvester], and the
    namespace belongs to the project there; [network] is the network of the
    machines. *)
Inductive belongs (cluster : MgmtCluster) (project : MgmtProject) (harvester : MgmtCluster) (network : string)
    (h : History CmCall) : Prop :=
| belongs_chain clusters p config nw nwns secretNs secretName rest cred clusterId kubeconfig rest_config namespace annotation :
    mkEv ProvClusterList (Ok clusters) ∈ h → p ∈ clusters →
    (pc_Name p = mc_Name cluster ∨ pc_Name p = mc_DisplayName cluster) →
    mkEv (HarvesterConfigGet "fleet-default" (harvester_config_name p)) (Ok config) ∈ h →
    harvesterNetworkName config = Ok nw → SplitByte nw "/"%char = [nwns; network] →
    SplitByte (CloudCredentialSecretName p) ":"%char = secretNs :: secretName :: rest →
    mkEv (SecretGet Cache secretNs secretName) (Ok cred) ∈ h →
    mlookup (ks_Data cred) "harvestercredentialConfig-clusterId" = Some clusterId →
    mkEv (ClusterGet clusterId) (Ok harvester) ∈ h →
    mkEv (SecretGet Cache "fleet-default" (clusterId +:+ "-kubeconfig")) (Ok kubeconfig) ∈ h →
    newDownstreamRESTConfig (mget (ks_Data kubeconfig) "value") = Ok rest_config →
    mkEv (NamespaceGet (Remote rest_config) (vmNamespace config)) (Ok namespace) ∈ h →
    mlookup (kn_Annotations namespace) projectIdAnnotation = Some annotation →
    mp_Name project = project_id annotation →
    belongs cluster project harvester network h.

(** The project is listed, and it has a quota. *)
Definition entitled (project : MgmtProject) (h : History CmCall) : Prop :=
  (∃ projects, mkEv ProjectList (Ok projects) ∈ h ∧ project ∈ projects) ∧
  asked (QuotaGet (mp_Name project)) h (λ a, is_ok a = true).

(** What a run has found out about the cluster. *)
Record Finding := mkFinding {
  fd_cluster : MgmtCluster; fd_config : RESTConfig; fd_project : MgmtProject;
  fd_harvester : MgmtCluster; fd_network : string
}.

(** The cluster has its charts and its project is entitled to addresses. *)
Definition ready (f : Finding) (h : History CmCall) : Prop :=
  let cluster := fd_cluster f in let config := fd_config f in
  enabled cluster h ∧ connected cluster config h ∧
  installed config (lb_controller_chart conf) h ∧ absent config (other cluster) h ∧
  installed config (chosen cluster) h ∧
  belongs cluster (fd_project f) (fd_harvester f) (fd_network f) h ∧ entitled (fd_project f) h.

(** ** What may be done *)

(** Charts, and the namespaces for them. *)
Definition chart_guard (h : History CmCall) (R : Type) (c : CmCall R) : Prop :=
  match c with
  | InstallOrUpgrade config spec => ∃ cluster ch,
      enabled cluster h ∧ connected cluster config h ∧ due cluster config ch h ∧ spec = chart_spec ch
  | AddOrUpdateChartRepo n url => ∃ cluster config ch,
      enabled cluster h ∧ connected cluster config h ∧ due cluster config ch h ∧
      n = ch_name ch ∧ url = ch_ref ch ∧ is_http (ch_ref ch) = true
  | NamespaceCreate t n => ∃ cluster config,
      enabled cluster h ∧ connected cluster config h ∧ t = Remote config ∧
      asked (NamespaceGet t (kn_Name n)) h NotFoundErr
  | _ => True
  end.

(** What is written in the downstream cluster about the project [fd_project f]:
    the label of the namespace of the load-balancer controller, the restart of the
    controller after that, the map of the interfaces of the Harvester cluster, and
    the config secrets. *)
Definition secrets_of (f : Finding) : SecretArgs :=
  secret_args r (fd_cluster f) (Some (Remote (fd_config f))) (fd_project f)
    (mc_DisplayName (fd_harvester f) +:+ "--" +:+ fd_network f).

Definition interfaces (f : Finding) (data : gomap string) (h : History CmCall) : Prop :=
  ∃ pools, mkEv PoolList (Ok pools) ∈ h ∧ data = Some (interface_mappings (mc_DisplayName (fd_harvester f)) pools).

Definition tells (f : Finding) (h : History CmCall) (R : Type) (c : CmCall R) : Prop :=
  match c with
  | SecretCreate _ _ | SecretUpdate _ _ => secrets_guard (secrets_of f) h R c
  | NamespaceUpdate t n => t = Remote (fd_config f) ∧ ∃ n0, mkEv (NamespaceGet t lb_ns) (Ok n0) ∈ h ∧
      n = set_kn_Labels n0 (mset (kn_Labels n0) projectNameKey (mp_Name (fd_project f)))
  | DeploymentUpdate t d => t = Remote (fd_config f) ∧ ∃ d0 now,
      mkEv (DeploymentGet t lb_ns "rancher-fip-lb-controller") (Ok d0) ∈ h ∧
      d = set_dp_Annotations d0 (mset (dp_TemplateAnnotations d0) restartedAtAnnotation (FormatRFC3339 now))
  | ConfigMapCreate t m => t = Remote (fd_config f) ∧ ∃ data, interfaces f data h ∧ m = mkConfigMap configMapName lb_ns data
  | ConfigMapUpdate t m => t = Remote (fd_config f) ∧ ∃ m0 data, interfaces f data h ∧
      mkEv (ConfigMapGet t lb_ns configMapName) (Ok m0) ∈ h ∧ m = set_km_Data m0 data
  | _ => False
  end.

(** The configuration of a project, and the claims of a cluster that is gone. *)
Definition project_guard (h : History CmCall) (R : Type) (c : CmCall R) : Prop :=
  match c with
  | SecretCreate _ _ | SecretUpdate _ _ | NamespaceUpdate _ _ | DeploymentUpdate _ _
  | ConfigMapCreate _ _ | ConfigMapUpdate _ _ => ∃ f, ready f h ∧ tells f h R c
  | FipUpdate f =>
      asked (ClusterGet name) h NotFoundErr ∧ ∃ fips fip,
      mkEv FipList (Ok fips) ∈ h ∧ fip ∈ fips ∧ labelled_by name fip = true ∧ f = released_fip fip
  | SecretDelete _ _ _ | QuotaPatch _ _ => False
  | _ => True
  end.

Definition provisioning_guard (h : History CmCall) (R : Type) (c : CmCall R) : Prop :=
  chart_guard h R c ∧ project_guard h R c.

Notation G := provisioning_guard.
Notation any := (λ _ _, True).

(** A call that only reads is allowed. *)
Ltac rcall := apply wp_call_then; [done|].

(** *** Evidence stays *)

Lemma enabled_extends cluster h h' : extends h h' → enabled cluster h → enabled cluster h'.
Proof. intros Hh [? ?]. split; [by eapply elem_extends | done]. Qed.
Lemma connected_extends cluster config h h' : extends h h' → connected cluster config h → connected cluster config h'.
Proof.
  intros Hh [(secrets & s & kc & ? & ?) ?]. split; [|by eapply elem_extends].
  exists secrets, s, kc. split; [by eapply elem_extends | done].
Qed.
Lemma installed_extends config ch h h' : extends h h' → installed config ch h → installed config ch h'.
Proof. intros ? ?. by eapply elem_extends. Qed.
Lemma absent_extends config ch h h' : extends h h' → absent config ch h → absent config ch h'.
Proof. intros ? ?. by eapply elem_extends. Qed.
Lemma due_extends cluster config ch h h' : extends h h' → due cluster config ch h → due cluster config ch h'.
Proof.
  intros ? [? | (? & ? & ?)]; [by left | right]. split_and!; [done | by eapply installed_extends | by eapply absent_extends].
Qed.
Lemma belongs_extends cluster project harvester network h h' :
  extends h h' → belongs cluster project harvester network h → belongs cluster project harvester network h'.
Proof. intros Hh []. econstructor; eauto using elem_extends. Qed.
Lemma entitled_extends project h h' : extends h h' → entitled project h → entitled project h'.
Proof.
  intros Hh ((ps & ? & ?) & ?). split.
  - exists ps. split; [by eapply elem_extends | done].
  - by eapply asked_extends.
Qed.
Lemma ready_extends f h h' : extends h h' → ready f h → ready f h'.
Proof.
  intros ? (? & ? & ? & ? & ? & ? & ?). unfold ready.
  split_and!; [by eapply enabled_extends | by eapply connected_extends | by eapply installed_extends
    | by eapply absent_extends | by eapply installed_extends | by eapply belongs_extends | by eapply entitled_extends].
Qed.

(** ** Releasing *)

Definition updated (fip : FloatingIP) (h : History CmCall) : Prop :=
  mkEv (FipUpdate (released_fip fip)) (Ok tt) ∈ h.

Lemma wp_release_all fips : ∀ items h, items ⊆ fips →
  mkEv FipList (Ok fips) ∈ h → asked (ClusterGet name) h NotFoundErr →
  wp G (release_all name items) (λ x h', x = Ok tt →
    ∀ fip, fip ∈ items → labelled_by name fip = true → updated fip h') h.
Proof.
  induction items as [|fip items IH]; intros h Hsub Hl Hc; cbn [release_all].
  { intros _ fip Hf. by apply elem_of_nil in Hf. }
  destruct (labelled_by name fip) eqn:Hcl; cbn [negb].
  - apply wp_call_then. { split; [done|]. split; [done|]. exists fips, fip. split_and!; [done | set_solver | done..]. }
    intros [[]|e]; [|done]. eapply wp_post; [apply IH; [set_solver | by right | by eapply asked_extends; [|done]; auto]|].
    intros x h' Hx Hh Hok fip' [-> | Hf]%elem_of_cons Hcl'; [|by apply Hx]. eapply elem_extends; [by left | done].
  - eapply wp_post; [apply IH; [set_solver | done..]|]. intros x h' Hx _ Hok fip' [-> | Hf]%elem_of_cons Hcl'; [congruence|].
    by apply Hx.
Qed.

Lemma wp_releaseFloatingIPs h :
  asked (ClusterGet name) h NotFoundErr →
  wp G (releaseFloatingIPs name) (λ x h', x = Ok tt → ∃ fips, mkEv FipList (Ok fips) ∈ h' ∧
    ∀ fip, fip ∈ fips → labelled_by name fip = true → updated fip h') h.
Proof.
  intros Hc. unfold releaseFloatingIPs. rcall. intros [fips|e]; [|done].
  eapply wp_post; [apply (wp_release_all fips); [done | by left | by eapply asked_extends; [|done]; auto]|].
  intros x h' Hx Hh Hok. exists fips. split; [eapply elem_extends; [by left | done] | by apply Hx].
Qed.

(** ** Installing *)

Section Cluster.
Context (cluster : MgmtCluster).

Lemma wp_connect h :
  enabled cluster h →
  wp G (connect cluster) (λ x h', match x with inr config => connected cluster config h' | inl _ => True end) h.
Proof.
  intros He. unfold connect. rcall. intros [secrets|e]; [|done].
  destruct (kubeconfig_of cluster secrets) as [s|] eqn:Hs; [|done].
  destruct (mlookup _ _) as [kc|] eqn:Hk; [|done]. destruct (newDownstreamRESTConfig kc) as [config|e] eqn:Hc; [|done].
  rcall. intros [[]|e]; [|done]. rcall. intros [[]|e]; [|done]. apply wp_ret. split; [|by left].
  exists secrets, s, kc. split; [|done]. right. right. by left.
Qed.

Context (config : RESTConfig).

Lemma wp_EnsureNamespace ns h :
  enabled cluster h → connected cluster config h → wp G (EnsureNamespace (Remote config) ns) any h.
Proof.
  intros He Hc. unfold EnsureNamespace, ensure_namespace. case_bool_decide; [done|]. rcall. intros [n|e]; [done|].
  destruct (IsNotFound e) eqn:Hn; [|done]. apply wp_call; [|done]. split; [|done]. exists cluster, config.
  split_and!; [by eapply enabled_extends; [|done]; auto | by eapply connected_extends; [|done]; auto | done|].
  apply asked_cons. by exists e.
Qed.

Lemma wp_install_chart ch h :
  enabled cluster h → connected cluster config h → due cluster config ch h →
  wp G (install_chart config ch) (λ x h', match x with inr _ => installed config ch h' | inl _ => True end) h.
Proof.
  intros He Hc Hd. unfold install_chart. eapply wp_seq; [by apply wp_EnsureNamespace|]. intros [[]|e] h1 _ Hh1; [|done].
  apply (wp_seq _ _ _ any).
  { destruct (is_http (ch_ref ch)) eqn:Hr; [|done]. apply wp_call; [|done]. split; [|done]. exists cluster, config, ch.
    split_and!; [by eapply enabled_extends | by eapply connected_extends | by eapply due_extends | done..]. }
  intros [[]|e] h2 _ Hh2; [|done]. assert (extends h h2) as Hh by by etrans.
  apply wp_call_then.
  { split; [|done]. exists cluster, ch.
    split_and!; [by eapply enabled_extends | by eapply connected_extends | by eapply due_extends | done]. }
  intros [[]|e]; [|done]. by left.
Qed.

Lemma wp_not_installed ch h :
  wp G (not_installed config ch) (λ x h', match x with inr _ => absent config ch h' | inl _ => True end) h.
Proof. unfold not_installed. rcall. intros [[]|e]; [done| |done]. by left. Qed.

Lemma wp_and_then {A B} (m : Prog CmCall (Outcome + A)) (k : Prog CmCall (Outcome + B)) P Q h :
  wp G m (λ x h', match x with inr _ => P h' | inl _ => True end) h →
  (∀ stop h', Q (inl stop) h') → (∀ h', P h' → extends h h' → wp G k Q h') → wp G (and_then m k) Q h.
Proof. intros Hm Hs Hk. eapply wp_seq; [done|]. intros [stop|x] h' Hp Hh; [by apply Hs | by apply Hk]. Qed.

Lemma wp_balancer ch rival h :
  enabled cluster h → connected cluster config h → installed config (lb_controller_chart conf) h →
  ch = chosen cluster → rival = other cluster →
  wp G (and_then (not_installed config rival) (install_chart config ch)) (λ x h', match x with
    | inr _ => absent config rival h' ∧ installed config ch h' | inl _ => True end) h.
Proof.
  intros He Hc Hi -> ->. eapply wp_and_then; [apply wp_not_installed | done|]. intros h1 Ha Hh1.
  eapply wp_post; [apply wp_install_chart; [by eapply enabled_extends | by eapply connected_extends|]|].
  - right. split_and!; [done | by eapply installed_extends | done].
  - intros [|] h2 Hx Hh2; [done|]. split; [by eapply absent_extends | done].
Qed.

Lemma wp_install_charts h :
  enabled cluster h → connected cluster config h →
  wp G (install_charts r config cluster) (λ x h', match x with
    | inr _ => installed config (lb_controller_chart conf) h' ∧ absent config (other cluster) h' ∧
        installed config (chosen cluster) h'
    | inl _ => True end) h.
Proof.
  intros He Hc. unfold install_charts.
  eapply wp_and_then; [apply wp_install_chart; [done..|by left] | done|]. intros h1 Hi Hh1.
  assert (enabled cluster h1) by (by eapply enabled_extends). assert (connected cluster config h1) by (by eapply connected_extends).
  unfold other, chosen. case_bool_decide as Hlb.
  all: eapply wp_post; [apply wp_balancer; [done..| |]; unfold chosen, other; rewrite ?(bool_decide_eq_true_2 _ Hlb), ?(bool_decide_eq_false_2 _ Hlb); done|].
  all: intros [|] h2 Hx Hh2; [done|]; destruct Hx; split_and!; [by eapply installed_extends | done | done].
Qed.
End Cluster.

(** ** Finding the project *)

Ltac reads_only :=
  repeat (rcall; intros ?; simpl; repeat case_match; try done).

Lemma wp_find_provisioning cluster h :
  wp G (find_provisioning cluster) (λ x h', match x with
    | inr p => ∃ clusters, mkEv ProvClusterList (Ok clusters) ∈ h' ∧ p ∈ clusters ∧
        (pc_Name p = mc_Name cluster ∨ pc_Name p = mc_DisplayName cluster)
    | inl _ => True end) h.
Proof.
  unfold find_provisioning. rcall. intros [clusters|e]; [|done]. destruct (find _ clusters) as [p|] eqn:Hf; [|done].
  apply find_some in Hf as [Hin Hn]. apply orb_true_iff in Hn. apply wp_ret.
  destruct (bool_decide (CloudCredentialSecretName p = "")); [done|]. exists clusters.
  split; [by left|]. split; [by apply list_elem_of_In|]. destruct Hn; bool_hyps; auto.
Qed.

Lemma wp_vm_network p h :
  wp G (vm_network p) (λ x h', match x with
    | inr (vmns, network) => ∃ config nw nwns,
        mkEv (HarvesterConfigGet "fleet-default" (harvester_config_name p)) (Ok config) ∈ h' ∧
        harvesterNetworkName config = Ok nw ∧ SplitByte nw "/"%char = [nwns; network] ∧ vmns = vmNamespace config
    | inl _ => True end) h.
Proof.
  unfold vm_network. case_bool_decide; [done|]. rcall. intros [config|e]; [|done]. apply wp_ret.
  destruct (harvesterNetworkName config) as [nw|] eqn:Hnw; [|done]. case_bool_decide; [done|].
  destruct (SplitByte nw _) as [|nwns [|n [|]]] eqn:Hs; try done. exists config, nw, nwns. split; [by left | done].
Qed.

Lemma wp_harvester_cluster p h :
  wp G (harvester_cluster p) (λ x h', match x with
    | inr (clusterId, harvester) => ∃ secretNs secretName rest cred,
        SplitByte (CloudCredentialSecretName p) ":"%char = secretNs :: secretName :: rest ∧
        mkEv (SecretGet Cache secretNs secretName) (Ok cred) ∈ h' ∧
        mlookup (ks_Data cred) "harvestercredentialConfig-clusterId" = Some clusterId ∧
        mkEv (ClusterGet clusterId) (Ok harvester) ∈ h'
    | inl _ => True end) h.
Proof.
  unfold harvester_cluster. destruct (SplitByte _ _) as [|ns [|n rest]] eqn:Hs; try done.
  rcall. intros [cred|e]; [|done]. destruct (mlookup _ _) as [id|] eqn:Hid; [|done]. rcall. intros [hc|e]; [|done].
  apply wp_ret. exists ns, n, rest, cred. split; [done|]. split; [right; by left|]. split; [done | by left].
Qed.

Lemma wp_vm_project clusterId ns h :
  wp G (vm_project clusterId ns) (λ x h', match x with
    | inr projectID => ∃ kubeconfig config n annotation,
        mkEv (SecretGet Cache "fleet-default" (clusterId +:+ "-kubeconfig")) (Ok kubeconfig) ∈ h' ∧
        newDownstreamRESTConfig (mget (ks_Data kubeconfig) "value") = Ok config ∧
        mkEv (NamespaceGet (Remote config) ns) (Ok n) ∈ h' ∧
        mlookup (kn_Annotations n) projectIdAnnotation = Some annotation ∧ projectID = project_id annotation
    | inl _ => True end) h.
Proof.
  unfold vm_project. rcall. intros [s|e]; [|done]. destruct (newDownstreamRESTConfig _) as [config|e] eqn:Hc; [|done].
  rcall. intros [[]|e]; [|done]. rcall. intros [n|e]; [|done]. destruct (mlookup _ _) as [annotation|] eqn:Ha; [|done].
  apply wp_ret. exists s, config, n, annotation. split; [do 2 right; by left|]. split; [done|]. split; [by left | done].
Qed.

Lemma wp_find_mgmt_project projectID h :
  wp G (find_mgmt_project projectID) (λ x h', match x with
    | inr p => mp_Name p = projectID ∧ ∃ projects, mkEv ProjectList (Ok projects) ∈ h' ∧ p ∈ projects
    | inl _ => True end) h.
Proof.
  unfold find_mgmt_project. rcall. intros [projects|e]; [|done]. destruct (find _ projects) as [p|] eqn:Hf; [|done].
  apply find_some in Hf as [Hin Hn]. bool_hyps. apply wp_ret. split; [done|]. exists projects.
  split; [by left | by apply list_elem_of_In].
Qed.

Lemma wp_require_quota projectID h :
  wp G (require_quota projectID) (λ x h', match x with
    | inr _ => asked (QuotaGet projectID) h' (λ a, is_ok a = true) | inl _ => True end) h.
Proof. unfold require_quota. rcall. intros [q|e]; [|done]. apply wp_ret. by apply asked_cons. Qed.

(** ** Telling the downstream cluster *)

Section Ready.
Context (f : Finding).
Notation cluster := (fd_cluster f).
Notation config := (fd_config f).
Notation project := (fd_project f).
Notation Rdy := (ready f).

Lemma ready_cons ev h : Rdy h → Rdy (ev :: h).
Proof. apply ready_extends. auto. Qed.
#[local] Hint Resolve ready_cons : core.

Lemma wp_LabelNamespace h :
  Rdy h → wp G (LabelNamespaceWithProjectID (Remote config) lb_ns (mp_Name project)) any h.
Proof.
  intros Hr. unfold LabelNamespaceWithProjectID. rcall. intros [n|e]; [|done]. case_bool_decide; [done|].
  apply wp_call_then.
  { split; [done|]. exists f. split; [auto|]. split; [done|]. exists n. split; [by left | done]. }
  intros [[]|e]; [|done]. unfold restart_lb_controller. rcall. intros [d|e]; [|done].
  rcall. intros now. apply wp_call; [|done]. split; [done|]. exists f. split; [auto|]. split; [done|].
  exists d, now. split; [right; by left | done].
Qed.

Lemma wp_ensure_namespace ns h : Rdy h → wp G (ensure_namespace (Remote config) ns) any h.
Proof.
  intros Hr. unfold ensure_namespace. rcall. intros [n|e]; [done|]. destruct (IsNotFound e) eqn:Hn; [|done].
  apply wp_call; [|done]. split; [|done]. exists cluster, config. destruct Hr as (? & ? & _).
  split_and!; [by eapply enabled_extends; [|done]; auto | by eapply connected_extends; [|done]; auto | done|].
  apply asked_cons. by exists e.
Qed.

Lemma wp_HandleNetworkConfigMap h :
  Rdy h → wp G (HandleNetworkConfigMap (Remote config) (mc_DisplayName (fd_harvester f)) lb_ns) any h.
Proof.
  intros Hr. unfold HandleNetworkConfigMap. rcall. intros [pools|e]; [|done]. case_bool_decide; [done|].
  eapply wp_seq; [by apply wp_ensure_namespace; auto|]. intros [[]|e] h1 _ Hh1; [|done].
  assert (Rdy h1) by (eapply ready_extends; [done|]; auto).
  assert (∀ ev, interfaces f (Some (interface_mappings (mc_DisplayName (fd_harvester f)) pools)) (ev :: h1)) as Hd.
  { intros ev. exists pools. split; [right; eapply elem_extends; [by left | done] | done]. }
  unfold put_configmap. rcall. intros [cm|e]; [case_match; [done|] | case_match; [|done]].
  all: apply wp_call; [|done]; split; [done|]; exists f; (split; [auto|]); (split; [done|]).
  - eexists cm, _. split; [apply Hd|]. split; [by left | done].
  - eexists. split; [apply Hd | done].
Qed.

Lemma wp_secrets h : Rdy h → wp G (HandleConfigSecrets (secrets_of f)) any h.
Proof.
  intros Hr. eapply wp_guard; [eapply wp_weaken; [apply wp_HandleConfigSecrets | done | done]|].
  intros h' R c Hh Hg. pose proof (ready_extends _ _ _ Hh Hr) as Hr'.
  destruct c; try (split; [done|]; try done; by exists f).
  all: try by destruct Hg as [Hg | [Hg | Hg]].
  destruct Hg as [Hg | [Hg | Hg]]; [done..|]. destruct Hg as (Ht & -> & Ha). split; [|done]. injection Ht as <-.
  destruct Hr' as (? & ? & _). exists cluster, config. by split_and!.
Qed.

Lemma wp_enable_project h :
  Rdy h → wp G (enable_project r cluster config (mp_Name project) project (mc_DisplayName (fd_harvester f))
    (mc_DisplayName (fd_harvester f) +:+ "--" +:+ fd_network f)) any h.
Proof.
  intros Hr. unfold enable_project. eapply wp_seq; [by apply wp_LabelNamespace|]. intros [[]|e] h1 _ Hh1; [|done].
  assert (Rdy h1) by (by eapply ready_extends).
  eapply wp_seq; [by apply wp_HandleNetworkConfigMap|]. intros [[]|e] h2 _ Hh2; [|done].
  eapply wp_seq; [apply wp_secrets; by eapply ready_extends|]. by intros [? [|]] h3 _ Hh3.
Qed.
End Ready.

Lemma wp_provision cluster h : enabled cluster h → wp G (provision r cluster) any h.
Proof.
  intros He. unfold provision. eapply wp_seq; [by apply wp_connect|]. intros [stop|config] h1 Hc Hh1; [done|].
  eapply wp_seq; [apply wp_install_charts; [by eapply enabled_extends | done]|].
  intros [stop|[]] h2 Hi Hh2; [done|]. destruct Hi as (Hl & Ha & Hi).
  eapply wp_seq; [apply wp_find_provisioning|]. intros [stop|p] h3 Hp Hh3; [done|].
  eapply wp_seq; [apply wp_vm_network|]. intros [stop|[vmns net]] h4 Hn Hh4; [done|].
  eapply wp_seq; [apply wp_harvester_cluster|]. intros [stop|[cid hc]] h5 Hhc Hh5; [done|].
  eapply wp_seq; [apply wp_vm_project|]. intros [stop|projectID] h6 Hvm Hh6; [done|].
  eapply wp_seq; [apply wp_find_mgmt_project|]. intros [stop|project] h7 Hpr Hh7; [done|]. destruct Hpr as [<- Hpr].
  eapply wp_seq; [apply wp_require_quota|]. intros [stop|[]] h8 Hq Hh8; [done|].
  apply (wp_enable_project (mkFinding cluster config project hc net)).
  assert (extends h6 h8) as H68 by by etrans. assert (extends h5 h8) as H58 by by etrans.
  assert (extends h4 h8) as H48 by by etrans. assert (extends h3 h8) as H38 by by etrans.
  assert (extends h2 h8) as H28 by by etrans. assert (extends h1 h8) as H18 by by etrans.
  assert (extends h h8) as H08 by by etrans.
  unfold ready, entitled. split_and!; [by apply (enabled_extends _ _ _ H08) | by apply (connected_extends _ _ _ _ H18)
    | by apply (installed_extends _ _ _ _ H28) | by apply (absent_extends _ _ _ _ H28)
    | by apply (installed_extends _ _ _ _ H28) | | | done].
  - destruct Hp as (? & ? & ? & ?), Hn as (? & ? & ? & ? & ? & ? & ->), Hhc as (? & ? & ? & ? & ? & ? & ? & ?),
      Hvm as (? & ? & ? & ? & ? & ? & ? & ? & ?). cbn. econstructor; eauto using elem_extends.
  - destruct Hpr as (ps & ? & ?). exists ps. split; [by eapply elem_extends | done].
Qed.

Definition released (h : History CmCall) : Prop :=
  ∃ fips, mkEv FipList (Ok fips) ∈ h ∧ ∀ fip, fip ∈ fips → labelled_by name fip = true → updated fip h.

Lemma wp_provisioning_Reconcile h :
  wp G (provisioning_Reconcile r name)
    (λ x h', x.2 = None → asked (ClusterGet name) h' (λ a, is_ok a = true) ∨ released h') h.
Proof.
  unfold provisioning_Reconcile. rcall. intros [cluster|e].
  - eapply (wp_post _ _ any).
    + destruct (not_provisioned cluster) eqn:Hn; [done|]. apply wp_provision. split; [by left | done].
    + intros x h' _ Hh _. left. eapply asked_extends; [done|]. by apply asked_cons.
  - destruct (IsNotFound e) eqn:He; [|by apply wp_ret].
    eapply wp_seq; [apply wp_releaseFloatingIPs, asked_cons; by exists e|]. intros [[]|e'] h1 Hr Hh1; [|by apply wp_ret].
    apply wp_ret. intros _. right. by apply Hr.
Qed.

(** a cluster gets charts only if it is enabled, not Rancher's own and no
    Harvester cluster, through a client of its own kubeconfig and after it has
    answered.  The load-balancer controller comes first; then, of MetalLB and
    PureLB, the one that the label of the cluster selects, and only after the
    other one was found absent.  Chart, namespace and repository are those of the
    configuration. *)
Theorem charts_installed_in_order h x h' :
  execs (provisioning_Reconcile r name) h x h' → obeys chart_guard h h'.
Proof.
  intros Hx. destruct (wp_execs _ _ _ _ _ _ Hx (wp_provisioning_Reconcile h)) as [_ Ho].
  eapply obeys_weaken; [|done]. by intros ? ? ? [? _].
Qed.

(** C11: a downstream cluster is told of a project only after both charts are
    installed, and only of the project that the namespace of its machines belongs
    to in Harvester (found through the cluster's provisioning cluster, its
    HarvesterConfig and its cloud credential), which is listed and has a
    FloatingIPProjectQuota.  What it is told names this project: the label on the
    namespace of the load-balancer controller has the project's identifier and the
    rest of the namespace is as read, the deployment that is restarted is the
    controller's own, the map of interfaces is that of the pools of the Harvester
    cluster, and the config secrets are those of the project and of the machines'
    network.  Nothing is deleted, and the only FloatingIPs that are updated are
    those claimed by a cluster that is gone, with their claims removed. *)
Theorem projects_need_quota h x h' :
  execs (provisioning_Reconcile r name) h x h' → obeys project_guard h h'.
Proof.
  intros Hx. destruct (wp_execs _ _ _ _ _ _ Hx (wp_provisioning_Reconcile h)) as [_ Ho].
  eapply obeys_weaken; [|done]. by intros ? ? ? [_ ?].
Qed.

(** The claims of a FloatingIP are gone: it carries no cluster, no group and no
    service, for the controller of floating IPs as well, and every other label is
    as it was. *)
Definition unclaimed (fip : FloatingIP) : Prop :=
  let labels := Labels (fip_meta (released_fip fip)) in
  mget labels fipClusterNameLabel = "" ∧ mget labels fipGroupLabel = "" ∧
  ((∀ m, Labels (fip_meta fip) = Some m → canonical_labels m) → parseServicesFromLabels labels = []) ∧
  ∀ k, is_claim k = false → mlookup labels k = mlookup (Labels (fip_meta fip)) k.

Lemma released_unclaimed fip : unclaimed fip.
Proof.
  unfold unclaimed, mget. cbn zeta. change (Labels (fip_meta (released_fip fip))) with (releaseClaimLabels (Labels (fip_meta fip))).
  rewrite !release_lookup. split_and!; [done..| apply released_no_services |].
  intros k Hk. by rewrite release_lookup, Hk.
Qed.

(** when a run for a cluster that is gone ends without an error, every
    FloatingIP that the list showed with a claim of the cluster has been updated,
    and the update removes the claims: no cluster, no group and no service is
    left, and no other label has changed. *)
Theorem deleted_cluster_releases x h' :
  execs (provisioning_Reconcile r name) [] x h' → x.2 = None →
  asked (ClusterGet name) h' (λ a, is_ok a = true) ∨
  ∃ fips, mkEv FipList (Ok fips) ∈ h' ∧ ∀ fip, fip ∈ fips → labelled_by name fip = true →
    mkEv (FipUpdate (released_fip fip)) (Ok tt) ∈ h' ∧ unclaimed fip.
Proof.
  intros Hx Hn. destruct (wp_execs _ _ _ _ _ _ Hx (wp_provisioning_Reconcile [])) as [Hq _].
  destruct (Hq Hn) as [? | (fips & Hl & Hu)]; [by left|]. right. exists fips. split; [done|].
  intros fip Hf Hc. split; [by apply Hu | apply released_unclaimed].
Qed.
End Provisioning.
