(* ===== verification/CmQuota.v ===== *)
(** The cluster manager's controller of FloatingIPProjectQuotas,
    [clustermanager/pkg/controllers/floatingipprojectquota_controller.go]: it
    hands the config secret of a project to the project's cluster, takes it back
    when the quota goes away, and sweeps what was left behind.

    [getDownstreamClient] is the client factory of the program; the source lets
    tests put another one in its place. *)

From S2P Require Import Prelude GoStd ApiTypes Prog CmApi CmHandlers CmProvisioning.

Definition floatingIPProjectQuotaCleanupFinalizer : string :=
  "rancher.k8s.binbash.org/clustermanager-secret-cleanup".
Definition floatingIPProjectQuotaDeletionGraceWindow : time := minutes 10.
Definition defaultNetworkAnnotation : string := "rancher-fip-default-network".

Definition quota_name (q : FloatingIPProjectQuota) : string := Name (quota_meta q).
Definition quota_finalizers (q : FloatingIPProjectQuota) : list string := Finalizers (quota_meta q).
Definition has_cleanup_finalizer (q : FloatingIPProjectQuota) : bool :=
  containsString (quota_finalizers q) floatingIPProjectQuotaCleanupFinalizer.
Definition with_finalizers (q : FloatingIPProjectQuota) (l : list string) : FloatingIPProjectQuota :=
  set_quota_meta q (set_Finalizers (quota_meta q) l).

(** The predicate on the events of quotas. *)
Definition quotaPredicate (e : InformerEvent FloatingIPProjectQuota) : bool :=
  match e with
  | CreateEvent _ => true
  | UpdateEvent _ (Some n) => is_some (DeletionTimestamp (quota_meta n))
  | UpdateEvent _ None | DeleteEvent _ | GenericEvent _ => false
  end.

(** The project of a config secret. *)
Definition config_project (name : string) : option string :=
  let projectID := TrimPrefix name configSecretPrefix in
  if bool_decide (projectID = name) || bool_decide (projectID = "") then None else Some projectID.

(** A config secret whose project is not among the active ones. *)
Definition orphaned (activeProjects : gmap string bool) (s : KSecret) : bool :=
  match config_project (ks_Name s) with
  | Some projectID => negb (is_some (activeProjects !! projectID))
  | None => false
  end.

Definition active_projects (quotas : list FloatingIPProjectQuota) : gmap string bool :=
  foldl (λ m q, <[quota_name q := true]> m) ∅ quotas.

(** The namespaces of the config secrets. *)
Definition is_config_secret (s : KSecret) : bool :=
  HasPrefix (ks_Name s) configSecretPrefix && negb (bool_decide (ks_Name s = configSecretPrefix)).
Definition config_namespaces (secrets : list KSecret) : gmap string bool :=
  foldl (λ m s, if is_config_secret s then <[ks_Namespace s := true]> m else m) ∅ secrets.

Section Quota.
Context `{HLibs : CmLibs, MapRange, HRetry : Retries CmCall} (r : CmReconciler).
#[local] Open Scope prog_scope.

Definition getDownstreamClient (cluster : MgmtCluster) : Prog CmCall (res RESTConfig) :=
  try! secrets := call (SecretList Cache (Some "fleet-default")) else err =>
    Ret (Err (wrapf "unable to list secrets in fleet-default namespace" err)) in
  match kubeconfig_of cluster secrets with
  | None => Ret (Err (mkErr KNotFound ("secrets " +:+ mc_Name cluster +:+ "-kubeconfig or "
      +:+ mc_DisplayName cluster +:+ "-kubeconfig not found")))
  | Some s =>
      match mlookup (ks_Data s) "value" with
      | None => Ret (Err (errorf ("kubeconfig secret " +:+ ks_Name s +:+ " does not contain 'value' key")))
      | Some kubeconfig =>
          match newDownstreamRESTConfig kubeconfig with
          | Err err => Ret (Err (wrapf "unable to create REST config from kubeconfig" err))
          | Ok config =>
              try! _c := call (NewDownstreamClient config) else err => Ret (Err err) in Ret (Ok config)
          end
      end
  end.

(** ** A quota that goes away *)

Definition findLocalConfigSecretNamespace (projectID : string) : Prog CmCall (res string) :=
  try! localSecrets := call (SecretList Cache None) else err =>
    Ret (Err (wrapf "unable to list secrets in the local cluster" err)) in
  Ret (Ok (match find (λ s, bool_decide (ks_Name s = configSecretPrefix +:+ projectID)) localSecrets with
           | Some s => ks_Namespace s
           | None => ""
           end)).

Definition deleteDownstreamConfigSecret (cluster : MgmtCluster) (projectID : string) (graceExpired : bool)
    : Prog CmCall (res unit) :=
  let ns := RancherFipLBControllerNamespace (cm_Config r) in
  let tolerate err := Ret (if graceExpired : bool then Ok tt else Err err) in
  if not_provisioned cluster then Ret (Ok tt)
  else if bool_decide (ns = "") then Ret (Ok tt)
  else
    try! config := getDownstreamClient cluster else err =>
      if IsNotFound err then Ret (Ok tt) else tolerate err in
    try! _d := call (SecretDelete (Remote config) ns (configSecretPrefix +:+ projectID)) else err =>
      if IsNotFound err then Ret (Ok tt) else tolerate err in
    Ret (Ok tt).

(** A secret that cannot be deleted is only logged. *)
Fixpoint delete_named (secretName : string) (secrets : list KSecret) : Prog CmCall unit :=
  match secrets with
  | [] => Ret tt
  | s :: secrets =>
      if negb (bool_decide (ks_Name s = secretName)) then delete_named secretName secrets
      else
        let! _d := call (SecretDelete Cache (ks_Namespace s) (ks_Name s)) in
        delete_named secretName secrets
  end.

Definition deleteLocalConfigSecretsByName (projectID : string) : Prog CmCall (res unit) :=
  try! localSecrets := call (SecretList Cache None) else err =>
    Ret (Err (wrapf "unable to list secrets in the local cluster" err)) in
  delete_named (configSecretPrefix +:+ projectID) localSecrets ;;; Ret (Ok tt).

Definition release_attempt (name : string) : Prog CmCall (res bool) :=
  let! g := call (QuotaGet name) in
  match g with
  | Err err => Ret (if IsNotFound err then Ok false else Err err)
  | Ok fresh =>
      if negb (has_cleanup_finalizer fresh) then Ret (Ok false)
      else
        try! _p := call (QuotaPatch fresh (with_finalizers fresh
            (removeString (quota_finalizers fresh) floatingIPProjectQuotaCleanupFinalizer))) else err =>
          Ret (if IsNotFound err then Ok false else Err err) in
        Ret (Ok true)
  end.

Definition releaseCleanupFinalizer (name : string) : Prog CmCall (res bool) :=
  RetryConflict (release_attempt name).

(** The downstream copy of the secret, in the cluster that the namespace of the
    local one names. *)
Definition clean_downstream (projectID secretNamespace : string) (graceExpired : bool) : Prog CmCall (res unit) :=
  if bool_decide (secretNamespace = "") then Ret (Ok tt)
  else
    let! g := call (ClusterGet secretNamespace) in
    match g with
    | Err err => Ret (if IsNotFound err || graceExpired then Ok tt else Err err)
    | Ok cluster => deleteDownstreamConfigSecret cluster projectID graceExpired
    end.

(** [time.Since] the deletion is more than the window. *)
Definition grace_expired (deletion : option time) (now : time) : bool :=
  match deletion with
  | Some t => floatingIPProjectQuotaDeletionGraceWindow <? now - t
  | None => false
  end.

(** An error that is to be tried again: none once the window is over. *)
Definition to_retry {A} (x : res A) (graceExpired : bool) : option error :=
  match x with
  | Err err => if graceExpired then None else Some err
  | Ok _ => None
  end.

Definition handleFloatingIPProjectQuotaDelete (q : FloatingIPProjectQuota) : Prog CmCall Outcome :=
  let! now := call CmNow in
  let graceExpired := grace_expired (DeletionTimestamp (quota_meta q)) now in
  let! found := findLocalConfigSecretNamespace (quota_name q) in
  match to_retry found graceExpired with
  | Some err => Ret (fail err)
  | None =>
      let secretNamespace := match found with Ok ns => ns | Err _ => "" end in
      try! _d := clean_downstream (quota_name q) secretNamespace graceExpired else err => Ret (fail err) in
      let! l := deleteLocalConfigSecretsByName (quota_name q) in
      match to_retry l graceExpired with
      | Some err => Ret (fail err)
      | None =>
          try! _r := releaseCleanupFinalizer (quota_name q) else err => Ret (fail err) in
          Ret finished
      end
  end.

(** ** A quota that is there *)

Definition finalizer_attempt (name : string) : Prog CmCall (res unit) :=
  try! fresh := call (QuotaGet name) else err => Ret (Err err) in
  if has_cleanup_finalizer fresh then Ret (Ok tt)
  else call (QuotaPatch fresh (with_finalizers fresh
         (quota_finalizers fresh ++ [floatingIPProjectQuotaCleanupFinalizer]))).

Definition require_finalizer (q : FloatingIPProjectQuota) (name : string) : Prog CmCall (res unit) :=
  if has_cleanup_finalizer q then Ret (Ok tt) else RetryConflict (finalizer_attempt name).

(** The default network of the cluster, from the first pool that says so. *)
Definition is_default_network (pool : FloatingIPPool) : bool :=
  match Annotations (pool_meta pool) with
  | None => false
  | Some m =>
      existsb (λ kv, bool_decide (kv.1 = defaultNetworkAnnotation) && bool_decide (kv.2 = "true")) (range m)
  end.

Definition targets (cluster : MgmtCluster) (pool : FloatingIPPool) : bool :=
  bool_decide (TargetCluster (pool_Spec pool) = mc_Name cluster)
  || bool_decide (TargetCluster (pool_Spec pool) = mc_DisplayName cluster).

Definition default_network (cluster : MgmtCluster) (pools : list FloatingIPPool) : string :=
  match find (λ p, targets cluster p && is_default_network p) pools with
  | Some p => mc_DisplayName cluster +:+ "--" +:+ TargetNetwork (pool_Spec p)
  | None => ""
  end.

(** A project on a bare metal cluster. *)
Definition enable_bare_metal (cluster : MgmtCluster) (project : MgmtProject) : Prog CmCall Outcome :=
  try! config := getDownstreamClient cluster else err =>
    Ret (if IsNotFound err then fail err else requeue (minutes 1)) in
  try! floatingIPPools := call PoolList else err => Ret (fail err) in
  let targetNetwork := default_network cluster floatingIPPools in
  if bool_decide (targetNetwork = "") then
    Ret (fail (errorf "rancher-fip-default-network annotation not found"))
  else
    try! _m := HandleNetworkConfigMap (Remote config) (mc_DisplayName cluster)
        (RancherFipLBControllerNamespace (cm_Config r)) else err => Ret (fail_after (minutes 1) err) in
    HandleConfigSecrets (secret_args r cluster (Some (Remote config)) project targetNetwork).

Definition enable_quota (q : FloatingIPProjectQuota) : Prog CmCall Outcome :=
  try! projects := call ProjectList else err => Ret (fail err) in
  match find (λ p, bool_decide (mp_Name p = quota_name q)) projects with
  | None => Ret finished
  | Some project =>
      if bool_decide (mp_Namespace project = "") then Ret finished
      else
        try! cluster := call (ClusterGet (mp_ClusterName project)) else err => Ret (fail err) in
        if bool_decide (mget (mc_Labels cluster) clusterProviderLabel = "harvester") then
          HandleConfigSecrets (secret_args r cluster None project "harvester")
        else if negb (bool_decide (mget (mc_Labels cluster) fipEnabledLabel = "enabled")) then Ret finished
        else enable_bare_metal cluster project
  end.

(** [FloatingIPProjectQuotaReconciler.Reconcile] *)
Definition quota_Reconcile (name : string) : Prog CmCall Outcome :=
  let! g := call (QuotaGet name) in
  match g with
  | Err err => Ret (if IsNotFound err then finished else fail err)
  | Ok q =>
      if is_some (DeletionTimestamp (quota_meta q)) then handleFloatingIPProjectQuotaDelete q
      else
        try! _f := require_finalizer q name else err => Ret (fail err) in
        enable_quota q
  end.

(** ** The sweep *)

Definition localConfigSecretNamespaces : Prog CmCall (res (gmap string bool)) :=
  try! localSecrets := call (SecretList Cache None) else err =>
    Ret (Err (wrapf "unable to list secrets in the local cluster" err)) in
  Ret (Ok (config_namespaces localSecrets)).

(** Delete the orphans of a list, and count those that are gone. *)
Fixpoint delete_orphans (c : Target) (activeProjects : gmap string bool) (secrets : list KSecret)
    : Prog CmCall Z :=
  match secrets with
  | [] => Ret 0
  | s :: secrets =>
      if negb (orphaned activeProjects s) then delete_orphans c activeProjects secrets
      else
        let! d := call (SecretDelete c (ks_Namespace s) (ks_Name s)) in
        let! n := delete_orphans c activeProjects secrets in
        Ret (match d with
             | Ok _ => 1 + n
             | Err err => if IsNotFound err then 1 + n else n
             end)
  end.

Definition deleteOrphanedLocalConfigSecrets (activeProjects : gmap string bool) : Prog CmCall (res Z) :=
  try! localSecrets := call (SecretList Cache None) else err =>
    Ret (Err (wrapf "unable to list secrets in the local cluster" err)) in
  let! deleted := delete_orphans Cache activeProjects localSecrets in
  Ret (Ok deleted).

(** The cluster named after a namespace; whatever fails, it is skipped. *)
Definition sweep_cluster (activeProjects : gmap string bool) (namespace : string) : Prog CmCall unit :=
  let ns := RancherFipLBControllerNamespace (cm_Config r) in
  try! cluster := call (ClusterGet namespace) else _e => Ret tt in
  if not_provisioned cluster then Ret tt
  else if bool_decide (ns = "") then Ret tt
  else
    try! config := getDownstreamClient cluster else _e => Ret tt in
    try! downstreamSecrets := call (SecretList (Remote config) (Some ns)) else _e => Ret tt in
    delete_orphans (Remote config) activeProjects downstreamSecrets ;;; Ret tt.

Fixpoint sweep_clusters (activeProjects : gmap string bool) (namespaces : list (string * bool))
    : Prog CmCall unit :=
  match namespaces with
  | [] => Ret tt
  | (namespace, _) :: namespaces =>
      sweep_cluster activeProjects namespace ;;; sweep_clusters activeProjects namespaces
  end.

Definition sweepOrphanedConfigSecrets : Prog CmCall (res unit) :=
  try! floatingIPProjectQuotas := call QuotaList else err =>
    Ret (Err (wrapf "unable to list FloatingIPProjectQuota objects" err)) in
  let activeProjects := active_projects floatingIPProjectQuotas in
  if bool_decide (activeProjects = ∅) then Ret (Ok tt)
  else
    try! namespaces := localConfigSecretNamespaces else err =>
      Ret (Err (wrapf "unable to find local config secrets" err)) in
    let! _n := deleteOrphanedLocalConfigSecrets activeProjects in
    sweep_clusters activeProjects (range namespaces) ;;; Ret (Ok tt).

(** The sweeper: a pass at the start and one at every tick until the context
    ends; a pass that fails is only logged. *)
Fixpoint sweeper_Start (ticks : nat) : Prog CmCall unit :=
  sweepOrphanedConfigSecrets ;;;
  match ticks with
  | O => Ret tt
  | S ticks => sweeper_Start ticks
  end.
End Quota.
