(* ===== verification/CmQuotaCorrect.v ===== *)
(** What the cluster manager does with a project's config secrets: when a quota
    goes away, when it is there, and in a sweep. *)

From S2P Require Import Prelude GoStd ApiTypes Prog CmApi CmHandlers CmSecretsCorrect CmProvisioning CmQuota.

(** ** Names of config secrets *)

Lemma config_project_Some n p : config_project n = Some p ↔ n = configSecretPrefix +:+ p ∧ p ≠ "".
Proof.
  unfold config_project. split.
  - destruct (HasPrefix n configSecretPrefix) eqn:Hp.
    + apply HasPrefix_true in Hp as [t ->]. rewrite TrimPrefix_app. case_bool_decide; [done|]. case_bool_decide; [done|].
      intros [= <-]. done.
    + unfold TrimPrefix. rewrite Hp. by rewrite bool_decide_eq_true_2.
  - intros [-> Hp]. rewrite TrimPrefix_app. rewrite !bool_decide_eq_false_2; [done | done |].
    intros He. apply (f_equal String.length) in He. rewrite str_length_app in He. simpl in He. lia.
Qed.

Lemma active_projects_lookup qs p : is_Some (active_projects qs !! p) ↔ ∃ q, q ∈ qs ∧ quota_name q = p.
Proof.
  unfold active_projects. induction qs as [|q qs IH] using rev_ind.
  { simpl. rewrite lookup_empty. split; [by intros [? ?] | by intros (? & ?%elem_of_nil & _)]. }
  rewrite foldl_snoc, lookup_insert_is_Some, IH. setoid_rewrite elem_of_app. setoid_rewrite list_elem_of_singleton.
  split.
  - intros [<- | [_ (q' & ? & ?)]]; eauto.
  - intros (q' & [? | ->] & <-); [|by left]. destruct (decide (quota_name q = quota_name q')); eauto.
Qed.

Lemma active_projects_empty qs : active_projects qs = ∅ ↔ qs = [].
Proof.
  split; [|by intros ->]. intros He. destruct qs as [|q qs]; [done|]. exfalso.
  destruct (proj2 (active_projects_lookup (q :: qs) (quota_name q))) as [x Hx]; [exists q; split; [left | done]|].
  by rewrite He, lookup_empty in Hx.
Qed.

Lemma orphaned_true qs s :
  orphaned (active_projects qs) s = true ↔
  ∃ p, ks_Name s = configSecretPrefix +:+ p ∧ p ≠ "" ∧ ∀ q, q ∈ qs → quota_name q ≠ p.
Proof.
  unfold orphaned. destruct (config_project (ks_Name s)) as [p|] eqn:Hp.
  - apply config_project_Some in Hp as [Hn Hp]. rewrite negb_true_iff, <- not_true_iff_false, is_some_true, active_projects_lookup.
    split; [intros Ho; exists p; naive_solver|]. intros (p' & Hn' & _ & Ho) (q & Hq & <-). rewrite Hn in Hn'.
    apply str_app_inj_l in Hn' as <-. by eapply Ho.
  - split; [done|]. intros (p & Hn & Hne & _). assert (config_project (ks_Name s) = Some p) by by apply config_project_Some.
    congruence.
Qed.

Section Quota.
Context `{HLibs : CmLibs, HRange : MapRange, HRetry : Retries CmCall} (r : CmReconciler).

Notation lb_ns := (RancherFipLBControllerNamespace (cm_Config r)).
Notation any := (λ _ _, True).

(** The client is that of the cluster's kubeconfig. *)
Definition client_of (cluster : MgmtCluster) (config : RESTConfig) (h : History CmCall) : Prop :=
  ∃ secrets s kubeconfig, mkEv (SecretList Cache (Some "fleet-default")) (Ok secrets) ∈ h ∧
    kubeconfig_of cluster secrets = Some s ∧ mlookup (ks_Data s) "value" = Some kubeconfig ∧
    newDownstreamRESTConfig kubeconfig = Ok config.

(** There is no client of the cluster: something on the way to it was not found. *)
Inductive no_client (cluster : MgmtCluster) (h : History CmCall) : Prop :=
| no_list : asked (SecretList Cache (Some "fleet-default")) h NotFoundErr → no_client cluster h
| no_kubeconfig secrets :
    mkEv (SecretList Cache (Some "fleet-default")) (Ok secrets) ∈ h → kubeconfig_of cluster secrets = None →
    no_client cluster h
| no_config kubeconfig : NotFoundErr (newDownstreamRESTConfig kubeconfig) → no_client cluster h
| no_new config : asked (NewDownstreamClient config) h NotFoundErr → no_client cluster h.

Lemma client_of_extends cluster config h h' : extends h h' → client_of cluster config h → client_of cluster config h'.
Proof. intros Hh (ss & s & kc & ? & ?). exists ss, s, kc. split; [by eapply elem_extends | done]. Qed.

Lemma no_client_extends cluster h h' : extends h h' → no_client cluster h → no_client cluster h'.
Proof.
  intros Hh [? | ss ? ? | kc ? | c ?].
  - apply no_list. by eapply asked_extends.
  - apply (no_kubeconfig _ _ ss); [by eapply elem_extends | done].
  - by apply (no_config _ _ kc).
  - apply (no_new _ _ c). by eapply asked_extends.
Qed.

(** Reading is always allowed. *)
Definition only_reads {R} (c : CmCall R) : Prop :=
  match c with
  | SecretCreate _ _ | SecretUpdate _ _ | SecretDelete _ _ _ | NamespaceCreate _ _ | NamespaceUpdate _ _
  | ConfigMapCreate _ _ | ConfigMapUpdate _ _ | DeploymentUpdate _ _ | QuotaPatch _ _ | FipUpdate _
  | AddOrUpdateChartRepo _ _ | InstallOrUpgrade _ _ => False
  | _ => True
  end.

Section Reading.
Context (G : Guard CmCall) (HG : ∀ h R (c : CmCall R), only_reads c → G h R c).
Ltac rcall := apply wp_call_then; [by apply HG|].

Lemma wp_getDownstreamClient cluster h :
  wp G (getDownstreamClient cluster) (λ x h', match x with
    | Ok config => client_of cluster config h'
    | Err e => IsNotFound e = true → no_client cluster h'
    end) h.
Proof.
  unfold getDownstreamClient. rcall. intros [secrets|e].
  2: { apply wp_ret. intros He. apply no_list, asked_cons. exists e. done. }
  destruct (kubeconfig_of cluster secrets) as [s|] eqn:Hs.
  2: { apply wp_ret. intros _. apply (no_kubeconfig _ _ secrets); [by left | done]. }
  destruct (mlookup _ _) as [kc|] eqn:Hk; [|by apply wp_ret].
  destruct (newDownstreamRESTConfig kc) as [config|e] eqn:Hc.
  - rcall. intros [[]|e]; [|apply wp_ret; intros He; apply (no_new _ _ config), asked_cons; by exists e].
    apply wp_ret. exists secrets, s, kc. split; [right; by left | done].
  - apply wp_ret. intros He. apply (no_config _ _ kc). exists e. done.
Qed.
End Reading.

(** ** The sweep *)

Definition sweep_guard (h : History CmCall) (R : Type) (c : CmCall R) : Prop :=
  match c with
  | SecretDelete t ns n =>
      (∃ quotas p, mkEv QuotaList (Ok quotas) ∈ h ∧ quotas ≠ [] ∧
        n = configSecretPrefix +:+ p ∧ p ≠ "" ∧ ∀ q, q ∈ quotas → quota_name q ≠ p) ∧
      ((t = Cache ∧ ∃ secrets s, mkEv (SecretList Cache None) (Ok secrets) ∈ h ∧ s ∈ secrets ∧
          ks_Namespace s = ns ∧ ks_Name s = n) ∨
       (∃ cluster namespace config secrets s, t = Remote config ∧ lb_ns ≠ "" ∧
          mkEv (ClusterGet namespace) (Ok cluster) ∈ h ∧ not_provisioned cluster = false ∧ client_of cluster config h ∧
          mkEv (SecretList (Remote config) (Some lb_ns)) (Ok secrets) ∈ h ∧ s ∈ secrets ∧
          ks_Namespace s = ns ∧ ks_Name s = n))
  | _ => only_reads c
  end.

Lemma sweep_reads h R (c : CmCall R) : only_reads c → sweep_guard h R c.
Proof. by destruct c. Qed.
#[local] Hint Resolve sweep_reads : core.
Ltac rcall := apply wp_call_then; [by apply sweep_reads|].

(** Where the secrets of a list are. *)
Definition may_sweep (t : Target) (s : KSecret) (h : History CmCall) : Prop :=
  ∀ h' ns n, extends h h' → ks_Namespace s = ns → ks_Name s = n →
    (∃ quotas p, mkEv QuotaList (Ok quotas) ∈ h' ∧ quotas ≠ [] ∧
        n = configSecretPrefix +:+ p ∧ p ≠ "" ∧ ∀ q, q ∈ quotas → quota_name q ≠ p) →
    sweep_guard h' _ (SecretDelete t ns n).

Lemma wp_delete_orphans t quotas secrets : quotas ≠ [] → ∀ h,
  mkEv QuotaList (Ok quotas) ∈ h → (∀ s, s ∈ secrets → may_sweep t s h) →
  wp sweep_guard (delete_orphans t (active_projects quotas) secrets) any h.
Proof.
  intros Hne. induction secrets as [|s secrets IH]; intros h Hq Hs; cbn [delete_orphans]; [done|].
  destruct (orphaned (active_projects quotas) s) eqn:Ho; cbn [negb].
  - apply orphaned_true in Ho as (p & Hn & Hp & Ho). apply wp_call_then.
    { apply (Hs s); [by left | done..|]. exists quotas, p. done. }
    intros d. apply (wp_seq _ _ _ any); [|by intros].
    apply IH; [by right|]. intros s' Hs' h' ns n Hh. apply (Hs s'); [by right|]. etrans; [|done]. auto.
  - apply IH; [done|]. intros s' Hs'. apply Hs. by right.
Qed.

Lemma wp_sweep_cluster quotas namespace h :
  quotas ≠ [] → mkEv QuotaList (Ok quotas) ∈ h → wp sweep_guard (sweep_cluster r (active_projects quotas) namespace) any h.
Proof.
  intros Hne Hq. unfold sweep_cluster. rcall. intros [cluster|e]; [|done].
  destruct (not_provisioned cluster) eqn:Hn; [done|]. case_bool_decide as Hns; [done|].
  eapply wp_seq; [apply wp_getDownstreamClient, sweep_reads|]. intros [config|e] h1 Hc Hh1; [|done]. rcall. intros [secrets|e]; [|done].
  assert (extends h h1) as Hh by (etrans; [|done]; auto).
  apply (wp_seq _ _ _ any); [|done].
  apply wp_delete_orphans; [done | right; by eapply elem_extends|]. intros s Hs h' ns n Hh' <- <- Hp. split; [done|]. right.
  exists cluster, namespace, config, secrets, s. split_and!; try done.
  - eapply elem_extends; [|done]. right. eapply elem_extends; [by left | done].
  - eapply client_of_extends; [done|]. eapply client_of_extends; [|done]. auto.
  - eapply elem_extends; [by left | done].
Qed.

Lemma wp_sweep_clusters quotas namespaces : quotas ≠ [] → ∀ h,
  mkEv QuotaList (Ok quotas) ∈ h → wp sweep_guard (sweep_clusters r (active_projects quotas) namespaces) any h.
Proof.
  intros Hne. induction namespaces as [|[ns b] l IH]; intros h Hq; cbn [sweep_clusters]; [done|].
  eapply wp_seq; [by apply wp_sweep_cluster|]. intros [] h1 _ Hh. apply IH. by eapply elem_extends.
Qed.

Lemma wp_sweep h : wp sweep_guard (sweepOrphanedConfigSecrets r) any h.
Proof.
  unfold sweepOrphanedConfigSecrets. rcall. intros [quotas|e]; [|done]. case_bool_decide as He; [done|].
  rewrite active_projects_empty in He.
  unfold localConfigSecretNamespaces. rcall. intros [secrets|e]; [|done].
  apply (wp_seq _ _ _ any).
  { unfold deleteOrphanedLocalConfigSecrets. rcall. intros [local|e]; [|done].
    apply (wp_seq _ _ _ any); [|done]. apply wp_delete_orphans; [done | right; right; by left|].
    intros s Hs h' ns n Hh' <- <- Hp. split; [done|]. left. split; [done|]. exists local, s.
    split_and!; try done. eapply elem_extends; [by left | done]. }
  intros x h1 _ Hh. apply (wp_seq _ _ _ any); [|done].
  apply wp_sweep_clusters; [done|]. eapply elem_extends; [right; by left | done].
Qed.

(** C15: the sweep of orphaned config secrets changes nothing but by deleting
    secrets, and it deletes only secrets named after a project that is not in the
    list of FloatingIPProjectQuotas that it read, which was not empty: in the
    management cluster, or in the namespace of the load-balancer controller of an
    enabled cluster. *)
Theorem sweep_spares_projects ticks h x h' :
  execs (sweeper_Start r ticks) h x h' → obeys sweep_guard h h'.
Proof.
  intros Hx. cut (wp sweep_guard (sweeper_Start r ticks) any h); [intros Hw; by eapply wp_execs|].
  clear Hx. revert h. induction ticks as [|n IH]; intros h; cbn [sweeper_Start].
  - eapply wp_seq; [apply wp_sweep | done].
  - eapply wp_seq; [apply wp_sweep | intros ? h1 _ _; apply IH].
Qed.
End Quota.
