(* ===== verification/CmCleanupCorrect.v ===== *)
(** A run of the cluster manager's controller of quotas: the finalizer of a quota
    that goes away is removed last, and a quota that is there hands its config
    secret to the cluster of its project only. *)

From S2P Require Import Prelude GoStd ApiTypes Prog CmApi CmHandlers CmSecretsCorrect CmProvisioning CmQuota CmQuotaCorrect.

Section Cleanup.
Context `{HLibs : CmLibs, HRange : MapRange, HRetry : Retries CmCall} (r : CmReconciler).

Notation lb_ns := (RancherFipLBControllerNamespace (cm_Config r)).
Notation any := (λ _ _, True).
Notation finalizer := floatingIPProjectQuotaCleanupFinalizer.

Section Quota.
Context (q : FloatingIPProjectQuota).
Notation project := (quota_name q).
Notation secretName := (configSecretPrefix +:+ project).

(** ** What the history shows *)

(** The window in which failures are tried again is over. *)
Definition expired (h : History CmCall) : Prop :=
  ∃ now, mkEv CmNow now ∈ h ∧ grace_expired (DeletionTimestamp (quota_meta q)) now = true.

(** The namespace of the project's config secret in the management cluster; it
    names the cluster of the project. *)
Definition home (ns : string) (h : History CmCall) : Prop :=
  ∃ secrets, mkEv (SecretList Cache None) (Ok secrets) ∈ h ∧
    match find (λ s, bool_decide (ks_Name s = secretName)) secrets with Some s => ks_Namespace s | None => "" end = ns.

(** The cluster has no copy of the secret (any more). *)
Definition cluster_clean (cluster : MgmtCluster) (h : History CmCall) : Prop :=
  not_provisioned cluster = true ∨ lb_ns = "" ∨ no_client cluster h ∨
  ∃ config, client_of cluster config h ∧ asked (SecretDelete (Remote config) lb_ns secretName) h gone.

Definition downstream_clean (h : History CmCall) : Prop :=
  expired h ∨ ∃ ns, home ns h ∧
    (ns = "" ∨ asked (ClusterGet ns) h NotFoundErr ∨
     ∃ cluster, mkEv (ClusterGet ns) (Ok cluster) ∈ h ∧ cluster_clean cluster h).

(** The deletion of every secret of that name was tried. *)
Definition local_clean (h : History CmCall) : Prop :=
  expired h ∨ ∃ secrets, mkEv (SecretList Cache None) (Ok secrets) ∈ h ∧
    ∀ s, s ∈ secrets → ks_Name s = secretName → asked (SecretDelete Cache (ks_Namespace s) secretName) h (λ _, True).

(** The quota without the finalizer. *)
Definition drop_cleanup (base : FloatingIPProjectQuota) : FloatingIPProjectQuota :=
  with_finalizers base (removeString (quota_finalizers base) finalizer).

Definition finalizer_gone (h : History CmCall) : Prop :=
  asked (QuotaGet project) h NotFoundErr ∨
  ∃ base, mkEv (QuotaGet project) (Ok base) ∈ h ∧
    (has_cleanup_finalizer base = false ∨ asked (QuotaPatch base (drop_cleanup base)) h gone).

(** ** What the cleanup may do *)

Definition cleanup_guard (h : History CmCall) (R : Type) (c : CmCall R) : Prop :=
  match c with
  | SecretDelete t ns n => n = secretName ∧
      ((t = Cache ∧ downstream_clean h ∧
        ∃ secrets s, mkEv (SecretList Cache None) (Ok secrets) ∈ h ∧ s ∈ secrets ∧ ks_Namespace s = ns ∧ ks_Name s = n) ∨
       (ns = lb_ns ∧ lb_ns ≠ "" ∧ ∃ homeNs cluster config, t = Remote config ∧ home homeNs h ∧
          mkEv (ClusterGet homeNs) (Ok cluster) ∈ h ∧ not_provisioned cluster = false ∧ client_of cluster config h))
  | QuotaPatch base fresh =>
      mkEv (QuotaGet project) (Ok base) ∈ h ∧ fresh = drop_cleanup base ∧ downstream_clean h ∧ local_clean h
  | _ => only_reads c
  end.

Notation G := cleanup_guard.

Lemma cleanup_reads h R (c : CmCall R) : only_reads c → G h R c.
Proof. by destruct c. Qed.
Ltac rcall := apply wp_call_then; [by apply cleanup_reads|].

(** *** Evidence stays *)

Lemma expired_extends h h' : extends h h' → expired h → expired h'.
Proof. intros Hh (now & ? & ?). exists now. split; [by eapply elem_extends | done]. Qed.
Lemma home_extends ns h h' : extends h h' → home ns h → home ns h'.
Proof. intros Hh (ss & ? & ?). exists ss. split; [by eapply elem_extends | done]. Qed.
Lemma downstream_clean_extends h h' : extends h h' → downstream_clean h → downstream_clean h'.
Proof.
  intros Hh [? | (ns & ? & Hc)]; [left; by eapply expired_extends|]. right. exists ns. split; [by eapply home_extends|].
  destruct Hc as [? | [? | (cl & ? & Hc)]]; [by left | right; left; by eapply asked_extends|]. right. right.
  exists cl. split; [by eapply elem_extends|]. destruct Hc as [? | [? | [? | (config & ? & ?)]]].
  - by left.
  - right. by left.
  - right. right. left. by eapply no_client_extends.
  - right. right. right. exists config. split; [by eapply client_of_extends | by eapply asked_extends].
Qed.
Lemma local_clean_extends h h' : extends h h' → local_clean h → local_clean h'.
Proof.
  intros Hh [? | (ss & ? & Hs)]; [left; by eapply expired_extends|]. right. exists ss. split; [by eapply elem_extends|].
  intros s Hin Hn. eapply asked_extends; [done | by apply Hs].
Qed.

(** ** Downstream *)

Lemma wp_find_namespace h :
  wp G (findLocalConfigSecretNamespace project) (λ x h', match x with Ok ns => home ns h' | Err _ => True end) h.
Proof.
  unfold findLocalConfigSecretNamespace. rcall. intros [secrets|e]; [|done]. apply wp_ret. exists secrets. split; [by left | done].
Qed.

Lemma wp_delete_downstream ns cluster (grace : bool) h :
  home ns h → mkEv (ClusterGet ns) (Ok cluster) ∈ h → (grace = true → expired h) →
  wp G (deleteDownstreamConfigSecret r cluster project grace) (λ x h', x = Ok tt → expired h' ∨ cluster_clean cluster h') h.
Proof.
  intros Hn Hc Hg. unfold deleteDownstreamConfigSecret. destruct (not_provisioned cluster) eqn:Hp; [right; by left|].
  case_bool_decide as Hns; [right; right; by left|].
  eapply wp_seq; [apply wp_getDownstreamClient, cleanup_reads|]. intros [config|e] h1 Hcl Hh1.
  - apply wp_call_then.
    { split; [done|]. right. split; [done|]. split; [done|]. exists ns, cluster, config.
      split_and!; [done | by eapply home_extends | by eapply elem_extends | done..]. }
    intros [[]|e].
    + apply wp_ret. intros _. right. right. right. right. exists config. split; [by eapply client_of_extends; [|done]; auto|].
      apply asked_cons. by left.
    + destruct (IsNotFound e) eqn:He; apply wp_ret.
      * intros _. right. right. right. right. exists config. split; [by eapply client_of_extends; [|done]; auto|].
        apply asked_cons. right. by exists e.
      * intros Hx. left. destruct grace; [|done]. eapply expired_extends; [|by apply Hg]. auto.
  - destruct (IsNotFound e) eqn:He; apply wp_ret.
    + intros _. right. right. right. left. by apply Hcl.
    + intros Hx. left. destruct grace; [|done]. eapply expired_extends; [|by apply Hg]. done.
Qed.

Lemma wp_clean_downstream found (grace : bool) h :
  (∀ ns, found = Ok ns → home ns h) → (grace = true → expired h) → (is_err found = true → grace = true) →
  wp G (clean_downstream r project (match found with Ok ns => ns | Err _ => "" end) grace)
    (λ x h', x = Ok tt → downstream_clean h') h.
Proof.
  intros Hf Hg He. unfold clean_downstream. destruct found as [ns|e].
  2: { apply wp_ret. intros _. left. by apply Hg, He. }
  specialize (Hf ns eq_refl). case_bool_decide as Hns.
  { apply wp_ret. intros _. right. exists ns. split; [done | by left]. }
  rcall. intros [cluster|e].
  - eapply wp_post; [apply (wp_delete_downstream ns)|].
    + eapply home_extends; [|done]. auto.
    + by left.
    + intros Hx. eapply expired_extends; [|by apply Hg]. auto.
    + intros x h' Hx Hh Hok. destruct (Hx Hok) as [? | ?]; [by left|]. right. exists ns.
      split; [eapply home_extends; [|done]; by etrans; [|done]; auto|]. right. right. exists cluster.
      split; [eapply elem_extends; [by left | done] | done].
  - apply wp_ret. destruct (IsNotFound e) eqn:Hn; simpl.
    + intros _. right. exists ns. split; [eapply home_extends; [|done]; auto|]. right. left. apply asked_cons. by exists e.
    + intros Hx. left. destruct grace; [|done]. eapply expired_extends; [|by apply Hg]. auto.
Qed.

(** ** In the management cluster *)

Lemma wp_delete_named secrets : ∀ items h,
  items ⊆ secrets → mkEv (SecretList Cache None) (Ok secrets) ∈ h → downstream_clean h →
  wp G (delete_named secretName items) (λ _ h', ∀ s, s ∈ items → ks_Name s = secretName →
    asked (SecretDelete Cache (ks_Namespace s) secretName) h' (λ _, True)) h.
Proof.
  induction items as [|s items IH]; intros h Hsub Hl Hd; cbn [delete_named].
  { intros s Hs. by apply elem_of_nil in Hs. }
  case_bool_decide as Hn; cbn [negb].
  - apply wp_call_then.
    { split; [done|]. left. split; [done|]. split; [done|]. exists secrets, s. split_and!; [done | set_solver | done..]. }
    intros d. eapply wp_post; [apply IH; [set_solver | by right | eapply downstream_clean_extends; [|done]; auto]|].
    intros [] h' Hx Hh s' [-> | Hs]%elem_of_cons Hn'; [|by apply Hx].
    rewrite <- Hn' at 1. eapply asked_extends; [done|]. by apply asked_cons.
  - eapply wp_post; [apply IH; [set_solver | done..]|]. intros [] h' Hx _ s' [-> | Hs]%elem_of_cons Hn'; [done | by apply Hx].
Qed.

Lemma wp_delete_local h :
  downstream_clean h →
  wp G (deleteLocalConfigSecretsByName project) (λ x h', x = Ok tt → local_clean h') h.
Proof.
  intros Hd. unfold deleteLocalConfigSecretsByName. rcall. intros [secrets|e]; [|done].
  eapply wp_seq; [apply (wp_delete_named secrets); [done | by left | eapply downstream_clean_extends; [|done]; auto]|].
  intros [] h' Hs Hh. apply wp_ret. intros _. right. exists secrets. split; [eapply elem_extends; [by left | done] | done].
Qed.

(** ** The finalizer *)

Lemma wp_release h :
  downstream_clean h → local_clean h →
  wp G (releaseCleanupFinalizer project) (λ x h', is_ok x = true → finalizer_gone h') h.
Proof.
  intros Hd Hl. eapply wp_weaken; [apply (wp_retry _ _ (λ h', downstream_clean h' ∧ local_clean h')) | done |].
  - done.
  - clear h Hd Hl. intros h [Hd Hl].
    apply (wp_post _ _ (λ x h', is_ok x = true → finalizer_gone h')); [|intros x h' Hx Hh; split; [exact Hx|];
      split; [by eapply downstream_clean_extends | by eapply local_clean_extends]].
    unfold release_attempt. rcall. intros [base|e].
    2: { apply wp_ret. destruct (IsNotFound e) eqn:He; [|done]. intros _. left. apply asked_cons. by exists e. }
    destruct (has_cleanup_finalizer base) eqn:Hf; cbn [negb].
    + apply wp_call_then.
      { split; [by left|]. split; [done|]. split; [eapply downstream_clean_extends; [|done]; auto | eapply local_clean_extends; [|done]; auto]. }
      intros [[]|e]; apply wp_ret; [|destruct (IsNotFound e) eqn:He; [|done]]; intros _; right; exists base; (split; [right; by left|]).
      * right. apply asked_cons. by left.
      * right. apply asked_cons. right. by exists e.
    + apply wp_ret. intros _. right. exists base. split; [by left | by left].
  - by intros x h' [? _].
Qed.

Lemma wp_handleDelete h :
  wp G (handleFloatingIPProjectQuotaDelete r q) (λ x h', x = finished → finalizer_gone h') h.
Proof.
  unfold handleFloatingIPProjectQuotaDelete. rcall. intros now. set (grace := grace_expired _ now).
  set (h0 := mkEv CmNow now :: h). assert (grace = true → expired h0) as Hg by (intros ?; exists now; split; [by left | done]).
  clearbody h0 grace. eapply wp_seq; [apply wp_find_namespace|]. intros found h1 Hf Hh1.
  assert (grace = true → expired h1) as Hg1 by (intros; eapply expired_extends; [done | by apply Hg]).
  destruct (to_retry found grace) as [e|] eqn:Hf'; [by apply wp_ret|].
  eapply wp_seq; [apply wp_clean_downstream; [by intros ns -> | done | by destruct found, grace]|].
  intros [[]|e] h2 Hd Hh2; [|by apply wp_ret]. specialize (Hd eq_refl).
  eapply wp_seq; [by apply wp_delete_local|]. intros l h3 Hl Hh3.
  destruct (to_retry l grace) as [e|] eqn:Hl'; [by apply wp_ret|].
  eapply wp_seq; [apply wp_release; [by eapply downstream_clean_extends|]|].
  - destruct l as [[]|e]; [by apply Hl|]. destruct grace; [|done]. left. eapply expired_extends; [|by apply Hg1]. by etrans.
  - intros [b|e] h4 Hx Hh4; apply wp_ret; [|done]. intros _. by apply Hx.
Qed.

End Quota.

(** ** A quota that is there *)

Section Enable.
Context (name : string) (q : FloatingIPProjectQuota).

Definition add_cleanup (base : FloatingIPProjectQuota) : FloatingIPProjectQuota :=
  with_finalizers base (quota_finalizers base ++ [finalizer]).

(** The quota carries the finalizer, so its deletion will be seen. *)
Definition protected (h : History CmCall) : Prop :=
  has_cleanup_finalizer q = true ∨
  ∃ base, mkEv (QuotaGet name) (Ok base) ∈ h ∧
    (has_cleanup_finalizer base = true ∨ asked (QuotaPatch base (add_cleanup base)) h (λ a, a = Ok tt)).

(** The cluster of the quota's project, and where its secret goes: nowhere else
    for a Harvester cluster, to the cluster itself if it is enabled. *)
Definition destined (project : MgmtProject) (cluster : MgmtCluster) (downstream : option Target) (h : History CmCall)
    : Prop :=
  (∃ projects, mkEv ProjectList (Ok projects) ∈ h ∧ project ∈ projects ∧ mp_Name project = quota_name q) ∧
  mkEv (ClusterGet (mp_ClusterName project)) (Ok cluster) ∈ h ∧
  if bool_decide (mget (mc_Labels cluster) clusterProviderLabel = "harvester") then downstream = None
  else mget (mc_Labels cluster) fipEnabledLabel = "enabled" ∧
       ∃ config, downstream = Some (Remote config) ∧ client_of cluster config h.

(** The pool that the secret names. *)
Definition network_of (cluster : MgmtCluster) (downstream : option Target) (net : string) (h : History CmCall) : Prop :=
  match downstream with
  | None => net = "harvester"
  | Some _ => net ≠ "" ∧ asked PoolList h (λ a, ∃ pools, a = Ok pools ∧ net = default_network cluster pools)
  end.

Definition enable_guard (h : History CmCall) (R : Type) (c : CmCall R) : Prop :=
  match c with
  | QuotaPatch base fresh => mkEv (QuotaGet name) (Ok base) ∈ h ∧ has_cleanup_finalizer base = false ∧ fresh = add_cleanup base
  | SecretCreate _ _ | SecretUpdate _ _ | NamespaceCreate _ _ =>
      protected h ∧ ∃ project cluster downstream net,
      destined project cluster downstream h ∧ network_of cluster downstream net h ∧
      secrets_guard (secret_args r cluster downstream project net) h R c
  | ConfigMapCreate t _ | ConfigMapUpdate t _ =>
      protected h ∧ ∃ project cluster, destined project cluster (Some t) h
  | _ => only_reads c
  end.

Notation G := enable_guard.

Lemma enable_reads h R (c : CmCall R) : only_reads c → G h R c.
Proof. by destruct c. Qed.
Ltac rcall := apply wp_call_then; [by apply enable_reads|].

Lemma protected_extends h h' : extends h h' → protected h → protected h'.
Proof.
  intros Hh [? | (base & ? & Hb)]; [by left|]. right. exists base. split; [by eapply elem_extends|].
  destruct Hb as [? | ?]; [by left | right; by eapply asked_extends].
Qed.
Lemma destined_extends project cluster downstream h h' :
  extends h h' → destined project cluster downstream h → destined project cluster downstream h'.
Proof.
  intros Hh ((ps & ? & ?) & ? & Hd). split_and!; [exists ps; split; [by eapply elem_extends | done] | by eapply elem_extends|].
  case_bool_decide; [done|]. destruct Hd as (? & config & ? & ?). split; [done|]. exists config. split; [done|].
  by eapply client_of_extends.
Qed.
Lemma network_extends cluster downstream net h h' :
  extends h h' → network_of cluster downstream net h → network_of cluster downstream net h'.
Proof. intros Hh. destruct downstream; [|done]. intros [? ?]. split; [done | by eapply asked_extends]. Qed.

Lemma wp_require_finalizer h : wp G (require_finalizer q name) (λ x h', x = Ok tt → protected h') h.
Proof.
  unfold require_finalizer. destruct (has_cleanup_finalizer q) eqn:Hf; [apply wp_ret; intros _; by left|].
  eapply wp_weaken; [apply (wp_retry _ _ (λ _, True) (λ x h', x = Ok tt → protected h')); [done|] | done | by intros x h' [? _]].
  clear h. intros h _. eapply wp_weaken; [| done | by intros x h' Hx; split; [exact Hx|]].
  unfold finalizer_attempt. rcall. intros [base|e]; [|done]. destruct (has_cleanup_finalizer base) eqn:Hb.
  - apply wp_ret. intros _. right. exists base. split; [by left | by left].
  - apply wp_call; [split; [by left | done]|]. intros x ->. right. exists base.
    split; [right; by left|]. right. by apply asked_cons.
Qed.

Section Destined.
Context (project : MgmtProject) (cluster : MgmtCluster).

Lemma wp_quota_secrets downstream net h :
  protected h → destined project cluster downstream h → network_of cluster downstream net h →
  wp G (HandleConfigSecrets (secret_args r cluster downstream project net)) any h.
Proof.
  intros Hp Hd Hn. eapply wp_guard; [eapply wp_weaken; [apply wp_HandleConfigSecrets | done | done]|].
  intros h' R c Hh Hg.
  assert (protected h' ∧ destined project cluster downstream h' ∧ network_of cluster downstream net h') as (? & ? & ?).
  { split_and!; [by eapply protected_extends | by eapply destined_extends | by eapply network_extends]. }
  destruct c; try (by destruct Hg as [Hg | [Hg | Hg]]); split; (done || by exists project, cluster, downstream, net).
Qed.

(** The namespace, as [HandleNetworkConfigMap] creates it. *)
Lemma wp_quota_namespace config net h :
  protected h → destined project cluster (Some (Remote config)) h → network_of cluster (Some (Remote config)) net h →
  wp G (ensure_namespace (Remote config) lb_ns) any h.
Proof.
  intros Hp Hd Hn. eapply wp_guard; [apply (wp_ensure (secret_args r cluster (Some (Remote config)) project net)); done|].
  intros h' R c Hh Hg.
  assert (protected h' ∧ destined project cluster (Some (Remote config)) h' ∧ network_of cluster (Some (Remote config)) net h')
    as (? & ? & ?).
  { split_and!; [by eapply protected_extends | by eapply destined_extends | by eapply network_extends]. }
  destruct c; try (by destruct Hg as [Hg | [Hg | Hg]]); split; (done || by exists project, cluster, (Some (Remote config)), net).
Qed.

Lemma wp_quota_configmap config net target h :
  protected h → destined project cluster (Some (Remote config)) h → network_of cluster (Some (Remote config)) net h →
  wp G (HandleNetworkConfigMap (Remote config) target lb_ns) any h.
Proof.
  intros Hp Hd Hn. unfold HandleNetworkConfigMap. rcall. intros [pools|e]; [|done]. case_bool_decide; [done|].
  eapply wp_seq.
  { apply (wp_quota_namespace _ net); [eapply protected_extends; [|done] | eapply destined_extends; [|done]
      | eapply network_extends; [|done]]; auto. }
  intros [[]|e] h1 _ Hh1; [|done]. unfold put_configmap. rcall. intros [cm|e]; [case_match; [done|] | case_match; [|done]].
  all: apply wp_call; [|done]; (split; [eapply protected_extends; [|done] | exists project, cluster; eapply destined_extends; [|done]]);
    apply extends_cons; (etrans; [|done]); auto.
Qed.

Lemma wp_bare_metal h :
  protected h → (∃ projects, mkEv ProjectList (Ok projects) ∈ h ∧ project ∈ projects ∧ mp_Name project = quota_name q) →
  mkEv (ClusterGet (mp_ClusterName project)) (Ok cluster) ∈ h →
  mget (mc_Labels cluster) clusterProviderLabel ≠ "harvester" → mget (mc_Labels cluster) fipEnabledLabel = "enabled" →
  wp G (enable_bare_metal r cluster project) any h.
Proof.
  intros Hp (ps & Hps & Hin & Hnm) Hc Hh He. unfold enable_bare_metal.
  eapply wp_seq; [apply wp_getDownstreamClient, enable_reads|]. intros [config|e] h1 Hcl Hh1; [|done].
  rcall. intros [pools|e]; [|done]. set (h2 := _ :: h1). assert (extends h h2) as Hh2 by by apply extends_cons.
  case_bool_decide as Hnet; [done|].
  assert (destined project cluster (Some (Remote config)) h2) as Hd.
  { split; [exists ps; split; [by eapply elem_extends | done]|]. split; [by eapply elem_extends|].
    rewrite bool_decide_eq_false_2 by done. split; [done|]. exists config. split; [done|].
    eapply client_of_extends; [|done]. by apply extends_cons. }
  assert (network_of cluster (Some (Remote config)) (default_network cluster pools) h2) as Hn.
  { split; [done|]. apply asked_cons. by exists pools. }
  assert (protected h2) as Hp2 by by eapply protected_extends. clearbody h2.
  eapply wp_seq; [by eapply wp_quota_configmap|]. intros [[]|e] h3 _ Hh3; [|done].
  apply wp_quota_secrets; [by eapply protected_extends | by eapply destined_extends | by eapply network_extends].
Qed.
End Destined.

Lemma wp_enable_quota h : protected h → wp G (enable_quota r q) any h.
Proof.
  intros Hp. unfold enable_quota. rcall. intros [projects|e]; [|done]. destruct (find _ projects) as [project|] eqn:Hf; [|done].
  apply find_some in Hf as [Hin Hnm]. bool_hyps. apply list_elem_of_In in Hin. case_bool_decide; [done|].
  rcall. intros [cluster|e]; [|done]. set (h2 := _ :: _ :: h). assert (extends h h2) as Hh2 by by do 2 apply extends_cons.
  assert (protected h2) as Hp2 by by eapply protected_extends.
  assert (∃ projects, mkEv ProjectList (Ok projects) ∈ h2 ∧ project ∈ projects ∧ mp_Name project = quota_name q) as Hps.
  { exists projects. split; [right; by left | done]. }
  assert (mkEv (ClusterGet (mp_ClusterName project)) (Ok cluster) ∈ h2) as Hc by by left. clearbody h2.
  case_bool_decide as Hh.
  - apply wp_quota_secrets; [done | | done]. split; [done|]. split; [done|]. by rewrite bool_decide_eq_true_2.
  - case_bool_decide as He; cbn [negb]; [by apply wp_bare_metal | done].
Qed.
End Enable.

(** What a run for the quota [name] may do. *)
Definition quota_guard (name : string) (h : History CmCall) (R : Type) (c : CmCall R) : Prop :=
  only_reads c ∨ ∃ q, mkEv (QuotaGet name) (Ok q) ∈ h ∧
    if is_some (DeletionTimestamp (quota_meta q)) then cleanup_guard q h R c else enable_guard name q h R c.

(** a quota that is there.  Its config secret, the namespace for it and the
    map of interfaces are written only after the quota carries the finalizer that
    makes its deletion wait for the cleanup; they go to the cluster that the
    project of that name belongs to - through a client of its own kubeconfig, if
    the cluster is enabled - and for a Harvester cluster only the local secret is
    written.  The secret is that of the project, with the default network of the
    cluster.  A quota that is being deleted is only cleaned up. *)
Theorem quota_writes_to_its_cluster name h x h' :
  execs (quota_Reconcile r name) h x h' → obeys (quota_guard name) h h'.
Proof.
  intros Hx. cut (wp (quota_guard name) (quota_Reconcile r name) any h); [intros Hw; by eapply wp_execs|]. clear Hx.
  unfold quota_Reconcile. apply wp_call_then; [by left|]. intros [q|e]; [|by destruct (IsNotFound e)].
  set (h1 := _ :: h). assert (mkEv (QuotaGet name) (Ok q) ∈ h1) as Hq by by left. clearbody h1.
  destruct (is_some _) eqn:Hd.
  - eapply wp_guard; [eapply wp_weaken; [apply wp_handleDelete | done | done]|]. intros h2 R c Hh Hg. right. exists q.
    rewrite Hd. split; [by eapply elem_extends | done].
  - eapply (wp_guard (enable_guard name q)).
    + eapply wp_seq; [apply wp_require_finalizer|]. intros [[]|e] h2 Hp _; [|done]. by apply wp_enable_quota, Hp.
    + intros h2 R c Hh Hg. right. exists q. rewrite Hd. split; [by eapply elem_extends | done].
Qed.
End Cleanup.
