(* ===== verification/CmDelivered.v ===== *)
(** What the cluster manager puts into a downstream cluster is what the
    load-balancer controller there asks for. *)

From S2P Require Import Prelude GoStd ApiTypes LbApi LbController LbReconcile Prog CmApi CmHandlers CmSecretsCorrect CmProvisioning.

(** The secret as the load-balancer controller reads it. *)
Definition lb_secret (s : KSecret) : Secret := mkSecret (ks_Name s) (ks_Data s).

Section Delivered.
Context `{HLbLibs : LbLibs, HLibs : CmLibs}.

(** The fields of the delivered secret. *)
Lemma desired_fields a cs :
  let s := lb_secret (desired_secret a cs) in
  sec s "apiUrl" = sa_apiServerURL a ∧ sec s "clientSecret" = cs ∧ sec s "cluster" = sa_cluster a ∧
  sec s "project" = sa_project a ∧ sec s "floatingIPPool" = sa_targetNetwork a ∧
  sec s "loadBalancerType" = sa_loadBalancerType a.
Proof. done. Qed.

(** Nothing that the secret has to say is empty. *)
Definition complete (a : SecretArgs) : Prop :=
  sa_apiServerURL a ≠ "" ∧ sa_cluster a ≠ "" ∧ sa_project a ≠ "" ∧ sa_targetNetwork a ≠ "" ∧
  (sa_loadBalancerType a = "metallb" ∨ sa_loadBalancerType a = "purelb").

Lemma desired_valid a cs svc :
  cs ≠ "" → complete a →
  validateProjectConfig (lb_secret (desired_secret a cs)) (resolve_pool svc (lb_secret (desired_secret a cs))) = None.
Proof.
  intros Hcs (Hurl & Hcl & Hp & Hnet & Hlb). unfold validateProjectConfig, first_missing, resolve_pool.
  destruct (desired_fields a cs) as (Eu & Es & Ec & Ep & En & El).
  set (s := lb_secret (desired_secret a cs)) in *. clearbody s. cbn [find]. rewrite Eu, Es, Ec, Ep, En, El.
  rewrite (bool_decide_eq_false_2 (sa_apiServerURL a = "")), (bool_decide_eq_false_2 (cs = "")),
    (bool_decide_eq_false_2 (sa_cluster a = "")), (bool_decide_eq_false_2 (sa_project a = "")) by done.
  assert (∀ l, l = "metallb" ∨ l = "purelb" → negb (bool_decide (l = "metallb")) && negb (bool_decide (l = "purelb")) = false)
    as Hl by by intros l [-> | ->].
  rewrite Hl by done. case_bool_decide as Hs; [|done]. by case_bool_decide.
Qed.

(** Without the URL of the API server nothing is accepted. *)
Lemma desired_invalid a cs pool :
  sa_apiServerURL a = "" → validateProjectConfig (lb_secret (desired_secret a cs)) pool ≠ None.
Proof.
  intros Hu. unfold validateProjectConfig, first_missing. destruct (desired_fields a cs) as (Eu & _).
  set (s := lb_secret (desired_secret a cs)) in *. clearbody s. cbn [find].
  case_match; [done|]. by rewrite Eu, Hu, bool_decide_eq_true_2.
Qed.

Lemma load_balancer_type_valid cluster :
  load_balancer_type cluster = "metallb" ∨ load_balancer_type cluster = "purelb".
Proof. unfold load_balancer_type. case_bool_decide; auto. Qed.

(** C13: what is handed over is well formed, end to end.  Take a cluster, a project
    and a target network whose names are not empty.  When the cluster manager is
    done with the config secrets of the project, the downstream cluster holds a
    secret, in the namespace of the load-balancer controller and under the name
    that this controller looks up for the project, with the project's identifier
    and a client secret that the management cluster holds for the project.  It
    passes the controller's validation for every Service if the cluster manager
    was configured with the URL of the API server, and for none if that URL is
    empty, which the cluster manager does not check.  Its pool is the target
    network unless the Service asks for another one. *)
Theorem delivered_secret_accepted r cluster t project network h h' :
  let a := secret_args r cluster (Some t) project network in
  mc_Name cluster ≠ "" → mp_Name project ≠ "" → network ≠ "" →
  execs (HandleConfigSecrets a) h finished h' →
  ∃ s, holds t s h' ∧ ks_Namespace s = RancherFipLBControllerNamespace (cm_Config r) ∧
    ks_Name s = secret_name (mp_Name project) ∧
    local_holds a (sec (lb_secret s) "clientSecret") h' ∧ sec (lb_secret s) "project" = mp_Name project ∧
    ∀ svc, (validateProjectConfig (lb_secret s) (resolve_pool svc (lb_secret s)) = None ↔
        RancherFipApiServerURL (cm_Config r) ≠ "") ∧
      (svc_ann svc staticNetworkAnnotation = "" → resolve_pool svc (lb_secret s) = network).
Proof.
  intros a Hc Hp Hn Hx. destruct (wp_execs _ _ _ _ _ _ Hx (wp_HandleConfigSecrets a h)) as [[_ Hd] _].
  destruct (Hd eq_refl) as (cs & Hcs & Hl & Ht & _). exists (desired_secret a cs).
  destruct (desired_fields a cs) as (_ & -> & _ & -> & Hnet & _). split_and!; try done.
  intros svc. split; [|intros Hs; unfold resolve_pool; by rewrite Hs, bool_decide_eq_true_2].
  split; [intros Hv Hu; by apply (desired_invalid a cs _ Hu) in Hv|].
  intros Hu. apply desired_valid; [done|]. split_and!; try done. apply load_balancer_type_valid.
Qed.
End Delivered.
