(* ===== verification/Helm.v ===== *)
(** The Helm client of the cluster manager,
    [clustermanager/internal/helm/helm.go]: which operation a stored release
    needs, and the repository file and index that the workers share.

    Helm's actions, the storage records, files and locks are calls ([HelmCall]);
    what is only computed with is the class [HelmLibs].  [restClientGetter] and
    the environment of Helm hand values to the library. *)

From Stdlib Require Import Ascii.
From S2P Require Import Prelude GoStd ApiTypes Prog CmApi.

(** ** Data *)

(** A stored release: [Info] with its status, [Chart] with its [Metadata] and
    version; the pointers may be nil. *)
Record Release := mkRelease { rel_Info : option string; rel_Chart : option (option string) }.

(** A chart that was loaded. *)
Record LoadedChart := mkLoadedChart { lc_Path : string; lc_Version : string }.

(** The values of a chart are kept as the text they were parsed from. *)
Definition Values : Type := string.

Record InstallOptions := mkInstallOptions {
  io_Namespace : string; io_Version : string; io_Wait : bool; io_Timeout : time;
  io_ReleaseName : string; io_TakeOwnership : bool
}.
Record UpgradeOptions := mkUpgradeOptions {
  uo_Namespace : string; uo_Version : string; uo_Wait : bool; uo_Timeout : time;
  uo_Install : bool; uo_CleanupOnFail : bool
}.
Record UninstallOptions := mkUninstallOptions {
  no_KeepHistory : bool; no_IgnoreNotFound : bool; no_Timeout : time
}.

(** The answer of a history: [driver.ErrReleaseNotFound] may come wrapped. *)
Inductive HistoryAnswer :=
| HasHistory
| ReleaseNotFound (wrapped : bool)
| HistoryFailed (err : error).

(** The answer of loading the repository file. *)
Inductive LoadAnswer :=
| Loaded (names : list string)
| NotExist
| LoadFailed (err : error).

(** A repository, and the locks of the client. *)
Record RepoEntry := mkRepoEntry { re_Name : string; re_URL : string }.
Inductive LockId := RepoLock | IndexTable | IndexLock (name : string).

#[export] Instance LockId_eq_dec : EqDecision LockId.
Proof. solve_decision. Defined.

(** ** Calls *)

Inductive HelmCall : Type → Type :=
(* actions *)
| ActionInit (config : RESTConfig) (ns : string) : HelmCall (res unit)
| HistoryRun (release : string) (max : Z) : HelmCall HistoryAnswer
| GetRun (release : string) : HelmCall (res Release)
| InstallRun (o : InstallOptions) (chrt : LoadedChart) (vals : Values) : HelmCall (res unit)
| UpgradeRun (release : string) (o : UpgradeOptions) (chrt : LoadedChart) (vals : Values) : HelmCall (res unit)
| UninstallRun (release : string) (o : UninstallOptions) : HelmCall (res unit)
(* charts *)
| NewRegistryClient : HelmCall (res unit)
| LocateChart (name version repoURL : string) : HelmCall (res string)
| DownloadTo (name version cache : string) : HelmCall (res string)
| LoaderLoad (path : string) : HelmCall (res LoadedChart)
(* storage records: their names and their data under "release" *)
| KubeNewForConfig (config : RESTConfig) : HelmCall (res unit)
| RecordList (ns selector : string) : HelmCall (res (list (string * string)))
| RecordDelete (ns name : string) : HelmCall (res unit)
(* locks, files, the index of a repository *)
| Lock (l : LockId) : HelmCall unit
| Unlock (l : LockId) : HelmCall unit
| MkdirAll (path : string) : HelmCall (res unit)
| LoadFile (path : string) : HelmCall LoadAnswer
| CreateTemp (dir pattern : string) : HelmCall (res string)
| CloseFile (path : string) : HelmCall (res unit)
| WriteRepoFile (path : string) (names : list string) (added : RepoEntry) : HelmCall (res unit)
| Chmod (path : string) (mode : Z) : HelmCall (res unit)
| Rename (old new : string) : HelmCall (res unit)
| RemoveFile (path : string) : HelmCall unit
| ReadDir (dir : string) : HelmCall (res (list (string * bool)))      (* names, and whether directories *)
| RemoveAll (path : string) : HelmCall (res unit)
| MkdirTemp (dir prefix : string) : HelmCall (res string)
| NewChartRepository (entry : RepoEntry) (timeout : time) : HelmCall (res unit)
| DownloadIndexFile (entry : RepoEntry) (cachePath : string) : HelmCall (res string).

Class HelmLibs := {
  (* [registry.IsOCI], [yaml.Unmarshal] of values *)
  IsOCI : string → bool;
  yaml_values : string → res unit;
  (* base64, gzip, and [json.Unmarshal] of a release *)
  base64_decode : string → res string;
  gunzip : string → res string;
  unmarshal_release : string → res unit;
  (* [path/filepath], [helmpath.CacheIndexFile], the settings of [cli.New] *)
  filepath_Dir : string → string;
  filepath_Base : string → string;
  filepath_Join : string → string → string;
  CacheIndexFile : string → string;
  RepositoryConfig : string;
  RepositoryCache : string
}.

(** ** Plans *)

Inductive releaseAction := actionSkip | actionUpgrade | actionRepair.

Definition StatusUnknown : string := "unknown".
Definition StatusDeployed : string := "deployed".
Definition StatusFailed : string := "failed".

Definition planReleaseAction (status installedVersion desiredVersion : string) : releaseAction :=
  if bool_decide (status = StatusDeployed) then
    if bool_decide (installedVersion = desiredVersion) then actionSkip else actionUpgrade
  else if bool_decide (status = StatusFailed) then actionUpgrade
  else actionRepair.

Definition releaseStatusOf (rel : option Release) : string :=
  match rel with
  | Some (mkRelease (Some status) _) => status
  | _ => StatusUnknown
  end.

Definition releaseChartVersion (rel : option Release) : string :=
  match rel with
  | Some (mkRelease _ (Some (Some version))) => version
  | _ => ""
  end.

Definition second : time := 10 ^ 9.
Definition helmOperationTimeout : time := 600 * second.
Definition helmUninstallTimeout : time := 120 * second.
Definition repoIndexDownloadTimeout : time := 30 * second.

Section Helm.
Context `{HLib : HelmLibs}.
#[local] Open Scope prog_scope.

(** ** Storage records *)

Definition magicGzip : string := String "031"%char (String "139"%char (String "008"%char "")).

Definition decodeReleaseRecord (data : string) : res unit :=
  match base64_decode data with
  | Err err => Err err
  | Ok b =>
      if (3 <? Z.of_nat (String.length b)) && HasPrefix b magicGzip then
        match gunzip b with Err err => Err err | Ok b => unmarshal_release b end
      else unmarshal_release b
  end.

Definition record_selector (releaseName : string) : string := "name=" +:+ releaseName +:+ ",owner=helm".

(** Delete the records of a list that [P] selects. *)
Fixpoint purge_records (P : string → bool) (ns failed : string) (records : list (string * string))
    : Prog HelmCall (res unit) :=
  match records with
  | [] => Ret (Ok tt)
  | (name, data) :: records =>
      if negb (P data) then purge_records P ns failed records
      else
        let! d := call (RecordDelete ns name) in
        match d with
        | Err err =>
            if IsNotFound err then purge_records P ns failed records
            else Ret (Err (wrapf (failed +:+ name) err))
        | Ok _ => purge_records P ns failed records
        end
  end.

Definition purge (P : string → bool) (config : RESTConfig) (ns releaseName failed : string) : Prog HelmCall (res unit) :=
  try! _k := call (KubeNewForConfig config) else err => Ret (Err (wrapf "failed to build kube client" err)) in
  try! records := call (RecordList ns (record_selector releaseName)) else err =>
    Ret (Err (wrapf ("failed to list storage records of release " +:+ releaseName) err)) in
  purge_records P ns failed records.

Definition purgeUndecodableRecords (config : RESTConfig) (ns releaseName : string) : Prog HelmCall (res unit) :=
  purge (λ data, is_err (decodeReleaseRecord data)) config ns releaseName "failed to delete undecodable storage record ".

Definition purgeReleaseRecords (config : RESTConfig) (ns releaseName : string) : Prog HelmCall (res unit) :=
  purge (λ _, true) config ns releaseName "failed to delete storage record ".

(** ** Charts *)

Definition load_path (p : Prog HelmCall (res string)) : Prog HelmCall (res LoadedChart) :=
  try! path := p else err => Ret (Err err) in call (LoaderLoad path).

Definition loadChart (spec : ChartSpec) : Prog HelmCall (res LoadedChart) :=
  if negb (IsOCI (cs_ChartName spec)) then
    load_path (call (DownloadTo (cs_ChartName spec) (cs_Version spec) RepositoryCache))
  else
    try! _r := call NewRegistryClient else err => Ret (Err err) in
    load_path (call (LocateChart (cs_ChartName spec) (cs_Version spec) (cs_RepoURL spec))).

(** ** Installing *)

Definition install_options (spec : ChartSpec) : InstallOptions :=
  mkInstallOptions (cs_Namespace spec) (cs_Version spec) true helmOperationTimeout (cs_ReleaseName spec) true.
Definition upgrade_options (spec : ChartSpec) : UpgradeOptions :=
  mkUpgradeOptions (cs_Namespace spec) (cs_Version spec) true helmOperationTimeout true true.
Definition uninstall_options : UninstallOptions := mkUninstallOptions false true helmUninstallTimeout.

Definition installRelease (spec : ChartSpec) (chrt : LoadedChart) (vals : Values) : Prog HelmCall (res unit) :=
  try! _i := call (InstallRun (install_options spec) chrt vals) else err =>
    Ret (Err (wrapf ("failed to install release " +:+ cs_ReleaseName spec) err)) in
  Ret (Ok tt).

Definition upgradeRelease (spec : ChartSpec) (chrt : LoadedChart) (vals : Values) : Prog HelmCall (res unit) :=
  try! _u := call (UpgradeRun (cs_ReleaseName spec) (upgrade_options spec) chrt vals) else err =>
    Ret (Err (wrapf ("failed to upgrade release " +:+ cs_ReleaseName spec) err)) in
  Ret (Ok tt).

Definition repairRelease (spec : ChartSpec) (chrt : LoadedChart) (vals : Values) : Prog HelmCall (res unit) :=
  try! _u := call (UninstallRun (cs_ReleaseName spec) uninstall_options) else err =>
    Ret (Err (wrapf ("failed to purge release " +:+ cs_ReleaseName spec +:+ " during repair") err)) in
  installRelease spec chrt vals.

(** A release that could be read. *)
Definition converge (spec : ChartSpec) (chrt : LoadedChart) (vals : Values) (existing : Release)
    : Prog HelmCall (res unit) :=
  let status := releaseStatusOf (Some existing) in
  match planReleaseAction status (releaseChartVersion (Some existing)) (lc_Version chrt) with
  | actionSkip => Ret (Ok tt)
  | actionUpgrade =>
      let! u := upgradeRelease spec chrt vals in
      match u with
      | Ok _ => Ret (Ok tt)
      | Err err =>
          if negb (bool_decide (status = StatusFailed)) then Ret (Err err) else repairRelease spec chrt vals
      end
  | actionRepair => repairRelease spec chrt vals
  end.

Definition helm_InstallOrUpgrade (config : RESTConfig) (spec : ChartSpec) : Prog HelmCall (res unit) :=
  let release := cs_ReleaseName spec in
  try! _a := call (ActionInit config (cs_Namespace spec)) else err =>
    Ret (Err (wrapf ("failed to initialize action config for release " +:+ release) err)) in
  try! chrt := loadChart spec else err =>
    Ret (Err (wrapf ("failed to load chart " +:+ cs_ChartName spec +:+ " version " +:+ cs_Version spec) err)) in
  match yaml_values (cs_Values spec) with
  | Err err => Ret (Err (wrapf ("failed to parse values for release " +:+ release) err))
  | Ok _ =>
      let vals := cs_Values spec in
      try! _p := purgeUndecodableRecords config (cs_Namespace spec) release else err =>
        Ret (Err (wrapf ("failed to sanitize storage records of release " +:+ release) err)) in
      let! history := call (HistoryRun release 1) in
      match history with
      | ReleaseNotFound _ => installRelease spec chrt vals
      | HistoryFailed err => Ret (Err (wrapf ("failed to check history of release " +:+ release) err))
      | HasHistory =>
          let! g := call (GetRun release) in
          match g with
          | Err _ =>
              try! _p := purgeReleaseRecords config (cs_Namespace spec) release else err =>
                Ret (Err (wrapf ("failed to purge unreadable release " +:+ release) err)) in
              installRelease spec chrt vals
          | Ok existing => converge spec chrt vals existing
          end
      end
  end.

Definition helm_CheckIfChartIsInstalled (config : RESTConfig) (releaseName ns : string) : Prog HelmCall (res bool) :=
  if bool_decide (releaseName = "") then Ret (Err (errorf "release name cannot be empty"))
  else if bool_decide (ns = "") then Ret (Err (errorf "namespace cannot be empty"))
  else
    try! _a := call (ActionInit config ns) else err => Ret (Err (wrapf "failed to initialize action config" err)) in
    let! history := call (HistoryRun releaseName 1) in
    Ret (match history with
         | HasHistory => Ok true
         | ReleaseNotFound false => Ok false
         | ReleaseNotFound true => Err (errorf "failed to check if the release is installed: release: not found")
         | HistoryFailed err => Err (wrapf "failed to check if the release is installed" err)
         end).

(** ** Repositories *)

(** A lock around a part of the program. *)
Definition locked {A} (l : LockId) (p : Prog HelmCall A) : Prog HelmCall A :=
  call (Lock l) ;;; let! a := p in call (Unlock l) ;;; Ret a.

(** A call after a part of the program, whatever came of it. *)
Definition finally {A} (c : HelmCall unit) (p : Prog HelmCall A) : Prog HelmCall A :=
  let! a := p in call c ;;; Ret a.

(** The table of locks only grows, so a name has one lock. *)
Definition indexLockFor (name : string) : Prog HelmCall LockId := locked IndexTable (Ret (IndexLock name)).

(** Write the file next to its place and move it there. *)
Definition replace_repo_file (repoFile tmpName : string) (names : list string) (entry : RepoEntry)
    : Prog HelmCall (res unit) :=
  try! _c := call (CloseFile tmpName) else err => Ret (Err err) in
  try! _w := call (WriteRepoFile tmpName names entry) else err => Ret (Err err) in
  try! _m := call (Chmod tmpName 420) else err => Ret (Err err) in
  call (Rename tmpName repoFile).

Definition updateRepoFile (repoFile : string) (entry : RepoEntry) : Prog HelmCall (res unit) :=
  try! _d := call (MkdirAll (filepath_Dir repoFile)) else err => Ret (Err err) in
  let! l := call (LoadFile repoFile) in
  match l with
  | LoadFailed err => Ret (Err err)
  | Loaded _ | NotExist =>
      let names := match l with Loaded names => names | _ => [] end in
      if containsString names (re_Name entry) then Ret (Ok tt)
      else
        try! tmpName := call (CreateTemp (filepath_Dir repoFile) (filepath_Base repoFile +:+ ".tmp-")) else err =>
          Ret (Err err) in
        finally (RemoveFile tmpName) (replace_repo_file repoFile tmpName names entry)
  end.

Definition tempPrefix (name : string) : string := ".index-download-" +:+ ReplaceByte name "*"%char "_"%char +:+ "-".

(** Directories that a killed download left behind. *)
Fixpoint sweep_downloads (cacheDir prefix : string) (entries : list (string * bool)) : Prog HelmCall (res unit) :=
  match entries with
  | [] => Ret (Ok tt)
  | (name, isDir) :: entries =>
      if negb isDir || negb (HasPrefix name prefix) then sweep_downloads cacheDir prefix entries
      else
        try! _r := call (RemoveAll (filepath_Join cacheDir name)) else err =>
          Ret (Err (wrapf ("failed to remove stale index download dir " +:+ name) err)) in
        sweep_downloads cacheDir prefix entries
  end.

(** Download the index into a directory of its own, and move it into the cache. *)
Definition fetch_index (entry : RepoEntry) (cacheDir tmpCache : string) : Prog HelmCall (res unit) :=
  try! indexFile := call (DownloadIndexFile entry tmpCache) else err =>
    Ret (Err (wrapf ("looks like " +:+ re_URL entry +:+ " is not a valid chart repository or cannot be reached") err)) in
  try! _r := call (Rename indexFile (filepath_Join cacheDir (CacheIndexFile (re_Name entry)))) else err =>
    Ret (Err (wrapf ("failed to move the downloaded index for " +:+ re_URL entry) err)) in
  Ret (Ok tt).

Definition refresh_index (entry : RepoEntry) (cacheDir : string) : Prog HelmCall (res unit) :=
  let prefix := tempPrefix (re_Name entry) in
  try! entries := call (ReadDir cacheDir) else err => Ret (Err err) in
  try! _s := sweep_downloads cacheDir prefix entries else err => Ret (Err err) in
  try! tmpCache := call (MkdirTemp cacheDir prefix) else err => Ret (Err err) in
  let! a := fetch_index entry cacheDir tmpCache in
  let! _r := call (RemoveAll tmpCache) in
  Ret a.

Definition helm_AddOrUpdateChartRepo (entry : RepoEntry) : Prog HelmCall (res unit) :=
  try! _f := locked RepoLock (updateRepoFile RepositoryConfig entry) else err => Ret (Err err) in
  try! _c := call (NewChartRepository entry repoIndexDownloadTimeout) else err => Ret (Err err) in
  try! _m := call (MkdirAll RepositoryCache) else err => Ret (Err err) in
  let! indexLock := indexLockFor (re_Name entry) in
  locked indexLock (refresh_index entry RepositoryCache).
End Helm.
