(* ===== verification/HelmCorrect.v ===== *)
(** What the Helm client may do to a stored release, what it has reached when it
    reports no error, and how it holds its locks. *)

From S2P Require Import Prelude GoStd ApiTypes Prog CmApi Helm.

Section Helm.
Context `{HLib : HelmLibs}.
Notation any := (λ _ _, True).

Section Install.
Context (config : RESTConfig) (spec : ChartSpec).
Notation release := (cs_ReleaseName spec).
Notation ns := (cs_Namespace spec).
Notation selector := (record_selector release).

(** ** What the history shows *)

(** The chart was loaded. *)
Definition loaded (chrt : LoadedChart) (h : History HelmCall) : Prop :=
  ∃ path, mkEv (LoaderLoad path) (Ok chrt) ∈ h.

(** The stored release was read, with this status. *)
Definition stored (existing : Release) (h : History HelmCall) : Prop := mkEv (GetRun release) (Ok existing) ∈ h.
Definition status_of (existing : Release) : string := releaseStatusOf (Some existing).
Definition version_of (existing : Release) : string := releaseChartVersion (Some existing).

(** The release is in the history, but it cannot be read. *)
Definition unreadable (h : History HelmCall) : Prop :=
  mkEv (HistoryRun release 1) HasHistory ∈ h ∧ asked (GetRun release) h (λ a, is_err a = true).

(** All of its records are deleted. *)
Definition purged (h : History HelmCall) : Prop :=
  ∃ records, mkEv (RecordList ns selector) (Ok records) ∈ h ∧
    ∀ name data, (name, data) ∈ records → asked (RecordDelete ns name) h gone.

Definition upgrade_failed (h : History HelmCall) : Prop :=
  ∃ o chrt vals, asked (UpgradeRun release o chrt vals) h (λ a, is_err a = true).

(** ** What may be done *)

Definition install_guard (h : History HelmCall) (R : Type) (c : HelmCall R) : Prop :=
  match c with
  | RecordDelete ns' name => ns' = ns ∧ ∃ records data,
      mkEv (RecordList ns selector) (Ok records) ∈ h ∧ (name, data) ∈ records ∧
      (is_err (decodeReleaseRecord data) = true ∨ unreadable h)
  | UninstallRun rel o => rel = release ∧ o = uninstall_options ∧ ∃ existing, stored existing h ∧
      status_of existing ≠ StatusDeployed ∧ (status_of existing = StatusFailed → upgrade_failed h)
  | UpgradeRun rel o chrt vals => rel = release ∧ o = upgrade_options spec ∧ vals = cs_Values spec ∧ loaded chrt h ∧
      ∃ existing, stored existing h ∧
        (status_of existing = StatusFailed ∨ status_of existing = StatusDeployed ∧ version_of existing ≠ lc_Version chrt)
  | InstallRun o chrt vals => o = install_options spec ∧ vals = cs_Values spec ∧ loaded chrt h ∧
      (asked (HistoryRun release 1) h (λ a, ∃ w, a = ReleaseNotFound w) ∨
       unreadable h ∧ purged h ∨
       asked (UninstallRun release uninstall_options) h (λ a, a = Ok tt) ∧
         ∃ existing, stored existing h ∧ status_of existing ≠ StatusDeployed)
  | Lock _ | Unlock _ | MkdirAll _ | CreateTemp _ _ | CloseFile _ | WriteRepoFile _ _ _ | Chmod _ _ | Rename _ _
  | RemoveFile _ | RemoveAll _ | MkdirTemp _ _ | DownloadIndexFile _ _ => False
  | _ => True
  end.

(** The desired chart is what is deployed. *)
Definition converged (h : History HelmCall) : Prop :=
  ∃ chrt, loaded chrt h ∧
    ((∃ existing, stored existing h ∧ status_of existing = StatusDeployed ∧ version_of existing = lc_Version chrt) ∨
     mkEv (InstallRun (install_options spec) chrt (cs_Values spec)) (Ok tt) ∈ h ∨
     mkEv (UpgradeRun release (upgrade_options spec) chrt (cs_Values spec)) (Ok tt) ∈ h).

Notation G := install_guard.
Ltac rcall := apply wp_call_then; [done|].

Lemma loaded_extends chrt h h' : extends h h' → loaded chrt h → loaded chrt h'.
Proof. intros Hh (path & ?). exists path. by eapply elem_extends. Qed.
Lemma stored_extends existing h h' : extends h h' → stored existing h → stored existing h'.
Proof. intros. by eapply elem_extends. Qed.
Lemma unreadable_extends h h' : extends h h' → unreadable h → unreadable h'.
Proof. intros Hh [? ?]. split; [by eapply elem_extends | by eapply asked_extends]. Qed.

Lemma wp_loadChart h :
  wp G (loadChart spec) (λ x h', match x with Ok chrt => loaded chrt h' | Err _ => True end) h.
Proof.
  assert (∀ c : HelmCall (res string), (∀ h, G h _ c) → ∀ h,
    wp G (load_path (call c)) (λ x h', match x with Ok chrt => loaded chrt h' | Err _ => True end) h) as Hp.
  { intros c Hc h'. unfold load_path. apply wp_call_then; [apply Hc|]. intros [path|e]; [|done]. apply wp_call; [done|].
    intros [chrt|e]; [|done]. exists path. by left. }
  unfold loadChart. destruct (negb (IsOCI (cs_ChartName spec))); [by apply Hp|]. rcall. intros [[]|e]; [by apply Hp | done].
Qed.

(** Deleting the selected records of a list. *)
Lemma wp_purge_records P failed records : ∀ items h,
  items ⊆ records → mkEv (RecordList ns selector) (Ok records) ∈ h →
  (∀ data, P data = true → is_err (decodeReleaseRecord data) = true ∨ unreadable h) →
  wp G (purge_records P ns failed items) (λ x h', x = Ok tt →
    ∀ name data, (name, data) ∈ items → P data = true → asked (RecordDelete ns name) h' gone) h.
Proof.
  induction items as [|[n d] items IH]; intros h Hsub Hl HP; cbn [purge_records].
  { intros _ name data Hd. by apply elem_of_nil in Hd. }
  assert (∀ ev, wp G (purge_records P ns failed items) (λ x h', x = Ok tt → ∀ name data, (name, data) ∈ items →
    P data = true → asked (RecordDelete ns name) h' gone) (ev :: h)) as Hrest.
  { intros ev. apply IH; [set_solver | by right|]. intros data Hd. destruct (HP data Hd); [by left | right].
    by eapply unreadable_extends; [apply extends_cons|]. }
  destruct (P d) eqn:Hd; cbn [negb].
  - apply wp_call_then.
    { split; [done|]. exists records, d. split_and!; [done | set_solver | by apply HP]. }
    assert (∀ ans, gone ans → wp G (purge_records P ns failed items) (λ x h', x = Ok tt → ∀ name data,
      (name, data) ∈ (n, d) :: items → P data = true → asked (RecordDelete ns name) h' gone)
      (mkEv (RecordDelete ns n) ans :: h)) as Hgone.
    { intros ans Ha. eapply wp_post; [apply Hrest|]. intros x h' Hx Hh Hok name data [[= -> ->] | Hin]%elem_of_cons Hp.
      - eapply asked_extends; [done|]. by apply asked_cons.
      - by eapply Hx. }
    intros [[]|e]; [apply Hgone; by left|]. destruct (IsNotFound e) eqn:He; [apply Hgone; right; by exists e | done].
  - eapply wp_post; [apply IH; [set_solver | done..]|]. intros x h' Hx _ Hok name data [[= -> ->] | Hin]%elem_of_cons Hp.
    + congruence.
    + by eapply Hx.
Qed.

Lemma wp_purge P failed h :
  (∀ data, P data = true → is_err (decodeReleaseRecord data) = true ∨ unreadable h) →
  wp G (purge P config ns release failed) (λ x h', x = Ok tt → (∀ data, P data = true) → purged h') h.
Proof.
  intros HP. unfold purge. rcall. intros [[]|e]; [|done]. rcall. intros [records|e]; [|done].
  eapply wp_post; [apply (wp_purge_records P _ records records); [done | by left|]|].
  - intros data Hd. destruct (HP data Hd) as [? | Hu]; [by left | right].
    eapply unreadable_extends; [|done]. by do 2 apply extends_cons.
  - intros x h' Hx Hh Hok Hall. exists records. split; [eapply elem_extends; [by left | done]|].
    intros name data Hin. by eapply Hx.
Qed.

Section Loaded.
Context (chrt : LoadedChart).

Lemma wp_installRelease h :
  loaded chrt h →
  asked (HistoryRun release 1) h (λ a, ∃ w, a = ReleaseNotFound w) ∨ unreadable h ∧ purged h ∨
    asked (UninstallRun release uninstall_options) h (λ a, a = Ok tt) ∧
      (∃ existing, stored existing h ∧ status_of existing ≠ StatusDeployed) →
  wp G (installRelease spec chrt (cs_Values spec)) (λ x h', x = Ok tt → converged h') h.
Proof.
  intros Hl Hw. unfold installRelease. apply wp_call_then; [done|]. intros [[]|e]; [|done]. apply wp_ret. intros _.
  exists chrt. split; [eapply loaded_extends; [|done]; by apply extends_cons|]. right. left. by left.
Qed.

Lemma wp_repairRelease existing h :
  loaded chrt h → stored existing h → status_of existing ≠ StatusDeployed →
  (status_of existing = StatusFailed → upgrade_failed h) →
  wp G (repairRelease spec chrt (cs_Values spec)) (λ x h', x = Ok tt → converged h') h.
Proof.
  intros Hl Hs Hd Hf. unfold repairRelease. apply wp_call_then; [split; [done|]; split; [done|]; by exists existing|].
  intros [[]|e]; [|done]. apply wp_installRelease; [eapply loaded_extends; [|done]; by apply extends_cons|]. right. right.
  split; [by apply asked_cons|]. exists existing. split; [|done]. eapply stored_extends; [|done]. by apply extends_cons.
Qed.

Lemma wp_converge existing h :
  loaded chrt h → stored existing h →
  wp G (converge spec chrt (cs_Values spec) existing) (λ x h', x = Ok tt → converged h') h.
Proof.
  intros Hl Hs. unfold converge, planReleaseAction. fold (status_of existing) (version_of existing).
  assert (status_of existing = StatusFailed ∨ status_of existing = StatusDeployed ∧ version_of existing ≠ lc_Version chrt →
    wp G (pbind (upgradeRelease spec chrt (cs_Values spec)) (λ u, match u with Ok _ => Ret (Ok tt) | Err err =>
      if negb (bool_decide (status_of existing = StatusFailed)) then Ret (Err err)
      else repairRelease spec chrt (cs_Values spec) end)) (λ x h', x = Ok tt → converged h') h) as Hup.
  { intros Hst. unfold upgradeRelease.
    apply wp_call_then; [split_and!; [done..|]; by exists existing|].
    intros [[]|e]; cbn [pbind].
    - apply wp_ret. intros _. exists chrt. split; [eapply loaded_extends; [|done]; by apply extends_cons|].
      right. right. by left.
    - case_bool_decide as Hf; cbn [negb]; [|done].
      apply (wp_repairRelease existing); [eapply loaded_extends; [|done] | eapply stored_extends; [|done] | by rewrite Hf |];
        try by apply extends_cons.
      intros _. eexists _, _, _. by apply asked_cons. }
  destruct (decide (status_of existing = StatusDeployed)) as [Hd|Hd].
  - rewrite (bool_decide_eq_true_2 _ Hd). destruct (decide (version_of existing = lc_Version chrt)) as [Hv|Hv].
    + rewrite (bool_decide_eq_true_2 _ Hv). intros _. exists chrt. split; [done|]. left. by exists existing.
    + rewrite (bool_decide_eq_false_2 _ Hv). apply Hup. by right.
  - rewrite (bool_decide_eq_false_2 _ Hd). destruct (decide (status_of existing = StatusFailed)) as [Hf|Hf].
    + rewrite (bool_decide_eq_true_2 _ Hf) in Hup |- *. apply Hup. by left.
    + rewrite (bool_decide_eq_false_2 _ Hf). by apply (wp_repairRelease existing).
Qed.
End Loaded.

Lemma wp_InstallOrUpgrade h :
  wp G (helm_InstallOrUpgrade config spec) (λ x h', x = Ok tt → converged h') h.
Proof.
  unfold helm_InstallOrUpgrade. rcall. intros [[]|e]; [|done].
  eapply wp_seq; [apply wp_loadChart|]. intros [chrt|e] h1 Hl Hh1; [|done].
  destruct (yaml_values _) as [[]|e]; [|done].
  eapply wp_seq; [apply wp_purge; intros data Hd; by left|]. intros [[]|e] h2 _ Hh2; [|done].
  assert (loaded chrt h2) as Hl2 by by eapply loaded_extends.
  rcall. intros [|w|e]; [|apply wp_installRelease | done].
  - rcall. intros [existing|e].
    + apply wp_converge; [|by left]. eapply loaded_extends; [|done]. by do 2 apply extends_cons.
    + set (h3 := _ :: _ :: h2). assert (unreadable h3) as Hu by (split; [right; by left | by apply asked_cons]).
      assert (loaded chrt h3) as Hl3 by (eapply loaded_extends; [|done]; by do 2 apply extends_cons). clearbody h3.
      eapply wp_seq; [apply wp_purge; intros data Hd; by right|]. intros [[]|e'] h4 Hp Hh4; [|done].
      apply wp_installRelease; [by eapply loaded_extends|]. right. left. split; [by eapply unreadable_extends | by apply Hp].
  - eapply loaded_extends; [|done]. by apply extends_cons.
  - left. apply asked_cons. by exists w.
Qed.

(** C16: a Helm release converges.  A release that is deployed is never
    uninstalled; a failed one only after an upgrade in place has failed; the
    chart is installed only over no release, over one that was uninstalled, or
    over one whose records could not be read and were all deleted; a storage
    record is deleted only if it cannot be decoded or its release cannot be read.
    When no error is reported, the chart that was loaded is deployed: the stored
    release said so, or the install or the upgrade succeeded. *)
Theorem release_converges h x h' :
  execs (helm_InstallOrUpgrade config spec) h x h' → obeys install_guard h h' ∧ (x = Ok tt → converged h').
Proof. intros Hx. destruct (wp_execs _ _ _ _ _ _ Hx (wp_InstallOrUpgrade h)). done. Qed.
End Install.

(** ** The locks *)

(** The locks that are held after a history. *)
Definition held_after {R} (c : HelmCall R) (l : list LockId) : list LockId :=
  match c with
  | Lock k => k :: l
  | Unlock k => filter (λ k', k' ≠ k) l
  | _ => l
  end.
Fixpoint held (h : History HelmCall) : list LockId :=
  match h with [] => [] | ev :: h => held_after (ev_c ev) (held h) end.

(** What was done since a lock was last taken or released. *)
Definition is_lock {R} (c : HelmCall R) : bool :=
  match c with Lock _ | Unlock _ => true | _ => false end.
Fixpoint since (h : History HelmCall) : History HelmCall :=
  match h with [] => [] | ev :: h => if is_lock (ev_c ev) then [] else ev :: since h end.

(** No lock was taken or released in between. *)
Definition same_hold (h h' : History HelmCall) : Prop := extends (since h) (since h').

#[local] Instance same_hold_preorder : PreOrder same_hold.
Proof. split; [intros h; unfold same_hold; reflexivity|]. intros h1 h2 h3. unfold same_hold. by etrans. Qed.

Lemma same_hold_cons h h' ev : same_hold h h' → is_lock (ev_c ev) = false → same_hold h (ev :: h').
Proof. unfold same_hold. intros ? Hl. cbn [since]. rewrite Hl. by apply extends_cons. Qed.

Lemma since_elem ev h h' : ev ∈ since h → same_hold h h' → ev ∈ since h'.
Proof. intros Hev Hh. by eapply elem_extends. Qed.

Lemma since_incl ev h : ev ∈ since h → ev ∈ h.
Proof.
  induction h as [|e h IH]; cbn [since]; [done|]. destruct (is_lock _); [by intros ?%not_elem_of_nil|].
  intros [->|?]%elem_of_cons; [by left | right; auto].
Qed.

Section Repo.
Context (entry : RepoEntry).
Notation index := (IndexLock (re_Name entry)).
Notation prefix := (tempPrefix (re_Name entry)).
Notation index_file := (filepath_Join RepositoryCache (CacheIndexFile (re_Name entry))).

(** The repositories of the file, without the new one. *)
Definition read_without (names : list string) (h : History HelmCall) : Prop :=
  (mkEv (LoadFile RepositoryConfig) (Loaded names) ∈ h ∨ mkEv (LoadFile RepositoryConfig) NotExist ∈ h ∧ names = []) ∧
  containsString names (re_Name entry) = false.

(** A directory that an earlier download of this repository left, or the one of
    this download. *)
Definition own_directory (path : string) (h : History HelmCall) : Prop :=
  mkEv (MkdirTemp RepositoryCache prefix) (Ok path) ∈ h ∨
  ∃ entries name, mkEv (ReadDir RepositoryCache) (Ok entries) ∈ h ∧ (name, true) ∈ entries ∧
    HasPrefix name prefix = true ∧ path = filepath_Join RepositoryCache name.

Definition repo_guard (h : History HelmCall) (R : Type) (c : HelmCall R) : Prop :=
  match c with
  | Lock l => held h = [] ∧ (l = RepoLock ∨ l = IndexTable ∨ l = index)
  | Unlock l => held h = [l]
  | MkdirAll _ => True
  | LoadFile _ | CreateTemp _ _ => held h = [RepoLock]
  | CloseFile path | Chmod path _ | RemoveFile path =>
      held h = [RepoLock] ∧ ∃ dir pattern, mkEv (CreateTemp dir pattern) (Ok path) ∈ since h
  | WriteRepoFile path names added =>
      held h = [RepoLock] ∧ (∃ dir pattern, mkEv (CreateTemp dir pattern) (Ok path) ∈ since h) ∧
      read_without names (since h) ∧ added = entry
  | Rename old new =>
      (held h = [RepoLock] ∧ new = RepositoryConfig ∧
         ∃ names, mkEv (WriteRepoFile old names entry) (Ok tt) ∈ since h ∧ read_without names (since h)) ∨
      (held h = [index] ∧ new = index_file ∧ ∃ dir, mkEv (DownloadIndexFile entry dir) (Ok old) ∈ since h)
  | NewChartRepository e t => held h = [] ∧ e = entry ∧ t = repoIndexDownloadTimeout
  | ReadDir _ | MkdirTemp _ _ => held h = [index]
  | DownloadIndexFile e dir => held h = [index] ∧ e = entry ∧ mkEv (MkdirTemp RepositoryCache prefix) (Ok dir) ∈ since h
  | RemoveAll path => held h = [index] ∧ own_directory path (since h)
  | _ => False
  end.

(** The repository is in the file: it was there, or a file with it was moved
    into its place. *)
Definition listed (h : History HelmCall) : Prop :=
  (∃ names, mkEv (LoadFile RepositoryConfig) (Loaded names) ∈ h ∧ containsString names (re_Name entry) = true) ∨
  ∃ tmp names, mkEv (WriteRepoFile tmp names entry) (Ok tt) ∈ h ∧ mkEv (Rename tmp RepositoryConfig) (Ok tt) ∈ h.

(** Its index was downloaded and moved into the cache. *)
Definition indexed (h : History HelmCall) : Prop :=
  ∃ dir file, mkEv (DownloadIndexFile entry dir) (Ok file) ∈ h ∧ mkEv (Rename file index_file) (Ok tt) ∈ h.

Notation G := repo_guard.

Lemma listed_extends h h' : extends h h' → listed h → listed h'.
Proof.
  intros Hh [(ns & ? & ?) | (t & ns & ? & ?)]; [left; exists ns | right; exists t, ns];
    (split; [by eapply elem_extends | done || by eapply elem_extends]).
Qed.
Lemma own_extends path h h' : extends h h' → own_directory path h → own_directory path h'.
Proof.
  intros Hh [? | (es & n & ? & ?)]; [left; by eapply elem_extends|]. right. exists es, n. split; [by eapply elem_extends | done].
Qed.

Lemma wp_locked {A} l (p : Prog HelmCall A) (Q : A → History HelmCall → Prop) h :
  held h = [] → (l = RepoLock ∨ l = IndexTable ∨ l = index) →
  wp G p (λ a h', held h' = [l] ∧ Q a (mkEv (Unlock l) tt :: h')) (mkEv (Lock l) tt :: h) →
  wp G (locked l p) (λ a h', held h' = [] ∧ Q a h') h.
Proof.
  intros Hh Hl Hp. unfold locked. apply wp_call_then; [done|]. intros []. apply wp_bind.
  eapply wp_weaken; [exact Hp | done|]. intros a h' [Hh' HQ]. apply wp_call_then; [done|]. intros []. apply wp_ret.
  split; [|done]. simpl. rewrite Hh', filter_cons_False, filter_nil by (intros Hx; by apply Hx). done.
Qed.

Lemma read_without_extends names h h' : extends h h' → read_without names h → read_without names h'.
Proof.
  intros Hh [[?|[? ->]] ?]; (split; [|done]); [left | right]; [by eapply elem_extends|].
  split; [by eapply elem_extends | done].
Qed.

(** The lock [l] is still held, and was held all the time since [h]. *)
Definition still (l : LockId) (h h' : History HelmCall) : Prop := held h' = [l] ∧ same_hold h h'.

Lemma still_cons l h h' ev : still l h h' → is_lock (ev_c ev) = false → still l h (ev :: h').
Proof.
  intros [Hh Hs] Hl. split; [|by apply same_hold_cons]. cbn [held]. rewrite Hh. by destruct (ev_c ev).
Qed.
Lemma still_refl l h : held h = [l] → still l h h.
Proof. by split. Qed.
Lemma still_trans l h1 h2 h3 : still l h1 h2 → still l h2 h3 → still l h1 h3.
Proof. intros [_ ?] [? ?]. split; [done | by etrans]. Qed.
#[local] Hint Resolve still_refl : core.
#[local] Hint Extern 1 (still _ _ (_ :: _)) => apply still_cons; [|done] : core.

Ltac failed := apply wp_ret; split; [by eauto 10 | done].

Lemma wp_replace_repo_file tmp names h :
  held h = [RepoLock] → (∃ dir pattern, mkEv (CreateTemp dir pattern) (Ok tmp) ∈ since h) → read_without names (since h) →
  wp G (replace_repo_file RepositoryConfig tmp names entry)
    (λ x h', still RepoLock h h' ∧ (x = Ok tt → listed h')) h.
Proof.
  intros Hh (dir & pattern & Ht) Hr. unfold replace_repo_file.
  apply wp_call_then; [split; [done|]; by exists dir, pattern|]. intros [[]|e]; [|failed].
  apply wp_call_then.
  { split; [done|]. split; [exists dir, pattern; by right|]. split; [|done].
    eapply read_without_extends; [|done]. by apply extends_cons. }
  intros [[]|e]; [|failed].
  apply wp_call_then; [split; [done|]; exists dir, pattern; by do 2 right|]. intros [[]|e]; [|failed].
  apply wp_call.
  { left. split; [done|]. split; [done|]. exists names. split; [right; by left|].
    eapply read_without_extends; [|exact Hr]. by do 3 apply extends_cons. }
  intros x. split; [by eauto 10|]. intros ->. right. exists tmp, names. split; [right; right; by left | by left].
Qed.

Lemma wp_updateRepoFile h :
  held h = [RepoLock] →
  wp G (updateRepoFile RepositoryConfig entry) (λ x h', held h' = [RepoLock] ∧ (x = Ok tt → listed h')) h.
Proof.
  intros Hh. unfold updateRepoFile. apply wp_call_then; [done|]. intros [[]|e]; [|done].
  apply wp_call_then; [done|]. intros l. set (h1 := _ :: _ :: h). assert (held h1 = [RepoLock]) as Hh1 by done.
  assert (mkEv (LoadFile RepositoryConfig) l ∈ since h1) as Hl by by left. clearbody h1.
  assert (∀ names, (l = Loaded names ∨ l = NotExist ∧ names = []) → containsString names (re_Name entry) = false →
    wp G (pbind (call (CreateTemp (filepath_Dir RepositoryConfig) (filepath_Base RepositoryConfig +:+ ".tmp-"))) (λ r,
      match r with Ok tmpName => finally (RemoveFile tmpName) (replace_repo_file RepositoryConfig tmpName names entry)
      | Err err => Ret (Err err) end)) (λ x h', held h' = [RepoLock] ∧ (x = Ok tt → listed h')) h1) as Hnew.
  { intros names Hn Hc. apply wp_call_then; [done|]. intros [tmp|e]; [|done]. unfold finally.
    eapply wp_seq; [apply wp_replace_repo_file; [done | by eexists _, _; left |]|].
    - split; [|done]. destruct Hn as [-> | [-> ->]]; [left; by right | right; split; [by right | done]].
    - intros x h2 [[Hh2 Hs] Hx] He.
      apply wp_call_then; [split; [done|]; eexists _, _; eapply since_elem; [|exact Hs]; by left|].
      intros []. apply wp_ret. split; [done|]. intros Hok. eapply listed_extends; [|by apply Hx]. by apply extends_cons. }
  destruct l as [names| |e]; [| by apply (Hnew []); [right|] | done].
  destruct (containsString names (re_Name entry)) eqn:Hc; [|apply Hnew; [by left | done]].
  apply wp_ret. split; [done|]. intros _. left. exists names. split; [by apply since_incl | done].
Qed.

Lemma wp_sweep_downloads entries : ∀ items h,
  items ⊆ entries → held h = [index] → mkEv (ReadDir RepositoryCache) (Ok entries) ∈ since h →
  wp G (sweep_downloads RepositoryCache prefix items) (λ _ h', still index h h') h.
Proof.
  induction items as [|[n d] items IH]; intros h Hsub Hh Hr; cbn [sweep_downloads]; [by apply wp_ret; auto|].
  destruct d; cbn [negb orb]; [|apply IH; [set_solver | done..]].
  destruct (HasPrefix n prefix) eqn:Hp; cbn [negb]; [|apply IH; [set_solver | done..]].
  apply wp_call_then.
  { split; [done|]. right. exists entries, n. split_and!; [done | set_solver | done..]. }
  intros [[]|e]; [|apply wp_ret; auto].
  eapply wp_weaken; [apply IH; [set_solver | done | by right] | done|].
  intros x h' Hx. eapply still_trans; [|exact Hx]. auto.
Qed.

Lemma wp_fetch_index tmp h :
  held h = [index] → mkEv (MkdirTemp RepositoryCache prefix) (Ok tmp) ∈ since h →
  wp G (fetch_index entry RepositoryCache tmp) (λ x h', still index h h' ∧ (x = Ok tt → indexed h')) h.
Proof.
  intros Hh Ht. unfold fetch_index. apply wp_call_then; [done|]. intros [file|e]; [|failed].
  apply wp_call_then; [right; split; [done|]; split; [done|]; exists tmp; by left|].
  intros [[]|e]; [|failed]. apply wp_ret. split; [by eauto 10|]. intros _. exists tmp, file. split; [right; by left | by left].
Qed.

Lemma wp_refresh_index h :
  held h = [index] →
  wp G (refresh_index entry RepositoryCache) (λ x h', held h' = [index] ∧ (x = Ok tt → indexed h')) h.
Proof.
  intros Hh. unfold refresh_index. apply wp_call_then; [done|]. intros [entries|e]; [|done].
  eapply wp_seq; [apply (wp_sweep_downloads entries); [done | done | by left]|]. intros [[]|e] h1 [Hh1 Hs1] He1; [|done].
  apply wp_call_then; [done|]. intros [tmp|e]; [|done].
  eapply wp_seq; [apply wp_fetch_index; [done | by left]|].
  intros x h2 [[Hh2 Hs2] Hx] He2. apply wp_call_then; [split; [done|]; left; eapply since_elem; [|exact Hs2]; by left|].
  intros r. apply wp_ret. split; [done|]. intros Hok. destruct (Hx Hok) as (dir & file & ? & ?).
  exists dir, file. by split; right.
Qed.

Lemma wp_AddOrUpdateChartRepo h :
  held h = [] →
  wp G (helm_AddOrUpdateChartRepo entry) (λ x h', held h' = [] ∧ (x = Ok tt → listed h' ∧ indexed h')) h.
Proof.
  intros Hh. unfold helm_AddOrUpdateChartRepo.
  eapply wp_seq; [apply (wp_locked _ _ (λ x h', x = Ok tt → listed h')); [done | by left|]|].
  { eapply wp_weaken; [apply wp_updateRepoFile; simpl; by rewrite Hh | done|]. intros x h' [Hh' Hx]. split; [done|].
    intros Hok. eapply listed_extends; [|by apply Hx]. by apply extends_cons. }
  intros [[]|e] h1 [Hh1 Hl] _; [|done]. specialize (Hl eq_refl).
  apply wp_call_then; [done|]. intros [[]|e]; [|done]. apply wp_call_then; [done|]. intros [[]|e]; [|done].
  set (h2 := _ :: _ :: h1). assert (held h2 = []) as Hh2 by done.
  assert (listed h2) as Hl2 by (eapply listed_extends; [|done]; by do 2 apply extends_cons). clearbody h2.
  eapply wp_seq; [apply (wp_locked _ _ (λ l _, l = index)); [done | by right; left|]|].
  { apply wp_ret. simpl. by rewrite Hh2. }
  intros l h3 [Hh3 ->] He3.
  eapply wp_post; [apply (wp_locked _ _ (λ x h', x = Ok tt → indexed h')); [done | by right; right|]|].
  { eapply wp_weaken; [apply wp_refresh_index; simpl; by rewrite Hh3 | done|]. intros x h' [Hh' Hx]. split; [done|].
    intros Hok. destruct (Hx Hok) as (dir & file & ? & ?). exists dir, file. by split; right. }
  intros x h4 [Hh4 Hx] He4. split; [done|]. intros Hok. split; [|by apply Hx].
  eapply listed_extends; [|done]. by etrans.
Qed.

End Repo.
End Helm.
