(* ===== verification/CmDemo.v ===== *)
(** The cluster manager at concrete inputs: its Helm client against a cluster with
    one release in memory, then the manager against a management cluster, a guest
    cluster and a Harvester cluster. *)

From S2P Require Import Prelude Prog GoStd ApiTypes ServiceLabels LbApi LbReconcile LbDemo CmApi CmHandlers CmSecretsCorrect CmProvisioning CmProvisioningCorrect CmQuota CmQuotaCorrect CmCleanupCorrect CmDelivered Helm HelmCorrect.

#[local] Instance demo_helm : HelmLibs := {|
  IsOCI := λ s, HasPrefix s "oci://";
  yaml_values := λ _, Ok tt;
  base64_decode := λ s, if bool_decide (s = "?") then Err (errorf "illegal base64 data") else Ok s;
  gunzip := Ok;
  unmarshal_release := λ _, Ok tt;
  filepath_Dir := λ p, p +:+ "/..";
  filepath_Base := λ p, p;
  filepath_Join := λ a b, a +:+ "/" +:+ b;
  CacheIndexFile := λ n, n +:+ "-index.yaml";
  RepositoryConfig := "/helm/repositories.yaml";
  RepositoryCache := "/helm/cache"
|}.

(** The stored release, its records, and whether an upgrade succeeds. *)
Record HelmWorld := mkHelmWorld {
  hw_release : option Release; hw_records : list (string * string); hw_upgrades : bool
}.

Definition deployed (version : string) : Release := mkRelease (Some StatusDeployed) (Some (Some version)).

Definition helm_handle : Handler HelmCall HelmWorld := λ R c,
  match c in HelmCall R return HelmWorld → R * HelmWorld with
  | ActionInit _ _ => λ w, (Ok tt, w)
  | HistoryRun _ _ => λ w, (match hw_release w with Some _ => HasHistory | None => ReleaseNotFound true end, w)
  | GetRun _ => λ w, (match hw_release w with Some rel => Ok rel | None => Err (errorf "release: not found") end, w)
  | InstallRun _ chrt _ => λ w, (Ok tt, mkHelmWorld (Some (deployed (lc_Version chrt))) (hw_records w) (hw_upgrades w))
  | UpgradeRun _ _ chrt _ => λ w,
      if hw_upgrades w then (Ok tt, mkHelmWorld (Some (deployed (lc_Version chrt))) (hw_records w) true)
      else (Err (errorf "another operation is in progress"), w)
  | UninstallRun _ _ => λ w, (Ok tt, mkHelmWorld None [] (hw_upgrades w))
  | NewRegistryClient => λ w, (Ok tt, w)
  | LocateChart _ _ _ => λ w, (Ok "/tmp/chart", w)
  | DownloadTo _ _ _ => λ w, (Ok "/tmp/chart", w)
  | LoaderLoad path => λ w, (Ok (mkLoadedChart path "1.1"), w)
  | KubeNewForConfig _ => λ w, (Ok tt, w)
  | RecordList _ _ => λ w, (Ok (hw_records w), w)
  | RecordDelete _ name => λ w, (Ok tt, mkHelmWorld (hw_release w) (filter (λ r, r.1 ≠ name) (hw_records w)) (hw_upgrades w))
  | Lock _ | Unlock _ | RemoveFile _ => λ w, (tt, w)
  | MkdirAll _ | CloseFile _ | WriteRepoFile _ _ _ | Chmod _ _ | Rename _ _ | RemoveAll _ | NewChartRepository _ _ =>
      λ w, (Ok tt, w)
  | LoadFile _ => λ w, (NotExist, w)
  | CreateTemp dir pattern => λ w, (Ok (dir +:+ "/" +:+ pattern +:+ "1"), w)
  | ReadDir _ => λ w, (Ok [(".index-download-lb-7", true); ("lb-index.yaml", false)], w)
  | MkdirTemp dir prefix => λ w, (Ok (dir +:+ "/" +:+ prefix +:+ "8"), w)
  | DownloadIndexFile _ dir => λ w, (Ok (dir +:+ "/index.yaml"), w)
  end.

Definition run_helm {A} (p : Prog HelmCall A) (w : HelmWorld) : A * HelmWorld * History HelmCall := run helm_handle p w [].

Definition demo_spec : ChartSpec := mkChartSpec "lb/lb" "lb" "fip-system" "1.1" "" "https://charts".
Definition demo_api : RESTConfig := mkREST "api" 0.

(** A failed release whose upgrade fails is purged and installed again; the
    record that cannot be decoded is gone first. *)
Definition wedged : HelmWorld :=
  mkHelmWorld (Some (mkRelease (Some StatusFailed) (Some (Some "1.0")))) [("v1", "?"); ("v2", "ok")] false.

Lemma release_converges_witness :
  let y := run_helm (helm_InstallOrUpgrade demo_api demo_spec) wedged in
  y.1.1 = Ok tt ∧ hw_release y.1.2 = Some (deployed "1.1") ∧
  obeys (install_guard demo_spec) [] y.2 ∧ converged demo_spec y.2.
Proof.
  intros y. assert (y.1.1 = Ok tt) as Hx by (vm_compute; reflexivity).
  split; [exact Hx|]. split; [vm_compute; reflexivity|].
  destruct (release_converges demo_api demo_spec _ _ _
    (run_execs helm_handle (helm_InstallOrUpgrade demo_api demo_spec) wedged [])) as [Ho Hc].
  split; [exact Ho | exact (Hc Hx)].
Defined.

(** A deployed release of the desired version is left alone. *)
Example deployed_skipped :
  (run_helm (helm_InstallOrUpgrade demo_api demo_spec) (mkHelmWorld (Some (deployed "1.1")) [] true)).1.2
  = mkHelmWorld (Some (deployed "1.1")) [] true.
Proof. vm_compute. reflexivity. Qed.

Definition lb_repo : RepoEntry := mkRepoEntry "lb" "https://charts".


(** * The cluster manager *)

(** ** The clusters *)

Record CmWorld := mkCmWorld {
  cw_clusters : list MgmtCluster; cw_quotas : list FloatingIPProjectQuota; cw_fips : list FloatingIP;
  cw_secrets : list (Target * KSecret); cw_namespaces : list (Target * KNamespace);
  cw_configmaps : list (Target * ConfigMap); cw_charts : list (RESTConfig * ChartSpec); cw_now : time
}.

Definition set_cw_quotas f (w : CmWorld) := mkCmWorld (cw_clusters w) (f (cw_quotas w)) (cw_fips w) (cw_secrets w)
  (cw_namespaces w) (cw_configmaps w) (cw_charts w) (cw_now w).
Definition set_cw_fips f (w : CmWorld) := mkCmWorld (cw_clusters w) (cw_quotas w) (f (cw_fips w)) (cw_secrets w)
  (cw_namespaces w) (cw_configmaps w) (cw_charts w) (cw_now w).
Definition set_cw_secrets f (w : CmWorld) := mkCmWorld (cw_clusters w) (cw_quotas w) (cw_fips w) (f (cw_secrets w))
  (cw_namespaces w) (cw_configmaps w) (cw_charts w) (cw_now w).
Definition set_cw_namespaces f (w : CmWorld) := mkCmWorld (cw_clusters w) (cw_quotas w) (cw_fips w) (cw_secrets w)
  (f (cw_namespaces w)) (cw_configmaps w) (cw_charts w) (cw_now w).
Definition set_cw_configmaps f (w : CmWorld) := mkCmWorld (cw_clusters w) (cw_quotas w) (cw_fips w) (cw_secrets w)
  (cw_namespaces w) (f (cw_configmaps w)) (cw_charts w) (cw_now w).
Definition set_cw_charts f (w : CmWorld) := mkCmWorld (cw_clusters w) (cw_quotas w) (cw_fips w) (cw_secrets w)
  (cw_namespaces w) (cw_configmaps w) (f (cw_charts w)) (cw_now w).

(** Both readers see the same store. *)
Definition place (t : Target) : Target := match t with Uncached => Cache | t => t end.

Definition not_found {A} : res A := Err (mkErr KNotFound "not found").
Definition found_in {A B} (f : A → B) (l : option A) : res B :=
  match l with Some a => Ok (f a) | None => not_found end.

Definition is_secret (t : Target) (ns name : string) (e : Target * KSecret) : bool :=
  bool_decide (e.1 = place t) && bool_decide (ks_Namespace e.2 = ns) && bool_decide (ks_Name e.2 = name).
Definition is_namespace (t : Target) (name : string) (e : Target * KNamespace) : bool :=
  bool_decide (e.1 = place t) && bool_decide (kn_Name e.2 = name).
Definition is_configmap (t : Target) (ns name : string) (e : Target * ConfigMap) : bool :=
  bool_decide (e.1 = place t) && bool_decide (km_Namespace e.2 = ns) && bool_decide (km_Name e.2 = name).
Definition put_in {A} (same : A → bool) (a : A) (l : list A) : list A := filter (λ x, same x = false) l ++ [a].

Definition demo_project : MgmtProject := mkMgmtProject "p-1" "c-harv" "c-harv".
Definition demo_prov : ProvCluster :=
  mkProvCluster "guest" "cattle-global-data:cc-1" (Some [
    mkMachinePool false (Some (mkNodeRef "HarvesterConfig" "worker"));
    mkMachinePool true (Some (mkNodeRef "HarvesterConfig" "nc-1"))]).
Definition demo_hc : HarvesterConfig := mkHarvesterConfig "nc-1" "vms" "" "default/vlan1".
Definition demo_pool : FloatingIPPool :=
  mkFIPPool (mkMeta "harv--vlan1" "" None (Some {["rancher-fip-default-network" := "true"]}) [] "" 0 None)
    (mkPoolSp None "harv" "vlan1" "eth1") (mkPoolStatus None 0 0).

Definition cm_handle : Handler CmCall CmWorld := λ R c,
  match c in CmCall R return CmWorld → R * CmWorld with
  | ClusterGet name => λ w, (found_in id (find (λ c, bool_decide (mc_Name c = name)) (cw_clusters w)), w)
  | ProjectList => λ w, (Ok [demo_project], w)
  | ProvClusterList => λ w, (Ok [demo_prov], w)
  | HarvesterConfigGet _ name => λ w, (if bool_decide (name = hc_Name demo_hc) then Ok demo_hc else not_found, w)
  | QuotaGet name => λ w, (found_in id (find (λ q, bool_decide (quota_name q = name)) (cw_quotas w)), w)
  | QuotaList => λ w, (Ok (cw_quotas w), w)
  | QuotaPatch _ q => λ w, (Ok tt, set_cw_quotas (put_in (λ q', bool_decide (quota_name q' = quota_name q)) q) w)
  | PoolList => λ w, (Ok [demo_pool], w)
  | FipList => λ w, (Ok (cw_fips w), w)
  | FipUpdate f => λ w, (Ok tt, set_cw_fips (put_in (λ g, bool_decide (Name (fip_meta g) = Name (fip_meta f))) f) w)
  | SecretGet t ns name => λ w, (found_in snd (find (is_secret t ns name) (cw_secrets w)), w)
  | SecretList t ns => λ w, (Ok (filter (λ s, match ns with Some n => bool_decide (ks_Namespace s = n) | None => true end = true)
      (filter (λ e, e.1 = place t) (cw_secrets w)).*2), w)
  | SecretCreate t s => λ w,
      if is_some (find (is_secret t (ks_Namespace s) (ks_Name s)) (cw_secrets w))
      then (Err (mkErr KAlreadyExists "already exists"), w)
      else (Ok tt, set_cw_secrets (λ l, l ++ [(place t, s)]) w)
  | SecretUpdate t s => λ w,
      (Ok tt, set_cw_secrets (put_in (is_secret t (ks_Namespace s) (ks_Name s)) (place t, s)) w)
  | SecretDelete t ns name => λ w,
      if is_some (find (is_secret t ns name) (cw_secrets w))
      then (Ok tt, set_cw_secrets (filter (λ e, is_secret t ns name e = false)) w) else (not_found, w)
  | NamespaceGet t name => λ w, (found_in snd (find (is_namespace t name) (cw_namespaces w)), w)
  | NamespaceCreate t n => λ w, (Ok tt, set_cw_namespaces (λ l, l ++ [(place t, n)]) w)
  | NamespaceUpdate t n => λ w, (Ok tt, set_cw_namespaces (put_in (is_namespace t (kn_Name n)) (place t, n)) w)
  | ConfigMapGet t ns name => λ w, (found_in snd (find (is_configmap t ns name) (cw_configmaps w)), w)
  | ConfigMapCreate t m => λ w, (Ok tt, set_cw_configmaps (λ l, l ++ [(place t, m)]) w)
  | ConfigMapUpdate t m => λ w,
      (Ok tt, set_cw_configmaps (put_in (is_configmap t (km_Namespace m) (km_Name m)) (place t, m)) w)
  | DeploymentGet _ _ _ => λ w, (not_found, w)
  | DeploymentUpdate _ _ => λ w, (Ok tt, w)
  | PodList _ _ => λ w, (Ok tt, w)
  | NewDownstreamClient _ => λ w, (Ok tt, w)
  | AddOrUpdateChartRepo _ _ => λ w, (Ok tt, w)
  | InstallOrUpgrade config spec => λ w, (Ok tt, set_cw_charts (λ l, l ++ [(config, spec)]) w)
  | CheckIfChartIsInstalled config release ns => λ w,
      (Ok (existsb (λ e, bool_decide (e.1 = config) && bool_decide (cs_ReleaseName e.2 = release)
                         && bool_decide (cs_Namespace e.2 = ns)) (cw_charts w)), w)
  | RandRead n => λ w, (Ok (Z.of_nat <$> seq 160 n), w)
  | CmNow => λ w, (cw_now w, w)
  end.

#[export] Instance demo_cm_libs : CmLibs := {|
  RESTConfigFromKubeConfig := λ s, if bool_decide (s = "") then Err (errorf "invalid kubeconfig") else Ok (mkREST s 0);
  UnmarshalNetworkInfo := λ _, Err (errorf "no JSON");
  FormatRFC3339 := itoa
|}.

#[export] Instance demo_cm_retries : Retries CmCall := {|
  RetryConflict := λ A fn, attempts 4 fn;
  RetryConflict_spec := λ A fn, ex_intro _ 4%nat eq_refl
|}.

#[local] Existing Instance sorted_range.
#[local] Existing Instance demo_libs.

Definition run_cm {A} (p : Prog CmCall A) (w : CmWorld) : A * CmWorld * History CmCall := run cm_handle p w [].

(** ** The management cluster *)

Definition labels_of_list (l : list (string * string)) : gomap string := Some (list_to_map l).

Definition demo_config : Config :=
  mkConfig "https://fip" "lb" "https://charts" "1.0" "fip-system" "" "purelb" "oci://reg/purelb" "0.8" "purelb" ""
    "metallb" "https://metallb" "0.14" "metallb" "" None.
Definition demo_cm : CmReconciler := mkCmReconciler (Some Uncached) demo_config "rancher-fip-manager".

Definition guest : MgmtCluster := mkMgmtCluster "c-guest" "guest" (labels_of_list [("rancher-fip", "enabled")]).
Definition harv : MgmtCluster := mkMgmtCluster "c-harv" "harv" (labels_of_list [("provider.cattle.io", "harvester")]).

Definition demo_quota (name : string) (finalizers : list string) (deleted : option time) : FloatingIPProjectQuota :=
  mkQuota (mkMeta name "" None None finalizers "" 0 deleted) (mkQuotaSpec "" None) (mkQuotaStatus None).

Definition opaque (name ns : string) (data : list (string * string)) : Target * KSecret :=
  (Cache, mkKSecret name ns (labels_of_list data)).

Definition base_secrets : list (Target * KSecret) := [
  opaque "guest-kubeconfig" "fleet-default" [("value", "guest-api")];
  opaque "c-harv-kubeconfig" "fleet-default" [("value", "harv-api")];
  opaque "cc-1" "cattle-global-data" [("harvestercredentialConfig-clusterId", "c-harv")]].

Definition guest_api : RESTConfig := mkREST "guest-api" downstreamOperationTimeout.
Definition harv_api : RESTConfig := mkREST "harv-api" downstreamOperationTimeout.

Definition vms_namespace : Target * KNamespace :=
  (Remote harv_api, mkKNamespace "vms" None (labels_of_list [("field.cattle.io/projectId", "c-harv:p-1")])).

Definition fresh_world (quotas : list FloatingIPProjectQuota) : CmWorld :=
  mkCmWorld [guest; harv] quotas [] base_secrets [vms_namespace] [] [] (minutes 100).

Definition q1 : FloatingIPProjectQuota := demo_quota "p-1" [] None.

(** ** Provisioning *)

Definition demo_secret_16 : string := "a0a1a2a3a4a5a6a7a8a9aaabacadaeaf".

(** With a quota, the guest cluster gets both charts and the secret of its
    project; without one, the charts only. *)
Example provisioning_hands_over :
  let y := run_cm (provisioning_Reconcile demo_cm "c-guest") (fresh_world [q1]) in
  y.1.1 = requeue (minutes 30) ∧
  cw_charts y.1.2 = [(guest_api, mkChartSpec "lb/lb" "lb" "fip-system" "1.0" "" "https://charts");
                     (guest_api, mkChartSpec "oci://reg/purelb" "purelb" "purelb" "0.8" "" "")] ∧
  find (is_secret (Remote guest_api) "fip-system" "rancher-fip-config-p-1") (cw_secrets y.1.2) =
    Some (Remote guest_api, NewDownstreamSecret "rancher-fip-config-p-1" "fip-system" "https://fip" demo_secret_16
      "c-guest" "p-1" "harv--vlan1" "purelb").
Proof. repeat split; vm_compute; reflexivity. Qed.

Example provisioning_waits_for_quota :
  let y := run_cm (provisioning_Reconcile demo_cm "c-guest") (fresh_world []) in
  y.1.1 = requeue (minutes 15) ∧ length (cw_charts y.1.2) = 2%nat ∧ cw_secrets y.1.2 = base_secrets.
Proof. repeat split; vm_compute; reflexivity. Qed.

Lemma charts_installed_in_order_witness :
  let y := run_cm (provisioning_Reconcile demo_cm "c-guest") (fresh_world [q1]) in
  length (cw_charts y.1.2) = 2%nat ∧ obeys (chart_guard demo_cm "c-guest") [] y.2.
Proof.
  intros y. split; [vm_compute; reflexivity|].
  exact (charts_installed_in_order demo_cm "c-guest" _ _ _
    (run_execs cm_handle (provisioning_Reconcile demo_cm "c-guest") (fresh_world [q1]) [])).
Defined.

Lemma projects_need_quota_witness :
  let y := run_cm (provisioning_Reconcile demo_cm "c-guest") (fresh_world [q1]) in
  length (cw_secrets y.1.2) = 5%nat ∧ obeys (project_guard demo_cm "c-guest") [] y.2.
Proof.
  intros y. split; [vm_compute; reflexivity|].
  exact (projects_need_quota demo_cm "c-guest" _ _ _
    (run_execs cm_handle (provisioning_Reconcile demo_cm "c-guest") (fresh_world [q1]) [])).
Defined.

(** ** The secrets *)

Definition guest_args : SecretArgs := secret_args demo_cm guest (Some (Remote guest_api)) demo_project "harv--vlan1".

(** A local secret that lost its client secret, and a stale copy downstream: both
    are repaired. *)
Definition stale_world : CmWorld := set_cw_secrets (λ l, l ++ [
  opaque "rancher-fip-config-p-1" "c-harv" [("project", "p-1")];
  (Remote guest_api, NewDownstreamSecret "rancher-fip-config-p-1" "fip-system" "https://old" "old" "c-guest" "p-1" "" "metallb")])
  (fresh_world [q1]).

Lemma config_secrets_agree_witness :
  let y := run_cm (HandleConfigSecrets guest_args) stale_world in
  y.1.1 = finished ∧ delivered guest_args y.2 ∧
  find (is_secret (Remote guest_api) "fip-system" "rancher-fip-config-p-1") (cw_secrets y.1.2) =
    Some (Remote guest_api, desired_secret guest_args demo_secret_16) ∧
  find (is_secret Cache "c-harv" "rancher-fip-config-p-1") (cw_secrets y.1.2) =
    Some (Cache, NewLocalSecret "rancher-fip-config-p-1" "c-harv" demo_secret_16 "p-1").
Proof.
  intros y. assert (y.1.1 = finished) as Hx by by vm_compute.
  destruct (config_secrets_agree guest_args _ _ _ (run_execs cm_handle (HandleConfigSecrets guest_args) stale_world [])) as (_ & _ & Hd).
  split; [exact Hx|]. split; [exact (Hd Hx)|]. split; vm_compute; reflexivity.
Defined.

Lemma delivered_secret_accepted_witness :
  let y := run_cm (HandleConfigSecrets guest_args) stale_world in
  ∃ s, holds (Remote guest_api) s y.2 ∧ ks_Name s = "rancher-fip-config-p-1" ∧
    validateProjectConfig (lb_secret s) (resolve_pool web (lb_secret s)) = None.
Proof.
  intros y. pose proof (run_execs cm_handle (HandleConfigSecrets guest_args) stale_world []) as Hx.
  assert (y.1.1 = finished) as Hy by by vm_compute. unfold y, run_cm in Hy. rewrite Hy in Hx.
  destruct (delivered_secret_accepted demo_cm guest (Remote guest_api) demo_project "harv--vlan1" _ _
    ltac:(done) ltac:(done) ltac:(done) Hx) as (s & Hs & _ & Hn & _ & _ & Hv).
  exists s. split; [exact Hs|]. split; [exact Hn|]. apply Hv. discriminate.
Defined.

(** ** The guest cluster is gone *)

Definition claimed_fip : FloatingIP :=
  mkFIP (mkMeta "fip1" "c-harv" (labels_of_list [
      ("rancher.k8s.binbash.org/cluster-name", "c-guest"); ("rancher.k8s.binbash.org/project-name", "p-1");
      ("rancher.k8s.binbash.org/service-0-name", "web"); ("rancher.k8s.binbash.org/service-0-namespace", "apps")])
    None [] "" 0 None)
    (mkFIPSpec (Some "10.0.0.5") "harv--vlan1") (mkFIPStatus "10.0.0.5" "" None []).

Definition orphan_world : CmWorld := set_cw_fips (λ _, [claimed_fip])
  (mkCmWorld [harv] [q1] [] base_secrets [] [] [] 0).

Lemma deleted_cluster_releases_witness :
  let y := run_cm (provisioning_Reconcile demo_cm "c-guest") orphan_world in
  y.1.1 = finished ∧
  cw_fips y.1.2 = [released_fip claimed_fip] ∧
  Labels (fip_meta (released_fip claimed_fip)) = labels_of_list [("rancher.k8s.binbash.org/project-name", "p-1")] ∧
  (asked (ClusterGet "c-guest") y.2 (λ a, is_ok a = true) ∨
   ∃ fips, mkEv FipList (Ok fips) ∈ y.2 ∧ ∀ fip, fip ∈ fips → labelled_by "c-guest" fip = true →
     mkEv (FipUpdate (released_fip fip)) (Ok tt) ∈ y.2 ∧ unclaimed fip).
Proof.
  intros y. split; [vm_compute; reflexivity|]. split; [vm_compute; reflexivity|]. split; [vm_compute; reflexivity|].
  apply (deleted_cluster_releases demo_cm "c-guest" y.1.1); [|by vm_compute].
  exact (run_execs cm_handle (provisioning_Reconcile demo_cm "c-guest") orphan_world []).
Defined.

(** The manager of floating IPs reads a label whose index is followed by more
    than the field; the cluster manager leaves it. *)
Example released_label_stays :
  let labels := labels_of_list [("rancher.k8s.binbash.org/service-0-name-x", "web")] in
  releaseClaimLabels labels = labels ∧ parseServicesFromLabels labels = [mkSvc "" "web"].
Proof. repeat split; vm_compute; reflexivity. Qed.

(** ** The quota goes away *)

(** A bare metal cluster with the copy of its project's secret. *)
Definition metal : MgmtCluster := mkMgmtCluster "c-metal" "metal" (labels_of_list [("rancher-fip", "enabled")]).
Definition metal_api : RESTConfig := mkREST "metal-api" downstreamOperationTimeout.
Definition q2 : FloatingIPProjectQuota := demo_quota "p-2" [floatingIPProjectQuotaCleanupFinalizer; "other"] (Some (minutes 95)).

Definition leaving_world : CmWorld :=
  mkCmWorld [metal] [q1; q2] [] [
    opaque "c-metal-kubeconfig" "fleet-default" [("value", "metal-api")];
    opaque "rancher-fip-config-p-2" "c-metal" [("clientSecret", "s")];
    opaque "rancher-fip-config-p-3" "c-metal" [("clientSecret", "s")];
    opaque "rancher-fip-config-p-1" "c-metal" [("clientSecret", "s")];
    (Remote metal_api, mkKSecret "rancher-fip-config-p-2" "fip-system" None);
    (Remote metal_api, mkKSecret "rancher-fip-config-p-4" "fip-system" None);
    (Remote metal_api, mkKSecret "rancher-fip-config-p-1" "fip-system" None)] [] [] [] (minutes 100).


(** The sweep takes the secrets of the projects p-3 and p-4, which have no quota. *)
Lemma sweep_spares_projects_witness :
  let y := run_cm (sweeper_Start demo_cm 1) leaving_world in
  (ks_Name ∘ snd <$> cw_secrets y.1.2) = ["c-metal-kubeconfig"; "rancher-fip-config-p-2"; "rancher-fip-config-p-1";
    "rancher-fip-config-p-2"; "rancher-fip-config-p-1"] ∧
  obeys (sweep_guard demo_cm) [] y.2.
Proof.
  intros y. split; [vm_compute; reflexivity|].
  exact (sweep_spares_projects demo_cm 1 _ _ _ (run_execs cm_handle (sweeper_Start demo_cm 1) leaving_world [])).
Defined.

(** With no quota at all nothing is swept. *)
Example sweep_fails_closed :
  let w := set_cw_quotas (λ _, []) leaving_world in
  (run_cm (sweeper_Start demo_cm 1) w).1.2 = w.
Proof. repeat split; vm_compute; reflexivity. Qed.

(** ** A quota for a project on a Harvester cluster *)

Lemma quota_writes_to_its_cluster_witness :
  let y := run_cm (quota_Reconcile demo_cm "p-1") (fresh_world [q1]) in
  y.1.1 = finished ∧ cw_quotas y.1.2 = [demo_quota "p-1" [floatingIPProjectQuotaCleanupFinalizer] None] ∧
  cw_secrets y.1.2 = base_secrets ++ [(Cache, NewLocalSecret "rancher-fip-config-p-1" "c-harv" demo_secret_16 "p-1")] ∧
  obeys (quota_guard demo_cm "p-1") [] y.2.
Proof.
  intros y. split; [vm_compute; reflexivity|]. split; [vm_compute; reflexivity|]. split; [vm_compute; reflexivity|].
  exact (quota_writes_to_its_cluster demo_cm "p-1" _ _ _
    (run_execs cm_handle (quota_Reconcile demo_cm "p-1") (fresh_world [q1]) [])).
Defined.
