(* ===== verification/Manager.v ===== *)
(** The life of the manager: [cmd/manager/main.go], the [New] and [Run] of the
    controllers of [pkg/controller/*], and [Start] of [pkg/service/server.go].

    Ten goroutines and the two callbacks of the leader election share work queues,
    channels and one context.  The handling of one item is one call here; it is
    modelled in [FipController], [PoolController] and [QuotaController].  The work
    queue and the informers are client-go's: the queue is the class [WorkQueue],
    and the informers are the environment, which calls the event handlers below.

    The three controllers have the same [Run], up to the caches it waits for. *)

From stdpp Require Import functions.
From S2P Require Import Prelude GoStd ApiTypes Prog Kube ServiceLabels FipController PoolController QuotaController RelyGuarantee Goroutines WorkQueue.

(** ** Names *)

Inductive Ctl := PoolCtl | QuotaCtl | FipCtl.
Inductive Informer := FloatingIPPools | FloatingIPProjectQuotas | FloatingIPs.

Inductive Routine :=
| LeadR                            (* OnStartedLeading *)
| StopR                            (* OnStoppedLeading *)
| HttpR | ListenR                  (* the HTTP service, and its listener *)
| InformersR
| CtlR (c : Ctl)                   (* [Run] of a controller *)
| WorkerR (c : Ctl) (i : nat).

Inductive Channel := RunStart | RunDone | HttpDone | InformersDone | InitSyncDone (c : Ctl).
Inductive Group := ControllersWG | WorkersWG (c : Ctl).

#[export] Instance Ctl_eq : EqDecision Ctl.
Proof. solve_decision. Defined.
#[export] Instance Informer_eq : EqDecision Informer.
Proof. solve_decision. Defined.
#[export] Instance Routine_eq : EqDecision Routine.
Proof. solve_decision. Defined.
#[export] Instance Channel_eq : EqDecision Channel.
Proof. solve_decision. Defined.
#[export] Instance Group_eq : EqDecision Group.
Proof. solve_decision. Defined.

(** The one context is that of [run]. *)
Abbreviation MState := (GoState Routine Channel Group unit).
Abbreviation MCall := (GoCall Routine Channel Group unit).

(** [MetaNamespaceKeyFunc] of client-go. *)
Class KeyFunc := { MetaNamespaceKeyFunc : ObjectMeta → res string }.

(** ** State and calls *)

Inductive RunCall : Type → Type :=
| Prim {R} (c : MCall R) : RunCall R
| FactoryStart : RunCall unit                                      (* [fipInformerFactory.Start] *)
| WaitForCacheSync (caches : list Informer) : RunCall bool
| QLen (c : Ctl) : RunCall nat
| QGet (c : Ctl) : RunCall (option string)                         (* [None]: shutdown *)
| QDone (c : Ctl) (key : string) : RunCall unit
| QForget (c : Ctl) (key : string) : RunCall unit
| QAddRateLimited (c : Ctl) (key : string) : RunCall unit
| QShutDown (c : Ctl) : RunCall unit
| SyncItem (c : Ctl) (key : string) : RunCall (option error)       (* the syncHandler *)
| ListenAndServe : RunCall (option error)                          (* [None]: ErrServerClosed *)
| ServerShutdown : RunCall (option error)
| Fatal : RunCall unit
| OutOfRounds : RunCall unit.                                      (* the bound of the model on a worker's loop *)

Record World (Q : Type) := mkWorld {
  go : MState;
  queues : Ctl → Q;
  synced : Informer → bool;
  watching : bool;                                                 (* the informers were started *)
  serverDown : bool;                                               (* the HTTP server was shut down *)
  hist : list (Routine * Ev RunCall)                               (* the calls so far, newest first *)
}.
Arguments mkWorld {Q}.
Arguments go {Q}.
Arguments queues {Q}.
Arguments synced {Q}.
Arguments watching {Q}.
Arguments serverDown {Q}.
Arguments hist {Q}.

Section Code.
#[local] Open Scope prog_scope.

Definition await (g : Guard Channel unit) : Prog RunCall unit :=
  let! _i := call (Prim (Select [g] false)) in Ret tt.

(** ** A controller *)

Definition work_item (c : Ctl) : Prog RunCall bool :=
  let! obj := call (QGet c) in
  match obj with
  | None => Ret false
  | Some key =>
      let! err := call (SyncItem c key) in
      match err with
      | Some _ => call (QAddRateLimited c key)
      | None => call (QForget c key)
      end ;;;
      call (QDone c key) ;;; Ret true
  end.

(** The loop of [runWorker], for a number of rounds, and [wait.UntilWithContext]
    around it: a worker that stopped once finds the context done, so that two
    rounds of it are enough. *)
Fixpoint runWorker (rounds : nat) (c : Ctl) : Prog RunCall unit :=
  match rounds with
  | O => call OutOfRounds
  | S rounds => let! more := work_item c in if more : bool then runWorker rounds c else Ret tt
  end.

Fixpoint until_done (rounds : nat) (f : Prog RunCall unit) : Prog RunCall unit :=
  match rounds with
  | O => call OutOfRounds
  | S rounds =>
      let! stop := call (Prim (CtxErr tt)) in
      if stop : bool then Ret tt else f ;;; until_done rounds f
  end.

Definition worker (rounds : nat) (c : Ctl) : Prog RunCall unit :=
  until_done 2 (runWorker rounds c) ;;; call (Prim (WgDone (WorkersWG c))).

(** [false]: the run was given up, as the context is done. *)
Definition fatal_unless_done : Prog RunCall bool :=
  let! err := call (Prim (CtxErr tt)) in
  if err : bool then Ret false else call Fatal ;;; Ret false.

Fixpoint initial_sync (queueLen : nat) (c : Ctl) : Prog RunCall bool :=
  match queueLen with
  | O => Ret true
  | S queueLen =>
      let! more := work_item c in
      if more : bool then initial_sync queueLen c else fatal_unless_done
  end.

Fixpoint start_workers (i n : nat) (c : Ctl) : Prog RunCall unit :=
  match n with
  | O => Ret tt
  | S n =>
      call (Prim (WgAdd (WorkersWG c))) ;;; call (Prim (Go (WorkerR c i))) ;;; start_workers (S i) n c
  end.

Definition run_workers (workers : nat) (c : Ctl) : Prog RunCall unit :=
  call (Prim (Close (InitSyncDone c))) ;;;
  start_workers 0 workers c ;;;
  await (OnDone tt) ;;;
  call (QShutDown c) ;;;
  call (Prim (WgWait (WorkersWG c))).

(** The last call is the deferred one. *)
Definition controller_Run (caches : list Informer) (workers : nat) (c : Ctl) : Prog RunCall unit :=
  let! ok := call (WaitForCacheSync caches) in
  let! go_on := if ok : bool then Ret true else fatal_unless_done in
  (if go_on : bool then
     let! queueLen := call (QLen c) in
     let! done := initial_sync queueLen c in
     if done : bool then run_workers workers c else Ret tt
   else Ret tt) ;;;
  call (QShutDown c).

Definition fipPool_Run : nat → Prog RunCall unit := λ workers,
  controller_Run [FloatingIPPools; FloatingIPs; FloatingIPProjectQuotas] workers PoolCtl.
Definition quota_Run : nat → Prog RunCall unit := λ workers,
  controller_Run [FloatingIPProjectQuotas; FloatingIPs; FloatingIPPools] workers QuotaCtl.
Definition fip_Run : nat → Prog RunCall unit := λ workers,
  controller_Run [FloatingIPs; FloatingIPPools; FloatingIPProjectQuotas] workers FipCtl.

(** ** The HTTP service, [pkg/service/server.go] *)

Definition service_Start : Prog RunCall unit :=
  call (Prim (Go ListenR)) ;;;
  await (OnDone tt) ;;;
  let! _err := call ServerShutdown in Ret tt.

Definition listen : Prog RunCall unit :=
  let! err := call ListenAndServe in
  match err with Some _ => call Fatal | None => Ret tt end.

(** ** [run] *)

Definition startController (c : Ctl) : Prog RunCall unit :=
  call (Prim (WgAdd ControllersWG)) ;;; call (Prim (Go (CtlR c))).

Definition waitForInitialSync (c : Ctl) : Prog RunCall bool :=
  let! i := call (Prim (Select [Recv (InitSyncDone c); OnDone tt] false)) in
  Ret (bool_decide (i = Some 0%nat)).

Definition shutdownAfterEarlyExit : Prog RunCall unit :=
  call (Prim (WgWait ControllersWG)) ;;;
  await (Recv HttpDone) ;;;
  await (Recv InformersDone).

(** The controllers, each once the one before it has done its initial sync. *)
Fixpoint start_controllers (cs : list Ctl) : Prog RunCall unit :=
  match cs with
  | [] => await (OnDone tt) ;;; shutdownAfterEarlyExit
  | c :: cs =>
      startController c ;;;
      let! ok := waitForInitialSync c in
      if ok : bool then start_controllers cs else shutdownAfterEarlyExit
  end.

Definition manager_run : Prog RunCall unit :=
  call (Prim (Go HttpR)) ;;;
  call (Prim (Go InformersR)) ;;;
  start_controllers [PoolCtl; QuotaCtl; FipCtl].

(** ** The callbacks of the leader election *)

Definition OnStartedLeading : Prog RunCall unit :=
  call (Prim (Send RunStart)) ;;; manager_run ;;; call (Prim (Close RunDone)).

Definition gracefulDrainTimeout : time := 20 * 10 ^ 9.

Definition drainRun (grace : time) : Prog RunCall bool :=
  let! i := call (Prim (Select [Recv RunStart] true)) in
  match i with
  | None => Ret true
  | Some _ =>
      call (Prim (Cancel tt)) ;;;
      let! j := call (Prim (Select [Recv RunDone; Timer grace] false)) in
      Ret (bool_decide (j = Some 0%nat))
  end.

(** The answer of [drainRun], which the code drops. *)
Definition drainAndExit : Prog RunCall bool :=
  let! drained := drainRun gracefulDrainTimeout in call (Prim Exit) ;;; Ret drained.

(** ** The goroutines *)

Definition workers_of (c : Ctl) : nat := match c with PoolCtl => 1 | QuotaCtl => 1 | FipCtl => 2 end.
Definition Run_of (c : Ctl) : nat → Prog RunCall unit :=
  match c with PoolCtl => fipPool_Run | QuotaCtl => quota_Run | FipCtl => fip_Run end.

Definition body (rounds : nat) (r : Routine) : Prog RunCall bool :=
  call (Prim Begin) ;;;
  match r with
  | LeadR => OnStartedLeading ;;; Ret true
  | StopR => drainAndExit
  | HttpR => service_Start ;;; call (Prim (Close HttpDone)) ;;; Ret true
  | ListenR => listen ;;; Ret true
  | InformersR => call FactoryStart ;;; call (Prim (Close InformersDone)) ;;; Ret true
  | CtlR c => Run_of c (workers_of c) ;;; call (Prim (WgDone ControllersWG)) ;;; Ret true
  | WorkerR c _ => worker rounds c ;;; Ret true
  end.

Definition routines : list Routine :=
  [LeadR; StopR; HttpR; ListenR; InformersR; CtlR PoolCtl; CtlR QuotaCtl; CtlR FipCtl;
   WorkerR PoolCtl 0; WorkerR QuotaCtl 0; WorkerR FipCtl 0; WorkerR FipCtl 1].
End Code.

(** ** The event handlers *)

Inductive Event :=
| PoolAdded (p : Informed FloatingIPPool) | PoolUpdated (old new : FloatingIPPool) | PoolDeleted (p : Informed FloatingIPPool)
| QuotaAdded (q : Informed FloatingIPProjectQuota) | QuotaUpdated (old new : FloatingIPProjectQuota)
| QuotaDeleted (q : Informed FloatingIPProjectQuota)
| FipAdded (f : FloatingIP) | FipUpdated (old new : FloatingIP) | FipDeleted (f : Informed FloatingIP).

Section Handlers.
Context `{HKey : KeyFunc}.

Definition enqueue (c : Ctl) (m : ObjectMeta) : list (Ctl * string) :=
  match MetaNamespaceKeyFunc m with Ok key => [(c, key)] | Err _ => [] end.

Definition enqueueFip (f : FloatingIP) : list (Ctl * string) := enqueue FipCtl (fip_meta f).
Definition enqueueFipPool (p : FloatingIPPool) : list (Ctl * string) := enqueue PoolCtl (pool_meta p).
Definition enqueueFloatingIPProjectQuota (q : FloatingIPProjectQuota) : list (Ctl * string) :=
  enqueue QuotaCtl (quota_meta q).

Definition handleFipPoolCreate (obj : Informed FloatingIPPool) : list (Ctl * string) :=
  match obj with Obj p => enqueueFipPool p | _ => [] end.

Definition handleFloatingIPProjectQuotaCreate (obj : Informed FloatingIPProjectQuota) : list (Ctl * string) :=
  match obj with Obj q => enqueueFloatingIPProjectQuota q | _ => [] end.

(** [known]: the quotas that the lister finds. *)
Definition quota_of_fip (known : string → bool) (obj : Informed FloatingIP) : list (Ctl * string) :=
  let enqueue_project (f : FloatingIP) :=
    match mlookup (Labels (fip_meta f)) projectNameLabel with
    | None => []
    | Some projectName =>
        if bool_decide (projectName = "") then []
        else if known projectName then [(QuotaCtl, projectName)] else []
    end in
  match obj with
  | Obj f => enqueue_project f
  | Tombstone (Some f) => enqueue_project f
  | _ => []
  end.

(** The handlers that each controller registers.  The deletion of a pool only goes
    to the allocator. *)
Definition fipPool_handlers (e : Event) : list (Ctl * string) :=
  match e with
  | PoolAdded p => handleFipPoolCreate p
  | PoolUpdated _ new => enqueueFipPool new
  | _ => []
  end.
Definition quota_handlers (known : string → bool) (e : Event) : list (Ctl * string) :=
  match e with
  | QuotaAdded q => handleFloatingIPProjectQuotaCreate q
  | QuotaUpdated _ new => enqueueFloatingIPProjectQuota new
  | FipAdded f => quota_of_fip known (Obj f)
  | FipUpdated old new => quota_of_fip known (Obj old) ++ quota_of_fip known (Obj new)
  | FipDeleted f => quota_of_fip known f
  | _ => []
  end.
Definition fip_handlers (e : Event) : list (Ctl * string) :=
  match e with
  | FipAdded f => enqueueFip f
  | FipUpdated _ new => enqueueFip new
  | _ => []
  end.

Definition handle_event (known : string → bool) (e : Event) : list (Ctl * string) :=
  fipPool_handlers e ++ quota_handlers known e ++ fip_handlers e.
End Handlers.

(** ** The system *)

Section System.
Context {Q : Type} `{HQueue : WorkQueue Q} `{HKey : KeyFunc}.

Definition set_go (g : MState) (s : World Q) : World Q :=
  mkWorld g (queues s) (synced s) (watching s) (serverDown s) (hist s).
Definition set_queue (c : Ctl) (q : Q) (s : World Q) : World Q :=
  mkWorld (go s) (<[c := q]> (queues s)) (synced s) (watching s) (serverDown s) (hist s).
Definition set_synced (i : Informer) (s : World Q) : World Q :=
  mkWorld (go s) (queues s) (<[i := true]> (synced s)) (watching s) (serverDown s) (hist s).
Definition set_watching (s : World Q) : World Q :=
  mkWorld (go s) (queues s) (synced s) true (serverDown s) (hist s).
Definition set_serverDown (s : World Q) : World Q :=
  mkWorld (go s) (queues s) (synced s) (watching s) true (hist s).
Definition record_call {R} (r : Routine) (c : RunCall R) (x : R) (s : World Q) : World Q :=
  mkWorld (go s) (queues s) (synced s) (watching s) (serverDown s) ((r, mkEv c x) :: hist s).

Definition add_key (s : World Q) (ck : Ctl * string) : World Q :=
  set_queue ck.1 (q_Add ck.2 (queues s ck.1)) s.

(** Losing the lease, signals, informers, delayed items, and client-go's calls of
    the two callbacks. *)
Inductive environment : World Q → World Q → Prop :=
| env_cancel s : environment s (set_go (cancel tt (go s)) s)
| env_synced i s : watching s = true → environment s (set_synced i s)
| env_event e known s : watching s = true → environment s (foldl add_key s (handle_event known e))
| env_tick c q s : q_tick (queues s c) q → environment s (set_queue c q s)
| env_callback r s : r = LeadR ∨ r = StopR → r ∉ started (go s) → environment s (set_go (start r (go s)) s).

(** What a call answers, and the state after it, before the call is recorded. *)
Inductive effect (r : Routine) : ∀ R, RunCall R → World Q → R → World Q → Prop :=
| eff_prim R (c : MCall R) s x g : go_answers r R c (go s) x g → effect r R (Prim c) s x (set_go g s)
| eff_factory s : effect r _ FactoryStart s tt (set_watching s)
| eff_synced caches s : Forall (λ i, synced s i = true) caches → effect r _ (WaitForCacheSync caches) s true s
| eff_unsynced caches s : cancelled (go s) tt = true → effect r _ (WaitForCacheSync caches) s false s
| eff_len c s : effect r _ (QLen c) s (q_Len (queues s c)) s
| eff_get c s x q : q_Get (queues s c) = Some (x, q) → effect r _ (QGet c) s x (set_queue c q s)
| eff_done c key s : effect r _ (QDone c key) s tt (set_queue c (q_Done key (queues s c)) s)
| eff_forget c key s : effect r _ (QForget c key) s tt (set_queue c (q_Forget key (queues s c)) s)
| eff_again c key s : effect r _ (QAddRateLimited c key) s tt (set_queue c (q_AddRateLimited key (queues s c)) s)
| eff_shutdown c s : effect r _ (QShutDown c) s tt (set_queue c (q_ShutDown (queues s c)) s)
| eff_item c key s err : effect r _ (SyncItem c key) s err s
| eff_listen s err : effect r _ ListenAndServe s (Some err) s
| eff_closed s : serverDown s = true → effect r _ ListenAndServe s None s
| eff_server s err : effect r _ ServerShutdown s err (set_serverDown s)
| eff_fatal s : effect r _ Fatal s tt (set_go (set_exited (go s)) s).

(** Nothing runs once the process is gone. *)
Inductive answered (r : Routine) (R : Type) (c : RunCall R) (s : World Q) (x : R) : World Q → Prop :=
| answered_call s' : exited (go s) = false → effect r R c s x s' → answered r R c s x (record_call r c x s').

Definition init_world : World Q := mkWorld go_init (λ _, q_new) (λ _, false) false false [].
Definition ManagerConfig : Type := Config (S := World Q) (E := RunCall) (A := bool).
Definition init (rounds : nat) : ManagerConfig := (body rounds <$> routines, init_world).

Definition manager_runs : ManagerConfig → ManagerConfig → Prop := runs answered environment routines.
End System.
