(* ===== verification/ManagerLogic.v ===== *)
(** What every goroutine of the manager may rely on.

    [rely r] is what the others leave alone, as [r] sees it: the channels it closes,
    the goroutines it starts, the groups it adds to, and, for a controller, its work
    queue as long as it has no workers.  [at_call] is what a goroutine has to know
    when it makes a call.  [calls_respect] shows that a call made with this
    knowledge keeps the invariant [Inv] and what the others rely on. *)

From stdpp Require Import functions.
From S2P Require Import Prelude GoStd ApiTypes Prog Kube ServiceLabels FipController PoolController QuotaController RelyGuarantee Goroutines WorkQueue Manager.

(** ** Who starts, closes and adds what *)

Definition starter (q : Routine) : option Routine :=
  match q with
  | LeadR | StopR => None
  | HttpR | InformersR | CtlR _ => Some LeadR
  | ListenR => Some HttpR
  | WorkerR c _ => Some (CtlR c)
  end.

Definition owner (ch : Channel) : Routine :=
  match ch with
  | RunStart | RunDone => LeadR
  | HttpDone => HttpR
  | InformersDone => InformersR
  | InitSyncDone c => CtlR c
  end.

Definition wg_owner (w : Group) : Routine := match w with ControllersWG => LeadR | WorkersWG c => CtlR c end.
Definition member (w : Group) (r : Routine) : Prop :=
  match w, r with
  | ControllersWG, CtlR _ => True
  | WorkersWG c, WorkerR c' _ => c = c'
  | _, _ => False
  end.
#[export] Instance member_dec w r : Decision (member w r).
Proof. destruct w, r; cbn; apply _. Defined.

(** Who takes items from the queue of [c]. *)
Definition takes (r : Routine) (c : Ctl) : Prop := r = CtlR c ∨ ∃ i, r = WorkerR c i.

(** ** Items, as the history shows them *)

Definition ev_took (c : Ctl) (e : Ev RunCall) : bool :=
  match ev_c e in RunCall R return R → bool with
  | QGet c' => λ x, bool_decide (c = c') && is_some x
  | _ => λ _, false
  end (ev_ans e).
Definition ev_gave (c : Ctl) (e : Ev RunCall) : bool :=
  match ev_c e with QDone c' _ => bool_decide (c = c') | _ => false end.
Definition ev_fatal (e : Ev RunCall) : bool := match ev_c e with Fatal => true | _ => false end.

(** The caches that the call found filled. *)
Definition ev_filled (e : Ev RunCall) : list Informer :=
  match ev_c e in RunCall R return R → list Informer with
  | WaitForCacheSync caches => λ x, if x : bool then caches else []
  | _ => λ _, []
  end (ev_ans e).

(** What [r] itself has called, newest first. *)
Definition own (r : Routine) (h : list (Routine * Ev RunCall)) : list (Ev RunCall) := snd <$> by_routine r h.

(** How many items of [c] these calls gave back. *)
Definition given (c : Ctl) (l : list (Ev RunCall)) : nat := length (filter (λ e, ev_gave c e = true) l).

(** The caches that the controller waits for. *)
Definition caches_of (c : Ctl) : list Informer :=
  match c with
  | PoolCtl => [FloatingIPPools; FloatingIPs; FloatingIPProjectQuotas]
  | QuotaCtl => [FloatingIPProjectQuotas; FloatingIPs; FloatingIPPools]
  | FipCtl => [FloatingIPs; FloatingIPPools; FloatingIPProjectQuotas]
  end.

(** The last three calls took the item, handled it, and put it back or forgot it, as
    the answer of the syncHandler asks for. *)
Definition handled (c : Ctl) (key : string) (past : list (Ev RunCall)) : Prop :=
  ∃ err before, past =
    mkEv (match err with Some _ => QAddRateLimited c key | None => QForget c key end) tt ::
    mkEv (SyncItem c key) err :: mkEv (QGet c) (Some key) :: before.

(** What [r] must have done itself, before it makes the call: the queue is measured
    right after its caches were found filled, a controller takes no item before
    that, what is handled was just taken, and what is given back was handled. *)
Definition allowed (r : Routine) {R} (k : RunCall R) (past : list (Ev RunCall)) : Prop :=
  match k with
  | QLen c => r = CtlR c ∧ ∃ before, past = mkEv (WaitForCacheSync (caches_of c)) true :: before
  | QGet c => r = CtlR c → mkEv (WaitForCacheSync (caches_of c)) true ∈ past
  | SyncItem c key => ∃ before, past = mkEv (QGet c) (Some key) :: before
  | QDone c key => handled c key past
  | _ => True
  end.

Fixpoint orderly (r : Routine) (l : list (Ev RunCall)) : Prop :=
  match l with [] => True | e :: past => allowed r (ev_c e) past ∧ orderly r past end.

(** Items of [c] that [r] took from the queue, and gave back to it. *)
Definition took (r : Routine) (c : Ctl) (h : list (Routine * Ev RunCall)) : nat := count (ev_took c) r h.
Definition gave (r : Routine) (c : Ctl) (h : list (Routine * Ev RunCall)) : nat := count (ev_gave c) r h.

Lemma own_cons r {R} (k : RunCall R) x h : own r ((r, mkEv k x) :: h) = mkEv k x :: own r h.
Proof. unfold own, by_routine. by rewrite filter_cons_True. Qed.
Lemma own_ne r r' e h : r' ≠ r → own r' ((r, e) :: h) = own r' h.
Proof. intros Hr. unfold own. by rewrite by_routine_ne. Qed.
Lemma own_past r e h : e ∈ own r h → (r, e) ∈ h.
Proof. intros ([r' e'] & -> & [Hr He]%list_elem_of_filter)%list_elem_of_fmap. cbn in Hr. by subst. Qed.
Lemma gave_given r c h : gave r c h = given c (own r h).
Proof.
  unfold gave, count, given, own. induction (by_routine r h) as [|e l IH]; [done|].
  cbn [fmap list_fmap]. rewrite !filter_cons. case_decide; cbn; by rewrite IH.
Qed.
Lemma given_app c l l' : given c (l ++ l') = (given c l + given c l')%nat.
Proof. unfold given. by rewrite filter_app, length_app. Qed.

Section Logic.
Context {Q : Type} `{HQueue : WorkQueue Q} `{HKey : KeyFunc} `{!WorkQueueLaws Q}.
Implicit Types (s : World Q) (r q : Routine) (c : Ctl) (w : Group).

Definition closed s (ch : Channel) : Prop := is_closed (chans (go s) ch) = true.
Definition done_of s w : list Routine := finished (wgs (go s) w).
Definition members s w : list Routine := filter (member w) (started (go s)).
Definition down s c : Prop := q_down (queues s c) = true.
Definition len s c : nat := q_Len (queues s c).

(** ** The invariant *)

(** The controllers whose initial sync [c] waits for. *)
Definition ready_before c s : Prop :=
  match c with
  | PoolCtl => True
  | QuotaCtl => closed s (InitSyncDone PoolCtl)
  | FipCtl => closed s (InitSyncDone PoolCtl) ∧ closed s (InitSyncDone QuotaCtl)
  end.

(** Since the controller measured its queue, it gave back as many items as the queue
    held. *)
Definition initially_synced c s : Prop :=
  ∃ n later before, own (CtlR c) (hist s) = later ++ mkEv (QLen c) n :: before ∧ (n ≤ given c later)%nat.

(** The caches that the controller waits for were found filled, and are. *)
Definition filled c s : Prop :=
  (CtlR c, mkEv (WaitForCacheSync (caches_of c)) true) ∈ hist s ∧ Forall (λ i, synced s i = true) (caches_of c).

(** [r] has nothing more to do: no item is in its hands, and of a controller the
    queue is down and the workers are gone. *)
Definition over r s : Prop :=
  (∀ c, took r c (hist s) = gave r c (hist s)) ∧
  ∀ c, r = CtlR c → down s c ∧ ∀ i, WorkerR c i ∈ started (go s) → WorkerR c i ∈ done_of s (WorkersWG c).

(** What [run] waits for before it returns. *)
Definition joined s : Prop :=
  cancelled (go s) tt = true ∧
  (∀ c, CtlR c ∈ started (go s) → CtlR c ∈ done_of s ControllersWG) ∧
  closed s HttpDone ∧ closed s InformersDone.

Record Inv s : Prop := {
  i_ready c : CtlR c ∈ started (go s) → ready_before c s;
  i_worker c i : WorkerR c i ∈ started (go s) → (i < workers_of c)%nat ∧ CtlR c ∈ started (go s) ∧ closed s (InitSyncDone c);
  i_took r c e : (r, e) ∈ hist s → ev_took c e = true → takes r c ∧ r ∈ started (go s);
  i_synced c : closed s (InitSyncDone c) → initially_synced c s;
  i_finished w : NoDup (done_of s w) ∧ ∀ r, r ∈ done_of s w → member w r ∧ r ∈ started (go s);
  i_added w : (length (members s w) ≤ added (wgs (go s) w))%nat;
  i_started : NoDup (started (go s));
  i_over r w : r ∈ done_of s w → over r s;
  i_joined : closed s RunDone → joined s;
  i_down c : down s c → cancelled (go s) tt = true;
  i_http : closed s HttpDone → serverDown s = true;
  i_buffered ch : ch ≠ RunStart → buffered (chans (go s) ch) = 0%nat;
  i_fatal r e : (r, e) ∈ hist s → ev_fatal e = true → r = ListenR;
  i_orderly r : orderly r (own r (hist s));
  i_filled r e : (r, e) ∈ hist s → Forall (λ i, synced s i = true) (ev_filled e)
}.

(** ** What [r] relies on *)

Record rely r s s' : Prop := {
  rl_cancelled : cancelled (go s) tt = true → cancelled (go s') tt = true;
  rl_started q : q ∈ started (go s) → q ∈ started (go s');
  rl_starter q : starter q = Some r → q ∈ started (go s') → q ∈ started (go s);
  rl_members w : wg_owner w = r → members s' w = members s w;
  rl_closed ch : closed s ch → closed s' ch;
  rl_owner ch : owner ch = r → closed s' ch → closed s ch;
  rl_buffered : r = LeadR → (buffered (chans (go s') RunStart) ≤ buffered (chans (go s) RunStart))%nat;
  rl_added w : wg_owner w = r → added (wgs (go s') w) = added (wgs (go s) w);
  rl_finished w q : q ∈ done_of s w → q ∈ done_of s' w;
  rl_finisher w : r ∈ done_of s' w → r ∈ done_of s w;
  rl_down c : down s c → down s' c;
  rl_up c : r = CtlR c → down s' c → down s c;
  rl_len c : r = CtlR c → (∀ i, WorkerR c i ∉ started (go s')) → (len s c ≤ len s' c)%nat;
  rl_mine : by_routine r (hist s') = by_routine r (hist s);
  rl_past e : e ∈ hist s → e ∈ hist s';
  rl_server : serverDown s = true → serverDown s' = true
}.

#[export] Instance rely_preorder r : PreOrder (rely r).
Proof.
  split; [by split|]. intros s1 s2 s3 H1 H2.
  split; try (intros; apply H2, H1; done); try (intros; apply H1; [done|]; by apply H2).
  - intros w Hw. etrans; [by apply H2 | by apply H1].
  - intros Hr. etrans; [by apply H2 | by apply H1].
  - intros w Hw. etrans; [by apply H2 | by apply H1].
  - intros w Hw. by apply H1, H2.
  - intros c Hc Hno. etrans; [apply H1; [done|] | by apply H2]. intros i Hi. by apply (Hno i), H2.
  - etrans; [apply H2 | apply H1].
Qed.

(** ** What is stable *)

Lemma ready_before_closed c s s' : (∀ ch, closed s ch → closed s' ch) → ready_before c s → ready_before c s'.
Proof. intros Hc. destruct c; cbn; naive_solver. Qed.

Lemma took_rely r c s s' : rely r s s' → took r c (hist s') = took r c (hist s).
Proof. intros H. apply count_same, H. Qed.
Lemma gave_rely r c s s' : rely r s s' → gave r c (hist s') = gave r c (hist s).
Proof. intros H. apply count_same, H. Qed.

Lemma own_rely r s s' : rely r s s' → own r (hist s') = own r (hist s).
Proof. intros H. unfold own. by rewrite (rl_mine _ _ _ H). Qed.

Lemma over_rely r s s' : rely r s s' → over r s → over r s'.
Proof.
  intros H [Hi Hc]. split.
  - intros c. by rewrite (took_rely _ _ _ _ H), (gave_rely _ _ _ _ H).
  - intros c ->. destruct (Hc c eq_refl) as [Hd Hw]. split; [by apply H|]. intros i Hs. apply H, Hw. by apply H.
Qed.

Lemma initially_synced_rely c s s' : rely (CtlR c) s s' → initially_synced c s → initially_synced c s'.
Proof. intros H (n & later & before & Hn). exists n, later, before. by rewrite (own_rely _ _ _ H). Qed.

(** ** Changes that concern nobody *)

Record quiet s s' : Prop := {
  qt_started : started (go s') = started (go s);
  qt_chans : chans (go s') = chans (go s);
  qt_wgs : wgs (go s') = wgs (go s);
  qt_cancelled : cancelled (go s) tt = true → cancelled (go s') tt = true;
  qt_queues c : (len s c ≤ len s' c)%nat ∧ q_down (queues s' c) = q_down (queues s c);
  qt_server : serverDown s = true → serverDown s' = true;
  qt_synced i : synced s i = true → synced s' i = true;
  qt_hist : hist s' = hist s
}.

#[export] Instance quiet_preorder : PreOrder quiet.
Proof.
  split; [by split|]. intros s1 s2 s3 H1 H2. split; try (etrans; [apply H2 | apply H1]).
  - intros Hc. by apply H2, H1.
  - intros c. destruct (qt_queues _ _ H1 c) as [? E1], (qt_queues _ _ H2 c) as [? E2]. rewrite E2. split; [lia | done].
  - intros Hc. by apply H2, H1.
  - intros i Hc. by apply H2, H1.
Qed.

Lemma quiet_rely r s s' : quiet s s' → rely r s s'.
Proof.
  intros H. pose proof (qt_started _ _ H) as Hs. pose proof (qt_chans _ _ H) as Hc.
  pose proof (qt_wgs _ _ H) as Hw. pose proof (qt_hist _ _ H) as Hh.
  split; unfold members, closed, done_of, down; rewrite ?Hs, ?Hc, ?Hw, ?Hh; try done; try apply H.
  - intros c Hd. by rewrite (proj2 (qt_queues _ _ H c)).
  - intros c _ Hd. by rewrite <- (proj2 (qt_queues _ _ H c)).
  - intros c _ _. apply H.
Qed.

(** What others than [r] do. *)
Lemma Inv_quiet s s' : Inv s → quiet s s' → Inv s'.
Proof.
  intros HI H. pose proof (qt_started _ _ H) as Hs. pose proof (qt_chans _ _ H) as Hc.
  pose proof (qt_wgs _ _ H) as Hw. pose proof (qt_hist _ _ H) as Hh.
  assert (∀ r, rely r s s') as Hr by (intros r; by apply quiet_rely).
  split; unfold closed, done_of, members; rewrite ?Hs, ?Hc, ?Hw, ?Hh; try apply HI.
  - intros c Hi. eapply ready_before_closed; [apply (Hr LeadR) | by apply HI].
  - intros c Hi. eapply initially_synced_rely; [apply Hr | by apply HI].
  - intros r w Hi. eapply over_rely; [apply Hr | by eapply HI].
  - intros Hi. destruct (i_joined _ HI Hi) as (? & Hf & ? & ?). unfold joined, closed, done_of. rewrite Hs, Hw, Hc.
    split_and!; [by apply H | apply Hf | done | done].
  - intros c Hd. apply H, (i_down _ HI c). unfold down. by rewrite <- (proj2 (qt_queues _ _ H c)).
  - intros Hi. by apply H, HI.
  - intros r e Hi. eapply Forall_impl; [by apply (i_filled _ HI r)|]. intros i. apply H.
Qed.
(** ** The calls, one by one *)

(** What a call adds to the history. *)
Definition may_record r {R} (k : RunCall R) (x : R) s : Prop :=
  allowed r k (own r (hist s)) ∧ Forall (λ i, synced s i = true) (ev_filled (mkEv k x)) ∧
  match k in RunCall R return R → Prop with
  | QGet c => λ x, is_Some x → takes r c ∧ r ∈ started (go s) ∧ ∀ w, r ∉ done_of s w
  | QDone c _ => λ _, ∀ w, r ∉ done_of s w
  | Fatal => λ _, r = ListenR
  | _ => λ _, True
  end x.

Lemma took_cons r c e h : took r c ((r, e) :: h) = ((if ev_took c e then 1 else 0) + took r c h)%nat.
Proof. apply count_cons. Qed.
Lemma gave_cons r c e h : gave r c ((r, e) :: h) = ((if ev_gave c e then 1 else 0) + gave r c h)%nat.
Proof. apply count_cons. Qed.

Lemma record_rely r r' {R} (k : RunCall R) x s : r' ≠ r → rely r' s (record_call r k x s).
Proof.
  intros Hr. split; try done.
  - cbn [hist record_call]. by rewrite by_routine_ne.
  - intros e He. by apply list_elem_of_further.
Qed.

(** A call that takes or gives an item is not made by one that is done. *)
Lemma record_over r r' {R} (k : RunCall R) x s w :
  may_record r k x s → r' ∈ done_of s w → over r' s → over r' (record_call r k x s).
Proof.
  intros Hm Hd [Ho Hc]. split; [|exact Hc]. intros c. cbn [hist record_call].
  destruct Hm as (_ & _ & Hm). destruct (decide (r' = r)) as [->|Hr]; [|unfold took, gave; rewrite !count_ne by done; apply Ho].
  rewrite took_cons, gave_cons, Ho. f_equal. destruct k; try done; cbn in *.
  - destruct x as [k|]; [|by rewrite andb_false_r]. destruct (Hm ltac:(done)) as (_ & _ & Hno). by destruct (Hno w).
  - by destruct (Hm w).
Qed.

Lemma record_Inv r {R} (k : RunCall R) x s : Inv s → may_record r k x s → Inv (record_call r k x s).
Proof.
  intros HI (Ha & Hf & Hm). split; try apply HI.
  - intros r' c e [He|He]%elem_of_cons Ht; [|by eapply HI]. simplify_eq. destruct k; try done. cbn in *.
    apply andb_true_iff in Ht as [->%bool_decide_eq_true Hx]. destruct x; [|done]. by destruct (Hm ltac:(done)) as (? & ? & _).
  - intros c Hc. destruct (i_synced _ HI c Hc) as (n & later & before & Hn & Hg). destruct (decide (CtlR c = r)) as [<-|Hr];
      [|exists n, later, before; split; [|done]; cbn [record_call hist]; by rewrite own_ne].
    exists n, (mkEv k x :: later), before. cbn [record_call hist]. rewrite own_cons, Hn. split; [done|].
    etrans; [exact Hg|]. change (mkEv k x :: later) with ([mkEv k x] ++ later). rewrite given_app. lia.
  - intros r' w Hw. eapply record_over; [by split | exact Hw | by eapply HI].
  - intros r' e [He|He]%elem_of_cons Ht; [|by eapply HI]. simplify_eq. by destruct k.
  - intros r'. cbn [record_call hist]. destruct (decide (r' = r)) as [->|Hr]; [|rewrite own_ne by done; apply HI].
    rewrite own_cons. split; [done | apply HI].
  - intros r' e [He|He]%elem_of_cons; [by simplify_eq | by eapply HI].
Qed.
(** A goroutine is started. *)
Definition may_start (q : Routine) s : Prop :=
  match q with
  | CtlR c => ready_before c s ∧ ¬ closed s RunDone ∧ (length (members s ControllersWG) < added (wgs (go s) ControllersWG))%nat
  | WorkerR c i => (i < workers_of c)%nat ∧ CtlR c ∈ started (go s) ∧ closed s (InitSyncDone c) ∧ (∀ w, CtlR c ∉ done_of s w) ∧
      (length (members s (WorkersWG c)) < added (wgs (go s) (WorkersWG c)))%nat
  | _ => True
  end.

Lemma member_starter w q : member w q → starter q = Some (wg_owner w).
Proof. destruct w, q; try done. by intros ->. Qed.

Lemma members_start w q s :
  members (set_go (start q (go s)) s) w = if decide (member w q) then q :: members s w else members s w.
Proof. unfold members, set_go, start. cbn [go started]. by rewrite filter_cons. Qed.

Lemma start_rely r q s : starter q ≠ Some r → rely r s (set_go (start q (go s)) s).
Proof.
  intros Hq. split; try done.
  - intros p. cbn. apply list_elem_of_further.
  - intros p Hp [->|?]%elem_of_cons; [done|]. done.
  - intros w Hw. rewrite members_start. case_decide as Hm; [|done]. apply member_starter in Hm. congruence.
Qed.

Lemma start_Inv q s : Inv s → q ∉ started (go s) → may_start q s → Inv (set_go (start q (go s)) s).
Proof.
  intros HI Hn Hq. split; try apply HI.
  - intros c [<-|Hc]%elem_of_cons; [apply Hq | by apply HI].
  - intros c i [<-|Hi]%elem_of_cons.
    + destruct Hq as (? & ? & ? & _). split_and!; [done | by apply list_elem_of_further | done].
    + destruct (i_worker _ HI c i Hi) as (? & ? & ?). split_and!; [done | by apply list_elem_of_further | done].
  - intros r c e He Ht. destruct (i_took _ HI r c e He Ht). split; [done | by apply list_elem_of_further].
  - intros w. destruct (i_finished _ HI w) as [Hnd Hf]. split; [done|]. intros r Hr. destruct (Hf r Hr).
    split; [done | by apply list_elem_of_further].
  - intros w. rewrite members_start. case_decide as Hm; [|apply HI].
    change (S (length (members s w)) ≤ added (wgs (go s) w))%nat.
    destruct w, q; try done; cbn in Hm; [apply Hq|]. subst. apply Hq.
  - constructor; [done | apply HI].
  - intros r w Hr. destruct (i_over _ HI r w Hr) as [Hi Hc]. split; [done|]. intros c ->.
    destruct (Hc c eq_refl) as [Hd Hw]. split; [done|]. intros i [Hi'|Hi']%elem_of_cons; [|by apply Hw]. subst q.
    destruct Hq as (_ & _ & _ & Hno & _). by destruct (Hno w).
  - intros Hc. destruct (i_joined _ HI Hc) as (? & Hf & ? & ?). split_and!; try done.
    intros c [Hi|Hi]%elem_of_cons; [|by apply Hf]. subst q. by destruct Hq as (_ & [] & _).
Qed.

(** A channel changes: it is closed, or a value comes or goes. *)
Definition may_close (ch : Channel) s : Prop :=
  match ch with
  | InitSyncDone c => initially_synced c s
  | RunDone => joined s
  | HttpDone => serverDown s = true
  | _ => True
  end.

Lemma closed_chan ch x s ch' : closed (set_go (set_chan ch x (go s)) s) ch' ↔
  if decide (ch = ch') then is_closed x = true else closed s ch'.
Proof. unfold closed. cbn. unfold insert, fn_insert. by case_decide. Qed.

Lemma closed_mono ch x s ch' : (closed s ch → is_closed x = true) → closed s ch' → closed (set_go (set_chan ch x (go s)) s) ch'.
Proof. intros Hx Hc. apply closed_chan. case_decide; subst; auto. Qed.

Lemma chan_rely r ch x s :
  (closed s ch → is_closed x = true) → (owner ch = r → is_closed x = true → closed s ch) →
  (r = LeadR → ch = RunStart → buffered x ≤ buffered (chans (go s) RunStart))%nat →
  rely r s (set_go (set_chan ch x (go s)) s).
Proof.
  intros Hc Ho Hb. split; try done.
  - intros ch'. by apply closed_mono.
  - intros ch' Hch. rewrite closed_chan. case_decide; subst; auto.
  - intros Hr. cbn. unfold insert, fn_insert. case_decide; [by apply Hb | done].
Qed.

Lemma chan_Inv ch x s : Inv s →
  (closed s ch → is_closed x = true) → (is_closed x = true → closed s ch ∨ may_close ch s) →
  (ch ≠ RunStart → buffered x = 0%nat) → Inv (set_go (set_chan ch x (go s)) s).
Proof.
  intros HI Hc Hn Hb.
  assert (∀ ch', closed (set_go (set_chan ch x (go s)) s) ch' → closed s ch' ∨ ch' = ch ∧ may_close ch s) as Hold.
  { intros ch'. rewrite closed_chan. case_decide; subst; [|auto]. intros Hx. destruct (Hn Hx); auto. }
  assert (∀ ch', closed s ch' → closed (set_go (set_chan ch x (go s)) s) ch') as Hmono by (intros; by apply closed_mono).
  split; try apply HI.
  - intros c Hi. eapply ready_before_closed; [exact Hmono | by apply HI].
  - intros c i Hi. destruct (i_worker _ HI c i Hi) as (? & ? & ?). auto.
  - intros c [Hi|[<- Hi]]%Hold; [by apply (i_synced _ HI) | done].
  - intros Hi. assert (joined s) as (? & ? & ? & ?) by (destruct (Hold _ Hi) as [?|[<- ?]]; [by apply HI | done]).
    split_and!; auto.
  - intros Hi. destruct (Hold _ Hi) as [?|[<- ?]]; [by apply (i_http _ HI) | done].
  - intros ch' Hch. cbn. unfold insert, fn_insert. case_decide; [subst; auto | by apply HI].
Qed.
(** The wait groups. *)
Lemma wg_change w x s w' : wgs (go (set_go (set_wg w x (go s)) s)) w' = if decide (w = w') then x else wgs (go s) w'.
Proof. done. Qed.

Lemma wg_add_rely r w n s : wg_owner w ≠ r → rely r s (set_go (set_wg w (mkWaitGroup n (done_of s w)) (go s)) s).
Proof.
  intros Hw. split; try done; unfold done_of; intros w'; rewrite wg_change; case_decide; subst; try done.
Qed.

Lemma wg_add_Inv w s : Inv s →
  Inv (set_go (set_wg w (mkWaitGroup (S (added (wgs (go s) w))) (done_of s w)) (go s)) s).
Proof.
  intros HI. set (s' := set_go _ s).
  assert (∀ w', done_of s' w' = done_of s w') as Hd.
  { intros w'. unfold done_of, s'. rewrite wg_change. case_decide; by subst. }
  split; try apply HI.
  - intros w'. rewrite Hd. apply HI.
  - intros w'. unfold s'. rewrite wg_change. pose proof (i_added _ HI w') as Ha. case_decide; subst; [|done].
    change (length (members s w') ≤ S (added (wgs (go s) w')))%nat. lia.
  - intros r w'. rewrite Hd. intros Hr. destruct (i_over _ HI r w' Hr) as [Hi Hc]. split; [done|].
    intros c ->. destruct (Hc c eq_refl) as [? Hw]. split; [done|]. intros i Hi'. rewrite Hd. by apply Hw.
  - intros Hc. destruct (i_joined _ HI Hc) as (? & Hf & ? & ?). split_and!; try done.
    intros c Hi. rewrite Hd. by apply Hf.
Qed.

Lemma wg_done_rely r w r' s : r' ≠ r →
  rely r' s (set_go (set_wg w (mkWaitGroup (added (wgs (go s) w)) (r :: done_of s w)) (go s)) s).
Proof.
  intros Hr. split; try done.
  - intros w' _. rewrite wg_change. by case_decide; subst.
  - intros w' q. unfold done_of. rewrite wg_change. case_decide; subst; [apply list_elem_of_further | done].
  - intros w'. unfold done_of. rewrite wg_change. case_decide; subst; [|done]. by intros [->|?]%elem_of_cons.
Qed.

Lemma wg_done_Inv r w s : Inv s → member w r → r ∈ started (go s) → r ∉ done_of s w → over r s →
  Inv (set_go (set_wg w (mkWaitGroup (added (wgs (go s) w)) (r :: done_of s w)) (go s)) s).
Proof.
  intros HI Hm Hs Hn Ho. set (s' := set_go _ s).
  assert (∀ w' q, q ∈ done_of s' w' → q ∈ done_of s w' ∨ q = r) as Hd.
  { intros w' q. unfold done_of, s'. rewrite wg_change. case_decide; subst; [|auto]. intros [->|?]%elem_of_cons; auto. }
  assert (∀ w' q, q ∈ done_of s w' → q ∈ done_of s' w') as Hmono.
  { intros w' q. unfold done_of, s'. rewrite wg_change. case_decide; subst; [apply list_elem_of_further | done]. }
  split; try apply HI.
  - intros w'. unfold done_of, s'. rewrite wg_change. destruct (i_finished _ HI w') as [Hnd Hf].
    case_decide; subst; [|done]. split; [by constructor|]. intros q [->|Hq]%elem_of_cons; [done | by apply Hf].
  - intros w'. unfold s'. rewrite wg_change. pose proof (i_added _ HI w'). by case_decide; subst.
  - intros q w' Hq. assert (over q s) as [Hi Hc] by (destruct (Hd _ _ Hq) as [? | ->]; [by eapply HI | done]).
    split; [done|]. intros c ->. destruct (Hc c eq_refl) as [? Hw]. split; [done|]. intros i Hi'. by apply Hmono, Hw.
  - intros Hc. destruct (i_joined _ HI Hc) as (? & Hf & ? & ?). split_and!; try done.
    intros c Hi. by apply Hmono, Hf.
Qed.

(** The work queues. *)
Lemma queue_change c (q : Q) s c' : queues (set_queue c q s) c' = if decide (c = c') then q else queues s c'.
Proof. done. Qed.

Lemma get_rely r r' c (q : Q) s : Inv s → takes r c → r ∈ started (go s) → r' ≠ r → q_down q = q_down (queues s c) →
  rely r' s (set_queue c q s).
Proof.
  intros HI Ht Hs Hr Hq. split; try done.
  - intros c'. unfold down. rewrite queue_change. case_decide; subst; congruence.
  - intros c' _. unfold down. rewrite queue_change. case_decide; subst; congruence.
  - intros c' -> Hno. unfold len. rewrite queue_change. case_decide; [subst c'|done].
    destruct Ht as [->|[i ->]]; [done|]. by destruct (Hno i).
Qed.

Lemma queue_Inv c (q : Q) s : Inv s → (down s c → q_down q = true) →
  (q_down q = true → cancelled (go s) tt = true) → Inv (set_queue c q s).
Proof.
  intros HI Hq Hx. split; try apply HI.
  2: { intros c'. unfold down. rewrite queue_change. case_decide; [exact Hx | apply HI]. }
  intros r w Hr. destruct (i_over _ HI r w Hr) as [Hi Hc]. split; [done|]. intros c' ->.
  destruct (Hc c' eq_refl) as [Hd Hw]. split; [|done]. unfold down. rewrite queue_change. case_decide; [subst; auto | done].
Qed.

Lemma shutdown_rely r c s : r ≠ CtlR c → rely r s (set_queue c (q_ShutDown (queues s c)) s).
Proof.
  intros Hr. split; try done.
  - intros c'. unfold down. rewrite queue_change. case_decide; [|done]. intros _. apply shutdown_down.
  - intros c' ->. unfold down. rewrite queue_change. case_decide; [subst; done | done].
  - intros c' -> _. unfold len. rewrite queue_change. case_decide; [subst; apply shutdown_len | done].
Qed.

Lemma quiet_queue c (q : Q) s : (len s c ≤ q_Len q)%nat → q_down q = q_down (queues s c) → quiet s (set_queue c q s).
Proof.
  intros Hl Hd. split; try done. intros c'. unfold len. rewrite queue_change. case_decide; subst; [done|]. split; [lia | done].
Qed.

(** ** What is known at a call *)

Definition at_prim (r : Routine) {R} (k : MCall R) s : Prop :=
  match k with
  | Go q => starter q = Some r ∧ q ∉ started (go s) ∧ may_start q s
  | Close ch => owner ch = r ∧ ¬ closed s ch ∧ may_close ch s
  | Send ch => ch = RunStart ∧ r = LeadR ∧ ¬ closed s ch ∧ buffered (chans (go s) ch) = 0%nat
  | Select cases default => default = true ∨ OnDone tt ∈ cases ∨ (∃ d, Timer d ∈ cases) ∨
      r = LeadR ∧ cancelled (go s) tt = true ∧
      (cases = [Recv HttpDone] ∧ HttpR ∈ started (go s) ∨ cases = [Recv InformersDone] ∧ InformersR ∈ started (go s))
  | WgAdd w => wg_owner w = r
  | WgDone w => member w r ∧ r ∈ started (go s) ∧ r ∉ done_of s w ∧ over r s
  | WgWait w => wg_owner w = r ∧ cancelled (go s) tt = true ∧ added (wgs (go s) w) = length (members s w) ∧
      ∀ c, w = WorkersWG c → down s c
  | _ => True
  end.

Definition at_call (rounds : nat) (r : Routine) R (k : RunCall R) s : Prop :=
  match k with
  | Prim k => at_prim r k s
  | QGet c => takes r c ∧ r ∈ started (go s) ∧ (∀ w, r ∉ done_of s w) ∧
      (r = CtlR c → (∀ i, WorkerR c i ∉ started (go s)) ∧ (0 < len s c)%nat) ∧ allowed r k (own r (hist s))
  | QDone c _ => (∀ w, r ∉ done_of s w) ∧ allowed r k (own r (hist s))
  | QLen _ | SyncItem _ _ => allowed r k (own r (hist s))
  | QShutDown c => r = CtlR c ∧ cancelled (go s) tt = true
  | Fatal => r = ListenR
  | OutOfRounds => ∃ c i, r = WorkerR c i ∧ (rounds ≤ took r c (hist s))%nat
  | _ => True
  end.
Lemma joined_rely s s' : rely LeadR s s' → joined s → joined s'.
Proof.
  intros H (Hc & Hf & Hh & Hi). split_and!; try by apply H. intros c Hs. apply H, Hf. by apply H.
Qed.

Lemma may_start_rely r q s s' : starter q = Some r → rely r s s' → may_start q s → may_start q s'.
Proof.
  intros Hq H. destruct q; try done; cbn in *; simplify_eq.
  - intros (Hr & Hc & Ha). split_and!.
    + eapply ready_before_closed; [apply H | done].
    + intros Hx. by apply Hc, H.
    + by rewrite (rl_members _ _ _ H ControllersWG eq_refl), (rl_added _ _ _ H ControllersWG eq_refl).
  - intros (Hi & Hs & Hc & Hn & Ha). split_and!; [done | by apply H | by apply H | intros w Hw; apply (Hn w); by apply H |].
    by rewrite (rl_members _ _ _ H (WorkersWG c) eq_refl), (rl_added _ _ _ H (WorkersWG c) eq_refl).
Qed.

Lemma may_close_rely r ch s s' : owner ch = r → rely r s s' → may_close ch s → may_close ch s'.
Proof.
  intros <- H. destruct ch; try done; cbn; [by apply joined_rely | apply H | by apply initially_synced_rely].
Qed.

Lemma at_prim_rely r {R} (k : MCall R) s s' : at_prim r k s → rely r s s' → at_prim r k s'.
Proof.
  intros Hk H. destruct k; cbn in *; try done.
  - destruct Hk as (Hq & Hn & Hs). split_and!; [done | intros Hi; by apply Hn, H | by eapply may_start_rely].
  - destruct Hk as (Ho & Hn & Hc). split_and!; [done | intros Hx; by apply Hn, H | by eapply may_close_rely].
  - destruct Hk as (-> & -> & Hn & Hb). split_and!; [done | done | intros Hx; by apply Hn, H |].
    pose proof (rl_buffered _ _ _ H eq_refl). lia.
  - destruct Hk as [?|[?|[?|(-> & Hc & Hr)]]]; [tauto.. |]. right. right. right.
    split_and!; [done | by apply H |]. destruct Hr as [[-> ?]|[-> ?]]; [left | right]; (split; [done | by apply H]).
  - destruct Hk as (Hm & Hs & Hn & Ho). split_and!; [done | by apply H | intros Hx; by apply Hn, H | by eapply over_rely].
  - destruct Hk as (Hw & Hc & Ha & Hd). split_and!; [done | by apply H | | intros c ->; by apply H, Hd].
    by rewrite (rl_members _ _ _ H w Hw), (rl_added _ _ _ H w Hw).
Qed.

Lemma at_call_allowed rounds r R (k : RunCall R) s : at_call rounds r R k s → allowed r k (own r (hist s)).
Proof. destruct k; try done; by intros Hk; apply Hk. Qed.

Lemma at_call_rely rounds r R (k : RunCall R) s s' : at_call rounds r R k s → rely r s s' → at_call rounds r R k s'.
Proof.
  intros Hk H. destruct k; cbn in *; rewrite ?(own_rely _ _ _ H); try done; [by eapply at_prim_rely | | | |].
  2: { destruct Hk as [Hn Ha]. split; [|done]. intros w Hw. by apply (Hn w), H. }
  2: { split; [apply Hk | apply (rl_cancelled _ _ _ H), Hk]. }
  2: { destruct Hk as (c & i & Hr & Ht). exists c, i. by rewrite (took_rely _ _ _ _ H). }
  destruct Hk as (Ht & Hs & Hn & Hl & Ha). split_and!; [done | by apply H | intros w Hw; by apply (Hn w), H | | done].
  intros ->. destruct (Hl eq_refl) as [Hno Hlen].
  assert (∀ i, WorkerR c i ∉ started (go s')) as Hno' by (intros i Hi; by apply (Hno i), H).
  split; [done|]. pose proof (rl_len _ _ _ H c eq_refl Hno'). lia.
Qed.

(** ** The step *)

Lemma effect_hist r R (k : RunCall R) s x s' : effect r R k s x s' → hist s' = hist s.
Proof. by destruct 1. Qed.

Lemma prim_respects r R (k : MCall R) s x g : Inv s → at_prim r k s → go_answers r R k (go s) x g →
  Inv (set_go g s) ∧ ∀ r', r' ≠ r → rely r' s (set_go g s).
Proof.
  intros HI Hk Ha. revert Hk. remember (go s) as g0 eqn:Hg. revert Hg.
  assert (∀ s', quiet s s' → Inv s' ∧ ∀ r', r' ≠ r → rely r' s s') as Hquiet.
  { intros s' Hq. split; [by eapply Inv_quiet | intros; by apply quiet_rely]. }
  destruct Ha as [g Hb | q g Hq | ch g Hc | ch g Hc Hb | cases default i gd g Hi Hr | cases g Hn | c g | c g | w g | w g Hl | w g Hl | g];
    intros -> Hk; cbn in Hk; try by apply Hquiet.
  - destruct Hk as (Hs & _ & Hm). split; [by apply start_Inv|]. intros r' Hr'. apply start_rely. congruence.
  - destruct Hk as (Ho & Hn & Hm). split.
    + apply chan_Inv; cbn; [done | done | tauto | by apply HI].
    + intros r' Hr'. apply chan_rely; cbn; [done | congruence | intros _ ->; lia].
  - destruct Hk as (-> & -> & Hn & _). split.
    + apply chan_Inv; cbn; [done | by intros ? | done | done].
    + intros r' Hr'. apply chan_rely; cbn; [by intros ? | done | done].
  - destruct gd as [ch | [] | ]; cbn [receive]; try by apply Hquiet. split.
    + apply chan_Inv; cbn; [done | by unfold closed | tauto |]. intros Hch. by rewrite (i_buffered _ HI ch Hch).
    + intros r' Hr'. apply chan_rely; cbn; [by unfold closed | by unfold closed | intros _ ->; lia].
  - apply Hquiet. split; try done. by destruct c.
  - split; [by apply wg_add_Inv|]. intros r' Hr'. apply wg_add_rely. congruence.
  - destruct Hk as (Hm & Hs & Hn & Ho). split; [by apply wg_done_Inv|]. intros r' Hr'. by apply wg_done_rely.
Qed.

Lemma effect_respects rounds r R (k : RunCall R) s x s' : Inv s → at_call rounds r R k s → effect r R k s x s' →
  (Inv s' ∧ ∀ r', r' ≠ r → rely r' s s') ∧ may_record r k x s'.
Proof.
  intros HI Hk He. pose proof (at_call_allowed _ _ _ _ _ Hk) as Hal. rewrite <- (effect_hist _ _ _ _ _ _ He) in Hal.
  revert Hal HI Hk.
  assert (∀ s s', Inv s → quiet s s' → Inv s' ∧ ∀ r', r' ≠ r → rely r' s s') as Hquiet.
  { intros s1 s2 H1 Hq. split; [by eapply Inv_quiet | intros; by apply quiet_rely]. }
  destruct He as [R k s x g Ha | s | | | c s | c s x q Hx | c key s | c key s | c key s | c s | | | s Hd | s | s];
    intros Hal HI Hk; (split; [|split; [exact Hal | split; [|]]]); clear Hal; cbn in Hk |- *;
    try done; try (by apply Hquiet); try (by constructor).
  - by eapply prim_respects.
  - destruct Hk as (Ht & Hs & Hn & Hl & _).
    assert (q_down q = q_down (queues s c)) as Hq.
    { destruct x as [key|]; [apply (get_takes _ _ _ Hx)|]. by destruct (get_quits _ _ Hx) as [-> ->]. }
    split; [apply queue_Inv; [done | unfold down; congruence | rewrite Hq; apply HI]|]. intros r' Hr'. by apply (get_rely r).
  - intros _. destruct Hk as (Ht & Hs & Hn & _). done.
  - apply Hquiet; [done|]. by apply quiet_queue; apply done_keeps.
  - apply Hk.
  - apply Hquiet; [done|]. by apply quiet_queue; apply forget_keeps.
  - apply Hquiet; [done|]. by apply quiet_queue; apply again_keeps.
  - destruct Hk as [-> Hx]. split; [apply queue_Inv; [done | intros; apply shutdown_down | done]|].
    intros r' Hr'. by apply shutdown_rely.
Qed.

(** A call that knows what it has to keeps the invariant, and what the others rely
    on. *)
Lemma calls_respect rounds r R (k : RunCall R) s x s' : Inv s → at_call rounds r R k s → answered r R k s x s' →
  Inv s' ∧ ∀ r', r' ≠ r → rely r' s s'.
Proof.
  intros HI Hk [s1 _ He]. destruct (effect_respects _ _ _ _ _ _ _ HI Hk He) as [[HI' Hr] Hm].
  split; [by apply record_Inv|]. intros r' Hr'. etrans; [by apply Hr | by apply record_rely].
Qed.

Lemma environment_respects s s' : Inv s → environment s s' → Inv s' ∧ ∀ r, rely r s s'.
Proof.
  assert (∀ s s', Inv s → quiet s s' → Inv s' ∧ ∀ r, rely r s s') as Hquiet.
  { intros s1 s2 H1 Hq. split; [by eapply Inv_quiet | intros; by apply quiet_rely]. }
  intros HI He. destruct He as [s | i s Hw | e known s Hw | c q s Hq | r s Hr Hn].
  - by apply Hquiet.
  - apply Hquiet; [done|]. split; try done. intros j Hj. cbn. unfold insert, fn_insert. by case_decide.
  - apply Hquiet; [done|]. clear HI Hw. revert s. induction (handle_event known e) as [|[c key] l IH]; intros s; [done|].
    cbn [foldl]. etrans; [|apply IH]. apply quiet_queue; apply add_keeps.
  - apply Hquiet; [done|]. by apply quiet_queue; apply tick_keeps.
  - split; [apply start_Inv; [done | done | by destruct Hr as [-> | ->]]|].
    intros r'. apply start_rely. by destruct Hr as [-> | ->].
Qed.

Lemma init_Inv : Inv init_world.
Proof.
  split; cbn; try done; try (by constructor); try (by intros ? ?%not_elem_of_nil); try (by intros ? ? ?%not_elem_of_nil).
  - intros r c e He. by apply not_elem_of_nil in He.
  - intros w. split; [constructor | by intros ? ?%not_elem_of_nil].
  - intros c. unfold down. cbn. by rewrite new_up.
Qed.
End Logic.
