(* ===== verification/ManagerCorrect.v ===== *)
(** The manager starts in order, drains, and comes to an end.

    Each goroutine is verified alone, against what the others leave it
    ([ManagerLogic]).  Together: no item is handled before the initial syncs that
    the controller waits for are done; nothing is in flight any more when [run]
    returns; and once the context is done, [run] returns, whatever the schedule. *)

From stdpp Require Import functions.
From S2P Require Import Prelude GoStd ApiTypes Prog Kube ServiceLabels FipController PoolController QuotaController RelyGuarantee Goroutines WorkQueue Manager ManagerLogic.

Section Correct.
Context {Q : Type} `{HQueue : WorkQueue Q} `{HKey : KeyFunc} `{!WorkQueueLaws Q} (rounds : nat).
Implicit Types (s : World Q) (r : Routine) (c : Ctl) (w : Group).

Abbreviation ens := (ensures (answered (Q := Q)) Inv rely (at_call rounds)).

(** ** What a call leaves *)

Definition after r {R} (k : RunCall R) s (x : R) s2 : Prop :=
  ∃ s', s2 = record_call r k x s' ∧
  match k in RunCall R return R → Prop with
  | Prim k => λ x, ∃ g, go_after r k (go s) x g ∧ s' = set_go g s
  | FactoryStart => λ _, s' = set_watching s
  | WaitForCacheSync _ => λ x, (x = false → cancelled (go s) tt = true) ∧ s' = s
  | QLen c => λ x, x = len s c ∧ s' = s
  | QGet c => λ x, ∃ q, q_Get (queues s c) = Some (x, q) ∧ s' = set_queue c q s
  | QDone c key => λ _, s' = set_queue c (q_Done key (queues s c)) s
  | QForget c key => λ _, s' = set_queue c (q_Forget key (queues s c)) s
  | QAddRateLimited c key => λ _, s' = set_queue c (q_AddRateLimited key (queues s c)) s
  | QShutDown c => λ _, s' = set_queue c (q_ShutDown (queues s c)) s
  | ServerShutdown => λ _, s' = set_serverDown s
  | Fatal => λ _, s' = set_go (set_exited (go s)) s
  | _ => λ _, s' = s
  end x.

Lemma answered_after r R (k : RunCall R) s x s2 : answered r R k s x s2 → after r k s x s2.
Proof.
  intros [s' _ He]. exists s'. split; [done|]. destruct He; try done; cbn; eauto using go_answers_after.
Qed.

Lemma ens_step r {R B} (k : RunCall R) (f : R → Prog RunCall B) P s : at_call rounds r R k s →
  (∀ s1 x s2, rely r s s1 → Inv s1 → Inv s2 → after r k s1 x s2 → ens r (f x) P s2) →
  ens r (pbind (call k) f) P s.
Proof. intros Hk Hf. split; [done|]. intros s1 x s2 Hr H1 Ha H2. by eapply Hf; eauto using answered_after. Qed.

Lemma ens_last r {R} (k : RunCall R) (P : R → World Q → Prop) s : at_call rounds r R k s →
  (∀ s1 x s2, rely r s s1 → Inv s1 → Inv s2 → after r k s1 x s2 → P x s2) → ens r (call k) P s.
Proof. intros Hk Hf. split; [done|]. intros s1 x s2 Hr H1 Ha H2. by eapply Hf; eauto using answered_after. Qed.

(** ** Workers *)

(** [r] is running, and no item is in its hands. *)
Definition idle r s : Prop :=
  r ∈ started (go s) ∧ (∀ w, r ∉ done_of s w) ∧ ∀ c, took r c (hist s) = gave r c (hist s).

Lemma idle_rely r s s' : rely r s s' → idle r s → idle r s'.
Proof.
  intros H (Hs & Hn & Hi). split_and!; [by apply H | intros w Hw; by apply (Hn w), H |].
  intros c. by rewrite (took_rely _ _ _ _ H), (gave_rely _ _ _ _ H).
Qed.

(** A controller before its initial sync is done. *)
Definition fresh c s : Prop :=
  (∀ i, WorkerR c i ∉ started (go s)) ∧ ¬ down s c ∧ ¬ closed s (InitSyncDone c) ∧
  added (wgs (go s) (WorkersWG c)) = 0%nat.

Lemma fresh_rely c s s' : rely (CtlR c) s s' → fresh c s → fresh c s'.
Proof.
  intros H (Hw & Hd & Hc & Ha). split_and!.
  - intros i Hi. by apply (Hw i), H.
  - intros Hx. by apply Hd, H.
  - intros Hx. by apply Hc, H.
  - by rewrite (rl_added _ _ _ H (WorkersWG c) eq_refl).
Qed.

Lemma fresh_len c s s' : rely (CtlR c) s s' → fresh c s → (len s c ≤ len s' c)%nat.
Proof. intros H Hf. apply H; [done|]. apply (fresh_rely _ _ _ H Hf). Qed.

(** Calls that are not about items leave their count. *)
Lemma idle_record r {R} (k : RunCall R) x s s' :
  started (go s') = started (go s) → wgs (go s') = wgs (go s) → hist s' = hist s →
  (∀ c, ev_took c (mkEv k x) = false ∧ ev_gave c (mkEv k x) = false) → idle r s → idle r (record_call r k x s').
Proof.
  intros Hs Hw Hh Hk (H1 & H2 & H3). unfold idle, done_of. cbn [go record_call hist]. rewrite Hs, Hw, Hh.
  split_and!; [done | done |]. intros c. rewrite took_cons, gave_cons. destruct (Hk c) as [-> ->]. apply H3.
Qed.
(** ... and that one item is, of whom the last calls of [r] are known. *)
Definition holding r c past s : Prop :=
  own r (hist s) = past ∧ r ∈ started (go s) ∧ (∀ w, r ∉ done_of s w) ∧
  ∀ c', took r c' (hist s) = ((if decide (c = c') then 1 else 0) + gave r c' (hist s))%nat.

Lemma holding_rely r c past s s' : rely r s s' → holding r c past s → holding r c past s'.
Proof.
  intros H (Hp & Hs & Hn & Hi). split_and!; [by rewrite (own_rely _ _ _ H) | by apply H | intros w Hw; by apply (Hn w), H |].
  intros c'. by rewrite (took_rely _ _ _ _ H), (gave_rely _ _ _ _ H).
Qed.

(** What a goroutine knows besides, and neither the others nor the calls that
    change nothing disturb. *)
Record frame r (K : World Q → Prop) : Prop := {
  fr_rely s s' : rely r s s' → K s → K s';
  fr_record {R} (k : RunCall R) x s : K s → K (record_call r k x s)
}.

Lemma frame_true r : frame r (λ _, True).
Proof. by split. Qed.

Lemma frame_and r K1 K2 : frame r K1 → frame r K2 → frame r (λ s, K1 s ∧ K2 s).
Proof. intros [H1 H2] [H3 H4]. split; intros; naive_solver. Qed.

Lemma frame_fresh c : frame (CtlR c) (fresh c).
Proof. split; [apply fresh_rely | done]. Qed.

(** The queue of a controller without workers only grows under its hands. *)
Lemma frame_len c n : frame (CtlR c) (λ s, fresh c s ∧ n ≤ len s c)%nat.
Proof.
  split; [|done]. intros s s' H [Hf Hn]. split; [by eapply fresh_rely|]. pose proof (fresh_len _ _ _ H Hf). lia.
Qed.

(** [r] has called [l], and maybe more since. *)
Definition since r l s : Prop := ∃ later, own r (hist s) = later ++ l.

Lemma frame_since r l : frame r (since r l).
Proof.
  split; [intros s s' H [later Hl]; exists later; by rewrite (own_rely _ _ _ H)|].
  intros R k x s [later Hl]. exists (mkEv k x :: later). cbn [record_call hist]. by rewrite own_cons, Hl.
Qed.

(** A call that changes nothing of what anybody relies on. *)
Lemma ens_quiet r c {R} (k : RunCall R) past K s : frame r K → at_call rounds r R k s →
  (∀ s1 x s2, after r k s1 x s2 → ∃ s', quiet s1 s' ∧ s2 = record_call r k x s') →
  (∀ c x, ev_took c (mkEv k x) = false ∧ ev_gave c (mkEv k x) = false) → holding r c past s → K s →
  ens r (call k) (λ x s', holding r c (mkEv k x :: past) s' ∧ K s' ∧ gave r c (hist s') = gave r c (hist s)) s.
Proof.
  intros HK Hk Hq He Hh Ks. apply ens_last; [done|]. intros s1 x s2 Hr _ _ Ha.
  destruct (Hq _ _ _ Ha) as (s' & Hs & ->).
  assert (rely r s s') as Hrs by (etrans; [exact Hr | by apply quiet_rely]).
  destruct (holding_rely _ _ _ _ _ Hrs Hh) as (Hp & H1 & H2 & H3). split_and!.
  - split_and!; [cbn [record_call hist]; by rewrite own_cons, Hp | done | done |].
    intros c'. cbn [record_call hist]. rewrite took_cons, gave_cons. destruct (He c' x) as [-> ->]. apply H3.
  - apply HK. by eapply HK.
  - cbn [record_call hist]. rewrite gave_cons, (gave_rely _ _ _ _ Hrs). by destruct (He c x) as [_ ->].
Qed.

Lemma quiet_again r c key s1 x s2 : after r (QAddRateLimited c key) s1 x s2 →
  ∃ s', quiet s1 s' ∧ s2 = record_call r (QAddRateLimited c key) x s'.
Proof. intros (s' & -> & ->). eexists. split; [|done]. apply quiet_queue; apply again_keeps. Qed.
Lemma quiet_forget r c key s1 x s2 : after r (QForget c key) s1 x s2 →
  ∃ s', quiet s1 s' ∧ s2 = record_call r (QForget c key) x s'.
Proof. intros (s' & -> & ->). eexists. split; [|done]. apply quiet_queue; apply forget_keeps. Qed.

Lemma finish_item r c key (err : option error) before K s : frame r K →
  holding r c (mkEv (SyncItem c key) err :: mkEv (QGet c) (Some key) :: before) s → K s →
  ens r (pbind (match err with Some _ => call (QAddRateLimited c key) | None => call (QForget c key) end)
          (λ _, pbind (call (QDone c key)) (λ _, Ret true)))
    (λ b s', b = true ∧ idle r s' ∧ gave r c (hist s') = S (gave r c (hist s)) ∧ K s') s.
Proof.
  intros HK Hh Ks.
  eapply (ensures_bind _ _ _ _ _ _ _ (λ _ s', (∃ past, handled c key past ∧ holding r c past s') ∧ K s' ∧
    gave r c (hist s') = gave r c (hist s))).
  { destruct err as [e|]; (eapply ensures_post; [apply ens_quiet; [exact HK | done | | done | exact Hh | done]|]);
      try (intros; by (eapply quiet_again || eapply quiet_forget));
      cbn beta; intros [] s' [H1 H2]; (split; [|done]); eexists; (split; [|exact H1]); [exists (Some e) | exists None]; by eexists. }
  intros _ s3 ((past & Hp & H3) & K3 & Hg). apply ens_step; [split; [apply H3 | destruct H3 as [Ho _]; rewrite Ho; exact Hp]|].
  intros s1 x s2 Hr _ _ (s' & -> & ->). cbn [record_call hist].
  apply (holding_rely _ _ _ _ _ Hr) in H3 as (_ & H1 & H2 & Hi). split_and!; [done | split_and!; [done | done |] | |].
  - intros c'. cbn [hist record_call set_queue]. rewrite took_cons, gave_cons, Hi.
    cbn [ev_took ev_gave ev_c]. case_decide; case_bool_decide; congruence || done.
  - cbn [hist record_call set_queue]. rewrite gave_cons. cbn [ev_gave ev_c]. rewrite bool_decide_true by done.
    rewrite (gave_rely _ _ _ _ Hr). lia.
  - apply HK. eapply HK; [| eapply HK; [exact Hr | done]]. apply quiet_rely, quiet_queue; apply done_keeps.
Qed.

(** An item is handled, put back or forgotten, and given back. *)
Lemma handle_item r c key before K s : frame r K → holding r c (mkEv (QGet c) (Some key) :: before) s → K s →
  ens r (pbind (call (SyncItem c key)) (λ err,
      pbind (match err with Some _ => call (QAddRateLimited c key) | None => call (QForget c key) end)
        (λ _, pbind (call (QDone c key)) (λ _, Ret true))))
    (λ b s', b = true ∧ idle r s' ∧ gave r c (hist s') = S (gave r c (hist s)) ∧ K s') s.
Proof.
  intros HK Hh Ks. eapply ensures_bind.
  - apply (ens_quiet _ c _ (mkEv (QGet c) (Some key) :: before) K); try done.
    + destruct Hh as [Ho _]. cbn. rewrite Ho. by eexists.
    + intros s1 x s2 (s' & -> & ->). by exists s1.
  - intros err s1 (H1 & K1 & <-). by eapply finish_item.
Qed.

Lemma get_item r c s1 x s2 : after r (QGet c) s1 x s2 → idle r s1 →
  match x with None => down s1 c ∧ idle r s2 | Some key => holding r c (mkEv (QGet c) (Some key) :: own r (hist s1)) s2 end.
Proof.
  intros (s' & -> & q & Hq & ->) (H1 & H2 & H3). destruct x as [key|].
  - split_and!; [apply own_cons | done | done |]. intros c'. cbn [hist record_call set_queue]. rewrite took_cons, gave_cons, H3.
    cbn [ev_took ev_gave ev_c ev_ans is_some]. case_decide; case_bool_decide; congruence || done.
  - split; [by apply (get_quits _ _ Hq)|]. split_and!; [done | done |]. intros c'. cbn [hist record_call set_queue].
    rewrite took_cons, gave_cons, H3. cbn [ev_took ev_gave ev_c ev_ans is_some]. by rewrite andb_false_r.
Qed.

(** *** A worker *)

Lemma work_item_ok c i s : idle (WorkerR c i) s →
  ens (WorkerR c i) (work_item c) (λ b s', idle (WorkerR c i) s' ∧
    if b : bool then gave (WorkerR c i) c (hist s') = S (gave (WorkerR c i) c (hist s)) else down s' c) s.
Proof.
  intros Hi. apply ens_step; [split_and!; [right; by exists i | apply Hi | apply Hi | done | done]|].
  intros s1 x s2 Hr _ _ Ha. pose proof (get_item _ _ _ _ _ Ha (idle_rely _ _ _ Hr Hi)) as Hx.
  destruct Ha as (s' & -> & q & Hq & ->). rewrite <- (gave_rely _ _ _ _ Hr). destruct x as [key|].
  - eapply ensures_post; [by eapply (handle_item _ _ _ _ (λ _, True)); [apply frame_true | |]|].
    intros b s2 (-> & ? & -> & _). split; [done|]. cbn [hist record_call set_queue]. by rewrite gave_cons.
  - split; [apply Hx|]. unfold down. cbn. rewrite fn_lookup_insert. by apply (get_quits _ _ Hq).
Qed.

(** The rounds are used up only by as many items; else the queue was found shut
    down. *)
Lemma runWorker_ok c i n : ∀ s, idle (WorkerR c i) s → (rounds ≤ n + gave (WorkerR c i) c (hist s))%nat →
  ens (WorkerR c i) (runWorker n c) (λ _ s', idle (WorkerR c i) s' ∧ down s' c) s.
Proof.
  induction n as [|n IH]; intros s Hi Hn.
  - split; [|intros s1 x s2 _ _ [s' _ He]; inversion He].
    exists c, i. split; [done|]. destruct Hi as (_ & _ & Ht). rewrite Ht. exact Hn.
  - eapply ensures_bind; [by apply work_item_ok|]. intros [|] s' [Hi' Hb]; [|done]. apply IH; [done | lia].
Qed.

(** One look at the context. *)
Lemma until_step_ok c i n (f : Prog RunCall unit) P s : idle (WorkerR c i) s →
  (∀ s', idle (WorkerR c i) s' → (down s c → cancelled (go s') tt = true) → cancelled (go s') tt = true → P tt s') →
  (∀ s', idle (WorkerR c i) s' → ¬ down s c → ens (WorkerR c i) (pbind f (λ _, until_done n f)) P s') →
  ens (WorkerR c i) (until_done (S n) f) P s.
Proof.
  intros Hi Hstop Hgo. apply ens_step; [done|]. intros s1 x s2 Hr HI _ (s' & -> & g & [-> ->] & ->).
  assert (idle (WorkerR c i) (record_call (WorkerR c i) (Prim (CtxErr tt)) (cancelled (go s1) tt) (set_go (go s1) s1))) as Hi'
    by (by eapply (idle_record _ _ _ s1); [.. | by eapply idle_rely]).
  assert (down s c → cancelled (go s1) tt = true) as Hd by (intros Hx; by apply (i_down _ HI c), (rl_down _ _ _ Hr)).
  destruct (cancelled (go s1) tt) eqn:Hc; [by apply Hstop|]. apply Hgo; [done|]. intros Hx. by specialize (Hd Hx).
Qed.

Lemma worker_ok c i s : idle (WorkerR c i) s →
  ens (WorkerR c i) (worker rounds c) (λ _ s', WorkerR c i ∈ done_of s' (WorkersWG c)) s.
Proof.
  intros Hi. eapply (ensures_bind _ _ _ _ _ _ _ (λ _, idle (WorkerR c i))).
  - apply (until_step_ok c i); [done | done |]. intros s1 H1 _.
    eapply ensures_bind; [apply runWorker_ok; [done | lia]|]. intros ? s2 [H2 Hd].
    apply (until_step_ok c i); [done | done |]. intros s3 _ []. done.
  - intros ? s1 H1. apply ens_last.
    + destruct H1 as (? & Hn & ?). split_and!; [done | done | apply Hn | split; [done | by intros]].
    + intros s2 x s3 _ _ _ (s' & -> & g & -> & ->). unfold done_of. cbn. rewrite fn_lookup_insert. left.
Qed.

(** *** A controller *)

(** In the initial sync every item that was counted is there to be taken, so that
    no step of it waits, and none finds the queue shut down. *)
Lemma initial_item_ok c n l s : idle (CtlR c) s → fresh c s → (S n ≤ len s c)%nat →
  mkEv (WaitForCacheSync (caches_of c)) true ∈ l → since (CtlR c) l s →
  ens (CtlR c) (work_item c)
    (λ b s', b = true ∧ idle (CtlR c) s' ∧ gave (CtlR c) c (hist s') = S (gave (CtlR c) c (hist s)) ∧
       (fresh c s' ∧ (n ≤ len s' c)%nat) ∧ since (CtlR c) l s') s.
Proof.
  intros Hi Hf Hn He Hl. apply ens_step.
  { split_and!; [by left | apply Hi | apply Hi | intros _; split; [apply Hf | lia] |].
    intros _. destruct Hl as [later ->]. apply elem_of_app. by right. }
  intros s1 x s2 Hr _ _ Ha. pose proof (get_item _ _ _ _ _ Ha (idle_rely _ _ _ Hr Hi)) as Hx.
  pose proof (fresh_rely _ _ _ Hr Hf) as Hf1. pose proof (fresh_len _ _ _ Hr Hf) as Hlen.
  destruct x as [key|]; [|destruct Hx as [Hd _]; by destruct Hf1 as (_ & [] & _)].
  destruct Ha as (s' & -> & q & Hq & ->). destruct (get_takes _ _ _ Hq) as [Hlen' Hdown].
  assert (gave (CtlR c) c (hist s) = gave (CtlR c) c (hist (record_call (CtlR c) (QGet c) (Some key) (set_queue c q s1)))) as ->.
  { cbn [hist record_call set_queue]. by rewrite gave_cons, (gave_rely _ _ _ _ Hr). }
  apply (handle_item _ _ _ _ _ _ (frame_and _ _ _ (frame_len c n) (frame_since _ l)) Hx). split_and!.
  - destruct Hf1 as (? & Hd & ? & ?). split_and!; try done. unfold down. cbn. rewrite fn_lookup_insert. congruence.
  - unfold len in *. cbn. rewrite fn_lookup_insert. lia.
  - apply (fr_record _ _ (frame_since _ l)). by apply (fr_rely _ _ (frame_since _ l) _ _ Hr).
Qed.

Lemma initial_sync_ok c n l : mkEv (WaitForCacheSync (caches_of c)) true ∈ l → ∀ s,
  idle (CtlR c) s → fresh c s → (n ≤ len s c)%nat → since (CtlR c) l s →
  ens (CtlR c) (initial_sync n c)
    (λ b s', b = true ∧ idle (CtlR c) s' ∧ gave (CtlR c) c (hist s') = (n + gave (CtlR c) c (hist s))%nat ∧
       fresh c s' ∧ since (CtlR c) l s') s.
Proof.
  intros He. induction n as [|n IH]; intros s Hi Hf Hn Hl; [done|]. eapply ensures_bind; [by apply (initial_item_ok c n l)|].
  intros b s1 (-> & H1 & Hg & [H2 H3] & H4). eapply ensures_post; [by apply IH|]. cbn beta.
  intros b s2 (-> & ? & Hg2 & ? & ?). split_and!; try done. lia.
Qed.

(** A controller that is starting its workers: those before [n] are started. *)
Definition starting c n s : Prop :=
  idle (CtlR c) s ∧ closed s (InitSyncDone c) ∧ (∀ i, WorkerR c i ∈ started (go s) → i < n)%nat ∧
  added (wgs (go s) (WorkersWG c)) = length (members s (WorkersWG c)).

Lemma starting_rely c n s s' : rely (CtlR c) s s' → starting c n s → starting c n s'.
Proof.
  intros H (Hi & Hc & Hn & Ha). split_and!; [by eapply idle_rely | by apply H | intros i Hw; by apply Hn, H |].
  by rewrite (rl_members _ _ _ H (WorkersWG c) eq_refl), (rl_added _ _ _ H (WorkersWG c) eq_refl).
Qed.

Lemma start_workers_ok c n : ∀ i s, starting c i s → (i + n ≤ workers_of c)%nat →
  ens (CtlR c) (start_workers i n c) (λ _, starting c (i + n)) s.
Proof.
  induction n as [|n IH]; intros i s Hs Hle; [by rewrite Nat.add_0_r|].
  apply ens_step; [done|]. intros s1 [] s2 Hr _ _ (s' & -> & g & -> & ->).
  pose proof (starting_rely _ _ _ _ Hr Hs) as (Hi & Hc & Hn & Ha). clear s Hr Hs.
  set (s2 := record_call _ _ _ _).
  assert (Hi2 : idle (CtlR c) s2).
  { destruct Hi as (? & Hd & Ht). split_and!; [done | intros w; unfold s2, done_of; cbn | ].
    - unfold insert, fn_insert. case_decide; [exact (Hd (WorkersWG c)) | exact (Hd w)].
    - intros c'. unfold s2. cbn [hist record_call set_go]. rewrite took_cons, gave_cons. apply Ht. }
  assert (Ha2 : added (wgs (go s2) (WorkersWG c)) = S (length (members s2 (WorkersWG c)))).
  { unfold s2. cbn. rewrite fn_lookup_insert. cbn. by rewrite Ha. }
  apply ens_step.
  { split_and!; [done | intros Hw; specialize (Hn i Hw); lia |]. split_and!; [lia | apply Hi | done | apply Hi2 |]. lia. }
  intros s3 [] s4 Hr _ _ (s' & -> & g & -> & ->). replace (i + S n)%nat with (S i + n)%nat by lia. apply IH; [|lia].
  pose proof (idle_rely _ _ _ Hr Hi2) as Hi3. split_and!.
  - destruct Hi3 as (? & ? & Ht). split_and!; [by apply list_elem_of_further | done |].
    intros c'. cbn [hist record_call set_go]. rewrite took_cons, gave_cons. apply Ht.
  - by apply (rl_closed _ _ _ Hr).
  - intros j [Hj|Hj]%elem_of_cons; [injection Hj; lia|]. apply (rl_starter _ _ _ Hr) in Hj; [|done].
    specialize (Hn j Hj). lia.
  - pose proof (rl_added _ _ _ Hr (WorkersWG c) eq_refl) as E1. pose proof (rl_members _ _ _ Hr (WorkersWG c) eq_refl) as E2.
    change (members (record_call _ _ _ ?s) ?w) with (members s w). rewrite members_start, decide_True by done.
    cbn [length]. rewrite E2. cbn. by rewrite E1, Ha2.
Qed.
(** A wait that ended: everybody who was started is finished. *)
Lemma waited s w : Inv s → added (wgs (go s) w) = length (members s w) →
  length (finished (wgs (go s) w)) = added (wgs (go s) w) → ∀ r, member w r → r ∈ started (go s) → r ∈ done_of s w.
Proof.
  intros HI Ha Hl r Hm Hs. destruct (i_finished _ HI w) as [Hnd Hf].
  apply (all_finished (done_of s w) (members s w)); [done | | unfold done_of; lia | by apply list_elem_of_filter].
  intros q Hq. apply list_elem_of_filter. by apply Hf.
Qed.

(** What remains of a controller at its end. *)
Definition gone c s : Prop := idle (CtlR c) s ∧ over (CtlR c) s.

Lemma gone_rely c s s' : rely (CtlR c) s s' → gone c s → gone c s'.
Proof. intros H [Hi Ho]. split; [by eapply idle_rely | by eapply over_rely]. Qed.

Lemma close_sync_ok c s s1 x s2 : idle (CtlR c) s → fresh c s → rely (CtlR c) s s1 → Inv s1 →
  after (CtlR c) (Prim (Close (InitSyncDone c))) s1 x s2 → starting c 0 s2.
Proof.
  intros Hi Hf Hr HI (s' & -> & g & -> & ->).
  pose proof (fresh_rely _ _ _ Hr Hf) as (Hw & _ & _ & Ha). split_and!.
  - by eapply (idle_record _ _ _ s1); [.. | by eapply idle_rely].
  - unfold closed. cbn. by rewrite fn_lookup_insert.
  - intros i Hx. by destruct (Hw i).
  - pose proof (i_added _ HI (WorkersWG c)) as Hle. rewrite Ha in Hle. cbn. rewrite Ha.
    change (0%nat = length (members s1 (WorkersWG c))). lia.
Qed.

Lemma run_workers_ok n c s : (n ≤ workers_of c)%nat → idle (CtlR c) s → fresh c s → initially_synced c s →
  ens (CtlR c) (run_workers n c) (λ _ s', gone c s' ∧ cancelled (go s') tt = true) s.
Proof.
  intros Hle Hi Hf Hy. apply ens_step; [split_and!; [done | apply Hf | done]|].
  intros s1 x s2 Hr HI _ Ha. pose proof (close_sync_ok _ _ _ _ _ Hi Hf Hr HI Ha) as H2. clear s s1 x Hi Hf Hy Hr HI Ha.
  eapply ensures_bind; [by apply start_workers_ok; [|lia]|]. intros ? s3 H3. cbn [Nat.add] in H3. clear s2 H2.
  eapply (ensures_bind _ _ _ _ _ _ _ (λ _ s, starting c n s ∧ cancelled (go s) tt = true)).
  { apply ens_step; [right; left; left|]. intros s1 i s2 Hr _ _ (s' & -> & g & Hs & ->).
    pose proof (starting_rely _ _ _ _ Hr H3) as (H4 & H5 & H6 & H7).
    destruct i as [[|i]|]; cbn in Hs; [|by destruct Hs as (? & ? & _) | by destruct Hs].
    destruct Hs as (gd & [= <-] & Hc & ->). split; [|done]. split_and!; try done.
    by eapply (idle_record _ _ _ s1). }
  intros ? s4 [H4 Hc]. apply ens_step; [done|]. intros s1 [] s2 Hr _ _ (s' & -> & ->).
  pose proof (starting_rely _ _ _ _ Hr H4) as (Hi & Hcl & Hn & Ha). pose proof (rl_cancelled _ _ _ Hr Hc) as Hc1. clear s3 s4 H3 H4 Hc Hr.
  set (s2 := record_call _ _ _ _).
  assert (idle (CtlR c) s2) as Hi2 by (by eapply (idle_record _ _ _ s1)).
  assert (down s2 c) as Hd2 by (unfold down, s2; cbn; rewrite fn_lookup_insert; apply shutdown_down).
  apply ens_last; [split_and!; [done | done | done | by intros c' [= <-]]|].
  intros s5 [] s6 Hr HI _ (s' & -> & g & [Hl ->] & ->).
  assert (idle (CtlR c) (record_call (CtlR c) (Prim (WgWait (WorkersWG c))) () (set_go (go s5) s5))) as Hi6
    by (by eapply (idle_record _ _ _ s5); [.. | by eapply idle_rely]).
  split; [|by apply (rl_cancelled _ _ _ Hr)]. split; [done|]. split; [apply Hi6|]. intros c' [= <-]. split; [by apply (rl_down _ _ _ Hr)|].
  intros i Hx. apply (waited s5); [done | | done | done | done].
  rewrite (rl_added _ _ _ Hr (WorkersWG c) eq_refl), (rl_members _ _ _ Hr (WorkersWG c) eq_refl). exact Ha.
Qed.
(** A run that is given up as the context is done does not reach [Fatal]. *)
Lemma fatal_unless_done_ok c s : idle (CtlR c) s → fresh c s → cancelled (go s) tt = true →
  ens (CtlR c) fatal_unless_done (λ b s', b = false ∧ idle (CtlR c) s' ∧ fresh c s' ∧ cancelled (go s') tt = true) s.
Proof.
  intros Hi Hf Hc. apply ens_step; [done|]. intros s1 x s2 Hr _ _ (s' & -> & g & [-> ->] & ->).
  rewrite (rl_cancelled _ _ _ Hr Hc). split_and!; [done | | | by apply (rl_cancelled _ _ _ Hr)].
  - by eapply (idle_record _ _ _ s1); [.. | by eapply idle_rely].
  - by apply (fr_record _ _ (frame_fresh c)), (fresh_rely _ _ _ Hr).
Qed.

(** The workers of [c] are gone. *)
Definition alone c s : Prop :=
  idle (CtlR c) s ∧ cancelled (go s) tt = true ∧
  ∀ i, WorkerR c i ∈ started (go s) → WorkerR c i ∈ done_of s (WorkersWG c).

Lemma alone_rely c s s' : rely (CtlR c) s s' → alone c s → alone c s'.
Proof. intros H (Hi & Hc & Hw). split_and!; [by eapply idle_rely | by apply H |]. intros i Hx. apply H, Hw. by apply H. Qed.

(** The initial sync: as many items are given back as the queue held. *)
Lemma first_items_ok c before s : idle (CtlR c) s → fresh c s →
  own (CtlR c) (hist s) = mkEv (WaitForCacheSync (caches_of c)) true :: before →
  ens (CtlR c) (pbind (call (QLen c)) (λ queueLen, initial_sync queueLen c))
    (λ b s', b = true ∧ idle (CtlR c) s' ∧ fresh c s' ∧ initially_synced c s') s.
Proof.
  intros Hi Hf Ho. apply ens_step; [split; [done|]; exists before; exact Ho|].
  intros s1 n s2 Hr _ _ (s' & -> & -> & ->). set (l := mkEv (QLen c) (len s1 c) :: own (CtlR c) (hist s)).
  assert (own (CtlR c) (hist (record_call (CtlR c) (QLen c) (len s1 c) s1)) = l) as Hl.
  { cbn [record_call hist]. by rewrite own_cons, (own_rely _ _ _ Hr). }
  eapply ensures_post; [apply (initial_sync_ok c _ l)|].
  - unfold l. rewrite Ho. right. left.
  - by eapply (idle_record _ _ _ s1); [.. | by eapply idle_rely].
  - by apply (fr_record _ _ (frame_fresh c)), (fresh_rely _ _ _ Hr).
  - done.
  - by exists [].
  - intros b s4 (-> & H4 & Hg & H5 & later & H6). split_and!; try done. exists (len s1 c), later, (own (CtlR c) (hist s)).
    split; [exact H6|]. revert Hg. rewrite !gave_given, H6, Hl, given_app. lia.
Qed.

Lemma controller_Run_ok n c s : (n ≤ workers_of c)%nat → idle (CtlR c) s → fresh c s →
  ens (CtlR c) (controller_Run (caches_of c) n c) (λ _, gone c) s.
Proof.
  intros Hle Hi Hf. apply ens_step; [done|]. intros s1 ok s2 Hr _ _ (s' & -> & Hok & ->).
  set (s2 := record_call _ _ _ _).
  assert (idle (CtlR c) s2) as Hi2 by (by eapply (idle_record _ _ _ s1); [.. | by eapply idle_rely]).
  assert (fresh c s2) as Hf2 by (by apply (fr_record _ _ (frame_fresh c)), (fresh_rely _ _ _ Hr)).
  assert (own (CtlR c) (hist s2) = mkEv (WaitForCacheSync (caches_of c)) ok :: own (CtlR c) (hist s1)) as Ho by apply own_cons.
  eapply (ensures_bind _ _ _ _ _ _ _ (λ b s', idle (CtlR c) s' ∧ fresh c s' ∧
    if b : bool then ∃ before, own (CtlR c) (hist s') = mkEv (WaitForCacheSync (caches_of c)) true :: before
    else cancelled (go s') tt = true)).
  { destruct ok; [split_and!; [done | done | by eexists]|]. eapply ensures_post; [by apply fatal_unless_done_ok; auto|].
    by intros b s3 (-> & ? & ? & ?). }
  clearbody s2. clear s s1 Hi Hf Hr Hok Ho. intros go_on s (Hi & Hf & Hx).
  eapply (ensures_bind _ _ _ _ _ _ _ (λ _, alone c)).
  - destruct go_on; [|split_and!; [done | done | intros i Hw; by destruct (proj1 Hf i)]].
    destruct Hx as [before Ho].
    change (ens (CtlR c) (pbind (pbind (call (QLen c)) (λ queueLen, initial_sync queueLen c))
      (λ done, if done : bool then run_workers n c else Ret tt)) (λ _, alone c) s).
    eapply ensures_bind; [by eapply first_items_ok|].
    intros b s4 (-> & H4 & H5 & H6). eapply ensures_post; [by apply run_workers_ok|].
    intros [] s5 [[H7 H8] Hc]. split_and!; [done | done |]. by apply (proj2 H8 c eq_refl).
  - intros _ s1 H1. apply ens_last; [split; [done | apply H1]|]. intros s3 x s4 Hr _ _ (s' & -> & ->).
    destruct (alone_rely _ _ _ Hr H1) as (H3 & Hc & H4).
    assert (idle (CtlR c) (record_call (CtlR c) (QShutDown c) x (set_queue c (q_ShutDown (queues s3 c)) s3))) as Hi4
      by (by eapply (idle_record _ _ _ s3)).
    split; [done|]. split; [apply Hi4|]. intros c' [= <-]. split; [|done].
    unfold down. cbn. rewrite fn_lookup_insert. apply shutdown_down.
Qed.
(** *** The HTTP service, the informers, the end of leading *)

Lemma await_done_ok r K s : frame r K → K s →
  ens r (await (OnDone tt)) (λ _ s', K s' ∧ cancelled (go s') tt = true) s.
Proof.
  intros HK Ks. apply ens_step; [right; left; left|]. intros s1 i s2 Hr _ _ (s' & -> & g & Hs & ->).
  destruct i as [[|i]|]; cbn in Hs; [|by destruct Hs as (? & ? & _) | by destruct Hs].
  destruct Hs as (gd & [= <-] & Hc & ->). split; [|done]. apply HK. assert (set_go (receive (OnDone tt) (go s1)) s1 = s1) as -> by by destruct s1.
  by eapply HK.
Qed.

(** [ch] is open, as only [r] closes it. *)
Lemma frame_open r ch : owner ch = r → frame r (λ s, ¬ closed s ch).
Proof. intros Ho. split; [|done]. intros s s' H Hc Hx. by apply Hc, H. Qed.

Lemma close_ok r ch s1 x s2 : after r (Prim (Close ch)) s1 x s2 → closed s2 ch.
Proof. intros (s' & -> & g & -> & ->). unfold closed. cbn. by rewrite fn_lookup_insert. Qed.

Lemma service_Start_ok s : ListenR ∉ started (go s) → ¬ closed s HttpDone →
  ens HttpR (service_Start ;;; call (Prim (Close HttpDone)) ;;; Ret true)%prog (λ _ s', closed s' HttpDone) s.
Proof.
  intros Hl Hc. apply ens_step; [done|]. intros s1 x s2 Hr _ _ (s' & -> & g & -> & ->). cbn [pbind].
  eapply ensures_bind; [eapply ensures_bind; [apply (await_done_ok _ _ _ (frame_open HttpR HttpDone eq_refl))|]|].
  - intros Hx. by apply Hc, (rl_owner _ _ _ Hr).
  - intros _ s3 [H3 _]. apply (ens_step _ _ _ (λ _ s', ¬ closed s' HttpDone ∧ serverDown s' = true)); [done|].
    intros s4 err s5 Hr' _ _ (s' & -> & ->). split; [|done]. intros Hx. by apply H3, (rl_owner _ _ _ Hr').
  - intros _ s3 [H3 Hd]. apply ens_step; [done|]. intros s4 y s5 _ _ _ Ha. by apply close_ok in Ha.
Qed.

Lemma informers_ok s : ¬ closed s InformersDone →
  ens InformersR (call FactoryStart ;;; call (Prim (Close InformersDone)) ;;; Ret true)%prog (λ _ s', closed s' InformersDone) s.
Proof.
  intros Hc. apply ens_step; [done|]. intros s1 x s2 Hr _ _ (s' & -> & ->).
  apply ens_step; [split_and!; [done | | done]; intros Hx; by apply Hc, (rl_owner _ _ _ Hr)|].
  intros s4 y s5 _ _ _ Ha. by apply close_ok in Ha.
Qed.

Lemma listen_ok s : ens ListenR (listen ;;; Ret true)%prog (λ _ _, True) s.
Proof. apply ens_step; [done|]. intros s1 [err|] s2 _ _ _ _; by split. Qed.

(** [drainRun] says that the controller was drained if it was, or if the channel
    of its start was empty. *)
Definition drain_answer (b : bool) s : Prop :=
  b = true → closed s RunDone ∨ (StopR, mkEv (Prim (Select [Recv RunStart] true)) None) ∈ hist s.

Lemma drain_answer_frame b : frame StopR (drain_answer b).
Proof.
  split; [intros s s' H Hb Ht; destruct (Hb Ht); [left | right]; by apply H|].
  intros R k x s Hb Ht. destruct (Hb Ht); [by left | right; by apply list_elem_of_further].
Qed.

Lemma drainRun_ok grace s : ens StopR (drainRun grace) drain_answer s.
Proof.
  apply ens_step; [by left|]. intros s1 [i|] s2 _ _ _ (s' & -> & g & Hs & ->).
  - apply ens_step; [done|]. intros s3 y s4 _ _ _ _. apply ens_step; [right; right; left; exists grace; right; left|].
    intros s5 j s6 _ HI _ (s' & -> & g' & Hs' & ->) Hj%bool_decide_eq_true. subst j. left.
    destruct Hs' as (gd & [= <-] & Hrd & ->). assert (closed s5 RunDone) as Hx.
    { destruct Hrd as [Hb|Hb]; [|done]. rewrite (i_buffered _ HI) in Hb by done. lia. }
    by apply closed_mono.
  - intros _. right. left.
Qed.

Lemma drainAndExit_ok s : ens StopR drainAndExit drain_answer s.
Proof.
  eapply ensures_bind; [apply drainRun_ok|]. intros b s1 H1. apply ens_step; [done|].
  intros s2 y s3 Hr _ _ (s' & -> & g & -> & ->). apply drain_answer_frame.
  assert (drain_answer b s2) as H2 by (by eapply drain_answer_frame). exact H2.
Qed.
(** *** [run] *)

(** [run] while it starts controllers: those of [cs] are not started yet, the
    others have done their initial sync. *)
Definition leading s : Prop :=
  ¬ closed s RunDone ∧ HttpR ∈ started (go s) ∧ InformersR ∈ started (go s) ∧
  added (wgs (go s) ControllersWG) = length (members s ControllersWG).
Definition to_start (cs : list Ctl) s : Prop :=
  (∀ c, c ∈ cs → CtlR c ∉ started (go s)) ∧ ∀ c, c ∉ cs → closed s (InitSyncDone c).

Lemma leading_frame : frame LeadR leading.
Proof.
  split; [|done]. intros s s' H (Hc & Hh & Hi & Ha). split_and!; [| by apply H | by apply H |].
  - intros Hx. by apply Hc, (rl_owner _ _ _ H).
  - by rewrite (rl_members _ _ _ H ControllersWG eq_refl), (rl_added _ _ _ H ControllersWG eq_refl).
Qed.

Lemma to_start_frame cs : frame LeadR (to_start cs).
Proof.
  split; [|done]. intros s s' H [Hn Hc]. split; [intros c Hx Hs; by apply (Hn c Hx), (rl_starter _ _ _ H)|].
  intros c Hx. by apply H, Hc.
Qed.

Lemma frame_closed r ch : frame r (λ s, closed s ch).
Proof. split; [intros s s' H; apply H | done]. Qed.

Lemma frame_started r q : frame r (λ s, q ∈ started (go s)).
Proof. split; [intros s s' H; apply H | done]. Qed.

(** Waiting for another goroutine to close a channel. *)
Lemma await_closed_ok ch K s : frame LeadR K → ch ≠ RunStart → at_prim LeadR (Select [Recv ch] false) s → K s →
  (∀ s, K s → K (set_go (set_chan ch (mkChan 0 (is_closed (chans (go s) ch))) (go s)) s)) →
  ens LeadR (await (Recv ch)) (λ _ s', K s' ∧ closed s' ch) s.
Proof.
  intros HK Hch Hat Ks Hset. apply ens_step; [done|]. intros s1 i s2 Hr HI _ (s' & -> & g & Hs & ->).
  destruct i as [[|i]|]; cbn in Hs; [|by destruct Hs as (? & ? & _) | by destruct Hs].
  destruct Hs as (gd & [= <-] & Hrd & ->). cbn [receive].
  assert (closed s1 ch) as Hc by (destruct Hrd as [Hb|Hb]; [rewrite (i_buffered _ HI) in Hb by done; lia | done]).
  rewrite (i_buffered _ HI) by done. split.
  - apply HK, Hset. by eapply HK.
  - unfold closed. cbn. by rewrite fn_lookup_insert.
Qed.

(** A receive leaves channels as closed or open as they are. *)
Lemma receive_closed ch ch' s :
  closed (set_go (set_chan ch (mkChan 0 (is_closed (chans (go s) ch))) (go s)) s) ch' ↔ closed s ch'.
Proof. rewrite closed_chan. case_decide; by subst. Qed.

(** What [run] knows once its wait for the controllers is over. *)
Definition controllers_gone s : Prop :=
  ¬ closed s RunDone ∧ cancelled (go s) tt = true ∧ InformersR ∈ started (go s) ∧
  ∀ c, CtlR c ∈ started (go s) → CtlR c ∈ done_of s ControllersWG.

Lemma controllers_gone_frame : frame LeadR controllers_gone.
Proof.
  split; [|done]. intros s s' H (Hc & Hx & Hi & Hd). split_and!; [| by apply H | by apply H |].
  - intros Hy. by apply Hc, (rl_owner _ _ _ H).
  - intros c Hs. apply H, Hd. by apply H.
Qed.

Lemma shutdown_ok s : leading s → cancelled (go s) tt = true →
  ens LeadR shutdownAfterEarlyExit (λ _ s', ¬ closed s' RunDone ∧ joined s') s.
Proof.
  intros Hl Hx. apply ens_step; [split_and!; [done | done | apply Hl | done]|].
  intros s1 [] s2 Hr HI _ (s' & -> & g & [Hw ->] & ->).
  apply (fr_rely _ _ leading_frame _ _ Hr) in Hl as (Hc & Hh & Hi & Ha). apply (rl_cancelled _ _ _ Hr) in Hx.
  set (s2 := record_call _ _ _ _).
  assert (controllers_gone s2) as Hg.
  { split_and!; try done. intros c Hs. by apply (waited s1). }
  assert (HttpR ∈ started (go s2)) as Hh2 by done. clearbody s2. clear s1 Hr HI Hw Hc Hh Hi Ha Hx.
  assert (∀ ch s, controllers_gone s → controllers_gone (set_go (set_chan ch (mkChan 0 (is_closed (chans (go s) ch))) (go s)) s)) as Hset.
  { intros ch s3 (H1 & H2 & H3 & H4). split_and!; try done. by rewrite receive_closed. }
  eapply ensures_bind; [apply (await_closed_ok HttpDone _ _ controllers_gone_frame)|]; [done | | done | auto |].
  { right. right. right. split_and!; [done | apply Hg | by left]. }
  intros ? s3 H3. eapply ensures_post; [apply (await_closed_ok InformersDone _ _ (frame_and _ _ _ controllers_gone_frame (frame_closed _ HttpDone)))|];
    [done | | done | |].
  - right. right. right. destruct H3 as [H3 _]. split_and!; [done | apply H3 | right; split; [done | apply H3]].
  - intros s4 [H4 H5]. split; [by apply Hset | by rewrite receive_closed].
  - intros ? s5 [[H5 H6] H7]. split; [apply H5|]. split_and!; [apply H5 | apply H5 | done | done].
Qed.
Lemma startController_ok c cs s : leading s → to_start (c :: cs) s → NoDup (c :: cs) → ready_before c s →
  ens LeadR (startController c)
    (λ _ s', leading s' ∧ (∀ c', c' ∈ cs → CtlR c' ∉ started (go s')) ∧ ∀ c', c' ∉ c :: cs → closed s' (InitSyncDone c')) s.
Proof.
  intros Hl Ht Hnd Hb. apply ens_step; [done|]. intros s1 [] s2 Hr _ _ (s' & -> & g & -> & ->).
  apply (fr_rely _ _ leading_frame _ _ Hr) in Hl as (Hc & Hh & Hi & Ha).
  apply (fr_rely _ _ (to_start_frame _) _ _ Hr) in Ht as [Hn Hd].
  apply (ready_before_closed _ _ s1) in Hb; [|apply Hr]. clear s Hr. set (s2 := record_call _ _ _ _).
  assert (added (wgs (go s2) ControllersWG) = S (length (members s2 ControllersWG))) as Ha2.
  { unfold s2. cbn. rewrite fn_lookup_insert. cbn. by rewrite Ha. }
  apply ens_last.
  { split_and!; [done | apply Hn; left |]. split_and!; [done | done |]. lia. }
  intros s3 [] s4 Hr _ _ (s' & -> & g & -> & ->). split; [split_and! | split].
  - intros Hx. by apply Hc, (rl_owner _ _ _ Hr).
  - apply list_elem_of_further. by apply (rl_started _ _ _ Hr).
  - apply list_elem_of_further. by apply (rl_started _ _ _ Hr).
  - change (members (record_call _ _ _ ?s) ?w) with (members s w). rewrite members_start, decide_True by done.
    cbn [length]. rewrite (rl_members _ _ _ Hr ControllersWG eq_refl), <- Ha2. by apply (rl_added _ _ _ Hr ControllersWG).
  - intros c' Hx [[= ->]|Hs]%elem_of_cons; [by apply NoDup_cons in Hnd as [[] _]|].
    apply (rl_starter _ _ _ Hr) in Hs; [|done]. apply (Hn c'); [by right | done].
  - intros c' Hx. by apply (rl_closed _ _ _ Hr), Hd.
Qed.

Lemma waitForInitialSync_ok c K s : frame LeadR K → K s →
  (∀ s ch, K s → K (set_go (set_chan ch (mkChan 0 (is_closed (chans (go s) ch))) (go s)) s)) →
  ens LeadR (waitForInitialSync c)
    (λ b s', K s' ∧ if b : bool then closed s' (InitSyncDone c) else cancelled (go s') tt = true) s.
Proof.
  intros HK Ks Hset. apply ens_step; [right; left; right; left|]. intros s1 i s2 Hr HI _ (s' & -> & g & Hs & ->).
  apply (fr_rely _ _ HK _ _ Hr) in Ks. destruct i as [[|[|i]]|]; cbn in Hs; [| | by destruct Hs as (? & ? & _) | by destruct Hs];
    destruct Hs as (gd & [= <-] & Hrd & ->); cbn [receive].
  - assert (closed s1 (InitSyncDone c)) as Hc by (destruct Hrd as [Hb|Hb]; [rewrite (i_buffered _ HI) in Hb by done; lia | done]).
    rewrite (i_buffered _ HI) by done. split; [by apply HK, Hset|]. unfold closed. cbn. by rewrite fn_lookup_insert.
  - split; [|done]. apply HK. by destruct s1.
Qed.

(** The next controller, when what it waits for is done before it. *)
Lemma start_next_ok c cs :
  (∀ s, leading s → to_start cs s → ens LeadR (start_controllers cs) (λ _ s', ¬ closed s' RunDone ∧ joined s') s) →
  NoDup (c :: cs) → (∀ s, (∀ c', c' ∉ c :: cs → closed s (InitSyncDone c')) → ready_before c s) →
  ∀ s, leading s → to_start (c :: cs) s →
  ens LeadR (start_controllers (c :: cs)) (λ _ s', ¬ closed s' RunDone ∧ joined s') s.
Proof.
  intros Hcs Hnd Hb s Hl Ht. eapply ensures_bind; [apply (startController_ok c cs); [done.. |]; by apply Hb, Ht|].
  intros ? s1 (H1 & H2 & H3).
  set (K := λ s, leading s ∧ (∀ c', c' ∈ cs → CtlR c' ∉ started (go s)) ∧ ∀ c', c' ∉ c :: cs → closed s (InitSyncDone c')).
  eapply ensures_bind; [apply (waitForInitialSync_ok c K); [| done |]|].
  - split; [|done]. intros s2 s3 Hr (? & Hs & Hc). split_and!; [by eapply leading_frame | |].
    + intros c' Hx Hy. by apply (Hs c' Hx), (rl_starter _ _ _ Hr).
    + intros c' Hx. by apply (rl_closed _ _ _ Hr), Hc.
  - intros s2 ch ((Hd & ? & ? & ?) & Hs & Hc). split; [split_and!; try done; by rewrite receive_closed | split; [done|]].
    intros c' Hx. by apply receive_closed, Hc.
  - intros [|] s2 ((H4 & H5 & H6) & H7); [|by apply shutdown_ok]. apply Hcs; [done|]. split; [done|].
    intros c' Hx. destruct (decide (c' = c)) as [->|Hne]; [done|]. apply H6. by apply not_elem_of_cons.
Qed.

Lemma start_controllers_ok s : leading s → to_start [PoolCtl; QuotaCtl; FipCtl] s →
  ens LeadR (start_controllers [PoolCtl; QuotaCtl; FipCtl]) (λ _ s', ¬ closed s' RunDone ∧ joined s') s.
Proof.
  revert s. apply start_next_ok; [apply start_next_ok; [apply start_next_ok|..]|..];
    try (apply (bool_decide_unpack _); vm_compute; done).
  - intros s Hl _. eapply ensures_bind; [by apply (await_done_ok _ _ _ leading_frame)|].
    intros ? s1 [H1 H2]. by apply shutdown_ok.
  - intros s Hs. split; apply Hs; apply (bool_decide_unpack _); vm_compute; done.
  - intros s Hs. apply Hs; apply (bool_decide_unpack _); vm_compute; done.
  - done.
Qed.
(** [run] before it starts anything. *)
Definition unstarted s : Prop :=
  ¬ closed s RunDone ∧ (∀ q, starter q = Some LeadR → q ∉ started (go s)) ∧
  added (wgs (go s) ControllersWG) = 0%nat.

Lemma unstarted_frame : frame LeadR unstarted.
Proof.
  split; [|done]. intros s s' H (Hc & Hs & Ha). split_and!.
  - intros Hx. by apply Hc, (rl_owner _ _ _ H).
  - intros q Hq Hx. by apply (Hs q Hq), (rl_starter _ _ _ H).
  - by rewrite (rl_added _ _ _ H ControllersWG eq_refl).
Qed.

Lemma manager_run_ok s : unstarted s → ens LeadR manager_run (λ _ s', ¬ closed s' RunDone ∧ joined s') s.
Proof.
  intros Hu. apply ens_step; [split_and!; [done | by apply Hu | done]|].
  intros s1 [] s2 Hr _ _ (s' & -> & g & -> & ->). pose proof (fr_rely _ _ unstarted_frame _ _ Hr Hu) as (Hc & Hn & Ha).
  apply ens_step; [split_and!; [done | | done]; intros [?|Hx]%elem_of_cons; [done | by apply (Hn InformersR)]|].
  intros s3 [] s4 Hr' HI _ (s' & -> & g & -> & ->). apply start_controllers_ok.
  - split_and!.
    + intros Hx. by apply Hc, (rl_owner _ _ _ Hr').
    + apply list_elem_of_further, (rl_started _ _ _ Hr'). left.
    + left.
    + assert (added (wgs (go s3) ControllersWG) = 0%nat) as Ha3 by (by rewrite (rl_added _ _ _ Hr' ControllersWG eq_refl)).
      pose proof (i_added _ HI ControllersWG) as Hl. rewrite Ha3 in Hl.
      change (added (wgs (go s3) ControllersWG) = length (members s3 ControllersWG)). lia.
  - split; [|intros c Hx; destruct Hx; by destruct c; set_solver].
    intros c _ [?|Hx]%elem_of_cons; [done|]. apply (rl_starter _ _ _ Hr') in Hx; [|done].
    apply elem_of_cons in Hx as [?|Hx]; [done|]. by apply (Hn (CtlR c)).
Qed.

Lemma OnStartedLeading_ok s : unstarted s → ¬ closed s RunStart → buffered (chans (go s) RunStart) = 0%nat →
  ens LeadR (OnStartedLeading ;;; Ret true)%prog (λ _ s', closed s' RunDone) s.
Proof.
  intros Hu Hc Hb. apply ens_step; [done|]. intros s1 [] s2 Hr _ _ (s' & -> & g & -> & ->). cbn [pbind].
  pose proof (fr_rely _ _ unstarted_frame _ _ Hr Hu) as (Hd & Hn & Ha).
  eapply ensures_bind; [eapply ensures_bind; [apply manager_run_ok; split_and!; [|done | done]|]|].
  - intros Hx. apply Hd. exact (proj1 (closed_chan RunStart _ _ RunDone) Hx).
  - intros _ s3 [H3 H4]. apply (ens_last _ _ (λ _ s', closed s' RunDone)); [done|].
    intros s4 x s5 _ _ _ Ha'. by apply close_ok in Ha'.
  - by intros.
Qed.

(** ** All goroutines *)

Definition fin r (b : bool) s : Prop :=
  match r with
  | LeadR => closed s RunDone
  | StopR => drain_answer b s
  | HttpR => closed s HttpDone
  | ListenR => True
  | InformersR => closed s InformersDone
  | CtlR c => CtlR c ∈ done_of s ControllersWG
  | WorkerR c i => WorkerR c i ∈ done_of s (WorkersWG c)
  end.

Lemma fin_rely r b s s' : fin r b s → rely r s s' → fin r b s'.
Proof. intros Hf H. destruct r; try done; try by apply H. by eapply drain_answer_frame. Qed.

(** The first step of a goroutine. *)
Lemma begin_ok r (K : World Q → Prop) (p : Prog RunCall bool) P s :
  (∀ s s', rely r s s' → K s → K s') → (∀ s, K s → K (record_call r (Prim Begin) tt s)) → K s →
  (∀ s', K s' → r ∈ started (go s') → ens r p P s') → ens r (pbind (call (Prim Begin)) (λ _, p)) P s.
Proof.
  intros Hst Hrec Ks Hp. apply ens_step; [done|]. intros s1 [] s2 Hr _ _ (s' & -> & g & [Hs ->] & ->).
  apply Hp; [|done]. assert (set_go (go s1) s1 = s1) as -> by by destruct s1. apply Hrec. by eapply Hst.
Qed.

Definition blank r s : Prop := (∀ w, r ∉ done_of s w) ∧ ∀ c, took r c (hist s) = gave r c (hist s).

Lemma blank_rely r s s' : rely r s s' → blank r s → blank r s'.
Proof.
  intros H [Hn Hi]. split; [intros w Hw; by apply (Hn w), H|].
  intros c. by rewrite (took_rely _ _ _ _ H), (gave_rely _ _ _ _ H).
Qed.

Lemma blank_begin r s : blank r s → blank r (record_call r (Prim Begin) tt s).
Proof. intros [Hn Hi]. split; [done|]. intros c. cbn [record_call hist]. rewrite took_cons, gave_cons. apply Hi. Qed.

Lemma init_blank r : blank r init_world.
Proof. split; [intros w; apply not_elem_of_nil | done]. Qed.

Lemma body_ok r : ens r (body rounds r) (fin r) init_world.
Proof.
  destruct r as [| | | | | c | c i].
  - apply (begin_ok _ (λ s, unstarted s ∧ ¬ closed s RunStart ∧ buffered (chans (go s) RunStart) = 0%nat)); [| done | |].
    + intros s s' Hr (Hu & Hc & Hb). split_and!; [by eapply unstarted_frame | intros Hx; by apply Hc, (rl_owner _ _ _ Hr) |].
      pose proof (rl_buffered _ _ _ Hr eq_refl). lia.
    + split_and!; try done. split_and!; [done | | done]. intros q _. apply not_elem_of_nil.
    + intros s (Hu & Hc & Hb) _. by apply OnStartedLeading_ok.
  - apply (begin_ok _ (λ _, True)); try done. intros s _ _. apply drainAndExit_ok.
  - apply (begin_ok _ (λ s, ListenR ∉ started (go s) ∧ ¬ closed s HttpDone)); [| done | |].
    + intros s s' Hr [Hs Hc]. split; intros Hx; [by apply Hs, (rl_starter _ _ _ Hr) | by apply Hc, (rl_owner _ _ _ Hr)].
    + split; [apply not_elem_of_nil | done].
    + intros s [Hs Hc] _. by apply service_Start_ok.
  - apply (begin_ok _ (λ _, True)); try done. intros s _ _. apply listen_ok.
  - apply (begin_ok _ (λ s, ¬ closed s InformersDone)); [| done | done |].
    + intros s s' Hr Hc Hx. by apply Hc, (rl_owner _ _ _ Hr).
    + intros s Hc _. by apply informers_ok.
  - apply (begin_ok _ (λ s, blank (CtlR c) s ∧ fresh c s)).
    + intros s s' Hr [Hb Hf]. split; [by eapply blank_rely | by eapply fresh_rely].
    + intros s [Hb Hf]. split; [by apply blank_begin | done].
    + split; [apply init_blank|]. split_and!; [intros i; apply not_elem_of_nil | | done | done].
      unfold down. cbn. by rewrite new_up.
    + intros s [Hb Hf] Hs. eapply (ensures_bind _ _ _ _ _ _ _ (λ _, gone c)).
      { assert (idle (CtlR c) s) as Hi by (split; [done | exact Hb]). destruct c; by apply controller_Run_ok. }
      intros ? s1 [H1 H2]. apply ens_step; [split_and!; [done | apply H1 | apply H1 | done]|].
      intros s2 x s3 _ _ _ (s' & -> & g & -> & ->). cbn. unfold done_of. cbn. rewrite fn_lookup_insert. left.
  - apply (begin_ok _ (blank (WorkerR c i))); [apply blank_rely | apply blank_begin | apply init_blank |].
    intros s Hb Hs. eapply ensures_bind; [apply worker_ok; split; [done | exact Hb]|]. by intros ? s1 H1.
Qed.

(** What is known in whatever configuration the manager gets to. *)
Definition manager_known : ManagerConfig (Q := Q) → Prop := known answered routines Inv rely (at_call rounds) fin.

Lemma routines_NoDup : NoDup routines.
Proof. apply (bool_decide_unpack _). by vm_compute. Qed.

Lemma manager_known_turns x y : manager_known x → turns answered environment routines x y → manager_known y.
Proof.
  intros Hx Ht. eapply (known_turns answered environment routines Inv rely (at_call rounds)); [| | | | | done | done].
  - intros. by eapply at_call_rely.
  - intros. by eapply calls_respect.
  - intros. by apply environment_respects.
  - apply routines_NoDup.
  - intros. by eapply fin_rely.
Qed.

Lemma manager_turn_rely x y : manager_known x → turns answered environment routines x y → ∃ r, rely r x.2 y.2.
Proof.
  apply (known_turn_rely _ _ _ _ _ _) with (r0 := LeadR) (r1 := StopR);
    [by intros; eapply calls_respect | by intros; eapply environment_respects|].
  intros r. destruct (decide (r = LeadR)) as [->|]; [by right | left; congruence].
Qed.

Lemma manager_known_runs x : manager_runs (init rounds) x → manager_known x.
Proof.
  assert (manager_known (init rounds)) as H0.
  { split; [apply init_Inv|]. intros i r p Hi Hp. change ((body rounds <$> routines) !! i = Some p) in Hp.
    rewrite list_lookup_fmap, Hi in Hp. injection Hp as <-. apply body_ok. }
  intros Hr. revert H0. generalize (init rounds), Hr. induction 1; [done|]. eauto using manager_known_turns.
Qed.
(** ** Safety *)

Lemma takes_ready r c s : Inv s → takes r c → r ∈ started (go s) → ready_before c s.
Proof.
  intros HI [->|[i ->]] Hs; apply (i_ready _ HI); [done|]. apply (i_worker _ HI c i Hs).
Qed.

(** The controller found its caches filled before it did anything with its queue. *)
Lemma orderly_filled r l : orderly r l → ∀ c n, mkEv (QLen c) n ∈ l → r = CtlR c ∧ mkEv (WaitForCacheSync (caches_of c)) true ∈ l.
Proof.
  induction l as [|e l IH]; [by intros _ ? ? ?%not_elem_of_nil|]. intros [Ha Hl] c n [<-|Hn]%elem_of_cons.
  - destruct Ha as (-> & before & ->). split; [done|]. right. left.
  - destruct (IH Hl c n Hn). split; [done|]. by right.
Qed.

Lemma orderly_taken c l : orderly (CtlR c) l → ∀ x, mkEv (QGet c) x ∈ l → mkEv (WaitForCacheSync (caches_of c)) true ∈ l.
Proof.
  induction l as [|e l IH]; [by intros _ ? ?%not_elem_of_nil|]. intros [Ha Hl] x [<-|Hn]%elem_of_cons; right; eauto.
Qed.

Lemma own_elem r e h : (r, e) ∈ h → e ∈ own r h.
Proof. intros He. apply list_elem_of_fmap. exists (r, e). split; [done|]. by apply list_elem_of_filter. Qed.

Lemma waited_filled c s : Inv s → mkEv (WaitForCacheSync (caches_of c)) true ∈ own (CtlR c) (hist s) → filled c s.
Proof. intros HI He%own_past. split; [done | by apply (i_filled _ HI _ _ He)]. Qed.

Lemma taken_filled r c x s : Inv s → takes r c → r ∈ started (go s) → (r, mkEv (QGet c) x) ∈ hist s → filled c s.
Proof.
  intros HI [->|[i ->]] Hs He; apply waited_filled; try done.
  - eapply orderly_taken; [apply HI | by apply own_elem].
  - destruct (i_synced _ HI c) as (n & later & before & Hn & _); [apply (i_worker _ HI c i Hs)|].
    eapply orderly_filled with (n := n); [apply HI|]. rewrite Hn. apply elem_of_app. right. left.
Qed.

(** C37: the start of the manager, in every state that it may get to.  An item of a
    controller is taken only by that controller or one of its workers, and only when
    the controller has found its own caches filled and the controllers before it
    (pools, then quotas, then floating IPs) have done their initial sync.  Each of
    them works in order: what is handed to the syncHandler is the item just taken,
    and an item is given back only after the syncHandler has answered, and after it
    was put back or forgotten as the answer asks for; the queue is measured right
    after the caches were found filled.  An initial sync is done only when the
    controller has given back as many items, thus handled, as the queue held when it
    was measured.  And the process is never ended by a controller, whether or not the
    context is done while it starts: only a listener that fails does it. *)
Theorem controllers_start_in_order ts s :
  manager_runs (init rounds) (ts, s) →
  (∀ r c key, (r, mkEv (QGet c) (Some key)) ∈ hist s → takes r c ∧ filled c s ∧ ready_before c s) ∧
  (∀ r, orderly r (own r (hist s))) ∧
  (∀ c, closed s (InitSyncDone c) → initially_synced c s) ∧
  (∀ r, (r, mkEv Fatal tt) ∈ hist s → r = ListenR).
Proof.
  intros Hr. destruct (manager_known_runs _ Hr) as [HI _]. cbn in HI. split_and!.
  - intros r c key He. destruct (i_took _ HI r c _ He) as [Ht Hs]; [cbn; by rewrite bool_decide_true|].
    split_and!; [done | by eapply taken_filled | by eapply takes_ready].
  - apply HI.
  - apply HI.
  - intros r He. by apply (i_fatal _ HI r _ He).
Qed.

(** [run] has returned: nothing that it started is at work. *)
Definition drained s : Prop :=
  cancelled (go s) tt = true ∧ serverDown s = true ∧
  ∀ r c, takes r c → r ∈ started (go s) → down s c ∧ took r c (hist s) = gave r c (hist s).

Lemma joined_drained s : Inv s → joined s → drained s.
Proof.
  intros HI (Hc & Hf & Hh & Hi). split_and!; [done | by apply HI |]. intros r c Ht Hs.
  assert (CtlR c ∈ started (go s)) as Hctl.
  { destruct Ht as [->|[i ->]]; [done|]. by apply (i_worker _ HI c i). }
  destruct (i_over _ HI _ _ (Hf c Hctl)) as [Ho Hw]. destruct (Hw c eq_refl) as [Hd Hall]. split; [done|].
  destruct Ht as [->|[i ->]]; [apply Ho|]. apply (i_over _ HI _ _ (Hall i Hs)).
Qed.

(** C36: the end of the manager.  When [run] has returned, the context is done, the
    HTTP server was shut down, the queue of every controller that was started is
    shut down, and every item that a controller or a worker took was given back.
    (Nothing is said of the lease, which may have been given up before: the drain
    starts when it is gone.)  And when [drainRun] reports that the controller was drained, [run] has returned, unless the channel
    of its start was found empty. *)
Theorem run_returns_drained ts s :
  manager_runs (init rounds) (ts, s) →
  (closed s RunDone → drained s) ∧
  (∀ i, routines !! i = Some StopR → ts !! i = Some (Ret true) →
     drained s ∨ (StopR, mkEv (Prim (Select [Recv RunStart] true)) None) ∈ hist s).
Proof.
  intros Hr. destruct (manager_known_runs _ Hr) as [HI Hts]. cbn in HI.
  assert (closed s RunDone → drained s) as Hd by (intros Hc; by apply joined_drained, HI).
  split; [done|]. intros i Hi Hp. destruct (Hts i _ _ Hi Hp eq_refl) as [Hc|He]; [left; auto | by right].
Qed.
End Correct.
