(* ===== verification/ManagerEnds.v ===== *)
(** The manager comes to an end: once its context is done, [run] returns after
    finitely many steps of the goroutines, whatever the schedule and whatever the
    rest of the system does, and until then one of them can always go on.

    A goroutine that cannot go on waits for another one ([waits]); following these
    waits from [run] to the controllers and on to the workers ends at one that can
    act. *)

From stdpp Require Import functions.
From S2P Require Import Prelude GoStd ApiTypes Prog Kube ServiceLabels FipController PoolController QuotaController RelyGuarantee Goroutines WorkQueue Manager ManagerLogic ManagerCorrect.

Section Ends.
Context {Q : Type} `{HQueue : WorkQueue Q} `{HKey : KeyFunc} `{!WorkQueueLaws Q} (rounds : nat).
Implicit Types (s : World Q) (r : Routine) (c : Ctl) (w : Group).

#[local] Instance ready_dec (g0 : MState) (g : Guard Channel unit) : Decision (ready g0 g).
Proof. destruct g; cbn; apply _. Defined.

#[local] Instance closed_dec s ch : Decision (closed s ch).
Proof. unfold closed. apply _. Defined.

(** ** What can be answered *)

(** The waits of a goroutine for another one. *)
Definition waits r {R} (k : RunCall R) s : Prop :=
  match k with
  | Prim (Select cases _) => r = LeadR ∧
      (cases = [Recv HttpDone] ∧ HttpR ∈ started (go s) ∧ ¬ closed s HttpDone ∨
       cases = [Recv InformersDone] ∧ InformersR ∈ started (go s) ∧ ¬ closed s InformersDone)
  | Prim (WgWait w) => wg_owner w = r ∧ (∀ c, w = WorkersWG c → down s c) ∧
      ∃ q, member w q ∧ q ∈ started (go s) ∧ q ∉ done_of s w
  | QGet c => (∃ i, r = WorkerR c i) ∧ ¬ down s c
  | OutOfRounds => ∃ c i, r = WorkerR c i ∧ (rounds ≤ took r c (hist s))%nat
  | _ => False
  end.

Lemma select_answerable r cases default i g s : cases !! i = Some g → ready (go s) g →
  ∃ x g', go_answers r _ (Select (Rt := Routine) (Wg := Group) cases default) (go s) x g'.
Proof. intros Hi Hg. do 2 eexists. by eapply ans_case. Qed.

Lemma done_room r w s : Inv s → member w r → r ∈ started (go s) → r ∉ done_of s w →
  (length (finished (wgs (go s) w)) < added (wgs (go s) w))%nat.
Proof.
  intros HI Hm Hs Hn. destruct (i_finished _ HI w) as [Hnd Hf]. pose proof (i_added _ HI w) as Ha.
  assert (length (done_of s w) < length (members s w))%nat as Hl; [|unfold done_of in Hl; lia].
  apply (room_for _ _ r); [done | | by apply list_elem_of_filter | done].
  intros q Hq. apply list_elem_of_filter. by apply Hf.
Qed.

Lemma wait_answerable w s : Inv s → added (wgs (go s) w) = length (members s w) →
  length (finished (wgs (go s) w)) = added (wgs (go s) w) ∨ ∃ q, member w q ∧ q ∈ started (go s) ∧ q ∉ done_of s w.
Proof.
  intros HI Ha. destruct (i_finished _ HI w) as [Hnd Hf]. rewrite Ha.
  destruct (finished_or (done_of s w) (members s w)) as [?|(q & Hq & Hn)]; [done | by apply NoDup_filter, HI | | by left |].
  - intros q Hq. apply list_elem_of_filter. by apply Hf.
  - apply list_elem_of_filter in Hq as [? ?]. right. by exists q.
Qed.

Lemma prim_answerable r R (k : MCall R) s : Inv s → at_prim r k s → r ∈ started (go s) → cancelled (go s) tt = true →
  (∃ x g, go_answers r R k (go s) x g) ∨ waits r (Prim k) s.
Proof.
  intros HI Hk Hs Hc. destruct k as [| q | ch | ch | cases default | [] | [] | w | w | w |]; cbn in Hk.
  - left. do 2 eexists. by constructor.
  - left. do 2 eexists. constructor. apply Hk.
  - left. do 2 eexists. constructor. destruct Hk as (_ & Hn & _). unfold closed in Hn. by apply not_true_is_false.
  - left. do 2 eexists. destruct Hk as (_ & _ & Hn & Hb). constructor; [|done]. unfold closed in Hn. by apply not_true_is_false.
  - destruct Hk as [->|[Hin|[[d Hin]|(-> & _ & Hw)]]].
    + destruct (decide (Exists (ready (go s)) cases)) as [He|He].
      * apply Exists_exists in He as (g & Hg & Hr). apply list_elem_of_lookup in Hg as [i Hi]. left. by eapply select_answerable.
      * left. do 2 eexists. apply ans_default. apply Forall_forall. intros g Hg Hr. apply He, Exists_exists. by exists g.
    + apply list_elem_of_lookup in Hin as [i Hi]. left. by eapply select_answerable.
    + apply list_elem_of_lookup in Hin as [i Hi]. left. by eapply select_answerable.
    + destruct Hw as [[-> Hh]|[-> Hh]].
      * destruct (decide (closed s HttpDone)) as [Hx|Hx]; [left | right; split; [done | by left]].
        apply (select_answerable _ _ _ 0%nat (Recv HttpDone)); [done | by right].
      * destruct (decide (closed s InformersDone)) as [Hx|Hx]; [left | right; split; [done | by right]].
        apply (select_answerable _ _ _ 0%nat (Recv InformersDone)); [done | by right].
  - left. do 2 eexists. constructor.
  - left. do 2 eexists. constructor.
  - left. do 2 eexists. constructor.
  - left. do 2 eexists. constructor. destruct Hk as (Hm & _ & Hn & _). by eapply done_room.
  - destruct Hk as (Hw & _ & Ha & Hd). destruct (wait_answerable w s HI Ha) as [Hl|Hq]; [left | by right].
    do 2 eexists. by constructor.
  - left. do 2 eexists. constructor.
Qed.

(** Once the context is done, a call is answered, or waits for another goroutine. *)
Lemma answerable r R (k : RunCall R) s : Inv s → at_call rounds r R k s → r ∈ started (go s) →
  cancelled (go s) tt = true → exited (go s) = false → (∃ x s', answered r R k s x s') ∨ waits r k s.
Proof.
  intros HI Hk Hs Hc Hx.
  assert ((∃ x s', effect r R k s x s') ∨ waits r k s) as [(x & s' & He)|Hw]; [| |by right].
  2: { left. do 2 eexists. by constructor. }
  destruct k as [R k | | | | c | | | | | | | | |]; cbn in Hk |- *.
  3: left; do 2 eexists; by apply eff_unsynced.
  11: left; do 2 eexists; by apply (eff_server _ _ None).
  9: left; do 2 eexists; by apply (eff_item _ _ _ _ None).
  2-3, 5-8, 10: left; do 2 eexists; by econstructor.
  - destruct (prim_answerable r R k s HI Hk Hs Hc) as [(x & g & Ha)|Hw]; [left | by right]. do 2 eexists. by constructor.
  - destruct Hk as (Ht & _ & _ & Hl & _). destruct (q_Get (queues s c)) as [[x q]|] eqn:Hq.
    + left. do 2 eexists. by constructor.
    + right. destruct (get_blocks _ Hq) as [H0 Hd]. destruct Ht as [->|Ht].
      * destruct (Hl eq_refl) as [_ Hl0]. unfold len in Hl0. lia.
      * split; [done|]. unfold down. by rewrite Hd.
  - left. do 2 eexists. apply (eff_listen _ _ (mkErr KOther "")).
  - by right.
Qed.
(** ** Somebody can always act *)

(** [run] has returned, or the process is gone, or a worker has taken as many items
    as the model lets it. *)
Definition stopped (x : ManagerConfig (Q := Q)) : Prop :=
  closed x.2 RunDone ∨ exited (go x.2) = true ∨
  ∃ c i, (rounds ≤ took (WorkerR c i) c (hist x.2))%nat.

(** The goroutines that the end does not wait for: it is not up to the listener to
    fail, nor to the leader election to ask. *)
Definition working r : Prop := r ≠ ListenR ∧ r ≠ StopR.

Definition ending (x : ManagerConfig (Q := Q)) : Prop :=
  manager_known rounds x ∧ length x.1 = length routines ∧ cancelled (go x.2) tt = true ∧ LeadR ∈ started (go x.2).

Lemma ending_turns x y : ending x → turns answered environment routines x y → ending y.
Proof.
  intros (Hk & Hl & Hc & Hs) Ht. destruct (manager_turn_rely _ _ _ Hk Ht) as [r Hr].
  split_and!; [by eapply manager_known_turns | | by apply (rl_cancelled _ _ _ Hr) | by apply (rl_started _ _ _ Hr)].
  by rewrite (turns_length _ _ _ _ _ Ht).
Qed.

(** A goroutine that was started is done, can act, or waits. *)
Lemma can_go r ts s : ending (ts, s) → exited (go s) = false → r ∈ routines → r ∈ started (go s) →
  (∃ b, fin r b s) ∨ (∃ y, acts answered routines r (ts, s) y) ∨
  ∃ i R (k : RunCall R) kont, ts !! i = Some (Do k kont) ∧ waits r k s.
Proof.
  intros ([HI Hts] & Hl & Hc & _) Hx Hr Hs. cbn in *. apply list_elem_of_lookup in Hr as [i Hi].
  destruct (lookup_lt_is_Some_2 ts i) as [p Hp]; [rewrite Hl; apply (lookup_lt_Some routines i r Hi)|].
  pose proof (Hts i r p Hi Hp) as He. destruct p as [b | R k kont]; [left; by exists b|]. right.
  destruct He as [Hat _]. destruct (answerable _ _ _ _ HI Hat Hs Hc Hx) as [(x & s' & Ha)|Hw].
  - left. eexists. by eapply acts_call.
  - right. by exists i, R, k, kont.
Qed.

(** Whom [r] waits for. *)
Lemma waits_for r {R} (k : RunCall R) s : waits r k s →
  match r with
  | LeadR => HttpR ∈ started (go s) ∧ ¬ closed s HttpDone ∨ InformersR ∈ started (go s) ∧ ¬ closed s InformersDone ∨
      ∃ c, CtlR c ∈ started (go s) ∧ CtlR c ∉ done_of s ControllersWG
  | CtlR c => down s c ∧ ∃ i, WorkerR c i ∈ started (go s) ∧ WorkerR c i ∉ done_of s (WorkersWG c)
  | WorkerR c _ => ¬ down s c ∨ ∃ c' i, (rounds ≤ took (WorkerR c' i) c' (hist s))%nat
  | _ => False
  end.
Proof.
  destruct k as [R [| | | | | | | | | w |] | | | | | | | | | | | | |]; cbn; try done.
  - intros (-> & [(_ & ? & ?)|(_ & ? & ?)]); tauto.
  - intros (<- & Hd & q & Hm & Hs & Hn). destruct w as [|c]; destruct q; try done; cbn in *.
    + right. right. by exists c.
    + subst. split; [by apply Hd | by eexists].
  - intros ([i ->] & Hd). by left.
  - intros (c & i & -> & Ht). right. by exists c, i.
Qed.

Lemma worker_goes c i ts s : ending (ts, s) → exited (go s) = false → down s c →
  WorkerR c i ∈ started (go s) → WorkerR c i ∉ done_of s (WorkersWG c) →
  stopped (ts, s) ∨ ∃ r y, working r ∧ acts answered routines r (ts, s) y.
Proof.
  intros He Hx Hd Hs Hn. assert (WorkerR c i ∈ routines) as Hr.
  { destruct He as ((HI & _) & _). destruct (i_worker _ HI c i Hs) as [Hi _].
    destruct c; cbn in Hi; destruct i as [|[|]]; try lia; apply (bool_decide_unpack _); by vm_compute. }
  destruct (can_go _ _ _ He Hx Hr Hs) as [[b Hf]|[[y Hy]|(j & R & k & kont & Hj & Hw)]]; [done | right; by exists (WorkerR c i), y |].
  left. right. right. by destruct (waits_for _ _ _ Hw).
Qed.

Lemma controller_goes c ts s : ending (ts, s) → exited (go s) = false →
  CtlR c ∈ started (go s) → CtlR c ∉ done_of s ControllersWG →
  stopped (ts, s) ∨ ∃ r y, working r ∧ acts answered routines r (ts, s) y.
Proof.
  intros He Hx Hs Hn. assert (CtlR c ∈ routines) as Hr by (destruct c; apply (bool_decide_unpack _); by vm_compute).
  destruct (can_go _ _ _ He Hx Hr Hs) as [[b Hf]|[[y Hy]|(j & R & k & kont & Hj & Hw)]]; [done | right; by exists (CtlR c), y |].
  destruct (waits_for _ _ _ Hw) as (Hd & i & Hi & Hni). by eapply worker_goes.
Qed.

Lemma somebody_goes x : ending x → stopped x ∨ ∃ r y, working r ∧ acts answered routines r x y.
Proof.
  destruct x as [ts s]. intros He. destruct (exited (go s)) eqn:Hx; [left; by right; left|].
  assert (∀ r, r = LeadR ∨ r = HttpR ∨ r = InformersR → r ∈ routines ∧ working r) as Hin.
  { intros r Hr. split; [|by destruct Hr as [-> | [-> | ->]]].
    destruct Hr as [-> | [-> | ->]]; apply (bool_decide_unpack _); by vm_compute. }
  pose proof He as (_ & _ & _ & Hlead). cbn in Hlead.
  destruct (can_go LeadR _ _ He Hx) as [[b Hf]|[[y Hy]|(j & R & k & kont & Hj & Hw)]]; [by apply Hin; left | done | | |].
  - left. by left.
  - right. exists LeadR, y. split; [by apply Hin; left | done].
  - destruct (waits_for _ _ _ Hw) as [[Hs Hn]|[[Hs Hn]|(c & Hs & Hn)]]; [| |by eapply controller_goes].
    + destruct (Hin HttpR) as [Hr Hwk]; [auto|].
      destruct (can_go _ _ _ He Hx Hr Hs) as [[? ?]|[[y Hy]|(? & ? & k' & kont' & _ & Hw')]]; [done | right; by exists HttpR, y |].
      by apply (waits_for _ k') in Hw'.
    + destruct (Hin InformersR) as [Hr Hwk]; [auto|].
      destruct (can_go _ _ _ He Hx Hr Hs) as [[? ?]|[[y Hy]|(? & ? & k' & kont' & _ & Hw')]]; [done | right; by exists InformersR, y |].
      by apply (waits_for _ k') in Hw'.
Qed.

(** C35: the shutdown of the manager ends.  From every state that a manager which
    leads may get to and in which its context is done, whether it is still starting
    or at work, [run] returns after finitely many steps of the goroutines, whatever
    the schedule and whatever the informers, the API server and the leader election
    do; no state on the way is a deadlock.  (Unless the process goes down before, or
    a worker takes as many items as the model's bound, which is arbitrary.) *)
Theorem manager_shuts_down ts s :
  manager_runs (init rounds) (ts, s) → cancelled (go s) tt = true → LeadR ∈ started (go s) →
  inevitable answered environment routines working stopped (ts, s).
Proof.
  intros Hr Hc Hl. eapply (inevitable_intro answered environment routines working stopped ending).
  - exact ending_turns.
  - exact somebody_goes.
  - split_and!; [by eapply manager_known_runs | rewrite (runs_length _ _ _ _ _ Hr); done | done | done].
Qed.
End Ends.
