(* ===== verification/ManagerDemo.v ===== *)
(** The manager at work: a scheduler that executes the goroutines,
    and runs of a start, a shutdown, and of two races. *)

From stdpp Require Import functions.
From S2P Require Import Prelude GoStd ApiTypes Prog Kube ServiceLabels FipController PoolController QuotaController FipDemo RelyGuarantee Goroutines WorkQueue Manager ManagerLogic ManagerCorrect ManagerEnds.

#[export] Instance demo_key_func : KeyFunc := {|
  MetaNamespaceKeyFunc m := Ok (if bool_decide (Namespace m = "") then Name m else Namespace m +:+ "/" +:+ Name m)
|}.

(** ** A scheduler *)

Abbreviation DWorld := (World ListQueue).

Definition exec_effect (r : Routine) (hint : nat) {R} (k : RunCall R) (s : DWorld) : option (R * DWorld) :=
  match k in RunCall R return option (R * DWorld) with
  | Prim k => match exec_prim r hint k (go s) with Some (x, g) => Some (x, set_go g s) | None => None end
  | FactoryStart => Some (tt, set_watching s)
  | WaitForCacheSync caches => if forallb (synced s) caches then Some (true, s)
      else if cancelled (go s) tt then Some (false, s) else None
  | QLen c => Some (q_Len (queues s c), s)
  | QGet c => match q_Get (queues s c) with Some (x, q) => Some (x, set_queue c q s) | None => None end
  | QDone c key => Some (tt, set_queue c (q_Done key (queues s c)) s)
  | QForget c key => Some (tt, set_queue c (q_Forget key (queues s c)) s)
  | QAddRateLimited c key => Some (tt, set_queue c (q_AddRateLimited key (queues s c)) s)
  | QShutDown c => Some (tt, set_queue c (q_ShutDown (queues s c)) s)
  | SyncItem _ _ => Some (match hint with O => None | _ => Some (mkErr KOther "sync") end, s)
  | ListenAndServe => if serverDown s then Some (None, s) else None
  | ServerShutdown => Some (None, set_serverDown s)
  | Fatal => Some (tt, set_go (set_exited (go s)) s)
  | OutOfRounds => None
  end.

Lemma exec_effect_sound r hint R (k : RunCall R) s x s' : exec_effect r hint k s = Some (x, s') → effect r R k s x s'.
Proof.
  destruct k; cbn; intros He.
  - destruct (exec_prim r hint c (go s)) as [[y g]|] eqn:Hp; simplify_eq. constructor. by eapply exec_prim_sound.
  - simplify_eq. by constructor.
  - destruct (forallb _ _) eqn:Hf; simplify_eq.
    + constructor. apply Forall_forall. intros i Hi. rewrite forallb_forall in Hf. by apply Hf, list_elem_of_In.
    + destruct (cancelled (go s) tt) eqn:Hc; simplify_eq. by apply eff_unsynced.
  - simplify_eq. by constructor.
  - destruct (lq_keys (queues s c)) eqn:Hq; [destruct (lq_down (queues s c)) eqn:Hd|]; simplify_eq;
      constructor; cbn; by rewrite Hq, ?Hd.
  - simplify_eq. exact (eff_done r c key s).
  - simplify_eq. exact (eff_forget r c key s).
  - simplify_eq. exact (eff_again r c key s).
  - simplify_eq. exact (eff_shutdown r c s).
  - simplify_eq. by constructor.
  - destruct (serverDown s) eqn:Hd; simplify_eq. by constructor.
  - simplify_eq. by apply (eff_server r s None).
  - simplify_eq. by constructor.
  - done.
Qed.

Inductive Choice :=
| Turn (r : Routine) (hint : nat)
| Lose | Lead | Stop
| Synced (i : Informer)
| Happens (e : Event) (known : string → bool).

Fixpoint index_of (r : Routine) (l : list Routine) : option nat :=
  match l with [] => None | q :: l => if decide (r = q) then Some 0%nat else S <$> index_of r l end.

Lemma index_of_lookup r l i : index_of r l = Some i → l !! i = Some r.
Proof.
  revert i. induction l as [|q l IH]; intros i; cbn; [done|]. case_decide; [intros; by simplify_eq|].
  destruct (index_of r l) as [j|]; cbn; [|done]. intros [= <-]. by apply IH.
Qed.

Definition choose (x : ManagerConfig (Q := ListQueue)) (ch : Choice) : option ManagerConfig :=
  let '(ts, s) := x in
  match ch with
  | Lose => Some (ts, set_go (cancel tt (go s)) s)
  | Lead => if bool_decide (LeadR ∈ started (go s)) then None else Some (ts, set_go (start LeadR (go s)) s)
  | Stop => if bool_decide (StopR ∈ started (go s)) then None else Some (ts, set_go (start StopR (go s)) s)
  | Synced i => if watching s then Some (ts, set_synced i s) else None
  | Happens e known => if watching s then Some (ts, foldl add_key s (handle_event known e)) else None
  | Turn r hint =>
      if exited (go s) then None else
      match index_of r routines with
      | None => None
      | Some i => match ts !! i with
          | Some (Do k kont) => match exec_effect r hint k s with
              | Some (y, s') => Some (<[i := kont y]> ts, record_call r k y s')
              | None => None
              end
          | _ => None
          end
      end
  end.

Lemma choose_turns x ch y : choose x ch = Some y → turns answered environment routines x y.
Proof.
  destruct x as [ts s], ch; cbn -[routines index_of exec_effect]; intros He.
  - destruct (exited (go s)) eqn:Hx; [done|]. destruct (index_of r routines) as [i|] eqn:Hi; [|done].
    destruct (ts !! i) as [[|R k kont]|] eqn:Hp; [done | | done].
    destruct (exec_effect r hint k s) as [[a s']|] eqn:Hk; simplify_eq. eapply turns_act, acts_call; [| done |].
    + by apply index_of_lookup.
    + constructor; [done | by eapply exec_effect_sound].
  - simplify_eq. apply turns_env. constructor.
  - case_bool_decide; simplify_eq. apply turns_env. constructor; [by left | done].
  - case_bool_decide; simplify_eq. apply turns_env. constructor; [by right | done].
  - destruct (watching s) eqn:Hw; simplify_eq. apply turns_env. by constructor.
  - destruct (watching s) eqn:Hw; simplify_eq. apply turns_env. by constructor.
Qed.

Fixpoint play (x : ManagerConfig (Q := ListQueue)) (chs : list Choice) : option ManagerConfig :=
  match chs with [] => Some x | ch :: chs => match choose x ch with Some y => play y chs | None => None end end.

Lemma play_runs x chs y : play x chs = Some y → manager_runs x y.
Proof.
  revert x. induction chs as [|ch chs IH]; intros x; cbn -[choose]; [by intros [= ->]; apply rtc_refl|].
  destruct (choose x ch) as [z|] eqn:Hc; [|done]. intros Hp. eapply rtc_l; [by eapply choose_turns | by apply IH].
Qed.

(** ** Runs *)

Definition steps (r : Routine) (n : nat) : list Choice := replicate n (Turn r 0).
Definition a_pool : Event := PoolAdded (Obj demo_pool).
Definition a_fip : Event := FipAdded (demo_fip None "").
Definition caches_filled : list Choice := [Synced FloatingIPPools; Synced FloatingIPProjectQuotas; Synced FloatingIPs].

(** Up to the first controller: it is started and [run] waits for it. *)
Definition first_start : list Choice :=
  Lead :: steps LeadR 6 ++ steps InformersR 3 ++ steps HttpR 2.
(** An initial sync of [n] items, the workers, and the next controller. *)
Definition init_sync (c : Ctl) (n : nat) : list Choice := steps (CtlR c) (3 + 4 * n + 1 + 2 * workers_of c).
Definition next_controller : list Choice := steps LeadR 3.

Definition demo (chs : list Choice) : ManagerConfig := default (init 3) (play (init 3) chs).

Lemma demo_runs chs : is_Some (play (init 3) chs) → manager_runs (init 3) ((demo chs).1, (demo chs).2).
Proof.
  intros [y Hy]. unfold demo. rewrite Hy. cbn. destruct y. by apply (play_runs _ chs).
Qed.

(** The manager starts with one pool and one floating IP, and works on both. *)
Definition good_start : list Choice :=
  first_start ++ [Happens a_pool (λ _, false); Happens a_fip (λ _, false)] ++ caches_filled ++
  init_sync PoolCtl 1 ++ next_controller ++ init_sync QuotaCtl 0 ++ next_controller ++ init_sync FipCtl 1.

(** The lease is lost: the callback stops the controllers and waits for [run]. *)
Definition leave : list Choice :=
  Stop :: steps StopR 3 ++ steps HttpR 3 ++
  concat ((λ c, steps (CtlR c) 2) <$> [PoolCtl; QuotaCtl; FipCtl]) ++
  steps (WorkerR PoolCtl 0) 3 ++ steps (WorkerR QuotaCtl 0) 3 ++ steps (WorkerR FipCtl 0) 3 ++ steps (WorkerR FipCtl 1) 3 ++
  concat ((λ c, steps (CtlR c) 3) <$> [PoolCtl; QuotaCtl; FipCtl]) ++
  steps LeadR 6 ++ steps StopR 2.

Ltac plays := vm_compute; by eexists.

Lemma controllers_start_in_order_witness :
  let s := (demo good_start).2 in
  (CtlR FipCtl, mkEv (QGet FipCtl) (Some "ns/a")) ∈ hist s ∧ (takes (CtlR FipCtl) FipCtl ∧ filled FipCtl s ∧ ready_before FipCtl s) ∧
  orderly (CtlR FipCtl) (own (CtlR FipCtl) (hist s)) ∧
  initially_synced PoolCtl s ∧ gave (CtlR PoolCtl) PoolCtl (hist s) = 1%nat.
Proof.
  assert (manager_runs (init 3) ((demo good_start).1, (demo good_start).2)) as Hr by (apply demo_runs; plays).
  destruct (controllers_start_in_order 3 _ _ Hr) as (Hg & Ho & Hs & _).
  assert ((CtlR FipCtl, mkEv (QGet FipCtl) (Some "ns/a")) ∈ hist (demo good_start).2) as He
    by (vm_compute; repeat (first [left | right])).
  split; [exact He|]. split; [exact (Hg _ _ _ He)|]. split; [apply Ho|]. split; [apply Hs; by vm_compute | by vm_compute].
Defined.

Lemma run_returns_drained_witness :
  let x := demo (good_start ++ leave) in
  closed x.2 RunDone ∧ drained x.2 ∧ x.1 !! 1%nat = Some (Ret true).
Proof.
  assert (manager_runs (init 3) ((demo (good_start ++ leave)).1, (demo (good_start ++ leave)).2)) as Hr by (apply demo_runs; plays).
  destruct (run_returns_drained 3 _ _ Hr) as [Hd _].
  split_and!; [by vm_compute | apply Hd; by vm_compute | by vm_compute].
Defined.

(** The context is done while the second controller is still to be started. *)
Definition lost_early : list Choice :=
  first_start ++ [Happens a_pool (λ _, false)] ++ caches_filled ++ init_sync PoolCtl 1 ++ [Lose].

Lemma manager_shuts_down_witness :
  cancelled (go (demo lost_early).2) tt = true ∧
  inevitable answered environment routines working (stopped 3) ((demo lost_early).1, (demo lost_early).2).
Proof.
  split; [by vm_compute|]. apply (manager_shuts_down 3); [apply demo_runs; plays | by vm_compute | vm_compute; repeat (first [left | right])].
Defined.

(** ** Two races *)

(** The informers have filled their caches, but their handlers have not run yet: the
    initial sync of the pools handles nothing, and a floating IP is handled before
    the pool, which is enqueued only then. *)
Definition too_early : list Choice :=
  first_start ++ caches_filled ++ init_sync PoolCtl 0 ++ next_controller ++ init_sync QuotaCtl 0 ++ next_controller ++
  [Happens a_fip (λ _, false)] ++ init_sync FipCtl 1 ++ [Happens a_pool (λ _, false)].

Lemma initial_sync_misses :
  let s := (demo too_early).2 in
  manager_runs (init 3) ((demo too_early).1, s) ∧ closed s (InitSyncDone PoolCtl) ∧
  gave (CtlR FipCtl) FipCtl (hist s) = 1%nat ∧
  gave (CtlR PoolCtl) PoolCtl (hist s) = 0%nat ∧ lq_keys (queues s PoolCtl) = ["pool"].
Proof. split; [apply demo_runs; plays | by vm_compute]. Qed.

(** The lease is lost before the goroutine of [OnStartedLeading] has run: [drainRun]
    finds no channel filled, answers that there is nothing to drain, and the process
    exits while [run] is still to come. *)
Definition drained_too_early : list Choice := Lead :: steps LeadR 1 ++ [Lose; Stop; Turn StopR 0; Turn StopR 1; Turn StopR 0].

Lemma drain_misses_start :
  let x := demo drained_too_early in
  manager_runs (init 3) (x.1, x.2) ∧ LeadR ∈ started (go x.2) ∧ exited (go x.2) = true ∧
  x.1 !! 1%nat = Some (Ret true) ∧ ¬ closed x.2 RunDone.
Proof. split; [apply demo_runs; plays | by vm_compute; split_and!; repeat (first [left | right])]. Qed.
