(* ===== verification/WebhookCerts.v ===== *)
(** The certificate of the admission webhook, [pkg/webhook/config] and
    [pkg/webhook/scheduler]: a signing request, the Secret that keeps the signed
    material, the files and the server it goes to, and the clock that renews it.

    X.509, PEM and RSA are the class [CertLib]; a private key is known by its
    encoding. *)

From S2P Require Import Prelude GoStd ApiTypes Prog.
From Stdlib Require Import SpecFloat.

(** ** Calls *)

(** The data of the webhook's Secret, and of a signing request: the message of a
    denial among its conditions, and the certificate. *)
Record TlsSecret := mkTlsSecret { ts_Name : string; ts_Namespace : string; ts_Type : string; ts_Data : gomap string }.
Record Csr := mkCsr { csr_Name : string; csr_Denied : option string; csr_Certificate : string }.
Record CsrRequest := mkCsrRequest {
  cr_Name : string; cr_Groups : list string; cr_Request : string; cr_SignerName : string; cr_Usages : list string; cr_ExpirationSeconds : Z
}.
Record CertTemplate := mkTemplate { ct_CommonName : string; ct_Organization : list string; ct_DNSNames : list string }.

Inductive CertCall : Type → Type :=
| TlsSecretGet (ns name : string) : CertCall (res TlsSecret)
| TlsSecretCreate (s : TlsSecret) : CertCall (res unit)
| TlsSecretUpdate (s : TlsSecret) : CertCall (res unit)
| CsrGet (name : string) : CertCall (res Csr)
| CsrCreate (r : CsrRequest) : CertCall (res unit)
| CsrApprove (name reason message : string) : CertCall (res unit)
| CsrDelete (name : string) : CertCall (res unit)
| PollTick : CertCall (res unit)                       (* the next poll, or the end of the wait *)
| GenerateKey (bits : Z) : CertCall (res string)
| CreateCertificateRequest (t : CertTemplate) (key : string) : CertCall (res string)
| FileCreateTemp (target : string) : CertCall (res string)
| FileWrite (file data : string) : CertCall (res unit)
| FileChmod (file : string) (mode : Z) : CertCall (res unit)
| FileClose (file : string) : CertCall (res unit)
| FileRename (old new : string) : CertCall (res unit)
| FileRemove (file : string) : CertCall unit
| FileRead (file : string) : CertCall (res string)
| CertNow : CertCall time
(* the HTTPS server *)
| SetCertificate (pair : string) : CertCall unit
| IsServing : CertCall bool
| StopServer : CertCall (res unit)
| StartServer : CertCall unit
| CertSleep (d : time) : CertCall unit.

Class CertLib := {
  pem_decode : string → option string;
  pem_encode : string → string → option string;          (* type and bytes *)
  ParseCertificate : string → res time;                  (* its NotAfter *)
  MarshalPKCS8PrivateKey : string → res string;
  X509KeyPair : string → string → res string
}.

Record CertHandler := mkCertHandler {
  webhookName : string; webhookNamespace : string; HOME : string
}.
Definition webhookSecretName (h : CertHandler) : string := webhookName h +:+ "-tls".
Definition csrName (h : CertHandler) : string := webhookName h +:+ "." +:+ webhookNamespace h +:+ ".svc".
Definition certFilePath (h : CertHandler) : string := HOME h +:+ "/tls.crt".
Definition keyFilePath (h : CertHandler) : string := HOME h +:+ "/tls.key".

Definition errCertUnusable (msg : string) : error := mkErr KCertUnusable ("unusable webhook certificate: " +:+ msg).
Definition is_unusable (e : error) : bool := bool_decide (err_kind e = KCertUnusable).

Definition csrExpirationSeconds : Z := 365 * 24 * 60 * 60.
(** [csrSigningTimeout] over [csrPollInterval], and the poll at once. *)
Definition csr_polls : nat := 61.

(** ** Durations

    [Duration.Minutes] is a [float64], the sum of the whole
    minutes and of the rounded rest, which [int64] cuts to an integer. *)

Definition Minutes (d : Z) : spec_float :=
  SFadd 53 1024 (float64 (Z.quot d (60 * 10 ^ 9))) (SFdiv 53 1024 (float64 (Z.rem d (60 * 10 ^ 9))) (float64 (60 * 10 ^ 9))).
Definition whole_minutes (d : Z) : Z := int64_of_float (Minutes d).

(** The rest of the last minute may round up to it. *)
Example minutes_cut : whole_minutes (90 * 10 ^ 9) = 1 /\ whole_minutes (- 90 * 10 ^ 9) = -1 /\
  whole_minutes (365 * 24 * 60 * 60 * 10 ^ 9 - 1) = 525600 /\ whole_minutes (60 * 10 ^ 9 - 1) = 0.
Proof. vm_compute. done. Qed.

(** A certificate and its key, in PEM. *)
Record TlsPair := mkTlsPair { tp_Certificate : string; tp_Key : string }.

Section Certs.
Context `{HLib : CertLib} (h : CertHandler).
#[local] Open Scope prog_scope.

Definition certNotAfter (pemCert : string) : res time :=
  if bool_decide (pemCert = "") then Err (errCertUnusable "certificate is empty")
  else match pem_decode pemCert with
  | None => Err (errCertUnusable "cannot decode TLS PEM data")
  | Some b =>
      match ParseCertificate b with
      | Err err => Err (errCertUnusable ("cannot parse TLS PEM data: " +:+ err_msg err))
      | Ok notAfter => Ok notAfter
      end
  end.

(** ** The signing request *)

Definition getCSR : Prog CertCall (res Csr) := call (CsrGet (csrName h)).

Definition checkCSR : Prog CertCall (res bool) :=
  try! _c := getCSR else err =>
    Ret (if IsNotFound err then Ok false
         else Err (errorf ("error checking certificate signing request: " +:+ err_msg err))) in
  Ret (Ok true).

Definition deleteCSR : Prog CertCall (res unit) := call (CsrDelete (csrName h)).

Definition signing_request (pCsr : string) : CsrRequest :=
  mkCsrRequest (csrName h) ["system:authenticated"] pCsr "kubernetes.io/kubelet-serving"
    ["digital signature"; "key encipherment"; "server auth"] csrExpirationSeconds.

(** One poll: done with a certificate, failed, or to be continued. *)
Definition poll_result (g : res Csr) : res (option string) :=
  match g with
  | Err err => if IsNotFound err then Err err else Ok None
  | Ok csr =>
      match csr_Denied csr with
      | Some message => Err (errorf ("signing request was denied: " +:+ message))
      | None => Ok (if bool_decide (csr_Certificate csr = "") then None else Some (csr_Certificate csr))
      end
  end.

Fixpoint wait_signed (fuel : nat) : Prog CertCall (res string) :=
  match fuel with
  | O => Ret (Err (mkErr KDeadlineExceeded "context deadline exceeded"))
  | S fuel =>
      let! g := getCSR in
      match poll_result g with
      | Err err => Ret (Err err)
      | Ok (Some cert) => Ret (Ok cert)
      | Ok None => try! _t := call PollTick else err => Ret (Err err) in wait_signed fuel
      end
  end.

Definition createAndSignCSR (pCsr : string) : Prog CertCall (res string) :=
  try! _c := call (CsrCreate (signing_request pCsr)) else err =>
    Ret (Err (errorf ("error while creating signing request: " +:+ err_msg err))) in
  try! _a := call (CsrApprove (csrName h) "Approved by TLS Service" "KubeTLS Approved") else err =>
    Ret (Err (errorf ("error while approving signing request: " +:+ err_msg err))) in
  try! cert := wait_signed csr_polls else err =>
    Ret (Err (errorf ("error waiting for signing request " +:+ csrName h +:+ " to be signed: " +:+ err_msg err))) in
  Ret (Ok cert).

Definition cert_template : CertTemplate :=
  let service := webhookName h +:+ "." +:+ webhookNamespace h in
  mkTemplate ("system:node:" +:+ service +:+ ".svc") ["system:nodes"]
    [webhookName h; service; csrName h; service +:+ ".cluster.local"].

Definition generateTLSKeyAndCert : Prog CertCall (res TlsPair) :=
  try! key := call (GenerateKey 2048) else err => Ret (Err (errorf ("error while generating key: " +:+ err_msg err))) in
  try! bCsr := call (CreateCertificateRequest cert_template key) else err =>
    Ret (Err (errorf ("error while creating certificate request: " +:+ err_msg err))) in
  try! cert := createAndSignCSR (default "" (pem_encode "CERTIFICATE REQUEST" bCsr)) else err => Ret (Err err) in
  Ret (match certNotAfter cert with
       | Err err => Err (errorf ("certificate returned by the signer for " +:+ csrName h +:+ " is unusable: " +:+ err_msg err))
       | Ok _ => Ok (mkTlsPair cert key)
       end).

(** ** The Secret *)

Definition tlsSecretData (pair : TlsPair) : res (gmap string string) :=
  if bool_decide (tp_Certificate pair = "") then Err (errorf "refusing to write empty certificate to webhook secret")
  else match MarshalPKCS8PrivateKey (tp_Key pair) with
  | Err err => Err (errorf ("unable to marshal private key: " +:+ err_msg err))
  | Ok bKey =>
      match pem_encode "PRIVATE KEY" bKey with
      | None => Err (errorf "failed to encode key to PEM")
      | Some pemKey => Ok (<["tls.key" := pemKey]> {["tls.crt" := tp_Certificate pair]})
      end
  end.

Definition getSecret : Prog CertCall (res TlsSecret) := call (TlsSecretGet (webhookNamespace h) (webhookSecretName h)).

Definition checkSecret : Prog CertCall (res bool) :=
  try! _s := getSecret else err =>
    Ret (if IsNotFound err then Ok false else Err (errorf ("error checking webhook TLS secret: " +:+ err_msg err))) in
  Ret (Ok true).

Definition createSecret (pair : TlsPair) : Prog CertCall (res unit) :=
  match tlsSecretData pair with
  | Err err => Ret (Err err)
  | Ok data => call (TlsSecretCreate (mkTlsSecret (webhookSecretName h) (webhookNamespace h) "kubernetes.io/tls" (Some data)))
  end.

Definition updateSecret (pair : TlsPair) : Prog CertCall (res unit) :=
  match tlsSecretData pair with
  | Err err => Ret (Err err)
  | Ok data =>
      try! existing := getSecret else err =>
        if IsNotFound err then createSecret pair
        else Ret (Err (errorf ("cannot fetch webhook secret: " +:+ err_msg err))) in
      call (TlsSecretUpdate (mkTlsSecret (ts_Name existing) (ts_Namespace existing) "kubernetes.io/tls" (Some data)))
  end.

Definition secret_pair (s : TlsSecret) : res TlsPair :=
  let cert := mget (ts_Data s) "tls.crt" in
  let key := mget (ts_Data s) "tls.key" in
  if bool_decide (cert = "") then Err (errCertUnusable "tls.crt not found in secret or empty")
  else if bool_decide (key = "") then Err (errCertUnusable "tls.key not found in secret or empty")
  else Ok (mkTlsPair cert key).

Definition getTLSDataFromSecret : Prog CertCall (res TlsPair) :=
  try! s := getSecret else err => Ret (Err (errorf ("cannot fetch webhook TLS secret: " +:+ err_msg err))) in
  Ret (secret_pair s).

(** ** Files *)

(** Every way out removes the temporary file; closing after a failure is not
    looked at. *)
Definition fill_temp (tmp path data : string) (mode : Z) : Prog CertCall (res unit) :=
  try! _w := call (FileWrite tmp data) else err => (call (FileClose tmp) ;;; Ret (Err err)) in
  try! _m := call (FileChmod tmp mode) else err => (call (FileClose tmp) ;;; Ret (Err err)) in
  try! _c := call (FileClose tmp) else err => Ret (Err err) in
  call (FileRename tmp path).

Definition atomicReplace (path data : string) (mode : Z) : Prog CertCall (res unit) :=
  try! tmp := call (FileCreateTemp path) else err => Ret (Err err) in
  let! a := fill_temp tmp path data mode in
  call (FileRemove tmp) ;;; Ret a.

Definition writeTLSDataFromSecret : Prog CertCall (res unit) :=
  try! pair := getTLSDataFromSecret else err =>
    Ret (Err (errorf ("error while fetching TLS data: " +:+ err_msg err))) in
  if bool_decide (tp_Key pair = "") then Ret (Err (errCertUnusable "tls.key is not PEM material"))
  else
    try! _k := atomicReplace (keyFilePath h) (tp_Key pair) 384 else err =>
      Ret (Err (errorf ("error while writing private key file: " +:+ err_msg err))) in
    try! _c := atomicReplace (certFilePath h) (tp_Certificate pair) 420 else err =>
      Ret (Err (errorf ("error while writing certificate file: " +:+ err_msg err))) in
    Ret (Ok tt).

Definition ServingCertificate : Prog CertCall (res string) :=
  try! pair := getTLSDataFromSecret else err => Ret (Err err) in
  Ret (match X509KeyPair (tp_Certificate pair) (tp_Key pair) with
       | Err err => Err (errCertUnusable ("cannot build serving key pair: " +:+ err_msg err))
       | Ok serving => Ok serving
       end).

Definition GetCertExpireDate : Prog CertCall (res time) :=
  try! pemCert := call (FileRead (certFilePath h)) else err =>
    Ret (Err (errCertUnusable ("cannot read certificate file " +:+ certFilePath h +:+ ": " +:+ err_msg err))) in
  Ret (certNotAfter pemCert).

(** ** Renewing *)

Definition checkCertExpireDate (certRenewalPeriod : Z) : Prog CertCall bool :=
  try! pair := getTLSDataFromSecret else err => Ret (is_unusable err) in
  match certNotAfter (tp_Certificate pair) with
  | Err _ => Ret true
  | Ok expireDate =>
      let! currentDate := call CertNow in
      Ret (whole_minutes (time_sub expireDate currentDate) <? certRenewalPeriod)
  end.

(** A stale signing request is deleted before a new one is made. *)
Definition clear_csr (failed : string) : Prog CertCall (res unit) :=
  try! csrExists := checkCSR else err => Ret (Err err) in
  if csrExists : bool then
    try! _d := deleteCSR else err => Ret (Err (if bool_decide (failed = "") then err else errorf (failed +:+ err_msg err))) in
    Ret (Ok tt)
  else Ret (Ok tt).

Definition renewTLSPair : Prog CertCall (res unit) :=
  try! _c := clear_csr "" else err => Ret (Err err) in
  try! pair := generateTLSKeyAndCert else err => Ret (Err err) in
  updateSecret pair.

Definition create_first : Prog CertCall (res unit) :=
  try! _c := clear_csr "error deleting stale certificate signing request: " else err => Ret (Err err) in
  try! pair := generateTLSKeyAndCert else err =>
    Ret (Err (errorf ("error generating TLS key and certificate: " +:+ err_msg err))) in
  try! _s := createSecret pair else err => Ret (Err (errorf ("error creating webhook TLS secret: " +:+ err_msg err))) in
  Ret (Ok tt).

(** [config.Handler.Run]: whether the material was renewed, and an error. *)
Definition write_after (renewed : bool) : Prog CertCall (bool * option error) :=
  try! _w := writeTLSDataFromSecret else err => Ret (renewed, Some err) in Ret (renewed, None).

Definition config_Run (certRenewalPeriod : Z) : Prog CertCall (bool * option error) :=
  try! secretExists := checkSecret else err => Ret (false, Some err) in
  if negb secretExists then
    try! _c := create_first else err => Ret (false, Some err) in write_after true
  else
    let! due := checkCertExpireDate certRenewalPeriod in
    if due : bool then
      try! _r := renewTLSPair else err => Ret (false, Some (errorf ("error renewing webhook TLS pair: " +:+ err_msg err))) in
      write_after true
    else write_after false.

(** ** The scheduler *)

Definition renewalRetryInterval : time := 30 * 10 ^ 9.
Definition serviceRestartDelay : time := 2 * 10 ^ 9.

(** In [int64]. *)
Definition renewalCheckIntervalMinutes (minutesLeft certRenewalPeriod : Z) : Z :=
  let sTime := wrap64 (wrap64 (minutesLeft - certRenewalPeriod) + 1) in
  let maxWait := Z.quot minutesLeft 3 in
  let maxWait := if certRenewalPeriod <? maxWait then certRenewalPeriod else maxWait in
  let maxWait := if maxWait <? 1 then 1 else maxWait in
  let sTime := if maxWait <? sTime then maxWait else sTime in
  if sTime <? 1 then 1 else sTime.

(** The period from the environment, [CERTRENEWALPERIOD], in minutes. *)
Definition certRenewalPeriodDefault : Z := 30 * 24 * 60.
Definition certRenewalPeriodMin : Z := 60.
Definition certRenewalPeriodMax : Z := 90 * 24 * 60.

Definition certRenewal_of_env (v : string) : Z :=
  let certRenewal := match atoi v with
    | None => certRenewalPeriodDefault
    | Some n => if n =? 0 then certRenewalPeriodDefault else n
    end in
  let certRenewal := if certRenewal <? certRenewalPeriodMin then certRenewalPeriodMin else certRenewal in
  if certRenewalPeriodMax <? certRenewal then certRenewalPeriodMax else certRenewal.

Definition restartService : Prog CertCall unit :=
  let! _s := call StopServer in call (CertSleep serviceRestartDelay) ;;; call StartServer.

Definition renewCertificate (certRenewalPeriod : Z) : Prog CertCall unit :=
  let! _r := config_Run certRenewalPeriod in
  let! p := ServingCertificate in
  match p with Err _ => Ret tt | Ok served => call (SetCertificate served) end ;;;
  let! serving := call IsServing in
  if serving : bool then Ret tt else restartService.

(** How long to wait for the next attempt. *)
Definition next_check (certRenewalPeriod : Z) : Prog CertCall time :=
  let! g := GetCertExpireDate in
  match g with
  | Err _ => Ret renewalRetryInterval
  | Ok expireDate =>
      let! now := call CertNow in
      let minutesLeft := whole_minutes (time_sub expireDate now) in
      Ret (wrap64 (renewalCheckIntervalMinutes minutesLeft certRenewalPeriod * (60 * 10 ^ 9)))
  end.

(** [StartCertRenewalScheduler], for a number of rounds: each schedules one
    attempt, which schedules the next. *)
Fixpoint StartCertRenewalScheduler (rounds : nat) (certRenewalPeriod : Z) : Prog CertCall unit :=
  match rounds with
  | O => Ret tt
  | S rounds =>
      let! delay := next_check certRenewalPeriod in
      call (CertSleep delay) ;;; renewCertificate certRenewalPeriod ;;;
      StartCertRenewalScheduler rounds certRenewalPeriod
  end.
End Certs.
