(* ===== verification/WebhookCertsCorrect.v ===== *)
(** The certificate of the admission webhook: what a renewal may write, what it
    leaves behind, and how long the scheduler waits. *)

From S2P Require Import Prelude GoStd ApiTypes Prog WebhookCerts.

(** ** The waiting time *)

(** Between a minute and the smaller of a third of what is left and the period,
    whatever the numbers are and however the difference wraps. *)
Lemma renewalCheckIntervalMinutes_bounds left period :
  1 ≤ renewalCheckIntervalMinutes left period ≤ Z.max 1 (Z.min (Z.quot left 3) period).
Proof.
  unfold renewalCheckIntervalMinutes. generalize (Z.quot left 3), (wrap64 (wrap64 (left - period) + 1)). intros q w.
  destruct (Z.ltb_spec period q);
    [destruct (Z.ltb_spec period 1) | destruct (Z.ltb_spec q 1)];
    match goal with |- context [?a <? w] => destruct (Z.ltb_spec a w) end;
    match goal with |- context [?a <? 1] => destruct (Z.ltb_spec a 1) end; lia.
Qed.

(** With a period that the environment may set: an hour at least is left to the
    renewal, and the certificate is looked at once in 90 days at least. *)
Lemma env_period_bounds v left :
  let period := certRenewal_of_env v in
  60 ≤ period ≤ 129600 ∧ 1 ≤ renewalCheckIntervalMinutes left period ≤ period.
Proof.
  intros period. assert (60 ≤ period ≤ 129600) as Hp.
  { subst period. unfold certRenewal_of_env, certRenewalPeriodDefault, certRenewalPeriodMin, certRenewalPeriodMax.
    generalize (match atoi v with Some n => if n =? 0 then 30 * 24 * 60 else n | None => 30 * 24 * 60 end). intros r.
    destruct (Z.ltb_spec r 60); match goal with |- context [?a <? ?b] => destruct (Z.ltb_spec a b) end; lia. }
  split; [done|]. pose proof (renewalCheckIntervalMinutes_bounds left period). lia.
Qed.

(** Within the period the certificate is looked at every minute. *)
Lemma due_every_minute left period :
  0 ≤ left ≤ period → period < two63 → renewalCheckIntervalMinutes left period = 1.
Proof.
  intros Hl Hp. unfold renewalCheckIntervalMinutes, two63 in *.
  rewrite (wrap64_small (left - period)), wrap64_small by (unfold two63; lia).
  assert (0 ≤ Z.quot left 3 ≤ left) by (rewrite Z.quot_div_nonneg by lia; split; [apply Z.div_pos | apply Z.div_le_upper_bound]; lia).
  destruct (Z.ltb_spec period (Z.quot left 3)); [lia|].
  destruct (Z.ltb_spec (Z.quot left 3) 1);
    repeat match goal with |- context [?a <? ?b] => destruct (Z.ltb_spec a b) end; lia.
Qed.

Section Renewal.
Context `{HLib : CertLib} (h : CertHandler) (period : Z).

Notation secret_read := (TlsSecretGet (webhookNamespace h) (webhookSecretName h)).
Notation any := (λ _ _, True).

(** ** What the history shows *)

(** The certificate is what the signer returned for an approved request that this
    run made with the key, and it can be parsed. *)
Definition signed (p : TlsPair) (H : History CertCall) : Prop :=
  asked (GenerateKey 2048) H (λ x, x = Ok (tp_Key p)) ∧
  (∃ der, mkEv (CreateCertificateRequest (cert_template h) (tp_Key p)) (Ok der) ∈ H ∧
     mkEv (CsrCreate (signing_request h (default "" (pem_encode "CERTIFICATE REQUEST" der)))) (Ok tt) ∈ H) ∧
  mkEv (CsrApprove (csrName h) "Approved by TLS Service" "KubeTLS Approved") (Ok tt) ∈ H ∧
  (∃ csr, mkEv (CsrGet (csrName h)) (Ok csr) ∈ H ∧ csr_Denied csr = None ∧ csr_Certificate csr = tp_Certificate p) ∧
  tp_Certificate p ≠ "" ∧ ∃ notAfter, certNotAfter (tp_Certificate p) = Ok notAfter.

Definition absent (H : History CertCall) : Prop := asked secret_read H NotFoundErr.

(** The Secret holds nothing to serve, or what runs out within the period. *)
Definition due (H : History CertCall) : Prop :=
  ∃ s, mkEv secret_read (Ok s) ∈ H ∧
    match secret_pair s with
    | Err _ => True
    | Ok p => match certNotAfter (tp_Certificate p) with
      | Err _ => True
      | Ok t => asked CertNow H (λ now, whole_minutes (time_sub t now) < period)
      end
    end.

Definition wanted (H : History CertCall) : Prop := absent H ∨ due H.

(** What the Secret is given. *)
Definition material (data : gmap string string) (H : History CertCall) : Prop :=
  ∃ p, signed p H ∧ tlsSecretData p = Ok data.

Definition replaced (s : TlsSecret) (data : gmap string string) : TlsSecret :=
  mkTlsSecret (ts_Name s) (ts_Namespace s) "kubernetes.io/tls" (Some data).
Definition fresh_secret (data : gmap string string) : TlsSecret :=
  mkTlsSecret (webhookSecretName h) (webhookNamespace h) "kubernetes.io/tls" (Some data).

(** The Secret was given signed material. *)
Definition stored (H : History CertCall) : Prop :=
  ∃ data, material data H ∧
    (mkEv (TlsSecretCreate (fresh_secret data)) (Ok tt) ∈ H ∨
     ∃ s, mkEv secret_read (Ok s) ∈ H ∧ mkEv (TlsSecretUpdate (replaced s data)) (Ok tt) ∈ H).

Definition temporary (tmp : string) (H : History CertCall) : Prop :=
  ∃ target, mkEv (FileCreateTemp target) (Ok tmp) ∈ H.

(** A temporary file that is complete: it may take the place of [path]. *)
Definition filled (tmp path data : string) (mode : Z) (H : History CertCall) : Prop :=
  mkEv (FileCreateTemp path) (Ok tmp) ∈ H ∧ mkEv (FileWrite tmp data) (Ok tt) ∈ H ∧
  mkEv (FileChmod tmp mode) (Ok tt) ∈ H ∧ mkEv (FileClose tmp) (Ok tt) ∈ H.

Definition in_place (path data : string) (mode : Z) (H : History CertCall) : Prop :=
  ∃ tmp, filled tmp path data mode H ∧ mkEv (FileRename tmp path) (Ok tt) ∈ H.

(** The pair that the Secret was read with. *)
Definition held_pair (p : TlsPair) (H : History CertCall) : Prop :=
  ∃ s, mkEv secret_read (Ok s) ∈ H ∧ secret_pair s = Ok p.

Definition served_file (p : TlsPair) (path data : string) (mode : Z) : Prop :=
  (path = keyFilePath h ∧ data = tp_Key p ∧ mode = 384) ∨ (path = certFilePath h ∧ data = tp_Certificate p ∧ mode = 420).

Definition on_disk (H : History CertCall) : Prop :=
  ∃ p, held_pair p H ∧ in_place (keyFilePath h) (tp_Key p) 384 H ∧ in_place (certFilePath h) (tp_Certificate p) 420 H.

(** ** What a renewal may do *)

Definition renewal_guard (H : History CertCall) (R : Type) (c : CertCall R) : Prop :=
  match c with
  | TlsSecretGet ns n => ns = webhookNamespace h ∧ n = webhookSecretName h
  | TlsSecretCreate s => absent H ∧ ∃ data, material data H ∧ s = fresh_secret data
  | TlsSecretUpdate s => due H ∧ ∃ s0 data, mkEv secret_read (Ok s0) ∈ H ∧ material data H ∧ s = replaced s0 data
  | CsrGet n => n = csrName h
  | CsrDelete n => n = csrName h ∧ wanted H ∧ asked (CsrGet n) H (λ x, is_err x = false)
  | CsrCreate r => wanted H ∧ ∃ key der, asked (CreateCertificateRequest (cert_template h) key) H (λ x, x = Ok der) ∧
      r = signing_request h (default "" (pem_encode "CERTIFICATE REQUEST" der))
  | CsrApprove n _ _ => n = csrName h ∧ ∃ pem, mkEv (CsrCreate (signing_request h pem)) (Ok tt) ∈ H
  | PollTick | GenerateKey _ | CreateCertificateRequest _ _ | CertNow | IsServing => True
  | FileRead _ => False
  | FileCreateTemp target => target = keyFilePath h ∨ target = certFilePath h
  | FileWrite tmp _ | FileChmod tmp _ | FileClose tmp | FileRemove tmp => temporary tmp H
  | FileRename tmp path => ∃ p data mode, held_pair p H ∧ served_file p path data mode ∧ filled tmp path data mode H
  | SetCertificate served => ∃ p, held_pair p H ∧ X509KeyPair (tp_Certificate p) (tp_Key p) = Ok served
  | StopServer | StartServer => mkEv IsServing false ∈ H
  | CertSleep d => d = serviceRestartDelay
  end.

Notation G := renewal_guard.
Ltac rcall := apply wp_call_then; [done|].
Ltac kept := eapply elem_extends; [eassumption | (done || (repeat apply extends_cons; done))].

(** *** Evidence stays *)

Lemma signed_extends p H H' : extends H H' → signed p H → signed p H'.
Proof.
  intros Hh (Hk & (der & ? & ?) & ? & (csr & ? & ?) & ? & ?). split; [by eapply asked_extends|].
  split; [exists der; split; kept|]. split; [kept|]. split; [|done]. exists csr. split; [kept | done].
Qed.
Lemma cert_due_extends H H' : extends H H' → due H → due H'.
Proof.
  intros Hh (s & ? & Hs). exists s. split; [kept|]. destruct (secret_pair s) as [p|]; [|done].
  destruct (certNotAfter _); [|done]. by eapply asked_extends.
Qed.
Lemma wanted_extends H H' : extends H H' → wanted H → wanted H'.
Proof. intros Hh [? | ?]; [left; by eapply asked_extends | right; by eapply cert_due_extends]. Qed.
Lemma material_extends data H H' : extends H H' → material data H → material data H'.
Proof. intros Hh (p & ? & ?). exists p. split; [by eapply signed_extends | done]. Qed.
Lemma cert_stored_extends H H' : extends H H' → stored H → stored H'.
Proof.
  intros Hh (data & ? & Hs). exists data. split; [by eapply material_extends|].
  destruct Hs as [? | (s & ? & ?)]; [left; kept | right; exists s; split; kept].
Qed.
Lemma held_extends p H H' : extends H H' → held_pair p H → held_pair p H'.
Proof. intros Hh (s & ? & ?). exists s. split; [kept | done]. Qed.
Lemma filled_extends tmp path data mode H H' : extends H H' → filled tmp path data mode H → filled tmp path data mode H'.
Proof. intros Hh (? & ? & ? & ?). split_and!; kept. Qed.
Lemma in_place_extends path data mode H H' : extends H H' → in_place path data mode H → in_place path data mode H'.
Proof. intros Hh (tmp & ? & ?). exists tmp. split; [by eapply filled_extends | kept]. Qed.
Lemma temporary_extends tmp H H' : extends H H' → temporary tmp H → temporary tmp H'.
Proof. intros Hh (t & ?). exists t. kept. Qed.

(** *** The signing request *)

Lemma wp_wait fuel : ∀ H,
  wp G (wait_signed h fuel) (λ x H', ∀ cert, x = Ok cert →
    cert ≠ "" ∧ ∃ csr, mkEv (CsrGet (csrName h)) (Ok csr) ∈ H' ∧ csr_Denied csr = None ∧ csr_Certificate csr = cert) H.
Proof.
  induction fuel as [|fuel IH]; intros H; [done|]. cbn [wait_signed]. unfold getCSR. rcall. intros [csr|e]; simpl.
  - destruct (csr_Denied csr) as [m|] eqn:Hd; [done|]. case_bool_decide as Hc.
    + split; [done|]. intros [[]|e]; [apply IH | done].
    + intros cert [= <-]. split; [done|]. exists csr. split; [by left | done].
  - destruct (IsNotFound e); [done|]. split; [done|]. intros [[]|e']; [apply IH | done].
Qed.

Lemma wp_generate_cert H : wanted H →
  wp G (generateTLSKeyAndCert h) (λ x H', ∀ p, x = Ok p → signed p H') H.
Proof.
  intros Hw. unfold generateTLSKeyAndCert. rcall. intros [key|e]; [|done]. rcall. intros [der|e]; [|done].
  eapply (wp_seq _ _ _ (λ x H', ∀ cert t, x = Ok cert →
    certNotAfter cert = Ok t → signed (mkTlsPair cert key) H')).
  - unfold createAndSignCSR. apply wp_call_then.
    { split; [eapply wanted_extends; [|done]; by do 2 apply extends_cons|]. exists key, der. split; [by apply asked_cons | done]. }
    intros [[]|e]; [|done]. apply wp_call_then; [split; [done|]; eexists; by left|]. intros [[]|e]; [|done].
    eapply wp_seq; [apply wp_wait|]. intros [cert|e] H' Hc Hh; [|done]. apply wp_ret. intros ? t [= <-] Ht. destruct (Hc _ eq_refl) as (Hne & Hcsr).
    split_and!; [| | | done | done | by exists t].
    + exists (Ok key). split; [|done]. eapply elem_extends; [|done]. by do 3 right; left.
    + exists der. split; (eapply elem_extends; [|done]); [by do 2 right; left | by right; left].
    + eapply elem_extends; [|done]. by left.
  - intros [cert|e] H' Hc Hh; [|done]. apply wp_ret. intros p.
    destruct (certNotAfter cert) as [t|] eqn:Ht; [|done]. intros [= <-]. by eapply Hc.
Qed.

Lemma wp_clear_csr failed H : wanted H → wp G (clear_csr h failed) any H.
Proof.
  intros Hw. unfold clear_csr, checkCSR, getCSR. apply wp_bind. rcall. intros [csr|e]; [|by destruct (IsNotFound e)].
  cbn [wp]. unfold deleteCSR. apply wp_call_then; [|by intros [[]|e]].
  split; [done|]. split; [by eapply wanted_extends; [apply extends_cons|]|]. by apply asked_cons.
Qed.

(** *** The Secret *)

Lemma wp_createSecret p H : absent H → signed p H →
  wp G (createSecret h p) (λ x H', x = Ok tt → stored H') H.
Proof.
  intros Ha Hs. unfold createSecret. destruct (tlsSecretData p) as [data|e] eqn:Hd; [|done].
  assert (material data H) as Hm by by exists p.
  apply wp_call; [split; [done|]; by exists data|]. intros x ->. exists data. split; [|left; by left].
  by eapply material_extends; [apply extends_cons|].
Qed.

Lemma wp_updateSecret p H : due H → signed p H → wp G (updateSecret h p) (λ x H', x = Ok tt → stored H') H.
Proof.
  intros Hdue Hs. unfold updateSecret. destruct (tlsSecretData p) as [data|e] eqn:Hd; [|done].
  unfold getSecret. rcall. intros [s|e].
  - assert (material data (mkEv secret_read (Ok s) :: H)) as Hm.
    { exists p. split; [|done]. by eapply signed_extends; [apply extends_cons|]. }
    apply wp_call.
    { split; [by eapply cert_due_extends; [apply extends_cons|]|]. exists s, data. split; [by left | done]. }
    intros x ->. exists data. split; [by eapply material_extends; [apply extends_cons|]|]. right. exists s.
    split; [right; by left | by left].
  - destruct (IsNotFound e) eqn:He; [|done]. apply wp_createSecret.
    + apply asked_cons. by exists e.
    + by eapply signed_extends; [apply extends_cons|].
Qed.

Lemma wp_getTLSData H :
  wp G (getTLSDataFromSecret h) (λ x H', match x with
    | Ok p => held_pair p H'
    | Err e => is_unusable e = true → ∃ s, mkEv secret_read (Ok s) ∈ H' ∧ is_err (secret_pair s) = true
    end) H.
Proof.
  unfold getTLSDataFromSecret, getSecret. rcall. intros [s|e]; [|done]. apply wp_ret.
  destruct (secret_pair s) as [p|e] eqn:Hp; [|intros _]; exists s; (split; [by left | by rewrite ?Hp]).
Qed.

Lemma wp_checkCertExpireDate H :
  wp G (checkCertExpireDate h period) (λ x H', x = true → due H') H.
Proof.
  unfold checkCertExpireDate. eapply wp_seq; [apply wp_getTLSData|]. intros [p|e] H1 Hp Hh1.
  - destruct Hp as (s & Hs & Hp). destruct (certNotAfter (tp_Certificate p)) as [t|e] eqn:Ht.
    + rcall. intros now. apply wp_ret. intros Hlt%Z.ltb_lt. exists s. split; [by right|]. rewrite Hp, Ht.
      by apply asked_cons.
    + apply wp_ret. intros _. exists s. by rewrite Hp, Ht.
  - apply wp_ret. intros Hu. destruct (Hp Hu) as (s & Hs & He). exists s. split; [done|].
    by destruct (secret_pair s).
Qed.

(** *** The files *)

Lemma wp_fill_temp p tmp path data mode H :
  mkEv (FileCreateTemp path) (Ok tmp) ∈ H → held_pair p H → served_file p path data mode →
  wp G (fill_temp tmp path data mode) (λ x H', x = Ok tt → in_place path data mode H') H.
Proof.
  intros Hc Hp Hf. assert (∀ H', extends H H' → temporary tmp H') as Ht.
  { intros H' Hh. exists path. kept. }
  unfold fill_temp. apply wp_call_then; [by apply Ht|].
  intros [[]|e]; [|apply wp_call_then; [apply Ht; auto | done]]. apply wp_call_then; [apply Ht; auto|].
  intros [[]|e]; [|apply wp_call_then; [apply Ht; auto | done]]. apply wp_call_then; [apply Ht; auto|].
  intros [[]|e]; [|done]. set (H3 := _ :: _ :: _ :: H). assert (extends H H3) as Hh3 by by do 3 apply extends_cons.
  assert (filled tmp path data mode H3) as Hfl.
  { split_and!; [by eapply elem_extends | do 2 right; by left | right; by left | by left]. }
  clearbody H3. apply wp_call.
  - exists p, data, mode. split; [by eapply held_extends | done].
  - intros x ->. exists tmp. split; [|by left]. eapply filled_extends; [|done]. by apply extends_cons.
Qed.

Lemma wp_atomicReplace p path data mode H :
  held_pair p H → served_file p path data mode →
  wp G (atomicReplace path data mode) (λ x H', x = Ok tt → in_place path data mode H') H.
Proof.
  intros Hp Hf. unfold atomicReplace. apply wp_call_then; [destruct Hf as [(-> & _) | (-> & _)]; [by left | by right]|].
  intros [tmp|e]; [|done]. eapply wp_seq.
  { apply (wp_fill_temp p); [by left | by eapply held_extends; [apply extends_cons|] | done]. }
  intros x H' Hx Hh. apply wp_call_then; [exists path; eapply elem_extends; [by left | done]|]. intros [].
  apply wp_ret. intros ->. by eapply in_place_extends; [apply extends_cons | by apply Hx].
Qed.

Lemma wp_write H : wp G (writeTLSDataFromSecret h) (λ x H', x = Ok tt → on_disk H') H.
Proof.
  unfold writeTLSDataFromSecret. eapply wp_seq; [apply wp_getTLSData|]. intros [p|e] H1 Hp Hh1; [|done].
  case_bool_decide; [done|]. eapply wp_seq; [apply (wp_atomicReplace p); [done | by left]|].
  intros [[]|e] H2 Hk Hh2; [|done].
  eapply wp_seq; [apply (wp_atomicReplace p); [by eapply held_extends | by right]|].
  intros [[]|e] H3 Hc Hh3; [|done]. apply wp_ret. intros _. exists p.
  split; [eapply held_extends; [|done]; by etrans|]. split; [eapply in_place_extends; [done | by apply Hk] | by apply Hc].
Qed.

(** *** The renewal *)

Definition run_result (x : bool * option error) (H : History CertCall) : Prop :=
  (x.1 = true → stored H) ∧ (x.2 = None → on_disk H).

Lemma wp_write_after renewed H : (renewed = true → stored H) → wp G (write_after h renewed) run_result H.
Proof.
  intros Hs. unfold write_after. eapply wp_seq; [apply wp_write|]. intros [[]|e] H' Hd Hh; apply wp_ret;
    (split; [intros Hr; eapply cert_stored_extends; [done | by apply Hs] | intros ?]); [by apply Hd | done].
Qed.

Lemma wp_config_Run H : wp G (config_Run h period) run_result H.
Proof.
  unfold config_Run, checkSecret, getSecret. apply wp_bind. rcall. intros [s|e]; cbn [wp].
  - eapply wp_seq; [apply wp_checkCertExpireDate|]. intros [] H1 Hdue Hh1; [|by apply wp_write_after].
    specialize (Hdue eq_refl). unfold renewTLSPair. eapply (wp_seq _ _ _ (λ x H', x = Ok tt → stored H')).
    + eapply wp_seq; [apply wp_clear_csr; by right|]. intros [[]|e] H2 _ Hh2; [|done].
      eapply wp_seq; [apply wp_generate_cert; right; by eapply cert_due_extends|]. intros [p|e] H3 Hp Hh3; [|done].
      apply wp_updateSecret; [eapply cert_due_extends; [|done]; by etrans | by apply Hp].
    + intros [[]|e] H2 Hs Hh2; [|by split]. apply wp_write_after. intros _. by apply Hs.
  - destruct (IsNotFound e) eqn:He; [|by split]. cbn [negb wp].
    assert (absent (mkEv secret_read (Err e) :: H)) as Ha by (apply asked_cons; by exists e).
    set (H1 := _ :: H) in *. clearbody H1. unfold create_first.
    eapply (wp_seq _ _ _ (λ x H', x = Ok tt → stored H')).
    + eapply wp_seq; [apply wp_clear_csr; by left|]. intros [[]|e'] H2 _ Hh2; [|done].
      eapply wp_seq; [apply wp_generate_cert; left; by eapply asked_extends|]. intros [p|e'] H3 Hp Hh3; [|done].
      eapply wp_seq; [apply wp_createSecret; [eapply asked_extends; [|done]; by etrans | by apply Hp]|].
      intros [[]|e'] H4 Hs Hh4; [|done]. apply wp_ret. by intros _; apply Hs.
    + intros [[]|e'] H2 Hs Hh2; [|by split]. apply wp_write_after. intros _. by apply Hs.
Qed.

Lemma wp_renewCertificate H : wp G (renewCertificate h period) any H.
Proof.
  unfold renewCertificate. eapply wp_seq; [apply wp_config_Run|]. intros x H1 _ _.
  eapply (wp_seq _ _ _ (λ x H', ∀ served, x = Ok served → ∃ p, held_pair p H' ∧ X509KeyPair (tp_Certificate p) (tp_Key p) = Ok served)).
  { unfold ServingCertificate. eapply wp_seq; [apply wp_getTLSData|]. intros [p|e] H2 Hp Hh2; [|done]. apply wp_ret.
    intros served. destruct (X509KeyPair _ _) eqn:Hx; [|done]. intros [= <-]. by exists p. }
  intros y H2 Hy _. eapply (wp_seq _ _ _ any).
  { destruct y as [served|e]; [|done]. apply wp_call; [by apply Hy | done]. }
  intros [] H3 _ _. rcall. intros [|]; [done|]. apply wp_call_then; [by left|]. intros x1. rcall. intros [].
  apply wp_call; [do 2 right; by left | done].
Qed.

(** C29: a renewal of the webhook's certificate cannot take away what works.  In
    every run the Secret is created only if it was found absent, and changed only
    if what it holds cannot be served or runs out within the renewal period; both
    only with a certificate that can be parsed and that the signer returned for an
    approved request made with the new key.  No call deletes the Secret; only the
    webhook's own signing request is deleted, and only for a new one.  A file
    takes the place of the served key or certificate only when it is complete,
    with its mode and the data of the Secret; the server is given only a pair that
    was built from the Secret, and is stopped only if it does not serve.  If
    [Run] reports new material, it is in the Secret; if it reports no error, both
    files hold what the Secret was read with. *)
Theorem renewal_never_bricks :
  (∀ H, execs (renewCertificate h period) [] tt H → obeys renewal_guard [] H) ∧
  (∀ x H, execs (config_Run h period) [] x H →
     obeys renewal_guard [] H ∧ (x.1 = true → stored H) ∧ (x.2 = None → on_disk H)).
Proof.
  split; [intros H Hx | intros x H Hx].
  - by destruct (wp_execs _ _ _ _ _ _ Hx (wp_renewCertificate [])).
  - by destruct (wp_execs _ _ _ _ _ _ Hx (wp_config_Run [])) as [[? ?] ?].
Qed.
End Renewal.
