(* ===== verification/WebhookLife.v ===== *)
(** The life of the admission webhook: its HTTPS endpoint ([Run], [Stop],
    [SetCertificate], the handshake and the readiness of
    [pkg/webhook/service/service.go]), the renewals that restart it
    ([pkg/webhook/scheduler]), and [main] ([cmd/webhook]).

    An attempt of a renewal is one call here, which answers with the pair to serve;
    [WebhookCerts] models it.  Every [Run] has a server of its own; they share the
    port.  A renewal is due half a minute after the last one at the earliest: its tick
    comes when [main] waits for its signal, and when every [Run] that was started has
    got to its first steps. *)

From stdpp Require Import functions.
From S2P Require Import Prelude Prog GoStd ApiTypes HttpServer RelyGuarantee Goroutines WebhookCerts.

Inductive WhRoutine :=
| WhMainR                             (* [main] *)
| WhSchedR                            (* the renewals *)
| WhRunR (n : nat).                   (* the [n]-th [Run] *)
Inductive WhChannel := WhSig.

#[export] Instance WhRoutine_eq : EqDecision WhRoutine.
Proof. solve_decision. Defined.
#[export] Instance WhChannel_eq : EqDecision WhChannel.
Proof. solve_decision. Defined.

Abbreviation WhGo := (GoState WhRoutine WhChannel Empty_set unit).
Abbreviation WhGoCall := (GoCall WhRoutine WhChannel Empty_set unit).

Inductive WhCall : Type → Type :=
| WPrim {R} (c : WhGoCall R) : WhCall R
| WSrv (n : nat) {R} (c : ServerCall R) : WhCall R
| WStoreServer (n : nat) : WhCall unit                   (* [httpServer], under the mutex *)
| WLoadServer : WhCall (option nat)
| WSetServing (serving : bool) : WhCall unit
| WIsServing : WhCall bool
| WSetCertificate (pair : string) : WhCall unit
| WRenew : WhCall (option string)                        (* an attempt, and the pair to serve *)
| WTick : WhCall unit                                    (* the next renewal is due *)
| WSleep (d : time) : WhCall unit.

Record WhLife := mkWhLife {
  wgo : WhGo;
  wservers : nat → HttpServer;
  httpServer : option nat;
  serving : bool;
  servingCert : option string;
  disk : res string;                                     (* what [LoadX509KeyPair] makes of the files *)
  whist : list (WhRoutine * Ev WhCall)
}.

Definition shutdownTimeout : time := 15 * 10 ^ 9.

(** ** Handshakes and the readiness probe *)

Definition GetCertificate (s : WhLife) : res string :=
  match servingCert s with Some p => Ok p | None => disk s end.

Definition servingMaterialReady (s : WhLife) : bool :=
  match servingCert s with Some _ => true | None => is_ok (disk s) end.

Definition handleReadyz (s : WhLife) : Z * string :=
  if servingMaterialReady s then (200, "ok") else (503, "no serving certificate").

Section Code.
#[local] Open Scope prog_scope.

(** [ListenAndServeTLS] of [net/http]; an error is only logged. *)
Definition wh_ListenAndServe (n : nat) : Prog WhCall unit :=
  let! err := call (WSrv n Listen) in
  match err with
  | Some _ => Ret tt
  | None =>
      let! ok := call (WSrv n Track) in
      if ok : bool then let! _err := call (WSrv n AcceptLoop) in Ret tt else Ret tt
  end.

Definition wh_Run (n : nat) : Prog WhCall unit :=
  call (WStoreServer n) ;;; call (WSetServing true) ;;; wh_ListenAndServe n ;;; call (WSetServing false).

Definition wh_Stop : Prog WhCall bool :=
  let! srv := call WLoadServer in
  match srv with
  | None => Ret true
  | Some n => call (WSrv n BeginShutdown) ;;; call (WSrv n (AwaitIdle shutdownTimeout))
  end.

Definition wh_restart (n : nat) : Prog WhCall unit :=
  let! _ok := wh_Stop in call (WSleep serviceRestartDelay) ;;; call (WPrim (Go (WhRunR n))).

Definition wh_renew (n : nat) : Prog WhCall unit :=
  let! p := call WRenew in
  match p with None => Ret tt | Some p => call (WSetCertificate p) end ;;;
  let! up := call WIsServing in
  if up : bool then Ret tt else wh_restart n.

(** [rounds] renewals; the [n]-th may start the [n]-th [Run]. *)
Fixpoint wh_schedule (rounds n : nat) : Prog WhCall unit :=
  match rounds with
  | O => Ret tt
  | S rounds => call WTick ;;; wh_renew n ;;; wh_schedule rounds (S n)
  end.

Definition wh_main : Prog WhCall unit :=
  let! p := call WRenew in
  match p with None => Ret tt | Some p => call (WSetCertificate p) end ;;;
  call (WPrim (Go WhSchedR)) ;;; call (WPrim (Go (WhRunR 0))) ;;;
  let! _i := call (WPrim (Select [Recv WhSig] false)) in
  let! _ok := wh_Stop in call (WPrim (Cancel tt)) ;;; call (WPrim Exit).

Definition wh_body (rounds : nat) (r : WhRoutine) : Prog WhCall unit :=
  call (WPrim Begin) ;;;
  match r with
  | WhMainR => wh_main
  | WhSchedR => wh_schedule rounds 1
  | WhRunR n => wh_Run n
  end.

Definition wh_routines (rounds : nat) : list WhRoutine := WhMainR :: WhSchedR :: (WhRunR <$> seq 0 (S rounds)).
End Code.

(** ** What the calls do *)

Definition set_wgo (g : WhGo) (s : WhLife) : WhLife :=
  mkWhLife g (wservers s) (httpServer s) (serving s) (servingCert s) (disk s) (whist s).
Definition set_wserver (n : nat) (x : HttpServer) (s : WhLife) : WhLife :=
  mkWhLife (wgo s) (<[n := x]> (wservers s)) (httpServer s) (serving s) (servingCert s) (disk s) (whist s).
Definition set_httpServer (n : nat) (s : WhLife) : WhLife :=
  mkWhLife (wgo s) (wservers s) (Some n) (serving s) (servingCert s) (disk s) (whist s).
Definition set_serving (b : bool) (s : WhLife) : WhLife :=
  mkWhLife (wgo s) (wservers s) (httpServer s) b (servingCert s) (disk s) (whist s).
Definition SetCertificate (pair : string) (s : WhLife) : WhLife :=
  mkWhLife (wgo s) (wservers s) (httpServer s) (serving s) (Some pair) (disk s) (whist s).
Definition set_disk (d : res string) (s : WhLife) : WhLife :=
  mkWhLife (wgo s) (wservers s) (httpServer s) (serving s) (servingCert s) d (whist s).
Definition wh_record {R} (r : WhRoutine) (c : WhCall R) (x : R) (s : WhLife) : WhLife :=
  mkWhLife (wgo s) (wservers s) (httpServer s) (serving s) (servingCert s) (disk s) ((r, mkEv c x) :: whist s).

(** [Run] number [n] has got to its first steps. *)
Definition begun (n : nat) (s : WhLife) : Prop := (WhRunR n, mkEv (WSetServing true) tt) ∈ whist s.

(** The process starts and gets signals, the files change, and requests come. *)
Inductive wh_environment : WhLife → WhLife → Prop :=
| wenv_main s : WhMainR ∉ started (wgo s) → wh_environment s (set_wgo (start WhMainR (wgo s)) s)
| wenv_signal s : wh_environment s (set_wgo (set_chan WhSig (mkChan 1 false) (wgo s)) s)
| wenv_disk d s : wh_environment s (set_disk d s)
| wenv_server n x s : server_env (wservers s n) x → wh_environment s (set_wserver n x s).

(** One port for all servers. *)
Definition port_free {R} (c : ServerCall R) (x : R) (s : WhLife) : Prop :=
  match c in ServerCall R return R → Prop with
  | Listen => λ x, x = None → ∀ m, bound (wservers s m) = false
  | _ => λ _, True
  end x.

Inductive wh_effect (r : WhRoutine) : ∀ R, WhCall R → WhLife → R → WhLife → Prop :=
| weff_prim R (c : WhGoCall R) s x g : go_answers r R c (wgo s) x g → wh_effect r R (WPrim c) s x (set_wgo g s)
| weff_server n R (c : ServerCall R) s x y :
    server_answers R c (wservers s n) x y → port_free c x s → wh_effect r R (WSrv n c) s x (set_wserver n y s)
| weff_store n s : wh_effect r _ (WStoreServer n) s tt (set_httpServer n s)
| weff_load s : wh_effect r _ WLoadServer s (httpServer s) s
| weff_serving b s : wh_effect r _ (WSetServing b) s tt (set_serving b s)
| weff_is_serving s : wh_effect r _ WIsServing s (serving s) s
| weff_cert pair s : wh_effect r _ (WSetCertificate pair) s tt (SetCertificate pair s)
| weff_renew s pair : wh_effect r _ WRenew s pair s
| weff_tick s : (∀ n, WhRunR n ∈ started (wgo s) → begun n s) → WhRunR 0 ∈ started (wgo s) → wh_effect r _ WTick s tt s
| weff_sleep d s : wh_effect r _ (WSleep d) s tt s.

Inductive wh_answered (r : WhRoutine) (R : Type) (c : WhCall R) (s : WhLife) (x : R) : WhLife → Prop :=
| wh_answered_call s' : exited (wgo s) = false → wh_effect r R c s x s' → wh_answered r R c s x (wh_record r c x s').

Definition WhConfig : Type := Config (S := WhLife) (E := WhCall) (A := unit).
Definition wh_init_life (d : res string) : WhLife := mkWhLife go_init (λ _, new_server) None false None d [].
Definition wh_init (rounds : nat) (d : res string) : WhConfig := (wh_body rounds <$> wh_routines rounds, wh_init_life d).
Definition wh_runs (rounds : nat) : WhConfig → WhConfig → Prop := runs wh_answered wh_environment (wh_routines rounds).
