(* ===== verification/WebhookLifeCorrect.v ===== *)
(** A renewal does not interrupt the admission webhook: only a [Run] that has ended is
    stopped and replaced, and a handshake succeeds from the first certificate on. *)

From stdpp Require Import functions.
From S2P Require Import Prelude Prog GoStd ApiTypes HttpServer RelyGuarantee Goroutines WebhookCerts WebhookLife.

Section Life.
Context (rounds : nat) (d0 : res string).
Implicit Types (s : WhLife) (r : WhRoutine).

Definition wh_starter (q : WhRoutine) : option WhRoutine :=
  match q with WhMainR => None | WhSchedR | WhRunR 0 => Some WhMainR | WhRunR (S _) => Some WhSchedR end.

Definition run_started (n : nat) s : Prop := WhRunR n ∈ started (wgo s).
(** [Run] number [n] has ended. *)
Definition ended (n : nat) s : Prop := (WhRunR n, mkEv (WSetServing false) tt) ∈ whist s.
Definition all_ended s : Prop := ∀ n, run_started n s → ended n s.
(** [main] has got its signal. *)
Definition signalled s : Prop := (WhMainR, mkEv (WPrim (Select [Recv WhSig] false)) (Some 0%nat)) ∈ whist s.
Definition installed (p : string) s : Prop := ∃ r, (r, mkEv (WSetCertificate p) tt) ∈ whist s.

Record WInv s : Prop := {
  w_first n : run_started n s → run_started 0 s;
  w_unique n m : run_started n s → run_started m s → n = m ∨ ended n s ∨ ended m s;
  w_begun n : begun n s → run_started n s;
  w_serving : serving s = true → ∃ n, begun n s ∧ ¬ ended n s;
  w_quiet n : serving s = false → begun n s → ended n s;
  w_port n : bound (wservers s n) = true ∨ tracked (wservers s n) = true → begun n s ∧ ¬ ended n s;
  w_closing n : closing (wservers s n) = true → signalled s ∨ ended n s;
  w_server n : httpServer s = Some n → run_started n s;
  w_ok n : server_ok (wservers s n);
  w_cert p : installed p s → ∃ q, servingCert s = Some q ∧ installed q s
}.

Record wrely r s s' : Prop := {
  wr_past e : e ∈ whist s → e ∈ whist s';
  wr_mine e : (r, e) ∈ whist s' → (r, e) ∈ whist s;
  wr_started q : q ∈ started (wgo s) → q ∈ started (wgo s');
  wr_starter q : wh_starter q = Some r → q ∈ started (wgo s') → q ∈ started (wgo s);
  wr_bound n : r = WhRunR n → bound (wservers s' n) = true → bound (wservers s n) = true;
  wr_tracked n : r = WhRunR n → tracked (wservers s' n) = true → tracked (wservers s n) = true;
  wr_closing n : closing (wservers s n) = true → closing (wservers s' n) = true
}.

#[export] Instance wrely_preorder r : PreOrder (wrely r).
Proof.
  split; [by split|]. intros s1 s2 s3 H1 H2.
  split; try (intros; apply H2, H1; done); try (intros; apply H1; [done|]; by apply H2).
  intros e He. by apply H1, H2.
Qed.

(** ** Events *)

(** What an event says of [serving]. *)
Definition serving_event (e : Ev WhCall) : option bool :=
  match ev_c e with WSetServing b => Some b | _ => None end.

Definition cert_event (e : Ev WhCall) : option string :=
  match ev_c e with WSetCertificate p => Some p | _ => None end.

Lemma begun_record n r {R} (k : WhCall R) x s : serving_event (mkEv k x) ≠ Some true → begun n (wh_record r k x s) ↔ begun n s.
Proof.
  intros Hk. split; [|by apply list_elem_of_further]. intros [He|He]%elem_of_cons; [|done].
  apply (f_equal (λ e, serving_event e.2)) in He. cbn beta iota delta [snd] in He. by rewrite <- He in Hk.
Qed.

Lemma ended_record n r {R} (k : WhCall R) x s : serving_event (mkEv k x) ≠ Some false → ended n (wh_record r k x s) ↔ ended n s.
Proof.
  intros Hk. split; [|by apply list_elem_of_further]. intros [He|He]%elem_of_cons; [|done].
  apply (f_equal (λ e, serving_event e.2)) in He. cbn beta iota delta [snd] in He. by rewrite <- He in Hk.
Qed.

Lemma installed_record p r {R} (k : WhCall R) x s : cert_event (mkEv k x) = None → installed p (wh_record r k x s) → installed p s.
Proof.
  intros Hk [r' [He|He]%elem_of_cons]; [|by exists r'].
  apply (f_equal (λ e, cert_event e.2)) in He. cbn beta iota delta [snd] in He. by rewrite Hk in He.
Qed.

Lemma signalled_record r {R} (k : WhCall R) x s : signalled s → signalled (wh_record r k x s).
Proof. apply list_elem_of_further. Qed.

(** A call that is recorded, and not about [serving] nor the certificate. *)
Lemma w_record_Inv r {R} (k : WhCall R) x s : serving_event (mkEv k x) = None →
  cert_event (mkEv k x) = None → WInv s → WInv (wh_record r k x s).
Proof.
  intros Hk Hc HI.
  assert (serving_event (mkEv k x) ≠ Some true ∧ serving_event (mkEv k x) ≠ Some false) as [Ht Hf] by (by rewrite Hk).
  split; try apply HI.
  - intros n m Hn Hm. rewrite !ended_record by done. by apply HI.
  - intros n. rewrite begun_record by done. apply HI.
  - intros Hs. destruct (w_serving _ HI Hs) as [n Hn]. exists n. by rewrite begun_record, ended_record.
  - intros n Hs. rewrite begun_record, ended_record by done. by apply HI.
  - intros n. rewrite begun_record, ended_record by done. apply HI.
  - intros n Hn. rewrite ended_record by done. destruct (w_closing _ HI n Hn); [left; by apply signalled_record | by right].
  - intros p Hp%installed_record; [|done]. destruct (w_cert _ HI p Hp) as (q & Hq & r' & Hi).
    exists q. split; [done|]. exists r'. by apply list_elem_of_further.
Qed.

Lemma w_record_rely r r' {R} (k : WhCall R) x s s' : r' ≠ r → wrely r' s s' → wrely r' s (wh_record r k x s').
Proof.
  intros Hr H. split; try apply H.
  - intros e He. by apply list_elem_of_further, H.
  - intros e [He|He]%elem_of_cons; [by injection He | by apply H].
Qed.

(** ** What is known at a call *)

Definition w_at r R (k : WhCall R) s : Prop :=
  match k with
  | WPrim (Go q) => wh_starter q = Some r ∧ q ∉ started (wgo s) ∧
      match q with WhRunR (S _) => all_ended s ∧ run_started 0 s | _ => True end
  | WSrv n c =>
      match c with
      | BeginShutdown => signalled s ∨ ended n s
      | AwaitIdle _ => True
      | CloseServer => False
      | _ => r = WhRunR n ∧ begun n s ∧ ¬ ended n s
      end
  | WStoreServer n => r = WhRunR n ∧ run_started n s
  | WSetServing true => ∃ n, r = WhRunR n ∧ run_started n s ∧ ¬ ended n s
  | WSetServing false => ∃ n, r = WhRunR n ∧ begun n s ∧ ¬ ended n s ∧
      bound (wservers s n) = false ∧ tracked (wservers s n) = false
  | _ => True
  end.

Lemma all_ended_rely s s' : wrely WhSchedR s s' → run_started 0 s → all_ended s → all_ended s'.
Proof.
  intros H H0 Ha n Hn. apply H, Ha. destruct n as [|n]; [done|]. by apply (wr_starter _ _ _ H).
Qed.

Lemma not_ended_rely n s s' : wrely (WhRunR n) s s' → ¬ ended n s → ¬ ended n s'.
Proof. intros H Hn He. by apply Hn, H. Qed.

Lemma w_at_rely r R (k : WhCall R) s s' : w_at r R k s → wrely r s s' → w_at r R k s'.
Proof.
  intros Hk H. destruct k as [R k|n R c|n| |b| | | | |]; cbn in *; try done.
  - destruct k; try done. destruct Hk as (Hq & Hn & Hs). split_and!; [done | intros Hi; by apply Hn, (wr_starter _ _ _ H) |].
    destruct q as [| |[|n]]; try done. injection Hq as <-. destruct Hs as [Ha H0].
    split; [by eapply all_ended_rely | by apply H].
  - destruct c; try done; try (by destruct Hk as [?|?]; [left | right]; apply H).
    all: destruct Hk as (-> & Hb & Hn); split_and!; [done | by apply H | by eapply not_ended_rely].
  - destruct Hk as [-> Hs]. split; [done | by apply H].
  - destruct b.
    + destruct Hk as (n & -> & Hs & Hn). exists n. split_and!; [done | by apply H | by eapply not_ended_rely].
    + destruct Hk as (n & -> & Hb & Hn & H1 & H2). exists n.
      split_and!; [done | by apply H | by eapply not_ended_rely | |].
      * apply not_true_is_false. intros Hx. apply (wr_bound _ _ _ H n eq_refl) in Hx. congruence.
      * apply not_true_is_false. intros Hx. apply (wr_tracked _ _ _ H n eq_refl) in Hx. congruence.
Qed.

(** ** The step *)

Lemma w_go_Inv g s : started g = started (wgo s) → WInv s → WInv (set_wgo g s).
Proof. intros Hg HI. split; unfold run_started; cbn; rewrite ?Hg; apply HI. Qed.

Lemma w_go_rely r g s : started g = started (wgo s) → wrely r s (set_wgo g s).
Proof. intros Hg. split; try done; cbn; by rewrite Hg. Qed.

Lemma w_start_Inv q s : WInv s → q ∉ started (wgo s) →
  (match q with WhRunR (S _) => all_ended s ∧ run_started 0 s | _ => True end) → WInv (set_wgo (start q (wgo s)) s).
Proof.
  intros HI Hn Hq.
  assert (∀ n, WhRunR n = q → all_ended s) as Hall.
  { intros [|n] <-; [|apply Hq]. intros m Hm. destruct Hn. by apply (w_first _ HI m). }
  split; try apply HI; unfold run_started; cbn.
  - intros n [<-|Hs]%elem_of_cons; [|right; by apply (w_first _ HI n)].
    destruct n; [left | right; apply Hq].
  - intros n m [Hn'|Hn']%elem_of_cons [Hm'|Hm']%elem_of_cons.
    + left. congruence.
    + right. right. by apply (Hall n).
    + right. left. by apply (Hall m).
    + by apply HI.
  - intros n Hb. right. by apply (w_begun _ HI).
  - intros n Hs. right. by apply (w_server _ HI).
Qed.

Lemma w_start_rely r q s : wh_starter q ≠ Some r → wrely r s (set_wgo (start q (wgo s)) s).
Proof.
  intros Hq. split; try done; cbn; [intros; by apply list_elem_of_further|].
  intros q' Hq' [->|Hs]%elem_of_cons; done.
Qed.

Lemma w_prim_respects r R (k : WhGoCall R) s x g : WInv s → w_at r R (WPrim k) s → go_answers r R k (wgo s) x g →
  WInv (set_wgo g s) ∧ ∀ r', r' ≠ r → wrely r' s (set_wgo g s).
Proof.
  intros HI Hk Ha. assert (started g = started (wgo s) → WInv (set_wgo g s) ∧ ∀ r', r' ≠ r → wrely r' s (set_wgo g s)) as Hsame.
  { intros Hg. split; [by apply w_go_Inv | intros; by apply w_go_rely]. }
  revert Hk Hsame. remember (wgo s) as g0 eqn:Hg. revert Hg.
  destruct Ha as [g Hb | q g Hq | ch g Hc | ch g Hc Hb | cases default i gd g Hi Hr | cases g Hn | c g | c g | w g | w g Hl | w g Hl | g];
    intros -> Hk Hsame; try by apply Hsame.
  - destruct Hk as (Hs & _ & Hm). split; [by apply w_start_Inv|]. intros r' Hr'. apply w_start_rely. congruence.
  - apply Hsame. by destruct gd.
Qed.

Lemma wservers_set n y s m : wservers (set_wserver n y s) m = if decide (n = m) then y else wservers s m.
Proof. done. Qed.

(** What a call of a server does to its port, and who may shut it down. *)
Lemma w_server_call r n R (c : ServerCall R) s x y : w_at r R (WSrv n c) s → server_answers R c (wservers s n) x y →
  (bound y = true → bound (wservers s n) = true ∨ r = WhRunR n ∧ begun n s ∧ ¬ ended n s) ∧
  (tracked y = true → tracked (wservers s n) = true ∨ r = WhRunR n ∧ begun n s ∧ ¬ ended n s) ∧
  (closing y = true → closing (wservers s n) = true ∨ signalled s ∨ ended n s).
Proof.
  intros Hk Ha. revert Hk. generalize (wservers s n), Ha.
  destruct 1; cbn; intros Hk; split_and!; intros Hx; try done; auto. destruct (tracked v); [done | auto].
Qed.

Lemma w_server_Inv r n R (c : ServerCall R) s x y : WInv s → w_at r R (WSrv n c) s → server_answers R c (wservers s n) x y →
  WInv (set_wserver n y s) ∧ ∀ r', r' ≠ r → wrely r' s (set_wserver n y s).
Proof.
  intros HI Hk Ha. destruct (w_server_call _ _ _ _ _ _ _ Hk Ha) as (Hb & Ht & Hc).
  destruct (server_answers_later _ _ _ _ _ (w_ok _ HI n) Ha) as [Hl Hok]. split.
  - split; try apply HI; intros m; rewrite wservers_set; case_decide as Hm; try apply HI; subst m; [| |done].
    + intros [Hx|Hx]; [destruct (Hb Hx) as [?|[_ ?]] | destruct (Ht Hx) as [?|[_ ?]]]; try done; apply HI; auto.
    + intros Hx. destruct (Hc Hx) as [?|?]; [by apply HI | done].
  - intros r' Hr'. split; try done; intros m; rewrite wservers_set; case_decide as Hm; try done; subst m.
    + intros -> Hx. by destruct (Hb Hx) as [?|[-> _]].
    + intros -> Hx. by destruct (Ht Hx) as [?|[-> _]].
    + apply Hl.
Qed.

Lemma w_up_Inv n s : WInv s → run_started n s → ¬ ended n s → WInv (wh_record (WhRunR n) (WSetServing true) tt (set_serving true s)).
Proof.
  intros HI Hs Hn. assert (∀ m, ended m (wh_record (WhRunR n) (WSetServing true) tt (set_serving true s)) ↔ ended m s) as He.
  { intros m. by apply (ended_record m (WhRunR n) (WSetServing true) tt (set_serving true s)). }
  split; try apply HI.
  - intros m m' Hm Hm'. rewrite !He. by apply HI.
  - intros m [Hm|Hm]%elem_of_cons; [by injection Hm as -> | by apply HI].
  - intros _. exists n. rewrite He. split; [left | done].
  - done.
  - intros m Hm. rewrite He. destruct (w_port _ HI m Hm) as [Hb ?]. split; [by apply list_elem_of_further | done].
  - intros m Hm. rewrite He. destruct (w_closing _ HI m Hm); [left; by apply signalled_record | by right].
  - intros p Hp. apply (installed_record p (WhRunR n) (WSetServing true) tt (set_serving true s) eq_refl) in Hp.
    destruct (w_cert _ HI p Hp) as (q & Hq & r' & Hi). exists q. split; [done|]. exists r'. by apply list_elem_of_further.
Qed.

Lemma w_down_Inv n s : WInv s → begun n s → ¬ ended n s → bound (wservers s n) = false → tracked (wservers s n) = false →
  WInv (wh_record (WhRunR n) (WSetServing false) tt (set_serving false s)).
Proof.
  intros HI Hs Hn Hb Ht. set (s' := wh_record _ _ _ _).
  assert (∀ m, ended m s' → m = n ∨ ended m s) as He.
  { intros m [Hm|Hm]%elem_of_cons; [left; by injection Hm | by right]. }
  assert (∀ m, ended m s → ended m s') as Hm by (intros m; apply list_elem_of_further).
  assert (∀ m, begun m s' ↔ begun m s) as Hbeg.
  { intros m. by apply (begun_record m (WhRunR n) (WSetServing false) tt (set_serving false s)). }
  split; try apply HI.
  - intros m m' H1 H2. destruct (w_unique _ HI m m' H1 H2) as [?|[?|?]]; auto.
  - intros m. rewrite Hbeg. apply HI.
  - done.
  - intros m _. rewrite Hbeg. intros Hmb. destruct (decide (m = n)) as [->|Hne]; [left|].
    destruct (w_unique _ HI m n) as [?|[?|?]]; [by apply HI.. | done | by apply Hm | done].
  - intros m Hx. destruct (w_port _ HI m Hx) as [? Hno]. rewrite Hbeg. split; [done|]. intros [->|?]%He; [|done].
    destruct Hx as [Hx|Hx]; cbn in Hx; congruence.
  - intros m Hx. destruct (w_closing _ HI m Hx); [left; by apply signalled_record | right; by apply Hm].
  - intros p Hp. apply (installed_record p (WhRunR n) (WSetServing false) tt (set_serving false s) eq_refl) in Hp.
    destruct (w_cert _ HI p Hp) as (q & Hq & r' & Hi). exists q. split; [done|]. exists r'. by apply list_elem_of_further.
Qed.

(** A change of what nobody relies on. *)
Lemma w_store_Inv n s : WInv s → run_started n s → WInv (set_httpServer n s).
Proof. intros HI Hn. split; try apply HI. cbn. by intros m [= <-]. Qed.

Lemma w_cert_Inv r p s : WInv s → WInv (wh_record r (WSetCertificate p) tt (SetCertificate p s)).
Proof.
  intros HI. assert (∀ n, ended n (wh_record r (WSetCertificate p) tt (SetCertificate p s)) ↔ ended n s) as He
    by (intros n; by apply (ended_record n r (WSetCertificate p) tt (SetCertificate p s))).
  assert (∀ n, begun n (wh_record r (WSetCertificate p) tt (SetCertificate p s)) ↔ begun n s) as Hb
    by (intros n; by apply (begun_record n r (WSetCertificate p) tt (SetCertificate p s))).
  split; try apply HI.
  - intros n m Hn Hm. rewrite !He. by apply HI.
  - intros n. rewrite Hb. apply HI.
  - intros Hs. destruct (w_serving _ HI Hs) as [n Hn]. exists n. by rewrite Hb, He.
  - intros n Hs. rewrite Hb, He. by apply HI.
  - intros n. rewrite Hb, He. apply HI.
  - intros n Hn. rewrite He. destruct (w_closing _ HI n Hn); [left; by apply signalled_record | by right].
  - intros q _. exists p. split; [done|]. exists r. left.
Qed.

Lemma w_calls_respect r R (k : WhCall R) s x s' : WInv s → w_at r R k s → wh_answered r R k s x s' →
  WInv s' ∧ ∀ r', r' ≠ r → wrely r' s s'.
Proof.
  intros HI Hk [s1 _ He].
  assert (∀ s1, serving_event (mkEv k x) = None → cert_event (mkEv k x) = None →
    WInv s1 ∧ (∀ r', r' ≠ r → wrely r' s s1) → WInv (wh_record r k x s1) ∧ ∀ r', r' ≠ r → wrely r' s (wh_record r k x s1)) as Hrec.
  { intros s2 H1 H2 [H3 H4]. split; [by apply w_record_Inv | intros; by apply w_record_rely, H4]. }
  destruct He as [R k s x g Ha | n R c s x y Ha _ | n s | s | b s | s | p s | s p | s Hb H0 | d s]; cbn in Hk;
    try (by apply Hrec).
  - apply Hrec; [done | done |]. by eapply w_prim_respects.
  - apply Hrec; [done | done |]. by eapply w_server_Inv.
  - apply Hrec; [done | done |]. destruct Hk as [-> Hn]. split; [by apply w_store_Inv | by split].
  - split; [|intros; by apply w_record_rely]. destruct b.
    + destruct Hk as (n & -> & Hs & Hn). by apply w_up_Inv.
    + destruct Hk as (n & -> & Hs & Hn & Hx & Ht). by apply w_down_Inv.
  - split; [by apply w_cert_Inv | intros; by apply w_record_rely].
Qed.

Lemma w_environment_respects s s' : WInv s → wh_environment s s' → WInv s' ∧ ∀ r, wrely r s s'.
Proof.
  intros HI He. destruct He as [s Hn | s | d s | n x s Hx].
  - split; [by apply w_start_Inv | intros; by apply w_start_rely].
  - split; [by apply w_go_Inv | intros; by apply w_go_rely].
  - split; [by split; apply HI | by split].
  - destruct (server_env_later _ _ (w_ok _ HI n) Hx) as [Hl Hok].
    assert (bound x = bound (wservers s n) ∧ tracked x = tracked (wservers s n) ∧ closing x = closing (wservers s n)) as (Hb & Ht & Hc)
      by (by destruct Hx).
    split.
    + split; try apply HI; intros m; rewrite wservers_set; case_decide as Hm; try apply HI; subst m; [rewrite Hb, Ht | rewrite Hc | done]; apply HI.
    + intros r. split; try done; intros m; rewrite wservers_set; case_decide as Hm; try done; subst m; rewrite ?Hb, ?Ht, ?Hc; done.
Qed.

Lemma w_init_Inv : WInv (wh_init_life d0).
Proof.
  split; cbn; try done; unfold run_started, begun, ended, signalled, installed; cbn;
    try (by intros ? ?%not_elem_of_nil); try (by intros ? ? ?%not_elem_of_nil); try (by intros ? [|]).
  by intros p [r ?%not_elem_of_nil].
Qed.

(** ** The goroutines *)

Abbreviation wens := (ensures wh_answered WInv wrely w_at).

Definition w_after r {R} (k : WhCall R) s (x : R) s2 : Prop :=
  ∃ s', s2 = wh_record r k x s' ∧
  match k in WhCall R return R → Prop with
  | WPrim k => λ x, ∃ g, go_after r k (wgo s) x g ∧ s' = set_wgo g s
  | WSrv n c => λ x, ∃ y, server_after c (wservers s n) x y ∧ s' = set_wserver n y s
  | WStoreServer n => λ _, s' = set_httpServer n s
  | WLoadServer => λ x, x = httpServer s ∧ s' = s
  | WSetServing b => λ _, s' = set_serving b s
  | WIsServing => λ x, x = serving s ∧ s' = s
  | WSetCertificate p => λ _, s' = SetCertificate p s
  | WTick => λ _, (∀ n, run_started n s → begun n s) ∧ run_started 0 s ∧ s' = s
  | _ => λ _, s' = s
  end x.

Lemma w_answered_after r R (k : WhCall R) s x s2 : wh_answered r R k s x s2 → w_after r k s x s2.
Proof.
  intros [s' _ He]. exists s'. split; [done|]. destruct He; cbn; eauto using go_answers_after, server_answers_after.
Qed.

Lemma wens_step r {R B} (k : WhCall R) (f : R → Prog WhCall B) P s : w_at r R k s →
  (∀ s1 x s2, wrely r s s1 → WInv s1 → WInv s2 → w_after r k s1 x s2 → wens r (f x) P s2) →
  wens r (pbind (call k) f) P s.
Proof. intros Hk Hf. split; [done|]. intros s1 x s2 Hr H1 Ha H2. by eapply Hf; eauto using w_answered_after. Qed.

Lemma wens_last r {R} (k : WhCall R) (P : R → WhLife → Prop) s : w_at r R k s →
  (∀ s1 x s2, wrely r s s1 → WInv s1 → WInv s2 → w_after r k s1 x s2 → P x s2) → wens r (call k) P s.
Proof. intros Hk Hf. split; [done|]. intros s1 x s2 Hr H1 Ha H2. by eapply Hf; eauto using w_answered_after. Qed.

(** *** A [Run] *)

(** It is at work, and its port is not open. *)
Definition w_idle n s : Prop :=
  begun n s ∧ ¬ ended n s ∧ bound (wservers s n) = false ∧ tracked (wservers s n) = false.

Lemma w_idle_rely n s s' : wrely (WhRunR n) s s' → w_idle n s → w_idle n s'.
Proof.
  intros H (Hb & Hn & H1 & H2). split_and!; [by apply H | by eapply not_ended_rely | |]; apply not_true_is_false; intros Hx.
  - apply (wr_bound _ _ _ H n eq_refl) in Hx. congruence.
  - apply (wr_tracked _ _ _ H n eq_refl) in Hx. congruence.
Qed.

(** A call of its server that leaves the port closed. *)
Lemma w_idle_closed n {R} (c : ServerCall R) x y s : begun n s → ¬ ended n s → bound y = false → tracked y = false →
  w_idle n (wh_record (WhRunR n) (WSrv n c) x (set_wserver n y s)).
Proof.
  intros Hb Hn H1 H2. split_and!.
  - by apply list_elem_of_further.
  - intros [He|He]%elem_of_cons; [by simplify_eq | done].
  - cbn. by rewrite fn_lookup_insert.
  - cbn. by rewrite fn_lookup_insert.
Qed.

Lemma w_busy_record n {R} (c : ServerCall R) x y s : begun n s → ¬ ended n s →
  begun n (wh_record (WhRunR n) (WSrv n c) x (set_wserver n y s)) ∧ ¬ ended n (wh_record (WhRunR n) (WSrv n c) x (set_wserver n y s)).
Proof. intros Hb Hn. split; [by apply list_elem_of_further|]. intros [He|He]%elem_of_cons; [by simplify_eq | done]. Qed.

Lemma wh_ListenAndServe_ok n s : w_idle n s → wens (WhRunR n) (wh_ListenAndServe n) (λ _, w_idle n) s.
Proof.
  intros Hi. apply wens_step; [by destruct Hi as (? & ? & _)|]. intros s1 err s2 Hr _ _ (s' & -> & y & Hy & ->).
  destruct (w_idle_rely _ _ _ Hr Hi) as (Hb & Hn & H1 & H2). destruct err as [err|].
  { apply w_idle_closed; [done | done | by rewrite Hy..]. }
  destruct (w_busy_record n Listen None y s1 Hb Hn) as [Hb1 Hn1].
  apply wens_step; [done|]. intros s3 ok s4 Hr' _ _ (s' & -> & z & Hz & ->).
  assert (begun n s3 ∧ ¬ ended n s3) as [Hb3 Hn3] by (split; [by apply Hr' | by eapply not_ended_rely]).
  destruct ok; [|destruct Hz as [|(? & ? & _)]; [done | by apply w_idle_closed]].
  destruct (w_busy_record n Track true z s3 Hb3 Hn3) as [Hb4 Hn4].
  apply wens_step; [done|]. intros s5 e s6 Hr'' _ _ (s' & -> & w & (? & ? & _) & ->).
  apply w_idle_closed; [by apply Hr'' | by eapply not_ended_rely | done | done].
Qed.

Lemma wh_Run_ok n s : run_started n s → ¬ begun n s → ¬ ended n s → wens (WhRunR n) (wh_Run n) (λ _ _, True) s.
Proof.
  intros Hs Hb Hn. apply wens_step; [done|]. intros s1 [] s2 Hr _ _ (s' & -> & ->).
  apply wens_step.
  { exists n. split_and!; [done | by apply Hr |]. intros [He|He]%elem_of_cons; [by simplify_eq | by eapply not_ended_rely]. }
  intros s3 [] s4 Hr' HI _ (s' & -> & ->).
  assert (¬ begun n s3 ∧ ¬ ended n s3) as [Hb3 Hn3].
  { split; intros Hx; apply (wr_mine _ _ _ Hr') in Hx; apply elem_of_cons in Hx as [He|He]; try by simplify_eq.
    - by apply Hb, Hr.
    - by apply Hn, Hr. }
  eapply (ensures_bind _ _ _ _ _ _ _ (λ _, w_idle n)); [apply wh_ListenAndServe_ok; split_and!|].
  - left.
  - intros [He|He]%elem_of_cons; [by simplify_eq | done].
  - apply not_true_is_false. intros Hx. by apply Hb3, (w_port _ HI n); left.
  - apply not_true_is_false. intros Hx. by apply Hb3, (w_port _ HI n); right.
  - intros _ s5 (? & ? & ? & ?). apply wens_last; [by exists n | done].
Qed.

(** *** [Stop] *)

(** Whoever stops a server knows why it may. *)
Lemma wh_Stop_ok r K s : (∀ s s', wrely r s s' → K s → K s') → (∀ s R (k : WhCall R) x, K s → K (wh_record r k x s)) →
  (∀ s n y, K s → K (set_wserver n y s)) →
  (∀ s n, WInv s → K s → httpServer s = Some n → signalled s ∨ ended n s) →
  K s → wens r wh_Stop (λ _, K) s.
Proof.
  intros HK Hrec Hsrv Hwhy Ks. apply wens_step; [done|]. intros s1 srv s2 Hr HI _ (s' & -> & -> & ->).
  assert (K s1) as K1 by (by eapply HK). destruct (httpServer s1) as [n|] eqn:Hn; [|by apply Hrec].
  apply wens_step.
  { destruct (Hwhy _ _ HI K1 Hn); [left | right]; by apply list_elem_of_further. }
  intros s3 [] s4 Hr' _ _ (s' & -> & y & _ & ->).
  assert (K s3) as K3 by (eapply HK; [exact Hr'|]; by apply Hrec).
  apply wens_last; [done|]. intros s5 ok s6 Hr'' _ _ (s' & -> & z & _ & ->).
  apply Hrec, Hsrv. eapply HK; [exact Hr''|]. by apply Hrec, Hsrv.
Qed.

(** *** The renewals *)

(** Every [Run] that was started has begun, and the next one has not been started. *)
Definition w_settled n s : Prop :=
  run_started 0 s ∧ (∀ m, (n ≤ m)%nat → ¬ run_started (S m) s) ∧ ∀ m, run_started m s → begun m s.
Definition w_down n s : Prop := w_settled n s ∧ all_ended s.
Definition w_fresh n s : Prop := ∀ m, (n ≤ m)%nat → ¬ run_started (S m) s.

Lemma w_fresh_rely n s s' : wrely WhSchedR s s' → w_fresh n s → w_fresh n s'.
Proof. intros H Hf m Hm Hs. apply (Hf m Hm). by apply (wr_starter _ _ _ H). Qed.

Lemma w_settled_rely n s s' : wrely WhSchedR s s' → w_settled n s → w_settled n s'.
Proof.
  intros H (H0 & Hf & Hb). split_and!; [by apply H | by eapply w_fresh_rely |].
  intros m Hm. apply H, Hb. destruct m as [|m]; [done|]. by apply (wr_starter _ _ _ H).
Qed.

Lemma w_down_rely n s s' : wrely WhSchedR s s' → w_down n s → w_down n s'.
Proof. intros H [Hs Ha]. split; [by eapply w_settled_rely | eapply all_ended_rely; [done | apply Hs | done]]. Qed.

Lemma w_settled_record n {R} (k : WhCall R) x s : w_settled n s → w_settled n (wh_record WhSchedR k x s).
Proof. intros (H0 & Hf & Hb). split_and!; [done | done |]. intros m Hm. by apply list_elem_of_further, Hb. Qed.

Lemma w_down_record n {R} (k : WhCall R) x s : w_down n s → w_down n (wh_record WhSchedR k x s).
Proof. intros [Hs Ha]. split; [by apply w_settled_record|]. intros m Hm. by apply list_elem_of_further, Ha. Qed.

Lemma wh_restart_ok n s : w_down n s → wens WhSchedR (wh_restart (S n)) (λ _, w_fresh (S n)) s.
Proof.
  intros Hd. eapply (ensures_bind _ _ _ _ _ _ _ (λ _, w_down n)).
  - apply wh_Stop_ok; [apply w_down_rely | intros; by apply w_down_record | done | | done].
    intros s1 m HI [_ Ha] Hm. right. apply Ha. exact (w_server _ HI m Hm).
  - intros _ s1 H1. apply wens_step; [done|]. intros s2 [] s3 Hr _ _ (s' & -> & ->).
    apply (w_down_rely _ _ _ Hr) in H1.
    assert (w_down n (wh_record WhSchedR (WSleep serviceRestartDelay) tt s2)) as [(H0 & Hf & Hb) Ha] by (by apply w_down_record).
    apply wens_last; [split_and!; [done | by apply Hf | done | done]|].
    intros s4 [] s5 Hr' _ _ (s' & -> & g & -> & ->) m Hm [[= ->]|Hs]%elem_of_cons; [lia|].
    apply (Hf m); [lia|]. by apply (wr_starter _ _ _ Hr').
Qed.

Lemma wh_renew_ok n s : w_settled n s → wens WhSchedR (wh_renew (S n)) (λ _, w_fresh (S n)) s.
Proof.
  intros Hs. apply wens_step; [done|]. intros s1 p s2 Hr _ _ (s' & -> & ->).
  apply (w_settled_rely _ _ _ Hr) in Hs. apply (w_settled_record _ WRenew p) in Hs.
  eapply (ensures_bind _ _ _ _ _ _ _ (λ _, w_settled n)).
  { destruct p as [p|]; [|done]. apply wens_last; [done|]. intros s3 [] s4 Hr' _ _ (s' & -> & ->).
    apply (w_settled_record n (WSetCertificate p) tt (SetCertificate p s3)). by apply (w_settled_rely _ _ _ Hr'). }
  intros [] s3 H3. apply wens_step; [done|]. intros s4 up s5 Hr' HI _ (s' & -> & -> & ->).
  apply (w_settled_rely _ _ _ Hr') in H3. destruct (serving s4) eqn:Hup.
  - intros m Hm. by apply H3; lia.
  - apply wh_restart_ok, w_down_record. split; [done|]. intros m Hm. apply (w_quiet _ HI m Hup). by apply H3.
Qed.

Lemma wh_schedule_ok m n s : w_fresh n s → wens WhSchedR (wh_schedule m (S n)) (λ _ _, True) s.
Proof.
  revert n s. induction m as [|m IH]; intros n s Hs; [done|].
  apply wens_step; [done|]. intros s1 [] s2 Hr _ _ (s' & -> & Hb & H0 & ->).
  eapply (ensures_bind _ _ _ _ _ _ _ (λ _, w_fresh (S n))); [apply wh_renew_ok, w_settled_record|].
  - split_and!; [done | by eapply w_fresh_rely | done].
  - intros _ s3 H3. by apply IH.
Qed.

(** *** [main] *)

Lemma wh_main_ok s : (∀ q, wh_starter q = Some WhMainR → q ∉ started (wgo s)) → wens WhMainR wh_main (λ _ _, True) s.
Proof.
  intros Hq. apply wens_step; [done|]. intros s1 p s2 Hr _ _ (s' & -> & ->).
  set (fresh := λ s : WhLife, ∀ q, wh_starter q = Some WhMainR → q ∉ started (wgo s)).
  assert (∀ s s', wrely WhMainR s s' → fresh s → fresh s') as Hfresh.
  { intros s3 s4 H Hf q Hs Hi. apply (Hf q Hs). by apply (wr_starter _ _ _ H). }
  apply (Hfresh _ _ Hr) in Hq. eapply (ensures_bind _ _ _ _ _ _ _ (λ _, fresh)).
  { destruct p as [p|]; [|done]. apply wens_last; [done|]. intros s3 [] s4 Hr' _ _ (s' & -> & ->).
    by apply (Hfresh (wh_record WhMainR WRenew (Some p) s1) s3). }
  intros [] s3 H3. apply wens_step; [split_and!; [done | by apply H3 | done]|].
  intros s4 [] s5 Hr' _ _ (s' & -> & g & -> & ->). apply (Hfresh _ _ Hr') in H3.
  apply wens_step; [split_and!; [done | | done]|].
  { intros [[=]|Hi]%elem_of_cons. by apply (H3 (WhRunR 0)). }
  intros s6 [] s7 _ _ _ _. apply wens_step; [done|]. intros s8 i s9 _ _ _ (s' & -> & g' & Hg & ->).
  assert (signalled (wh_record WhMainR (WPrim (Select [Recv WhSig] false)) i (set_wgo g' s8))) as Hsig.
  { destruct i as [[|i]|]; [left | by destruct Hg as (gd & ? & _) | by destruct Hg]. }
  eapply (ensures_bind _ _ _ _ _ _ _ (λ _, signalled)).
  - apply wh_Stop_ok; [intros s10 s11 H; apply H | intros; by apply signalled_record | done | intros; by left | done].
  - intros _ s10 _. apply wens_step; [done|]. intros s11 [] s12 _ _ _ _. by apply wens_last.
Qed.

Lemma wh_body_ok r : wens r (wh_body rounds r) (λ _ _, True) (wh_init_life d0).
Proof.
  apply wens_step; [done|]. intros s1 [] s2 Hr _ _ (s' & -> & g & [Hs ->] & ->).
  assert (∀ q, wh_starter q = Some r → q ∉ started (wgo s1)) as Hq.
  { intros q Hq Hi. apply (wr_starter _ _ _ Hr) in Hi; [|done]. by apply not_elem_of_nil in Hi. }
  assert (∀ e, (r, e) ∉ whist s1) as Hno.
  { intros e He. apply (wr_mine _ _ _ Hr) in He. by apply not_elem_of_nil in He. }
  destruct r as [| |n].
  - by apply wh_main_ok.
  - apply wh_schedule_ok. intros m _. by apply Hq.
  - apply wh_Run_ok; [done | |]; (intros [He|He]%elem_of_cons; [by simplify_eq | by apply Hno in He]).
Qed.

Definition wh_known : WhConfig → Prop := known wh_answered (wh_routines rounds) WInv wrely w_at (λ _ _ _, True).

Lemma wh_routines_NoDup : NoDup (wh_routines rounds).
Proof.
  constructor; [|constructor].
  - intros [?|(i & ? & _)%list_elem_of_fmap]%elem_of_cons; done.
  - by intros (i & ? & _)%list_elem_of_fmap.
  - apply NoDup_fmap_2; [by intros ? ? [=] | apply NoDup_seq].
Qed.

Lemma wh_known_runs x : wh_runs rounds (wh_init rounds d0) x → wh_known x.
Proof.
  assert (wh_known (wh_init rounds d0)) as H0.
  { split; [apply w_init_Inv|]. intros i r p Hi Hp. change ((wh_body rounds <$> wh_routines rounds) !! i = Some p) in Hp.
    rewrite list_lookup_fmap, Hi in Hp. injection Hp as <-. apply wh_body_ok. }
  apply (known_runs _ _ _ _ _ _); try done.
  - intros. by eapply w_at_rely.
  - intros. by eapply w_calls_respect.
  - intros. by apply w_environment_respects.
  - apply wh_routines_NoDup.
Qed.

(** C34: a renewal never interrupts the admission endpoint.  A server is shut down only
    when its [Run] has ended, or after the signal that ends the process; no two
    servers have their port open, and the flag that the renewals look at is set exactly
    while a [Run] has it.  Once a certificate was installed, every handshake gets one
    that was installed; and the readiness probe says ok exactly if a handshake would
    succeed. *)
Theorem renewal_keeps_serving ts s :
  wh_runs rounds (wh_init rounds d0) (ts, s) →
  (∀ n, closing (wservers s n) = true → signalled s ∨ ended n s) ∧
  (∀ n m, bound (wservers s n) = true → bound (wservers s m) = true → n = m) ∧
  (serving s = true ↔ ∃ n, begun n s ∧ ¬ ended n s) ∧
  (∀ p, installed p s → ∃ q, GetCertificate s = Ok q ∧ installed q s) ∧
  (handleReadyz s = (200, "ok") ↔ is_ok (GetCertificate s) = true).
Proof.
  intros Hr. destruct (wh_known_runs _ Hr) as [HI _]. cbn in HI. split_and!.
  - apply HI.
  - intros n m Hn Hm. destruct (w_port _ HI n (or_introl Hn)) as [Bn En]. destruct (w_port _ HI m (or_introl Hm)) as [Bm Em].
    destruct (w_unique _ HI n m) as [?|[?|?]]; [by apply HI.. | done | done | done].
  - split; [apply HI|]. intros (n & Hb & Hn). destruct (serving s) eqn:Hs; [done|]. destruct Hn. by apply HI.
  - intros p Hp. destruct (w_cert _ HI p Hp) as (q & Hq & Hi). exists q. unfold GetCertificate. by rewrite Hq.
  - unfold handleReadyz, servingMaterialReady, GetCertificate. destruct (servingCert s); [done|].
    by destruct (disk s).
Qed.
End Life.

(** * At concrete inputs *)

(** [hint] chooses among the answers of a call; the certificate of a renewal is
    "new". *)
Definition wh_exec (r : WhRoutine) (hint : nat) {R} (k : WhCall R) (s : WhLife) : option (R * WhLife) :=
  match k in WhCall R return option (R * WhLife) with
  | WPrim k => match exec_prim r hint k (wgo s) with Some (x, g) => Some (x, set_wgo g s) | None => None end
  | WSrv n k => match server_exec hint k (wservers s n) with Some (x, y) => Some (x, set_wserver n y s) | None => None end
  | WStoreServer n => Some (tt, set_httpServer n s)
  | WLoadServer => Some (httpServer s, s)
  | WSetServing b => Some (tt, set_serving b s)
  | WIsServing => Some (serving s, s)
  | WSetCertificate p => Some (tt, SetCertificate p s)
  | WRenew => Some (match hint with O => Some "new" | _ => None end, s)
  | WTick => Some (tt, s)
  | WSleep _ => Some (tt, s)
  end.

(** Two servers are in use, at most one of them on the port; and a renewal is due only
    when every [Run] that was started has begun. *)
Definition has_begun (h : list (WhRoutine * Ev WhCall)) (q : WhRoutine) : bool :=
  match q with
  | WhRunR n => existsb (λ e, bool_decide (e.1 = WhRunR n) && bool_decide (serving_event e.2 = Some true)) h
  | _ => true
  end.

Definition wh_check {R} (k : WhCall R) (s : WhLife) : bool :=
  match k with
  | WSrv n c => (n <? 2)%nat &&
      match c with Listen => negb (bound (wservers s 0)) && negb (bound (wservers s 1)) | _ => true end
  | WTick => bool_decide (WhRunR 0 ∈ started (wgo s)) && forallb (has_begun (whist s)) (started (wgo s))
  | _ => true
  end.

Definition wh_spare s : Prop := ∀ m, (2 ≤ m)%nat → bound (wservers s m) = false.

Lemma has_begun_true n s : has_begun (whist s) (WhRunR n) = true → begun n s.
Proof.
  intros ([q e] & Hi & [Hq He]%andb_true_iff)%existsb_exists. apply bool_decide_eq_true in Hq, He. cbn in Hq, He. subst q.
  destruct e as [R k x]. destruct k; try done. cbn in He. injection He as ->. destruct x. by apply list_elem_of_In.
Qed.

Lemma wh_exec_sound r hint R (k : WhCall R) s x s' : wh_spare s → wh_check k s = true → wh_exec r hint k s = Some (x, s') →
  wh_effect r R k s x s' ∧ wh_spare s'.
Proof.
  intros Hs Hk. destruct k as [R k|n R c|n| |b| |p| | |d]; cbn -[server_exec Nat.ltb] in *; intros He.
  - destruct (exec_prim r hint k (wgo s)) as [[y g]|] eqn:Hp; simplify_eq. split; [|done]. constructor. by eapply exec_prim_sound.
  - destruct (server_exec hint c (wservers s n)) as [[y z]|] eqn:Hp; simplify_eq.
    apply andb_true_iff in Hk as [Hn%Nat.ltb_lt Hc]. split.
    + constructor; [by eapply server_exec_sound|]. destruct c; try done. intros _ m.
      apply andb_true_iff in Hc as [H0%negb_true_iff H1%negb_true_iff]. destruct m as [|[|m]]; [done | done | apply Hs; lia].
    + intros m Hm. rewrite wservers_set, decide_False by lia. by apply Hs.
  - simplify_eq. by split; [constructor|].
  - simplify_eq. by split; [constructor|].
  - simplify_eq. by split; [constructor|].
  - simplify_eq. by split; [constructor|].
  - simplify_eq. by split; [constructor|].
  - simplify_eq. by split; [constructor|].
  - simplify_eq. apply andb_true_iff in Hk as [H0%bool_decide_eq_true Hb]. split; [|done]. constructor; [|done].
    intros n Hn. apply has_begun_true. rewrite forallb_forall in Hb. by apply Hb, list_elem_of_In.
  - simplify_eq. by split; [constructor|].
Qed.

Inductive WhChoice := WTurn (i hint : nat) | WBoot | WSignal.

Definition wh_choose (x : WhConfig) (ch : WhChoice) : option WhConfig :=
  let '(ts, s) := x in
  match ch with
  | WBoot => if bool_decide (WhMainR ∈ started (wgo s)) then None else Some (ts, set_wgo (start WhMainR (wgo s)) s)
  | WSignal => Some (ts, set_wgo (set_chan WhSig (mkChan 1 false) (wgo s)) s)
  | WTurn i hint => if exited (wgo s) then None else
      match wh_routines 1 !! i, ts !! i with
      | Some r, Some (Do k kont) => if wh_check k s then match wh_exec r hint k s with
          | Some (y, s') => Some (<[i := kont y]> ts, wh_record r k y s')
          | None => None
          end else None
      | _, _ => None
      end
  end.

Lemma wh_choose_turns x ch y : wh_spare x.2 → wh_choose x ch = Some y →
  turns wh_answered wh_environment (wh_routines 1) x y ∧ wh_spare y.2.
Proof.
  destruct x as [ts s], ch; cbn -[wh_routines wh_exec wh_check]; intros Hs He.
  - destruct (exited (wgo s)) eqn:Hx; [done|].
    destruct (wh_routines 1 !! i) as [r|] eqn:Hi; [|done]. destruct (ts !! i) as [[|R k kont]|] eqn:Hp; [done | | done].
    destruct (wh_check k s) eqn:Hc; [|done]. destruct (wh_exec r hint k s) as [[a s']|] eqn:Hk; simplify_eq.
    destruct (wh_exec_sound _ _ _ _ _ _ _ Hs Hc Hk) as [Ha Hs']. split; [|done].
    eapply turns_act, acts_call; [done | done |]. by constructor.
  - case_bool_decide; simplify_eq. split; [|done]. apply turns_env. by constructor.
  - simplify_eq. split; [|done]. apply turns_env. constructor.
Qed.

Fixpoint wh_play (x : WhConfig) (chs : list WhChoice) : option WhConfig :=
  match chs with [] => Some x | ch :: chs => match wh_choose x ch with Some y => wh_play y chs | None => None end end.

Lemma wh_play_runs x chs y : wh_spare x.2 → wh_play x chs = Some y → wh_runs 1 x y.
Proof.
  revert x. induction chs as [|ch chs IH]; intros x Hs; cbn -[wh_choose]; [by intros [= ->]; apply rtc_refl|].
  destruct (wh_choose x ch) as [z|] eqn:Hc; [|done]. intros Hp. destruct (wh_choose_turns _ _ _ Hs Hc) as [Ht Hz].
  eapply rtc_l; [exact Ht | by apply IH].
Qed.

Definition no_files : res string := Err (errorf "open tls.crt: no such file or directory").
Definition wh_demo (chs : list WhChoice) : WhConfig := default (wh_init 1 no_files) (wh_play (wh_init 1 no_files) chs).

Lemma wh_demo_runs chs : is_Some (wh_play (wh_init 1 no_files) chs) → wh_runs 1 (wh_init 1 no_files) ((wh_demo chs).1, (wh_demo chs).2).
Proof. intros [y Hy]. unfold wh_demo. rewrite Hy. cbn. destruct y. by apply (wh_play_runs _ chs). Qed.

(** The certificate is missing at the start, and the first [Run] gets no listener. *)
Definition wh_broken : list WhChoice :=
  WBoot :: [WTurn 0 0; WTurn 0 1; WTurn 0 0; WTurn 0 0] ++ [WTurn 2 0; WTurn 2 0; WTurn 2 0; WTurn 2 1; WTurn 2 0].
(** The renewal gets one, finds nobody serving, and starts the second. *)
Definition wh_repaired : list WhChoice := wh_broken ++ replicate 10 (WTurn 1 0) ++ replicate 5 (WTurn 3 0).

Lemma renewal_keeps_serving_witness :
  (let s := (wh_demo wh_broken).2 in handleReadyz s = (503, "no serving certificate") ∧ ended 0 s) ∧
  (let s := (wh_demo wh_repaired).2 in
     (closing (wservers s 0) = true ∧ (signalled s ∨ ended 0 s)) ∧ bound (wservers s 1) = true ∧ serving s = true ∧
     handleReadyz s = (200, "ok") ∧ ∃ q, GetCertificate s = Ok q ∧ installed q s).
Proof.
  split; cbv zeta; [split; [by vm_compute | vm_compute; repeat (first [left | right])]|].
  assert (wh_runs 1 (wh_init 1 no_files) ((wh_demo wh_repaired).1, (wh_demo wh_repaired).2)) as Hr
    by (apply wh_demo_runs; vm_compute; by eexists).
  destruct (renewal_keeps_serving 1 no_files _ _ Hr) as (Hc & _ & _ & Hp & _).
  split_and!; [by vm_compute | apply (Hc 0%nat); by vm_compute | by vm_compute | by vm_compute | by vm_compute |].
  apply (Hp "new"). exists WhSchedR. vm_compute. repeat (first [left | right]).
Defined.
