(* ===== verification/WebhookAdmission.v ===== *)
(** The registration of the admission webhook, [pkg/webhook/admission]: the
    validating configuration it creates, or brings up to date, at its start. *)

From S2P Require Import Prelude Prog GoStd ApiTypes.

(** ** Data

    The fields that the program sets or looks at; an update sends the others back
    as they were read. *)

Record ServiceReference := mkServiceRef { sr_Namespace : string; sr_Name : string; sr_Path : option string; sr_Port : option Z }.
Record WebhookClientConfig := mkClientConfig { wc_Service : option ServiceReference; wc_CABundle : string }.
Record RuleWithOperations := mkRule {
  ru_Operations : list string; ru_APIGroups : list string; ru_APIVersions : list string;
  ru_Resources : list string; ru_Scope : option string
}.
Record ValidatingWebhook := mkWebhook {
  vw_Name : string; vw_ClientConfig : WebhookClientConfig; vw_Rules : list RuleWithOperations;
  vw_FailurePolicy : option string; vw_NamespaceSelector : option (gomap string); vw_SideEffects : option string;
  vw_TimeoutSeconds : option Z; vw_AdmissionReviewVersions : list string
}.
Record WebhookConfiguration := mkVwc { vwc_Name : string; vwc_Webhooks : list ValidatingWebhook }.

Inductive AdmCall : Type → Type :=
| VwcGet (name : string) : AdmCall (res WebhookConfiguration)
| VwcCreate (v : WebhookConfiguration) : AdmCall (res unit)
| VwcUpdate (v : WebhookConfiguration) : AdmCall (res unit)
| CaConfigMapGet (ns name : string) : AdmCall (res (gomap string))     (* its data *)
| AdmWait (delay : time) : AdmCall (res unit).                         (* or the context's error *)

Record AdmHandler := mkAdmHandler { ah_Name : string; ah_Namespace : string; ah_Config : string }.

Definition admissionTimeoutSeconds : Z := 10.
Definition addWebhookConfigMaxRetries : Z := 5.
Definition addWebhookConfigRetryBaseDelay : time := 10 ^ 9.
Definition addWebhookConfigRetryMaxDelay : time := 16 * 10 ^ 9.

Definition set_ClientConfig (w : ValidatingWebhook) (c : WebhookClientConfig) : ValidatingWebhook :=
  mkWebhook (vw_Name w) c (vw_Rules w) (vw_FailurePolicy w) (vw_NamespaceSelector w) (vw_SideEffects w)
    (vw_TimeoutSeconds w) (vw_AdmissionReviewVersions w).
Definition set_FailurePolicy (w : ValidatingWebhook) (p : option string) : ValidatingWebhook :=
  mkWebhook (vw_Name w) (vw_ClientConfig w) (vw_Rules w) p (vw_NamespaceSelector w) (vw_SideEffects w)
    (vw_TimeoutSeconds w) (vw_AdmissionReviewVersions w).
Definition set_TimeoutSeconds (w : ValidatingWebhook) (t : option Z) : ValidatingWebhook :=
  mkWebhook (vw_Name w) (vw_ClientConfig w) (vw_Rules w) (vw_FailurePolicy w) (vw_NamespaceSelector w) (vw_SideEffects w)
    t (vw_AdmissionReviewVersions w).

Definition setAdmissionPolicy (w : ValidatingWebhook) : ValidatingWebhook :=
  set_TimeoutSeconds (set_FailurePolicy w (Some "Fail")) (Some admissionTimeoutSeconds).

(** Both validating webhooks are made alike, for a resource, its scope and the path
    that validates it.  The selector of the namespaces is there and empty: the
    labels the code collects for it are not used. *)
Definition make_webhook (h : AdmHandler) (prefix resource scope path cert : string) : ValidatingWebhook :=
  setAdmissionPolicy (mkWebhook
    (prefix +:+ "-" +:+ ah_Name h +:+ "." +:+ ah_Namespace h +:+ ".svc")
    (mkClientConfig (Some (mkServiceRef (ah_Namespace h) (ah_Name h) (Some path) (Some 8443))) cert)
    [mkRule ["CREATE"; "UPDATE"] ["rancher.k8s.binbash.org"] ["v1beta2"; "v1beta1"] [resource] (Some scope)]
    None (Some None) (Some "None") None ["v1"]).

Section Admission.
Context (h : AdmHandler).
#[local] Open Scope prog_scope.

(** ** The CA bundle *)

Definition getCABundleConfigMap : Prog AdmCall (res (gomap string)) :=
  try! c := call (CaConfigMapGet "kube-system" "kube-root-ca.crt") else err =>
    Ret (Err (errorf ("failed to get kube-root-ca.crt configmap in kube-system: " +:+ err_msg err))) in
  Ret (Ok c).

Definition ca_bundle (data : gomap string) : res string :=
  match mlookup data "ca.crt" with
  | None => Err (errorf "ca.crt not found in kube-root-ca.crt configmap")
  | Some cert => Ok cert
  end.

Definition getCaBundleFromCABundleConfigMap : Prog AdmCall (res string) :=
  try! c := getCABundleConfigMap else err => Ret (Err err) in Ret (ca_bundle c).

(** ** The webhooks *)

Definition getRancherFloatingIPWebhook : Prog AdmCall (res ValidatingWebhook) :=
  try! cert := getCaBundleFromCABundleConfigMap else err => Ret (Err err) in
  Ret (Ok (make_webhook h "floatingip" "floatingips" "Namespaced" "/validate-floatingip" cert)).

Definition getRancherFloatingIPPoolWebhook : Prog AdmCall (res ValidatingWebhook) :=
  try! cert := getCaBundleFromCABundleConfigMap else err => Ret (Err err) in
  Ret (Ok (make_webhook h "floatingippool" "floatingippools" "Cluster" "/validate-floatingippool" cert)).

Definition createValidatingWebhookConfiguration : Prog AdmCall (res unit) :=
  try! fip := getRancherFloatingIPWebhook else err => Ret (Err err) in
  try! pool := getRancherFloatingIPPoolWebhook else err => Ret (Err err) in
  call (VwcCreate (mkVwc (ah_Config h) [fip; pool])).

(** ** An existing configuration

    Each pass over the webhooks gives them back with whether one was changed. *)

Definition fill_bundle (cert : string) (w : ValidatingWebhook) : ValidatingWebhook * bool :=
  if bool_decide (wc_CABundle (vw_ClientConfig w) = "")
  then (set_ClientConfig w (mkClientConfig (wc_Service (vw_ClientConfig w)) cert), true) else (w, false).

Definition pin_policy (w : ValidatingWebhook) : ValidatingWebhook * bool :=
  let '(w, changed) :=
    if bool_decide (vw_FailurePolicy w = Some "Fail") then (w, false) else (set_FailurePolicy w (Some "Fail"), true) in
  if bool_decide (vw_TimeoutSeconds w = Some admissionTimeoutSeconds) then (w, changed)
  else (set_TimeoutSeconds w (Some admissionTimeoutSeconds), true).

Definition pass (f : ValidatingWebhook → ValidatingWebhook * bool) (ws : list ValidatingWebhook)
    : list ValidatingWebhook * bool :=
  ((λ w, (f w).1) <$> ws, existsb (λ w, (f w).2) ws).

Definition sync_webhooks (cert : res string) (ws : list ValidatingWebhook) : list ValidatingWebhook * bool :=
  let '(ws, filled) := match cert with Err _ => (ws, false) | Ok cert => pass (fill_bundle cert) ws end in
  let '(ws, pinned) := pass pin_policy ws in
  (ws, filled || pinned).

Definition syncAdmissionPolicy (existing : WebhookConfiguration) : Prog AdmCall (res unit) :=
  let! cert := getCaBundleFromCABundleConfigMap in
  let '(ws, changed) := sync_webhooks cert (vwc_Webhooks existing) in
  if negb changed then Ret (Ok tt)
  else
    try! _u := call (VwcUpdate (mkVwc (vwc_Name existing) ws)) else err =>
      Ret (Err (errorf ("error syncing validating webhook configuration: " +:+ err_msg err))) in
    Ret (Ok tt).

Definition AddValidatingWebhookConfiguration : Prog AdmCall (res unit) :=
  try! existing := call (VwcGet (ah_Config h)) else err =>
    if IsNotFound err then createValidatingWebhookConfiguration
    else Ret (Err (errorf ("error checking validating webhook configuration: " +:+ err_msg err))) in
  syncAdmissionPolicy existing.

(** ** Retrying

    [fuel] is what is left of [maxRetries] after this attempt. *)
Fixpoint retry_from (fuel : nat) (attempt : Z) (delay maxDelay : time) (fn : Prog AdmCall (res unit))
    : Prog AdmCall (res unit) :=
  try! _ok := fn else err =>
    match fuel with
    | O => Ret (Err (errorf ("giving up after " +:+ itoa attempt +:+ " attempts: " +:+ err_msg err)))
    | S fuel =>
        try! _w := call (AdmWait delay) else ctxErr => Ret (Err ctxErr) in
        retry_from fuel (attempt + 1) (if delay <? maxDelay then wrap64 (delay * 2) else delay) maxDelay fn
    end in
  Ret (Ok tt).

Definition retryWithBackoff (maxRetries : Z) (baseDelay maxDelay : time) (fn : Prog AdmCall (res unit))
    : Prog AdmCall (res unit) :=
  retry_from (Z.to_nat (maxRetries - 1)) 1 baseDelay maxDelay fn.

(** [Init] panics on the error. *)
Definition adm_Init : Prog AdmCall (res unit) :=
  retryWithBackoff addWebhookConfigMaxRetries addWebhookConfigRetryBaseDelay addWebhookConfigRetryMaxDelay
    AddValidatingWebhookConfiguration.
End Admission.

(** * What is registered *)

(** The registration of the admission webhook: it fails closed, keeps the CA
    bundles it finds, and ends. *)

Section Admission.
Context (h : AdmHandler).

Notation config_read := (VwcGet (ah_Config h)).
Notation ca_read := (CaConfigMapGet "kube-system" "kube-root-ca.crt").

Definition read_ca (ca : string) (H : History AdmCall) : Prop :=
  ∃ data, mkEv ca_read (Ok data) ∈ H ∧ mlookup data "ca.crt" = Some ca.

(** Requests are denied when the webhook does not answer in time. *)
Definition fails_closed (w : ValidatingWebhook) : Prop :=
  vw_FailurePolicy w = Some "Fail" ∧ vw_TimeoutSeconds w = Some admissionTimeoutSeconds.

(** A webhook and what it is brought up to: only the policy changes, and the
    bundle if there was none. *)
Definition synced (H : History AdmCall) (w w' : ValidatingWebhook) : Prop :=
  ∃ ca, (ca = wc_CABundle (vw_ClientConfig w) ∨ (wc_CABundle (vw_ClientConfig w) = "" ∧ read_ca ca H)) ∧
    w' = setAdmissionPolicy (set_ClientConfig w (mkClientConfig (wc_Service (vw_ClientConfig w)) ca)).

Definition fresh_config (ca1 ca2 : string) : WebhookConfiguration :=
  mkVwc (ah_Config h)
    [make_webhook h "floatingip" "floatingips" "Namespaced" "/validate-floatingip" ca1;
     make_webhook h "floatingippool" "floatingippools" "Cluster" "/validate-floatingippool" ca2].

(** How often the configuration was read: once in an attempt. *)
Definition is_get (ev : Ev AdmCall) : bool := match ev_c ev with VwcGet _ => true | _ => false end.
Definition gets (H : History AdmCall) : nat := length (List.filter is_get H).

(** How often it was waited. *)
Definition is_wait (ev : Ev AdmCall) : bool := match ev_c ev with AdmWait _ => true | _ => false end.
Definition waits (H : History AdmCall) : nat := length (List.filter is_wait H).

Lemma gets_cons ev H : gets (ev :: H) = if is_get ev then S (gets H) else gets H.
Proof. unfold gets. simpl. by destruct (is_get ev). Qed.
Lemma waits_cons ev H : waits (ev :: H) = if is_wait ev then S (waits H) else waits H.
Proof. unfold waits. simpl. by destruct (is_wait ev). Qed.

(** Neither was done since. *)
Definition same_pace (H H' : History AdmCall) : Prop := gets H' = gets H ∧ waits H' = waits H.

#[local] Instance same_pace_preorder : PreOrder same_pace.
Proof. split; [by split|]. intros H1 H2 H3 [] []. split; congruence. Qed.

Lemma same_pace_cons ev H H' : is_get ev = false → is_wait ev = false → same_pace H H' → same_pace H (ev :: H').
Proof. intros Hg Hw [? ?]. split; by rewrite ?gets_cons, ?waits_cons, ?Hg, ?Hw. Qed.

Definition admission_guard (H : History AdmCall) (R : Type) (c : AdmCall R) : Prop :=
  match c with
  | VwcGet n => n = ah_Config h ∧ (gets H < 5)%nat ∧ waits H = gets H
  | CaConfigMapGet ns n => ns = "kube-system" ∧ n = "kube-root-ca.crt"
  | VwcCreate v => asked config_read H NotFoundErr ∧ ∃ ca1 ca2, read_ca ca1 H ∧ read_ca ca2 H ∧ v = fresh_config ca1 ca2
  | VwcUpdate v => ∃ old, mkEv config_read (Ok old) ∈ H ∧ vwc_Name v = vwc_Name old ∧
      Forall2 (synced H) (vwc_Webhooks old) (vwc_Webhooks v)
  | AdmWait d => (waits H < 4)%nat ∧ gets H = S (waits H) ∧ d = 2 ^ Z.of_nat (waits H) * 10 ^ 9
  end.

Notation G := admission_guard.

(** The configuration that is there: created, updated, or found so. *)
Definition in_force (v : WebhookConfiguration) (H : History AdmCall) : Prop :=
  mkEv (VwcCreate v) (Ok tt) ∈ H ∨ mkEv (VwcUpdate v) (Ok tt) ∈ H ∨ mkEv config_read (Ok v) ∈ H.

Definition registered (H : History AdmCall) : Prop :=
  ∃ v, in_force v H ∧ Forall fails_closed (vwc_Webhooks v).

Lemma registered_extends H H' : extends H H' → registered H → registered H'.
Proof.
  intros Hh (v & Hv & ?). exists v. split; [|done].
  destruct Hv as [? | [? | ?]]; [left | right; left | right; right]; by eapply elem_extends.
Qed.

(** ** The passes over the webhooks *)

Lemma policy_idem w : fails_closed w → setAdmissionPolicy w = w.
Proof. intros [Hf Ht]. destruct w; simpl in *. by subst. Qed.

Lemma pin_policy_spec w : (pin_policy w).1 = setAdmissionPolicy w ∧ ((pin_policy w).2 = false → fails_closed w).
Proof.
  destruct w as [n c r f ns se t v]. unfold pin_policy, fails_closed, setAdmissionPolicy. cbn.
  repeat case_bool_decide; cbn in *; subst; done.
Qed.

Lemma ClientConfig_eta c : mkClientConfig (wc_Service c) (wc_CABundle c) = c.
Proof. by destruct c. Qed.

Lemma set_ClientConfig_eta w : set_ClientConfig w (vw_ClientConfig w) = w.
Proof. by destruct w. Qed.

Lemma synced_refl H w : synced H w (setAdmissionPolicy w).
Proof. exists (wc_CABundle (vw_ClientConfig w)). split; [by left|]. by rewrite ClientConfig_eta, set_ClientConfig_eta. Qed.

Lemma fill_bundle_synced ca H w : read_ca ca H → synced H w (setAdmissionPolicy (fill_bundle ca w).1).
Proof.
  intros Hca. unfold fill_bundle. case_bool_decide as Hb; [|apply synced_refl]. exists ca. split; [by right | done].
Qed.

Lemma existsb_false {A} (f : A → bool) l : existsb f l = false ↔ Forall (λ x, f x = false) l.
Proof. induction l as [|a l IH]; simpl; [done|]. by rewrite orb_false_iff, Forall_cons, IH. Qed.

(** What a synchronisation gives, and when it changes nothing. *)
Lemma sync_webhooks_spec cert ws H :
  (∀ ca, cert = Ok ca → read_ca ca H) →
  let '(ws', changed) := sync_webhooks cert ws in
  Forall2 (synced H) ws ws' ∧ Forall fails_closed ws' ∧ (changed = false → ws' = ws).
Proof.
  intros Hc. unfold sync_webhooks, pass.
  assert (∀ l : list ValidatingWebhook, Forall fails_closed (setAdmissionPolicy <$> l)) as Hfc.
  { intros l. apply Forall_fmap, Forall_true. by intros. }
  assert (∀ l : list ValidatingWebhook, (λ w, (pin_policy w).1) <$> l = setAdmissionPolicy <$> l) as Hpin.
  { intros l. apply list_fmap_ext. intros ? w _. apply pin_policy_spec. }
  assert (∀ l : list ValidatingWebhook, existsb (λ w, (pin_policy w).2) l = false → setAdmissionPolicy <$> l = l) as Hsame.
  { intros l Hl%existsb_false. rewrite <- (list_fmap_id l) at 2. apply list_fmap_ext. intros i w Hw.
    apply policy_idem, pin_policy_spec. by eapply (Forall_lookup_1 _ _ _ _ Hl). }
  destruct cert as [ca|e]; rewrite !Hpin; (split; [|split; [apply Hfc|]]).
  - apply Forall2_fmap_r, Forall2_fmap_r, Forall_Forall2_diag, Forall_true. intros w.
    by apply fill_bundle_synced, Hc.
  - intros [Hf Hp]%orb_false_iff. rewrite Hsame by done. apply existsb_false in Hf.
    rewrite <- (list_fmap_id ws) at 2. apply list_fmap_ext. intros i w Hw.
    pose proof (Forall_lookup_1 _ _ _ _ Hf Hw) as Hn. unfold fill_bundle in *. cbn in Hn. by case_bool_decide.
  - apply Forall2_fmap_r, Forall_Forall2_diag, Forall_true. apply synced_refl.
  - apply Hsame.
Qed.

(** ** The programs *)

Lemma wp_ca H :
  wp G getCaBundleFromCABundleConfigMap (λ x H', (∀ ca, x = Ok ca → read_ca ca H') ∧ same_pace H H') H.
Proof.
  unfold getCaBundleFromCABundleConfigMap, getCABundleConfigMap. apply wp_bind, wp_call_then; [done|].
  intros [data|e]; cbn; [|by split; [|apply same_pace_cons]]. split; [|by apply same_pace_cons]. unfold ca_bundle. intros ca. destruct (mlookup _ _) eqn:Hl; [|done].
  intros [= <-]. exists data. split; [by left | done].
Qed.

Lemma wp_create H : asked config_read H NotFoundErr →
  wp G (createValidatingWebhookConfiguration h) (λ x H', (x = Ok tt → registered H') ∧ same_pace H H') H.
Proof.
  intros Ha. unfold createValidatingWebhookConfiguration, getRancherFloatingIPWebhook, getRancherFloatingIPPoolWebhook.
  apply wp_bind. eapply wp_seq; [apply wp_ca|]. intros [ca1|e] H1 [Hc1 Hg1] Hh1; [|by cbn]. cbn [wp].
  apply wp_bind. eapply wp_seq; [apply wp_ca|]. intros [ca2|e] H2 [Hc2 Hg2] Hh2; [|by split; [|etrans]]. cbn [wp].
  apply wp_call.
  - split; [eapply asked_extends; [|done]; by etrans|]. exists ca1, ca2. split_and!; [| by apply Hc2 | done].
    destruct (Hc1 ca1 eq_refl) as (d & ? & ?). exists d. split; [by eapply elem_extends | done].
  - intros x. split; [|apply same_pace_cons; [done | done | by etrans]]. intros ->. exists (fresh_config ca1 ca2). split; [left; by left|].
    by repeat constructor.
Qed.

Lemma wp_sync old H : mkEv config_read (Ok old) ∈ H →
  wp G (syncAdmissionPolicy old) (λ x H', (x = Ok tt → registered H') ∧ same_pace H H') H.
Proof.
  intros Hold. unfold syncAdmissionPolicy. eapply wp_seq; [apply wp_ca|]. intros cert H1 [Hc Hg] Hh.
  pose proof (sync_webhooks_spec cert (vwc_Webhooks old) H1 Hc) as Hs.
  destruct (sync_webhooks cert (vwc_Webhooks old)) as [ws []] eqn:Hw; destruct Hs as (Hf2 & Hfc & Hsame); cbn [negb].
  - apply wp_call_then; [exists old; split; [by eapply elem_extends | done]|].
    intros [[]|e]; (split; [|by apply same_pace_cons]); [|done]. intros _. eexists. split; [right; left; by left | done].
  - split; [|done]. intros _. exists old. split; [right; right; by eapply elem_extends|]. by rewrite <- Hsame.
Qed.

Lemma wp_Add H : (gets H < 5)%nat → waits H = gets H →
  wp G (AddValidatingWebhookConfiguration h) (λ x H', (x = Ok tt → registered H') ∧
    gets H' = S (gets H) ∧ waits H' = waits H) H.
Proof.
  intros Hg Hw. unfold AddValidatingWebhookConfiguration. apply wp_call_then; [done|]. intros [old|e].
  - apply wp_sync. by left.
  - destruct (IsNotFound e) eqn:He; [|by cbn]. apply wp_create. apply asked_cons. by exists e.
Qed.

Lemma wp_retry_from fuel : ∀ attempt delay maxDelay H,
  maxDelay = 16 * 10 ^ 9 → delay = 2 ^ Z.of_nat (waits H) * 10 ^ 9 → (waits H + fuel = 4)%nat → gets H = waits H →
  wp G (retry_from fuel attempt delay maxDelay (AddValidatingWebhookConfiguration h)) (λ x H', x = Ok tt → registered H') H.
Proof.
  induction fuel as [|fuel IH]; intros attempt delay maxDelay H Hm Hd Hf Hg; cbn [retry_from].
  all: eapply wp_seq; [apply wp_Add; lia|]; intros [[]|e] H1 (Hr & Hg1 & Hw1) Hh; cbn beta iota; [by apply wp_ret|].
  - by apply wp_ret.
  - apply wp_call_then; [split_and!; [lia | lia | by rewrite Hw1]|].
    intros [[]|ce]; [|by apply wp_ret]. apply IH; [done | | rewrite waits_cons; cbn; lia | rewrite gets_cons, waits_cons; cbn; lia].
    rewrite waits_cons. cbn [is_wait ev_c]. rewrite Hw1. subst delay maxDelay. clear - Hf.
    assert (waits H ≤ 3)%nat as Hw by lia. clear Hf. revert Hw. generalize (waits H). intros n Hn.
    do 4 (destruct n as [|n]; [done|]). lia.
Qed.

(** C39: the registration of the webhook.  In every run of [Init] the configuration
    is looked at in at most five attempts, and between one and the next there is one
    wait, of 1, 2, 4 and 8 seconds in this order; it is created only when it was found missing, with the bundle that was read and
    both webhooks failing closed after ten seconds, and otherwise updated, which
    changes nothing but the policy and the bundles that were empty.  If [Init]
    succeeds, every webhook of the configuration in force denies what it cannot
    have validated. *)
Theorem webhook_fails_closed x H :
  execs (adm_Init h) [] x H → obeys admission_guard [] H ∧ (x = Ok tt → registered H).
Proof.
  intros Hx. cut (wp G (adm_Init h) (λ x H', x = Ok tt → registered H') []).
  { intros Hw. by destruct (wp_execs _ _ _ _ _ _ Hx Hw). }
  unfold adm_Init, retryWithBackoff. change (Z.to_nat (addWebhookConfigMaxRetries - 1)) with 4%nat.
  by apply wp_retry_from.
Qed.
End Admission.
