(* ===== verification/Collector.v ===== *)
(** The metrics of the address manager, [pkg/service/collector.go]: the rows that
    one scrape emits, in the order of the listers, and when the registry accepts
    them.

    The registry fails a scrape in which two metrics have the same name and the
    same label values; the handler of [/metrics] then answers with that error and
    no metrics.  Label values are valid UTF-8, as every string of the API is. *)

From Stdlib Require Import SpecFloat.
From S2P Require Import Prelude GoStd ApiTypes.

(** A descriptor: its name and the names of its labels. *)
Record Desc := mkDesc { d_Name : string; d_Labels : list string }.

Definition pool_labels : list string := ["fippool"; "subnet"; "target_cluster"; "target_network"].
Definition poolCapacity : Desc := mkDesc "rancherfipmanager_ippool_capacity" pool_labels.
Definition poolAvailable : Desc := mkDesc "rancherfipmanager_ippool_available" pool_labels.
Definition poolUsed : Desc := mkDesc "rancherfipmanager_ippool_used" pool_labels.
Definition quotaTimestamp : Desc := mkDesc "rancherfipmanager_floatingipprojectquota_created" ["project_id"].
Definition quotaInfo : Desc := mkDesc "rancherfipmanager_floatingipprojectquota" ["project_id"; "fippool"; "type"].
Definition floatingIPs : Desc := mkDesc "rancherfipmanager_floatingips"
  ["fippool"; "ip"; "status"; "project_id"; "managed_cluster_id"; "floatingip_group"; "service_name"; "service_namespace"].

Definition Describe : list Desc := [poolCapacity; poolAvailable; poolUsed; quotaTimestamp; quotaInfo; floatingIPs].

(** A gauge with its label values. *)
Record Metric := mkMetric { m_Desc : Desc; m_Value : spec_float; m_Values : list string }.

Definition identity (m : Metric) : string * list string := (d_Name (m_Desc m), m_Values m).

Definition collect_pool (pool : FloatingIPPool) : list Metric :=
  match ps_IPConfig (pool_Spec pool) with
  | None => []
  | Some cfg =>
      let values := [Name (pool_meta pool); Subnet cfg; TargetCluster (pool_Spec pool); TargetNetwork (pool_Spec pool)] in
      let st := pool_Status pool in
      [mkMetric poolCapacity (float64 (wrap64 (pst_Available st + pst_Used st))) values;
       mkMetric poolAvailable (float64 (pst_Available st)) values;
       mkMetric poolUsed (float64 (pst_Used st)) values]
  end.

(** A lister that fails ends its part of the scrape. *)
Definition collectPools (pools : res (list FloatingIPPool)) : list Metric :=
  match pools with Err _ => [] | Ok pools => pools ≫= collect_pool end.

Definition unix (t : time) : Z := t / 10 ^ 9.

Section Range.
Context `{HRange : MapRange}.

Definition quota_rows (quota : FloatingIPProjectQuota) (e : string * Z) : list Metric :=
  let '(poolName, hardQuota) := e in
  let used := match mlookup (FloatingIPs (quota_Status quota)) poolName with
    | Some (Some info) => float64 (fi_Used info)
    | _ => float64 0
    end in
  [mkMetric quotaInfo (float64 hardQuota) [Name (quota_meta quota); poolName; "hard"];
   mkMetric quotaInfo used [Name (quota_meta quota); poolName; "used"]].

Definition collect_quota (quota : FloatingIPProjectQuota) : list Metric :=
  mkMetric quotaTimestamp (float64 (unix (CreationTimestamp (quota_meta quota)))) [Name (quota_meta quota)]
  :: (range (default ∅ (FloatingIPQuota (quota_Spec quota))) ≫= quota_rows quota).

Definition collectQuotas (quotas : res (list FloatingIPProjectQuota)) : list Metric :=
  match quotas with Err _ => [] | Ok quotas => quotas ≫= collect_quota end.

Definition fip_row (fip : FloatingIP) (status group svc ns : string) : Metric :=
  mkMetric floatingIPs (float64 1)
    [fs_FloatingIPPool (fip_Spec fip); st_IPAddr (fip_Status fip); status;
     mget (Labels (fip_meta fip)) "rancher.k8s.binbash.org/project-name";
     mget (Labels (fip_meta fip)) "rancher.k8s.binbash.org/cluster-name"; group; svc; ns].

Definition collect_fip (fip : FloatingIP) : list Metric :=
  match Assigned (fip_Status fip) with
  | None => [fip_row fip "unassigned" "" "" ""]
  | Some a =>
      match Services a with
      | [] => [fip_row fip "assigned" "" "" ""]
      | services => (λ svc, fip_row fip "assigned" (FloatingIPGroup a) (ServiceName svc) (ServiceNamespace svc)) <$> services
      end
  end.

Definition collectFloatingIPs (fips : res (list FloatingIP)) : list Metric :=
  match fips with Err _ => [] | Ok fips => fips ≫= collect_fip end.

Definition Collect (pools : res (list FloatingIPPool)) (quotas : res (list FloatingIPProjectQuota))
    (fips : res (list FloatingIP)) : list Metric :=
  collectPools pools ++ collectQuotas quotas ++ collectFloatingIPs fips.
End Range.

(** The registry's check. *)
Definition accepted (ms : list Metric) : Prop := NoDup (identity <$> ms).

#[export] Instance accepted_dec ms : Decision (accepted ms).
Proof. apply _. Defined.

(** * When a scrape is accepted *)

(** When the registry accepts a scrape of the address manager. *)

(** A list that is made in groups has no duplicates if no group has and the
    members of a group show which one they are of. *)
Lemma NoDup_bind_tagged {A B K} (f : A → list B) (key : A → K) (tag : B → K) (l : list A) :
  (∀ a b, b ∈ f a → tag b = key a) → NoDup (key <$> l) → (∀ a, a ∈ l → NoDup (f a)) → NoDup (l ≫= f).
Proof.
  intros Htag. induction l as [|a l IH]; intros Hk Hf; [constructor|]. rewrite bind_cons.
  rewrite fmap_cons in Hk. apply NoDup_cons in Hk as [Ha Hk].
  apply NoDup_app. split_and!; [by apply Hf; left | | apply IH; [done|]; intros b Hb; apply Hf; by right].
  intros b Hb Hl. apply Ha. apply list_elem_of_bind in Hl as (a' & Hb' & Ha').
  rewrite <- (Htag _ _ Hb), (Htag _ _ Hb'). by apply list_elem_of_fmap_2.
Qed.

Lemma fmap_bind {A B C} (f : A → list B) (g : B → C) (l : list A) : g <$> (l ≫= f) = l ≫= (λ a, g <$> f a).
Proof. induction l as [|a l IH]; [done|]. by rewrite !bind_cons, fmap_app, IH. Qed.

Section Scrape.
Context `{HRange : MapRange}.

Notation ids ms := (identity <$> ms).

(** ** The names of each part *)

Lemma pools_named p ps : p ∈ ids (collectPools ps) → p.1 ∈ [d_Name poolCapacity; d_Name poolAvailable; d_Name poolUsed].
Proof.
  intros (m & -> & Hm)%list_elem_of_fmap. destruct ps as [ps|e]; [|set_solver].
  apply list_elem_of_bind in Hm as (pool & Hm & _). unfold collect_pool in Hm.
  destruct (ps_IPConfig _); [|set_solver]. repeat (apply elem_of_cons in Hm as [-> | Hm]); set_solver.
Qed.

Lemma quota_named p q : p ∈ ids (collect_quota q) → p.1 ∈ [d_Name quotaTimestamp; d_Name quotaInfo].
Proof.
  intros (m & -> & Hm)%list_elem_of_fmap. apply elem_of_cons in Hm as [-> | Hm]; [set_solver|].
  apply list_elem_of_bind in Hm as ((pool & hard) & Hm & _). repeat (apply elem_of_cons in Hm as [-> | Hm]); set_solver.
Qed.

Lemma quotas_named p qs : p ∈ ids (collectQuotas qs) → p.1 ∈ [d_Name quotaTimestamp; d_Name quotaInfo].
Proof.
  destruct qs as [qs|e]; [|set_solver]. unfold collectQuotas. rewrite fmap_bind.
  intros (q & Hp & _)%list_elem_of_bind. by eapply quota_named.
Qed.

Lemma fips_named p fs : p ∈ ids (collectFloatingIPs fs) → p.1 = d_Name floatingIPs.
Proof.
  intros (m & -> & Hm)%list_elem_of_fmap. destruct fs as [fs|e]; [|set_solver].
  apply list_elem_of_bind in Hm as (f & Hm & _). unfold collect_fip in Hm.
  destruct (Assigned _) as [a|]; [|set_solver]. destruct (Services a) as [|s l]; [set_solver|].
  apply list_elem_of_fmap in Hm as (? & -> & _). done.
Qed.

(** ** Each part has no duplicates *)

Lemma accepted_pools ps : NoDup ((λ p, Name (pool_meta p)) <$> ps) → accepted (collectPools (Ok ps)).
Proof.
  intros Hps. unfold accepted, collectPools. rewrite fmap_bind.
  apply (NoDup_bind_tagged _ (λ p, Name (pool_meta p)) (λ i, hd "" i.2)); [| done |].
  - intros p i Hi. unfold collect_pool in Hi. destruct (ps_IPConfig _); [|set_solver].
    cbn in Hi. repeat (apply elem_of_cons in Hi as [-> | Hi]); done || set_solver.
  - intros p _. unfold collect_pool. destruct (ps_IPConfig _); [|constructor]. cbn.
    repeat (apply NoDup_cons; split; [set_solver by (compute; congruence)|]). constructor.
Qed.

Lemma accepted_quota q : accepted (collect_quota q).
Proof.
  unfold accepted, collect_quota. rewrite fmap_cons, fmap_bind. apply NoDup_cons. split.
  - intros ((pool & hard) & Hi & _)%list_elem_of_bind. cbn in Hi.
    repeat (apply elem_of_cons in Hi as [? | Hi]); [done.. | set_solver].
  - apply (NoDup_bind_tagged _ fst (λ i, nth 1 i.2 "")).
    + intros [pool hard] i Hi. cbn in Hi. repeat (apply elem_of_cons in Hi as [-> | Hi]); done || set_solver.
    + rewrite range_perm. apply NoDup_fst_map_to_list.
    + intros [pool hard] _. cbn. repeat (apply NoDup_cons; split; [set_solver by congruence|]). constructor.
Qed.

Lemma accepted_quotas qs : NoDup ((λ q, Name (quota_meta q)) <$> qs) → accepted (collectQuotas (Ok qs)).
Proof.
  intros Hqs. unfold accepted, collectQuotas. rewrite fmap_bind.
  apply (NoDup_bind_tagged _ (λ q, Name (quota_meta q)) (λ i, hd "" i.2)); [| done | intros q _; apply accepted_quota].
  intros q i Hi. unfold collect_quota in Hi. rewrite fmap_cons in Hi. apply elem_of_cons in Hi as [-> | Hi]; [done|].
  rewrite fmap_bind in Hi. apply list_elem_of_bind in Hi as ((pool & hard) & Hi & _). cbn in Hi.
  repeat (apply elem_of_cons in Hi as [-> | Hi]); done || set_solver.
Qed.

Definition place (f : FloatingIP) : string * string := (fs_FloatingIPPool (fip_Spec f), st_IPAddr (fip_Status f)).

Lemma accepted_fips fs :
  NoDup (place <$> fs) → (∀ f a, f ∈ fs → Assigned (fip_Status f) = Some a → NoDup (Services a)) →
  accepted (collectFloatingIPs (Ok fs)).
Proof.
  intros Hfs Hs. unfold accepted, collectFloatingIPs. rewrite fmap_bind.
  apply (NoDup_bind_tagged _ place (λ i, (hd "" i.2, nth 1 i.2 ""))); [| done |].
  - intros f i (m & -> & Hm)%list_elem_of_fmap. unfold collect_fip in Hm.
    destruct (Assigned _) as [a|]; [|by apply list_elem_of_singleton in Hm as ->].
    destruct (Services a) as [|s l]; [by apply list_elem_of_singleton in Hm as ->|].
    by apply list_elem_of_fmap in Hm as (? & -> & _).
  - intros f Hf. unfold collect_fip. destruct (Assigned _) as [a|] eqn:Ha; [|apply NoDup_singleton].
    specialize (Hs f a Hf Ha). destruct (Services a) as [|s l] eqn:Hl; [apply NoDup_singleton|].
    rewrite <- Hl in *. rewrite <- list_fmap_compose. apply NoDup_fmap_2_strong; [|done].
    intros [ns1 n1] [ns2 n2] _ _. cbn. intros [=]. by subst.
Qed.

(** A scrape of the address manager.  If pools and quotas have distinct names,
    no two addresses of a pool are the same, and no address lists a service twice,
    then no two of the metrics have the same name and labels, so the registry
    accepts the scrape, whatever order a map is listed in. *)
Theorem scrape_accepted pools quotas fips :
  NoDup ((λ p, Name (pool_meta p)) <$> pools) → NoDup ((λ q, Name (quota_meta q)) <$> quotas) →
  NoDup (place <$> fips) → (∀ f a, f ∈ fips → Assigned (fip_Status f) = Some a → NoDup (Services a)) →
  accepted (Collect (Ok pools) (Ok quotas) (Ok fips)).
Proof.
  intros Hp Hq Hf Hs. unfold accepted, Collect. rewrite !fmap_app. apply NoDup_app. split_and!.
  - by apply accepted_pools.
  - intros i Hi%pools_named Hn. apply elem_of_app in Hn as [Hn%quotas_named | Hn%fips_named]; [|rewrite Hn in Hi].
    all: repeat (apply elem_of_cons in Hi as [Hi | Hi]); try (rewrite Hi in Hn); compute in *; set_solver by congruence.
  - apply NoDup_app. split_and!; [by apply accepted_quotas | | by apply accepted_fips].
    intros i Hi%quotas_named Hn%fips_named. rewrite Hn in Hi. compute in Hi. set_solver by congruence.
Qed.

(** Two requests of one project that wait for an address of the same pool have the
    same labels: they fail the scrape, of all metrics. *)
Lemma pending_requests_break_scrape pools quotas l1 f l2 g l3 :
  Assigned (fip_Status f) = None → Assigned (fip_Status g) = None → place f = place g →
  (∀ k, mget (Labels (fip_meta f)) k = mget (Labels (fip_meta g)) k) →
  ¬ accepted (Collect pools quotas (Ok (l1 ++ f :: l2 ++ g :: l3))).
Proof.
  intros Hf Hg Hp Hl. unfold accepted, Collect. rewrite !fmap_app.
  intros (_ & _ & (_ & _ & Hnd)%NoDup_app)%NoDup_app. revert Hnd.
  unfold collectFloatingIPs. rewrite fmap_bind, !bind_app, !bind_cons, !bind_app, !bind_cons.
  intros (_ & _ & Hnd)%NoDup_app. revert Hnd. unfold collect_fip at 1. rewrite Hf. cbn. intros [Hnot _]%NoDup_cons.
  apply Hnot. unfold place in Hp. injection Hp as Hp1 Hp2. unfold fip_row. rewrite Hp1, Hp2, !Hl.
  apply elem_of_app. right. apply elem_of_app. left. unfold collect_fip. rewrite Hg. by left.
Qed.
End Scrape.
