(* ===== verification/ServicesDemo.v ===== *)
(** The webhook's certificate, its registration and the metrics at concrete inputs;
    among them a Secret that is not repaired. *)

From S2P Require Import Prelude Prog GoStd ApiTypes WebhookCerts WebhookCertsCorrect WebhookAdmission Collector.

(** A certificate is [PEM:] and a name; it runs out at a fixed time, an [old] one
    soon.  A key belongs to every certificate unless it is [garbage]. *)
#[local] Instance demo_certs : CertLib := {|
  pem_decode := λ s, if HasPrefix s "PEM:" then Some (TrimPrefix s "PEM:") else None;
  pem_encode := λ _ bytes, Some ("PEM:" +:+ bytes);
  ParseCertificate := λ s,
    if bool_decide (s = "old") then Ok (1000 * (60 * 10 ^ 9))
    else if bool_decide (s = "new") then Ok (500000 * (60 * 10 ^ 9)) else Err (errorf "x509: malformed certificate");
  MarshalPKCS8PrivateKey := Ok;
  X509KeyPair := λ cert key,
    if bool_decide (key = "garbage") then Err (errorf "tls: failed to find any PEM data in key input")
    else Ok (cert +:+ "/" +:+ key)
|}.

Record CertWorld := mkCertWorld {
  cw_secret : option TlsSecret; cw_requests : list string; cw_signer : string;
  cw_files : gmap string string; cw_served : option string; cw_serving : bool
}.

Definition cw_set_files (w : CertWorld) (f : gmap string string) : CertWorld :=
  mkCertWorld (cw_secret w) (cw_requests w) (cw_signer w) f (cw_served w) (cw_serving w).
Definition cw_set_secret (w : CertWorld) (s : TlsSecret) : CertWorld :=
  mkCertWorld (Some s) (cw_requests w) (cw_signer w) (cw_files w) (cw_served w) (cw_serving w).
Definition cw_set_requests (w : CertWorld) (l : list string) : CertWorld :=
  mkCertWorld (cw_secret w) l (cw_signer w) (cw_files w) (cw_served w) (cw_serving w).
Definition cw_set_server (w : CertWorld) (served : option string) (serving : bool) : CertWorld :=
  mkCertWorld (cw_secret w) (cw_requests w) (cw_signer w) (cw_files w) served serving.

Definition missing : error := mkErr KNotFound "not found".

Definition cert_handle : Handler CertCall CertWorld := λ R c,
  match c in CertCall R return CertWorld → R * CertWorld with
  | TlsSecretGet _ _ => λ w, (match cw_secret w with Some s => Ok s | None => Err missing end, w)
  | TlsSecretCreate s | TlsSecretUpdate s => λ w, (Ok tt, cw_set_secret w s)
  | CsrGet n => λ w, (if bool_decide (n ∈ cw_requests w) then Ok (mkCsr n None (cw_signer w)) else Err missing, w)
  | CsrCreate r => λ w, (Ok tt, cw_set_requests w (cr_Name r :: cw_requests w))
  | CsrApprove _ _ _ | PollTick => λ w, (Ok tt, w)
  | CsrDelete n => λ w, (Ok tt, cw_set_requests w (filter (λ m, m ≠ n) (cw_requests w)))
  | GenerateKey _ => λ w, (Ok "key", w)
  | CreateCertificateRequest t _ => λ w, (Ok (ct_CommonName t), w)
  | FileCreateTemp target => λ w, (Ok (target +:+ ".tmp"), w)
  | FileWrite f data => λ w, (Ok tt, cw_set_files w (<[f := data]> (cw_files w)))
  | FileChmod _ _ | FileClose _ => λ w, (Ok tt, w)
  | FileRename a b => λ w, (Ok tt, cw_set_files w (match cw_files w !! a with
      | Some data => <[b := data]> (delete a (cw_files w)) | None => cw_files w end))
  | FileRemove f => λ w, (tt, cw_set_files w (delete f (cw_files w)))
  | FileRead f => λ w, (match cw_files w !! f with Some data => Ok data | None => Err missing end, w)
  | CertNow => λ w, (0, w)
  | SetCertificate p => λ w, (tt, cw_set_server w (Some p) (cw_serving w))
  | IsServing => λ w, (cw_serving w, w)
  | StopServer => λ w, (Ok tt, w)
  | StartServer => λ w, (tt, cw_set_server w (cw_served w) true)
  | CertSleep _ => λ w, (tt, w)
  end.

Definition run_certs {A} (p : Prog CertCall A) (w : CertWorld) : A * CertWorld * History CertCall := run cert_handle p w [].

Definition demo_handler : CertHandler := mkCertHandler "fip-webhook" "fip" "/home/fip".
Definition tls_secret (cert key : string) : TlsSecret :=
  mkTlsSecret "fip-webhook-tls" "fip" "kubernetes.io/tls" (Some {["tls.crt" := cert; "tls.key" := key]}).

(** A stale request, a certificate that runs out in 1000 minutes, and a server
    that never started. *)
Definition expiring : CertWorld :=
  mkCertWorld (Some (tls_secret "PEM:old" "oldkey")) [csrName demo_handler] "PEM:new" ∅ None false.

Lemma renewal_never_bricks_witness :
  let y := run_certs (renewCertificate demo_handler 1440) expiring in
  cw_secret y.1.2 = Some (tls_secret "PEM:new" "PEM:key") ∧ cw_served y.1.2 = Some "PEM:new/PEM:key" ∧ cw_serving y.1.2 = true ∧
  cw_files y.1.2 = {["/home/fip/tls.crt" := "PEM:new"; "/home/fip/tls.key" := "PEM:key"]} ∧
  obeys (renewal_guard demo_handler 1440) [] y.2.
Proof.
  intros y. split; [vm_compute; reflexivity|]. split; [vm_compute; reflexivity|]. split; [vm_compute; reflexivity|].
  split; [vm_compute; reflexivity|]. destruct (renewal_never_bricks demo_handler 1440) as [Hr _]. apply Hr.
  assert (y.1.1 = tt) as <- by (destruct y.1.1; reflexivity).
  exact (run_execs cert_handle (renewCertificate demo_handler 1440) expiring []).
Defined.

(** A signer that does not answer costs nothing: the Secret stays. *)
Example slow_signer :
  let w := mkCertWorld (cw_secret expiring) [] "" ∅ None true in
  let y := run_certs (config_Run demo_handler 1440) w in
  cw_secret y.1.2 = cw_secret w ∧ is_some y.1.1.2 = true.
Proof. vm_compute. done. Qed.

(** The key is not looked at: a Secret whose key cannot be used with its
    certificate is not renewed, and nothing can be served from it. *)
Lemma broken_key_not_renewed :
  let w := mkCertWorld (Some (tls_secret "PEM:new" "garbage")) [] "PEM:new" ∅ None true in
  let y := run_certs (config_Run demo_handler 1440) w in
  y.1.1 = (false, None) ∧ cw_secret y.1.2 = cw_secret w ∧
  is_err (run_certs (ServingCertificate demo_handler) w).1.1 = true.
Proof. vm_compute. done. Qed.

(** The scheduler waits a third of what is left, at most the period; within the
    period it is there every minute, however long the period is. *)
Example check_intervals :
  renewalCheckIntervalMinutes 525600 1440 = 1440 ∧ renewalCheckIntervalMinutes 3000 1440 = 1000 ∧
  renewalCheckIntervalMinutes 900 1440 = 1 ∧ renewalCheckIntervalMinutes (-5) 1440 = 1 ∧
  renewalCheckIntervalMinutes (two63 - 1) (- two63) = 1.
Proof. vm_compute. done. Qed.

Example env_periods : certRenewal_of_env "" = 43200 ∧ certRenewal_of_env "5" = 60 ∧ certRenewal_of_env "999999" = 129600.
Proof. vm_compute. done. Qed.

(** ** Metrics *)

#[local] Existing Instance sorted_range.

Definition meta_named (name : string) (labels : gomap string) : ObjectMeta := mkMeta name "" labels None [] "1" 0 None.

Definition pool_a : FloatingIPPool :=
  mkFIPPool (meta_named "a" None)
    (mkPoolSp (Some (mkIPConfig "IPv4" "10.0.0.0/24" (mkPool "10.0.0.1" "10.0.0.9" []))) "c1" "net" "eth0")
    (mkPoolStatus None 3 5).
Definition broken_pool : FloatingIPPool := mkFIPPool (meta_named "b" None) (mkPoolSp None "" "" "") (mkPoolStatus None 0 0).
Definition quota_p : FloatingIPProjectQuota :=
  mkQuota (meta_named "p1" None) (mkQuotaSpec "P" (Some {["a" := 4; "b" := 2]}))
    (mkQuotaStatus (Some {["a" := Some (mkFipInfo "IPv4" None 1)]})).
Definition scraped_fip (name ip : string) (a : option AssignedInfo) : FloatingIP :=
  mkFIP (meta_named name (Some {["rancher.k8s.binbash.org/project-name" := "p1"]})) (mkFIPSpec None "a") (mkFIPStatus ip "" a []).
Definition shared_fip : FloatingIP :=
  scraped_fip "f" "10.0.0.1" (Some (mkAssigned "c1" "p1" "g" "k" [mkSvc "ns" "web"; mkSvc "ns" "dns"])).

Lemma scrape_accepted_witness :
  let ms := Collect (Ok [pool_a; broken_pool]) (Ok [quota_p]) (Ok [shared_fip; scraped_fip "g" "" None]) in
  length ms = 11%nat ∧ accepted ms.
Proof.
  split; [vm_compute; reflexivity|]. apply scrape_accepted.
  - vm_compute. repeat (apply NoDup_cons; split; [set_solver by discriminate|]). constructor.
  - apply NoDup_singleton.
  - vm_compute. repeat (apply NoDup_cons; split; [set_solver by discriminate|]). constructor.
  - intros f a Hf Ha. repeat (apply elem_of_cons in Hf as [-> | Hf]); [| done | by apply not_elem_of_nil in Hf].
    injection Ha as <-. apply (bool_decide_unpack _). vm_compute. exact I.
Defined.

(** The capacity is what is free and what is used; a pool without configuration
    is left out. *)
Example pool_metrics :
  (λ m, (d_Name (m_Desc m), m_Value m)) <$> collectPools (Ok [pool_a; broken_pool]) =
  [("rancherfipmanager_ippool_capacity", float64 8); ("rancherfipmanager_ippool_available", float64 5);
   ("rancherfipmanager_ippool_used", float64 3)].
Proof. vm_compute. reflexivity. Qed.

(** Two requests that wait for an address. *)
Example two_pending : ¬ accepted (Collect (Ok [pool_a]) (Ok [quota_p]) (Ok [scraped_fip "g" "" None; scraped_fip "h" "" None])).
Proof. by apply (pending_requests_break_scrape _ _ [] _ [] _ []). Qed.

(** ** The registration *)

Record AdmWorld := mkAdmWorld { aw_config : option WebhookConfiguration; aw_ca : option string; aw_failures : nat }.

(** The first reads fail. *)
Definition adm_handle : Handler AdmCall AdmWorld := λ R c,
  match c in AdmCall R return AdmWorld → R * AdmWorld with
  | VwcGet n => λ w,
      match aw_failures w with
      | S k => (Err (errorf "connection refused"), mkAdmWorld (aw_config w) (aw_ca w) k)
      | O => (match aw_config w with Some v => Ok v | None => Err (mkErr KNotFound "not found") end, w)
      end
  | VwcCreate v | VwcUpdate v => λ w, (Ok tt, mkAdmWorld (Some v) (aw_ca w) (aw_failures w))
  | CaConfigMapGet _ _ => λ w, (Ok ((λ ca, {["ca.crt" := ca]}) <$> aw_ca w), w)
  | AdmWait _ => λ w, (Ok tt, w)
  end.

Definition demo_adm : AdmHandler := mkAdmHandler "fip-webhook" "fip" "fip-validator".
Definition run_adm (w : AdmWorld) : res unit * AdmWorld * History AdmCall := run adm_handle (adm_Init demo_adm) w [].

(** A configuration of an older release, with a bundle of its own in the first
    webhook. *)
Definition old_webhook (ca : string) : ValidatingWebhook :=
  mkWebhook "floatingip" (mkClientConfig None ca) [] (Some "Ignore") None None None ["v1"].
Definition old_world (failures : nat) : AdmWorld :=
  mkAdmWorld (Some (mkVwc "fip-validator" [old_webhook "mine"; old_webhook ""])) (Some "root") failures.

Lemma webhook_fails_closed_witness :
  let y := run_adm (old_world 4) in
  y.1.1 = Ok tt ∧
  ((λ v, (λ w, (wc_CABundle (vw_ClientConfig w), vw_FailurePolicy w, vw_TimeoutSeconds w)) <$> vwc_Webhooks v) <$> aw_config y.1.2)
    = Some [("mine", Some "Fail", Some 10); ("root", Some "Fail", Some 10)] ∧
  obeys (admission_guard demo_adm) [] y.2 ∧ registered demo_adm y.2.
Proof.
  intros y. assert (y.1.1 = Ok tt) as Hx by (vm_compute; reflexivity). split; [exact Hx|]. split; [vm_compute; reflexivity|].
  destruct (webhook_fails_closed demo_adm _ _ (run_execs adm_handle (adm_Init demo_adm) (old_world 4) [])) as [Ho Hr].
  split; [exact Ho | exact (Hr Hx)].
Defined.

(** The fifth failure is the last. *)
Example gives_in : is_err (run_adm (old_world 5)).1.1 = true ∧ length (run_adm (old_world 9)).2 = 9%nat.
Proof. vm_compute. done. Qed.
